(* ===== verification/_CoqProject ===== *)
-Q . S2P
Prelude.v
CppString.v
Coding.v
Slice.v
InternalKey.v
SkipHeap.v
SkipList.v
Versions.v
MemTable.v
Bloom.v
Block.v
Caches.v
Compression.v
FileSystem.v
Env.v
Wal.v
SSTable.v
SSTableProofs.v
Manifest.v
ManifestProofs.v
Merging.v
Compaction.v
CompactionProofs.v
DBImpl.v
DBProofs.v
DBRecovery.v
DBFlush.v
DBLifecycle.v
GroupCommit.v
Network.v
ConnectionProofs.v
Server.v
ServerProofs.v
ServerDB.v
Reactor.v
ServerMain.v
DBThreads.v
ServerRun.v
LoadBalance.v
BalanceProofs.v
Http.v
HttpProofs.v
Timers.v
Gateway.v
GatewayProofs.v
GatewayConfig.v
Ownership.v
SpscQueue.v
Mvcc.v
CourseSkip.v
CourseBasics.v
Sharding.v
MiniLsm.v
ProxyCourse.v
HandLru.v
HandPool.v
CourseModern.v
CourseValues.v
CourseMains.v
Coroutines.v
SkynetNet.v
GatewayRun.v
GatewayMain.v
