(* ===== verification/Prelude.v ===== *)
(** * TitanKV verification

    TitanKV is a log-structured key-value store ([minikv]) with a TCP front end, and an HTTP
    gateway ([skynet]).  This library models both from the C++ sources under [src/minikv] and
    [src/skynet] and proves what makes them correct.

    ** How the parts interact

    A write ([DBImpl::write]) joins a group of batches; the leader of the group appends one
    record to the write-ahead log and then inserts every operation into the memtable, a skip
    list ordered by internal keys (user key, sequence number, type).  A full memtable is
    frozen and a background thread flushes it to a sorted table of level 0, registers the
    table in the version (which logs it in the manifest) and deletes the log.  Another thread
    merges the tables of a level into the next one.  A read looks at the memtable, the frozen
    memtables and the tables level by level; opening a directory replays the manifest and the
    logs.

    The server's main loop accepts connections and hands each to a sub reactor, an event loop
    on a thread of its own; a connection cuts the byte stream into requests, which are
    executed on that thread or one at a time by a pool of workers, and writes the responses
    back.  The gateway accepts HTTP clients, reads a request with an incremental parser,
    selects an upstream, forwards the request and relays the response; a health check marks
    upstreams up and down.

    ** Files

    - [Prelude]: bytes, machine integers, the undefined-behaviour monad ([None] is undefined
      behaviour), little-endian codecs, sorting, generic lemmas, the hint database [titan].
    - [CppString]: the parts of [std::string] and of decimal conversion the sources use.
    - [Coding]: [utils/coding.h], [crc32.cpp], [hash.h].  [Slice]: [slice.h], [status.h],
      [write_batch.h], [options.h].  [InternalKey]: [core/internal_key].
    - [SkipHeap]: heaps of nodes with forward pointers, which the skip lists share (search,
      linking, unlinking, freeing).  [SkipList]: [core/skip_list.h] on them.  [Versions]:
      what a list of versions says about a user key wherever they are stored ([reads]: the
      version with the greatest sequence number, a tombstone is nothing; [ordered], the stacks
      of layers in which looking from above finds it), and the interface of iterators
      ([IterOps], [IterSpec]).  [MemTable]: [memtable], [memtable_iterator].
    - [Bloom], [Block], [Caches], [Compression], [SSTable] (proofs in [SSTableProofs]): tables
      and their parts.
    - [FileSystem]: files as byte strings, with a script of faults: every system call may
      succeed, fail after part of its effect, or be the one the process dies in.  [Env]:
      [utils/env_posix.cpp] over it.
    - [Wal]: [core/wal].  [Manifest] (proofs in [ManifestProofs]): [core/manifest] and
      [core/version].
    - [Merging]: [merging_iterator] over any iterator.  [Compaction] (proofs in
      [CompactionProofs]): [core/compaction].
    - [DBImpl]: [core/db_impl]; [DBProofs]: reads and writes; [DBRecovery]: reopening and
      crashes; [DBFlush]: flushing; [DBLifecycle]: any sequence of writes, reads, flushes,
      compactions and restarts; [GroupCommit]: concurrent writers as a step relation;
      [DBThreads]: the flush and the compaction thread and the destructor that stops them.
    - [Network] (proofs in [ConnectionProofs]): [network/protocol.h] and [network/connection],
      with and without the worker pool.  [Server] (proofs in [ServerProofs]): the request
      handler of [network/server.cpp] over an interface of databases ([DBOps], [DBLaws]);
      [ServerDB]: the store of [DBImpl] as an instance of it.
    - [Reactor]: [event_loop] and [thread_pool.h] as step relations over the atomic actions of
      all threads.  [ServerMain]: sub reactors, accept loop, start of the server, arguments of
      [main.cpp].  [ServerRun]: the whole process from [Server::run] to the end of [main], the
      destructors of the server and of the database included, with signal handlers on any
      thread.
    - [LoadBalance] (proofs in [BalanceProofs]): [proxy/upstream], [proxy/load_balancer],
      [proxy/health_check] of skynet.  [Http] (proofs in [HttpProofs]): [http/*] and
      [proxy/middleware].  [Timers]: [core/timer_wheel], [core/executor], [net/io_context].
      [Gateway] (proofs in [GatewayProofs]): [proxy/connection_pool] and [gateway/main.cpp];
      [GatewayConfig]: [config/config.cpp].  [Coroutines]: [core/task.h],
      [core/detached_task.h], [net/io_awaitable.h] as a machine over coroutine bodies.
      [SkynetNet]: [net/socket], [net/tcp_stream], [net/acceptor].  [GatewayRun]: the
      executor's loop and the threads of [gateway/main.cpp] as step relations.  [GatewayMain]:
      set-up of the program, thread of the health check, timed connections, resolver.
    - [Ownership]: unique pointers and the tasks that own coroutine frames.
    - Programs of the course under [practice/]: [SpscQueue] (the lock-free queue of
      [handwrite/]), [Mvcc] (module 8), [Sharding] (modules 6 and 11), [MiniLsm] (module 7),
      [ProxyCourse] (module 10), [HandLru] and [HandPool] (the cache and the pool of
      [handwrite/]), [CourseSkip] (the skip lists of modules 5 and 14 and of [handwrite/]),
      [CourseBasics] (modules 1, 2 and 12), [CourseModern] (pool, ring, channel and cache of
      modules 3, 4 and 13), [CourseValues] (status, results, counter and the coroutine of
      modules 2, 4, 13 and 9), [CourseMains] (their [main] functions and tests, evaluated on
      the models).

    ** What is proved

    - Durability: while the data fits one memtable no acknowledged write is lost in a crash
      ([db_crash_recovery]); reopening reads what logs and tables hold ([db_reopen_recovers]);
      the manifest's roster survives restarts and crashes ([version_survives_restart],
      [manifest_snapshot_crash_safe], which excludes failing calls beside an old archive:
      [manifest_rollback_restores_stale_archive]); the log returns what was appended, whatever
      append the process dies in ([wal_replay_after_crash], [wal_append_fault_safe]).
    - The whole store: a database whose keys are put once is a map through any sequence of
      writes, flushes, compactions and restarts ([db_lifecycle], composed of the theorems on
      each of them).  Keys that are put again or deleted are outside it because the code does
      not order their versions: level-0 tables are read oldest first, a tombstone reads as
      absent, and sequence numbers start over at a restart; the theorems on the single
      operations cover such keys as far as the code serves them.
    - Reads: a read returns the current version of a key whose versions are in order in the
      layers ([db_get_layers]), read your writes ([db_read_your_writes]); flushing and
      compaction preserve reads, under conditions that are stated exactly and shown to be
      needed ([db_flush_preserves_reads], [compaction_preserves_reads];
      [db_level0_reads_stale], [db_deleted_key_resurrects],
      [compaction_drops_needed_tombstone]); faults make writes invisible as a whole
      ([db_write_fault_atomic]).
    - Data structures against their abstract states: skip list, memtable, caches, blocks,
      tables, Bloom filter, merging iterator.
    - Concurrent writers are served exactly once, in order, with the status of their group
      ([group_commit_exactly_once]).
    - The server: whatever the packets, while the data fits one memtable the answers to a
      client are those of an abstract map to its requests ([minikv_serves_map], composed of
      the framing, the request handler and the store); the peer gets them all if the socket
      takes them ([connection_chunking]; [bad_frame_keeps_responses], [short_write_waits] are
      the cases where it does not); every frame of arbitrary bytes is answered
      ([every_frame_answered]); with workers the order is kept
      ([pool_connection_in_order]); no wakeup is lost ([event_loop_no_lost_wakeup],
      [thread_pool_exactly_once]); connections are spread evenly ([accept_round_robin]).  After
      a signal the process winds down to the end of [main], but for three hangs and a call
      through null that are described exactly ([server_shutdown]); when [run] returns no thread
      of the server is left, at the end none at all ([server_run_joins_all]).
    - The gateway: a request in any pieces reaches the upstream as the same request and the
      answer reaches the client ([gateway_forwards_request], composed of the parser, the
      balancer and the relay), the response arrives byte for byte ([relay_faithful],
      [relay_complete]), a client handled alone gets one answer and leaves all counters as they
      were ([gateway_client_balanced]; concurrently they can drift,
      [active_connections_lost_update]), the balancers are fair ([wrr_period], [round_robin_fair]),
      routes, timers, pool and configuration do what they say.  Coroutines never touch a
      frame that is gone ([coroutines_safe]) and compute what their bodies say as sequential
      programs ([coroutine_sequential]), which is how the handlers are modelled; every
      accepted client is accounted for until the process stops
      ([gateway_clients_accounted]).
    - The course programs: the lock-free queue is linearizable ([spsc_linearizable]), version
      collection is invisible to snapshots ([compact_merge_preserves_snapshots]), elections
      have one leader ([elections_one_leader]), rings move only the keys they must
      ([ring_add_moves_to_new], [ring_remove_moves_own]), the text-file store is durable
      ([mini_durable]), the skip lists are sets and maps ([m05_refines_set],
      [hand_skip_refines_map], [kv14_refines_map]), codecs and tokens round-trip
      ([varint64_roundtrip], [b64encode_ref], [VerifyToken_iff], [ParseIntLikeTS_iff]), pointers
      and tasks own what they hold ([unique_ptr_owns], [tasks_own_frames]), the pool that stops
      under its mutex stops ([m03_pool_stops]), the channel delivers ([channel_delivers]), the
      ring is linearizable ([ring_linearizable]), and the authors' own checks hold
      ([course_mains_pass], [handwrite_tests_pass]).
    - Behaviour that differs from what comments promise is stated as theorems too, for
      example [db_deleted_key_resurrects], [db_level0_reads_stale],
      [memtable_ignores_snapshot], [thread_pool_stop_loses_wakeup], [flush_thread_can_hang],
      [early_signal_ignored], [wrr_refuses_healthy_upstream],
      [http_parser_throws], [connectWithTimeout_overflows] and [timer_fires_early].

    ** Bounds and fuel

    Loops whose recursion is not structural take fuel computed from their input (the length
    of the buffer, the number of nodes); where the result matters the theorems say that the
    loop ends on its own ([block_walk_terminates]) or give the result outright.  Integers are
    kept at their width ([u8] ... [u64]); hypotheses bound sizes where the source narrows a
    length to 32 bits.

    ** Not modelled

    In the store, threads appear as the order of critical sections ([GroupCommit]), as steps
    run to completion (flush, compaction), and in [DBThreads] as their waits and stops.  Directories ([mkdir]), file permissions and logging
    are left out.  Results of socket calls, [epoll_wait], [accept4] and [getaddrinfo] are
    inputs.  The memory model is sequential consistency.  The handlers of the gateway are
    sequential programs between their suspension points; the counters and the weights they
    share are updated by one handler at a time, and the current weights of the balancer are
    not wrapped at 32 bits ([wrr_period] bounds them).  Snappy and Zstandard are parameters
    with their documented laws ([Codecs], [CodecLaws]).  Of the course, what computes with
    floating-point numbers (sizing of filters, token bucket), the environment check, the epoll
    demonstration and the statistical tests are left out, and so are the Go services and the
    web front ends. *)

From Stdlib Require Import ZArith Lia.
From Stdlib Require Strings.Byte Strings.String.
From stdpp Require Import base numbers strings list gmap sorting.

(** ** Bytes

    A C++ [char] / [uint8_t] is a [Byte.byte]; a [std::string], a [Slice] and a
    raw buffer are [list byte].  Sharing and lifetime of the pointers behind a
    [Slice] are not modelled: a slice is the bytes it denotes. *)

Abbreviation byte := Byte.byte.
Abbreviation bytes := (list Byte.byte).

Definition b2z (b : byte) : Z := Z.of_N (Byte.to_N b).

Definition z2b (z : Z) : byte :=
  match Byte.of_N (Z.to_N (z mod 256)) with
  | Some b => b
  | None => Byte.x00
  end.

Declare Scope titan_scope.
Delimit Scope titan_scope with titan.

(** A string literal of the source, as bytes. *)
Definition bs (s : String.string) : bytes := String.list_byte_of_string s.
Arguments bs s%_string.

#[export] Instance byte_eq_dec : EqDecision byte := Byte.byte_eq_dec.

#[export] Instance byte_countable : Countable byte :=
  inj_countable Byte.to_N Byte.of_N Byte.of_to_N.

Lemma b2z_range b : (0 <= b2z b < 256)%Z.
Proof. unfold b2z. pose proof (Byte.to_N_bounded b). lia. Qed.

Lemma b2z_inj b1 b2 : b2z b1 = b2z b2 -> b1 = b2.
Proof.
  unfold b2z. intros H%N2Z.inj.
  pose proof (Byte.of_to_N b1) as H1. rewrite H, Byte.of_to_N in H1. congruence.
Qed.

Lemma b2z_z2b z : b2z (z2b z) = (z mod 256)%Z.
Proof.
  unfold b2z, z2b. pose proof (Z.mod_pos_bound z 256 eq_refl) as Hb.
  destruct (Byte.of_N (Z.to_N (z mod 256))) as [b|] eqn:E.
  - apply Byte.to_of_N in E. rewrite E. lia.
  - apply Byte.of_N_None_iff in E. lia.
Qed.

Lemma z2b_b2z b : z2b (b2z b) = b.
Proof.
  apply b2z_inj. rewrite b2z_z2b. apply Z.mod_small, b2z_range.
Qed.

#[global] Opaque b2z z2b.

(** ** Machine integers

    A w-bit unsigned integer is a [Z]; the wrap-around of each arithmetic
    operation of the source is written out with these functions. *)

Definition u8 (z : Z) : Z := (z mod 2 ^ 8)%Z.
Definition u16 (z : Z) : Z := (z mod 2 ^ 16)%Z.
Definition u32 (z : Z) : Z := (z mod 2 ^ 32)%Z.
Definition u64 (z : Z) : Z := (z mod 2 ^ 64)%Z.

(** [static_cast<int>] of a value: the two's complement 32-bit reading. *)
Definition s32 (z : Z) : Z :=
  let r := u32 z in if (r <? 2 ^ 31)%Z then r else (r - 2 ^ 32)%Z.

(** [x.size()] of a string or vector, as the [size_t] it is in the source. *)
Definition zlen {A} (l : list A) : Z := Z.of_nat (length l).

Lemma zlen_nonneg {A} (l : list A) : (0 <= zlen l)%Z.
Proof. unfold zlen. lia. Qed.

Lemma zlen_app {A} (l1 l2 : list A) : zlen (l1 ++ l2) = (zlen l1 + zlen l2)%Z.
Proof. unfold zlen. rewrite length_app. lia. Qed.

Lemma zlen_cons {A} (x : A) l : zlen (x :: l) = (1 + zlen l)%Z.
Proof. unfold zlen. simpl. lia. Qed.

Lemma zlen_nil {A} : zlen (@nil A) = 0%Z.
Proof. reflexivity. Qed.

Lemma to_nat_zlen {A} (l : list A) : Z.to_nat (zlen l) = length l.
Proof. unfold zlen. lia. Qed.

Lemma u32_small z : (0 <= z < 2 ^ 32)%Z -> u32 z = z.
Proof. apply Z.mod_small. Qed.

Lemma u64_small z : (0 <= z < 2 ^ 64)%Z -> u64 z = z.
Proof. apply Z.mod_small. Qed.

Lemma u32_range z : (0 <= u32 z < 2 ^ 32)%Z.
Proof. apply Z.mod_pos_bound. lia. Qed.

Lemma u64_range z : (0 <= u64 z < 2 ^ 64)%Z.
Proof. apply Z.mod_pos_bound. lia. Qed.

Create HintDb titan.
#[export] Hint Rewrite @zlen_app @zlen_cons @zlen_nil @to_nat_zlen : titan.
#[export] Hint Resolve zlen_nonneg u32_range u64_range b2z_range : titan.

(** ** Little-endian byte strings *)

Fixpoint le_split (n : nat) (z : Z) : bytes :=
  match n with
  | O => []
  | S n => z2b z :: le_split n (Z.shiftr z 8)
  end.

Fixpoint le_combine (l : bytes) : Z :=
  match l with
  | [] => 0
  | b :: l => (b2z b + 256 * le_combine l)%Z
  end.

Lemma length_le_split n z : length (le_split n z) = n.
Proof. revert z; induction n as [|n IH]; intros z; simpl; [done|]. by rewrite IH. Qed.

Lemma le_combine_range l : (0 <= le_combine l < 2 ^ (8 * zlen l))%Z.
Proof.
  induction l as [|b l IH]; [done|].
  rewrite zlen_cons. simpl. pose proof (b2z_range b). pose proof (zlen_nonneg l).
  rewrite Z.mul_add_distr_l, Z.pow_add_r by lia. change (2 ^ (8 * 1))%Z with 256%Z. nia.
Qed.

Lemma le_combine_split n z : le_combine (le_split n z) = (z mod 2 ^ (8 * Z.of_nat n))%Z.
Proof.
  revert z; induction n as [|n IH]; intros z; [by rewrite Z.mod_1_r|].
  cbn [le_split le_combine]. rewrite IH, b2z_z2b, Z.shiftr_div_pow2 by lia.
  rewrite Nat2Z.inj_succ. unfold Z.succ. rewrite Z.mul_add_distr_l, Z.pow_add_r by lia.
  change (2 ^ 8)%Z with 256%Z. change (2 ^ (8 * 1))%Z with 256%Z.
  rewrite (Z.mul_comm (2 ^ _)), Z.rem_mul_r by lia. lia.
Qed.

Lemma le_split_combine l : le_split (length l) (le_combine l) = l.
Proof.
  induction l as [|b l IH]; [done|]. cbn [length le_split le_combine]. f_equal.
  - apply b2z_inj. rewrite b2z_z2b. pose proof (b2z_range b).
    rewrite (Z.mul_comm 256), Z.mod_add by lia. by apply Z.mod_small.
  - rewrite Z.shiftr_div_pow2 by lia. change (2 ^ 8)%Z with 256%Z.
    rewrite (Z.mul_comm 256), Z.div_add, Z.div_small by (lia || apply b2z_range).
    rewrite Z.add_0_l. apply IH.
Qed.

Lemma le_split_inj n x y :
  le_split n x = le_split n y -> (x mod 2 ^ (8 * Z.of_nat n) = y mod 2 ^ (8 * Z.of_nat n))%Z.
Proof. intros H%(f_equal le_combine). by rewrite !le_combine_split in H. Qed.

#[export] Hint Rewrite length_le_split : titan.

(** ** Bit operations as arithmetic *)

Lemma lor_shiftl_add a b s :
  (0 <= s)%Z -> (0 <= a < 2 ^ s)%Z -> Z.lor a (Z.shiftl b s) = (a + b * 2 ^ s)%Z.
Proof.
  intros Hs Ha.
  assert (Z.land a (Z.shiftl b s) = 0)%Z as H0.
  { apply Z.bits_inj'. intros n Hn. rewrite Z.land_spec, Z.bits_0.
    destruct (decide (n < s)%Z) as [Hlt|Hge].
    - rewrite (Z.shiftl_spec_low b s n) by lia. apply andb_false_r.
    - rewrite <- (Z.mod_small a (2 ^ s)) by lia.
      rewrite Z.mod_pow2_bits_high by lia. done. }
  pose proof (Z.add_lor_land a (Z.shiftl b s)) as H.
  rewrite H0, Z.add_0_r in H. rewrite H. by rewrite Z.shiftl_mul_pow2.
Qed.

Lemma land_255 z : Z.land z 255 = (z mod 256)%Z.
Proof. change 255%Z with (Z.ones 8). by rewrite Z.land_ones. Qed.

Lemma z2b_mod z : z2b (z mod 256)%Z = z2b z.
Proof. apply b2z_inj. rewrite !b2z_z2b. by apply Z.mod_mod. Qed.

(** ** Lists: prefixes of a concatenation *)

Lemma take_app_exact {A} (l1 l2 : list A) n : length l1 = n -> take n (l1 ++ l2) = l1.
Proof. intros <-. apply take_app_length. Qed.

Lemma drop_app_exact {A} (l1 l2 : list A) n : length l1 = n -> drop n (l1 ++ l2) = l2.
Proof. intros <-. apply drop_app_length. Qed.

Lemma Forall_filter {A} (P Q : A -> Prop) `{!forall x, Decision (Q x)} (l : list A) :
  Forall P l -> Forall P (filter Q l).
Proof. rewrite !Forall_forall. intros HP x [_ Hx]%list_elem_of_filter. by apply HP. Qed.

Lemma filter_none {A} (Q : A -> Prop) `{!forall x, Decision (Q x)} (l : list A) :
  (forall x, x ∈ l -> ~ Q x) -> filter Q l = [].
Proof.
  induction l as [|x l IH]; intros Hn; [done|].
  rewrite filter_cons_False by (apply Hn; left). apply IH. intros y Hy. apply Hn. by right.
Qed.

Lemma filter_all {A} (Q : A -> Prop) `{!forall x, Decision (Q x)} (l : list A) :
  (forall x, x ∈ l -> Q x) -> filter Q l = l.
Proof.
  induction l as [|x l IH]; intros Hn; [done|].
  rewrite filter_cons_True by (apply Hn; left). f_equal. apply IH. intros y Hy. apply Hn. by right.
Qed.

(** Reading [n] bytes at a pointer; [None] is a read past the end of the
    buffer, undefined behaviour in the source. *)
Definition read_n (n : nat) (p : bytes) : option bytes :=
  if decide (n <= length p)%nat then Some (take n p) else None.

Lemma read_n_app n (l1 l2 : bytes) : length l1 = n -> read_n n (l1 ++ l2) = Some l1.
Proof.
  intros Hl. unfold read_n. rewrite decide_True by (rewrite length_app; lia).
  by rewrite take_app_exact.
Qed.

(** Replacing one element of a sum. *)
Lemma sum_list_update {A} (f : A -> nat) (l : list A) i x y :
  l !! i = Some x -> (sum_list_with f (<[i := y]> l) + f x = sum_list_with f l + f y)%nat.
Proof.
  revert i. induction l as [|z l IH]; intros [|i] Hi; try done.
  - injection Hi as ->. change (<[0%nat := y]> (x :: l)) with (y :: l). cbn [sum_list_with]. lia.
  - specialize (IH i Hi). change (<[S i := y]> (z :: l)) with (z :: <[i := y]> l). cbn [sum_list_with]. lia.
Qed.

(** ** Three-way comparators

    The C++ comparators return an [int] that callers inspect only through its
    sign; they are modelled by [comparison].  [OrdOn P cmp] states that [cmp] is
    a strict total order on the values that satisfy [P]. *)

Class OrdOn {A} (P : A -> Prop) (cmp : A -> A -> comparison) : Prop := {
  ord_refl a : P a -> cmp a a = Eq;
  ord_eq a b : P a -> P b -> cmp a b = Eq -> a = b;
  ord_opp a b : P a -> P b -> cmp b a = CompOpp (cmp a b);
  ord_trans a b c : P a -> P b -> P c -> cmp a b = Lt -> cmp b c = Lt -> cmp a c = Lt;
}.

Definition is_lt (c : comparison) : bool := match c with Lt => true | _ => false end.
Definition is_eq (c : comparison) : bool := match c with Eq => true | _ => false end.
Definition is_gt (c : comparison) : bool := match c with Gt => true | _ => false end.

#[export] Instance Z_ord : OrdOn (fun _ : Z => True) Z.compare.
Proof.
  split; intros.
  - apply Z.compare_refl.
  - by apply Z.compare_eq.
  - apply Z.compare_antisym.
  - rewrite Z.compare_lt_iff in *. lia.
Qed.

Lemma StronglySorted_sublist {A} (R : A -> A -> Prop) l1 l2 :
  l1 `sublist_of` l2 -> StronglySorted R l2 -> StronglySorted R l1.
Proof.
  induction 1 as [|x l1 l2 Hs IH|x l1 l2 Hs IH]; intros Hsort; [done| |]; inversion_clear Hsort as [|?? Hso Hall]; [|by apply IH].
  constructor; [by apply IH|]. rewrite Forall_forall in *. intros y Hy. apply Hall. by eapply elem_of_sublist.
Qed.

Section SortedBy.
Context {A} (cmp : A -> A -> comparison).

(** Strict sortedness of a list of keys, by the comparator. *)
Definition lt_by (a b : A) : Prop := cmp a b = Lt.
Definition sorted_by (l : list A) : Prop := StronglySorted lt_by l.

Lemma sorted_by_app l1 l2 :
  sorted_by (l1 ++ l2) <->
  sorted_by l1 /\ sorted_by l2 /\ (forall x y, x ∈ l1 -> y ∈ l2 -> lt_by x y).
Proof.
  unfold sorted_by. rewrite StronglySorted_app. set_solver.
Qed.

Lemma sorted_by_sublist l1 l2 : l1 `sublist_of` l2 -> sorted_by l2 -> sorted_by l1.
Proof. apply StronglySorted_sublist. Qed.
End SortedBy.
Arguments lt_by {A} cmp a b /.
Arguments sorted_by {A} cmp l.
Arguments sorted_by_app {A cmp}.
Arguments sorted_by_sublist {A cmp}.

Section OrdOn.
Context {A} (P : A -> Prop) (cmp : A -> A -> comparison) `{!OrdOn P cmp}.

Lemma ord_lt_irrefl a : P a -> cmp a a <> Lt.
Proof. intros Ha. by rewrite (ord_refl (P:=P) (cmp:=cmp)). Qed.

Lemma ord_gt_lt a b : P a -> P b -> cmp a b = Gt <-> cmp b a = Lt.
Proof. intros Ha Hb. rewrite (ord_opp (cmp:=cmp) a b Ha Hb). by destruct (cmp a b). Qed.

Lemma sorted_by_NoDup l : Forall P l -> sorted_by cmp l -> NoDup l.
Proof.
  intros HP. induction 1 as [|x l Hs IH Hall]; [constructor|].
  inversion_clear HP as [|?? Hx Hl]. constructor; [|by apply IH].
  intros Hin. rewrite Forall_forall in Hall. by apply (ord_lt_irrefl x), Hall.
Qed.

(** Two strictly sorted lists with the same elements are equal. *)
Lemma sorted_by_unique l1 l2 :
  Forall P l1 -> Forall P l2 -> sorted_by cmp l1 -> sorted_by cmp l2 -> l1 ≡ₚ l2 -> l1 = l2.
Proof.
  intros HP1. revert l2. induction l1 as [|x l1 IH]; intros l2 HP2 Hs1 Hs2 Hp.
  { by apply Permutation_nil in Hp. }
  destruct l2 as [|y l2]; [by apply Permutation_nil_r in Hp|].
  inversion_clear HP1 as [|?? Hx HP1']. inversion_clear HP2 as [|?? Hy HP2'].
  inversion_clear Hs1 as [|?? Hs1' Ha1]. inversion_clear Hs2 as [|?? Hs2' Ha2].
  rewrite Forall_forall in Ha1, Ha2.
  assert (x = y) as ->.
  { assert (x ∈ y :: l2) as [->|Hx2]%elem_of_cons by (rewrite <- Hp; left); [done|].
    assert (y ∈ x :: l1) as [->|Hy2]%elem_of_cons by (rewrite Hp; left); [done|].
    exfalso. apply (ord_lt_irrefl x Hx).
    eapply (ord_trans (P:=P) (cmp:=cmp) x y x); [done..|by apply Ha1|by apply Ha2]. }
  f_equal. apply IH; [done..|]. by apply Permutation_cons_inv in Hp.
Qed.
End OrdOn.

(** ** std::sort

    [std::sort] with a strict-weak-order comparator.  The C++ standard leaves the
    order of equivalent elements open; the model keeps their input order, and the
    theorems about sorted data are stated for pairwise inequivalent keys or do
    not depend on that choice. *)

Section SortBy.
Context {A : Type} (lt : A -> A -> bool).

Fixpoint insert_by (x : A) (l : list A) : list A :=
  match l with
  | [] => [x]
  | y :: l' => if lt y x then y :: insert_by x l' else x :: y :: l'
  end.

Definition sort_by (l : list A) : list A := foldr insert_by [] l.

Lemma insert_by_perm x l : insert_by x l ≡ₚ x :: l.
Proof.
  induction l as [|y l IH]; simpl; [done|].
  destruct (lt y x); [|done]. rewrite IH. apply Permutation_swap.
Qed.

Lemma sort_by_perm l : sort_by l ≡ₚ l.
Proof.
  induction l as [|x l IH]; simpl; [done|]. by rewrite insert_by_perm, IH.
Qed.
End SortBy.

Section SortKeyed.
Context {A K : Type} (P : K -> Prop) (cmp : K -> K -> comparison) `{!OrdOn P cmp}.
Context (key : A -> K).

Definition lt_keyed (a b : A) : bool := is_lt (cmp (key a) (key b)).

(** Weak sortedness: no element is strictly above a later one. *)
Definition nondecr (l : list A) : Prop :=
  StronglySorted (fun a b => cmp (key b) (key a) <> Lt) l.

Lemma not_lt_trans a b c :
  P a -> P b -> P c -> cmp b a <> Lt -> cmp c b <> Lt -> cmp c a <> Lt.
Proof.
  intros Ha Hb Hc Hba Hcb Hca.
  destruct (cmp a b) eqn:E.
  - apply (ord_eq (P:=P)) in E as ->; done.
  - apply Hcb. eapply (ord_trans (P:=P) c a b); done.
  - apply (ord_gt_lt P) in E; done.
Qed.

Lemma insert_by_nondecr x l :
  P (key x) -> Forall (fun y => P (key y)) l -> nondecr l -> nondecr (insert_by lt_keyed x l).
Proof.
  intros Hx Hl Hs. induction l as [|y l IH]; simpl; [repeat constructor|].
  inversion_clear Hl as [|?? Hy Hl']. inversion_clear Hs as [|?? Hs' Hall].
  unfold lt_keyed at 1. destruct (cmp (key y) (key x)) eqn:E; simpl.
  2:{ constructor; [by apply IH|]. rewrite insert_by_perm. constructor; [|done].
      intros Hlt. apply (ord_gt_lt P) in Hlt; [|done..]. congruence. }
  all: constructor; [by constructor|]; constructor; [congruence|].
  all: rewrite Forall_forall in *; intros z Hz;
    eapply not_lt_trans; [done| |by apply Hl'| |by apply Hall]; [done|congruence].
Qed.

Lemma sort_by_nondecr l :
  Forall (fun y => P (key y)) l -> nondecr (sort_by lt_keyed l).
Proof.
  induction 1 as [|x l Hx Hl IH]; simpl; [constructor|].
  apply insert_by_nondecr; [done| |done]. by rewrite sort_by_perm.
Qed.

(** Sorting pairwise distinct keys gives a strictly sorted list. *)
Lemma nondecr_strict l :
  Forall (fun y => P (key y)) l -> NoDup (key <$> l) -> nondecr l -> sorted_by cmp (key <$> l).
Proof.
  intros HP Hnd Hs. unfold sorted_by. induction Hs as [|x l Hs IH Hall]; simpl; [constructor|].
  inversion_clear HP as [|?? Hx HP']. apply NoDup_cons in Hnd as [Hnotin Hnd].
  constructor; [by apply IH|]. rewrite Forall_forall in HP', Hall. rewrite Forall_forall. intros k Hk.
  apply list_elem_of_fmap in Hk as (y & -> & Hy). simpl.
  specialize (Hall y Hy). destruct (cmp (key x) (key y)) eqn:E; [|done|].
  - apply (ord_eq (P:=P)) in E; [|by auto..]. exfalso. apply Hnotin. rewrite E.
    by apply list_elem_of_fmap_2.
  - apply (ord_gt_lt P) in E; [done|by auto..].
Qed.
End SortKeyed.
Arguments lt_keyed {A K} cmp key a b /.
Arguments nondecr {A K} cmp key l.

(** ** std::lower_bound

    The halving search over a range, as the library implements it; on a range that is
    partitioned by the predicate it finds the partition point. *)

Fixpoint lower_bound_loop {A} (fuel : nat) (f : A -> bool) (l : list A) (first len : nat) : nat :=
  match fuel with
  | O => first
  | S fuel =>
      if decide (len = O) then first
      else
        let half := Nat.div2 len in
        match l !! (first + half)%nat with
        | Some x => if f x then lower_bound_loop fuel f l (first + half + 1) (len - half - 1)
                    else lower_bound_loop fuel f l first half
        | None => first
        end
  end.

Definition lower_bound {A} (f : A -> bool) (l : list A) : nat :=
  lower_bound_loop (S (length l)) f l 0 (length l).

Lemma lower_bound_loop_spec {A} fuel (f : A -> bool) l1 l2 first len :
  Forall (fun x => f x = true) l1 -> Forall (fun x => f x = false) l2 ->
  (first <= length l1 <= first + len)%nat -> (first + len <= length (l1 ++ l2))%nat -> (len < fuel)%nat ->
  lower_bound_loop fuel f (l1 ++ l2) first len = length l1.
Proof.
  intros H1 H2. revert first len. induction fuel as [|fuel IH]; intros first len Hb Hl Hf; [lia|].
  cbn [lower_bound_loop]. case_decide as H0; [lia|].
  pose proof (Nat.div2_div len) as Hd. pose proof (Nat.div_lt len 2 ltac:(lia) ltac:(lia)).
  rewrite Hd in *. set (half := (len / 2)%nat) in *.
  destruct (lookup_lt_is_Some_2 (l1 ++ l2) (first + half)) as [x Hx]; [lia|]. rewrite Hx.
  destruct (decide (first + half < length l1)%nat) as [Hlt|Hge].
  - rewrite lookup_app_l in Hx by done. rewrite Forall_lookup in H1. rewrite (H1 _ _ Hx). apply IH; lia.
  - rewrite lookup_app_r in Hx by lia. rewrite Forall_lookup in H2. rewrite (H2 _ _ Hx). apply IH; lia.
Qed.

Lemma lower_bound_spec {A} (f : A -> bool) l1 l2 :
  Forall (fun x => f x = true) l1 -> Forall (fun x => f x = false) l2 ->
  lower_bound f (l1 ++ l2) = length l1.
Proof. intros H1 H2. apply lower_bound_loop_spec; [done..| | |lia]; rewrite ?length_app; lia. Qed.
