(* ===== verification/CppString.v ===== *)
(** * std::string and decimal conversions

    The operations of [std::string] the sources use ([find], [find_last_of],
    [substr], [back]) and the decimal conversions ([std::to_string] and the digit
    loops that read a number back).  Positions are [size_t] values: [npos] is
    [2^64 - 1] and arithmetic on positions wraps as it does in the source. *)

From Stdlib Require Import ZArith Lia.
From stdpp Require Import base numbers strings list.
From S2P Require Import Prelude.
Local Open Scope Z_scope.

Definition npos : Z := 2 ^ 64 - 1.

(** ** Searching *)

Fixpoint find_index (f : byte -> bool) (s : bytes) : option nat :=
  match s with
  | [] => None
  | c :: s' => if f c then Some O else S <$> find_index f s'
  end.

(** [s.find(c, pos)] for a character. *)
Definition str_find_char (s : bytes) (c : byte) (pos : Z) : Z :=
  match find_index (fun d => bool_decide (d = c)) (drop (Z.to_nat pos) s) with
  | Some i => pos + Z.of_nat i
  | None => npos
  end.

(** [s.find_last_of(c)] for a character. *)
Fixpoint str_find_last_char (s : bytes) (c : byte) (i : Z) : Z :=
  match s with
  | [] => npos
  | d :: s' =>
      let r := str_find_last_char s' c (i + 1) in
      if r =? npos then (if bool_decide (d = c) then i else npos) else r
  end.

(** [s.find(needle, pos)] for a string. *)
Fixpoint find_sub (needle s : bytes) : option nat :=
  if bool_decide (take (length needle) s = needle) then Some O
  else match s with
       | [] => None
       | _ :: s' => S <$> find_sub needle s'
       end.

Definition str_find (s needle : bytes) (pos : Z) : Z :=
  if pos >? zlen s then npos
  else match find_sub needle (drop (Z.to_nat pos) s) with
       | Some i => pos + Z.of_nat i
       | None => npos
       end.

(** [s.substr(pos, n)]: throws [std::out_of_range] ([None]) when [pos > size()]. *)
Definition str_substr (s : bytes) (pos n : Z) : option bytes :=
  if pos >? zlen s then None
  else Some (take (Z.to_nat (Z.min n (zlen s - pos))) (drop (Z.to_nat pos) s)).

(** ** Decimal numbers *)

Definition is_digit (c : byte) : bool := (48 <=? b2z c) && (b2z c <=? 57).

Fixpoint to_string_loop (fuel : nat) (n : Z) (acc : bytes) : bytes :=
  match fuel with
  | O => acc
  | S fuel =>
      let acc := z2b (48 + n mod 10) :: acc in
      if n / 10 =? 0 then acc else to_string_loop fuel (n / 10) acc
  end.

(** [std::to_string] of an unsigned 64-bit number: at most 20 digits. *)
Definition to_string (n : Z) : bytes := to_string_loop 20 n [].

(** The digit loop [v = v * 10 + (c - '0')] on a [uint64_t]. *)
Definition dec_step (a : Z) (c : byte) : Z := u64 (a * 10 + (b2z c - 48)).
Definition dec_value (s : bytes) : Z := foldl dec_step 0 s.

(** ** [atoi] *)

Definition is_space (c : byte) : bool := (b2z c =? 32) || ((9 <=? b2z c) && (b2z c <=? 13)).

Fixpoint atoi_digits (s : bytes) (acc : Z) : Z :=
  match s with
  | c :: s' => if is_digit c then atoi_digits s' (acc * 10 + (b2z c - 48)) else acc
  | [] => acc
  end.

Fixpoint skip_space (s : bytes) : bytes :=
  match s with c :: s' => if is_space c then skip_space s' else s | [] => [] end.

(** [std::atoi]: blanks, a sign, digits.  Defined while the value is an [int]. *)
Definition atoi (s : bytes) : Z :=
  match skip_space s with
  | c :: s' => if b2z c =? 45 then - atoi_digits s' 0
               else if b2z c =? 43 then atoi_digits s' 0 else atoi_digits (c :: s') 0
  | [] => 0
  end.

Lemma digit_value n : 0 <= n -> n / 10 * 10 + (b2z (z2b (48 + n mod 10)) - 48) = n.
Proof.
  intros Hn. rewrite b2z_z2b. pose proof (Z.mod_pos_bound n 10 eq_refl).
  rewrite (Z.mod_small (48 + _)) by lia. pose proof (Z.div_mod n 10). lia.
Qed.

(** Any loop over the digits that adds one digit correctly reads the number back. *)
Lemma to_string_loop_fold (step : Z -> byte -> Z) fuel n acc :
  (forall n, 0 <= n < 2 ^ 64 -> step (n / 10) (z2b (48 + n mod 10)) = n) ->
  0 <= n < 2 ^ 64 -> n < 10 ^ Z.of_nat fuel ->
  foldl step 0 (to_string_loop fuel n acc) = foldl step n acc.
Proof.
  intros Hstep. revert n acc; induction fuel as [|fuel IH]; intros n acc Hn Hf.
  { assert (n = 0) as -> by lia. done. }
  cbn [to_string_loop]. destruct (Z.eqb_spec (n / 10) 0) as [E|E].
  - cbn [foldl]. rewrite <- E. by rewrite Hstep.
  - assert (n / 10 <= n) by (apply Z.div_le_upper_bound; lia).
    assert (0 <= n / 10) by (apply Z.div_pos; lia).
    rewrite IH; [|lia|].
    + cbn [foldl]. by rewrite Hstep.
    + apply Z.div_lt_upper_bound; [lia|].
      rewrite Nat2Z.inj_succ, Z.pow_succ_r in Hf by lia. lia.
Qed.

Lemma to_string_fold (step : Z -> byte -> Z) n :
  (forall n, 0 <= n < 2 ^ 64 -> step (n / 10) (z2b (48 + n mod 10)) = n) ->
  0 <= n < 2 ^ 64 -> foldl step 0 (to_string n) = n.
Proof.
  intros Hs Hn. unfold to_string. rewrite to_string_loop_fold; [done|done|done|]. cbn. lia.
Qed.

Lemma to_string_value n : 0 <= n < 2 ^ 64 -> dec_value (to_string n) = n.
Proof.
  apply to_string_fold. intros m Hm. unfold dec_step. rewrite digit_value by lia. by apply u64_small.
Qed.

Lemma is_digit_mod n : is_digit (z2b (48 + n mod 10)) = true.
Proof.
  unfold is_digit. rewrite b2z_z2b. pose proof (Z.mod_pos_bound n 10 eq_refl).
  rewrite Z.mod_small by lia. lia.
Qed.

Lemma to_string_loop_digits fuel n acc :
  Forall (fun c => is_digit c = true) acc ->
  Forall (fun c => is_digit c = true) (to_string_loop fuel n acc).
Proof.
  revert n acc; induction fuel as [|fuel IH]; intros n acc Hacc; [done|].
  cbn [to_string_loop].
  assert (Forall (fun c => is_digit c = true) (z2b (48 + n mod 10) :: acc))
    by (constructor; [apply is_digit_mod|done]).
  destruct (_ =? 0); [done|by apply IH].
Qed.

Lemma to_string_digits n : Forall (fun c => is_digit c = true) (to_string n).
Proof. apply to_string_loop_digits. constructor. Qed.

Lemma to_string_loop_length fuel n acc :
  (length acc <= length (to_string_loop fuel n acc) <= fuel + length acc)%nat.
Proof.
  revert n acc; induction fuel as [|fuel IH]; intros n acc; [simpl; lia|].
  cbn [to_string_loop]. destruct (_ =? 0); [simpl; lia|].
  specialize (IH (n / 10) (z2b (48 + n mod 10) :: acc)). simpl in IH. lia.
Qed.

Lemma to_string_loop_nonempty fuel n acc : (0 < length (to_string_loop (S fuel) n acc))%nat.
Proof.
  cbn [to_string_loop]. destruct (_ =? 0); [simpl; lia|].
  pose proof (to_string_loop_length fuel (n / 10) (z2b (48 + n mod 10) :: acc)) as H.
  simpl in H. lia.
Qed.

Lemma to_string_length n : zlen (to_string n) <= 20.
Proof. pose proof (to_string_loop_length 20 n []) as H. unfold zlen, to_string. cbn [length] in H. lia. Qed.

Lemma to_string_nonempty n : (0 < length (to_string n))%nat.
Proof. apply to_string_loop_nonempty. Qed.

Lemma to_string_inj m n :
  0 <= m < 2 ^ 64 -> 0 <= n < 2 ^ 64 -> to_string m = to_string n -> m = n.
Proof. intros Hm Hn H%(f_equal dec_value). by rewrite !to_string_value in H. Qed.

(** [std::stoi] with its exceptions. *)
Definition stoi_digits (neg : bool) (s : bytes) : option Z :=
  match s with
  | c :: _ => if is_digit c then (let v := atoi_digits s 0 in let v := if neg then - v else v in
                                  if (- 2 ^ 31 <=? v) && (v <? 2 ^ 31) then Some v else None) else None
  | [] => None
  end.
Definition stoi (s : bytes) : option Z :=
  match skip_space s with
  | c :: s' => if b2z c =? 45 then stoi_digits true s'
               else if b2z c =? 43 then stoi_digits false s' else stoi_digits false (c :: s')
  | [] => None
  end.

(** What [std::stoi(s, &idx)] leaves unread, from [idx] on. *)
Fixpoint skip_digits (s : bytes) : bytes :=
  match s with c :: s' => if is_digit c then skip_digits s' else s | [] => [] end.
Definition skip_sign (s : bytes) : bytes :=
  match s with c :: s' => if (b2z c =? 45) || (b2z c =? 43) then s' else s | [] => [] end.
Definition stoi_idx (s : bytes) : option (Z * Z) :=
  v ← stoi s; Some (v, zlen s - zlen (skip_digits (skip_sign (skip_space s)))).

Lemma skip_space_split s :
  exists bl, s = bl ++ skip_space s /\ Forall (fun c => is_space c = true) bl /\ (forall c r, skip_space s = c :: r -> is_space c = false).
Proof.
  induction s as [|c s (bl & E & Hb & Hn)]; simpl; [by exists []|]. destruct (is_space c) eqn:Hc.
  - exists (c :: bl). split_and!; [simpl; by f_equal|by constructor|done].
  - exists []. split_and!; [done|constructor|]. by intros c' r [= <- <-].
Qed.

Lemma skip_space_app bl r :
  Forall (fun c => is_space c = true) bl -> (forall c r', r = c :: r' -> is_space c = false) -> skip_space (bl ++ r) = r.
Proof.
  intros Hb Hr. induction Hb as [|c bl Hc _ IH]; simpl; [|by rewrite Hc].
  destruct r as [|c r]; [done|]. simpl. by rewrite (Hr c r).
Qed.

Lemma skip_digits_split s : exists ds, s = ds ++ skip_digits s /\ Forall (fun c => is_digit c = true) ds.
Proof.
  induction s as [|c s (ds & E & Hd)]; simpl; [by exists []|]. destruct (is_digit c) eqn:Hc.
  - exists (c :: ds). split; [simpl; by f_equal|by constructor].
  - by exists [].
Qed.

Lemma skip_digits_all s : Forall (fun c => is_digit c = true) s -> skip_digits s = [].
Proof. induction 1 as [|c s Hc _ IH]; [done|]. simpl. by rewrite Hc. Qed.

(** [atoi] of a printed number. *)
Lemma atoi_digits_run s acc :
  Forall (fun c => is_digit c = true) s -> atoi_digits s acc = foldl (fun a c => a * 10 + (b2z c - 48)) acc s.
Proof. intros H. revert acc. induction H as [|c s Hc _ IH]; intros acc; simpl; [done|]. by rewrite Hc, IH. Qed.

Lemma atoi_to_string n : 0 <= n < 2 ^ 64 -> atoi (to_string n) = n.
Proof.
  intros Hn. pose proof (to_string_digits n) as Hd. pose proof (to_string_nonempty n) as Hl.
  assert (atoi_digits (to_string n) 0 = n) as Hv.
  { rewrite atoi_digits_run by done. apply to_string_fold; [|done]. intros m Hm. rewrite digit_value by lia. lia. }
  unfold atoi. destruct (to_string n) as [|c s]; [simpl in Hl; lia|].
  apply Forall_cons in Hd as [Hc _]. unfold is_digit in Hc. simpl. unfold is_space.
  destruct (Z.eqb_spec (b2z c) 32) as [|_]; [lia|]. replace (b2z c <=? 13) with false by lia. rewrite andb_false_r. simpl.
  destruct (Z.eqb_spec (b2z c) 45) as [|_]; [lia|]. destruct (Z.eqb_spec (b2z c) 43) as [|_]; [lia|]. done.
Qed.

(** ** The first occurrence *)

Lemma find_sub_bound nd s i : find_sub nd s = Some i -> (i + length nd <= length s)%nat.
Proof.
  revert i. induction s as [|c s IH]; intros i; cbn [find_sub]; case_bool_decide as H; try done.
  - intros [= <-]. apply (f_equal length) in H. rewrite length_take in H. simpl in *. lia.
  - intros [= <-]. apply (f_equal length) in H. rewrite length_take in H. lia.
  - destruct (find_sub nd s) as [j|]; [|done]. intros [= <-]. specialize (IH j eq_refl). simpl. lia.
Qed.

Lemma find_sub_app nd s t i : find_sub nd s = Some i -> find_sub nd (s ++ t) = Some i.
Proof.
  revert i. induction s as [|c s IH]; intros i Hf; pose proof (find_sub_bound _ _ _ Hf) as Hb.
  - destruct nd; [|simpl in Hb; lia]. simpl in Hf. destruct t; simpl; congruence.
  - cbn [find_sub app] in *. destruct (decide (length nd <= S (length s))%nat) as [Hl|Hl]; [|simpl in Hb; lia].
    rewrite app_comm_cons, take_app_le by (simpl; lia). case_bool_decide; [done|].
    destruct (find_sub nd s) as [j|]; [|done]. by rewrite (IH j eq_refl).
Qed.

Lemma find_sub_prefix nd s t i : find_sub nd (s ++ t) = Some i -> (i + length nd <= length s)%nat -> find_sub nd s = Some i.
Proof.
  revert i. induction s as [|c s IH]; intros i Hf Hb.
  - simpl in Hb. destruct nd; [|simpl in Hb; lia]. assert (i = 0%nat) as -> by lia. done.
  - cbn [find_sub app] in *. rewrite app_comm_cons in Hf. destruct (decide (length nd <= S (length s))%nat) as [Hl|Hl].
    + rewrite take_app_le in Hf by (simpl; lia). case_bool_decide; [done|].
      destruct (find_sub nd (s ++ t)) as [j|]; [|done]. injection Hf as <-. simpl in Hb. rewrite (IH j eq_refl) by lia. done.
    + simpl in Hb. lia.
Qed.

(** A prefix too short for the first occurrence has none. *)
Lemma find_sub_short nd s t i : find_sub nd (s ++ t) = Some i -> (length s < i + length nd)%nat -> find_sub nd s = None.
Proof.
  intros Hf Hl. destruct (find_sub nd s) as [j|] eqn:E; [|done]. pose proof (find_sub_bound _ _ _ E).
  rewrite (find_sub_app _ _ t _ E) in Hf. injection Hf as <-. lia.
Qed.

(** ** The last occurrence of a character *)

Lemma find_last_char_none c s i : c ∉ s -> str_find_last_char s c i = npos.
Proof.
  revert i. induction s as [|d s IH]; intros i; [done|]. intros [Hne Hs]%not_elem_of_cons. cbn [str_find_last_char].
  rewrite IH by done. rewrite Z.eqb_refl. by rewrite bool_decide_eq_false_2.
Qed.

Lemma find_last_char_at pre c s i : c ∉ s -> 0 <= i -> i + zlen pre < npos -> str_find_last_char (pre ++ c :: s) c i = i + zlen pre.
Proof.
  intros Hc. revert i. induction pre as [|d pre IH]; intros i Hi Hn.
  - cbn [app str_find_last_char]. rewrite (find_last_char_none _ _ _ Hc), Z.eqb_refl, bool_decide_eq_true_2 by done. rewrite zlen_nil. lia.
  - rewrite zlen_cons in *. pose proof (zlen_nonneg pre). cbn [app str_find_last_char]. rewrite IH by lia.
    replace (i + 1 + zlen pre =? npos) with false by lia. lia.
Qed.
