(* ===== verification/Coding.v ===== *)
(** * Byte codecs, CRC32C and MurmurHash2

    Models [minikv/src/utils/coding.h], [crc32.cpp], [crc32.h] and [hash.h].  A decoder
    receives the bytes from its pointer to the end of the buffer and returns
    [None] where the C++ code would read past that end. *)

From Stdlib Require Import ZArith Lia.
From stdpp Require Import base numbers strings list.
From S2P Require Import Prelude.
Local Open Scope Z_scope.

(** ** Fixed-width integers *)

Definition encodeFixed32 (val : Z) : bytes :=
  [z2b (Z.land val 255); z2b (Z.land (Z.shiftr val 8) 255);
   z2b (Z.land (Z.shiftr val 16) 255); z2b (Z.land (Z.shiftr val 24) 255)].

Definition encodeFixed64 (val : Z) : bytes :=
  (fun i => z2b (Z.land (Z.shiftr val (Z.of_nat i * 8)) 255)) <$> seq 0 8.

Definition decodeFixed32 (buf : bytes) : option Z :=
  match buf with
  | b0 :: b1 :: b2 :: b3 :: _ =>
      Some (Z.lor (Z.lor (Z.lor (b2z b0) (Z.shiftl (b2z b1) 8))
                         (Z.shiftl (b2z b2) 16))
                  (Z.shiftl (b2z b3) 24))
  | _ => None
  end.

(** The loop [result |= buf[i] << (i * 8)] for [i] in [0..8). *)
Fixpoint decodeFixed_loop (i : nat) (n : nat) (buf : bytes) (result : Z) : option Z :=
  match n, buf with
  | O, _ => Some result
  | S n, b :: buf =>
      decodeFixed_loop (S i) n buf (Z.lor result (u64 (Z.shiftl (b2z b) (Z.of_nat i * 8))))
  | S _, [] => None
  end.

Definition decodeFixed64 (buf : bytes) : option Z := decodeFixed_loop 0 8 buf 0.

(** ** Variable-width integers *)

(** [while (val >= 0x80) ...]: the fuel 5 is enough for a 32-bit value. *)
Fixpoint encodeVariant32_loop (fuel : nat) (val : Z) : bytes :=
  match fuel with
  | O => [z2b val]
  | S fuel =>
      if val >=? 128 then z2b (Z.lor val 128) :: encodeVariant32_loop fuel (Z.shiftr val 7)
      else [z2b val]
  end.

Definition encodeVariant32 (val : Z) : bytes := encodeVariant32_loop 5 val.

(** [p] is the buffer between the pointer and [limit]; the result is the value
    and the number of bytes consumed, [None] for the [false] return. *)
Fixpoint decodeVariant32_loop (p : bytes) (value consumed shift : Z) : option (Z * Z) :=
  match p with
  | [] => None
  | c :: p' =>
      if shift >=? 32 then None
      else
        let value := Z.lor value (u32 (Z.shiftl (Z.land (b2z c) 127) shift)) in
        if Z.land (b2z c) 128 =? 0 then Some (value, consumed + 1)
        else decodeVariant32_loop p' value (consumed + 1) (shift + 7)
  end.

Definition decodeVariant32 (p : bytes) : option (Z * Z) := decodeVariant32_loop p 0 0 0.

(** ** CRC32C *)

Definition crc_poly : Z := 0x82F63B78.

Definition crc_bit (c : Z) : Z :=
  if Z.testbit c 0 then Z.lxor crc_poly (Z.shiftr c 1) else Z.shiftr c 1.

Definition crc_entry (i : Z) : Z := Nat.iter 8 crc_bit i.

(** [initCRC]: the 256-entry table. *)
Definition crc_table : list Z := (fun i => crc_entry (Z.of_nat i)) <$> seq 0 256.

Definition crc_step (table : list Z) (crc : Z) (b : byte) : Z :=
  Z.lxor (nth (Z.to_nat (Z.land (Z.lxor crc (b2z b)) 255)) table 0) (Z.shiftr crc 8).

(** [crc32c(data, len)]: [len] is an [int], so a length of 2^31 or more is
    negative and the loop does not run. *)
Definition crc32c_raw (data : bytes) : Z :=
  Z.lxor (foldl (crc_step crc_table) 0xFFFFFFFF data) 0xFFFFFFFF.

Definition crc32c (data : bytes) : Z :=
  if s32 (zlen data) <? zlen data then crc32c_raw (take (Z.to_nat (s32 (zlen data))) data)
  else crc32c_raw data.

Definition crc32cExtend (crc : Z) (buf : bytes) : Z := Z.lxor (crc32c buf) crc.

(** ** MurmurHash2 *)

Definition mm_m : Z := 0x5bd1e995.

Definition mm_mix (h k : Z) : Z :=
  let k := u32 (k * mm_m) in
  let k := Z.lxor k (Z.shiftr k 24) in
  let k := u32 (k * mm_m) in
  Z.lxor (u32 (h * mm_m)) k.

(** The tail [switch (len)] with its fall-through cases. *)
Definition mm_tail (h : Z) (data : bytes) : Z :=
  match data with
  | [b0; b1; b2] =>
      u32 (Z.lxor (Z.lxor (Z.lxor h (Z.shiftl (b2z b2) 16)) (Z.shiftl (b2z b1) 8)) (b2z b0) * mm_m)
  | [b0; b1] => u32 (Z.lxor (Z.lxor h (Z.shiftl (b2z b1) 8)) (b2z b0) * mm_m)
  | [b0] => u32 (Z.lxor h (b2z b0) * mm_m)
  | _ => h
  end.

Fixpoint mm_loop (fuel : nat) (h : Z) (data : bytes) : Z :=
  match fuel, data with
  | S fuel, b0 :: b1 :: b2 :: b3 :: data' =>
      let k := Z.lor (Z.lor (Z.lor (b2z b0) (Z.shiftl (b2z b1) 8))
                            (Z.shiftl (b2z b2) 16)) (Z.shiftl (b2z b3) 24) in
      mm_loop fuel (mm_mix h k) data'
  | _, _ => mm_tail h data
  end.

Definition murmurHash2 (data : bytes) (seed : Z) : Z :=
  let h := mm_loop (length data) (Z.lxor seed (u32 (zlen data))) data in
  let h := Z.lxor h (Z.shiftr h 13) in
  let h := u32 (h * mm_m) in
  Z.lxor h (Z.shiftr h 15).

(** Known answers: the CRC32C check value of "123456789". *)
Example crc32c_check : crc32c (bs "123456789") = 0xE3069283.
Proof. vm_compute. reflexivity. Qed.

Example variant_300 : encodeVariant32 300 = [z2b 172; z2b 2].
Proof. vm_compute. reflexivity. Qed.

(** ** Fixed-width round trips *)

Lemma encodeFixed32_le v : encodeFixed32 v = le_split 4 v.
Proof.
  unfold encodeFixed32. cbn [le_split]. rewrite !land_255, !z2b_mod, !Z.shiftr_shiftr by lia.
  reflexivity.
Qed.

Lemma encodeFixed64_le v : encodeFixed64 v = le_split 8 v.
Proof.
  unfold encodeFixed64. cbn [fmap list_fmap seq le_split].
  rewrite !land_255, !z2b_mod, !Z.shiftr_shiftr by lia. rewrite Z.shiftr_0_r. reflexivity.
Qed.

Lemma length_encodeFixed32 v : length (encodeFixed32 v) = 4%nat.
Proof. done. Qed.

Lemma length_encodeFixed64 v : length (encodeFixed64 v) = 8%nat.
Proof. done. Qed.

Lemma decodeFixed32_combine buf rest :
  length buf = 4%nat -> decodeFixed32 (buf ++ rest) = Some (le_combine buf).
Proof.
  intros Hl. destruct buf as [|b0 [|b1 [|b2 [|b3 [|]]]]]; try discriminate Hl.
  cbn [app decodeFixed32 le_combine]. f_equal.
  pose proof (b2z_range b0). pose proof (b2z_range b1). pose proof (b2z_range b2).
  rewrite (lor_shiftl_add (b2z b0) (b2z b1)), (lor_shiftl_add (_ + _) (b2z b2)) by lia.
  rewrite lor_shiftl_add by lia. lia.
Qed.

Lemma decodeFixed_loop_combine i n buf rest r :
  length buf = n -> (i + n <= 8)%nat -> 0 <= r < 2 ^ (Z.of_nat i * 8) ->
  decodeFixed_loop i n (buf ++ rest) r = Some (r + 2 ^ (Z.of_nat i * 8) * le_combine buf).
Proof.
  revert i n r; induction buf as [|b buf IH]; intros i n r Hn Hi Hr.
  { subst n. cbn. f_equal. lia. }
  destruct n as [|n]; [discriminate|]. cbn [app decodeFixed_loop le_combine].
  pose proof (b2z_range b) as Hb.
  assert (0 <= b2z b * 2 ^ (Z.of_nat i * 8) < 2 ^ 64) as Hs.
  { split; [nia|]. apply Z.lt_le_trans with (2 ^ 8 * 2 ^ (Z.of_nat i * 8)); [nia|].
    rewrite <- Z.pow_add_r by lia. apply Z.pow_le_mono_r; lia. }
  rewrite Z.shiftl_mul_pow2, u64_small by lia.
  rewrite <- Z.shiftl_mul_pow2, lor_shiftl_add by lia.
  assert (2 ^ (Z.of_nat (S i) * 8) = 256 * 2 ^ (Z.of_nat i * 8)) as Hp.
  { rewrite Nat2Z.inj_succ, <- Z.add_1_r, Z.mul_add_distr_r, Z.pow_add_r by lia.
    change (2 ^ (1 * 8)) with 256. lia. }
  rewrite IH; [f_equal; rewrite Hp; nia|simpl in Hn; lia|lia|rewrite Hp; nia].
Qed.

Lemma decodeFixed64_combine buf rest :
  length buf = 8%nat -> decodeFixed64 (buf ++ rest) = Some (le_combine buf).
Proof.
  intros Hl. unfold decodeFixed64. rewrite decodeFixed_loop_combine by (done || lia).
  f_equal. cbn [Z.of_nat]. lia.
Qed.

Lemma decodeFixed32_encode v rest :
  0 <= v < 2 ^ 32 -> decodeFixed32 (encodeFixed32 v ++ rest) = Some v.
Proof.
  intros Hv. rewrite decodeFixed32_combine, encodeFixed32_le, le_combine_split by done.
  f_equal. by apply Z.mod_small.
Qed.

Lemma decodeFixed64_encode v rest :
  0 <= v < 2 ^ 64 -> decodeFixed64 (encodeFixed64 v ++ rest) = Some v.
Proof.
  intros Hv. rewrite decodeFixed64_combine, encodeFixed64_le, le_combine_split by done.
  f_equal. by apply Z.mod_small.
Qed.

Lemma decodeFixed32_range p v : decodeFixed32 p = Some v -> 0 <= v < 2 ^ 32.
Proof.
  destruct p as [|b0 [|b1 [|b2 [|b3 p]]]]; try discriminate.
  change (b0 :: b1 :: b2 :: b3 :: p) with ([b0; b1; b2; b3] ++ p).
  rewrite decodeFixed32_combine by done. intros [= <-].
  apply (le_combine_range [b0; b1; b2; b3]).
Qed.

#[export] Hint Rewrite length_encodeFixed32 length_encodeFixed64 : titan.

(** ** Variable-width round trip *)

Lemma land_127 z : Z.land z 127 = z mod 128.
Proof. change 127 with (Z.ones 7). by rewrite Z.land_ones. Qed.

Lemma variant_more_bits val :
  Z.land (b2z (z2b (Z.lor val 128))) 127 = val mod 128 /\
  Z.land (b2z (z2b (Z.lor val 128))) 128 = 128.
Proof.
  rewrite b2z_z2b, <- land_255, <- !Z.land_assoc.
  change (Z.land 255 127) with 127. change (Z.land 255 128) with 128.
  rewrite !Z.land_lor_distr_l. change (Z.land 128 127) with 0. change (Z.land 128 128) with 128.
  split; [by rewrite Z.lor_0_r, land_127|].
  apply Z.bits_inj'. intros n Hn. rewrite Z.lor_spec, Z.land_spec.
  by destruct (Z.testbit val n), (Z.testbit 128 n).
Qed.

Lemma variant_last_bits val :
  0 <= val < 128 ->
  Z.land (b2z (z2b val)) 127 = val /\ Z.land (b2z (z2b val)) 128 = 0.
Proof.
  intros Hv. rewrite b2z_z2b, Z.mod_small by lia.
  split; [rewrite land_127; apply Z.mod_small; lia|].
  rewrite <- (Z.mod_small val 128), <- land_127, <- Z.land_assoc by lia.
  change (Z.land 127 128) with 0. apply Z.land_0_r.
Qed.

Lemma decodeVariant32_step value shift chunk :
  0 <= shift -> 0 <= value < 2 ^ shift -> 0 <= chunk * 2 ^ shift < 2 ^ 32 ->
  Z.lor value (u32 (Z.shiftl chunk shift)) = value + chunk * 2 ^ shift.
Proof.
  intros Hs Hv Hc. rewrite u32_small by (rewrite Z.shiftl_mul_pow2; lia).
  by apply lor_shiftl_add.
Qed.

Lemma decodeVariant32_loop_last val rest value consumed shift :
  0 <= val < 128 -> val * 2 ^ shift < 2 ^ 32 -> 0 <= shift < 32 -> 0 <= value < 2 ^ shift ->
  decodeVariant32_loop (z2b val :: rest) value consumed shift =
  Some (value + val * 2 ^ shift, consumed + 1).
Proof.
  intros Hval Hfit Hsh Hvalue. cbn [decodeVariant32_loop].
  destruct (variant_last_bits val Hval) as [-> ->].
  replace (shift >=? 32) with false by lia. rewrite decodeVariant32_step by nia. done.
Qed.

Lemma decodeVariant32_loop_encode fuel val rest value consumed shift :
  0 <= val < 128 ^ (Z.of_nat fuel + 1) -> val * 2 ^ shift < 2 ^ 32 ->
  0 <= shift < 32 -> 0 <= value < 2 ^ shift ->
  decodeVariant32_loop (encodeVariant32_loop fuel val ++ rest) value consumed shift =
  Some (value + val * 2 ^ shift, consumed + zlen (encodeVariant32_loop fuel val)).
Proof.
  revert val value consumed shift.
  induction fuel as [|fuel IH]; intros val value consumed shift Hval Hfit Hsh Hvalue.
  { change (encodeVariant32_loop 0 val) with [z2b val]. by apply decodeVariant32_loop_last. }
  cbn [encodeVariant32_loop]. destruct (val >=? 128) eqn:Hge.
  2:{ apply decodeVariant32_loop_last; lia. }
  cbn [app decodeVariant32_loop]. replace (shift >=? 32) with false by lia.
  destruct (variant_more_bits val) as [-> ->]. change (128 =? 0) with false. cbv iota.
  pose proof (Z.mod_pos_bound val 128 eq_refl) as Hm. pose proof (Z.div_mod val 128) as Hdm.
  rewrite decodeVariant32_step by nia.
  rewrite (Z.shiftr_div_pow2 val 7) by lia. change (2 ^ 7) with 128.
  assert (2 ^ (shift + 7) = 128 * 2 ^ shift) as Hp by (rewrite Z.pow_add_r by lia; lia).
  assert (shift + 7 < 32).
  { apply (Z.pow_lt_mono_r_iff 2); [lia..|]. rewrite Hp. nia. }
  rewrite IH; [|split|rewrite Hp; nia|lia|rewrite Hp; nia].
  - f_equal. rewrite Hp, zlen_cons. f_equal; nia.
  - apply Z.div_pos; lia.
  - apply Z.div_lt_upper_bound; [lia|]. destruct Hval as [_ Hval].
    rewrite Nat2Z.inj_succ, <- Z.add_1_r, Z.pow_add_r in Hval by lia. lia.
Qed.

Lemma decodeVariant32_encode v rest :
  0 <= v < 2 ^ 32 ->
  decodeVariant32 (encodeVariant32 v ++ rest) = Some (v, zlen (encodeVariant32 v)).
Proof.
  intros Hv. unfold decodeVariant32, encodeVariant32.
  rewrite decodeVariant32_loop_encode; [f_equal; f_equal|..]; cbn -[Z.pow]; lia.
Qed.

Lemma encodeVariant32_loop_length fuel val :
  (1 <= length (encodeVariant32_loop fuel val) <= S fuel)%nat.
Proof.
  revert val; induction fuel as [|fuel IH]; intros val; cbn [encodeVariant32_loop]; [simpl; lia|].
  destruct (val >=? 128); cbn [length]; [specialize (IH (Z.shiftr val 7)); lia|lia].
Qed.

Lemma encodeVariant32_loop_fits fuel val :
  0 <= val < 128 ^ (Z.of_nat fuel) -> (length (encodeVariant32_loop fuel val) <= Nat.max 1 fuel)%nat.
Proof.
  revert val; induction fuel as [|fuel IH]; intros val Hv; cbn [encodeVariant32_loop]; [simpl; lia|].
  destruct (val >=? 128) eqn:E; cbn [length]; [|lia].
  destruct fuel as [|fuel]; [cbn in Hv; lia|].
  enough (length (encodeVariant32_loop (S fuel) (Z.shiftr val 7)) <= S fuel)%nat by lia.
  rewrite IH; [lia|]. rewrite Z.shiftr_div_pow2 by lia. split; [apply Z.div_pos; lia|].
  apply Z.div_lt_upper_bound; [lia|]. rewrite Nat2Z.inj_succ, Z.pow_succ_r in Hv by lia. lia.
Qed.

Lemma encodeVariant32_length v :
  0 <= v < 2 ^ 32 -> (1 <= length (encodeVariant32 v) <= 5)%nat.
Proof.
  intros Hv. split; [apply encodeVariant32_loop_length|].
  apply (encodeVariant32_loop_fits 5). change (128 ^ Z.of_nat 5) with (2 ^ 35). lia.
Qed.

(** The decoder never claims to have consumed more than it was given. *)
Lemma decodeVariant32_loop_consumed p value consumed shift v c :
  decodeVariant32_loop p value consumed shift = Some (v, c) ->
  consumed < c <= consumed + zlen p.
Proof.
  revert value consumed shift; induction p as [|b p IH]; intros value consumed shift; [done|].
  cbn [decodeVariant32_loop]. rewrite zlen_cons. pose proof (zlen_nonneg p).
  destruct (shift >=? 32); [done|]. destruct (_ =? 0); [intros [= <- <-]; lia|].
  intros Hc%IH. lia.
Qed.

Lemma decodeVariant32_consumed p v c : decodeVariant32 p = Some (v, c) -> 0 < c <= zlen p.
Proof. intros Hc%decodeVariant32_loop_consumed. lia. Qed.

Lemma decodeVariant32_loop_nonneg p value consumed shift v c :
  0 <= value -> decodeVariant32_loop p value consumed shift = Some (v, c) -> 0 <= v.
Proof.
  revert value consumed shift; induction p as [|b p IH]; intros value consumed shift Hv; [done|].
  cbn [decodeVariant32_loop]. destruct (shift >=? 32); [done|].
  assert (0 <= Z.lor value (u32 (Z.shiftl (Z.land (b2z b) 127) shift))) as Hn.
  { apply Z.lor_nonneg. split; [done|apply u32_range]. }
  destruct (_ =? 0); [by intros [= <- <-]|]. by apply IH.
Qed.

Lemma decodeVariant32_nonneg p v c : decodeVariant32 p = Some (v, c) -> 0 <= v.
Proof. by apply decodeVariant32_loop_nonneg. Qed.

(** ** CRC32C detects every single-byte change *)

Lemma crc_table_top_NoDup : NoDup ((fun e => Z.shiftr e 24) <$> crc_table).
Proof. apply (bool_decide_unpack _). vm_compute. exact I. Qed.

Lemma crc_table_range : Forall (fun e => 0 <= e < 2 ^ 32) crc_table.
Proof. apply (bool_decide_unpack _). vm_compute. exact I. Qed.

Lemma crc_index_range c b : (Z.to_nat (Z.land (Z.lxor c (b2z b)) 255) < 256)%nat.
Proof. rewrite land_255. pose proof (Z.mod_pos_bound (Z.lxor c (b2z b)) 256 eq_refl). lia. Qed.

Lemma crc_table_lookup i :
  (i < 256)%nat -> crc_table !! i = Some (nth i crc_table 0) /\ 0 <= nth i crc_table 0 < 2 ^ 32.
Proof.
  intros Hi. assert (is_Some (crc_table !! i)) as [e He].
  { apply lookup_lt_is_Some. unfold crc_table. rewrite length_fmap, length_seq. done. }
  rewrite nth_lookup, He. split; [done|]. simpl.
  by apply (proj1 (Forall_lookup _ _) crc_table_range i).
Qed.

Lemma crc_table_inj i j :
  (i < 256)%nat -> (j < 256)%nat ->
  Z.shiftr (nth i crc_table 0) 24 = Z.shiftr (nth j crc_table 0) 24 -> i = j.
Proof.
  intros Hi Hj Heq. destruct (crc_table_lookup i Hi) as [Ei _].
  destruct (crc_table_lookup j Hj) as [Ej _].
  apply (proj1 (NoDup_alt _) crc_table_top_NoDup i j (Z.shiftr (nth i crc_table 0) 24)).
  - by rewrite list_lookup_fmap, Ei.
  - rewrite list_lookup_fmap, Ej, Heq. done.
Qed.

Lemma log2_lt_32 z : 0 <= z < 2 ^ 32 -> Z.log2 z < 32.
Proof.
  intros Hz. destruct (Z.eq_dec z 0) as [->|]; [done|]. apply Z.log2_lt_pow2; lia.
Qed.

Lemma crc_step_range c b : 0 <= c < 2 ^ 32 -> 0 <= crc_step crc_table c b < 2 ^ 32.
Proof.
  intros Hc. destruct (crc_table_lookup _ (crc_index_range c b)) as [_ Hr].
  unfold crc_step. generalize dependent (nth (Z.to_nat (Z.land (Z.lxor c (b2z b)) 255)) crc_table 0).
  intros e He. split.
  - apply Z.lxor_nonneg. split; intros; [|lia]. apply Z.shiftr_nonneg. lia.
  - destruct (Z.eq_dec (Z.lxor e (Z.shiftr c 8)) 0) as [->|Hne]; [lia|].
    assert (0 <= Z.shiftr c 8 < 2 ^ 32) as Hs.
    { rewrite Z.shiftr_div_pow2 by lia. change (2 ^ 8) with 256.
      pose proof (Z.div_pos c 256). pose proof (Z.div_le_upper_bound c 256 c). lia. }
    assert (0 <= Z.lxor e (Z.shiftr c 8)) by (apply Z.lxor_nonneg; lia).
    apply Z.log2_lt_pow2; [lia|].
    eapply Z.le_lt_trans; [apply Z.log2_lxor; lia|].
    apply Z.max_lub_lt; by apply log2_lt_32.
Qed.

Lemma crc_step_top c b :
  0 <= c < 2 ^ 32 ->
  Z.shiftr (crc_step crc_table c b) 24 =
  Z.shiftr (nth (Z.to_nat (Z.land (Z.lxor c (b2z b)) 255)) crc_table 0) 24.
Proof.
  intros Hc. unfold crc_step. rewrite Z.shiftr_lxor, Z.shiftr_shiftr by lia.
  rewrite (Z.shiftr_div_pow2 c) by lia. change (2 ^ (8 + 24)) with (2 ^ 32).
  rewrite Z.div_small by lia. apply Z.lxor_0_r.
Qed.

(** The step determines both its table index and the upper bits of its input. *)
Lemma crc_step_inv c1 c2 b1 b2 :
  0 <= c1 < 2 ^ 32 -> 0 <= c2 < 2 ^ 32 -> crc_step crc_table c1 b1 = crc_step crc_table c2 b2 ->
  Z.land (Z.lxor c1 (b2z b1)) 255 = Z.land (Z.lxor c2 (b2z b2)) 255 /\
  Z.shiftr c1 8 = Z.shiftr c2 8.
Proof.
  intros H1 H2 Heq.
  assert (Z.to_nat (Z.land (Z.lxor c1 (b2z b1)) 255) = Z.to_nat (Z.land (Z.lxor c2 (b2z b2)) 255)) as Hi.
  { apply crc_table_inj; [apply crc_index_range..|].
    rewrite <- !crc_step_top by done. by rewrite Heq. }
  unfold crc_step in Heq. rewrite Hi in Heq. split.
  - rewrite !land_255 in *.
    pose proof (Z.mod_pos_bound (Z.lxor c1 (b2z b1)) 256 eq_refl).
    pose proof (Z.mod_pos_bound (Z.lxor c2 (b2z b2)) 256 eq_refl). lia.
  - apply (f_equal (Z.lxor (nth (Z.to_nat (Z.land (Z.lxor c2 (b2z b2)) 255)) crc_table 0))) in Heq.
    by rewrite <- !Z.lxor_assoc, !Z.lxor_nilpotent, !Z.lxor_0_l in Heq.
Qed.

Lemma lxor_low_cancel a x y :
  Z.land (Z.lxor a x) 255 = Z.land (Z.lxor a y) 255 -> x mod 256 = y mod 256.
Proof.
  intros Hxy. rewrite <- !land_255. apply Z.bits_inj'. intros n Hn.
  apply (f_equal (fun z => Z.testbit z n)) in Hxy. revert Hxy.
  rewrite !Z.land_spec, !Z.lxor_spec.
  by destruct (Z.testbit a n), (Z.testbit x n), (Z.testbit y n), (Z.testbit 255 n).
Qed.

Lemma crc_step_inj_crc c1 c2 b :
  0 <= c1 < 2 ^ 32 -> 0 <= c2 < 2 ^ 32 ->
  crc_step crc_table c1 b = crc_step crc_table c2 b -> c1 = c2.
Proof.
  intros H1 H2 Heq. destruct (crc_step_inv c1 c2 b b H1 H2 Heq) as [Hlow Hhigh].
  rewrite !(Z.lxor_comm _ (b2z b)) in Hlow. apply lxor_low_cancel in Hlow.
  rewrite !Z.shiftr_div_pow2 in Hhigh by lia. change (2 ^ 8) with 256 in Hhigh.
  rewrite (Z.div_mod c1 256), (Z.div_mod c2 256) by lia. congruence.
Qed.

Lemma crc_step_inj_byte c b1 b2 :
  0 <= c < 2 ^ 32 -> crc_step crc_table c b1 = crc_step crc_table c b2 -> b1 = b2.
Proof.
  intros Hc Heq. destruct (crc_step_inv c c b1 b2 Hc Hc Heq) as [Hlow _].
  apply lxor_low_cancel in Hlow. apply b2z_inj.
  by rewrite !Z.mod_small in Hlow by apply b2z_range.
Qed.

Lemma crc_fold_range l c : 0 <= c < 2 ^ 32 -> 0 <= foldl (crc_step crc_table) c l < 2 ^ 32.
Proof. revert c; induction l as [|b l IH]; intros c Hc; [done|]. by apply IH, crc_step_range. Qed.

Lemma crc_fold_inj l c1 c2 :
  0 <= c1 < 2 ^ 32 -> 0 <= c2 < 2 ^ 32 ->
  foldl (crc_step crc_table) c1 l = foldl (crc_step crc_table) c2 l -> c1 = c2.
Proof.
  revert c1 c2; induction l as [|b l IH]; intros c1 c2 H1 H2; [done|].
  cbn [foldl]. intros Heq%IH; [|by apply crc_step_range..]. by eapply crc_step_inj_crc.
Qed.

Lemma lxor_inj_r a b c : Z.lxor a c = Z.lxor b c -> a = b.
Proof.
  intros Heq%(f_equal (fun z => Z.lxor z c)).
  by rewrite !Z.lxor_assoc, !Z.lxor_nilpotent, !Z.lxor_0_r in Heq.
Qed.

Lemma crc32c_small data : zlen data < 2 ^ 31 -> crc32c data = crc32c_raw data.
Proof.
  intros Hl. unfold crc32c, s32. pose proof (zlen_nonneg data).
  rewrite u32_small by lia. replace (zlen data <? 2 ^ 31) with true by lia.
  by rewrite Z.ltb_irrefl.
Qed.

Lemma crc32c_change (pre post : bytes) (b1 b2 : byte) :
  b1 <> b2 -> zlen (pre ++ b1 :: post) < 2 ^ 31 ->
  crc32c (pre ++ b1 :: post) <> crc32c (pre ++ b2 :: post).
Proof.
  intros Hne Hlen Heq. apply Hne.
  rewrite !crc32c_small in Heq by (rewrite zlen_app, zlen_cons in *; lia).
  unfold crc32c_raw in Heq. apply lxor_inj_r in Heq. rewrite !foldl_app in Heq.
  assert (0 <= foldl (crc_step crc_table) 0xFFFFFFFF pre < 2 ^ 32)
    by (apply crc_fold_range; lia).
  eapply crc_step_inj_byte; [|eapply crc_fold_inj; [| |exact Heq]]; [done|..];
    by apply crc_step_range.
Qed.

(** A record whose bytes were changed in exactly one place never has the
    checksum it was stored with: [crc32c] separates any two buffers (of fewer than
    2^31 bytes, the range of the [int] length) that differ in one byte. *)
Theorem crc32c_detects_byte (pre post : bytes) (b1 b2 : byte) :
  b1 <> b2 -> zlen (pre ++ b1 :: post) < 2 ^ 31 ->
  crc32c (pre ++ b1 :: post) <> crc32c (pre ++ b2 :: post).
Proof. apply crc32c_change. Qed.

Lemma crc32c_detects_byte_witness :
  crc32c (bs "k=" ++ Byte.x31 :: bs ";") <> crc32c (bs "k=" ++ Byte.x30 :: bs ";").
Proof. apply crc32c_detects_byte; [discriminate|vm_compute; reflexivity]. Defined.

Lemma crc32c_range data : 0 <= crc32c data < 2 ^ 32.
Proof.
  assert (forall d, 0 <= crc32c_raw d < 2 ^ 32) as Hraw.
  { intros d. unfold crc32c_raw.
    pose proof (crc_fold_range d 0xFFFFFFFF) as Hf. specialize (Hf ltac:(lia)).
    generalize dependent (foldl (crc_step crc_table) 4294967295 d). intros c Hc.
    split; [apply Z.lxor_nonneg; lia|].
    destruct (Z.eq_dec (Z.lxor c 0xFFFFFFFF) 0) as [->|Hz]; [lia|].
    assert (0 <= Z.lxor c 0xFFFFFFFF) by (apply Z.lxor_nonneg; lia).
    apply Z.log2_lt_pow2; [lia|]. eapply Z.le_lt_trans; [apply Z.log2_lxor; lia|].
    apply Z.max_lub_lt; apply log2_lt_32; lia. }
  unfold crc32c. case_match; apply Hraw.
Qed.

(** The varint codec of block and index entries is a round trip in front of any
    trailing bytes: a 32-bit value is read back with the number of bytes that
    were written, which is between one and five. *)
Theorem variant32_roundtrip (v : Z) (rest : bytes) :
  0 <= v < 2 ^ 32 ->
  decodeVariant32 (encodeVariant32 v ++ rest) = Some (v, zlen (encodeVariant32 v)) /\
  1 <= zlen (encodeVariant32 v) <= 5.
Proof.
  intros Hv. split; [by apply decodeVariant32_encode|].
  pose proof (encodeVariant32_length v Hv). unfold zlen. lia.
Qed.

Lemma variant32_roundtrip_witness :
  decodeVariant32 (encodeVariant32 300 ++ bs "tail") = Some (300, zlen (encodeVariant32 300)) /\
  1 <= zlen (encodeVariant32 300) <= 5.
Proof. apply variant32_roundtrip. lia. Defined.

#[export] Hint Rewrite decodeFixed32_encode decodeFixed64_encode using lia : titan.
