(* ===== verification/Slice.v ===== *)
(** * Slice, Status, WriteBatch, Options

    Models the public data types of [minikv/include/minikv]: [Slice] with its
    byte-wise three-way [compare], [Status] with its code and message, the
    [WriteBatch] builder and the [Options] record with its default values. *)

From Stdlib Require Import ZArith Lia.
From stdpp Require Import base numbers strings list.
From S2P Require Import Prelude.
Local Open Scope Z_scope.

(** ** Slice *)

(** [std::memcmp(a, b, n)], on the two prefixes of equal length [n]. *)
Fixpoint memcmp (a b : bytes) (n : nat) : comparison :=
  match n, a, b with
  | S n, x :: a, y :: b =>
      match b2z x ?= b2z y with Eq => memcmp a b n | c => c end
  | _, _, _ => Eq
  end.

Definition Slice_startsWith (s prefix : bytes) : bool :=
  (zlen prefix <=? zlen s) && is_eq (memcmp s prefix (length prefix)).

Definition Slice_compare (a b : bytes) : comparison :=
  let min_len := if zlen a <? zlen b then length a else length b in
  match memcmp a b min_len with
  | Eq => if zlen a <? zlen b then Lt else if zlen b <? zlen a then Gt else Eq
  | c => c
  end.

(** [remove_prefix(n)]: undefined when [n > size_]. *)
Definition Slice_remove_prefix (s : bytes) (n : nat) : option bytes :=
  if decide (n <= length s)%nat then Some (drop n s) else None.

(** Reference: lexicographic order of byte strings. *)
Fixpoint lex (a b : bytes) : comparison :=
  match a, b with
  | [], [] => Eq
  | [], _ :: _ => Lt
  | _ :: _, [] => Gt
  | x :: a, y :: b => match b2z x ?= b2z y with Eq => lex a b | c => c end
  end.

Lemma Slice_compare_lex a b : Slice_compare a b = lex a b.
Proof.
  unfold Slice_compare.
  assert (memcmp a b (if zlen a <? zlen b then length a else length b) =
          memcmp a b (Nat.min (length a) (length b))) as ->.
  { f_equal. unfold zlen. destruct (Z.ltb_spec (Z.of_nat (length a)) (Z.of_nat (length b))); lia. }
  revert b; induction a as [|x a IH]; intros [|y b]; cbn [length Nat.min memcmp lex];
    rewrite ?zlen_cons, ?zlen_nil; [done| | |].
  - pose proof (zlen_nonneg b). by replace (0 <? 1 + zlen b) with true by lia.
  - pose proof (zlen_nonneg a). by replace (1 + zlen a <? 0) with false by lia;
      replace (0 <? 1 + zlen a) with true by lia.
  - destruct (b2z x ?= b2z y); [|done..]. rewrite <- IH.
    replace (1 + zlen a <? 1 + zlen b) with (zlen a <? zlen b) by lia.
    by replace (1 + zlen b <? 1 + zlen a) with (zlen b <? zlen a) by lia.
Qed.

#[export] Instance lex_ord : OrdOn (fun _ => True) lex.
Proof.
  split; intros.
  - clear. induction a as [|x a IH]; [done|]. cbn. by rewrite Z.compare_refl.
  - clear H H0. revert b H1. induction a as [|x a IH]; intros [|y b]; try done.
    cbn. destruct (b2z x ?= b2z y) eqn:E; [|done..]. intros ->%IH.
    apply Z.compare_eq, b2z_inj in E. by subst.
  - clear. revert b. induction a as [|x a IH]; intros [|y b]; try done.
    cbn. rewrite (Z.compare_antisym (b2z x) (b2z y)). destruct (b2z x ?= b2z y); [apply IH|done..].
  - clear H H0 H1. revert b c H2 H3. induction a as [|x a IH]; intros [|y b] [|z c]; try done.
    cbn. destruct (b2z x ?= b2z y) eqn:E1; [|intros _|done].
    + apply Z.compare_eq in E1 as ->. destruct (b2z y ?= b2z z); [apply IH|done..].
    + destruct (b2z y ?= b2z z) eqn:E2; [intros _|intros _|done].
      * apply Z.compare_eq in E2 as <-. by rewrite E1.
      * rewrite Z.compare_lt_iff in E1, E2. by replace (b2z x ?= b2z z) with Lt
          by (symmetry; apply Z.compare_lt_iff; lia).
Qed.

#[export] Instance Slice_compare_ord : OrdOn (fun _ => True) Slice_compare.
Proof.
  split; intros *; rewrite !Slice_compare_lex.
  - apply (ord_refl (P := fun _ => True) (cmp := lex)).
  - apply (ord_eq (P := fun _ => True) (cmp := lex)).
  - apply (ord_opp (P := fun _ => True) (cmp := lex)).
  - apply (ord_trans (P := fun _ => True) (cmp := lex)).
Qed.

Lemma lex_refl a : lex a a = Eq.
Proof. apply (ord_refl (P := fun _ => True) (cmp := lex)). done. Qed.

Lemma lex_eq_iff a b : lex a b = Eq <-> a = b.
Proof.
  split; [|intros ->; apply lex_refl]. apply (ord_eq (P := fun _ => True) (cmp := lex)); done.
Qed.

Lemma lex_opp a b : lex b a = CompOpp (lex a b).
Proof. apply (ord_opp (P := fun _ => True) (cmp := lex)); done. Qed.

Lemma lex_trans a b c : lex a b = Lt -> lex b c = Lt -> lex a c = Lt.
Proof. apply (ord_trans (P := fun _ => True) (cmp := lex)); done. Qed.

Lemma lex_gt_lt a b : lex a b = Gt <-> lex b a = Lt.
Proof. rewrite (lex_opp a b). by destruct (lex a b). Qed.

(** ** Status *)

Inductive StatusCode :=
  | kOk | kNotFound | kCorruption | kNotSupported | kInvalidArgument | kIOError.

#[export] Instance StatusCode_eq_dec : EqDecision StatusCode.
Proof. solve_decision. Defined.

Record Status := mkStatus { st_code : StatusCode; st_msg : bytes }.

#[export] Instance Status_eq_dec : EqDecision Status.
Proof. solve_decision. Defined.

Definition SOk : Status := mkStatus kOk [].
Definition SNotFound (m : bytes) : Status := mkStatus kNotFound m.
Definition SCorruption (m : bytes) : Status := mkStatus kCorruption m.
Definition SNotSupported (m : bytes) : Status := mkStatus kNotSupported m.
Definition SIOError (m : bytes) : Status := mkStatus kIOError m.

Definition ok (s : Status) : bool := bool_decide (st_code s = kOk).
Definition isNotFound (s : Status) : bool := bool_decide (st_code s = kNotFound).

Definition Status_ToString (s : Status) : bytes :=
  match st_code s with
  | kOk => bs "OK"
  | kNotFound => bs "NotFound: "
  | kCorruption => bs "Corruption: "
  | kNotSupported => bs "NotSupported: "
  | kInvalidArgument => bs "InvalidArgument: "
  | kIOError => bs "IOError: "
  end ++ st_msg s.

(** ** WriteBatch *)

Inductive BatchOpType := bPut | bDelete.

#[export] Instance BatchOpType_eq_dec : EqDecision BatchOpType.
Proof. solve_decision. Defined.

Definition BatchOpType_code (t : BatchOpType) : Z :=
  match t with bPut => 1 | bDelete => 2 end.

Record BatchOp := mkOp { op_type : BatchOpType; op_key : bytes; op_value : bytes }.

Abbreviation WriteBatch := (list BatchOp).

Definition batch_put (b : WriteBatch) (key value : bytes) : WriteBatch :=
  b ++ [mkOp bPut key value].

Definition batch_del (b : WriteBatch) (key : bytes) : WriteBatch :=
  b ++ [mkOp bDelete key []].

Definition batch_count (b : WriteBatch) : Z := zlen b.

(** ** Options *)

Record Options := mkOptions {
  memtable_size : Z;
  block_size : Z;
  lru_cache_capacity : Z;
  max_level : Z;
  level0_compaction_trigger : Z;
  wal_sync : bool;
  db_path : bytes;
  compression : Z;
}.

Definition default_options : Options := {|
  memtable_size := 4 * 1024 * 1024;
  block_size := 4 * 1024;
  lru_cache_capacity := 8 * 1024 * 1024;
  max_level := 7;
  level0_compaction_trigger := 4;
  wal_sync := true;
  db_path := [];
  compression := 1;
|}.
