(* ===== verification/InternalKey.v ===== *)
(** * Internal keys

    Models [minikv/src/core/internal_key.h] and [internal_key.cpp]: the encoding
    [user_key ++ little-endian ((seq << 8) | type)], its accessors, and the
    comparator that orders the memtable, the SSTables and compaction: user key
    ascending, sequence number descending, value type ascending. *)

From Stdlib Require Import ZArith Lia.
From stdpp Require Import base numbers strings list.
From S2P Require Import Prelude Coding Slice.
Local Open Scope Z_scope.

(** [ValueType] is an [enum class : uint8_t]; [static_cast] from a stored byte can
    produce any of its 256 values, so a type is its code. *)
Definition kNone : Z := 0.
Definition kValue : Z := 1.
Definition kDeletion : Z := 2.

Definition kTypeBits : Z := 8.
Definition kTrailerBytes : nat := 8.

Definition packTrailer (seq type : Z) : Z := Z.lor (u64 (Z.shiftl seq kTypeBits)) type.

Definition InternalKeyEncode (user_key : bytes) (seq type : Z) : bytes :=
  user_key ++ encodeFixed64 (packTrailer seq type).

Definition InternalKeyUserKey (ik : bytes) : bytes :=
  if decide (length ik < kTrailerBytes)%nat then []
  else take (length ik - kTrailerBytes) ik.

(** [decodeFixed64] at the last eight bytes, used when [size() >= kTrailerBytes]. *)
Definition trailer (ik : bytes) : Z :=
  default 0 (decodeFixed64 (drop (length ik - kTrailerBytes) ik)).

Definition InternalKeySequence (ik : bytes) : Z :=
  if decide (length ik < kTrailerBytes)%nat then 0
  else Z.shiftr (trailer ik) kTypeBits.

Definition InternalKeyType (ik : bytes) : Z :=
  if decide (length ik < kTrailerBytes)%nat then kNone
  else Z.land (trailer ik) (Z.shiftl 1 kTypeBits - 1).

Definition InternalKeyLen (ik : bytes) : Z := zlen ik.

Definition InternalKeyCompare (a b : bytes) : comparison :=
  if decide (length a < kTrailerBytes \/ length b < kTrailerBytes)%nat then Slice_compare a b
  else
    let r := Slice_compare (InternalKeyUserKey a) (InternalKeyUserKey b) in
    match r with
    | Eq =>
        let ta := trailer a in
        let tb := trailer b in
        let sa := Z.shiftr ta kTypeBits in
        let sb := Z.shiftr tb kTypeBits in
        if negb (sa =? sb) then (if sa >? sb then Lt else Gt)
        else
          let tya := Z.land ta (Z.shiftl 1 kTypeBits - 1) in
          let tyb := Z.land tb (Z.shiftl 1 kTypeBits - 1) in
          if negb (tya =? tyb) then (if tya <? tyb then Lt else Gt) else Eq
    | _ => r
    end.

Definition IsDeletion (ik : bytes) : bool := InternalKeyType ik =? kDeletion.

(** ** The decoded view of a key *)

Record ikview := mkView { iv_user : bytes; iv_seq : Z; iv_type : Z }.

Definition view (ik : bytes) : ikview :=
  mkView (InternalKeyUserKey ik) (InternalKeySequence ik) (InternalKeyType ik).

(** The specification order on views. *)
Definition view_compare (a b : ikview) : comparison :=
  match lex (iv_user a) (iv_user b) with
  | Eq => match iv_seq b ?= iv_seq a with
          | Eq => iv_type a ?= iv_type b
          | c => c
          end
  | c => c
  end.

(** Keys long enough to carry a trailer: every key built by [InternalKeyEncode]. *)
Definition wf_ikey (ik : bytes) : Prop := (kTrailerBytes <= length ik)%nat.

#[export] Instance wf_ikey_dec ik : Decision (wf_ikey ik).
Proof. unfold wf_ikey. apply _. Defined.

#[export] Instance view_ord : OrdOn (fun _ => True) view_compare.
Proof.
  unfold view_compare. split.
  - intros [u s t] _. simpl. by rewrite lex_refl, !Z.compare_refl.
  - intros [u1 s1 t1] [u2 s2 t2] _ _. simpl. destruct (lex u1 u2) eqn:E; [|done..].
    apply lex_eq_iff in E as ->.
    destruct (Z.compare_spec s2 s1) as [->| |]; [|done..].
    by intros ->%Z.compare_eq.
  - intros [u1 s1 t1] [u2 s2 t2] _ _. simpl. rewrite (lex_opp u1 u2).
    destruct (lex u1 u2); simpl; [|done..].
    rewrite (Z.compare_antisym s2 s1). destruct (s2 ?= s1); simpl; [|done..].
    apply Z.compare_antisym.
  - intros [u1 s1 t1] [u2 s2 t2] [u3 s3 t3] _ _ _. simpl.
    destruct (lex u1 u2) eqn:E12; [| |done]; (destruct (lex u2 u3) eqn:E23; [| |done]).
    + apply lex_eq_iff in E12 as ->. apply lex_eq_iff in E23 as ->. rewrite lex_refl.
      destruct (Z.compare_spec s2 s1), (Z.compare_spec s3 s2), (Z.compare_spec s3 s1);
        try done; try lia. rewrite !Z.compare_lt_iff. lia.
    + apply lex_eq_iff in E12 as ->. by rewrite E23.
    + apply lex_eq_iff in E23 as ->. by rewrite E12.
    + by rewrite (lex_trans u1 u2 u3).
Qed.

(** ** Facts about the trailer *)

Lemma ikey_split ik :
  wf_ikey ik ->
  ik = InternalKeyUserKey ik ++ drop (length ik - kTrailerBytes) ik /\
  length (drop (length ik - kTrailerBytes) ik) = kTrailerBytes.
Proof.
  intros Hw. unfold wf_ikey in Hw. unfold InternalKeyUserKey.
  rewrite decide_False by lia. rewrite take_drop, length_drop.
  split; [done|]. lia.
Qed.

Lemma trailer_combine ik :
  wf_ikey ik -> trailer ik = le_combine (drop (length ik - kTrailerBytes) ik).
Proof.
  intros Hw. destruct (ikey_split ik Hw) as [_ Hl]. unfold trailer.
  rewrite <- (app_nil_r (drop _ ik)) at 1. by rewrite decodeFixed64_combine.
Qed.

Lemma trailer_parts ik :
  wf_ikey ik -> trailer ik = 256 * InternalKeySequence ik + InternalKeyType ik /\
                0 <= InternalKeyType ik < 256.
Proof.
  intros Hw. unfold InternalKeySequence, InternalKeyType. unfold wf_ikey in Hw.
  rewrite !decide_False by lia. change (Z.shiftl 1 kTypeBits - 1) with 255.
  rewrite land_255, Z.shiftr_div_pow2 by (unfold kTypeBits; lia).
  change (2 ^ kTypeBits) with 256.
  split; [apply Z.div_mod; lia|apply Z.mod_pos_bound; lia].
Qed.

(** A well-formed key is determined by its user key, sequence number and type. *)
Lemma view_inj a b : wf_ikey a -> wf_ikey b -> view a = view b -> a = b.
Proof.
  intros Ha Hb [= Hu Hs Ht].
  destruct (ikey_split a Ha) as [Ea La], (ikey_split b Hb) as [Eb Lb].
  destruct (trailer_parts a Ha) as [Ta _], (trailer_parts b Hb) as [Tb _].
  rewrite trailer_combine in Ta, Tb by done.
  rewrite Ea, Eb. f_equal; [done|].
  rewrite <- (le_split_combine (drop _ a)), <- (le_split_combine (drop _ b)), La, Lb.
  f_equal. rewrite Ta, Tb. congruence.
Qed.

Lemma packTrailer_eq seq type :
  0 <= seq < 2 ^ 56 -> 0 <= type < 256 -> packTrailer seq type = 256 * seq + type.
Proof.
  intros Hs Ht. unfold packTrailer, kTypeBits.
  rewrite u64_small by (rewrite Z.shiftl_mul_pow2; lia).
  rewrite Z.lor_comm, lor_shiftl_add by lia. lia.
Qed.

Lemma wf_encode uk seq type : wf_ikey (InternalKeyEncode uk seq type).
Proof. unfold wf_ikey, InternalKeyEncode. rewrite length_app, length_encodeFixed64. unfold kTrailerBytes. lia. Qed.

Lemma encode_drop uk seq type :
  drop (length (InternalKeyEncode uk seq type) - kTrailerBytes) (InternalKeyEncode uk seq type) =
  encodeFixed64 (packTrailer seq type).
Proof.
  unfold InternalKeyEncode. apply drop_app_exact.
  rewrite length_app, length_encodeFixed64. unfold kTrailerBytes. lia.
Qed.

Lemma encode_trailer uk seq type :
  0 <= seq < 2 ^ 56 -> 0 <= type < 256 ->
  trailer (InternalKeyEncode uk seq type) = 256 * seq + type.
Proof.
  intros Hs Ht. rewrite trailer_combine, encode_drop, encodeFixed64_le, le_combine_split
    by apply wf_encode.
  rewrite packTrailer_eq by done. apply Z.mod_small. cbn [Z.of_nat]. lia.
Qed.

Lemma encode_user uk seq type : InternalKeyUserKey (InternalKeyEncode uk seq type) = uk.
Proof.
  pose proof (wf_encode uk seq type) as Hw. unfold wf_ikey in Hw.
  unfold InternalKeyUserKey. rewrite decide_False by lia.
  unfold InternalKeyEncode in *. apply take_app_exact.
  rewrite length_app, length_encodeFixed64 in *. unfold kTrailerBytes in *. lia.
Qed.

Lemma encode_seq uk seq type :
  0 <= seq < 2 ^ 56 -> 0 <= type < 256 ->
  InternalKeySequence (InternalKeyEncode uk seq type) = seq.
Proof.
  intros Hs Ht. pose proof (wf_encode uk seq type) as Hw. unfold wf_ikey in Hw.
  unfold InternalKeySequence. rewrite decide_False, encode_trailer by (done || lia).
  unfold kTypeBits. rewrite Z.shiftr_div_pow2 by lia. change (2 ^ 8) with 256.
  rewrite Z.mul_comm, Z.div_add_l, Z.div_small by lia. lia.
Qed.

Lemma encode_type uk seq type :
  0 <= seq < 2 ^ 56 -> 0 <= type < 256 ->
  InternalKeyType (InternalKeyEncode uk seq type) = type.
Proof.
  intros Hs Ht. pose proof (wf_encode uk seq type) as Hw. unfold wf_ikey in Hw.
  unfold InternalKeyType. rewrite decide_False, encode_trailer by (done || lia).
  change (Z.shiftl 1 kTypeBits - 1) with 255. rewrite land_255.
  rewrite Z.add_comm, Z.mul_comm, Z.mod_add by lia. by apply Z.mod_small.
Qed.

Lemma view_encode uk seq type :
  0 <= seq < 2 ^ 56 -> 0 <= type < 256 ->
  view (InternalKeyEncode uk seq type) = mkView uk seq type.
Proof. intros Hs Ht. unfold view. by rewrite encode_user, encode_seq, encode_type. Qed.

(** The comparator computes the specification order on the decoded views. *)
Lemma InternalKeyCompare_view a b :
  wf_ikey a -> wf_ikey b -> InternalKeyCompare a b = view_compare (view a) (view b).
Proof.
  unfold wf_ikey. intros Ha Hb.
  unfold InternalKeyCompare, view_compare, view, InternalKeySequence, InternalKeyType. simpl.
  rewrite decide_False by lia. rewrite !(decide_False (P := (length _ < _)%nat)) by lia.
  rewrite Slice_compare_lex. destruct (lex _ _); [|done..].
  generalize (Z.shiftr (trailer a) kTypeBits) (Z.shiftr (trailer b) kTypeBits). intros sa sb.
  generalize (Z.land (trailer a) (Z.shiftl 1 kTypeBits - 1)).
  generalize (Z.land (trailer b) (Z.shiftl 1 kTypeBits - 1)). intros tb ta.
  destruct (Z.compare_spec sb sa), (Z.compare_spec ta tb);
    repeat match goal with |- context [if ?c then _ else _] => destruct c eqn:? end; lia || done.
Qed.

#[export] Instance InternalKeyCompare_ord : OrdOn wf_ikey InternalKeyCompare.
Proof.
  split.
  - intros a Ha. rewrite InternalKeyCompare_view by done.
    by apply (ord_refl (P := fun _ => True) (cmp := view_compare)).
  - intros a b Ha Hb. rewrite InternalKeyCompare_view by done. intros Heq.
    apply view_inj; [done..|]. by apply (ord_eq (P := fun _ => True) (cmp := view_compare)).
  - intros a b Ha Hb. rewrite !InternalKeyCompare_view by done.
    by apply (ord_opp (P := fun _ => True) (cmp := view_compare)).
  - intros a b c Ha Hb Hc. rewrite !InternalKeyCompare_view by done.
    by apply (ord_trans (P := fun _ => True) (cmp := view_compare)).
Qed.

(** Encoding and the three accessors are inverse: an internal key built from a
    user key (of any length, also empty), a 56-bit sequence number and a type byte
    gives back exactly these, and distinct triples give distinct keys. *)
Theorem internal_key_roundtrip (uk : bytes) (seq type : Z) :
  0 <= seq < 2 ^ 56 -> 0 <= type < 256 ->
  InternalKeyUserKey (InternalKeyEncode uk seq type) = uk /\
  InternalKeySequence (InternalKeyEncode uk seq type) = seq /\
  InternalKeyType (InternalKeyEncode uk seq type) = type /\
  (forall uk' seq' type', 0 <= seq' < 2 ^ 56 -> 0 <= type' < 256 ->
     InternalKeyEncode uk' seq' type' = InternalKeyEncode uk seq type ->
     uk' = uk /\ seq' = seq /\ type' = type).
Proof.
  intros Hs Ht. rewrite encode_user, encode_seq, encode_type by done.
  split_and!; [done..|]. intros uk' seq' type' Hs' Ht' Heq%(f_equal view).
  rewrite !view_encode in Heq by done. by injection Heq.
Qed.

Lemma internal_key_roundtrip_witness :
  InternalKeyUserKey (InternalKeyEncode (bs "user:1") 77 kDeletion) = bs "user:1" /\
  InternalKeySequence (InternalKeyEncode (bs "user:1") 77 kDeletion) = 77 /\
  InternalKeyType (InternalKeyEncode (bs "user:1") 77 kDeletion) = kDeletion.
Proof.
  destruct (internal_key_roundtrip (bs "user:1") 77 kDeletion) as (H1 & H2 & H3 & _);
    [lia|unfold kDeletion; lia|]. exact (conj H1 (conj H2 H3)).
Defined.

(** On keys that carry a trailer the comparator is a strict total order, and it is
    the documented one: byte-wise ascending user keys, then descending sequence
    numbers, then ascending value types. *)
Theorem internal_key_order :
  OrdOn wf_ikey InternalKeyCompare /\
  (forall u1 s1 t1 u2 s2 t2,
     0 <= s1 < 2 ^ 56 -> 0 <= t1 < 256 -> 0 <= s2 < 2 ^ 56 -> 0 <= t2 < 256 ->
     (InternalKeyCompare (InternalKeyEncode u1 s1 t1) (InternalKeyEncode u2 s2 t2) = Lt <->
      lex u1 u2 = Lt \/ (u1 = u2 /\ (s1 > s2 \/ (s1 = s2 /\ t1 < t2))))).
Proof.
  split; [apply _|]. intros u1 s1 t1 u2 s2 t2 Hs1 Ht1 Hs2 Ht2.
  rewrite InternalKeyCompare_view, !view_encode by (apply wf_encode || done).
  clear Hs1 Ht1 Hs2 Ht2. unfold view_compare. simpl. destruct (lex u1 u2) eqn:E.
  - apply lex_eq_iff in E as ->.
    destruct (Z.compare_spec s2 s1), (Z.compare_spec t1 t2); intuition (lia || congruence).
  - intuition.
  - assert (u1 <> u2) by (intros ->; rewrite lex_refl in E; done). intuition congruence.
Qed.

#[export] Hint Resolve wf_encode : titan.
