(* ===== verification/SkipHeap.v ===== *)
(** * Skip lists as heaps of nodes

    What the skip lists of the repository share ([minikv/src/core/skip_list.h] and the ones
    of the course): nodes in a heap with vectors of next pointers, the search for the
    predecessors of a key, linking, unlinking and lowering the level.  Everything is
    generic in the types of keys and values and in the comparator; [None] is undefined
    behaviour (a null or dangling dereference, an index outside [forward]).  The
    representation invariant and its preservation are proved once; a client sees
    [heap_rep], the strictly sorted association list a heap represents, and [heap_locate],
    what the search phase of every operation establishes. *)

From Stdlib Require Import ZArith Lia.
From stdpp Require Import base numbers list gmap.
From S2P Require Import Prelude.

Abbreviation loc := nat.

Record SkipNode (K V : Type) := mkNode {
  sk_key : K;
  sk_value : V;
  sk_forward : list (option loc);
}.
Arguments mkNode {K V}.
Arguments sk_key {K V}.
Arguments sk_value {K V}.
Arguments sk_forward {K V}.

Section Operations.
Context {K V : Type} `{!EqDecision K, !Inhabited K, !Inhabited V} (cmp : K -> K -> comparison).
Local Abbreviation heap := (gmap loc (SkipNode K V)).

(** [x->forward[i]] and its assignment. *)
Definition fwd (h : heap) (x : loc) (i : nat) : option (option loc) :=
  n ← h !! x; sk_forward n !! i.

Definition set_fwd (h : heap) (x : loc) (i : nat) (v : option loc) : option heap :=
  n ← h !! x;
  if decide (i < length (sk_forward n))%nat
  then Some (<[x := mkNode (sk_key n) (sk_value n) (<[i := v]> (sk_forward n))]> h)
  else None.

(** [while (x->forward[i] && compare(x->forward[i]->key, key) < 0) x = x->forward[i];] *)
Fixpoint walk (fuel : nat) (h : heap) (i : nat) (key : K) (x : loc) : option loc :=
  match fuel with
  | O => None
  | S fuel =>
      nx ← fwd h x i;
      match nx with
      | None => Some x
      | Some y =>
          n ← h !! y;
          if is_lt (cmp (sk_key n) key) then walk fuel h i key y else Some x
      end
  end.

(** [for (int i = max_level_; i >= 0; --i) { while ...; update[i] = x; }]: the node
    reached at level 0 and the vector [update[0..i]]. *)
Fixpoint search (fuel : nat) (h : heap) (key : K) (i : nat) (x : loc)
  : option (loc * list loc) :=
  x ← walk fuel h i key x;
  match i with
  | O => Some (x, [x])
  | S i => '(y, update) ← search fuel h key i x; Some (y, update ++ [x])
  end.

(** [for (i = 0; i <= level; ++i) { node->forward[i] = update[i]->forward[i];
    update[i]->forward[i] = node; }], from index [i] for [k] more levels. *)
Fixpoint link (h : heap) (node : loc) (update : list loc) (i k : nat) : option heap :=
  match k with
  | O => Some h
  | S k =>
      u ← update !! i;
      f ← fwd h u i;
      h ← set_fwd h node i f;
      h ← set_fwd h u i (Some node);
      link h node update (S i) k
  end.

(** [for (i = 0; i <= max_level_; ++i) { if (update[i]->forward[i] != x) break; ... }] *)
Fixpoint unlink (h : heap) (x : loc) (update : list loc) (i k : nat) : option heap :=
  match k with
  | O => Some h
  | S k =>
      u ← update !! i;
      f ← fwd h u i;
      if decide (f = Some x) then
        g ← fwd h x i;
        h ← set_fwd h u i g;
        unlink h x update (S i) k
      else Some h
  end.

(** [while (max_level_ > 0 && head_->forward[max_level_] == nullptr) --max_level_;] *)
Fixpoint shrink_level (h : heap) (head : loc) (level : nat) : option nat :=
  match level with
  | O => Some O
  | S level' =>
      f ← fwd h head level;
      match f with None => shrink_level h head level' | Some _ => Some level end
  end.

Fixpoint entries_from (fuel : nat) (h : heap) (x : option loc) : option (list (K * V)) :=
  match fuel, x with
  | _, None => Some []
  | O, Some _ => None
  | S fuel, Some x =>
      n ← h !! x;
      nx ← sk_forward n !! 0%nat;
      rest ← entries_from fuel h nx;
      Some ((sk_key n, sk_value n) :: rest)
  end.

(** [while (cur) { next = cur->forward[0]; delete cur; cur = next; }] *)
Fixpoint free_from (fuel : nat) (h : heap) (x : option loc) : option heap :=
  match fuel, x with
  | _, None => Some h
  | O, Some _ => None
  | S fuel, Some x => nx ← fwd h x 0; free_from fuel (delete x h) nx
  end.

(** ** Node accessors used by the invariant *)

Definition nkey (h : heap) (x : loc) : K := default inhabitant (sk_key <$> h !! x).
Definition nval (h : heap) (x : loc) : V := default inhabitant (sk_value <$> h !! x).
Definition nheight (h : heap) (x : loc) : nat :=
  default O (length ∘ sk_forward <$> h !! x).

Definition tall (h : heap) (i : nat) (x : loc) : Prop := (i < nheight h x)%nat.
#[export] Instance tall_dec h i x : Decision (tall h i x).
Proof. unfold tall. apply _. Defined.

(** [chain h i x l]: following the level-[i] pointers from [x] visits [l], then null. *)
Inductive chain (h : heap) (i : nat) : loc -> list loc -> Prop :=
  | chain_nil x : fwd h x i = Some None -> chain h i x []
  | chain_cons x y l : fwd h x i = Some (Some y) -> chain h i y l -> chain h i x (y :: l).

Lemma chain_app_inv h i x l1 y l2 : chain h i x (l1 ++ y :: l2) -> chain h i y l2.
Proof.
  revert x; induction l1 as [|z l1 IH]; intros x Hc; inversion_clear Hc; [done|].
  by eapply IH.
Qed.

(** The chain from the last node of [l1] (or [x] itself) is the rest [l2]. *)
Lemma chain_last h i x l1 l2 : chain h i x (l1 ++ l2) -> chain h i (default x (last l1)) l2.
Proof.
  destruct l1 as [|y l1 _] using rev_ind; [done|].
  rewrite last_snoc, <- app_assoc. apply chain_app_inv.
Qed.

Lemma chain_ext h h' i x l :
  (forall y, y ∈ x :: l -> fwd h' y i = fwd h y i) -> chain h i x l -> chain h' i x l.
Proof.
  intros Hext Hc. induction Hc as [x Hf|x y l Hf Hc IH].
  - constructor. rewrite Hext; [done|set_solver].
  - econstructor; [rewrite Hext; [done|set_solver]|]. apply IH. set_solver.
Qed.

Lemma fwd_next_chain h i x l : chain h i x l -> fwd h x i = Some (head l).
Proof. by inversion 1. Qed.

(** ** Assigning one forward pointer *)

Lemma set_fwd_spec h x i v :
  tall h i x ->
  exists n, h !! x = Some n /\
    set_fwd h x i v = Some (<[x := mkNode (sk_key n) (sk_value n) (<[i := v]> (sk_forward n))]> h).
Proof.
  unfold tall, nheight, set_fwd. destruct (h !! x) as [n|]; simpl; [|lia].
  intros Ht. exists n. by rewrite decide_True.
Qed.

Record same_nodes (h h' : heap) : Prop := {
  sn_key x : nkey h' x = nkey h x;
  sn_val x : nval h' x = nval h x;
  sn_height x : nheight h' x = nheight h x;
  sn_dom x : is_Some (h' !! x) <-> is_Some (h !! x);
}.

#[export] Instance same_nodes_refl : Reflexive same_nodes.
Proof. by split. Qed.
#[export] Instance same_nodes_trans : Transitive same_nodes.
Proof.
  intros h1 h2 h3 [K1 V1 H1 D1] [K2 V2 H2 D2].
  split; intros; [by rewrite K2|by rewrite V2|by rewrite H2|by rewrite D2].
Qed.

Lemma set_fwd_ok h x i v h' :
  tall h i x -> set_fwd h x i v = Some h' ->
  same_nodes h h' /\ fwd h' x i = Some v /\
  (forall y j, (y, j) <> (x, i) -> fwd h' y j = fwd h y j).
Proof.
  intros Ht Hs. destruct (set_fwd_spec h x i v Ht) as (n & Hx & Hs').
  rewrite Hs' in Hs. injection Hs as <-.
  assert (i < length (sk_forward n))%nat as Hi by (unfold tall, nheight in Ht; by rewrite Hx in Ht).
  split; [|split].
  - split; intros y; unfold nkey, nval, nheight;
      destruct (decide (y = x)) as [->|Hne];
      rewrite ?lookup_insert_eq, ?lookup_insert_ne, ?Hx by done; simpl;
      rewrite ?length_insert; try done.
  - unfold fwd. rewrite lookup_insert_eq. simpl. by apply list_lookup_insert_eq.
  - intros y j Hne. unfold fwd. destruct (decide (y = x)) as [->|Hyx].
    + rewrite lookup_insert_eq, Hx. simpl. apply list_lookup_insert_ne. congruence.
    + by rewrite lookup_insert_ne.
Qed.

Lemma set_fwd_some h x i v : tall h i x -> is_Some (set_fwd h x i v).
Proof. intros Ht. destruct (set_fwd_spec h x i v Ht) as (n & _ & ->). eauto. Qed.

Lemma tall_same h h' i x : same_nodes h h' -> tall h' i x <-> tall h i x.
Proof. intros [_ _ Hh _]. unfold tall. by rewrite Hh. Qed.

Lemma filter_tall_same h h' i (L : list loc) :
  same_nodes h h' -> filter (tall h' i) L = filter (tall h i) L.
Proof. intros Hs. apply list_filter_iff. intros x. by apply tall_same. Qed.

(** ** Splicing a node into, and out of, one level *)

Lemma default_last_cons {A} (x y : A) l : default x (last (y :: l)) = default y (last l).
Proof. rewrite last_cons. by destruct (last l). Qed.

Lemma default_last_elem {A} (x : A) l : default x (last l) ∈ x :: l.
Proof.
  destruct (last l) as [z|] eqn:E; simpl; [|left]. right. by apply last_Some_elem_of.
Qed.

(** Replacing the part of a chain after its [A] prefix. *)
Lemma chain_retail h h' i x A B C :
  chain h i x (A ++ B) -> NoDup (x :: A) ->
  (forall y, y ∈ x :: A -> y <> default x (last A) -> fwd h' y i = fwd h y i) ->
  chain h' i (default x (last A)) C -> chain h' i x (A ++ C).
Proof.
  revert x; induction A as [|y A IH]; intros x Hc Hnd Hsame HC; [done|].
  inversion_clear Hc as [|? ? ? Hf Hc']. rewrite default_last_cons in *.
  apply NoDup_cons in Hnd as [Hx Hnd]. simpl. econstructor.
  - rewrite Hsame; [done|left|]. intros ->. apply Hx, default_last_elem.
  - apply IH; [done..| |done]. intros z Hz. apply Hsame. by right.
Qed.

Lemma chain_insert h h1 h2 i x A B n :
  chain h i x (A ++ B) -> NoDup (x :: A ++ B) -> n ∉ x :: A ++ B ->
  tall h i n -> tall h i (default x (last A)) ->
  set_fwd h n i (head B) = Some h1 -> set_fwd h1 (default x (last A)) i (Some n) = Some h2 ->
  chain h2 i x (A ++ n :: B).
Proof.
  intros Hc Hnd Hn Htn Htu H1 H2.
  destruct (set_fwd_ok _ _ _ _ _ Htn H1) as (Hs1 & Hf1 & Ho1).
  apply (tall_same h h1 _ _ Hs1) in Htu.
  destruct (set_fwd_ok _ _ _ _ _ Htu H2) as (_ & Hf2 & Ho2).
  pose proof (default_last_elem x A) as Hu.
  rewrite app_comm_cons in Hnd, Hn. apply NoDup_app in Hnd as (HndA & Hdisj & HndB).
  eapply chain_retail; [done..| |].
  - intros y Hy Hne. rewrite Ho2, Ho1; [done|set_solver|congruence].
  - econstructor; [done|].
    assert (forall y, y ∈ n :: B -> y <> default x (last A)) as Hne by set_solver.
    apply chain_last in Hc. destruct B as [|b B]; simpl in Hf1.
    + constructor. rewrite Ho2; [done|]. intros [= ?]. by apply (Hne n); [left|].
    + inversion_clear Hc as [|? ? ? Hfu HcB]. econstructor.
      * rewrite Ho2; [done|]. intros [= ?]. by apply (Hne n); [left|].
      * eapply chain_ext; [|done]. intros y Hy.
        rewrite Ho2, Ho1; [done| |].
        -- intros [= ->]. set_solver.
        -- intros [= ->]. by apply (Hne (default x (last A))); [right|].
Qed.

Lemma chain_remove h h1 i x A n B :
  chain h i x (A ++ n :: B) -> NoDup (x :: A ++ n :: B) -> tall h i (default x (last A)) ->
  set_fwd h (default x (last A)) i (head B) = Some h1 -> chain h1 i x (A ++ B).
Proof.
  intros Hc Hnd Htu H1. destruct (set_fwd_ok _ _ _ _ _ Htu H1) as (_ & Hf1 & Ho1).
  pose proof (default_last_elem x A) as Hu.
  rewrite app_comm_cons in Hnd. apply NoDup_app in Hnd as (HndA & Hdisj & HndB).
  eapply chain_retail; [done..| |].
  - intros y Hy Hne. rewrite Ho1; [done|congruence].
  - apply chain_last in Hc. inversion_clear Hc as [|? ? ? Hfu HcB].
    assert (forall y, y ∈ n :: B -> y <> default x (last A)) as Hne by set_solver.
    destruct B as [|b B]; [by constructor|]. inversion_clear HcB as [|? ? ? Hfb HcB'].
    econstructor; [done|]. eapply chain_ext; [|done]. intros y Hy.
    rewrite Ho1; [done|]. intros [= ->]. apply (Hne (default x (last A))); [by right|done].
Qed.

(** ** The search finds, at every level, the last node below the key *)

Definition below (h : heap) (key : K) (x : loc) : Prop :=
  cmp (nkey h x) key = Lt.
#[export] Instance below_dec h key x : Decision (below h key x).
Proof. unfold below. apply _. Defined.

Lemma walk_chain h i key x l1 l2 fuel :
  chain h i x (l1 ++ l2) -> Forall (fun y => is_Some (h !! y)) (l1 ++ l2) ->
  Forall (below h key) l1 -> Forall (fun y => ~ below h key y) l2 -> (length l1 < fuel)%nat ->
  walk fuel h i key x = Some (default x (last l1)).
Proof.
  revert x fuel; induction l1 as [|y l1 IH]; intros x fuel Hc Hex Hlt Hge Hfuel;
    (destruct fuel as [|fuel]; [simpl in Hfuel; lia|]); cbn [walk].
  - simpl in *. rewrite (fwd_next_chain h i x l2) by done. simpl.
    destruct l2 as [|z l2]; [done|]. simpl. apply Forall_cons in Hex as [[n Hz] _].
    apply Forall_cons in Hge as [Hnb _]. rewrite Hz. simpl.
    unfold below, nkey in Hnb. rewrite Hz in Hnb. simpl in Hnb.
    by destruct (cmp (sk_key n) key).
  - inversion_clear Hc as [|? ? ? Hf Hc']. rewrite Hf. simpl in Hex.
    apply Forall_cons in Hex as [[n Hy] Hex]. apply Forall_cons in Hlt as [Hb Hlt].
    simpl. rewrite Hy. simpl. unfold below, nkey in Hb. rewrite Hy in Hb. simpl in Hb.
    rewrite Hb. simpl. rewrite default_last_cons. apply IH; [done..|]. simpl in Hfuel. lia.
Qed.

(** [update[i]]: the last node of level [i] below the key, or the head. *)
Definition pred_at (h : heap) (hd : loc) (Llt : list loc) (i : nat) : loc :=
  default hd (last (filter (tall h i) Llt)).

Lemma pred_at_cases h hd Llt i :
  pred_at h hd Llt i = hd \/ (pred_at h hd Llt i ∈ Llt /\ tall h i (pred_at h hd Llt i)).
Proof.
  unfold pred_at. destruct (last (filter (tall h i) Llt)) as [z|] eqn:E; simpl; [right|by left].
  apply last_Some_elem_of, list_elem_of_filter in E. tauto.
Qed.

Lemma search_spec h hd key Llt Lge fuel i x :
  (forall j, (j <= i)%nat -> chain h j hd (filter (tall h j) (Llt ++ Lge))) ->
  Forall (fun y => is_Some (h !! y)) (Llt ++ Lge) ->
  Forall (below h key) Llt -> Forall (fun y => ~ below h key y) Lge ->
  (length (Llt ++ Lge) < fuel)%nat ->
  x = hd \/ (x ∈ Llt /\ tall h i x) ->
  search fuel h key i x = Some (pred_at h hd Llt 0, pred_at h hd Llt <$> seq 0 (S i)).
Proof.
  intros Hch Hex Hlt Hge Hfuel. revert x.
  assert (forall j x, (j <= i)%nat -> x = hd \/ (x ∈ Llt /\ tall h j x) ->
            walk fuel h j key x = Some (pred_at h hd Llt j)) as Hwalk.
  { intros j x Hj Hx. specialize (Hch j Hj). rewrite filter_app in Hch.
    rewrite Forall_app in Hex. destruct Hex as [Hex1 Hex2].
    assert (forall l1, Forall (below h key) l1 -> Forall (fun y => is_Some (h !! y)) l1 ->
              (length l1 <= length Llt)%nat -> chain h j x (l1 ++ filter (tall h j) Lge) ->
              walk fuel h j key x = Some (default x (last l1))) as Hgo.
    { intros l1 Hb1 He1 Hlen Hc. eapply walk_chain; [done| |done| |].
      - apply Forall_app. split; [done|by apply Forall_filter].
      - by apply Forall_filter.
      - rewrite length_app in Hfuel. lia. }
    destruct Hx as [->|[Hin Ht]].
    - apply Hgo; [by apply Forall_filter..| |done]. apply length_filter.
    - assert (x ∈ filter (tall h j) Llt) as (a & b & Hsplit)%list_elem_of_split
        by (by apply list_elem_of_filter).
      rewrite Hsplit, <- app_assoc in Hch. apply chain_app_inv in Hch.
      assert (Forall (below h key) (filter (tall h j) Llt)) as Hb by by apply Forall_filter.
      assert (Forall (fun y => is_Some (h !! y)) (filter (tall h j) Llt)) as He by by apply Forall_filter.
      rewrite Hsplit, Forall_app, Forall_cons in Hb, He.
      rewrite (Hgo b); [|tauto|tauto| |done].
      + unfold pred_at. rewrite Hsplit, last_app_cons, default_last_cons. done.
      + pose proof (length_filter (tall h j) Llt) as Hl. rewrite Hsplit, length_app in Hl. simpl in Hl. lia. }
  clear Hch. induction i as [|i IH]; intros x Hx; cbn [search].
  - rewrite (Hwalk 0%nat) by done. done.
  - rewrite (Hwalk (S i)) by done. cbn [mbind option_bind]. rewrite IH.
    + cbn [mbind option_bind]. by rewrite (seq_S (S i)), fmap_app.
    + intros j y Hj. apply Hwalk. lia.
    + destruct (pred_at_cases h hd Llt (S i)) as [->|[? Ht]]; [by left|right].
      split; [done|]. unfold tall in *. lia.
Qed.

(** ** Abstract state: a strictly sorted association list *)

Fixpoint sl_insert (k : K) (v : V) (l : list (K * V)) : list (K * V) :=
  match l with
  | [] => [(k, v)]
  | p :: l' =>
      match cmp p.1 k with
      | Lt => p :: sl_insert k v l'
      | Eq => (k, v) :: l'
      | Gt => (k, v) :: p :: l'
      end
  end.

Fixpoint sl_lookup (k : K) (l : list (K * V)) : option V :=
  match l with
  | [] => None
  | p :: l' => if decide (p.1 = k) then Some p.2 else sl_lookup k l'
  end.

Definition sl_delete (k : K) (l : list (K * V)) : list (K * V) :=
  filter (fun p => p.1 <> k) l.

Lemma sl_lookup_delete k l k' : sl_lookup k' (sl_delete k l) = if decide (k' = k) then None else sl_lookup k' l.
Proof.
  clear cmp.
  induction l as [|p l IH]; [by case_decide|]. unfold sl_delete in *.
  destruct (decide (p.1 = k)) as [E|E].
  - rewrite filter_cons_False by tauto. rewrite IH. simpl. repeat case_decide; congruence.
  - rewrite filter_cons_True by done. simpl. rewrite IH. repeat case_decide; congruence.
Qed.

Lemma sl_lookup_fresh k l : k ∉ l.*1 -> sl_lookup k l = None.
Proof. clear cmp. induction l as [|p l IH]; simpl; [done|]. intros Hk. rewrite decide_False; [apply IH|]; set_solver. Qed.

Lemma sl_delete_absent k l : sl_lookup k l = None -> sl_delete k l = l.
Proof.
  clear cmp.
  unfold sl_delete. induction l as [|p l IH]; simpl; [done|]. case_decide; [done|]. intros Hl. rewrite filter_cons_True, IH; done.
Qed.

Lemma sl_insert_keys k v l x : x ∈ (sl_insert k v l).*1 -> x = k \/ x ∈ l.*1.
Proof.
  induction l as [|p l IH]; simpl; [set_solver|]. destruct (cmp p.1 k); simpl; set_solver.
Qed.

Context (P : K -> Prop) `{HO : !OrdOn P cmp}.

Definition sl_wf (l : list (K * V)) : Prop :=
  Forall P l.*1 /\ sorted_by cmp l.*1.

(** How the operations act on a list split at the key. *)
Section Split.
Context (k : K) (Hk : P k).
Implicit Types l lt ge : list (K * V).

Lemma sl_insert_app v lt ge :
  Forall (fun p => cmp p.1 k = Lt) lt ->
  sl_insert k v (lt ++ ge) = lt ++ sl_insert k v ge.
Proof. induction 1 as [|p lt Hp _ IH]; [done|]. simpl. by rewrite Hp, IH. Qed.

Lemma lt_ne p : cmp p k = Lt -> p <> k.
Proof. intros Hlt ->. by apply (ord_lt_irrefl P cmp k). Qed.

Lemma sl_lookup_app lt ge :
  Forall (fun p => cmp p.1 k = Lt) lt ->
  sl_lookup k (lt ++ ge) = sl_lookup k ge.
Proof.
  induction 1 as [|p lt Hp _ IH]; [done|]. simpl.
  rewrite decide_False; [done|by apply lt_ne].
Qed.

Lemma sl_delete_app lt ge :
  Forall (fun p => cmp p.1 k = Lt) lt ->
  sl_delete k (lt ++ ge) = lt ++ sl_delete k ge.
Proof.
  intros Hlt. unfold sl_delete. rewrite filter_app. f_equal.
  induction Hlt as [|p lt Hp _ IH]; [done|].
  rewrite filter_cons_True, IH; [done|by apply lt_ne].
Qed.

(** The part not below the key either starts with the key or misses it. *)
Lemma ge_cases ge :
  sl_wf ge -> Forall (fun p => cmp p.1 k <> Lt) ge ->
  match ge with
  | [] => True
  | p :: ge' =>
      if decide (p.1 = k) then
        sl_insert k p.2 ge = ge /\ sl_lookup k ge = Some p.2 /\ sl_delete k ge = ge' /\
        (forall v, sl_insert k v ge = (k, v) :: ge')
      else sl_lookup k ge = None /\ sl_delete k ge = ge /\ (forall v, sl_insert k v ge = (k, v) :: ge)
  end.
Proof.
  intros [Hwf Hs] Hge. destruct ge as [|[pk pv] ge]; [done|]. simpl in *.
  apply Forall_cons in Hwf as [Hp Hwf]. apply Forall_cons in Hge as [Hnlt Hge].
  inversion_clear Hs as [|? ? Hs' Hall]. simpl in Hnlt.
  assert (k = pk \/ cmp k pk = Lt -> sl_delete k ge = ge /\ sl_lookup k ge = None) as Hrest.
  { intros Hkp. assert (forall p, p ∈ ge -> p.1 <> k) as Hne.
    { intros p Hin Heq. rewrite Forall_forall in Hall.
      assert (cmp pk k = Lt) as Hlt
        by (apply Hall; rewrite <- Heq; by apply list_elem_of_fmap_2).
      destruct Hkp as [->|Hkp]; [by apply (ord_lt_irrefl P cmp pk)|].
      apply (ord_lt_irrefl P cmp k Hk).
      by eapply (ord_trans (P:=P) (cmp:=cmp) k pk k). }
    clear -Hne. induction ge as [|q ge IH]; [done|].
    destruct IH as [IH1 IH2]; [intros p Hp; apply Hne; by right|]. split.
    - unfold sl_delete in *. rewrite filter_cons_True, IH1; [done|apply Hne; by left].
    - simpl. rewrite decide_False; [done|apply Hne; by left]. }
  destruct (decide (pk = k)) as [->|Hne].
  - rewrite (ord_refl (P:=P) (cmp:=cmp) k) by done.
    destruct Hrest as [Hd _]; [by left|].
    split_and!; [done|done| |done].
    unfold sl_delete in *. rewrite filter_cons_False by (simpl; tauto). done.
  - assert (cmp pk k = Gt) as Hgt.
    { destruct (cmp pk k) eqn:E; [|done..].
      apply (ord_eq (P:=P)) in E; done. }
    rewrite Hgt. apply (ord_gt_lt P cmp) in Hgt; [|done..].
    destruct Hrest as [Hd Hl]; [by right|].
    split_and!; [done| |done].
    unfold sl_delete in *. rewrite filter_cons_True, Hd; done.
Qed.
End Split.

(** ** The representation invariant *)

Definition abs (h : heap) (L : list loc) : list (K * V) :=
  (fun x => (nkey h x, nval h x)) <$> L.

(** [top] is the height of the head, [level] the number of levels in use, [next] the next
    address [new] returns. *)
Record heap_inv (top : nat) (h : heap) (hd : loc) (level : nat) (next : loc) (L : list loc) : Prop := {
  inv_head : is_Some (h !! hd) /\ nheight h hd = top;
  inv_nodup : NoDup (hd :: L);
  inv_nodes : Forall (fun x => is_Some (h !! x) /\ (1 <= nheight h x <= level)%nat) L;
  inv_level : (1 <= level <= top)%nat;
  inv_wf : sl_wf (abs h L);
  inv_chains i : (i < top)%nat -> chain h i hd (filter (tall h i) L);
  inv_fresh : Forall (fun x => x < next)%nat (hd :: L);
  inv_only x : is_Some (h !! x) -> x ∈ hd :: L;
}.

Lemma abs_keys h L : (abs h L).*1 = nkey h <$> L.
Proof. unfold abs. by rewrite <- list_fmap_compose. Qed.

Lemma NoDup_length_size (h : heap) (l : list loc) :
  NoDup l -> Forall (fun x => is_Some (h !! x)) l -> (length l <= size h)%nat.
Proof.
  intros Hnd Hex. rewrite <- size_dom.
  rewrite <- (size_list_to_set (C := gset loc) l) by done.
  apply subseteq_size. intros x Hx%elem_of_list_to_set. rewrite Forall_forall in Hex.
  apply elem_of_dom. by apply Hex.
Qed.

Lemma node_abs (h : heap) y n : h !! y = Some n -> nkey h y = sk_key n /\ nval h y = sk_value n.
Proof. intros E. unfold nkey, nval. by rewrite E. Qed.

(** A sorted level-0 list splits at any key. *)
Lemma split_at h key L :
  P key -> sl_wf (abs h L) -> L = filter (below h key) L ++ filter (fun x => ~ below h key x) L.
Proof.
  intros Hk [Hwf Hs]. rewrite abs_keys in Hwf, Hs.
  induction L as [|x L IH]; [done|]. simpl in Hwf, Hs.
  apply Forall_cons in Hwf as [Hx Hwf]. inversion_clear Hs as [|? ? Hs' Hall].
  destruct (decide (below h key x)) as [Hb|Hb].
  - rewrite filter_cons_True, (filter_cons_False (fun x => ~ below h key x)) by tauto.
    simpl. f_equal. by apply IH.
  - rewrite filter_cons_False, (filter_cons_True (fun x => ~ below h key x)) by tauto.
    assert (filter (below h key) L = []) as E.
    { apply filter_none. rewrite Forall_forall in Hall, Hwf. intros y Hy Hby. apply Hb.
      eapply (ord_trans (P:=P) (cmp:=cmp) _ (nkey h y)); [done| |done| |done].
      - apply Hwf. by apply list_elem_of_fmap_2.
      - apply Hall. by apply list_elem_of_fmap_2. }
    rewrite E in *. simpl. f_equal. by apply IH.
Qed.

Lemma entries_from_chain h x l fuel :
  chain h 0 x l -> Forall (fun y => is_Some (h !! y)) l -> (length l <= fuel)%nat ->
  fwd h x 0 = Some (head l) /\ entries_from fuel h (head l) = Some (abs h l).
Proof.
  intros Hc. revert fuel. induction Hc as [x Hf|x y l Hf Hc IH]; intros fuel Hex Hfuel.
  { split; [done|]. by destruct fuel. }
  split; [done|]. simpl in Hfuel. destruct fuel as [|fuel]; [lia|].
  apply Forall_cons in Hex as [[n Hy] Hex]. destruct (IH fuel Hex) as [Hf' He]; [lia|].
  simpl. rewrite Hy. simpl. unfold fwd in Hf'. rewrite Hy in Hf'. simpl in Hf'.
  rewrite Hf'. simpl. rewrite He. simpl. by destruct (node_abs _ _ _ Hy) as [<- <-].
Qed.

(** Heaps that agree away from one node. *)
Record agree_off (n : loc) (h h' : heap) : Prop := {
  ao_lookup x : x <> n -> h' !! x = h !! x;
}.

Section AgreeOff.
Context (n : loc) (h h' : heap) (Hao : agree_off n h h').

Lemma ao_fwd x i : x <> n -> fwd h' x i = fwd h x i.
Proof. intros Hx. unfold fwd. by rewrite (ao_lookup n h h' Hao). Qed.
Lemma ao_height x : x <> n -> nheight h' x = nheight h x.
Proof. intros Hx. unfold nheight. by rewrite (ao_lookup n h h' Hao). Qed.

Lemma ao_abs l : n ∉ l -> abs h' l = abs h l.
Proof.
  intros Hl. apply list_fmap_ext. intros i x Hx. apply list_elem_of_lookup_2 in Hx.
  assert (x <> n) by set_solver. unfold nkey, nval. by rewrite (ao_lookup n h h' Hao).
Qed.

Lemma ao_filter i (l : list loc) : n ∉ l -> filter (tall h' i) l = filter (tall h i) l.
Proof.
  intros Hl. induction l as [|x l IH]; [done|]. rewrite !filter_cons.
  rewrite IH by set_solver.
  assert (tall h' i x <-> tall h i x) by (unfold tall; rewrite (ao_height x) by set_solver; done).
  by repeat case_decide; try tauto.
Qed.

Lemma ao_chain i x l : n ∉ x :: l -> chain h i x l -> chain h' i x l.
Proof. intros Hn Hc. eapply chain_ext; [|done]. intros y Hy. apply ao_fwd. set_solver. Qed.
End AgreeOff.

Lemma agree_insert n v (h : heap) : agree_off n h (<[n := v]> h).
Proof. split. intros x Hx. by apply lookup_insert_ne. Qed.

Lemma agree_delete n (h : heap) : agree_off n h (delete n h).
Proof. split. intros x Hx. by apply lookup_delete_ne. Qed.

Lemma abs_same h h' l : same_nodes h h' -> abs h' l = abs h l.
Proof.
  intros [Hk Hv _ _]. apply list_fmap_ext. intros i x _. by rewrite Hk, Hv.
Qed.

(** The destructor's loop frees exactly the chain. *)
Lemma free_from_chain l : forall h x fuel,
  chain h 0 x l -> NoDup (x :: l) -> (length l < fuel)%nat ->
  free_from fuel h (Some x) = Some (foldr delete h (reverse (x :: l))).
Proof.
  induction l as [|z l IH]; intros h x fuel Hc Hnd Hf;
    (destruct fuel as [|fuel]; [simpl in Hf; lia|]); cbn [free_from];
    inversion Hc as [? Hx|? ? ? Hx Hc']; subst; rewrite Hx; cbn [mbind option_bind].
  - by destruct fuel.
  - apply NoDup_cons in Hnd as [Hy Hnd]. rewrite IH; [|by apply (ao_chain x h _ (agree_delete x h))|done|simpl in Hf; lia].
    by rewrite (reverse_cons (z :: l) x), foldr_app.
Qed.

(** ** Linking a new node *)

(** Levels below [i] have been spliced, the others are as in [h0]. *)
Lemma link_spec top h0 hd node Llt Lge update :
  forall k i h,
  NoDup (hd :: Llt ++ Lge) -> node ∉ hd :: Llt ++ Lge ->
  same_nodes h0 h -> nheight h0 hd = top -> (i + k <= top)%nat ->
  (forall j, (j < i + k)%nat -> tall h0 j node) ->
  (forall j, (j < i + k)%nat -> update !! j = Some (pred_at h0 hd Llt j)) ->
  (forall j, (j < i)%nat -> chain h j hd (filter (tall h0 j) Llt ++ node :: filter (tall h0 j) Lge)) ->
  (forall j, (i <= j < top)%nat -> chain h j hd (filter (tall h0 j) Llt ++ filter (tall h0 j) Lge)) ->
  exists h', link h node update i k = Some h' /\ same_nodes h0 h' /\
    (forall j, (j < i + k)%nat -> chain h' j hd (filter (tall h0 j) Llt ++ node :: filter (tall h0 j) Lge)) /\
    (forall j, (i + k <= j < top)%nat -> chain h' j hd (filter (tall h0 j) Llt ++ filter (tall h0 j) Lge)).
Proof.
  induction k as [|k IH]; intros i h Hnd Hn Hsame Hhd Hik Htall Hupd Hdone Htodo.
  { exists h. rewrite Nat.add_0_r in *. split_and!; [done|done|done|]. intros j Hj. apply Htodo. lia. }
  simpl. rewrite (Hupd i) by lia. simpl.
  assert (chain h i hd (filter (tall h0 i) Llt ++ filter (tall h0 i) Lge)) as Hci by (apply Htodo; lia).
  pose proof (chain_last _ _ _ _ _ Hci) as Hlast. fold (pred_at h0 hd Llt i) in Hlast.
  rewrite (fwd_next_chain _ _ _ _ Hlast). simpl.
  assert (tall h i node) as Ht1 by (apply (tall_same h0 h); [done|apply Htall; lia]).
  assert (tall h i (pred_at h0 hd Llt i)) as Ht2.
  { apply (tall_same h0 h); [done|].
    destruct (pred_at_cases h0 hd Llt i) as [->|[_ ?]]; [|done]. unfold tall. lia. }
  destruct (set_fwd_some h node i (head (filter (tall h0 i) Lge)) Ht1) as [h1 E1].
  rewrite E1. simpl. destruct (set_fwd_ok _ _ _ _ _ Ht1 E1) as (Hs1 & _ & Ho1).
  assert (tall h1 i (pred_at h0 hd Llt i)) as Ht3 by by apply (tall_same h h1).
  destruct (set_fwd_some h1 (pred_at h0 hd Llt i) i (Some node) Ht3) as [h2 E2].
  rewrite E2. simpl. destruct (set_fwd_ok _ _ _ _ _ Ht3 E2) as (Hs2 & _ & Ho2).
  assert (forall j y, j <> i -> fwd h2 y j = fwd h y j) as Hother.
  { intros j y Hj. rewrite Ho2, Ho1; [done|congruence..]. }
  replace (i + S k)%nat with (S i + k)%nat in * by lia.
  apply IH; [done|done|by do 2 (etransitivity; [|done])|done|done|done|done| |].
  - intros j Hj. destruct (decide (j = i)) as [->|Hne].
    + apply (chain_insert h h1 h2); [done| | |done|done|done|done].
      * rewrite <- filter_app. apply NoDup_cons in Hnd as [Hx Hnd]. apply NoDup_cons.
        split; [|by apply NoDup_filter]. intros [_ ?]%list_elem_of_filter. done.
      * rewrite <- filter_app. intros [->|[_ ?]%list_elem_of_filter]%elem_of_cons; set_solver.
    + eapply chain_ext; [|apply Hdone; lia]. intros y _. by apply Hother.
  - intros j Hj. eapply chain_ext; [|apply Htodo; lia]. intros y _. apply Hother. lia.
Qed.

(** ** Unlinking a node *)

Lemma unlink_spec top h0 hd x Llt Lge update :
  NoDup (hd :: Llt ++ x :: Lge) -> nheight h0 hd = top ->
  forall k i h,
  same_nodes h0 h -> (i + k <= top)%nat -> (nheight h0 x <= i + k)%nat ->
  (forall j, (j < i + k)%nat -> update !! j = Some (pred_at h0 hd Llt j)) ->
  (forall j, (j < i)%nat -> chain h j hd (filter (tall h0 j) Llt ++ filter (tall h0 j) Lge)) ->
  (forall j, (i <= j < top)%nat -> chain h j hd (filter (tall h0 j) (Llt ++ x :: Lge))) ->
  exists h', unlink h x update i k = Some h' /\ same_nodes h0 h' /\
    (forall j, (j < top)%nat -> chain h' j hd (filter (tall h0 j) Llt ++ filter (tall h0 j) Lge)).
Proof.
  intros Hnd Hhd. induction k as [|k IH]; intros i h Hsame Hik Hx Hupd Hdone Htodo.
  all: assert (forall j, ~ tall h0 j x -> (i <= j < top)%nat ->
         chain h j hd (filter (tall h0 j) Llt ++ filter (tall h0 j) Lge)) as Hshort
    by (intros j Hnt Hj; specialize (Htodo j Hj); by rewrite filter_app, filter_cons_False in Htodo).
  { exists h. split_and!; [done|done|]. intros j Hj.
    destruct (decide (j < i)%nat); [by apply Hdone|]. apply Hshort; [unfold tall; lia|lia]. }
  simpl. rewrite (Hupd i) by lia. simpl.
  destruct (decide (tall h0 i x)) as [Ht|Hnt].
  - assert (chain h i hd (filter (tall h0 i) Llt ++ x :: filter (tall h0 i) Lge)) as Hc.
    { specialize (Htodo i ltac:(lia)). by rewrite filter_app, filter_cons_True in Htodo. }
    pose proof (chain_last _ _ _ _ _ Hc) as Hcx. fold (pred_at h0 hd Llt i) in Hcx.
    inversion Hcx as [|? ? ? Hfx Hcx']; subst. rewrite Hfx. simpl. rewrite decide_True by done.
    rewrite (fwd_next_chain _ _ _ _ Hcx'). simpl.
    assert (tall h i (pred_at h0 hd Llt i)) as Htu.
    { apply (tall_same h0 h); [done|].
      destruct (pred_at_cases h0 hd Llt i) as [->|[_ ?]]; [|done]. unfold tall. lia. }
    destruct (set_fwd_some h _ i (head (filter (tall h0 i) Lge)) Htu) as [h1 E1].
    rewrite E1. simpl. destruct (set_fwd_ok _ _ _ _ _ Htu E1) as (Hs1 & _ & Ho1).
    replace (i + S k)%nat with (S i + k)%nat in * by lia.
    apply IH; [by etransitivity|done|done|done| |].
    + intros j Hj. destruct (decide (j = i)) as [->|Hne].
      * eapply (chain_remove h h1); [done| |done|done].
        eapply sublist_NoDup; [done|]. apply sublist_skip, sublist_app; [apply sublist_filter|].
        apply sublist_skip, sublist_filter.
      * eapply chain_ext; [|apply Hdone; lia]. intros y _. apply Ho1. congruence.
    + intros j Hj. eapply chain_ext; [|apply Htodo; lia]. intros y _. apply Ho1. intros [= ? ->]. lia.
  - pose proof (Hshort i Hnt ltac:(lia)) as Hc. pose proof (chain_last _ _ _ _ _ Hc) as Hcx.
    fold (pred_at h0 hd Llt i) in Hcx. rewrite (fwd_next_chain _ _ _ _ Hcx). simpl.
    rewrite decide_False.
    2:{ intros [_ Hin]%head_Some_elem_of%list_elem_of_filter.
        rewrite NoDup_cons, NoDup_app, NoDup_cons in Hnd. tauto. }
    exists h. split_and!; [done|done|]. intros j Hj.
    destruct (decide (j < i)%nat); [by apply Hdone|]. apply Hshort; [unfold tall in *; lia|lia].
Qed.

Lemma shrink_spec top h hd (L : list loc) level :
  (level < top)%nat ->
  (forall i, (i < top)%nat -> chain h i hd (filter (tall h i) L)) ->
  Forall (fun x => 1 <= nheight h x <= S level)%nat L ->
  exists level', shrink_level h hd level = Some level' /\ (level' <= level)%nat /\
                 Forall (fun x => 1 <= nheight h x <= S level')%nat L.
Proof.
  induction level as [|level IH]; intros Hl Hch Hall; [by exists 0%nat|].
  cbn [shrink_level]. rewrite (fwd_next_chain _ _ _ _ (Hch (S level) Hl)). simpl.
  destruct (filter (tall h (S level)) L) as [|z l] eqn:E; simpl.
  - destruct IH as (level' & -> & ? & ?); [lia|done| |by exists level'; split; [|split; [lia|]]].
    rewrite Forall_forall in *. intros x Hx. specialize (Hall x Hx).
    assert (~ tall h (S level) x) as Hnt.
    { intros Ht. assert (x ∈ filter (tall h (S level)) L) as Hin by by apply list_elem_of_filter.
      rewrite E in Hin. by apply not_elem_of_nil in Hin. }
    unfold tall in Hnt. lia.
  - by exists (S level).
Qed.

(** ** Insertion and deletion keep the abstract list sorted *)

Lemma sl_insert_wf k v l : P k -> sl_wf l -> sl_wf (sl_insert k v l).
Proof.
  intros Hk [Hwf Hs]. induction l as [|[pk pv] l IH]; simpl in *.
  { split; repeat constructor; done. }
  apply Forall_cons in Hwf as [Hp Hwf]. inversion_clear Hs as [|? ? Hs' Hall].
  destruct (cmp pk k) eqn:E; simpl.
  - apply (ord_eq (P:=P)) in E as ->; [|done..]. split; constructor; done.
  - destruct (IH Hwf Hs') as [IHw IHs]. split; constructor; [done..|done|].
    rewrite Forall_forall in *. intros x [->|Hx]%sl_insert_keys; [done|by apply Hall].
  - apply (ord_gt_lt P cmp) in E; [|done..].
    split; constructor; [done|by constructor|by constructor|].
    constructor; [done|]. rewrite Forall_forall in *. intros x Hx.
    eapply (ord_trans (P:=P) (cmp:=cmp) k pk x); [done|done|by apply Hwf|done|by apply Hall].
Qed.

Lemma sl_delete_wf k l : sl_wf l -> sl_wf (sl_delete k l).
Proof.
  intros [Hwf Hs]. unfold sl_wf, sl_delete.
  assert ((filter (fun p : K * V => p.1 <> k) l).*1 `sublist_of` l.*1) as Hsub.
  { apply fmap_sublist, sublist_filter. }
  split; [|by eapply sorted_by_sublist].
  rewrite Forall_forall in *. intros x Hx. apply Hwf. by eapply elem_of_sublist.
Qed.

(** Reading after an update. *)
Lemma sl_lookup_insert k v l k' :
  P k -> P k' -> sl_wf l -> sl_lookup k' (sl_insert k v l) = if decide (k' = k) then Some v else sl_lookup k' l.
Proof.
  intros Hk Hk' [Hwf _]. induction l as [|p l IH]; simpl in *; [by repeat case_decide; subst|].
  apply Forall_cons in Hwf as [Hp Hwf]. destruct (cmp p.1 k) eqn:E; simpl.
  - apply (ord_eq (P:=P)) in E; [|done..]. repeat case_decide; congruence.
  - repeat case_decide; subst; try congruence; [|by apply IH..].
    by apply (ord_lt_irrefl P cmp p.1) in E.
  - repeat case_decide; congruence.
Qed.

(** ** The search phase *)

Section Search.
Context (top : nat) (h : heap) (hd : loc) (level : nat) (next : loc) (L : list loc).
Context (Hinv : heap_inv top h hd level next L).

Lemma inv_exists : Forall (fun x => is_Some (h !! x)) L.
Proof. eapply Forall_impl; [apply (inv_nodes _ _ _ _ _ _ Hinv)|]. by intros x []. Qed.

Lemma inv_fuel : (length L < size h)%nat.
Proof.
  pose proof (NoDup_length_size h (hd :: L) (inv_nodup _ _ _ _ _ _ Hinv)) as Hl.
  simpl in Hl. apply Hl. constructor; [apply (inv_head _ _ _ _ _ _ Hinv)|apply inv_exists].
Qed.

(** At level 0 every node is linked. *)
Lemma filter_tall_0 (l : list loc) : (forall x, x ∈ l -> x ∈ L) -> filter (tall h 0) l = l.
Proof.
  intros Hsub. induction l as [|x l IH]; [done|].
  rewrite filter_cons_True, IH; [done|intros y Hy; apply Hsub; by right|].
  pose proof (inv_nodes _ _ _ _ _ _ Hinv) as Hn. rewrite Forall_forall in Hn.
  destruct (Hn x) as [_ ?]; [apply Hsub; by left|]. unfold tall. lia.
Qed.

Lemma chain_0 : chain h 0 hd L.
Proof.
  rewrite <- (filter_tall_0 L) by done. apply (inv_chains _ _ _ _ _ _ Hinv). pose proof (inv_level _ _ _ _ _ _ Hinv). lia.
Qed.

(** What the search phase of every operation establishes. *)
Record found (key : K) (Llt Lge : list loc) : Prop := {
  f_split : L = Llt ++ Lge;
  f_lt : Forall (fun p => cmp p.1 key = Lt) (abs h Llt);
  f_ge : Forall (fun p => cmp p.1 key <> Lt) (abs h Lge);
  f_wf : sl_wf (abs h Lge);
  f_search : search (size h) h key (level - 1) hd = Some (pred_at h hd Llt 0, pred_at h hd Llt <$> seq 0 level);
  f_next : fwd h (pred_at h hd Llt 0) 0 = Some (head Lge);
}.

Lemma search_found key : P key -> exists Llt Lge, found key Llt Lge.
Proof.
  intros Hk. pose proof (split_at h key L Hk (inv_wf _ _ _ _ _ _ Hinv)) as Hsplit.
  set (Llt := filter (below h key) L) in *. set (Lge := filter (fun x => ~ below h key x) L) in *.
  exists Llt, Lge. pose proof (inv_level _ _ _ _ _ _ Hinv).
  assert (Forall (below h key) Llt) as Hlt by (apply Forall_forall; by intros x [? _]%list_elem_of_filter).
  assert (Forall (fun x => ~ below h key x) Lge) as Hge by (apply Forall_forall; by intros x [? _]%list_elem_of_filter).
  split; [done|by apply Forall_fmap|by apply Forall_fmap| | |].
  - pose proof (inv_wf _ _ _ _ _ _ Hinv) as [Hwf Hs]. rewrite Hsplit in Hwf, Hs. unfold abs in Hwf, Hs.
    rewrite !fmap_app in Hwf, Hs. apply Forall_app in Hwf as [_ Hwf]. apply sorted_by_app in Hs as (_ & Hs & _). by split.
  - replace level with (S (level - 1)) at 2 by lia.
    eapply search_spec; [|..|by left]; rewrite <- ?Hsplit; [|apply inv_exists|done|done|apply inv_fuel].
    intros j Hj. apply (inv_chains _ _ _ _ _ _ Hinv). lia.
  - pose proof chain_0 as Hc. rewrite Hsplit in Hc. apply chain_last in Hc. unfold pred_at.
    rewrite filter_tall_0 by (unfold Llt; intros x; rewrite list_elem_of_filter; tauto). by apply fwd_next_chain.
Qed.

Lemma update_lookup Llt (lv : nat) j :
  (forall x, x ∈ Llt -> x ∈ L) -> (j < Nat.max level lv)%nat ->
  ((pred_at h hd Llt <$> seq 0 level) ++ replicate (lv - level) hd) !! j = Some (pred_at h hd Llt j).
Proof.
  intros Hsub Hj. destruct (decide (j < level)%nat) as [Hle|Hgt].
  - rewrite lookup_app_l by (rewrite length_fmap, length_seq; lia).
    rewrite list_lookup_fmap, lookup_seq_lt by lia. done.
  - rewrite lookup_app_r by (rewrite length_fmap, length_seq; lia).
    rewrite length_fmap, length_seq, lookup_replicate_2 by lia.
    unfold pred_at. rewrite filter_none; [done|]. intros x Hx.
    pose proof (inv_nodes _ _ _ _ _ _ Hinv) as Hn. rewrite Forall_forall in Hn.
    destruct (Hn x) as [_ ?]; [by apply Hsub|]. unfold tall. lia.
Qed.

(** ** A new node *)

Section Insert.
Context (key : K) (value : V) (lv : nat) (Llt Lge : list loc).
Context (Hk : P key) (HL : L = Llt ++ Lge) (Hlv : (1 <= lv <= top)%nat).
Context (Habs : abs h Llt ++ (key, value) :: abs h Lge = sl_insert key value (abs h L)).

Let node := next.
Let h0 := <[node := mkNode key value (replicate lv None)]> h.
Let Hao := agree_insert node (mkNode key value (replicate lv None)) h : agree_off node h h0.
Let L' := Llt ++ node :: Lge.

Lemma new_node_fresh : node ∉ hd :: Llt ++ Lge.
Proof.
  rewrite <- HL. intros Hin. pose proof (inv_fresh _ _ _ _ _ _ Hinv) as Hfr.
  rewrite Forall_forall in Hfr. specialize (Hfr node Hin). unfold node in Hfr. lia.
Qed.

Lemma new_node_height : nheight h0 node = lv.
Proof. unfold nheight, h0. rewrite lookup_insert_eq. simpl. by rewrite length_replicate. Qed.

Lemma head_height : nheight h0 hd = top.
Proof.
  pose proof new_node_fresh. rewrite (ao_height node h h0 Hao) by set_solver. apply (inv_head _ _ _ _ _ _ Hinv).
Qed.

Lemma filter_new i :
  filter (tall h0 i) Llt = filter (tall h i) Llt /\ filter (tall h0 i) Lge = filter (tall h i) Lge.
Proof. pose proof new_node_fresh. split; apply (ao_filter node h h0 Hao); set_solver. Qed.

Lemma put_link :
  exists h', link h0 node ((pred_at h hd Llt <$> seq 0 level) ++ replicate (lv - level) hd) 0 lv = Some h' /\
    same_nodes h0 h' /\ (forall j, (j < top)%nat -> chain h' j hd (filter (tall h' j) L')).
Proof.
  pose proof (inv_nodup _ _ _ _ _ _ Hinv) as Hnd. rewrite HL in Hnd.
  edestruct (link_spec top h0 hd node Llt Lge ((pred_at h hd Llt <$> seq 0 level) ++ replicate (lv - level) hd) lv 0 h0)
    as (h' & Hlink & Hsame & Hdone & Htodo);
    [done|apply new_node_fresh|done|apply head_height|lia| | |intros j Hj; lia| |].
  - intros j Hj. unfold tall. rewrite new_node_height. lia.
  - intros j Hj. unfold pred_at at 2. rewrite (proj1 (filter_new j)).
    apply update_lookup; [rewrite HL; set_solver|lia].
  - intros j Hj. destruct (filter_new j) as [-> ->]. rewrite <- filter_app.
    apply (ao_chain node h h0 Hao).
    + pose proof new_node_fresh. rewrite elem_of_cons, list_elem_of_filter. set_solver.
    + rewrite <- HL. apply (inv_chains _ _ _ _ _ _ Hinv). lia.
  - exists h'. split_and!; [done..|]. intros j Hj.
    rewrite (filter_tall_same h0 h') by done. unfold L'. rewrite filter_app.
    destruct (decide (j < lv)%nat) as [Hlt|Hge].
    + rewrite filter_cons_True by (unfold tall; rewrite new_node_height; lia). by apply Hdone.
    + rewrite filter_cons_False by (unfold tall; rewrite new_node_height; lia). apply Htodo. lia.
Qed.

Lemma linked_abs h' : same_nodes h0 h' -> abs h' L' = sl_insert key value (abs h L).
Proof.
  intros Hsame. pose proof new_node_fresh. rewrite <- Habs, (abs_same h0 h') by done.
  unfold abs at 1, L'. rewrite fmap_app, fmap_cons. fold (abs h0 Llt) (abs h0 Lge).
  rewrite (ao_abs node h h0 Hao Llt), (ao_abs node h h0 Hao Lge) by set_solver.
  unfold nkey, nval, h0. by rewrite lookup_insert_eq.
Qed.

Lemma linked_nodes h' :
  same_nodes h0 h' -> Forall (fun x => is_Some (h' !! x) /\ (1 <= nheight h' x <= Nat.max level lv)%nat) L'.
Proof.
  intros Hsame. pose proof (inv_nodes _ _ _ _ _ _ Hinv) as Hn. rewrite HL, Forall_forall in Hn.
  apply Forall_forall. intros x Hx. rewrite (sn_height _ _ Hsame), (sn_dom _ _ Hsame).
  destruct (decide (x = node)) as [->|Hne].
  - rewrite new_node_height. unfold h0. rewrite lookup_insert_eq. split; [eauto|lia].
  - rewrite (ao_height node h h0 Hao), (ao_lookup node h h0 Hao) by done.
    destruct (Hn x) as [? ?]; [unfold L' in Hx; set_solver|]. split; [done|lia].
Qed.

Lemma linked_inv h' :
  same_nodes h0 h' -> (forall j, (j < top)%nat -> chain h' j hd (filter (tall h' j) L')) ->
  heap_inv top h' hd (Nat.max level lv) (S node) L'.
Proof.
  intros Hsame Hch. pose proof new_node_fresh as Hnode. pose proof (linked_abs h' Hsame) as Hab.
  split; [| |by apply linked_nodes| | |done| |].
  - split; [|rewrite (sn_height _ _ Hsame); apply head_height].
    apply (sn_dom _ _ Hsame). rewrite (ao_lookup node h h0 Hao) by set_solver.
    apply (inv_head _ _ _ _ _ _ Hinv).
  - pose proof (inv_nodup _ _ _ _ _ _ Hinv) as Hnd. rewrite HL, NoDup_cons, NoDup_app in Hnd.
    unfold L'. rewrite NoDup_cons, NoDup_app, NoDup_cons. set_solver.
  - pose proof (inv_level _ _ _ _ _ _ Hinv). lia.
  - rewrite Hab. apply sl_insert_wf; [done|apply (inv_wf _ _ _ _ _ _ Hinv)].
  - pose proof (inv_fresh _ _ _ _ _ _ Hinv) as Hfr. rewrite HL, Forall_cons, Forall_app in Hfr.
    unfold L', node. rewrite Forall_cons, Forall_app, Forall_cons. destruct Hfr as (? & Hf1 & Hf2).
    split_and!; [lia| |lia|]; (eapply Forall_impl; [eassumption|]; simpl; lia).
  - intros x. rewrite (sn_dom _ _ Hsame). destruct (decide (x = node)) as [->|Hne]; [unfold L'; set_solver|].
    rewrite (ao_lookup node h h0 Hao) by done. intros Hx%(inv_only _ _ _ _ _ _ Hinv). rewrite HL in Hx. unfold L'. set_solver.
Qed.
End Insert.

(** ** A new value, and a node less *)

Section Present.
Context (y : loc) (n : SkipNode K V) (Llt Lge : list loc) (HL : L = Llt ++ y :: Lge) (Hy : h !! y = Some n).

Lemma overwrite_ok value (h' := <[y := mkNode (sk_key n) value (sk_forward n)]> h) :
  heap_inv top h' hd level next L /\ abs h' L = abs h Llt ++ (sk_key n, value) :: abs h Lge.
Proof.
  pose proof (inv_nodup _ _ _ _ _ _ Hinv) as Hnd. rewrite HL, NoDup_cons, NoDup_app, NoDup_cons in Hnd.
  pose proof (agree_insert y (mkNode (sk_key n) value (sk_forward n)) h) as Hao. fold h' in Hao.
  assert (forall x, nkey h' x = nkey h x /\ nheight h' x = nheight h x /\ (is_Some (h' !! x) <-> is_Some (h !! x)) /\
    forall i, fwd h' x i = fwd h x i) as Hn.
  { intros x. unfold nkey, nheight, fwd, h'. destruct (decide (x = y)) as [->|Hne].
    - rewrite lookup_insert_eq, Hy. simpl. split_and!; [done..| |done]. by split; eauto.
    - by rewrite lookup_insert_ne. }
  split.
  - split; [..|apply (inv_fresh _ _ _ _ _ _ Hinv)|].
    + destruct (Hn hd) as (_ & -> & -> & _). apply (inv_head _ _ _ _ _ _ Hinv).
    + apply (inv_nodup _ _ _ _ _ _ Hinv).
    + eapply Forall_impl; [apply (inv_nodes _ _ _ _ _ _ Hinv)|]. intros x. by destruct (Hn x) as (_ & -> & -> & _).
    + apply (inv_level _ _ _ _ _ _ Hinv).
    + unfold sl_wf. rewrite abs_keys. rewrite (list_fmap_ext (nkey h') (nkey h));
        [rewrite <- abs_keys; apply (inv_wf _ _ _ _ _ _ Hinv)|]. intros i x _. apply Hn.
    + intros i Hi. rewrite (list_filter_iff (tall h' i) (tall h i)).
      * eapply chain_ext; [|by apply (inv_chains _ _ _ _ _ _ Hinv)]. intros x _. apply Hn.
      * intros x. unfold tall. by destruct (Hn x) as (_ & -> & _).
    + intros x. destruct (Hn x) as (_ & _ & -> & _). apply (inv_only _ _ _ _ _ _ Hinv).
  - rewrite HL. unfold abs at 1. rewrite fmap_app, fmap_cons. fold (abs h' Llt) (abs h' Lge).
    rewrite (ao_abs y h h' Hao Llt), (ao_abs y h h' Hao Lge) by set_solver.
    unfold nkey, nval, h'. by rewrite lookup_insert_eq.
Qed.

Lemma unlinked_inv h1 lv :
  same_nodes h h1 ->
  (forall j, (j < top)%nat -> chain (delete y h1) j hd (filter (tall (delete y h1) j) (Llt ++ Lge))) ->
  (1 <= lv <= top)%nat -> Forall (fun x => 1 <= nheight (delete y h1) x <= lv)%nat (Llt ++ Lge) ->
  heap_inv top (delete y h1) hd lv next (Llt ++ Lge) /\ abs (delete y h1) (Llt ++ Lge) = abs h (Llt ++ Lge).
Proof.
  intros Hsame Hch Hlv Hheight. pose proof (inv_nodup _ _ _ _ _ _ Hinv) as Hnd. rewrite HL in Hnd.
  assert (y ∉ hd :: Llt ++ Lge) as Hyn by (rewrite NoDup_cons, NoDup_app, NoDup_cons in Hnd; set_solver).
  pose proof (agree_delete y h1) as Hao.
  assert (abs (delete y h1) (Llt ++ Lge) = abs h (Llt ++ Lge)) as Hab.
  { rewrite (ao_abs y h1 _ Hao) by set_solver. by apply abs_same. }
  split; [|done]. split; [..|done| |].
  - rewrite (ao_height y h1 _ Hao), (ao_lookup y h1 _ Hao) by set_solver.
    rewrite (sn_height _ _ Hsame), (sn_dom _ _ Hsame). apply (inv_head _ _ _ _ _ _ Hinv).
  - eapply sublist_NoDup; [done|]. apply sublist_skip, sublist_app; [done|by apply sublist_cons].
  - pose proof inv_exists as Hex. rewrite HL in Hex. rewrite Forall_forall in *.
    intros x Hx. split; [|by apply Hheight].
    rewrite (ao_lookup y h1 _ Hao) by set_solver. apply (sn_dom _ _ Hsame), Hex. set_solver.
  - done.
  - rewrite Hab. pose proof (inv_wf _ _ _ _ _ _ Hinv) as [Hwf Hs]. rewrite HL, abs_keys in Hwf, Hs.
    unfold sl_wf. rewrite abs_keys.
    assert (nkey h <$> Llt ++ Lge `sublist_of` nkey h <$> Llt ++ y :: Lge) as Hsub.
    { apply fmap_sublist, sublist_app; [done|by apply sublist_cons]. }
    split; [|by apply (sorted_by_sublist _ _ Hsub)]. rewrite Forall_forall in *.
    intros k Hk. apply Hwf. by eapply elem_of_sublist.
  - pose proof (inv_fresh _ _ _ _ _ _ Hinv) as Hfr. rewrite HL in Hfr. rewrite Forall_forall in *.
    intros x Hx. apply Hfr. set_solver.
  - intros x [Hxy Hx]%lookup_delete_is_Some. apply (sn_dom _ _ Hsame) in Hx.
    apply (inv_only _ _ _ _ _ _ Hinv) in Hx. rewrite HL in Hx. set_solver.
Qed.

Lemma remove_ok :
  exists h1 lv, unlink h y (pred_at h hd Llt <$> seq 0 level) 0 level = Some h1 /\
    shrink_level (delete y h1) hd (level - 1) = Some lv /\
    heap_inv top (delete y h1) hd (S lv) next (Llt ++ Lge) /\ abs (delete y h1) (Llt ++ Lge) = abs h (Llt ++ Lge).
Proof.
  pose proof (inv_nodup _ _ _ _ _ _ Hinv) as Hnd. pose proof (inv_nodes _ _ _ _ _ _ Hinv) as Hnodes.
  pose proof (inv_level _ _ _ _ _ _ Hinv) as Hlev. rewrite HL in Hnd, Hnodes.
  edestruct (unlink_spec top h hd y Llt Lge (pred_at h hd Llt <$> seq 0 level)) with (k := level) (i := 0%nat) (h := h)
    as (h1 & E1 & Hsame & Hch); [done|apply (inv_head _ _ _ _ _ _ Hinv)|done|lia| | |intros j Hj; lia| |].
  { rewrite Forall_app, Forall_cons in Hnodes. destruct Hnodes as (_ & [_ ?] & _). lia. }
  { intros j Hj. by rewrite list_lookup_fmap, lookup_seq_lt by lia. }
  { intros j Hj. rewrite <- HL. apply (inv_chains _ _ _ _ _ _ Hinv). lia. }
  assert (y ∉ hd :: Llt ++ Lge) as Hyn by (rewrite NoDup_cons, NoDup_app, NoDup_cons in Hnd; set_solver).
  pose proof (agree_delete y h1) as Hao.
  assert (forall j, (j < top)%nat -> chain (delete y h1) j hd (filter (tall (delete y h1) j) (Llt ++ Lge))) as Hch'.
  { intros j Hj. rewrite (ao_filter y h1 _ Hao), (filter_tall_same h h1) by set_solver.
    apply (ao_chain y h1 _ Hao); [|rewrite filter_app; by apply Hch].
    rewrite elem_of_cons, list_elem_of_filter. set_solver. }
  edestruct (shrink_spec top (delete y h1) hd (Llt ++ Lge) (level - 1)) as (lv & E2 & Hle & Hh); [lia|done| |].
  { rewrite Forall_forall in *. intros x Hx. replace (S (level - 1)) with level by lia.
    rewrite (ao_height y h1 _ Hao), (sn_height _ _ Hsame) by set_solver. apply Hnodes. set_solver. }
  exists h1, lv. split; [done|]. split; [done|]. apply unlinked_inv; [done..|lia|done].
Qed.
End Present.
End Search.

(** ** What a client sees *)

(** The heap represents the sorted list [l]. *)
Definition heap_rep (top : nat) (h : heap) (hd : loc) (level : nat) (next : loc) (l : list (K * V)) : Prop :=
  exists L, heap_inv top h hd level next L /\ abs h L = l.

(** What the search leaves for the rest of an operation: the node after the predecessors,
    and that linking a new node, overwriting the node found and removing it are defined and
    lead to heaps that represent the updated lists. *)
Record located (top : nat) (h : heap) (hd : loc) (level : nat) (next : loc) (l : list (K * V)) (key : K)
    (x : loc) (update : list loc) (nx : option loc) : Prop := {
  lo_search : search (size h) h key (level - 1) hd = Some (x, update);
  lo_fwd : fwd h x 0 = Some nx;
  lo_none : nx = None -> sl_lookup key l = None;
  lo_some y : nx = Some y ->
    exists n, h !! y = Some n /\ sl_lookup key l = if decide (sk_key n = key) then Some (sk_value n) else None;
  lo_insert value lv : sl_lookup key l = None -> (1 <= lv <= top)%nat ->
    exists h', link (<[next := mkNode key value (replicate lv None)]> h) next (update ++ replicate (lv - level) hd) 0 lv = Some h' /\
      heap_rep top h' hd (Nat.max level lv) (S next) (sl_insert key value l);
  lo_overwrite y n value : nx = Some y -> h !! y = Some n -> sk_key n = key ->
    heap_rep top (<[y := mkNode (sk_key n) value (sk_forward n)]> h) hd level next (sl_insert key value l);
  lo_remove y n : nx = Some y -> h !! y = Some n -> sk_key n = key ->
    exists h1 lv, unlink h y update 0 level = Some h1 /\ shrink_level (delete y h1) hd (level - 1) = Some lv /\
      heap_rep top (delete y h1) hd (S lv) next (sl_delete key l);
}.

Lemma heap_locate top h hd level next l key :
  heap_rep top h hd level next l -> P key -> exists x update nx, located top h hd level next l key x update nx.
Proof.
  intros (L & Hinv & <-) Hk. destruct (search_found _ _ _ _ _ _ Hinv key Hk) as (Llt & Lge & Hf).
  pose proof (f_split _ _ _ _ _ _ _ Hf) as HL. pose proof (ge_cases key Hk _ (f_wf _ _ _ _ _ _ _ Hf) (f_ge _ _ _ _ _ _ _ Hf)) as Hc.
  assert (abs h L = abs h Llt ++ abs h Lge) as Habs by (rewrite HL; apply fmap_app).
  pose proof (f_lt _ _ _ _ _ _ _ Hf) as Hlt.
  assert (sl_lookup key (abs h L) = sl_lookup key (abs h Lge)) as Hlook by by rewrite Habs, sl_lookup_app.
  pose proof (inv_exists _ _ _ _ _ _ Hinv) as Hex. rewrite HL, Forall_app in Hex. destruct Hex as [_ Hex].
  exists (pred_at h hd Llt 0), (pred_at h hd Llt <$> seq 0 level), (head Lge).
  split; [apply (f_search _ _ _ _ _ _ _ Hf)|apply (f_next _ _ _ _ _ _ _ Hf)|..].
  - rewrite Hlook. by destruct Lge.
  - rewrite Hlook. destruct Lge as [|z Lge]; [done|]. intros y [= <-]. apply Forall_cons in Hex as [[n Hz] _]. exists n. split; [done|].
    destruct (node_abs _ _ _ Hz) as [E1 E2]. simpl in Hc |- *. rewrite E1, E2 in *. case_decide; [done|]. apply Hc.
  - intros value lv Hno Hlv. rewrite Hlook in Hno.
    assert (abs h Llt ++ (key, value) :: abs h Lge = sl_insert key value (abs h L)) as Hins.
    { rewrite Habs, sl_insert_app by done. f_equal. destruct Lge as [|z Lge]; [done|]. simpl in Hc, Hno |- *.
      case_decide; [done|]. symmetry. apply Hc. }
    edestruct (put_link _ _ _ _ _ _ Hinv key value lv Llt Lge) as (h' & E & Hs & Hch); [done..|]. exists h'. split; [done|].
    exists (Llt ++ next :: Lge). split; [by eapply linked_inv|by eapply linked_abs].
  - destruct Lge as [|z Lge]; [done|]. intros y n value [= <-] Hy Heq.
    edestruct (overwrite_ok _ _ _ _ _ _ Hinv z n Llt Lge) with (value := value) as [Hi Ha]; [done..|]. exists L. split; [done|]. rewrite Ha, Habs, sl_insert_app by done.
    f_equal. destruct (node_abs _ _ _ Hy) as [E1 E2]. simpl in Hc |- *. rewrite E1, Heq, decide_True in Hc by done.
    destruct Hc as (_ & _ & _ & Hc). by rewrite E1, Heq, Hc.
  - destruct Lge as [|z Lge]; [done|]. intros y n [= <-] Hy Heq.
    edestruct (remove_ok _ _ _ _ _ _ Hinv z n Llt Lge) as (h1 & lv & E1 & E2 & Hi & Ha); [done..|]. exists h1, lv. split; [done|]. split; [done|].
    exists (Llt ++ Lge). split; [done|]. rewrite Ha, Habs, sl_delete_app by done. unfold abs at 1. rewrite fmap_app. f_equal.
    destruct (node_abs _ _ _ Hy) as [E _]. simpl in Hc |- *. rewrite E, Heq, decide_True in Hc by done. destruct Hc as (_ & _ & Hc & _). by rewrite E, Heq, Hc.
Qed.

Lemma heap_rep_wf top h hd level next l : heap_rep top h hd level next l -> sl_wf l.
Proof. intros (L & Hinv & <-). apply (inv_wf _ _ _ _ _ _ Hinv). Qed.

Lemma heap_rep_level top h hd level next l : heap_rep top h hd level next l -> (1 <= level <= top)%nat.
Proof. intros (L & Hinv & <-). apply (inv_level _ _ _ _ _ _ Hinv). Qed.

Lemma heap_rep_first top h hd level next l :
  heap_rep top h hd level next l -> exists x, fwd h hd 0 = Some x /\ (x = None <-> l = []) /\ entries_from (size h) h x = Some l.
Proof.
  intros (L & Hinv & <-). exists (head L).
  destruct (entries_from_chain h hd L (size h)) as [Hf He];
    [by eapply chain_0|by eapply inv_exists|pose proof (inv_fuel _ _ _ _ _ _ Hinv); lia|].
  split; [done|]. split; [by destruct L|done].
Qed.

(** A fresh list: the head alone. *)
Lemma heap_rep_new top k v : (1 <= top)%nat -> heap_rep top {[ 0%nat := mkNode k v (replicate top None) ]} 0 1 1 [].
Proof.
  intros Ht. exists []. split; [|done]. split.
  - unfold nheight. rewrite lookup_singleton_eq. simpl. by rewrite length_replicate.
  - apply NoDup_singleton.
  - constructor.
  - lia.
  - split; constructor.
  - intros i Hi. constructor. unfold fwd. rewrite lookup_singleton_eq. by apply (lookup_replicate_2 top (@None loc)).
  - repeat constructor.
  - intros x [y Hx%lookup_singleton_Some]. destruct Hx as [<- _]. left.
Qed.

Lemma foldr_delete_lookup (l : list loc) (h : heap) x : foldr delete h l !! x = if decide (x ∈ l) then None else h !! x.
Proof.
  induction l as [|y l IH]; cbn [foldr]; [done|].
  destruct (decide (x = y)) as [->|Hne]; [by rewrite lookup_delete_eq, decide_True by set_solver|].
  rewrite lookup_delete_ne, IH by done. repeat case_decide; set_solver.
Qed.

(** The destructor frees every node: nothing leaks and nothing is freed twice. *)
Lemma heap_rep_free top h hd level next l : heap_rep top h hd level next l -> free_from (size h) h (Some hd) = Some ∅.
Proof.
  intros (L & Hinv & <-). rewrite (free_from_chain L h hd).
  - f_equal. apply map_eq. intros x. rewrite foldr_delete_lookup, lookup_empty. case_decide as Hx; [done|].
    destruct (h !! x) eqn:E; [|done]. exfalso. apply Hx. rewrite elem_of_reverse. eapply inv_only; eauto.
  - by eapply chain_0.
  - apply (inv_nodup _ _ _ _ _ _ Hinv).
  - by eapply inv_fuel.
Qed.

(** The same for a destructor that starts at the first node and frees the head last. *)
Lemma heap_rep_free_nodes top h hd level next l :
  heap_rep top h hd level next l ->
  exists x h', fwd h hd 0 = Some x /\ free_from (size h) h x = Some h' /\ delete hd h' = ∅.
Proof.
  intros (L & Hinv & <-). pose proof (chain_0 _ _ _ _ _ _ Hinv) as Hc. pose proof (inv_nodup _ _ _ _ _ _ Hinv) as Hnd.
  pose proof (inv_fuel _ _ _ _ _ _ Hinv) as Hf. exists (head L), (foldr delete h (reverse L)).
  split; [by apply fwd_next_chain|]. split.
  - destruct L as [|y L]; [by destruct (size h)|]. inversion Hc as [|? ? ? Hx Hc']; subst. apply NoDup_cons in Hnd as [_ Hnd].
    cbn [head]. rewrite (free_from_chain L); [done..|]. simpl in Hf. lia.
  - apply map_eq. intros x. rewrite lookup_empty. destruct (decide (x = hd)) as [->|Hne]; [apply lookup_delete_eq|].
    rewrite lookup_delete_ne, foldr_delete_lookup by done. case_decide as Hx; [done|].
    destruct (h !! x) eqn:E; [|done]. exfalso. apply Hx. rewrite elem_of_reverse.
    assert (x ∈ hd :: L) as Hin by (eapply inv_only; eauto). set_solver.
Qed.
End Operations.
