(* ===== verification/SkipList.v ===== *)
(** * The skip list

    Models [minikv/src/core/skip_list.h] at the level of its pointers, on the heaps of
    [SkipHeap]: [put], [get], [del] and [entries] follow the loops of the source, [None] is
    undefined behaviour.  The refinement theorems show that every operation is defined and
    acts on the abstract state, the strictly sorted association list at level 0. *)

From Stdlib Require Import ZArith Lia.
From stdpp Require Import base numbers strings list gmap.
From S2P Require Import Prelude Coding Slice InternalKey SkipHeap.
Local Open Scope Z_scope.

Abbreviation sl_insert := (SkipHeap.sl_insert (K:=bytes) (V:=bytes) InternalKeyCompare).
Abbreviation sl_wf := (SkipHeap.sl_wf (K:=bytes) (V:=bytes) InternalKeyCompare wf_ikey).

Definition kMaxLevel : nat := 32.

(** [sizeof(SkipNode)] on LP64 libstdc++: two 32-byte strings and a 24-byte vector. *)
Definition sizeof_SkipNode : Z := 88.

Record SkipList := mkSkip {
  sk_heap : gmap loc (SkipNode bytes bytes);
  sk_head : loc;
  sk_max_level : nat;
  sk_mem : Z;
  sk_next : loc;   (* the next address [new] returns *)
}.

Definition SkipNode_new (key value : bytes) (level : nat) : SkipNode bytes bytes :=
  mkNode key value (replicate (S level) None).

Definition SkipList_new : SkipList :=
  mkSkip {[ 0%nat := SkipNode_new [] [] kMaxLevel ]} 0 0 0 1.

Definition sk_search (s : SkipList) (key : bytes) : option (loc * list loc) :=
  search InternalKeyCompare (size (sk_heap s)) (sk_heap s) key (sk_max_level s) (sk_head s).

(** [while (dist(rng) && level < kMaxLevel) ++level;] over the coin flips drawn. *)
Fixpoint randomLevel_from (flips : list bool) (level : nat) : nat :=
  match flips with
  | true :: flips => if decide (level < kMaxLevel)%nat then randomLevel_from flips (S level) else level
  | _ => level
  end.

Definition randomLevel (flips : list bool) : nat := randomLevel_from flips 0.

Definition skip_put (s : SkipList) (key value : bytes) (flips : list bool) : option SkipList :=
  let h := sk_heap s in
  '(x, update) ← sk_search s key;
  nx ← fwd h x 0;
  let insert :=
    let level := randomLevel flips in
    let update := update ++ replicate (level - sk_max_level s) (sk_head s) in
    let max_level := Nat.max (sk_max_level s) level in
    let node := sk_next s in
    h ← link (<[node := SkipNode_new key value level]> h) node update 0 (S level);
    Some (mkSkip h (sk_head s) max_level
            (u64 (sk_mem s + (sizeof_SkipNode + zlen key + zlen value))) (S node)) in
  match nx with
  | None => insert
  | Some y =>
      n ← h !! y;
      if decide (sk_key n = key) then
        Some (mkSkip (<[y := mkNode (sk_key n) value (sk_forward n)]> h) (sk_head s) (sk_max_level s)
                (u64 (u64 (sk_mem s - zlen (sk_value n)) + zlen value)) (sk_next s))
      else insert
  end.

(** [Some None] is [std::nullopt]. *)
Definition skip_get (s : SkipList) (key : bytes) : option (option bytes) :=
  '(x, _) ← sk_search s key;
  nx ← fwd (sk_heap s) x 0;
  match nx with
  | None => Some None
  | Some y =>
      n ← sk_heap s !! y;
      Some (if decide (sk_key n = key) then Some (sk_value n) else None)
  end.

Definition skip_del (s : SkipList) (key : bytes) : option SkipList :=
  let h := sk_heap s in
  '(x, update) ← sk_search s key;
  nx ← fwd h x 0;
  match nx with
  | None => Some s
  | Some y =>
      n ← h !! y;
      if decide (sk_key n = key) then
        h ← unlink h y update 0 (S (sk_max_level s));
        let h := delete y h in
        level ← shrink_level h (sk_head s) (sk_max_level s);
        Some (mkSkip h (sk_head s) level
                (u64 (sk_mem s - (sizeof_SkipNode + zlen (sk_key n) + zlen (sk_value n)))) (sk_next s))
      else Some s
  end.

Definition skip_entries (s : SkipList) : option (list (bytes * bytes)) :=
  x ← fwd (sk_heap s) (sk_head s) 0;
  entries_from (size (sk_heap s)) (sk_heap s) x.

(** The destructor. *)
Definition skip_destroy (s : SkipList) : option (gmap loc (SkipNode bytes bytes)) :=
  free_from (size (sk_heap s)) (sk_heap s) (Some (sk_head s)).

Definition skip_empty (s : SkipList) : option bool :=
  x ← fwd (sk_heap s) (sk_head s) 0;
  Some (bool_decide (x = None)).

(** A run on concrete keys: two inserts, an overwrite and a delete. *)
Example skip_run :
  let k1 := InternalKeyEncode (bs "a") 1 kValue in
  let k2 := InternalKeyEncode (bs "b") 2 kValue in
  (s ← skip_put SkipList_new k2 (bs "two") [true; true; false];
   s ← skip_put s k1 (bs "one") [true];
   s ← skip_put s k1 (bs "uno") [];
   s' ← skip_del s k2;
   e ← skip_entries s; e' ← skip_entries s';
   Some (e, e', sk_max_level s, sk_max_level s')) =
  Some ([(k1, bs "uno"); (k2, bs "two")], [(k1, bs "uno")], 2%nat, 1%nat).
Proof. vm_compute. reflexivity. Qed.

(** ** Byte counts *)

Definition sl_bytes (l : list (bytes * bytes)) : Z :=
  foldr (fun p acc => sizeof_SkipNode + zlen p.1 + zlen p.2 + acc) 0 l.

Lemma sl_bytes_cons p l : sl_bytes (p :: l) = sizeof_SkipNode + zlen p.1 + zlen p.2 + sl_bytes l.
Proof. done. Qed.

Lemma u64_add_l x y : u64 (u64 x + y) = u64 (x + y).
Proof. unfold u64. by rewrite Z.add_mod_idemp_l. Qed.

Lemma u64_sub_l x y : u64 (u64 x - y) = u64 (x - y).
Proof. unfold u64. by rewrite Zminus_mod_idemp_l. Qed.

Lemma randomLevel_le flips : (randomLevel flips <= kMaxLevel)%nat.
Proof.
  unfold randomLevel. assert (0 <= kMaxLevel)%nat as H0 by lia. revert H0. generalize 0%nat.
  induction flips as [|[] flips IH]; intros n Hn; simpl; [done| |done].
  case_decide; [apply IH; lia|done].
Qed.

(** What an insertion and a deletion add to the count. *)
Lemma sl_bytes_insert k v l :
  wf_ikey k -> sl_wf l ->
  sl_bytes (sl_insert k v l) =
    match sl_lookup k l with
    | Some v0 => sl_bytes l - zlen v0 + zlen v
    | None => sl_bytes l + (sizeof_SkipNode + zlen k + zlen v)
    end.
Proof.
  intros Hk [Hwf Hs]. induction l as [|[pk pv] l IH]; cbn [SkipHeap.sl_insert sl_lookup fmap list_fmap fst snd] in *; [cbn; lia|].
  apply Forall_cons in Hwf as [Hp Hwf]. inversion_clear Hs as [|? ? Hs' Hall].
  destruct (InternalKeyCompare pk k) eqn:E; rewrite !sl_bytes_cons; cbn [fst snd].
  - apply (ord_eq (P:=wf_ikey)) in E as ->; [|done..]. rewrite decide_True by done. lia.
  - rewrite IH, decide_False by (done || intros ->; by apply (ord_lt_irrefl wf_ikey InternalKeyCompare k)).
    destruct (sl_lookup k l); lia.
  - apply (ord_gt_lt wf_ikey InternalKeyCompare) in E; [|done..].
    rewrite decide_False by (intros ->; by apply (ord_lt_irrefl wf_ikey InternalKeyCompare k)).
    rewrite sl_lookup_fresh; [lia|]. intros Hin. rewrite Forall_forall in Hall.
    apply (ord_lt_irrefl wf_ikey InternalKeyCompare k Hk).
    apply (ord_trans (P:=wf_ikey) (cmp:=InternalKeyCompare) k pk k); try done. by apply Hall.
Qed.

Lemma sl_bytes_delete k l :
  sl_wf l -> sl_bytes (sl_delete k l) =
    match sl_lookup k l with Some v0 => sl_bytes l - (sizeof_SkipNode + zlen k + zlen v0) | None => sl_bytes l end.
Proof.
  intros [Hwf Hs]. induction l as [|[pk pv] l IH]; [done|]. cbn [sl_lookup fmap list_fmap fst snd] in *. apply Forall_cons in Hwf as [Hp Hwf]. inversion_clear Hs as [|? ? Hs' Hall].
  unfold sl_delete in *. rewrite filter_cons, sl_bytes_cons. cbn [fst snd]. destruct (decide (pk = k)) as [->|Hne].
  - rewrite decide_False by tauto. rewrite IH by done. rewrite sl_lookup_fresh; [lia|].
    intros Hin. rewrite Forall_forall in Hall. by apply (ord_lt_irrefl wf_ikey InternalKeyCompare k Hp), Hall.
  - rewrite decide_True, sl_bytes_cons by done. cbn [fst snd]. rewrite IH by done. destruct (sl_lookup k l); lia.
Qed.

(** ** The contract of the skip list *)

(** [skip_rep s l]: the pointer structure [s] represents the sorted list [l]. *)
Definition skip_rep (s : SkipList) (l : list (bytes * bytes)) : Prop :=
  exists levels, levels = S (sk_max_level s) /\ sk_mem s = u64 (sl_bytes l) /\
    heap_rep InternalKeyCompare wf_ikey (S kMaxLevel) (sk_heap s) (sk_head s) levels (sk_next s) l.

Lemma skip_rep_iff s l :
  skip_rep s l <->
  heap_rep InternalKeyCompare wf_ikey (S kMaxLevel) (sk_heap s) (sk_head s) (S (sk_max_level s)) (sk_next s) l /\
  sk_mem s = u64 (sl_bytes l).
Proof. unfold skip_rep. naive_solver. Qed.

Lemma skip_rep_new : skip_rep SkipList_new [].
Proof. apply skip_rep_iff. split; [|done]. apply heap_rep_new. lia. Qed.

Lemma skip_rep_wf s l : skip_rep s l -> sl_wf l.
Proof. intros [Hr _]%skip_rep_iff. by eapply heap_rep_wf. Qed.

Lemma skip_rep_entries s l : skip_rep s l -> skip_entries s = Some l.
Proof. intros [Hr _]%skip_rep_iff. destruct (heap_rep_first _ _ _ _ _ _ _ _ Hr) as (x & E & _ & He). unfold skip_entries. by rewrite E. Qed.

Lemma skip_rep_mem s l : skip_rep s l -> sk_mem s = u64 (sl_bytes l).
Proof. by intros [_ Hm]%skip_rep_iff. Qed.

Lemma skip_rep_empty s l : skip_rep s l -> skip_empty s = Some (bool_decide (l = [])).
Proof.
  intros [Hr _]%skip_rep_iff. destruct (heap_rep_first _ _ _ _ _ _ _ _ Hr) as (x & E & Hx & _). unfold skip_empty. rewrite E. cbn.
  f_equal. by apply bool_decide_ext.
Qed.

(** Destroying a list frees every node once. *)
Lemma skip_rep_destroy s l : skip_rep s l -> skip_destroy s = Some ∅.
Proof. intros [Hr _]%skip_rep_iff. exact (heap_rep_free _ _ _ _ _ _ _ _ Hr). Qed.

(** The search, for a list of any number of levels. *)
Lemma skip_locate s l key :
  skip_rep s l -> wf_ikey key ->
  exists x update nx, sk_search s key = Some (x, update) /\
    located InternalKeyCompare wf_ikey (S kMaxLevel) (sk_heap s) (sk_head s) (S (sk_max_level s)) (sk_next s) l key x update nx.
Proof.
  intros [Hr _]%skip_rep_iff Hk. destruct (heap_locate _ _ _ _ _ _ _ _ _ Hr Hk) as (x & update & nx & Hl). exists x, update, nx.
  split; [|done]. unfold sk_search. rewrite <- (lo_search _ _ _ _ _ _ _ _ _ _ _ _ Hl). f_equal. lia.
Qed.

Lemma skip_rep_get s l key : skip_rep s l -> wf_ikey key -> skip_get s key = Some (sl_lookup key l).
Proof.
  intros Hr Hk. destruct (skip_locate s l key Hr Hk) as (x & update & nx & E & Hl). unfold skip_get. rewrite E. cbn [mbind option_bind].
  rewrite (lo_fwd _ _ _ _ _ _ _ _ _ _ _ _ Hl). cbn [mbind option_bind]. destruct nx as [y|].
  - destruct (lo_some _ _ _ _ _ _ _ _ _ _ _ _ Hl y eq_refl) as (n & -> & ->). done.
  - by rewrite (lo_none _ _ _ _ _ _ _ _ _ _ _ _ Hl).
Qed.

Lemma skip_rep_put s l key value flips :
  skip_rep s l -> wf_ikey key ->
  exists s', skip_put s key value flips = Some s' /\ skip_rep s' (sl_insert key value l).
Proof.
  intros Hr Hk. destruct (skip_locate s l key Hr Hk) as (x & update & nx & E & Hl). unfold skip_put. rewrite E. cbn [mbind option_bind].
  rewrite (lo_fwd _ _ _ _ _ _ _ _ _ _ _ _ Hl). cbn [mbind option_bind]. pose proof (randomLevel_le flips) as Hlv.
  pose proof (sl_bytes_insert key value l Hk (skip_rep_wf _ _ Hr)) as Hb. pose proof (skip_rep_mem _ _ Hr) as Hm.
  assert (sl_lookup key l = None -> exists s',
    (h' ← link (<[sk_next s := SkipNode_new key value (randomLevel flips)]> (sk_heap s)) (sk_next s)
            (update ++ replicate (randomLevel flips - sk_max_level s) (sk_head s)) 0 (S (randomLevel flips));
     Some (mkSkip h' (sk_head s) (Nat.max (sk_max_level s) (randomLevel flips))
             (u64 (sk_mem s + (sizeof_SkipNode + zlen key + zlen value))) (S (sk_next s)))) = Some s' /\
    skip_rep s' (sl_insert key value l)) as Hins.
  { intros Hno. destruct (lo_insert _ _ _ _ _ _ _ _ _ _ _ _ Hl value (S (randomLevel flips)) Hno ltac:(lia)) as (h' & E1 & Hr').
    unfold SkipNode_new. change (randomLevel flips - sk_max_level s)%nat with (S (randomLevel flips) - S (sk_max_level s))%nat.
    rewrite E1. eexists. split; [done|]. apply skip_rep_iff. split; [exact Hr'|]. cbn [sk_mem]. by rewrite Hm, u64_add_l, Hb, Hno. }
  destruct nx as [y|]; [|by apply Hins, (lo_none _ _ _ _ _ _ _ _ _ _ _ _ Hl)].
  destruct (lo_some _ _ _ _ _ _ _ _ _ _ _ _ Hl y eq_refl) as (n & Hy & Hlk). rewrite Hy. cbn [mbind option_bind].
  destruct (decide (sk_key n = key)) as [Heq|Hne]; [|by apply Hins].
  eexists. split; [done|]. apply skip_rep_iff. split; [by apply (lo_overwrite _ _ _ _ _ _ _ _ _ _ _ _ Hl)|].
  cbn [sk_mem]. by rewrite Hm, u64_sub_l, u64_add_l, Hb, Hlk.
Qed.

Lemma skip_rep_del s l key :
  skip_rep s l -> wf_ikey key ->
  exists s', skip_del s key = Some s' /\ skip_rep s' (sl_delete key l).
Proof.
  intros Hr Hk. destruct (skip_locate s l key Hr Hk) as (x & update & nx & E & Hl). unfold skip_del. rewrite E. cbn [mbind option_bind].
  rewrite (lo_fwd _ _ _ _ _ _ _ _ _ _ _ _ Hl). cbn [mbind option_bind].
  pose proof (sl_bytes_delete key l (skip_rep_wf _ _ Hr)) as Hb.
  destruct nx as [y|].
  - destruct (lo_some _ _ _ _ _ _ _ _ _ _ _ _ Hl y eq_refl) as (n & Hy & Hlk). rewrite Hy. cbn [mbind option_bind].
    destruct (decide (sk_key n = key)) as [Heq|Hne]; [|exists s; by rewrite sl_delete_absent].
    destruct (lo_remove _ _ _ _ _ _ _ _ _ _ _ _ Hl y n eq_refl Hy Heq) as (h1 & lv & E1 & E2 & Hr').
    rewrite E1. cbn [mbind option_bind]. replace (S (sk_max_level s) - 1)%nat with (sk_max_level s) in E2 by lia. rewrite E2.
    cbn [mbind option_bind]. eexists. split; [done|]. apply skip_rep_iff. split; [exact Hr'|]. cbn [sk_mem]. rewrite (skip_rep_mem _ _ Hr), u64_sub_l, Hb, Hlk. congruence.
  - exists s. by rewrite sl_delete_absent by by apply (lo_none _ _ _ _ _ _ _ _ _ _ _ _ Hl).
Qed.

(** C16: the pointer-level skip list implements its abstract state.  From any
    reachable structure, [entries] and [get] answer what the represented list says;
    whatever levels the coin flips choose, [put] and [del] never dereference a bad pointer
    and lead to a structure that represents the sorted insertion and the deletion; the
    represented list stays strictly sorted by the internal-key comparator and [mem_usage_]
    is its byte count modulo 2^64. *)
Theorem skiplist_refines (s : SkipList) (l : list (bytes * bytes)) (key value : bytes)
    (flips : list bool) :
  skip_rep s l -> wf_ikey key ->
  skip_entries s = Some l /\ skip_get s key = Some (sl_lookup key l) /\
  (exists s', skip_put s key value flips = Some s' /\ skip_rep s' (sl_insert key value l) /\
              sk_mem s' = u64 (sl_bytes (sl_insert key value l)) /\ sl_wf (sl_insert key value l)) /\
  (exists s', skip_del s key = Some s' /\ skip_rep s' (sl_delete key l) /\
              sk_mem s' = u64 (sl_bytes (sl_delete key l)) /\ sl_wf (sl_delete key l)).
Proof.
  intros Hr Hk. destruct (skip_rep_put s l key value flips Hr Hk) as (s1 & H1 & R1).
  destruct (skip_rep_del s l key Hr Hk) as (s2 & H2 & R2).
  split_and!; [by apply skip_rep_entries|by apply skip_rep_get|exists s1|exists s2];
    (split_and!; [done|done|by apply skip_rep_mem|by eapply skip_rep_wf]).
Qed.

Lemma skiplist_refines_witness :
  exists s', skip_put SkipList_new (InternalKeyEncode (bs "a") 1 kValue) (bs "v") [true] = Some s' /\
             skip_rep s' [(InternalKeyEncode (bs "a") 1 kValue, bs "v")].
Proof.
  destruct (skiplist_refines SkipList_new [] (InternalKeyEncode (bs "a") 1 kValue) (bs "v")
              [true] skip_rep_new (wf_encode _ _ _)) as (_ & _ & (s' & H1 & H2 & _) & _).
  exists s'. exact (conj H1 H2).
Defined.

(** After any [put] the stored value is
    found, every other key keeps its binding, and after [del] the key is gone; the
    level-0 traversal returns the represented list itself. *)
Theorem skiplist_get_after_update (s : SkipList) (l : list (bytes * bytes)) (key k' value : bytes)
    (flips : list bool) :
  skip_rep s l -> wf_ikey key -> wf_ikey k' ->
  skip_entries s = Some l /\ skip_get s k' = Some (sl_lookup k' l) /\
  (s' ← skip_put s key value flips; skip_get s' k') =
    Some (if decide (k' = key) then Some value else sl_lookup k' l) /\
  (s' ← skip_del s key; skip_get s' k') =
    Some (if decide (k' = key) then None else sl_lookup k' l).
Proof.
  intros Hr Hk Hk'. destruct (skip_rep_put s l key value flips Hr Hk) as (s1 & H1 & R1).
  destruct (skip_rep_del s l key Hr Hk) as (s2 & H2 & R2). rewrite H1, H2. simpl.
  rewrite (skip_rep_get s1 _ k' R1 Hk'), (skip_rep_get s2 _ k' R2 Hk').
  split_and!; [by apply skip_rep_entries|by apply skip_rep_get|f_equal|f_equal].
  - apply (sl_lookup_insert InternalKeyCompare wf_ikey); [done..|by eapply skip_rep_wf].
  - apply sl_lookup_delete.
Qed.

#[export] Hint Resolve skip_rep_new skip_rep_wf skip_rep_entries InternalKeyCompare_ord : titan.
