(* ===== verification/Versions.v ===== *)
(** * Multi-version lists

    The specification vocabulary shared by the memtable, the blocks, the SSTables and
    compaction: a list of (internal key, value) entries, the versions of a user key in
    it, and the newest of them.  Also the contract of the abstract class [Iterator]
    ([minikv/include/minikv/iterator.h]), stated once for all its implementations. *)

From Stdlib Require Import ZArith Lia.
From stdpp Require Import base numbers strings list.
From S2P Require Import Prelude Coding Slice InternalKey SkipHeap SkipList.
Local Open Scope Z_scope.

Abbreviation entry := (bytes * bytes)%type.

Definition versions (uk : bytes) (l : list entry) : list entry :=
  filter (fun p => InternalKeyUserKey p.1 = uk) l.

(** In a list sorted by the internal-key order the first version is the newest one. *)
Definition newest (uk : bytes) (l : list entry) : option entry := head (versions uk l).

(** What a reader sees of a version: nothing for a tombstone. *)
Definition live (p : entry) : option bytes := if IsDeletion p.1 then None else Some p.2.

Definition visible (uk : bytes) (l : list entry) : option bytes := newest uk l ≫= live.

Lemma versions_app uk l1 l2 : versions uk (l1 ++ l2) = versions uk l1 ++ versions uk l2.
Proof. apply filter_app. Qed.

Lemma newest_app uk l1 l2 :
  newest uk (l1 ++ l2) = match newest uk l1 with Some p => Some p | None => newest uk l2 end.
Proof. unfold newest. rewrite versions_app. by destruct (versions uk l1). Qed.

Lemma newest_cons uk p l :
  newest uk (p :: l) = if decide (InternalKeyUserKey p.1 = uk) then Some p else newest uk l.
Proof.
  unfold newest, versions. rewrite filter_cons. by case_decide.
Qed.

Lemma newest_elem uk l p : newest uk l = Some p -> p ∈ l /\ InternalKeyUserKey p.1 = uk.
Proof.
  unfold newest. intros Hh%head_Some_elem_of. apply list_elem_of_filter in Hh. tauto.
Qed.

Lemma newest_none uk l : newest uk l = None <-> forall p, p ∈ l -> InternalKeyUserKey p.1 <> uk.
Proof.
  unfold newest, versions. split.
  - intros Hn p Hp Heq.
    assert (p ∈ filter (fun p : entry => InternalKeyUserKey p.1 = uk) l) as Hin
      by by apply list_elem_of_filter.
    destruct (filter _ l); [|done]. by apply not_elem_of_nil in Hin.
  - intros Hn. by rewrite filter_none.
Qed.

(** Smaller internal keys have smaller or equal user keys. *)
Lemma compare_user a b :
  wf_ikey a -> wf_ikey b -> InternalKeyCompare a b = Lt ->
  lex (InternalKeyUserKey a) (InternalKeyUserKey b) <> Gt.
Proof.
  intros Ha Hb. rewrite InternalKeyCompare_view by done. unfold view_compare, view. simpl.
  by destruct (lex _ _).
Qed.

Lemma compare_newer a b :
  wf_ikey a -> wf_ikey b -> InternalKeyUserKey a = InternalKeyUserKey b ->
  InternalKeySequence a > InternalKeySequence b -> InternalKeyCompare a b = Lt.
Proof.
  intros Ha Hb Hu Hs. rewrite InternalKeyCompare_view by done. unfold view_compare, view. simpl.
  rewrite Hu, lex_refl. by replace (InternalKeySequence b ?= InternalKeySequence a) with Lt
    by (symmetry; apply Z.compare_lt_iff; lia).
Qed.

Lemma compare_not_older a b :
  wf_ikey a -> wf_ikey b -> InternalKeyUserKey a = InternalKeyUserKey b ->
  InternalKeyCompare a b = Lt -> InternalKeySequence b <= InternalKeySequence a.
Proof.
  intros Ha Hb Hu Hlt.
  destruct (Z.le_gt_cases (InternalKeySequence b) (InternalKeySequence a)) as [?|Hgt]; [done|].
  assert (InternalKeyCompare b a = Lt) as Hlt' by (apply compare_newer; [done..|lia]).
  exfalso. apply (ord_lt_irrefl wf_ikey InternalKeyCompare a Ha).
  by eapply (ord_trans (P:=wf_ikey) (cmp:=InternalKeyCompare) a b a).
Qed.

(** In a sorted list [newest] really has the greatest sequence number. *)
Lemma newest_greatest uk l p q :
  sl_wf l -> newest uk l = Some p -> q ∈ l -> InternalKeyUserKey q.1 = uk ->
  InternalKeySequence q.1 <= InternalKeySequence p.1.
Proof.
  intros [Hwf Hs]. induction l as [|r l IH]; [done|]. rewrite newest_cons. simpl in *.
  apply Forall_cons in Hwf as [Hr Hwf]. inversion_clear Hs as [|? ? Hs' Hall].
  rewrite Forall_forall in Hall, Hwf. case_decide as Hd.
  - intros [= <-] [->|Hq]%elem_of_cons Hu; [done|].
    apply compare_not_older; [done|apply Hwf; by apply list_elem_of_fmap_2|congruence|].
    apply Hall. by apply list_elem_of_fmap_2.
  - intros Hn [->|Hq]%elem_of_cons Hu; [done|]. apply IH; [by apply Forall_forall|done..].
Qed.

(** ** Insertion and versions *)

Lemma newest_insert_other uk k v l :
  InternalKeyUserKey k <> uk -> Forall wf_ikey l.*1 -> wf_ikey k ->
  newest uk (sl_insert k v l) = newest uk l.
Proof.
  intros Hne Hwf Hk. induction l as [|p l IH]; simpl.
  { rewrite newest_cons. by rewrite decide_False. }
  simpl in Hwf. apply Forall_cons in Hwf as [Hp Hwf].
  destruct (InternalKeyCompare p.1 k) eqn:E; rewrite !newest_cons.
  - apply (ord_eq (P:=wf_ikey)) in E; [|done..]. rewrite E. simpl. by rewrite !(decide_False (P := _ = uk)).
  - by rewrite IH.
  - simpl. by rewrite (decide_False (P := InternalKeyUserKey k = uk)).
Qed.

Lemma newest_insert_same k v l :
  sl_wf l -> wf_ikey k ->
  (forall p, p ∈ l -> InternalKeyUserKey p.1 = InternalKeyUserKey k ->
             InternalKeySequence p.1 < InternalKeySequence k) ->
  newest (InternalKeyUserKey k) (sl_insert k v l) = Some (k, v).
Proof.
  intros [Hwf _] Hk Hnew. induction l as [|p l IH]; simpl.
  { rewrite newest_cons. by rewrite decide_True. }
  simpl in Hwf. apply Forall_cons in Hwf as [Hp Hwf].
  destruct (InternalKeyCompare p.1 k) eqn:E; rewrite newest_cons; simpl; [by rewrite decide_True| |by rewrite decide_True].
  rewrite decide_False; [apply IH; [done|intros q Hq; apply Hnew; by right]|].
  intros Hu. specialize (Hnew p ltac:(left) Hu).
  assert (InternalKeyCompare k p.1 = Lt) as Hlt by (apply compare_newer; [done..|lia]).
  apply (ord_gt_lt wf_ikey InternalKeyCompare) in Hlt; [|done..]. congruence.
Qed.

(** A list in which no version of a user key is left out of order: filtering by user key
    commutes with insertion of a fresh version.  [versions] of a sorted list is sorted. *)
Lemma versions_sorted uk l : sl_wf l -> sl_wf (versions uk l).
Proof.
  intros [Hwf Hs]. unfold sl_wf, versions.
  assert ((filter (fun p : entry => InternalKeyUserKey p.1 = uk) l).*1 `sublist_of` l.*1) as Hsub
    by apply fmap_sublist, sublist_filter.
  split; [|by eapply sorted_by_sublist].
  rewrite Forall_forall in *. intros x Hx. apply Hwf. by eapply elem_of_sublist.
Qed.

(** [newest] depends on the entries only, not on how the list is ordered, as long as it
    is sorted: two sorted lists with the same entries are the same list. *)
Lemma sl_wf_unique l1 l2 : sl_wf l1 -> sl_wf l2 -> l1 ≡ₚ l2 -> l1 = l2.
Proof.
  intros [Hw1 Hs1] [Hw2 Hs2] Hp.
  assert (l1.*1 = l2.*1) as Hk.
  { apply (sorted_by_unique wf_ikey InternalKeyCompare); [done..|by rewrite Hp]. }
  assert (NoDup l1.*1) as Hnd by by apply (sorted_by_NoDup wf_ikey InternalKeyCompare).
  assert (forall p, p ∈ l1 <-> p ∈ l2) as Hin by (intros p; by rewrite Hp). clear Hp Hw1 Hs1 Hw2 Hs2.
  revert l2 Hk Hin Hnd. induction l1 as [|p l1 IH]; intros [|q l2] Hk Hin Hnd; try done.
  simpl in *. injection Hk as Hpq Hk. apply NoDup_cons in Hnd as [Hp Hnd].
  assert (p = q) as ->.
  { assert (p ∈ q :: l2) as [->|Hp2]%elem_of_cons by (apply Hin; left); [done|].
    exfalso. apply Hp. rewrite Hk. by apply list_elem_of_fmap_2. }
  f_equal. apply IH; [done| |done]. intros r. split; intros Hr.
  - assert (r ∈ q :: l2) as [->|]%elem_of_cons by (apply Hin; by right); [|done].
    exfalso. apply Hp. by apply list_elem_of_fmap_2.
  - assert (r ∈ q :: l1) as [->|]%elem_of_cons by (apply Hin; by right); [|done].
    exfalso. apply Hp. rewrite Hk. by apply list_elem_of_fmap_2.
Qed.

(** ** What a reader must get

    The specification of reads does not depend on how entries are stored or searched: among
    the versions of the user key in a collection of entries, in any order, the current one is
    first in the order of internal keys (the greatest sequence number); a reader gets its
    value, and nothing when it is a tombstone or when there is no version at all. *)

Definition current (uk : bytes) (es : list entry) (p : entry) : Prop :=
  p ∈ versions uk es /\ forall q, q ∈ versions uk es -> q = p \/ InternalKeyCompare p.1 q.1 = Lt.

Definition reads (uk : bytes) (es : list entry) (answer : option bytes) : Prop :=
  match answer with
  | Some v => exists p, current uk es p /\ IsDeletion p.1 = false /\ p.2 = v
  | None => versions uk es = [] \/ exists p, current uk es p /\ IsDeletion p.1 = true
  end.

(** The same, decidably. *)
Definition current_in (uk : bytes) (es : list entry) (p : entry) : Prop :=
  p ∈ versions uk es /\ Forall (fun q => q = p \/ InternalKeyCompare p.1 q.1 = Lt) (versions uk es).

Lemma current_in_current uk es p : current_in uk es p -> current uk es p.
Proof. unfold current_in. rewrite Forall_forall. done. Qed.

#[export] Instance current_in_dec uk es p : Decision (current_in uk es p).
Proof. unfold current_in. apply _. Defined.

Lemma elem_of_versions uk l p : p ∈ versions uk l <-> p ∈ l /\ InternalKeyUserKey p.1 = uk.
Proof. unfold versions. rewrite list_elem_of_filter. tauto. Qed.

Lemma versions_wf uk l p : Forall wf_ikey l.*1 -> p ∈ versions uk l -> wf_ikey p.1.
Proof. rewrite Forall_forall. intros Hw [Hp _]%elem_of_versions. apply Hw. by apply list_elem_of_fmap_2. Qed.

Lemma current_unique uk es p q : Forall wf_ikey es.*1 -> current uk es p -> current uk es q -> p = q.
Proof.
  intros Hw [Hp1 Hp2] [Hq1 Hq2]. destruct (Hp2 q Hq1) as [?|Hlt]; [done|]. destruct (Hq2 p Hp1) as [?|Hlt']; [done|].
  exfalso. pose proof (versions_wf _ _ _ Hw Hp1). pose proof (versions_wf _ _ _ Hw Hq1).
  apply (ord_lt_irrefl wf_ikey InternalKeyCompare p.1); [done|]. by eapply (ord_trans (P:=wf_ikey) (cmp:=InternalKeyCompare) p.1 q.1 p.1).
Qed.

(** The specification determines the answer. *)
Lemma reads_unique uk es a b : Forall wf_ikey es.*1 -> reads uk es a -> reads uk es b -> a = b.
Proof.
  intros Hw Ha Hb. assert (forall p, current uk es p -> versions uk es <> []) as Hne.
  { intros p [Hp _] E. rewrite E in Hp. by apply not_elem_of_nil in Hp. }
  destruct a as [v|], b as [w|]; [| | |done].
  - destruct Ha as (p & Hp & _ & <-), Hb as (q & Hq & _ & <-). by rewrite (current_unique _ _ _ _ Hw Hp Hq).
  - destruct Ha as (p & Hp & Hd & _). destruct Hb as [E|(q & Hq & Hd')]; [by destruct (Hne p Hp)|].
    rewrite (current_unique _ _ _ _ Hw Hp Hq) in Hd. congruence.
  - destruct Hb as (p & Hp & Hd & _). destruct Ha as [E|(q & Hq & Hd')]; [by destruct (Hne p Hp)|].
    rewrite (current_unique _ _ _ _ Hw Hp Hq) in Hd. congruence.
Qed.

(** Only the versions of the key matter, and not their order. *)
Lemma current_proper uk l1 l2 p : versions uk l1 ≡ₚ versions uk l2 -> current uk l1 p -> current uk l2 p.
Proof. intros Hv [H1 H2]. split; [by rewrite <- Hv|]. intros q. rewrite <- Hv. apply H2. Qed.

Lemma reads_proper uk l1 l2 a : versions uk l1 ≡ₚ versions uk l2 -> reads uk l1 a -> reads uk l2 a.
Proof.
  intros Hv. destruct a as [v|]; [intros (p & Hp & ?)|intros [E|(p & Hp & ?)]].
  - exists p. split; [by eapply current_proper|done].
  - left. rewrite E in Hv. by apply Permutation_nil in Hv.
  - right. exists p. split; [by eapply current_proper|done].
Qed.

(** In a sorted list it is the first version. *)
Lemma newest_current uk l p : sl_wf l -> newest uk l = Some p -> current uk l p.
Proof.
  intros Hwf Hn. destruct (newest_elem _ _ _ Hn) as [Hp Hu]. split; [by apply elem_of_versions|].
  pose proof (versions_sorted uk l Hwf) as [_ Hs]. unfold newest in Hn. destruct (versions uk l) as [|r vs]; [done|].
  injection Hn as ->. intros q [->|Hq]%elem_of_cons; [by left|]. right. rewrite fmap_cons in Hs.
  inversion_clear Hs as [|? ? _ Hall]. rewrite Forall_forall in Hall. apply Hall. by apply list_elem_of_fmap_2.
Qed.

Lemma visible_reads uk l : sl_wf l -> reads uk l (visible uk l).
Proof.
  intros Hwf. unfold visible. destruct (newest uk l) as [p|] eqn:En; cbn.
  - pose proof (newest_current uk l p Hwf En). unfold live. destruct (IsDeletion p.1) eqn:Ed; [right|]; by exists p.
  - left. unfold newest in En. by destruct (versions uk l).
Qed.

(** *** Layers

    A key is in order in a stack of layers, newest first, when every version of it is newer
    than those in the layers below, and below a layer whose current version is a tombstone no
    layer answers it. *)
Fixpoint ordered (uk : bytes) (layers : list (list entry)) : Prop :=
  match layers with
  | [] => True
  | l :: older =>
      (forall p q, p ∈ versions uk l -> q ∈ versions uk (concat older) -> InternalKeySequence q.1 < InternalKeySequence p.1) /\
      (forall p, current uk l p -> IsDeletion p.1 = true -> Forall (fun l' => reads uk l' None) older) /\
      ordered uk older
  end.

(** At most one of the tables has versions of the key. *)
Definition one_table (uk : bytes) (ts : list (list entry)) : Prop :=
  (length (filter (fun t => versions uk t <> []) ts) <= 1)%nat.

Lemma one_table_first uk t ts : one_table uk (t :: ts) -> versions uk t <> [] -> Forall (fun t => versions uk t = []) ts.
Proof.
  unfold one_table. rewrite filter_cons. intros H1 Ht. rewrite decide_True in H1 by done. apply Forall_forall. intros x Hx.
  destruct (decide (versions uk x = [])) as [|Hne]; [done|].
  assert (x ∈ filter (fun t => versions uk t <> []) ts) as Hin by by apply list_elem_of_filter.
  destruct (filter _ ts); [by apply not_elem_of_nil in Hin|simpl in H1; lia].
Qed.

Lemma one_table_rest uk t ts : one_table uk (t :: ts) -> one_table uk ts.
Proof. unfold one_table. rewrite filter_cons. case_decide; simpl; lia. Qed.

Lemma ordered_none uk ts layers :
  Forall (fun t => versions uk t = []) ts -> ordered uk layers -> ordered uk (ts ++ layers).
Proof.
  intros Hts Ho. induction Hts as [|t ts Ht _ IH]; [done|]. cbn [app ordered]. split; [|split; [|done]].
  - intros p q Hp. rewrite Ht in Hp. by apply not_elem_of_nil in Hp.
  - intros p [Hp _]. rewrite Ht in Hp. by apply not_elem_of_nil in Hp.
Qed.

Lemma ordered_versions uk l l' layers : versions uk l = versions uk l' -> ordered uk (l :: layers) -> ordered uk (l' :: layers).
Proof.
  intros Hv (H1 & H2 & H3). split; [by rewrite <- Hv|]. split; [|done]. intros p Hp. apply H2. eapply current_proper; [|exact Hp]. by rewrite Hv.
Qed.

Lemma versions_none_concat uk ts : Forall (fun t => versions uk t = []) ts -> versions uk (concat ts) = [].
Proof. induction 1 as [|t ts Ht _ IH]; [done|]. cbn [concat]. by rewrite versions_app, Ht, IH. Qed.

(** Two ways to be in order at the top: with live versions, newer than those below; with
    nothing below. *)
Lemma ordered_live uk l older :
  Forall (fun p => IsDeletion p.1 = false /\ Forall (fun q => InternalKeySequence q.1 < InternalKeySequence p.1) (versions uk (concat older)))
    (versions uk l) -> ordered uk older -> ordered uk (l :: older).
Proof.
  rewrite Forall_forall. intros Hl Ho. split; [|split; [|done]].
  - intros p q Hp Hq. destruct (Hl p Hp) as [_ Hlt]. rewrite Forall_forall in Hlt. by apply Hlt.
  - intros p [Hp _] Hd. destruct (Hl p Hp). congruence.
Qed.

Lemma ordered_last uk l older : Forall (fun t => versions uk t = []) older -> ordered uk (l :: older).
Proof.
  intros Hn. split; [|split].
  - intros p q _ Hq. rewrite (versions_none_concat _ _ Hn) in Hq. by apply not_elem_of_nil in Hq.
  - intros p _ _. eapply Forall_impl; [exact Hn|]. by left.
  - rewrite <- (app_nil_r older). by apply ordered_none.
Qed.

(** A level in which one table has the key is in order table by table. *)
Lemma ordered_tables uk ts layers : one_table uk ts -> ordered uk (concat ts :: layers) -> ordered uk (ts ++ layers).
Proof.
  induction ts as [|t ts IH]; intros H1 Ho; [apply Ho|]. destruct (decide (versions uk t = [])) as [Ht|Ht].
  - apply (ordered_none uk [t]); [by repeat constructor|]. apply IH; [by eapply one_table_rest|].
    eapply ordered_versions; [|exact Ho]. cbn [concat]. by rewrite versions_app, Ht.
  - pose proof (one_table_first _ _ _ H1 Ht) as Hnone.
    assert (versions uk (concat (t :: ts)) = versions uk t) as Hv.
    { cbn [concat]. by rewrite versions_app, (versions_none_concat _ _ Hnone), app_nil_r. }
    apply (ordered_versions _ _ _ _ Hv) in Ho as (Ho1 & Ho2 & Ho3). cbn [app ordered]. split; [|split; [|by apply ordered_none]].
    + intros p q Hp. rewrite concat_app, versions_app, (versions_none_concat _ _ Hnone). by apply Ho1.
    + intros p Hp Hd. apply Forall_app. split; [|by eapply Ho2]. eapply Forall_impl; [exact Hnone|]. by left.
Qed.

Lemma one_table_versions uk ts t : one_table uk ts -> t ∈ ts -> versions uk t = [] \/ versions uk (concat ts) = versions uk t.
Proof.
  induction ts as [|x ts IH]; intros H1 Ht; [by apply not_elem_of_nil in Ht|]. cbn [concat]. rewrite versions_app.
  destruct (decide (versions uk x = [])) as [Hx|Hx].
  - rewrite Hx. apply elem_of_cons in Ht as [->|Ht]; [by left|]. apply IH; [by eapply one_table_rest|done].
  - pose proof (one_table_first _ _ _ H1 Hx) as Hnone. rewrite (versions_none_concat _ _ Hnone), app_nil_r.
    apply elem_of_cons in Ht as [->|Ht]; [by right|left]. rewrite Forall_forall in Hnone. by apply Hnone.
Qed.

Lemma concat_levels {A} (tabs : list (list (list A))) : concat (@concat A <$> tabs) = concat (concat tabs).
Proof. induction tabs as [|ts tabs IH]; [done|]. cbn [fmap list_fmap concat]. by rewrite concat_app, IH. Qed.

(** Levels in each of which one table has the key: when no level answers it, no table does. *)
Lemma levels_silent uk tabs :
  Forall (one_table uk) tabs -> Forall (fun l => reads uk l None) (@concat entry <$> tabs) -> Forall (fun l => reads uk l None) (concat tabs).
Proof.
  induction 1 as [|ts tabs Hts _ IH]; [done|]. cbn [fmap list_fmap concat]. intros [H1 H2]%Forall_cons.
  apply Forall_app. split; [|by apply IH]. apply Forall_forall. intros t Ht.
  destruct (one_table_versions uk ts t Hts Ht) as [?|E]; [by left|]. eapply reads_proper; [|exact H1]. by rewrite E.
Qed.

Lemma ordered_levels uk ms tabs :
  Forall (one_table uk) tabs -> ordered uk (ms ++ (@concat entry <$> tabs)) -> ordered uk (ms ++ concat tabs).
Proof.
  intros Hone. induction ms as [|m ms IH]; cbn [app ordered].
  - induction Hone as [|ts tabs Hts Htabs IH]; [done|]. intros (H1 & H2 & H3). cbn [concat]. apply ordered_tables; [done|].
    split; [by rewrite <- concat_levels|]. split; [|by apply IH]. intros p Hp Hd. apply levels_silent; [done|]. by eapply H2.
  - intros (H1 & H2 & H3). split; [|split; [|by apply IH]].
    + intros p q Hp. rewrite concat_app, <- concat_levels, <- concat_app. by apply H1.
    + intros p Hp Hd. specialize (H2 p Hp Hd). apply Forall_app in H2 as [H2 H2']. apply Forall_app. split; [done|by apply levels_silent].
Qed.

(** ** The contract of [Iterator]

    The abstract class of [iterator.h] is a class of operations on a state type, and a
    class of laws that relates a state to the entries it ranges over and to those it has
    still to produce.  Clients (compaction, the merging iterator, the scan handler) are
    proved against the laws. *)

Class IterOps (I : Type) := {
  it_valid : I -> bool;
  it_seekToFirst : I -> I;
  it_seek : bytes -> I -> I;
  it_next : I -> I;
  it_key : I -> bytes;
  it_value : I -> bytes;
  it_status : I -> Status;
}.

(** The entries at or above a target. *)
Fixpoint drop_below (t : bytes) (l : list entry) : list entry :=
  match l with
  | [] => []
  | p :: l' => match InternalKeyCompare p.1 t with Lt => drop_below t l' | _ => l end
  end.

Class IterSpec (I : Type) `{IterOps I} (rep : I -> list entry -> list entry -> Prop) : Prop := {
  it_valid_spec i all rest : rep i all rest -> it_valid i = bool_decide (rest <> []);
  it_current i all p rest : rep i all (p :: rest) -> it_key i = p.1 /\ it_value i = p.2;
  it_next_spec i all p rest : rep i all (p :: rest) -> rep (it_next i) all rest;
  it_first_spec i all rest : rep i all rest -> rep (it_seekToFirst i) all all;
  it_seek_spec i all rest t : rep i all rest -> rep (it_seek t i) all (drop_below t all);
  it_status_spec i all rest : rep i all rest -> it_status i = SOk;
}.

Section Collect.
Context {I : Type} `{IterOps I}.

(** [while (it.valid()) { out.emplace_back(it.key(), it.value()); it.next(); }] *)
Fixpoint it_collect (fuel : nat) (i : I) : list entry * I :=
  match fuel with
  | O => ([], i)
  | S fuel =>
      if it_valid i then
        let '(out, j) := it_collect fuel (it_next i) in ((it_key i, it_value i) :: out, j)
      else ([], i)
  end.

Lemma it_collect_spec rep `{!IterSpec I rep} fuel i all rest :
  rep i all rest -> (length rest < fuel)%nat ->
  exists j, it_collect fuel i = (rest, j) /\ rep j all [].
Proof.
  revert i rest. induction fuel as [|fuel IH]; intros i rest Hr Hf; [lia|]. simpl.
  rewrite (it_valid_spec i all rest Hr). destruct rest as [|p rest]; simpl; [by exists i|].
  destruct (it_current i all p rest Hr) as [-> ->].
  destruct (IH (it_next i) rest) as (j & -> & Hj); [by apply it_next_spec with (p:=p)|simpl in Hf; lia|].
  exists j. by destruct p.
Qed.
End Collect.
