(* ===== verification/MemTable.v ===== *)
(** * The memtable and its iterator

    [memtable.h/.cpp]: the sorted in-memory table of one generation, a [SkipList] of
    internal keys behind a reader/writer lock (each operation is one critical section, so
    it is one function here), and [memtable_iterator.h/.cpp]: a cursor over a sorted copy
    of its entries, an instance of the iterator contract of [Versions]. *)

From Stdlib Require Import ZArith Lia.
From stdpp Require Import base numbers strings list gmap.
From S2P Require Import Prelude Coding Slice InternalKey SkipHeap SkipList Versions.
Local Open Scope Z_scope.

(** ** MemTable *)

Record MemTable := mkMem {
  mt_table : SkipList;
  mt_max_size : Z;
  mt_entry_count : Z;
}.

Definition MemTable_new (max_size : Z) : MemTable := mkMem SkipList_new max_size 0.

(** The internal key and the stored value of one write. *)
Definition mt_ikey (userKey : bytes) (seq : Z) (isDelete : bool) : bytes :=
  InternalKeyEncode userKey seq (if isDelete then kDeletion else kValue).

Definition mt_put (m : MemTable) (userKey value : bytes) (seq : Z) (isDelete : bool)
  (flips : list bool) : option MemTable :=
  let ikey := mt_ikey userKey seq isDelete in
  let val := if isDelete then [] else value in
  t ← skip_put (mt_table m) ikey val flips;
  Some (mkMem t (mt_max_size m) (u64 (mt_entry_count m + 1))).

(** The loop of [MemTable::get] over the entries. *)
Fixpoint mt_scan (userKey : bytes) (l : list entry) : option bytes :=
  match l with
  | [] => None
  | (ik, v) :: l' =>
      match Slice_compare (InternalKeyUserKey ik) userKey with
      | Lt => mt_scan userKey l'
      | Gt => None
      | Eq => if IsDeletion ik then None else Some v
      end
  end.

(** The snapshot sequence number is a parameter the function does not read. *)
Definition mt_get (m : MemTable) (userKey : bytes) (seq : Z) : option (option bytes) :=
  entries ← skip_entries (mt_table m);
  Some (mt_scan userKey entries).

Definition mt_entries (m : MemTable) : option (list entry) := skip_entries (mt_table m).

Definition mt_approximateMemoryUsage (m : MemTable) : Z := sk_mem (mt_table m).

Definition mt_shouldFlush (m : MemTable) : bool := mt_max_size m <=? mt_approximateMemoryUsage m.

Definition mt_empty (m : MemTable) : option bool := skip_empty (mt_table m).

(** ** MemTableIterator *)

Record VecIter := mkVecIter {
  vi_entries : list entry;
  vi_index : nat;
  vi_status : Status;
}.

Definition MemTableIterator_new (entries : list entry) : VecIter :=
  mkVecIter (sort_by (lt_keyed InternalKeyCompare fst) entries) 0 SOk.

Definition vi_valid (i : VecIter) : bool :=
  ok (vi_status i) && bool_decide (vi_index i < length (vi_entries i))%nat.

Definition vi_seekToFirst (i : VecIter) : VecIter := mkVecIter (vi_entries i) 0 (vi_status i).

(** [while (index_ < size && InternalKeyCompare(entries_[index_], target) < 0) ++index_]:
    how far the loop advances over the entries from [index_] on. *)
Fixpoint vi_seek_from (target : bytes) (l : list entry) (index : nat) : nat :=
  match l with
  | [] => index
  | p :: l' => match InternalKeyCompare p.1 target with
               | Lt => vi_seek_from target l' (S index)
               | _ => index
               end
  end.

Definition vi_seek (target : bytes) (i : VecIter) : VecIter :=
  mkVecIter (vi_entries i) (vi_seek_from target (vi_entries i) 0) (vi_status i).

Definition vi_next (i : VecIter) : VecIter :=
  if vi_valid i then mkVecIter (vi_entries i) (S (vi_index i)) (vi_status i) else i.

Definition vi_key (i : VecIter) : bytes :=
  if vi_valid i then default [] (fst <$> vi_entries i !! vi_index i) else [].

Definition vi_value (i : VecIter) : bytes :=
  if vi_valid i then default [] (snd <$> vi_entries i !! vi_index i) else [].

#[export] Instance VecIter_ops : IterOps VecIter := {
  it_valid := vi_valid;
  it_seekToFirst := vi_seekToFirst;
  it_seek := vi_seek;
  it_next := vi_next;
  it_key := vi_key;
  it_value := vi_value;
  it_status := vi_status;
}.

(** ** The scan is the multi-version lookup *)

Lemma scan_above uk (l : list entry) :
  (forall p, p ∈ l -> lex (InternalKeyUserKey p.1) uk = Gt) -> newest uk l = None.
Proof.
  intros Hall. apply newest_none. intros p Hp Heq. specialize (Hall p Hp).
  rewrite Heq, lex_refl in Hall. done.
Qed.

Lemma mt_scan_visible uk l : sl_wf l -> mt_scan uk l = visible uk l.
Proof.
  intros [Hwf Hs]. unfold visible.
  induction l as [|[ik v] l IH]; [done|]. simpl in *. rewrite newest_cons, Slice_compare_lex. simpl.
  apply Forall_cons in Hwf as [Hik Hwf]. inversion_clear Hs as [|? ? Hs' Hall].
  destruct (lex (InternalKeyUserKey ik) uk) eqn:E.
  - apply lex_eq_iff in E. by rewrite decide_True.
  - rewrite decide_False by (intros <-; by rewrite lex_refl in E). by apply IH.
  - rewrite decide_False by (intros <-; by rewrite lex_refl in E).
    rewrite scan_above; [done|]. intros p Hp. rewrite Forall_forall in Hall, Hwf.
    assert (p.1 ∈ l.*1) as Hp1 by by apply list_elem_of_fmap_2.
    pose proof (compare_user ik p.1 Hik (Hwf _ Hp1) (Hall _ Hp1)) as Hle.
    destruct (lex (InternalKeyUserKey p.1) uk) eqn:E2; [| |done].
    + apply lex_eq_iff in E2. rewrite E2 in Hle. congruence.
    + exfalso. apply Hle. apply lex_gt_lt. apply lex_gt_lt in E.
      by eapply (ord_trans (P := fun _ => True) (cmp := lex)).
Qed.

(** ** The memtable as a sorted list *)

Definition mt_rep (m : MemTable) (l : list entry) : Prop := skip_rep (mt_table m) l.

Definition mt_insert (uk v : bytes) (seq : Z) (del : bool) (l : list entry) : list entry :=
  sl_insert (mt_ikey uk seq del) (if del then [] else v) l.

Lemma mt_rep_new n : mt_rep (MemTable_new n) [].
Proof. apply skip_rep_new. Qed.

Lemma mt_rep_wf m l : mt_rep m l -> sl_wf l.
Proof. apply skip_rep_wf. Qed.

Lemma mt_ikey_wf uk seq del : wf_ikey (mt_ikey uk seq del).
Proof. apply wf_encode. Qed.

Lemma mt_ikey_user uk seq del : InternalKeyUserKey (mt_ikey uk seq del) = uk.
Proof. apply encode_user. Qed.

Lemma mt_ikey_seq uk seq del : 0 <= seq < 2 ^ 56 -> InternalKeySequence (mt_ikey uk seq del) = seq.
Proof. intros Hs. apply encode_seq; [done|]. destruct del; unfold kDeletion, kValue; lia. Qed.

Lemma mt_ikey_del uk seq del : 0 <= seq < 2 ^ 56 -> IsDeletion (mt_ikey uk seq del) = del.
Proof.
  intros Hs. unfold IsDeletion, mt_ikey.
  by destruct del; rewrite encode_type by (done || unfold kDeletion, kValue; lia).
Qed.

#[export] Hint Resolve mt_rep_new mt_rep_wf mt_ikey_wf : titan.

Lemma mt_put_rep m l uk v seq del flips :
  mt_rep m l ->
  exists m', mt_put m uk v seq del flips = Some m' /\ mt_rep m' (mt_insert uk v seq del l) /\
             mt_max_size m' = mt_max_size m.
Proof.
  intros Hr. destruct (skip_rep_put (mt_table m) l (mt_ikey uk seq del) (if del then [] else v) flips Hr)
    as (t & Ht & Hr'); [auto with titan|].
  unfold mt_put. rewrite Ht. simpl. by eexists.
Qed.

Lemma mt_get_rep m l uk seq : mt_rep m l -> mt_get m uk seq = Some (visible uk l).
Proof.
  intros Hr. unfold mt_get. rewrite (skip_rep_entries _ _ Hr). simpl.
  by rewrite mt_scan_visible by by apply mt_rep_wf in Hr.
Qed.

Lemma mt_entries_rep m l : mt_rep m l -> mt_entries m = Some l.
Proof. apply skip_rep_entries. Qed.

Lemma mt_empty_rep m l : mt_rep m l -> mt_empty m = Some (bool_decide (l = [])).
Proof. apply skip_rep_empty. Qed.

Lemma mt_usage_rep m l : mt_rep m l -> mt_approximateMemoryUsage m = u64 (sl_bytes l).
Proof. apply skip_rep_mem. Qed.

(** ** Histories of writes *)

Record Write := mkWrite { w_key : bytes; w_value : bytes; w_seq : Z; w_del : bool }.

Definition w_live (w : Write) : option bytes := if w_del w then None else Some (w_value w).

Fixpoint mt_run (m : MemTable) (ws : list (Write * list bool)) : option MemTable :=
  match ws with
  | [] => Some m
  | (w, flips) :: ws => m ← mt_put m (w_key w) (w_value w) (w_seq w) (w_del w) flips; mt_run m ws
  end.

Definition mt_inserts (ws : list Write) (l : list entry) : list entry :=
  foldl (fun l w => mt_insert (w_key w) (w_value w) (w_seq w) (w_del w) l) l ws.

(** The abstract store a history builds: the last write of each key. *)
Definition apply_writes (ws : list Write) (s : gmap bytes (option bytes)) : gmap bytes (option bytes) :=
  foldl (fun s w => <[w_key w := w_live w]> s) s ws.

(** Sequence numbers grow along the history, from [lo], within the 56 bits of a key. *)
Fixpoint seqs_from (lo : Z) (ws : list Write) : Prop :=
  match ws with
  | [] => True
  | w :: ws => lo < w_seq w < 2 ^ 56 /\ seqs_from (w_seq w) ws
  end.

Lemma mt_run_rep m l ws :
  mt_rep m l ->
  exists m', mt_run m ws = Some m' /\ mt_rep m' (mt_inserts ws.*1 l) /\ mt_max_size m' = mt_max_size m.
Proof.
  revert m l. induction ws as [|[w f] ws IH]; intros m l Hr; simpl; [by exists m|].
  destruct (mt_put_rep m l (w_key w) (w_value w) (w_seq w) (w_del w) f Hr) as (m1 & -> & Hr1 & Hmax).
  simpl. destruct (IH m1 _ Hr1) as (m2 & -> & Hr2 & Hmax2). exists m2. by rewrite Hmax2, Hmax.
Qed.

(** [store_of l s]: the sorted list [l] answers every lookup as the map [s], and its
    sequence numbers are at most [hi]. *)
Record store_of (hi : Z) (l : list entry) (s : gmap bytes (option bytes)) : Prop := {
  so_wf : sl_wf l;
  so_hi p : p ∈ l -> InternalKeySequence p.1 <= hi;
  so_newest uk : live <$> newest uk l = s !! uk;
}.

Lemma store_of_nil hi : store_of hi [] ∅.
Proof. split; [split; constructor|set_solver|]. intros uk. by rewrite lookup_empty. Qed.

Lemma store_of_insert hi l s w :
  -1 <= hi -> store_of hi l s -> hi < w_seq w < 2 ^ 56 ->
  store_of (w_seq w) (mt_insert (w_key w) (w_value w) (w_seq w) (w_del w) l) (<[w_key w := w_live w]> s).
Proof.
  intros Hhi [Hwf Hle Hn] Hs. unfold mt_insert. split.
  - apply sl_insert_wf; auto with titan.
  - intros p Hp. assert (p.1 ∈ (sl_insert (mt_ikey (w_key w) (w_seq w) (w_del w))
      (if w_del w then [] else w_value w) l).*1) as Hk by by apply list_elem_of_fmap_2.
    apply sl_insert_keys in Hk as [->|(q & -> & Hq)%list_elem_of_fmap].
    + rewrite mt_ikey_seq by lia. lia.
    + specialize (Hle q Hq). lia.
  - intros uk. destruct (decide (w_key w = uk)) as [<-|Hne].
    + rewrite lookup_insert_eq. rewrite <- (mt_ikey_user (w_key w) (w_seq w) (w_del w)) at 1.
      rewrite newest_insert_same; [|done|auto with titan|].
      2:{ intros p Hp _. specialize (Hle p Hp). rewrite mt_ikey_seq by lia. lia. }
      simpl. unfold live. simpl. rewrite mt_ikey_del by lia. unfold w_live. by destruct (w_del w).
    + rewrite lookup_insert_ne by done. rewrite newest_insert_other;
        [apply Hn|by rewrite mt_ikey_user|apply Hwf|auto with titan].
Qed.

Lemma store_of_run ws hi l s :
  -1 <= hi -> store_of hi l s -> seqs_from hi ws ->
  exists hi', hi <= hi' /\ store_of hi' (mt_inserts ws l) (apply_writes ws s).
Proof.
  revert hi l s. induction ws as [|w ws IH]; intros hi l s Hhi Hs Hseq; simpl in *.
  { by exists hi. }
  destruct Hseq as [Hw Hseq].
  destruct (IH (w_seq w) _ _ ltac:(lia) (store_of_insert hi l s w Hhi Hs Hw) Hseq) as (hi' & ? & ?).
  exists hi'. split; [lia|done].
Qed.

Lemma store_of_visible hi l s uk : store_of hi l s -> visible uk l = s !! uk ≫= id.
Proof.
  intros Hs. unfold visible. rewrite <- (so_newest _ _ _ Hs uk). by destruct (newest uk l).
Qed.

(** The writes a snapshot contains. *)
Definition as_of (snapshot : Z) (ws : list Write) : list Write := filter (fun w => w_seq w <= snapshot) ws.

(** Only the writes of a key matter for it. *)
Lemma apply_writes_as_of snapshot ws uk s s' :
  s !! uk = s' !! uk -> (forall w, w ∈ ws -> w_key w = uk -> w_seq w <= snapshot) ->
  apply_writes (as_of snapshot ws) s !! uk = apply_writes ws s' !! uk.
Proof.
  revert s s'. induction ws as [|w ws IH]; intros s s' Hs Hw; [done|]. unfold as_of. rewrite filter_cons.
  assert (forall w', w' ∈ ws -> w_key w' = uk -> w_seq w' <= snapshot) as Hw' by (intros w' ?; apply Hw; by right).
  case_decide as Hd; cbn [apply_writes foldl]; apply IH; try done.
  - destruct (decide (w_key w = uk)) as [->|Hne]; [by rewrite !lookup_insert_eq|by rewrite !lookup_insert_ne].
  - rewrite lookup_insert_ne; [done|]. intros Hk. apply Hd, Hw; [left|done].
Qed.

(** C17: the memtable implements a map: after any history of writes whose sequence numbers
    increase, whatever the levels drawn by the skip list, every put returns, and a lookup of
    a key at a snapshot returns what the writes of the snapshot (those with a sequence number
    up to it) say last of the key: the value put, or nothing if there is no such write or it
    was a deletion.  The snapshot must contain all writes of the key in the table, as the one
    [DBImpl::get] passes (the current sequence number) does: older snapshots are not served,
    [memtable_ignores_snapshot] below. *)
Theorem memtable_read_last_write (n : Z) (ws : list (Write * list bool)) :
  seqs_from 0 ws.*1 ->
  exists m, mt_run (MemTable_new n) ws = Some m /\
    forall uk snapshot, (forall w, w ∈ ws.*1 -> w_key w = uk -> w_seq w <= snapshot) ->
      mt_get m uk snapshot = Some (apply_writes (as_of snapshot ws.*1) ∅ !! uk ≫= id).
Proof.
  intros Hseq. destruct (mt_run_rep (MemTable_new n) [] ws (mt_rep_new n)) as (m & Hrun & Hr & _).
  exists m. split; [done|]. intros uk snapshot Hle. rewrite (mt_get_rep m _ uk snapshot Hr).
  destruct (store_of_run ws.*1 0 [] ∅ ltac:(lia) (store_of_nil 0) Hseq) as (hi & _ & Hs).
  by rewrite (store_of_visible _ _ _ uk Hs), (apply_writes_as_of snapshot ws.*1 uk ∅ ∅).
Qed.

Definition mt_demo : list (Write * list bool) :=
  [ (mkWrite (bs "k") (bs "v1") 1 false, [true]); (mkWrite (bs "j") (bs "w") 2 false, []);
    (mkWrite (bs "k") (bs "v2") 3 false, [true; true]); (mkWrite (bs "j") [] 4 true, []) ].

(** The snapshot 3 has all writes of [k] but not the deletion of [j]. *)
Lemma memtable_read_last_write_witness :
  exists m, mt_run (MemTable_new 4096) mt_demo = Some m /\
    mt_get m (bs "k") 3 = Some (Some (bs "v2")) /\ mt_get m (bs "j") 4 = Some None.
Proof.
  destruct (memtable_read_last_write 4096 mt_demo) as (m & Hrun & Hget); [vm_compute; repeat split|].
  assert (Forall (fun w => w_key w = bs "k" -> w_seq w <= 3) mt_demo.*1 /\
          Forall (fun w => w_key w = bs "j" -> w_seq w <= 4) mt_demo.*1) as [Hk Hj].
  { split; apply (bool_decide_unpack _); vm_compute; exact Logic.I. }
  rewrite Forall_forall in Hk, Hj. exists m. split; [done|].
  rewrite (Hget _ _ Hk), (Hget _ _ Hj). split; vm_compute; reflexivity.
Defined.

(** [get] does not look at the snapshot: a read at sequence number 3 sees the deletion with
    number 4 although the snapshot contains the put with number 2. *)
Theorem memtable_ignores_snapshot :
  exists m, mt_run (MemTable_new 4096) mt_demo = Some m /\ mt_get m (bs "j") 3 = Some None /\
    apply_writes (as_of 3 mt_demo.*1) ∅ !! bs "j" = Some (Some (bs "w")).
Proof.
  destruct (mt_run_rep (MemTable_new 4096) [] mt_demo (mt_rep_new 4096)) as (m & Hrun & Hr & _).
  exists m. split; [done|]. rewrite (mt_get_rep m _ (bs "j") 3 Hr). split; vm_compute; reflexivity.
Qed.

(** ** The iterator meets its contract *)

Definition vi_rep (i : VecIter) (all rest : list entry) : Prop :=
  vi_status i = SOk /\ vi_entries i = all /\ rest = drop (vi_index i) all.

Lemma vi_rep_valid i all rest : vi_rep i all rest -> vi_valid i = bool_decide (rest <> []).
Proof.
  intros (Hst & <- & ->). unfold vi_valid. rewrite Hst. simpl. apply bool_decide_ext.
  rewrite <- (length_zero_iff_nil (drop _ _)), length_drop. lia.
Qed.

Lemma vi_rep_lookup i all p rest : vi_rep i all (p :: rest) -> vi_entries i !! vi_index i = Some p.
Proof.
  intros (_ & -> & Hd). rewrite <- (Nat.add_0_r (vi_index i)), <- lookup_drop, <- Hd. done.
Qed.

Lemma vi_seek_from_spec t l n : vi_seek_from t l n = (n + (length l - length (drop_below t l)))%nat /\
  drop (length l - length (drop_below t l)) l = drop_below t l /\ (length (drop_below t l) <= length l)%nat.
Proof.
  revert n. induction l as [|p l IH]; intros n; simpl; [auto with lia|].
  destruct (InternalKeyCompare p.1 t); simpl; rewrite ?Nat.sub_diag; [split; [lia|auto]| |split; [lia|auto]].
  destruct (IH (S n)) as (-> & Hd & Hl). rewrite Nat.sub_succ_l by done. simpl.
  split; [lia|]. split; [done|lia].
Qed.

#[export] Instance VecIter_spec : IterSpec VecIter vi_rep.
Proof.
  split; cbn [it_valid it_key it_value it_next it_seekToFirst it_seek it_status VecIter_ops].
  - apply vi_rep_valid.
  - intros i all p rest Hr. unfold vi_key, vi_value.
    rewrite (vi_rep_valid _ _ _ Hr), (vi_rep_lookup _ _ _ _ Hr). done.
  - intros i all p rest Hr. unfold vi_next. rewrite (vi_rep_valid _ _ _ Hr). simpl.
    destruct Hr as (Hst & He & Hd). split; [done|]. split; [done|]. simpl.
    rewrite <- Nat.add_1_r, <- drop_drop, <- Hd. done.
  - intros i all rest (Hst & He & _). done.
  - intros i all rest t (Hst & <- & _). split; [done|]. split; [done|]. simpl.
    destruct (vi_seek_from_spec t (vi_entries i) 0) as (-> & Hd & _). done.
  - by intros i all rest (Hst & _).
Qed.

Lemma sort_entries_wf l :
  Forall wf_ikey l.*1 -> NoDup l.*1 -> sl_wf (sort_by (lt_keyed InternalKeyCompare fst) l).
Proof.
  intros Hwf Hnd. pose proof (sort_by_perm (lt_keyed InternalKeyCompare fst) l) as Hp.
  assert (Forall (fun p : entry => wf_ikey p.1) l) as Hwf'.
  { apply Forall_forall. intros p Hp1. rewrite Forall_forall in Hwf. apply Hwf.
    by apply list_elem_of_fmap_2. }
  pose proof (sort_by_nondecr wf_ikey InternalKeyCompare fst l Hwf') as Hs.
  split; [by rewrite Hp|].
  apply (nondecr_strict wf_ikey InternalKeyCompare fst); [by rewrite Hp|by rewrite Hp|done].
Qed.

(** The specification of reads, computed by sorting. *)
Lemma reads_sorted uk es :
  Forall wf_ikey es.*1 -> NoDup es.*1 -> reads uk es (visible uk (sort_by (lt_keyed InternalKeyCompare fst) es)).
Proof.
  intros Hw Hnd. eapply reads_proper; [|by apply visible_reads, sort_entries_wf].
  apply filter_Permutation, sort_by_perm.
Qed.

Lemma sort_entries_id l : sl_wf l -> sort_by (lt_keyed InternalKeyCompare fst) l = l.
Proof.
  intros Hl. apply sl_wf_unique; [|done|apply sort_by_perm]. apply sort_entries_wf; [apply Hl|].
  apply (sorted_by_NoDup wf_ikey InternalKeyCompare); apply Hl.
Qed.

Lemma MemTableIterator_rep l : sl_wf l -> vi_rep (MemTableIterator_new l) l l.
Proof. intros Hl. split; [done|]. simpl. by rewrite sort_entries_id. Qed.

(** ** Memory *)

(** Memory use of a sequence of operations. *)
Definition ops_bytes (ops : list BatchOp) : Z :=
  foldr (fun op a => sizeof_SkipNode + 8 + zlen (op_key op) + zlen (op_value op) + a) 0 ops.

Lemma ops_bytes_app a b : ops_bytes (a ++ b) = ops_bytes a + ops_bytes b.
Proof. induction a as [|op a IH]; simpl; [done|]. rewrite IH. lia. Qed.

Lemma ops_bytes_nonneg a : 0 <= ops_bytes a.
Proof. induction a as [|op a IH]; simpl; [done|]. pose proof (zlen_nonneg (op_key op)). pose proof (zlen_nonneg (op_value op)). unfold sizeof_SkipNode. lia. Qed.

Lemma sl_bytes_nonneg l : 0 <= sl_bytes l.
Proof. induction l as [|p l IH]; simpl; [done|]. pose proof (zlen_nonneg p.1). pose proof (zlen_nonneg p.2). unfold sizeof_SkipNode. lia. Qed.

Lemma sl_insert_bytes k v l : sl_bytes (sl_insert k v l) <= sl_bytes l + (sizeof_SkipNode + zlen k + zlen v).
Proof.
  induction l as [|p l IH]; [simpl; lia|]. pose proof (zlen_nonneg p.1). pose proof (zlen_nonneg p.2). cbn [sl_insert].
  assert (0 < sizeof_SkipNode) by done. destruct (InternalKeyCompare p.1 k); rewrite !sl_bytes_cons; cbn [fst snd]; lia.
Qed.
