(* ===== verification/Bloom.v ===== *)
(** * The Bloom filter of an SSTable

    [bloom_filter.h].  The constructor derives two integers from the false positive rate
    with floating-point logarithms; the model starts from the first of them, the integer
    [bits] computed from the rate (9 for the only rate the program uses, 0.01), and
    computes the rest as the source does.  The side file written by [persist] and read by
    [load] is a byte string. *)

From Stdlib Require Import ZArith Lia.
From stdpp Require Import base numbers strings list.
From S2P Require Import Prelude Coding Slice.
Local Open Scope Z_scope.

Record BloomFilter := mkBloom {
  bf_bits_per_key : Z;
  bf_num_hashes : Z;
  bf_bits : bytes;
}.

(** [std::log(2.0)] is the double 6243314768165359 * 2^-53; [static_cast<int>] of a
    product or quotient with it truncates toward zero. *)
Definition mul_ln2 (n : Z) : Z := Z.quot (n * 6243314768165359) (2 ^ 53).
Definition div_ln2 (n : Z) : Z := Z.quot (n * 2 ^ 53) 6243314768165359.

Definition BloomFilter_new (expected_keys bits : Z) : BloomFilter :=
  let nh := mul_ln2 bits in
  let nh := if nh <? 1 then 1 else nh in
  let nh := if nh >? 30 then 30 else nh in
  let bk := div_ln2 bits in
  let bk := if bk <? 1 then 1 else bk in
  mkBloom bk nh (replicate (Z.to_nat (u64 (expected_keys * bk) / 8 + 1)) (z2b 0)).

(** The integer the constructor computes from the rate 0.01. *)
Definition bits_for_001 : Z := 9.

Definition bf_seed1 : Z := 0xbc9f1d34.
Definition bf_seed2 : Z := 0x9e3779b9.

(** [static_cast<uint32_t>(bits_.size() * 8)] *)
Definition bf_nbits (bits : bytes) : Z := u32 (zlen bits * 8).

(** [(h1 + i * h2) % bits] in 32-bit unsigned arithmetic. *)
Definition bf_pos (bits : bytes) (h1 h2 i : Z) : Z := u32 (h1 + u32 (i * h2)) mod bf_nbits bits.

(** [bits_[pos / 8] |= 1 << (pos % 8)]; indexing past the end is undefined. *)
Definition bf_set (bits : bytes) (pos : Z) : option bytes :=
  b ← bits !! Z.to_nat (pos / 8);
  Some (<[Z.to_nat (pos / 8) := z2b (Z.lor (b2z b) (Z.shiftl 1 (pos mod 8)))]> bits).

Definition bf_test (bits : bytes) (pos : Z) : option bool :=
  b ← bits !! Z.to_nat (pos / 8);
  Some (negb (Z.land (b2z b) (Z.shiftl 1 (pos mod 8)) =? 0)).

(** The loop over [i]; a modulus of zero is undefined. *)
Fixpoint bf_add_loop (k : nat) (i h1 h2 : Z) (bits : bytes) : option bytes :=
  match k with
  | O => Some bits
  | S k =>
      if bf_nbits bits =? 0 then None
      else bits ← bf_set bits (bf_pos bits h1 h2 i); bf_add_loop k (i + 1) h1 h2 bits
  end.

Definition bf_add (f : BloomFilter) (key : bytes) : option BloomFilter :=
  let h1 := murmurHash2 key bf_seed1 in
  let h2 := murmurHash2 key bf_seed2 in
  bits ← bf_add_loop (Z.to_nat (bf_num_hashes f)) 0 h1 h2 (bf_bits f);
  Some (mkBloom (bf_bits_per_key f) (bf_num_hashes f) bits).

Fixpoint bf_test_loop (k : nat) (i h1 h2 : Z) (bits : bytes) : option bool :=
  match k with
  | O => Some true
  | S k =>
      if bf_nbits bits =? 0 then None
      else t ← bf_test bits (bf_pos bits h1 h2 i);
           if (t : bool) then bf_test_loop k (i + 1) h1 h2 bits else Some false
  end.

Definition bf_mightContain (f : BloomFilter) (key : bytes) : option bool :=
  let h1 := murmurHash2 key bf_seed1 in
  let h2 := murmurHash2 key bf_seed2 in
  bf_test_loop (Z.to_nat (bf_num_hashes f)) 0 h1 h2 (bf_bits f).

(** The side file: two 32-bit integers, a 64-bit size, the bit array. *)
Definition bf_persist (f : BloomFilter) : bytes :=
  encodeFixed32 (u32 (bf_num_hashes f)) ++ encodeFixed32 (u32 (bf_bits_per_key f)) ++
  encodeFixed64 (zlen (bf_bits f)) ++ bf_bits f.

(** Reading a short header leaves the variables indeterminate ([None]); a short bit array
    leaves zeros at the end of the resized vector. *)
Definition bf_load (file : bytes) : option BloomFilter :=
  nh ← decodeFixed32 file;
  bk ← decodeFixed32 (drop 4 file);
  sz ← decodeFixed64 (drop 8 file);
  let data := take (Z.to_nat sz) (drop 16 file) in
  Some (mkBloom (s32 bk) (s32 nh) (data ++ replicate (Z.to_nat sz - length data) (z2b 0))).

Definition bf_memoryUsage (f : BloomFilter) : Z := zlen (bf_bits f).
Definition bf_numHashes (f : BloomFilter) : Z := bf_num_hashes f.

Example bloom_new_001 : bf_num_hashes (BloomFilter_new 10000 bits_for_001) = 6 /\
  bf_bits_per_key (BloomFilter_new 10000 bits_for_001) = 12.
Proof. vm_compute. done. Qed.

(** ** Bits only grow *)

(** [bits_le a b]: every bit set in [a] is set in [b], and the sizes agree. *)
Definition bits_le (a b : bytes) : Prop :=
  length a = length b /\
  forall i x, a !! i = Some x ->
    exists y, b !! i = Some y /\ forall n, Z.testbit (b2z x) n = true -> Z.testbit (b2z y) n = true.

#[export] Instance bits_le_preorder : PreOrder bits_le.
Proof.
  split.
  - intros a. split; [done|]. intros i x Hx. by exists x.
  - intros a b c [Hl1 H1] [Hl2 H2]. split; [congruence|]. intros i x Hx.
    destruct (H1 i x Hx) as (y & Hy & Hxy). destruct (H2 i y Hy) as (z & Hz & Hyz).
    exists z. auto.
Qed.

Lemma b2z_bits_high b n : 8 <= n -> Z.testbit (b2z b) n = false.
Proof.
  intros Hn. rewrite <- (Z.mod_small (b2z b) (2 ^ 8)) by apply b2z_range.
  apply Z.mod_pow2_bits_high. lia.
Qed.

Lemma or_bit_testbit b k n :
  0 <= k < 8 -> 0 <= n ->
  Z.testbit (b2z (z2b (Z.lor (b2z b) (Z.shiftl 1 k)))) n = Z.testbit (b2z b) n || (n =? k).
Proof.
  intros Hk Hn. rewrite b2z_z2b. change 256 with (2 ^ 8).
  destruct (decide (n < 8)) as [Hlt|Hge].
  - rewrite Z.mod_pow2_bits_low, Z.lor_spec by lia. f_equal.
    rewrite Z.shiftl_1_l, Z.pow2_bits_eqb by lia. apply Z.eqb_sym.
  - rewrite Z.mod_pow2_bits_high, b2z_bits_high by lia. simpl. symmetry. apply Z.eqb_neq. lia.
Qed.

Lemma bf_set_spec bits pos :
  0 <= pos < zlen bits * 8 ->
  exists bits', bf_set bits pos = Some bits' /\ bits_le bits bits' /\ bf_test bits' pos = Some true.
Proof.
  intros Hp. unfold zlen in Hp.
  assert (Z.to_nat (pos / 8) < length bits)%nat as Hi.
  { apply Nat2Z.inj_lt. rewrite Z2Nat.id by (apply Z.div_pos; lia). apply Z.div_lt_upper_bound; lia. }
  destruct (lookup_lt_is_Some_2 bits _ Hi) as [b Hb].
  pose proof (Z.mod_pos_bound pos 8 eq_refl) as Hm.
  unfold bf_set. rewrite Hb. simpl. eexists. split; [done|]. split.
  - split; [by rewrite length_insert|]. intros i x Hx.
    destruct (decide (i = Z.to_nat (pos / 8))) as [->|Hne].
    + rewrite list_lookup_insert_eq by done. eexists. split; [done|]. intros n Hn.
      assert (0 <= n) by (destruct n; [lia..|by rewrite Z.testbit_neg_r in Hn by lia]).
      rewrite or_bit_testbit by lia. assert (x = b) as -> by congruence. by rewrite Hn.
    + rewrite list_lookup_insert_ne by done. by exists x.
  - unfold bf_test. rewrite list_lookup_insert_eq by done. simpl. f_equal.
    apply negb_true_iff, Z.eqb_neq. intros H0.
    assert (Z.testbit (Z.land (b2z (z2b (Z.lor (b2z b) (Z.shiftl 1 (pos mod 8)))))
              (Z.shiftl 1 (pos mod 8))) (pos mod 8) = false) as Hf by (rewrite H0; apply Z.bits_0).
    rewrite Z.land_spec, or_bit_testbit, Z.shiftl_1_l, Z.pow2_bits_eqb in Hf by lia.
    by rewrite Z.eqb_refl, orb_true_r in Hf.
Qed.

Lemma bf_test_mono a b pos : bits_le a b -> bf_test a pos = Some true -> bf_test b pos = Some true.
Proof.
  intros [_ Hle]. unfold bf_test.
  destruct (a !! Z.to_nat (pos / 8)) as [x|] eqn:Ha; [|done]. simpl.
  destruct (Hle _ _ Ha) as (y & -> & Hxy). simpl. intros [= Ht]. f_equal.
  apply negb_true_iff, Z.eqb_neq. apply negb_true_iff, Z.eqb_neq in Ht. intros H0. apply Ht.
  pose proof (Z.mod_pos_bound pos 8 eq_refl). apply Z.bits_inj'. intros n Hn. rewrite Z.bits_0.
  assert (Z.testbit (Z.land (b2z y) (Z.shiftl 1 (pos mod 8))) n = false) as Hf
    by (rewrite H0; apply Z.bits_0).
  rewrite Z.land_spec in *. destruct (Z.testbit (b2z x) n) eqn:Hx; [|done]. by rewrite (Hxy n Hx) in Hf.
Qed.

Lemma bits_le_nbits a b : bits_le a b -> bf_nbits b = bf_nbits a.
Proof. intros [Hl _]. unfold bf_nbits, zlen. by rewrite Hl. Qed.

Lemma bf_pos_range bits h1 h2 i :
  bf_nbits bits <> 0 -> 0 <= bf_pos bits h1 h2 i < zlen bits * 8.
Proof.
  intros Hnz. unfold bf_pos. pose proof (u32_range (zlen bits * 8)) as Hr. fold (bf_nbits bits) in Hr.
  pose proof (Z.mod_pos_bound (u32 (h1 + u32 (i * h2))) (bf_nbits bits) ltac:(lia)).
  assert (bf_nbits bits <= zlen bits * 8).
  { unfold bf_nbits, u32. apply Z.mod_le; [pose proof (zlen_nonneg bits); lia|lia]. }
  lia.
Qed.

Lemma bf_test_loop_mono k i h1 h2 a b :
  bits_le a b -> bf_test_loop k i h1 h2 a = Some true -> bf_test_loop k i h1 h2 b = Some true.
Proof.
  intros Hle. revert i. induction k as [|k IH]; intros i; [done|]. simpl.
  rewrite (bits_le_nbits a b Hle). destruct (_ =? 0); [done|].
  unfold bf_pos. rewrite (bits_le_nbits a b Hle). fold (bf_pos a h1 h2 i).
  destruct (bf_test a (bf_pos a h1 h2 i)) as [[|]|] eqn:Et; simpl; [|done..].
  rewrite (bf_test_mono _ _ _ Hle Et). apply IH.
Qed.

Lemma bf_add_loop_spec k i h1 h2 bits :
  bf_nbits bits <> 0 ->
  exists bits', bf_add_loop k i h1 h2 bits = Some bits' /\ bits_le bits bits' /\
                bf_test_loop k i h1 h2 bits' = Some true.
Proof.
  revert i bits. induction k as [|k IH]; intros i bits Hnz; [by exists bits|]. simpl.
  replace (bf_nbits bits =? 0) with false by (symmetry; by apply Z.eqb_neq).
  destruct (bf_set_spec bits (bf_pos bits h1 h2 i)) as (b1 & -> & Hle1 & Ht1);
    [by apply bf_pos_range|]. simpl.
  destruct (IH (i + 1) b1) as (b2 & -> & Hle2 & Ht2); [by rewrite (bits_le_nbits _ _ Hle1)|].
  assert (bits_le bits b2) as Hle by (by transitivity b1).
  exists b2. split; [done|]. split; [done|]. rewrite (bits_le_nbits _ _ Hle).
  replace (bf_nbits bits =? 0) with false by (symmetry; by apply Z.eqb_neq).
  unfold bf_pos. rewrite (bits_le_nbits _ _ Hle). fold (bf_pos bits h1 h2 i).
  rewrite (bf_test_mono _ _ _ Hle2 Ht1). simpl. done.
Qed.

(** [bf_le]: a filter after more additions. *)
Definition bf_le (f g : BloomFilter) : Prop :=
  bf_num_hashes g = bf_num_hashes f /\ bf_bits_per_key g = bf_bits_per_key f /\
  bits_le (bf_bits f) (bf_bits g).

#[export] Instance bf_le_preorder : PreOrder bf_le.
Proof.
  split; [done|]. intros f g h (H1 & H2 & H3) (H4 & H5 & H6).
  split; [congruence|]. split; [congruence|by transitivity (bf_bits g)].
Qed.

Definition bf_usable (f : BloomFilter) : Prop := bf_nbits (bf_bits f) <> 0.

Lemma bf_le_usable f g : bf_le f g -> bf_usable f -> bf_usable g.
Proof. intros (_ & _ & Hle). unfold bf_usable. by rewrite (bits_le_nbits _ _ Hle). Qed.

Lemma bf_add_spec f key :
  bf_usable f ->
  exists g, bf_add f key = Some g /\ bf_le f g /\ bf_mightContain g key = Some true.
Proof.
  intros Hu. unfold bf_add.
  destruct (bf_add_loop_spec (Z.to_nat (bf_num_hashes f)) 0 (murmurHash2 key bf_seed1)
              (murmurHash2 key bf_seed2) (bf_bits f) Hu) as (bits & -> & Hle & Ht).
  simpl. eexists. done.
Qed.

Lemma bf_mightContain_mono f g key :
  bf_le f g -> bf_mightContain f key = Some true -> bf_mightContain g key = Some true.
Proof.
  intros (Hn & _ & Hle). unfold bf_mightContain. rewrite Hn. by apply bf_test_loop_mono.
Qed.

Definition bf_add_all (f : BloomFilter) (keys : list bytes) : option BloomFilter :=
  foldl (fun acc k => f ← acc; bf_add f k) (Some f) keys.

Lemma bf_add_all_app f ks1 ks2 :
  bf_add_all f (ks1 ++ ks2) = (g ← bf_add_all f ks1; bf_add_all g ks2).
Proof.
  unfold bf_add_all. rewrite foldl_app. destruct (foldl _ (Some f) ks1); simpl; [done|].
  induction ks2; simpl; auto.
Qed.

Lemma bf_add_all_spec f keys :
  bf_usable f ->
  exists g, bf_add_all f keys = Some g /\ bf_le f g /\
            Forall (fun k => bf_mightContain g k = Some true) keys.
Proof.
  intros Hu. induction keys as [|k keys IH] using rev_ind; [by exists f|].
  destruct IH as (g & Hg & Hle & Hall). rewrite bf_add_all_app, Hg. simpl.
  destruct (bf_add_spec g k) as (h & Hh & Hle' & Hin); [by eapply bf_le_usable|].
  unfold bf_add_all. simpl. exists h. split; [done|]. split; [by transitivity g|].
  apply Forall_app. split; [|by repeat constructor].
  eapply Forall_impl; [exact Hall|]. intros x Hx. by eapply bf_mightContain_mono.
Qed.

(** Integer fields survive the trip through the side file. *)
Definition bf_wf (f : BloomFilter) : Prop :=
  0 <= bf_num_hashes f < 2 ^ 31 /\ 0 <= bf_bits_per_key f < 2 ^ 31 /\ zlen (bf_bits f) < 2 ^ 64.

Lemma bf_le_wf f g : bf_le f g -> bf_wf f -> bf_wf g.
Proof.
  intros (H1 & H2 & [Hl _]) (Hn & Hk & Hz). unfold bf_wf. rewrite H1, H2. unfold zlen in *. by rewrite <- Hl.
Qed.

Lemma s32_u32_small z : 0 <= z < 2 ^ 31 -> s32 (u32 z) = z.
Proof.
  intros Hz. unfold s32. rewrite !u32_small by (rewrite ?u32_small; lia).
  by replace (z <? 2 ^ 31) with true by lia.
Qed.

Lemma bf_load_persist f : bf_wf f -> bf_load (bf_persist f) = Some f.
Proof.
  intros (Hn & Hk & Hz). unfold bf_load, bf_persist. pose proof (zlen_nonneg (bf_bits f)).
  rewrite decodeFixed32_encode by apply u32_range. cbn [mbind option_bind].
  rewrite (drop_app_exact _ _ 4) by done.
  rewrite decodeFixed32_encode by apply u32_range. cbn [mbind option_bind].
  rewrite app_assoc, (drop_app_exact _ _ 8) by done.
  rewrite decodeFixed64_encode by lia. cbn [mbind option_bind].
  rewrite app_assoc, (drop_app_exact _ _ 16) by done.
  rewrite to_nat_zlen, firstn_all, Nat.sub_diag, app_nil_r.
  rewrite !s32_u32_small by done. by destruct f.
Qed.

Lemma BloomFilter_new_001 n :
  0 <= n -> n * 12 < 2 ^ 32 - 8 ->
  bf_usable (BloomFilter_new n bits_for_001) /\ bf_wf (BloomFilter_new n bits_for_001).
Proof.
  intros Hn Hs. unfold bf_usable, bf_wf, BloomFilter_new.
  change (div_ln2 bits_for_001) with 12. change (mul_ln2 bits_for_001) with 6. cbn -[Z.mul Z.div Z.pow].
  rewrite u64_small by lia. unfold bf_nbits, zlen. rewrite length_replicate.
  pose proof (Z.div_mod (n * 12) 8 ltac:(lia)). pose proof (Z.mod_pos_bound (n * 12) 8 ltac:(lia)).
  rewrite Z2Nat.id by lia.
  split; [|lia].
  intros Hz. unfold u32 in Hz. apply Z.mod_divide in Hz; [|lia]. destruct Hz as [q Hq].
  assert (q = 1 \/ q <= 0 \/ 2 <= q) as [->|[|]] by lia; lia.
Qed.

(** C22: the Bloom filter has no false negatives: after any sequence of additions to a
    filter of any positive size every added key is reported as possibly present, and this
    survives writing the filter to its side file and loading it back. *)
Theorem bloom_no_false_negative (f : BloomFilter) (keys : list bytes) (key : bytes) :
  bf_usable f -> bf_wf f -> key ∈ keys ->
  exists g, bf_add_all f keys = Some g /\ bf_load (bf_persist g) = Some g /\
            bf_mightContain g key = Some true.
Proof.
  intros Hu Hwf Hin. destruct (bf_add_all_spec f keys Hu) as (g & Hg & Hle & Hall).
  exists g. split; [done|]. split; [by apply bf_load_persist, (bf_le_wf f)|].
  rewrite Forall_forall in Hall. by apply Hall.
Qed.

Lemma bloom_no_false_negative_witness :
  exists g, bf_add_all (BloomFilter_new 10 bits_for_001) [bs "a"; bs "b"] = Some g /\
    bf_load (bf_persist g) = Some g /\ bf_mightContain g (bs "b") = Some true.
Proof.
  apply bloom_no_false_negative; [apply BloomFilter_new_001; lia..|].
  right. left.
Defined.
