(* ===== verification/Block.v ===== *)
(** * Data blocks

    [block.h/.cpp]: prefix-compressed entries with restart points, followed by the restart
    offsets and their count.  The builder is a state record with one function per method.
    A reader method walks the entries from offset 0; the walk is a loop with fuel, the
    length of the block plus one, which is enough because every entry takes at least three
    bytes.  [None] is undefined behaviour: a read past the end of the block.  What a loop
    answers when its fuel is used up is its parameter [out], so that a walk that is cut short
    is told apart from one that ends; [block_walk_terminates] shows that it never happens. *)

From Stdlib Require Import ZArith Lia.
From stdpp Require Import base numbers strings list.
From S2P Require Import Prelude Coding Slice InternalKey SkipHeap SkipList Versions MemTable.
Local Open Scope Z_scope.

Definition kRestartInterval : Z := 16.

Record BlockHandle := mkHandle { bh_offset : Z; bh_size : Z }.

(** ** BlockBuilder *)

Record BlockBuilder := mkBB {
  bb_buffer : bytes;
  bb_block_size : Z;
  bb_last_key : bytes;
  bb_finished : bool;
  bb_restarts : list Z;
  bb_restart_counter : Z;
}.

Definition BlockBuilder_new (block_size : Z) : BlockBuilder := mkBB [] block_size [] false [0] 0.

(** [while (shared < minLen && last_key_[shared] == key[shared]) ++shared;] *)
Fixpoint shared_prefix (last key : bytes) : nat :=
  match last, key with
  | a :: last, b :: key => if decide (a = b) then S (shared_prefix last key) else O
  | _, _ => O
  end.

Definition block_entry (shared : nat) (key value : bytes) : bytes :=
  encodeVariant32 (u32 (Z.of_nat shared)) ++
  encodeVariant32 (u32 (zlen key - Z.of_nat shared)) ++
  encodeVariant32 (u32 (zlen value)) ++ drop shared key ++ value.

Definition bb_add (b : BlockBuilder) (key value : bytes) : BlockBuilder :=
  let '(shared, restarts, counter) :=
    if (bb_restart_counter b <? kRestartInterval) && negb (bool_decide (bb_last_key b = []))
    then (shared_prefix (bb_last_key b) key, bb_restarts b, bb_restart_counter b)
    else if bb_restart_counter b >=? kRestartInterval
    then (O, bb_restarts b ++ [u32 (zlen (bb_buffer b))], 0)
    else (O, bb_restarts b, bb_restart_counter b) in
  mkBB (bb_buffer b ++ block_entry shared key value) (bb_block_size b) key (bb_finished b)
       restarts (counter + 1).

Definition bb_trailer (restarts : list Z) : bytes :=
  concat (encodeFixed32 <$> restarts) ++ encodeFixed32 (u32 (zlen restarts)).

Definition bb_finish (b : BlockBuilder) : BlockBuilder * bytes :=
  let buffer := bb_buffer b ++ bb_trailer (bb_restarts b) in
  (mkBB buffer (bb_block_size b) (bb_last_key b) true (bb_restarts b) (bb_restart_counter b), buffer).

Definition bb_empty (b : BlockBuilder) : bool := bool_decide (bb_buffer b = []).
Definition bb_size (b : BlockBuilder) : Z := zlen (bb_buffer b).
Definition bb_estimatedSize (b : BlockBuilder) : Z := zlen (bb_buffer b).

(** ** BlockReader *)

Record BlockReader := mkBR {
  br_data : bytes;
  br_num_entries : Z;
  br_restarts_offset : Z;
}.

Definition BlockReader_new (block_data : bytes) : BlockReader :=
  if zlen block_data <? 4 then mkBR block_data 0 0
  else
    let restarts_count := default 0 (decodeFixed32 (drop (length block_data - 4) block_data)) in
    mkBR block_data restarts_count
         (u32 (u64 (zlen block_data - 4 - u32 (restarts_count * 4)))).

(** [numEntries()] returns the number of restart points. *)
Definition br_numEntries (r : BlockReader) : Z := br_num_entries r.

(** The three header fields of the entry at [offset], then the key: [Some None] is the
    [break] on a malformed header, [Some (Some (key, p, valLen))] the rebuilt key and
    where its value starts.  Forming the pointer [limit] past the end of the block is
    already undefined. *)
Definition br_entry (r : BlockReader) (offset : Z) (lastKey : bytes) : option (option (bytes * Z * Z)) :=
  if br_restarts_offset r >? zlen (br_data r) then None
  else
    let p := take (Z.to_nat (br_restarts_offset r - offset)) (drop (Z.to_nat offset) (br_data r)) in
    match decodeVariant32 p with
    | None => Some None
    | Some (shared, c1) =>
        match decodeVariant32 (drop (Z.to_nat c1) p) with
        | None => Some None
        | Some (nonShared, c2) =>
            match decodeVariant32 (drop (Z.to_nat (c1 + c2)) p) with
            | None => Some None
            | Some (valLen, c3) =>
                let q := offset + (c1 + c2 + c3) in
                tail ← read_n (Z.to_nat nonShared) (drop (Z.to_nat q) (br_data r));
                let currentKey := take (Z.to_nat shared) lastKey ++ tail in
                Some (Some (currentKey, q + nonShared, valLen))
            end
        end
    end.

(** [std::string(p, valLen)] *)
Definition br_value (r : BlockReader) (p valLen : Z) : option bytes :=
  read_n (Z.to_nat valLen) (drop (Z.to_nat p) (br_data r)).

Fixpoint br_get_loop (out : option (option bytes)) (fuel : nat) (r : BlockReader) (key : bytes) (offset : Z) (lastKey : bytes)
  : option (option bytes) :=
  match fuel with
  | O => out
  | S fuel =>
      if offset <? br_restarts_offset r then
        e ← br_entry r offset lastKey;
        match e with
        | None => Some None
        | Some (currentKey, p, valLen) =>
            match lex currentKey key with
            | Eq => v ← br_value r p valLen; Some (Some v)
            | Gt => Some None
            | Lt => br_get_loop out fuel r key (p + valLen) currentKey
            end
        end
      else Some None
  end.

Definition br_fuel (r : BlockReader) : nat := S (length (br_data r)).

Definition br_get (r : BlockReader) (key : bytes) : option (option bytes) :=
  br_get_loop None (br_fuel r) r key 0 [].

Fixpoint br_getByUserKey_loop (out : option (option bytes)) (fuel : nat) (r : BlockReader) (userKey : bytes) (offset : Z)
  (lastKey : bytes) : option (option bytes) :=
  match fuel with
  | O => out
  | S fuel =>
      if offset <? br_restarts_offset r then
        e ← br_entry r offset lastKey;
        match e with
        | None => Some None
        | Some (currentKey, p, valLen) =>
            match Slice_compare (InternalKeyUserKey currentKey) userKey with
            | Eq => if IsDeletion currentKey then Some None
                    else v ← br_value r p valLen; Some (Some v)
            | Gt => Some None
            | Lt => br_getByUserKey_loop out fuel r userKey (p + valLen) currentKey
            end
        end
      else Some None
  end.

Definition br_getByUserKey (r : BlockReader) (userKey : bytes) : option (option bytes) :=
  br_getByUserKey_loop None (br_fuel r) r userKey 0 [].

(** [forEach]: the sequence of arguments the callback receives. *)
Fixpoint br_forEach_loop (out : option (list entry)) (fuel : nat) (r : BlockReader) (offset : Z) (lastKey : bytes)
  : option (list entry) :=
  match fuel with
  | O => out
  | S fuel =>
      if offset <? br_restarts_offset r then
        e ← br_entry r offset lastKey;
        match e with
        | None => Some []
        | Some (currentKey, p, valLen) =>
            v ← br_value r p valLen;
            rest ← br_forEach_loop out fuel r (p + valLen) currentKey;
            Some ((currentKey, v) :: rest)
        end
      else Some []
  end.

Definition br_forEach (r : BlockReader) : option (list entry) := br_forEach_loop None (br_fuel r) r 0 [].

(** Building a block from a list of entries. *)
Definition bb_adds (b : BlockBuilder) (l : list entry) : BlockBuilder :=
  foldl (fun b p => bb_add b p.1 p.2) b l.

Definition block_of (block_size : Z) (l : list entry) : bytes :=
  (bb_finish (bb_adds (BlockBuilder_new block_size) l)).2.

Example block_demo :
  let l := [(bs "apple", bs "1"); (bs "apply", bs "22"); (bs "b", bs "")] in
  br_forEach (BlockReader_new (block_of 4096 l)) = Some l /\
  br_get (BlockReader_new (block_of 4096 l)) (bs "apply") = Some (Some (bs "22")).
Proof. vm_compute. done. Qed.

(** ** The encoding of a list of entries *)

Definition fits (p : entry) : Prop := zlen p.1 < 2 ^ 32 /\ zlen p.2 < 2 ^ 32.

(** [encodes last buf l]: after a key [last], the bytes [buf] hold the entries [l]. *)
Inductive encodes : bytes -> bytes -> list entry -> Prop :=
  | encodes_nil last : encodes last [] []
  | encodes_cons last shared k v buf l :
      (shared <= length k)%nat -> take shared last = take shared k -> fits (k, v) ->
      encodes k buf l ->
      encodes last (block_entry shared k v ++ buf) ((k, v) :: l).

Lemma encodes_snoc prev buf l shared k v :
  encodes prev buf l -> (shared <= length k)%nat ->
  take shared (default prev (last l.*1)) = take shared k -> fits (k, v) ->
  encodes prev (buf ++ block_entry shared k v) (l ++ [(k, v)]).
Proof.
  intros He Hs Ht Hf. induction He as [prev|prev sh k' v' buf l Hs' Ht' Hf' He IH].
  - rewrite <- (app_nil_r (block_entry _ _ _)). constructor; [done..|constructor].
  - rewrite <- app_assoc. constructor; [done..|]. apply IH.
    rewrite fmap_cons, last_cons in Ht. by destruct (last l.*1).
Qed.

Lemma shared_prefix_spec a b :
  (shared_prefix a b <= length b)%nat /\ take (shared_prefix a b) a = take (shared_prefix a b) b.
Proof.
  revert b. induction a as [|x a IH]; intros [|y b]; simpl; [by auto with lia..|].
  destruct (decide (x = y)) as [->|]; [|by auto with lia]. simpl. destruct (IH b) as [? ->].
  split; [lia|done].
Qed.

(** What the builder keeps true while entries are added. *)
Record bb_rep (b : BlockBuilder) (l : list entry) : Prop := {
  bbr_enc : encodes [] (bb_buffer b) l;
  bbr_last : bb_last_key b = default [] (last l.*1);
}.

Lemma bb_rep_new n : bb_rep (BlockBuilder_new n) [].
Proof. split; [constructor|done]. Qed.

Lemma bb_add_shared b key value :
  exists shared restarts counter,
    bb_add b key value = mkBB (bb_buffer b ++ block_entry shared key value) (bb_block_size b) key
                              (bb_finished b) restarts counter /\
    (shared <= length key)%nat /\ take shared (bb_last_key b) = take shared key.
Proof.
  unfold bb_add. destruct (shared_prefix_spec (bb_last_key b) key) as [? ?].
  destruct (_ && _); [do 3 eexists; eauto|].
  destruct (_ >=? _); do 3 eexists; (split; [done|]); rewrite !take_0; auto with lia.
Qed.

Lemma bb_rep_add b l k v : bb_rep b l -> fits (k, v) -> bb_rep (bb_add b k v) (l ++ [(k, v)]).
Proof.
  intros [He Hl] Hf. destruct (bb_add_shared b k v) as (sh & re & co & -> & Hs & Ht).
  split; simpl.
  - apply encodes_snoc; [done..| |done]. by rewrite <- Hl.
  - rewrite fmap_app. cbn [fmap list_fmap fst]. by rewrite last_snoc.
Qed.

Lemma bb_rep_adds b l l' : bb_rep b l -> Forall fits l' -> bb_rep (bb_adds b l') (l ++ l').
Proof.
  intros Hr Hf. revert b l Hr. induction Hf as [|[k v] l' Hf _ IH]; intros b l Hr; simpl.
  - by rewrite app_nil_r.
  - rewrite cons_middle, app_assoc. apply IH. by apply bb_rep_add.
Qed.

(** ** The reader on an encoded block *)

Lemma length_concat_fixed32 rs : length (concat (encodeFixed32 <$> rs)) = (4 * length rs)%nat.
Proof.
  induction rs as [|x rs IH]; [done|]. rewrite fmap_cons. cbn [concat].
  rewrite length_app, IH, length_encodeFixed32. simpl. lia.
Qed.

Lemma length_bb_trailer rs : length (bb_trailer rs) = (4 * length rs + 4)%nat.
Proof. unfold bb_trailer. rewrite length_app, length_concat_fixed32, length_encodeFixed32. lia. Qed.

Lemma BlockReader_new_spec buf rs :
  zlen (buf ++ bb_trailer rs) < 2 ^ 32 ->
  BlockReader_new (buf ++ bb_trailer rs) = mkBR (buf ++ bb_trailer rs) (zlen rs) (zlen buf).
Proof.
  intros Hsz. unfold BlockReader_new. rewrite zlen_app in *.
  pose proof (length_bb_trailer rs) as Hlt. assert (zlen (bb_trailer rs) = 4 * zlen rs + 4) as Hz
    by (unfold zlen in *; lia). pose proof (zlen_nonneg rs). pose proof (zlen_nonneg buf).
  rewrite Hz in *. replace (_ <? 4) with false by lia.
  assert (drop (length (buf ++ bb_trailer rs) - 4) (buf ++ bb_trailer rs) = encodeFixed32 (u32 (zlen rs)) ++ []) as ->.
  { unfold bb_trailer. rewrite app_assoc, app_nil_r. apply drop_app_exact. rewrite !length_app. simpl. lia. }
  rewrite decodeFixed32_encode by apply u32_range. simpl default.
  rewrite (u32_small (zlen rs)) by lia. rewrite (u32_small (zlen rs * 4)) by lia.
  rewrite u64_small, u32_small by lia. f_equal. lia.
Qed.

Lemma encodes_length prev buf l : encodes prev buf l -> (3 * length l <= length buf)%nat.
Proof.
  induction 1 as [|prev sh k v buf l Hs Ht Hf He IH]; [done|]. simpl. unfold block_entry.
  rewrite !length_app.
  pose proof (encodeVariant32_loop_length 5 (u32 (Z.of_nat sh))).
  pose proof (encodeVariant32_loop_length 5 (u32 (zlen k - Z.of_nat sh))).
  pose proof (encodeVariant32_loop_length 5 (u32 (zlen v))). unfold encodeVariant32. lia.
Qed.

Lemma read_n_exact l1 l2 n : Z.to_nat n = length l1 -> read_n (Z.to_nat n) (l1 ++ l2) = Some l1.
Proof. intros ->. by apply read_n_app. Qed.

(** Reading the entry at the front of an encoded tail. *)
Lemma br_entry_spec r pre sh k v buf post prev :
  br_data r = pre ++ (block_entry sh k v ++ buf) ++ post ->
  br_restarts_offset r = zlen pre + zlen (block_entry sh k v ++ buf) ->
  (sh <= length k)%nat -> take sh prev = take sh k -> fits (k, v) ->
  exists p, br_entry r (zlen pre) prev = Some (Some (k, p, zlen v)) /\
            br_value r p (zlen v) = Some v /\ p + zlen v = zlen (pre ++ block_entry sh k v).
Proof.
  intros Hd Ho Hs Ht [Hk Hv]. simpl in Hk, Hv. unfold br_entry. rewrite Ho, Hd.
  pose proof (zlen_nonneg post). pose proof (zlen_nonneg v).
  replace (_ >? _) with false by (rewrite !zlen_app; lia).
  rewrite to_nat_zlen, drop_app_length, Z.add_simpl_l, to_nat_zlen, take_app_length.
  set (e1 := encodeVariant32 (u32 (Z.of_nat sh))).
  set (e2 := encodeVariant32 (u32 (zlen k - Z.of_nat sh))).
  set (e3 := encodeVariant32 (u32 (zlen v))).
  assert (block_entry sh k v ++ buf = e1 ++ e2 ++ e3 ++ drop sh k ++ v ++ buf) as Hb
    by (unfold block_entry; by rewrite <- !app_assoc).
  rewrite Hb. unfold e1 at 1. rewrite decodeVariant32_encode by apply u32_range. fold e1.
  rewrite to_nat_zlen, drop_app_length.
  unfold e2 at 1. rewrite decodeVariant32_encode by apply u32_range. fold e2.
  rewrite <- zlen_app, to_nat_zlen, app_assoc, drop_app_length.
  unfold e3 at 1. rewrite decodeVariant32_encode by apply u32_range. fold e3.
  assert (pre ++ ((e1 ++ e2) ++ e3 ++ drop sh k ++ v ++ buf) ++ post =
          (pre ++ e1 ++ e2 ++ e3) ++ drop sh k ++ v ++ buf ++ post) as -> by (by rewrite <- !app_assoc).
  replace (zlen pre + (zlen (e1 ++ e2) + zlen e3)) with (zlen (pre ++ e1 ++ e2 ++ e3))
    by (rewrite !zlen_app; lia).
  rewrite (to_nat_zlen (pre ++ _)), drop_app_length.
  assert (zlen k - Z.of_nat sh = zlen (drop sh k)) as Hds by (unfold zlen; rewrite length_drop; lia).
  rewrite Hds. rewrite (u32_small (zlen (drop sh k))) by (pose proof (zlen_nonneg (drop sh k)); unfold zlen in *; lia).
  rewrite (u32_small (zlen v)) by lia. rewrite (u32_small (Z.of_nat sh)) by (unfold zlen in *; lia).
  rewrite to_nat_zlen, read_n_app by done. cbn [mbind option_bind].
  rewrite Nat2Z.id, Ht, take_drop. eexists. split; [done|]. split.
  - unfold br_value. rewrite Hd, Hb.
    assert (pre ++ (e1 ++ e2 ++ e3 ++ drop sh k ++ v ++ buf) ++ post =
          (pre ++ e1 ++ e2 ++ e3 ++ drop sh k) ++ v ++ buf ++ post) as -> by (by rewrite <- !app_assoc).
    replace (zlen (pre ++ e1 ++ e2 ++ e3) + zlen (drop sh k)) with (zlen (pre ++ e1 ++ e2 ++ e3 ++ drop sh k))
      by (rewrite !zlen_app; lia).
    rewrite (to_nat_zlen (pre ++ _)), drop_app_length, to_nat_zlen. by apply read_n_app.
  - unfold block_entry. fold e1 e2 e3. rewrite !zlen_app. lia.
Qed.

Section OnEncoded.
Context (r : BlockReader) (post : bytes).

Lemma br_forEach_loop_spec out fuel pre buf prev l :
  encodes prev buf l -> br_data r = pre ++ buf ++ post ->
  br_restarts_offset r = zlen pre + zlen buf -> (length l < fuel)%nat ->
  br_forEach_loop out fuel r (zlen pre) prev = Some l.
Proof.
  intros He. revert fuel pre.
  induction He as [prev|prev sh k v buf l Hs Ht Hf He IH]; intros fuel pre Hd Ho Hfu;
    (destruct fuel as [|fuel]; [simpl in Hfu; lia|]); cbn [br_forEach_loop].
  { rewrite zlen_nil, Z.add_0_r in Ho. by rewrite Ho, Z.ltb_irrefl. }
  destruct (br_entry_spec r pre sh k v buf post prev Hd Ho Hs Ht Hf) as (p & -> & Hv & Hp).
  pose proof (encodes_length _ _ _ (encodes_cons prev sh k v buf l Hs Ht Hf He)) as Hlen. simpl in Hlen, Hfu.
  replace (zlen pre <? br_restarts_offset r) with true by (rewrite Ho; unfold zlen in *; lia).
  simpl. rewrite Hv. simpl. rewrite Hp, (IH fuel); [done| | |lia].
  - by rewrite Hd, <- !app_assoc.
  - rewrite Ho, !zlen_app. lia.
Qed.

Lemma br_getByUserKey_loop_spec out fuel pre buf prev l uk :
  encodes prev buf l -> br_data r = pre ++ buf ++ post ->
  br_restarts_offset r = zlen pre + zlen buf -> (length l < fuel)%nat ->
  br_getByUserKey_loop out fuel r uk (zlen pre) prev = Some (mt_scan uk l).
Proof.
  intros He. revert fuel pre.
  induction He as [prev|prev sh k v buf l Hs Ht Hf He IH]; intros fuel pre Hd Ho Hfu;
    (destruct fuel as [|fuel]; [simpl in Hfu; lia|]); cbn [br_getByUserKey_loop].
  { rewrite zlen_nil, Z.add_0_r in Ho. by rewrite Ho, Z.ltb_irrefl. }
  destruct (br_entry_spec r pre sh k v buf post prev Hd Ho Hs Ht Hf) as (p & -> & Hv & Hp).
  pose proof (encodes_length _ _ _ (encodes_cons prev sh k v buf l Hs Ht Hf He)) as Hlen. simpl in Hlen, Hfu.
  replace (zlen pre <? br_restarts_offset r) with true by (rewrite Ho; unfold zlen in *; lia).
  simpl. destruct (Slice_compare _ _); [|rewrite Hp, (IH fuel); [done| | |lia]|done].
  - destruct (IsDeletion k); [done|]. by rewrite Hv.
  - by rewrite Hd, <- !app_assoc.
  - rewrite Ho, !zlen_app. lia.
Qed.
End OnEncoded.

(** A built block: its reader sees exactly the entries added. *)
Lemma br_forEach_built b l :
  bb_rep b l -> zlen (bb_finish b).2 < 2 ^ 32 ->
  br_forEach (BlockReader_new (bb_finish b).2) = Some l.
Proof.
  intros [He _] Hsz. simpl in *. rewrite BlockReader_new_spec by done.
  unfold br_forEach, br_fuel. change 0 with (zlen (@nil byte)).
  apply (br_forEach_loop_spec _ (bb_trailer (bb_restarts b)) _ _ [] (bb_buffer b)); simpl; [done..|].
  apply encodes_length in He. rewrite length_app. lia.
Qed.

Lemma br_getByUserKey_built b l uk :
  bb_rep b l -> zlen (bb_finish b).2 < 2 ^ 32 ->
  br_getByUserKey (BlockReader_new (bb_finish b).2) uk = Some (mt_scan uk l).
Proof.
  intros [He _] Hsz. simpl in *. rewrite BlockReader_new_spec by done.
  unfold br_getByUserKey, br_fuel. change 0 with (zlen (@nil byte)).
  apply (br_getByUserKey_loop_spec _ (bb_trailer (bb_restarts b)) _ _ [] (bb_buffer b)); simpl; [done..|].
  apply encodes_length in He. rewrite length_app. lia.
Qed.

(** C19: a block is a faithful container: whatever entries are added (any keys, any prefix
    sharing, any restart pattern), iterating over the finished block yields exactly these
    entries in order; and when they are sorted by internal key, [getByUserKey] returns the
    newest version of the user key, or nothing for an absent or deleted key. *)
Theorem block_roundtrip (block_size : Z) (l : list entry) :
  Forall fits l -> zlen (block_of block_size l) < 2 ^ 32 ->
  br_forEach (BlockReader_new (block_of block_size l)) = Some l /\
  (sl_wf l -> forall uk, br_getByUserKey (BlockReader_new (block_of block_size l)) uk = Some (visible uk l)).
Proof.
  intros Hf Hsz.
  pose proof (bb_rep_adds (BlockBuilder_new block_size) [] l (bb_rep_new _) Hf) as Hr. simpl in Hr.
  split; [by apply br_forEach_built|].
  intros Hwf uk. unfold block_of. rewrite (br_getByUserKey_built _ l) by done.
  by rewrite mt_scan_visible.
Qed.

Definition block_witness_entries : list entry :=
  [(mt_ikey (bs "k1") 5 true, bs ""); (mt_ikey (bs "k1") 2 false, bs "old"); (mt_ikey (bs "k2") 3 false, bs "two")].

Lemma block_roundtrip_witness :
  br_forEach (BlockReader_new (block_of 4096 block_witness_entries)) = Some block_witness_entries /\
  br_getByUserKey (BlockReader_new (block_of 4096 block_witness_entries)) (bs "k1") = Some None /\
  br_getByUserKey (BlockReader_new (block_of 4096 block_witness_entries)) (bs "k2") = Some (Some (bs "two")).
Proof.
  destruct (block_roundtrip 4096 block_witness_entries) as [H1 H2];
    [repeat constructor; vm_compute; reflexivity|vm_compute; reflexivity|].
  assert (sl_wf block_witness_entries) as Hwf.
  { split; [repeat constructor; vm_compute; lia|]. repeat constructor; vm_compute; reflexivity. }
  split; [exact H1|]. rewrite !(H2 Hwf). split; vm_compute; reflexivity.
Defined.

(** ** Arbitrary bytes

    On any input at all the loops stop: an entry moves the offset forward, so the fuel is
    never what ends a walk. *)

Lemma br_entry_progress r offset lastKey k p n :
  0 <= offset -> br_entry r offset lastKey = Some (Some (k, p, n)) -> offset + 3 <= p /\ 0 <= n.
Proof.
  intros Ho. unfold br_entry. destruct (_ >? _); [done|].
  set (buf := take _ _). clearbody buf.
  destruct (decodeVariant32 buf) as [[sh c1]|] eqn:E1; [|done].
  destruct (decodeVariant32 (drop _ buf)) as [[ns c2]|] eqn:E2; [|done].
  destruct (decodeVariant32 (drop (Z.to_nat (c1 + c2)) buf)) as [[vl c3]|] eqn:E3; [|done].
  destruct (read_n _ _); [|done]. simpl. intros [= <- <- <-].
  pose proof (decodeVariant32_nonneg _ _ _ E2). pose proof (decodeVariant32_nonneg _ _ _ E3).
  apply decodeVariant32_consumed in E1, E2, E3. lia.
Qed.

Lemma br_entry_limit r offset lastKey e :
  br_entry r offset lastKey = Some e -> br_restarts_offset r <= zlen (br_data r).
Proof. unfold br_entry. destruct (Z.gtb_spec (br_restarts_offset r) (zlen (br_data r))); [done|lia]. Qed.

(** One iteration: either the loop ends, or it goes on from an offset three bytes further
    with one unit of fuel less, so both fuels still exceed what is left. *)
Ltac fuel_step IH :=
  match goal with
  | |- context [br_entry ?r ?o ?k] =>
      let E := fresh in let L := fresh in
      destruct (br_entry r o k) as [[[[? ?] ?]|]|] eqn:E; simpl; try done;
      pose proof (br_entry_limit _ _ _ _ E) as L;
      apply br_entry_progress in E; [|lia]
  end.

Section Fuel.
Context (r : BlockReader).

Lemma br_forEach_loop_fuel out1 out2 f1 f2 offset lastKey :
  0 <= offset -> zlen (br_data r) - offset < Z.of_nat f1 -> zlen (br_data r) - offset < Z.of_nat f2 ->
  (0 < f1)%nat -> (0 < f2)%nat ->
  br_forEach_loop out1 f1 r offset lastKey = br_forEach_loop out2 f2 r offset lastKey.
Proof.
  revert f2 offset lastKey. induction f1 as [|f1 IH]; intros [|f2] offset lastKey Ho H1 H2 P1 P2; try lia.
  cbn [br_forEach_loop]. destruct (Z.ltb_spec offset (br_restarts_offset r)); [|done].
  fuel_step IH. destruct (br_value _ _ _); simpl; [|done]. by rewrite (IH f2) by lia.
Qed.

Lemma br_getByUserKey_loop_fuel out1 out2 f1 f2 uk offset lastKey :
  0 <= offset -> zlen (br_data r) - offset < Z.of_nat f1 -> zlen (br_data r) - offset < Z.of_nat f2 ->
  (0 < f1)%nat -> (0 < f2)%nat ->
  br_getByUserKey_loop out1 f1 r uk offset lastKey = br_getByUserKey_loop out2 f2 r uk offset lastKey.
Proof.
  revert f2 offset lastKey. induction f1 as [|f1 IH]; intros [|f2] offset lastKey Ho H1 H2 P1 P2; try lia.
  cbn [br_getByUserKey_loop]. destruct (Z.ltb_spec offset (br_restarts_offset r)); [|done].
  fuel_step IH. destruct (Slice_compare _ _); [done|apply IH; lia|done].
Qed.

Lemma br_get_loop_fuel out1 out2 f1 f2 key offset lastKey :
  0 <= offset -> zlen (br_data r) - offset < Z.of_nat f1 -> zlen (br_data r) - offset < Z.of_nat f2 ->
  (0 < f1)%nat -> (0 < f2)%nat ->
  br_get_loop out1 f1 r key offset lastKey = br_get_loop out2 f2 r key offset lastKey.
Proof.
  revert f2 offset lastKey. induction f1 as [|f1 IH]; intros [|f2] offset lastKey Ho H1 H2 P1 P2; try lia.
  cbn [br_get_loop]. destruct (Z.ltb_spec offset (br_restarts_offset r)); [|done].
  fuel_step IH. destruct (lex _ _); [done|apply IH; lia|done].
Qed.
End Fuel.


