(* ===== verification/Caches.v ===== *)
(** * Caches

    [utils/lru_cache.h] and [core/block_cache.h].  Both keep a [std::list] of entries, most
    recently used first, and an [unordered_map] from keys to list iterators.  A list node is
    a pair of its address and its entry, an iterator is the address, so that the coherence
    of the two containers is something to prove.  Each method is one critical section. *)

From Stdlib Require Import ZArith Lia.
From stdpp Require Import base numbers strings list gmap.
From S2P Require Import Prelude Slice.
Local Open Scope Z_scope.

(** ** A list indexed by a map of iterators *)

Section Linked.
Context {K : Type} `{Countable K} {V : Type}.
Implicit Types (l : list (nat * (K * V))) (m : gmap K nat) (k : K) (i : nat).

(** Dereferencing an iterator, erasing it, moving its node to the front. *)
Definition node_at i l : option (K * V) := snd <$> head (filter (fun n => n.1 = i) l).
Definition erase_node i l := filter (fun n => n.1 <> i) l.
Definition splice_front i l :=
  match node_at i l with
  | Some kv => (i, kv) :: erase_node i l
  | None => l
  end.

Record coherent l m (next : nat) : Prop := {
  co_ids : NoDup l.*1;
  co_next n : n ∈ l -> (n.1 < next)%nat;
  co_map k i : m !! k = Some i <-> exists v, (i, (k, v)) ∈ l;
}.

(** The entries a client sees, most recently used first. *)
Definition entries_of l : list (K * V) := snd <$> l.
Definition assoc k (e : list (K * V)) : option V := snd <$> head (filter (fun p => p.1 = k) e).
Definition without k (e : list (K * V)) : list (K * V) := filter (fun p => p.1 <> k) e.

Lemma id_unique l i x y : NoDup l.*1 -> (i, x) ∈ l -> (i, y) ∈ l -> x = y.
Proof.
  induction l as [|[j z] l IH]; simpl; [by intros _ ?%not_elem_of_nil|].
  intros [Hn Hd]%NoDup_cons [Hx|Hx]%elem_of_cons [Hy|Hy]%elem_of_cons; [congruence| | |by apply IH].
  - exfalso. apply Hn. apply list_elem_of_fmap. exists (i, y). simpl. naive_solver.
  - exfalso. apply Hn. apply list_elem_of_fmap. exists (i, x). simpl. naive_solver.
Qed.

Lemma node_at_Some l i kv : NoDup l.*1 -> (i, kv) ∈ l -> node_at i l = Some kv.
Proof.
  intros Hnd Hin. unfold node_at.
  destruct (head (filter (fun n => n.1 = i) l)) as [[j x]|] eqn:E.
  - apply head_Some_elem_of, list_elem_of_filter in E as [Hj Hx]. simpl in *. subst j.
    f_equal. by eapply id_unique.
  - assert ((i, kv) ∈ filter (fun n : nat * (K * V) => n.1 = i) l) as Hf by by apply list_elem_of_filter.
    destruct (filter _ l); [by apply not_elem_of_nil in Hf|done].
Qed.

Lemma key_unique l m next n1 n2 :
  coherent l m next -> n1 ∈ l -> n2 ∈ l -> n1.2.1 = n2.2.1 -> n1 = n2.
Proof.
  destruct n1 as [i [k v]], n2 as [j [k' v']]. simpl. intros Hc H1 H2 <-.
  assert (m !! k = Some i) as Hi by (apply (co_map _ _ _ Hc); eauto).
  assert (m !! k = Some j) as Hj by (apply (co_map _ _ _ Hc); eauto).
  assert (i = j) as -> by congruence. f_equal. eapply id_unique; [apply (co_ids _ _ _ Hc)|done..].
Qed.

Lemma elem_of_erase i l n : n ∈ erase_node i l <-> n ∈ l /\ n.1 <> i.
Proof. unfold erase_node. rewrite list_elem_of_filter. tauto. Qed.

Lemma erase_sublist i l : erase_node i l `sublist_of` l.
Proof. apply sublist_filter. Qed.

Lemma coherent_sub l l' m m' next :
  coherent l m next -> l' `sublist_of` l ->
  (forall k i, m' !! k = Some i <-> exists v, (i, (k, v)) ∈ l') -> coherent l' m' next.
Proof.
  intros Hc Hs Hm. split; [|intros n Hn|done].
  - eapply sublist_NoDup; [apply (co_ids _ _ _ Hc)|by apply fmap_sublist].
  - apply (co_next _ _ _ Hc). by eapply elem_of_sublist.
Qed.

Lemma coherent_erase l m next k i :
  coherent l m next -> m !! k = Some i -> coherent (erase_node i l) (delete k m) next.
Proof.
  intros Hc Hk. apply (coherent_sub _ _ _ _ _ Hc (erase_sublist i l)). intros k' j.
  rewrite lookup_delete_Some, (co_map _ _ _ Hc).
  apply (co_map _ _ _ Hc) in Hk as [v Hv]. split.
  - intros [Hne [v' Hin]]. exists v'. apply elem_of_erase. split; [done|]. simpl. intros ->.
    apply Hne. pose proof (id_unique _ _ _ _ (co_ids _ _ _ Hc) Hv Hin). congruence.
  - intros [v' [Hin Hne]%elem_of_erase]. simpl in Hne. split; [|by eexists]. intros <-.
    apply Hne. by pose proof (key_unique _ _ _ _ _ Hc Hv Hin eq_refl) as [= <- _].
Qed.

Lemma coherent_pop l m next i k v :
  coherent (l ++ [(i, (k, v))]) m next -> coherent l (delete k m) next.
Proof.
  intros Hc. assert (m !! k = Some i) as Hk.
  { apply (co_map _ _ _ Hc). exists v. apply elem_of_app. right. by left. }
  pose proof (coherent_erase _ _ _ _ _ Hc Hk) as Hc'.
  enough (erase_node i (l ++ [(i, (k, v))]) = l) as Heq by by rewrite Heq in Hc'.
  unfold erase_node. rewrite filter_app, filter_cons_False, filter_nil, app_nil_r by (simpl; tauto).
  apply filter_all. intros [j x] Hx Hj. simpl in *. subst j.
  pose proof (co_ids _ _ _ Hc) as Hnd. rewrite fmap_app in Hnd.
  apply NoDup_app in Hnd as (_ & Hd & _). apply (Hd i); [|by left].
  apply list_elem_of_fmap. by exists (i, x).
Qed.

Lemma coherent_push l m next k v :
  coherent l m next -> m !! k = None -> coherent ((next, (k, v)) :: l) (<[k := next]> m) (S next).
Proof.
  intros Hc Hk. split.
  - simpl. apply NoDup_cons. split; [|apply (co_ids _ _ _ Hc)].
    intros (n & Hn & Hin)%list_elem_of_fmap. pose proof (co_next _ _ _ Hc n Hin). lia.
  - intros n [->|Hn]%elem_of_cons; simpl; [lia|]. pose proof (co_next _ _ _ Hc n Hn). lia.
  - intros k' j. rewrite lookup_insert_Some, (co_map _ _ _ Hc). split.
    + intros [[-> ->]|[Hne [v' Hin]]]; [exists v; by left|exists v'; by right].
    + intros [v' [Heq|Hin]%elem_of_cons]; [left; by simplify_eq|right].
      split; [|by eexists]. intros ->.
      assert (m !! k' = Some j) by (apply (co_map _ _ _ Hc); by eexists). congruence.
Qed.

Lemma coherent_lookup l m next k :
  coherent l m next ->
  match m !! k with
  | Some i => exists v, node_at i l = Some (k, v) /\ assoc k (entries_of l) = Some v /\
                        entries_of (erase_node i l) = without k (entries_of l)
  | None => assoc k (entries_of l) = None /\ without k (entries_of l) = entries_of l
  end.
Proof.
  intros Hc. destruct (m !! k) as [i|] eqn:Hk.
  - pose proof Hk as Hk'. apply (co_map _ _ _ Hc) in Hk' as [v Hv]. exists v.
    split; [by apply node_at_Some; [apply (co_ids _ _ _ Hc)|]|].
    assert (forall n, n ∈ l -> n.1 = i <-> n.2.1 = k) as Hiff.
    { intros [j [k' v']] Hn. simpl. split; intros ->.
      - pose proof (id_unique _ _ _ _ (co_ids _ _ _ Hc) Hv Hn). congruence.
      - by pose proof (key_unique _ _ _ _ _ Hc Hv Hn eq_refl) as [= <- _]. }
    assert (entries_of (erase_node i l) = without k (entries_of l)) as ->.
    { unfold erase_node, without, entries_of. clear -Hiff.
      induction l as [|n l IH]; [done|]. rewrite fmap_cons, !filter_cons.
      pose proof (Hiff n ltac:(left)) as Hn. rewrite <- IH by (intros n' Hn'; apply Hiff; by right).
      case_decide; case_decide; simpl; tauto. }
    split; [|done]. unfold assoc.
    destruct (head (filter (fun p => p.1 = k) (entries_of l))) as [[k' v']|] eqn:E.
    + apply head_Some_elem_of, list_elem_of_filter in E as [Hk2 Hin]. simpl in *. subst k'.
      apply list_elem_of_fmap in Hin as ([j [k2 v2]] & Heq & Hin). simpl in Heq. simplify_eq.
      by pose proof (key_unique _ _ _ _ _ Hc Hv Hin eq_refl) as [= _ <-].
    + assert ((k, v) ∈ filter (fun p : K * V => p.1 = k) (entries_of l)) as Hf.
      { apply list_elem_of_filter. split; [done|]. apply list_elem_of_fmap. by exists (i, (k, v)). }
      destruct (filter _ (entries_of l)); [by apply not_elem_of_nil in Hf|done].
  - assert (forall p, p ∈ entries_of l -> p.1 <> k) as Hn.
    { intros p ([j [k' v']] & -> & Hin)%list_elem_of_fmap. simpl. intros ->.
      assert (m !! k = Some j) by (apply (co_map _ _ _ Hc); by eexists). congruence. }
    unfold assoc, without. split; [by rewrite filter_none|by apply filter_all].
Qed.

Lemma coherent_splice l m next k i :
  coherent l m next -> m !! k = Some i -> coherent (splice_front i l) m next.
Proof.
  intros Hc Hk. pose proof (coherent_lookup _ _ _ k Hc) as Hl. rewrite Hk in Hl.
  destruct Hl as (v & Hn & _). unfold splice_front. rewrite Hn.
  apply (co_map _ _ _ Hc) in Hk as [v' Hv'].
  assert (forall n, n ∈ (i, (k, v)) :: erase_node i l <-> n ∈ l) as Hel.
  { assert (v' = v) as ->.
    { rewrite (node_at_Some _ _ _ (co_ids _ _ _ Hc) Hv') in Hn. congruence. }
    intros n. rewrite elem_of_cons, elem_of_erase. split; [naive_solver|]. intros Hin.
    destruct (decide (n.1 = i)) as [Hi|]; [left|by right]. destruct n as [j x]. simpl in Hi. subst j.
    by rewrite (id_unique _ _ _ _ (co_ids _ _ _ Hc) Hin Hv'). }
  split.
  - simpl. apply NoDup_cons. split.
    + intros (n & Hi & Hin%elem_of_erase)%list_elem_of_fmap. naive_solver.
    + eapply sublist_NoDup; [apply (co_ids _ _ _ Hc)|]. apply fmap_sublist, erase_sublist.
  - intros n Hin%Hel. by apply (co_next _ _ _ Hc).
  - intros k' j. rewrite (co_map _ _ _ Hc). by setoid_rewrite Hel.
Qed.

Lemma coherent_size l m next : coherent l m next -> size m = length l.
Proof.
  intros Hc. revert m Hc. induction l as [|[i [k v]] l IH] using rev_ind; intros m Hc.
  - replace m with (∅ : gmap K nat); [by rewrite map_size_empty|]. symmetry. apply map_empty.
    intros k. destruct (m !! k) as [i|] eqn:E; [|done].
    apply (co_map _ _ _ Hc) in E as [v Hv%not_elem_of_nil]. done.
  - assert (m !! k = Some i) as Hk.
    { apply (co_map _ _ _ Hc). exists v. apply elem_of_app. right. by left. }
    pose proof (IH _ (coherent_pop _ _ _ _ _ _ Hc)) as Hs.
    rewrite map_size_delete_Some in Hs by by eexists.
    assert (m <> ∅) as Hne%map_size_non_empty_iff by (intros ->; by rewrite lookup_empty in Hk).
    rewrite length_app. simpl. lia.
Qed.
End Linked.

(** ** LRUCache *)

Module LRU.
Section LRU.
Context {K : Type} `{Countable K} {V : Type}.

Record LRUCache := mkLRU {
  capacity : Z;
  list_ : list (nat * (K * V));
  map_ : gmap K nat;
  next_node : nat;   (* the address of the next list node *)
}.

Definition LRUCache_new (cap : Z) : LRUCache := mkLRU cap [] ∅ 0.

Definition get (c : LRUCache) (key : K) : LRUCache * option V :=
  match map_ c !! key with
  | None => (c, None)
  | Some it =>
      let l := splice_front it (list_ c) in
      (mkLRU (capacity c) l (map_ c) (next_node c), snd <$> node_at it l)
  end.

(** [map_.erase(last->first); list_.pop_back();] *)
Definition evict_last (l : list (nat * (K * V))) (m : gmap K nat) :=
  match last l with
  | Some n => (removelast l, delete n.2.1 m)
  | None => (l, m)
  end.

Definition put (c : LRUCache) (key : K) (value : V) : LRUCache :=
  let l := match map_ c !! key with
           | Some it => erase_node it (list_ c)
           | None => list_ c
           end in
  let l := (next_node c, (key, value)) :: l in
  let m := <[key := next_node c]> (map_ c) in
  let '(l, m) := if Z.of_nat (size m) >? capacity c then evict_last l m else (l, m) in
  mkLRU (capacity c) l m (S (next_node c)).

Definition erase (c : LRUCache) (key : K) : LRUCache :=
  match map_ c !! key with
  | Some it => mkLRU (capacity c) (erase_node it (list_ c)) (delete key (map_ c)) (next_node c)
  | None => c
  end.

Definition size (c : LRUCache) : Z := Z.of_nat (base.size (map_ c)).

(** The specification: a list of pairs, most recently used first, cut at the capacity. *)
Definition spec_get (e : list (K * V)) (k : K) : list (K * V) * option V :=
  match assoc k e with
  | Some v => ((k, v) :: without k e, Some v)
  | None => (e, None)
  end.
Definition spec_put (cap : Z) (e : list (K * V)) (k : K) (v : V) : list (K * V) :=
  take (Z.to_nat cap) ((k, v) :: without k e).

Inductive op := Get (k : K) | Put (k : K) (v : V) | Erase (k : K).

Definition step (c : LRUCache) (o : op) : LRUCache * option V :=
  match o with
  | Get k => get c k
  | Put k v => (put c k v, None)
  | Erase k => (erase c k, None)
  end.

Definition spec_step (cap : Z) (e : list (K * V)) (o : op) : list (K * V) * option V :=
  match o with
  | Get k => spec_get e k
  | Put k v => (spec_put cap e k v, None)
  | Erase k => (without k e, None)
  end.

Fixpoint run (c : LRUCache) (os : list op) : LRUCache * list (option V) :=
  match os with
  | [] => (c, [])
  | o :: os => let '(c, r) := step c o in let '(c, rs) := run c os in (c, r :: rs)
  end.

Fixpoint spec_run (cap : Z) (e : list (K * V)) (os : list op) : list (K * V) * list (option V) :=
  match os with
  | [] => (e, [])
  | o :: os => let '(e, r) := spec_step cap e o in let '(e, rs) := spec_run cap e os in (e, r :: rs)
  end.

Record rep (cap : Z) (c : LRUCache) (e : list (K * V)) : Prop := {
  r_cap : capacity c = cap;
  r_coherent : coherent (list_ c) (map_ c) (next_node c);
  r_entries : entries_of (list_ c) = e;
  r_bound : Z.of_nat (length e) <= cap;
}.

Lemma length_without k (e : list (K * V)) : (length (without k e) <= length e)%nat.
Proof. apply length_filter. Qed.

Lemma removelast_take {A} (l : list A) : removelast l = take (length l - 1) l.
Proof.
  induction l as [|x l IH] using rev_ind; [done|].
  rewrite removelast_last, length_app. simpl. rewrite Nat.add_sub, take_app_length. done.
Qed.

Lemma evict_last_spec l m next :
  coherent l m next -> l <> [] ->
  let '(l', m') := evict_last l m in
  coherent l' m' next /\ entries_of l' = take (length l - 1) (entries_of l).
Proof.
  intros Hc Hne. unfold evict_last.
  destruct (last l) as [[i [k v]]|] eqn:E; [|by apply last_None in E].
  apply last_Some in E as [l' ->]. rewrite removelast_last.
  split; [by apply coherent_pop in Hc|]. unfold entries_of.
  rewrite length_app, fmap_app. simpl. rewrite Nat.add_sub, take_app_exact; [done|apply length_fmap].
Qed.

Lemma get_refines cap c e k :
  rep cap c e -> rep cap (get c k).1 (spec_get e k).1 /\ (get c k).2 = (spec_get e k).2.
Proof.
  intros [Hcap Hc He Hb].
  unfold get, spec_get. pose proof (coherent_lookup _ _ _ k Hc) as Hl. rewrite He in Hl.
  destruct (map_ c !! k) as [i|] eqn:Hk; [|by destruct Hl as [-> _]].
  destruct Hl as (v & Hn & -> & Hw). unfold splice_front. rewrite Hn. simpl.
  pose proof (coherent_splice _ _ _ _ _ Hc Hk) as Hs. unfold splice_front in Hs. rewrite Hn in Hs.
  rewrite (node_at_Some _ i (k, v)); [|apply (co_ids _ _ _ Hs)|by left].
  split; [|done]. split; simpl; [done|done| |].
  + unfold entries_of in *. simpl. by rewrite Hw.
  + assert (assoc k e <> None) as Ha.
    { pose proof (coherent_lookup _ _ _ k Hc) as Hl'. rewrite Hk, He in Hl'.
      destruct Hl' as (? & _ & -> & _). done. }
    rewrite <- Hw. unfold entries_of. rewrite length_fmap.
    rewrite <- He in Hb. unfold entries_of in Hb. rewrite length_fmap in Hb.
    pose proof (coherent_size _ _ _ Hs) as H1. pose proof (coherent_size _ _ _ Hc) as H2.
    simpl in H1. lia.
Qed.

Lemma put_refines cap c e k v : rep cap c e -> rep cap (put c k v) (spec_put cap e k v).
Proof.
  intros [Hcap Hc He Hb].
  unfold put, spec_put. pose proof (coherent_lookup _ _ _ k Hc) as Hl. rewrite He in Hl.
  set (l := match map_ c !! k with Some it => erase_node it (list_ c) | None => list_ c end).
  assert (coherent l (delete k (map_ c)) (next_node c) /\ entries_of l = without k e) as [Hcl Hel].
  { subst l. destruct (map_ c !! k) as [i|] eqn:Hk.
    - split; [by apply coherent_erase|by destruct Hl as (? & _ & _ & ->)].
    - rewrite delete_id by done. split; [done|]. by destruct Hl as [_ ->]. }
  clearbody l. apply (coherent_push _ _ _ k v) in Hcl; [|apply lookup_delete_eq].
  rewrite insert_delete_eq in Hcl. pose proof (coherent_size _ _ _ Hcl) as Hsz. rewrite Hsz.
  assert (length l = length (without k e)) as Hll by (rewrite <- Hel; unfold entries_of; by rewrite length_fmap).
  pose proof (length_without k e) as Hw.
  destruct (Z.gtb_spec (Z.of_nat (length ((next_node c, (k, v)) :: l))) (capacity c)) as [Hgt|Hle]; simpl in *.
  + pose proof (evict_last_spec _ _ _ Hcl ltac:(done)) as Hev.
    destruct (evict_last _ _) as [l' m']. destruct Hev as [Hc' He'].
    assert (Z.to_nat cap = length l) as -> by lia.
    split; simpl; [done|done| |].
    * rewrite He'. simpl. rewrite Nat.sub_0_r. unfold entries_of in *. simpl. by rewrite Hel.
    * rewrite length_take. simpl. lia.
  + split; simpl; [done|done| |].
    * unfold entries_of in *. simpl. rewrite Hel. symmetry. apply take_ge. simpl. lia.
    * rewrite length_take. simpl. lia.
Qed.

Lemma erase_refines cap c e k : rep cap c e -> rep cap (erase c k) (without k e).
Proof.
  intros [Hcap Hc He Hb].
  unfold erase. pose proof (coherent_lookup _ _ _ k Hc) as Hl. rewrite He in Hl.
  pose proof (length_without k e). destruct (map_ c !! k) as [i|] eqn:Hk.
  + destruct Hl as (v & _ & _ & Hw).
    split; simpl; [done|by apply coherent_erase|done|lia].
  + destruct Hl as [_ Hw]. rewrite Hw. done.
Qed.

Lemma step_refines cap c e o :
  rep cap c e ->
  rep cap (step c o).1 (spec_step cap e o).1 /\ (step c o).2 = (spec_step cap e o).2.
Proof.
  intros Hr. destruct o as [k|k v|k]; simpl.
  - by apply get_refines.
  - split; [by apply put_refines|done].
  - split; [by apply erase_refines|done].
Qed.

Lemma rep_new cap : 0 <= cap -> rep cap (LRUCache_new cap) [].
Proof.
  intros Hcap. split; [done| |done|done]. split; simpl; [constructor|set_solver|].
  intros k i. rewrite lookup_empty. split; [done|]. by intros [v Hv%not_elem_of_nil].
Qed.
End LRU.
Arguments LRUCache K {_ _} V.
End LRU.

(** The LRU cache refines its specification: over any sequence of gets, puts and
    erases, its answers and its contents are those of a list ordered by recency and cut at
    the capacity, its list and its map stay coherent, and it never holds more entries than
    its capacity. *)
Theorem lru_cache_refines {K V} `{Countable K} (cap : Z) (os : list (@LRU.op K V)) :
  0 <= cap ->
  let '(c, rs) := LRU.run (LRU.LRUCache_new cap) os in
  let '(e, rs') := LRU.spec_run cap [] os in
  rs = rs' /\ entries_of (LRU.list_ c) = e /\ LRU.size c = Z.of_nat (length e) /\ LRU.size c <= cap.
Proof.
  intros Hcap. enough (forall c e, LRU.rep cap c e ->
    LRU.rep cap (LRU.run c os).1 (LRU.spec_run cap e os).1 /\
    (LRU.run c os).2 = (LRU.spec_run cap e os).2) as Hrun.
  { destruct (Hrun _ _ (LRU.rep_new cap Hcap)) as [[H1 H2 H3 H4] Heq].
    destruct (LRU.run _ os) as [c rs], (LRU.spec_run cap [] os) as [e rs']. simpl in *.
    unfold LRU.size. rewrite (coherent_size _ _ _ H2), <- H3. unfold entries_of in *.
    rewrite length_fmap. rewrite <- H3, length_fmap in H4. auto. }
  induction os as [|o os IH]; intros c e Hr; [done|]. simpl.
  destruct (LRU.step_refines cap c e o Hr) as [Hr1 Heq].
  destruct (LRU.step c o) as [c1 r1], (LRU.spec_step cap e o) as [e1 r1']. simpl in *.
  destruct (IH c1 e1 Hr1) as [Hr2 Heq2].
  destruct (LRU.run c1 os), (LRU.spec_run cap e1 os). simpl in *. split; [done|congruence].
Qed.

Lemma lru_cache_refines_witness :
  let os := [LRU.Put 1 10; LRU.Put 2 20; LRU.Get 1; LRU.Put 3 30; LRU.Get 2; LRU.Get 1] in
  0 <= 2 /\ (LRU.run (LRU.LRUCache_new 2) os).2 = (LRU.spec_run 2 [] os).2 /\
  (LRU.run (LRU.LRUCache_new 2) os).2 = [None; None; Some 10; None; None; Some 10].
Proof.
  set (os := [LRU.Put 1 10; LRU.Put 2 20; LRU.Get 1; LRU.Put 3 30; LRU.Get 2; LRU.Get 1]).
  split; [lia|]. split; [|vm_compute; reflexivity].
  pose proof (lru_cache_refines 2 os ltac:(lia)) as Hr.
  destruct (LRU.run (LRU.LRUCache_new 2) os), (LRU.spec_run 2 [] os). apply Hr.
Defined.

(** ** BlockCache *)

Definition BlockCacheKey : Type := bytes * Z.

Record CacheEntry := mkCE { ce_data : bytes; ce_size : Z }.

Record BlockCache := mkBC {
  bc_capacity : Z;
  bc_used : Z;
  bc_list : list (nat * (BlockCacheKey * CacheEntry));
  bc_map : gmap BlockCacheKey nat;
  bc_next : nat;
}.

Definition BlockCache_new (capacity_bytes : Z) : BlockCache := mkBC capacity_bytes 0 [] ∅ 0.

Definition bc_get (c : BlockCache) (key : BlockCacheKey) : BlockCache * option bytes :=
  match bc_map c !! key with
  | None => (c, None)
  | Some it =>
      let l := splice_front it (bc_list c) in
      (mkBC (bc_capacity c) (bc_used c) l (bc_map c) (bc_next c), ce_data ∘ snd <$> node_at it l)
  end.

(** [while (used_bytes_ > capacity_bytes_ && !list_.empty()) ...] *)
Fixpoint bc_evict (fuel : nat) (c : BlockCache) : BlockCache :=
  match fuel with
  | O => c
  | S fuel =>
      if bc_used c >? bc_capacity c then
        match last (bc_list c) with
        | Some n => bc_evict fuel (mkBC (bc_capacity c) (u64 (bc_used c - ce_size n.2.2))
                                        (removelast (bc_list c)) (delete n.2.1 (bc_map c)) (bc_next c))
        | None => c
        end
      else c
  end.

Definition bc_put (c : BlockCache) (key : BlockCacheKey) (data : bytes) : BlockCache :=
  let sz := zlen data in
  let '(used, l, m) :=
    match bc_map c !! key with
    | Some it =>
        (u64 (bc_used c - default 0 (zlen ∘ ce_data ∘ snd <$> node_at it (bc_list c))),
         erase_node it (bc_list c), delete key (bc_map c))
    | None => (bc_used c, bc_list c, bc_map c)
    end in
  let l := (bc_next c, (key, mkCE data sz)) :: l in
  bc_evict (length l)
    (mkBC (bc_capacity c) (u64 (used + sz)) l (<[key := bc_next c]> m) (S (bc_next c))).

(** The loop of [invalidatePath], over the nodes from the iterator on. *)
Fixpoint bc_invalidate_loop (path : bytes) (nodes : list (nat * (BlockCacheKey * CacheEntry)))
  (c : BlockCache) : BlockCache :=
  match nodes with
  | [] => c
  | (i, (k, e)) :: nodes =>
      bc_invalidate_loop path nodes
        (if decide (k.1 = path)
         then mkBC (bc_capacity c) (u64 (bc_used c - ce_size e)) (erase_node i (bc_list c))
                   (delete k (bc_map c)) (bc_next c)
         else c)
  end.

Definition bc_invalidatePath (c : BlockCache) (path : bytes) : BlockCache :=
  bc_invalidate_loop path (bc_list c) c.

Definition bc_usedBytes (c : BlockCache) : Z := bc_used c.
Definition bc_entryCount (c : BlockCache) : Z := Z.of_nat (size (bc_map c)).

(** The specification: blocks by recency; the longest prefix that fits is kept. *)
Abbreviation cached := (BlockCacheKey * bytes)%type.

Definition total (e : list cached) : Z := foldr (fun p a => zlen p.2 + a) 0 e.

Fixpoint keep (cap : Z) (e : list cached) : list cached :=
  match e with
  | [] => []
  | p :: e => if zlen p.2 <=? cap then p :: keep (cap - zlen p.2) e else []
  end.

Lemma total_app e1 e2 : total (e1 ++ e2) = total e1 + total e2.
Proof. induction e1 as [|p e1 IH]; simpl; [done|]. rewrite IH. lia. Qed.

Lemma total_nonneg e : 0 <= total e.
Proof. induction e as [|p e IH]; simpl; [done|]. pose proof (zlen_nonneg p.2). lia. Qed.

Lemma keep_all cap e : total e <= cap -> keep cap e = e.
Proof.
  revert cap. induction e as [|p e IH]; intros cap Ht; simpl in *; [done|].
  pose proof (total_nonneg e). replace (zlen p.2 <=? cap) with true by lia. rewrite IH by lia. done.
Qed.

Lemma keep_drop_last cap e x : cap < total (e ++ [x]) -> keep cap (e ++ [x]) = keep cap e.
Proof.
  revert cap. induction e as [|p e IH]; intros cap Ht; simpl in *.
  - by replace (zlen x.2 <=? cap) with false by lia.
  - destruct (zlen p.2 <=? cap); [|done]. by rewrite IH by lia.
Qed.

Lemma keep_prefix cap e : keep cap e `prefix_of` e.
Proof.
  revert cap. induction e as [|p e IH]; intros cap; simpl; [done|].
  destruct (_ <=? _); [by apply prefix_cons|apply prefix_nil].
Qed.

Lemma keep_total cap e : 0 <= cap -> total (keep cap e) <= cap.
Proof.
  revert cap. induction e as [|p e IH]; intros cap Hc; simpl; [done|].
  destruct (Z.leb_spec (zlen p.2) cap); simpl; [|done]. specialize (IH (cap - zlen p.2)). lia.
Qed.

Definition view_of (l : list (nat * (BlockCacheKey * CacheEntry))) : list cached :=
  (fun n => (n.2.1, ce_data n.2.2)) <$> l.

#[local] Arguments view_of : simpl never.

Lemma view_of_cons n l : view_of (n :: l) = (n.2.1, ce_data n.2.2) :: view_of l.
Proof. done. Qed.

(** The part of the invariant that holds between the insertion and the eviction too. *)
Record bc_rep0 (c : BlockCache) (e : list cached) : Prop := {
  bc_co : coherent (bc_list c) (bc_map c) (bc_next c);
  bc_sizes n : n ∈ bc_list c -> ce_size n.2.2 = zlen (ce_data n.2.2);
  bc_view : view_of (bc_list c) = e;
  bc_total : bc_used c = total e;
  bc_cap : 0 <= bc_capacity c < 2 ^ 64;
}.

Record bc_rep (c : BlockCache) (e : list cached) : Prop := {
  bc_inner : bc_rep0 c e;
  bc_fit : total e <= bc_capacity c;
}.

Lemma bc_rep_new cap : 0 <= cap < 2 ^ 64 -> bc_rep (BlockCache_new cap) [].
Proof.
  intros Hcap. split; [|simpl; lia]. split; simpl; [|set_solver|done|done|lia].
  split; simpl; [constructor|set_solver|].
  intros k i. rewrite lookup_empty. split; [done|]. by intros [v Hv%not_elem_of_nil].
Qed.

Lemma bc_evict_spec fuel c e :
  bc_rep0 c e -> (length e <= fuel)%nat -> total e < 2 ^ 64 ->
  bc_rep (bc_evict fuel c) (keep (bc_capacity c) e) /\ bc_capacity (bc_evict fuel c) = bc_capacity c.
Proof.
  revert c e. induction fuel as [|fuel IH]; intros c e Hr Hf Ht; cbn [bc_evict].
  { destruct e; [|simpl in Hf; lia]. split; [|done]. split; [done|]. simpl. apply (bc_cap _ _ Hr). }
  pose proof (bc_cap _ _ Hr) as Hcap. rewrite (bc_total _ _ Hr).
  destruct (Z.gtb_spec (total e) (bc_capacity c)) as [Hgt|Hle].
  2:{ rewrite keep_all by lia. split; [|done]. split; [done|lia]. }
  destruct (last (bc_list c)) as [[i [k x]]|] eqn:E.
  2:{ apply last_None in E. rewrite <- (bc_view _ _ Hr), E in Hgt. simpl in Hgt. lia. }
  apply last_Some in E as [l El]. simpl.
  pose proof (bc_view _ _ Hr) as Hv. rewrite El in Hv. unfold view_of in Hv.
  rewrite fmap_app in Hv. simpl in Hv. subst e.
  assert (ce_size x = zlen (ce_data x)) as Hx.
  { apply (bc_sizes _ _ Hr (i, (k, x))). rewrite El. apply elem_of_app. right. by left. }
  rewrite keep_drop_last by done. rewrite total_app in Hgt, Ht |- *. simpl in Hgt, Ht |- *.
  fold (view_of l) in *. pose proof (total_nonneg (view_of l)). pose proof (zlen_nonneg (ce_data x)).
  rewrite El, removelast_last, Hx. rewrite length_app in Hf. simpl in Hf.
  rewrite u64_small by lia.
  destruct (IH (mkBC (bc_capacity c) (total (view_of l) + (zlen (ce_data x) + 0) - zlen (ce_data x)) l
                     (delete k (bc_map c)) (bc_next c)) (view_of l)) as [HA HB]; [|lia|lia|split; done].
  split; simpl; [|intros n Hn; apply (bc_sizes _ _ Hr); rewrite El; apply elem_of_app; by left
                 |done|lia|done].
  pose proof (bc_co _ _ Hr) as Hc. rewrite El in Hc. by apply coherent_pop in Hc.
Qed.

Lemma view_entries l : view_of l = (fun p => (p.1, ce_data p.2)) <$> entries_of l.
Proof. unfold view_of, entries_of. by rewrite <- list_fmap_compose. Qed.

Lemma assoc_fmap {K V W} `{EqDecision K} (f : V -> W) (k : K) (e : list (K * V)) :
  assoc k ((fun p => (p.1, f p.2)) <$> e) = f <$> assoc k e.
Proof.
  unfold assoc. induction e as [|[k' v] e IH]; [done|]. rewrite fmap_cons, !filter_cons. simpl.
  by case_decide.
Qed.

Lemma without_fmap {K V W} `{EqDecision K} (f : V -> W) (k : K) (e : list (K * V)) :
  without k ((fun p => (p.1, f p.2)) <$> e) = (fun p => (p.1, f p.2)) <$> without k e.
Proof.
  unfold without. induction e as [|[k' v] e IH]; [done|]. rewrite fmap_cons, !filter_cons. simpl.
  case_decide; [|done]. rewrite fmap_cons. by rewrite IH.
Qed.

Lemma bc_lookup_spec c e k :
  bc_rep0 c e ->
  match bc_map c !! k with
  | Some i => exists x, node_at i (bc_list c) = Some (k, x) /\ assoc k e = Some (ce_data x) /\
                        view_of (erase_node i (bc_list c)) = without k e
  | None => assoc k e = None /\ without k e = e
  end.
Proof.
  intros Hr. pose proof (coherent_lookup _ _ _ k (bc_co _ _ Hr)) as Hl.
  rewrite <- (bc_view _ _ Hr), !view_entries, assoc_fmap, without_fmap.
  destruct (bc_map c !! k) as [i|].
  - destruct Hl as (x & Hn & Ha & Hw). exists x. rewrite Ha, <- Hw, <- view_entries. done.
  - destruct Hl as [-> ->]. done.
Qed.

Lemma total_without k e x : assoc k e = Some x -> NoDup e.*1 -> total e = zlen x + total (without k e).
Proof.
  unfold assoc, without. induction e as [|[k' v] e IH]; [done|]. rewrite !filter_cons. simpl.
  case_decide as Hd.
  - simpl in Hd. subst k'. intros [= ->] [Hn _]%NoDup_cons. rewrite decide_False by (simpl; tauto).
    rewrite filter_all; [done|]. intros p Hp <-. apply Hn. by apply list_elem_of_fmap_2.
  - intros Ha [_ Hnd]%NoDup_cons. rewrite decide_True by done. simpl. rewrite IH by done. lia.
Qed.

Lemma bc_rep_keys c e : bc_rep0 c e -> NoDup e.*1.
Proof.
  intros Hr. rewrite <- (bc_view _ _ Hr). unfold view_of. rewrite <- list_fmap_compose.
  pose proof (bc_co _ _ Hr) as Hc. apply NoDup_fmap_2_strong.
  - intros n1 n2 H1 H2 Heq. simpl in Heq. by eapply key_unique.
  - by eapply NoDup_fmap_1, (co_ids _ _ _ Hc).
Qed.

Lemma bc_get_refines c e k :
  bc_rep c e ->
  (bc_get c k).2 = assoc k e /\ bc_capacity (bc_get c k).1 = bc_capacity c /\
  bc_rep (bc_get c k).1 (match assoc k e with Some d => (k, d) :: without k e | None => e end).
Proof.
  intros [Hr Hf]. unfold bc_get. pose proof (bc_lookup_spec c e k Hr) as Hl.
  destruct (bc_map c !! k) as [i|] eqn:Hk; [|by destruct Hl as [-> _]].
  destruct Hl as (x & Hn & Ha & Hw). rewrite Ha.
  pose proof (coherent_splice _ _ _ _ _ (bc_co _ _ Hr) Hk) as Hs. unfold splice_front in *.
  rewrite Hn in *. rewrite (node_at_Some _ i (k, x)); [|apply (co_ids _ _ _ Hs)|by left].
  split; [done|]. split; [done|]. pose proof (total_without _ _ _ Ha (bc_rep_keys _ _ Hr)) as Ht.
  split; [|simpl; lia]. split; simpl; [done| | |rewrite (bc_total _ _ Hr); lia|apply (bc_cap _ _ Hr)].
  - intros n Hin. apply (bc_sizes _ _ Hr).
    apply elem_of_cons in Hin as [->|Hin]; [|by apply elem_of_erase in Hin as [? _]].
    apply (co_map _ _ _ (bc_co _ _ Hr)) in Hk as [x' Hx'].
    rewrite (node_at_Some _ _ _ (co_ids _ _ _ (bc_co _ _ Hr)) Hx') in Hn. by simplify_eq.
  - rewrite view_of_cons, Hw. done.
Qed.

Lemma bc_put_refines c e k d :
  bc_rep c e -> bc_capacity c + zlen d < 2 ^ 64 ->
  bc_rep (bc_put c k d) (keep (bc_capacity c) ((k, d) :: without k e)) /\
  bc_capacity (bc_put c k d) = bc_capacity c.
Proof.
  intros [Hr Hf] Hd. unfold bc_put. pose proof (bc_lookup_spec c e k Hr) as Hl.
  pose proof (bc_cap _ _ Hr). pose proof (zlen_nonneg d). pose proof (total_nonneg (without k e)).
  set (t := match bc_map c !! k with Some it => _ | None => _ end).
  assert (exists l, t = (total (without k e), l, delete k (bc_map c)) /\
    coherent l (delete k (bc_map c)) (bc_next c) /\ view_of l = without k e /\
    (forall n, n ∈ l -> n ∈ bc_list c) /\ total (without k e) <= bc_capacity c) as (l & -> & Hc & Hv & Hin & Ht).
  { subst t. rewrite (bc_total _ _ Hr). destruct (bc_map c !! k) as [i|] eqn:Hk.
    - destruct Hl as (x & Hn & Ha & Hw). rewrite Hn. simpl.
      pose proof (total_without _ _ _ Ha (bc_rep_keys _ _ Hr)) as Ht. pose proof (zlen_nonneg (ce_data x)).
      exists (erase_node i (bc_list c)). rewrite u64_small by lia.
      split; [do 2 f_equal; lia|]. split; [by apply coherent_erase; [apply (bc_co _ _ Hr)|]|].
      split; [done|]. split; [by intros n [? _]%elem_of_erase|lia].
    - destruct Hl as [_ Hw]. exists (bc_list c). rewrite delete_id, Hw by done.
      split; [done|]. split; [apply (bc_co _ _ Hr)|]. split; [apply (bc_view _ _ Hr)|]. split; [done|lia]. }
  destruct (bc_evict_spec (length ((bc_next c, (k, mkCE d (zlen d))) :: l))
    (mkBC (bc_capacity c) (u64 (total (without k e) + zlen d)) ((bc_next c, (k, mkCE d (zlen d))) :: l)
          (<[k := bc_next c]> (delete k (bc_map c))) (S (bc_next c))) ((k, d) :: without k e)) as [HA HB].
  - split; simpl; [| | |rewrite u64_small; lia|lia].
    + apply coherent_push; [done|apply lookup_delete_eq].
    + intros n [->|Hn]%elem_of_cons; [done|]. by apply (bc_sizes _ _ Hr), Hin.
    + rewrite view_of_cons, Hv. done.
  - simpl. rewrite <- Hv. unfold view_of. by rewrite length_fmap.
  - simpl. lia.
  - split; [exact HA|exact HB].
Qed.

Definition not_path (path : bytes) (e : list cached) : list cached := filter (fun p => p.1.1 <> path) e.

Lemma view_filter i k x l m next :
  coherent l m next -> (i, (k, x)) ∈ l -> view_of (erase_node i l) = without k (view_of l).
Proof.
  intros Hc Hin. assert (m !! k = Some i) as Hk by (apply (co_map _ _ _ Hc); by eexists).
  pose proof (coherent_lookup _ _ _ k Hc) as Hl. rewrite Hk in Hl. destruct Hl as (v & _ & _ & Hw).
  by rewrite !view_entries, Hw, without_fmap.
Qed.

(** The loop over the remaining nodes: those already passed are the ones kept. *)
Lemma bc_invalidate_spec path nodes c kept :
  bc_rep0 c (view_of (kept ++ nodes)) -> bc_list c = kept ++ nodes ->
  total (view_of (kept ++ nodes)) <= bc_capacity c ->
  bc_rep (bc_invalidate_loop path nodes c) (view_of kept ++ not_path path (view_of nodes)) /\
  bc_capacity (bc_invalidate_loop path nodes c) = bc_capacity c.
Proof.
  revert c kept. induction nodes as [|[i [k x]] nodes IH]; intros c kept Hr Hl Hf; cbn [bc_invalidate_loop].
  { change (not_path path (view_of [])) with (@nil cached). rewrite app_nil_r in *. split; [by split|done]. }
  rewrite view_of_cons. unfold not_path. rewrite filter_cons. simpl.
  fold (not_path path (view_of nodes)). case_decide as Hp.
  - rewrite decide_False by tauto.
    assert (erase_node i (bc_list c) = kept ++ nodes) as He.
    { pose proof (co_ids _ _ _ (bc_co _ _ Hr)) as Hnd. rewrite Hl in *. unfold erase_node.
      rewrite fmap_app in Hnd. apply NoDup_app in Hnd as (_ & Hd & [Hn _]%NoDup_cons).
      rewrite filter_app, filter_cons_False by (simpl; tauto).
      rewrite !filter_all; [done| |]; intros n Hn' Hi; simpl in Hi; subst i.
      - apply Hn. simpl. by apply (list_elem_of_fmap_2 fst).
      - apply (Hd n.1); [by apply (list_elem_of_fmap_2 fst)|]. simpl. left. }
    assert (ce_size x = zlen (ce_data x)) as Hx.
    { apply (bc_sizes _ _ Hr (i, (k, x))). rewrite Hl. apply elem_of_app. right. left. }
    assert (view_of (kept ++ (i, (k, x)) :: nodes) = view_of kept ++ (k, ce_data x) :: view_of nodes) as Hv
      by (unfold view_of; by rewrite fmap_app).
    assert (view_of (kept ++ nodes) = view_of kept ++ view_of nodes) as Hv2
      by (unfold view_of; by rewrite fmap_app).
    pose proof (bc_total _ _ Hr) as Ht. pose proof (bc_cap _ _ Hr) as Hcap. rewrite Hv, total_app in Ht, Hf.
    simpl in Ht, Hf. pose proof (total_nonneg (view_of kept)). pose proof (total_nonneg (view_of nodes)).
    pose proof (zlen_nonneg (ce_data x)). rewrite He, Hx, u64_small by lia.
    destruct (IH (mkBC (bc_capacity c) (bc_used c - zlen (ce_data x)) (kept ++ nodes)
      (delete k (bc_map c)) (bc_next c)) kept) as [HA HB]; simpl; [|done|rewrite Hv2, total_app; lia|done].
    split; simpl; [| |done|rewrite Hv2, total_app; lia|done].
    + rewrite <- He. apply coherent_erase; [apply (bc_co _ _ Hr)|].
      apply (co_map _ _ _ (bc_co _ _ Hr)). exists x. rewrite Hl. apply elem_of_app. right. left.
    + intros n Hn. apply (bc_sizes _ _ Hr). rewrite Hl, elem_of_app, elem_of_cons in *. tauto.
  - rewrite decide_True by done. specialize (IH c (kept ++ [(i, (k, x))])).
    rewrite <- !app_assoc in IH. simpl in IH. destruct (IH Hr Hl Hf) as [HA HB].
    split; [|done]. unfold view_of in HA at 1. rewrite fmap_app, <- app_assoc in HA. exact HA.
Qed.

Lemma bc_invalidate_refines c e path :
  bc_rep c e ->
  bc_rep (bc_invalidatePath c path) (not_path path e) /\ bc_capacity (bc_invalidatePath c path) = bc_capacity c.
Proof.
  intros [Hr Hf]. pose proof (bc_view _ _ Hr) as Hv.
  destruct (bc_invalidate_spec path (bc_list c) c []) as [HA HB]; simpl; rewrite ?Hv; [done..|].
  unfold view_of in HA at 1. simpl in HA. rewrite Hv in HA. done.
Qed.

(** ** Traces of the block cache *)

Inductive bc_op := BGet (k : BlockCacheKey) | BPut (k : BlockCacheKey) (d : bytes) | BInvalidate (p : bytes).

Definition bc_step (c : BlockCache) (o : bc_op) : BlockCache * option bytes :=
  match o with
  | BGet k => bc_get c k
  | BPut k d => (bc_put c k d, None)
  | BInvalidate p => (bc_invalidatePath c p, None)
  end.

Definition bc_spec_step (cap : Z) (e : list cached) (o : bc_op) : list cached * option bytes :=
  match o with
  | BGet k => (match assoc k e with Some d => (k, d) :: without k e | None => e end, assoc k e)
  | BPut k d => (keep cap ((k, d) :: without k e), None)
  | BInvalidate p => (not_path p e, None)
  end.

Fixpoint bc_run (c : BlockCache) (os : list bc_op) : BlockCache * list (option bytes) :=
  match os with
  | [] => (c, [])
  | o :: os => let '(c, r) := bc_step c o in let '(c, rs) := bc_run c os in (c, r :: rs)
  end.

Fixpoint bc_spec_run (cap : Z) (e : list cached) (os : list bc_op) : list cached * list (option bytes) :=
  match os with
  | [] => (e, [])
  | o :: os => let '(e, r) := bc_spec_step cap e o in let '(e, rs) := bc_spec_run cap e os in (e, r :: rs)
  end.

(** No block is so large that the byte counter could wrap around. *)
Definition bc_op_fits (cap : Z) (o : bc_op) : Prop :=
  match o with BPut _ d => cap + zlen d < 2 ^ 64 | _ => True end.

Lemma bc_step_refines c e o :
  bc_rep c e -> bc_op_fits (bc_capacity c) o ->
  bc_rep (bc_step c o).1 (bc_spec_step (bc_capacity c) e o).1 /\
  (bc_step c o).2 = (bc_spec_step (bc_capacity c) e o).2 /\
  bc_capacity (bc_step c o).1 = bc_capacity c.
Proof.
  intros Hr Ho. destruct o as [k|k d|p]; simpl in *.
  - by destruct (bc_get_refines c e k Hr) as (? & ? & ?).
  - by destruct (bc_put_refines c e k d Hr Ho).
  - by destruct (bc_invalidate_refines c e p Hr).
Qed.

Lemma bc_run_refines os c e :
  bc_rep c e -> Forall (bc_op_fits (bc_capacity c)) os ->
  bc_rep (bc_run c os).1 (bc_spec_run (bc_capacity c) e os).1 /\
  (bc_run c os).2 = (bc_spec_run (bc_capacity c) e os).2 /\
  bc_capacity (bc_run c os).1 = bc_capacity c.
Proof.
  revert c e. induction os as [|o os IH]; intros c e Hr Ho; [done|]. simpl.
  inversion_clear Ho as [|? ? Ho1 Ho2].
  destruct (bc_step_refines c e o Hr Ho1) as (Hr1 & Heq & Hc1).
  destruct (bc_step c o) as [c1 r1], (bc_spec_step (bc_capacity c) e o) as [e1 r1']. simpl in *.
  destruct (IH c1 e1 Hr1) as (Hr2 & Heq2 & Hc2); [by rewrite Hc1|]. rewrite Hc1 in *.
  destruct (bc_run c1 os), (bc_spec_run (bc_capacity c) e1 os). simpl in *. split; [done|].
  split; congruence.
Qed.

(** C21: the block cache refines its specification: over any sequence of lookups,
    insertions and path invalidations it answers as a list of blocks by recency of which
    the longest prefix that fits is kept; its byte counter is exactly the size of the
    blocks it holds and never exceeds the capacity after an operation. *)
Theorem block_cache_refines (cap : Z) (os : list bc_op) :
  0 <= cap < 2 ^ 64 -> Forall (bc_op_fits cap) os ->
  let '(c, rs) := bc_run (BlockCache_new cap) os in
  let '(e, rs') := bc_spec_run cap [] os in
  rs = rs' /\ view_of (bc_list c) = e /\ bc_usedBytes c = total e /\ bc_usedBytes c <= cap /\
  bc_entryCount c = Z.of_nat (length e).
Proof.
  intros Hcap Ho. destruct (bc_run_refines os (BlockCache_new cap) [] (bc_rep_new cap Hcap) Ho) as (Hr & Heq & Hc).
  simpl in Hr, Heq, Hc. destruct (bc_run (BlockCache_new cap) os) as [c rs], (bc_spec_run cap [] os) as [e rs'].
  simpl in *. destruct Hr as [Hr Hf]. unfold bc_usedBytes, bc_entryCount. rewrite (bc_total _ _ Hr).
  rewrite (coherent_size _ _ _ (bc_co _ _ Hr)), <- (bc_view _ _ Hr). unfold view_of. rewrite length_fmap.
  rewrite <- (bc_view _ _ Hr) in Hf. unfold view_of in Hf. repeat split; [done|lia].
Qed.

Lemma block_cache_refines_witness :
  let os := [BPut (bs "f", 0) (bs "aaaa"); BPut (bs "g", 0) (bs "bbb"); BGet (bs "f", 0);
             BPut (bs "f", 9) (bs "cc"); BGet (bs "g", 0); BInvalidate (bs "f"); BGet (bs "f", 9)] in
  (bc_run (BlockCache_new 6) os).2 = (bc_spec_run 6 [] os).2 /\
  (bc_run (BlockCache_new 6) os).2 = [None; None; None; None; Some (bs "bbb"); None; None].
Proof.
  set (os := [BPut (bs "f", 0) (bs "aaaa"); BPut (bs "g", 0) (bs "bbb"); BGet (bs "f", 0);
             BPut (bs "f", 9) (bs "cc"); BGet (bs "g", 0); BInvalidate (bs "f"); BGet (bs "f", 9)]).
  split; [|vm_compute; reflexivity].
  pose proof (block_cache_refines 6 os ltac:(lia)) as Hr.
  destruct (bc_run (BlockCache_new 6) os), (bc_spec_run 6 [] os).
  apply Hr. repeat constructor; vm_compute; reflexivity.
Defined.
