(* ===== verification/Compression.v ===== *)
(** * Block compression

    [compression.h/.cpp].  The snappy and zstd libraries are parameters: [Codecs] holds the
    functions the source calls, [CodecLaws] what their documentation promises: that
    decompression inverts compression and that compressed data is never empty.  The out-parameter of a failed call is not read by any caller; the model
    returns the empty string there. *)

From Stdlib Require Import ZArith Lia.
From stdpp Require Import base numbers strings list.
From S2P Require Import Prelude Slice.
Local Open Scope Z_scope.

Class Codecs := {
  snappy_RawCompress : bytes -> bytes;
  snappy_Uncompress : bytes -> option bytes;
  (** [inr] carries the error name. *)
  ZSTD_compress : bytes -> bytes + bytes;
  (** The capacity of the destination comes first; the result is the bytes written. *)
  ZSTD_decompress : Z -> bytes -> bytes + bytes;
}.

Class CodecLaws `{Codecs} : Prop := {
  snappy_roundtrip x : snappy_Uncompress (snappy_RawCompress x) = Some x;
  zstd_roundtrip x y : ZSTD_compress x = inl y -> ZSTD_decompress (zlen x) y = inl x;
  (** Both formats start with a header, so no output is empty. *)
  snappy_nonempty x : snappy_RawCompress x <> [];
  zstd_nonempty x y : ZSTD_compress x = inl y -> y <> [];
}.

(** [enum class CompressionType : uint8_t]: a type is its code, a stored byte can be any. *)
Definition CompressionType : Type := Z.
Definition cNone : CompressionType := 0.
Definition cSnappy : CompressionType := 1.
Definition cZstd : CompressionType := 2.

Definition compressBlock `{Codecs} (type : CompressionType) (input : bytes) : Status * bytes :=
  if type =? cNone then (SOk, input)
  else if type =? cSnappy then (SOk, snappy_RawCompress input)
  else if type =? cZstd then
    match ZSTD_compress input with
    | inl out => (SOk, out)
    | inr name => (SIOError name, [])
    end
  else (SNotSupported (bs "unknown compression type"), []).

Definition decompressBlock `{Codecs} (type : CompressionType) (compressed : bytes)
  (uncompressed_size : Z) : Status * bytes :=
  if type =? cNone then (SOk, compressed)
  else if type =? cSnappy then
    match snappy_Uncompress compressed with
    | None => (SCorruption (bs "snappy decompress failed"), [])
    | Some out =>
        if zlen out =? uncompressed_size then (SOk, out)
        else (SCorruption (bs "snappy decompressed size mismatch"), [])
    end
  else if type =? cZstd then
    match ZSTD_decompress uncompressed_size compressed with
    | inr name => (SCorruption name, [])
    | inl out =>
        if zlen out =? uncompressed_size then (SOk, out)
        else (SCorruption (bs "zstd decompressed size mismatch"), [])
    end
  else (SNotSupported (bs "unknown compression type"), []).

Definition compressionName (type : CompressionType) : bytes :=
  if type =? cNone then bs "none"
  else if type =? cSnappy then bs "snappy"
  else if type =? cZstd then bs "zstd"
  else bs "unknown".

(** ** Round trip *)

Lemma decompress_compress `{CodecLaws} type input out :
  compressBlock type input = (SOk, out) -> decompressBlock type out (zlen input) = (SOk, input).
Proof.
  unfold compressBlock, decompressBlock.
  destruct (type =? cNone); [by intros [= ->]|].
  destruct (type =? cSnappy).
  { intros [= <-]. by rewrite snappy_roundtrip, Z.eqb_refl. }
  destruct (type =? cZstd); [|done].
  destruct (ZSTD_compress input) as [y|] eqn:E; [|done]. intros [= <-].
  by rewrite (zstd_roundtrip _ _ E), Z.eqb_refl.
Qed.

Lemma compressBlock_nonempty `{CodecLaws} type input out :
  compressBlock type input = (SOk, out) -> input <> [] -> out <> [].
Proof.
  unfold compressBlock. destruct (type =? cNone); [by intros [= ->]|].
  destruct (type =? cSnappy); [intros [= <-] _; apply snappy_nonempty|].
  destruct (type =? cZstd); [|done].
  destruct (ZSTD_compress input) as [y|] eqn:E; [|done]. intros [= <-] _. by eapply zstd_nonempty.
Qed.

Lemma compressBlock_ok `{Codecs} type input s out :
  compressBlock type input = (s, out) -> ok s = true -> s = SOk.
Proof.
  unfold compressBlock. destruct (type =? cNone); [by intros [= <- <-]|].
  destruct (type =? cSnappy); [by intros [= <- <-]|].
  destruct (type =? cZstd); [|by intros [= <- <-]].
  by destruct (ZSTD_compress input); intros [= <- <-].
Qed.

Lemma decompressBlock_ok `{Codecs} type input n s out :
  decompressBlock type input n = (s, out) -> ok s = true ->
  s = SOk /\ (zlen out = n \/ out = input).
Proof.
  unfold decompressBlock. destruct (type =? cNone); [by intros [= <- <-]; auto|].
  destruct (type =? cSnappy).
  { destruct (snappy_Uncompress input) as [y|]; [|by intros [= <- <-]].
    destruct (Z.eqb_spec (zlen y) n); intros [= <- <-]; [by auto|done]. }
  destruct (type =? cZstd); [|by intros [= <- <-]].
  destruct (ZSTD_decompress n input) as [y|]; [|by intros [= <- <-]].
  destruct (Z.eqb_spec (zlen y) n); intros [= <- <-]; [by auto|done].
Qed.

(** A codec with the laws, for evaluating the model: it stores a marker byte first. *)
Definition marker_codecs : Codecs := {|
  snappy_RawCompress x := Byte.x73 :: x;
  snappy_Uncompress y := match y with Byte.x73 :: x => Some x | _ => None end;
  ZSTD_compress x := inl (Byte.x7a :: x);
  ZSTD_decompress cap y := match y with
                           | Byte.x7a :: x => if zlen x <=? cap then inl x else inr (bs "Destination buffer is too small")
                           | _ => inr (bs "Unknown frame descriptor")
                           end;
|}.

Lemma marker_laws : @CodecLaws marker_codecs.
Proof.
  split; [done| |done|by intros x y [= <-]].
  intros x y [= <-]. simpl. by replace (zlen x <=? zlen x) with true by lia.
Qed.
