(* ===== verification/FileSystem.v ===== *)
(** * The file system the storage engine writes to

    The POSIX calls the sources make, on a map from paths to contents.  Every call that can
    fail consumes one element of a fault script: [FOk] is success, [FFail n] a failure (of a
    [write], after [n] bytes have reached the file), [FCrash n] a crash of the process in
    that call (a [write] again leaves [n] bytes behind), after which no call has any effect,
    so that the final state is what the next process finds.  An exhausted script means
    success; a theorem about all scripts covers every pattern of faults and every crash
    point.  Directories are not tracked: [mkdir] always leaves the directory present.
    Descriptors are the path they were opened at; the sources close a descriptor before
    they rename or remove its file, and every write goes to the end of its file. *)

From Stdlib Require Import ZArith Lia.
From stdpp Require Import base numbers strings list gmap.
From S2P Require Import Prelude Slice.
Local Open Scope Z_scope.

Inductive fault := FOk | FFail (n : nat) | FCrash (n : nat).

Record FS := mkFS {
  fs_files : gmap bytes bytes;
  fs_faults : list fault;
  fs_crashed : bool;
}.

Definition fs_script (files : gmap bytes bytes) (faults : list fault) : FS := mkFS files faults false.
Definition fs_of (files : gmap bytes bytes) : FS := fs_script files [].

(** The outcome of the next fallible call: [Some n] when it does not succeed. *)
Definition next_fault (fs : FS) : option nat * FS :=
  if fs_crashed fs then (Some O, fs)
  else
    match fs_faults fs with
    | [] => (None, fs)
    | FOk :: faults => (None, mkFS (fs_files fs) faults false)
    | FFail n :: faults => (Some n, mkFS (fs_files fs) faults false)
    | FCrash n :: faults => (Some n, mkFS (fs_files fs) faults true)
    end.

Definition fs_read (fs : FS) (path : bytes) : option bytes := fs_files fs !! path.

Definition fs_set (fs : FS) (path data : bytes) : FS :=
  mkFS (<[path := data]> (fs_files fs)) (fs_faults fs) (fs_crashed fs).

(** [open(path, O_CREAT | ...)]: [trunc] is [O_TRUNC].  The boolean is [fd >= 0]. *)
Definition fs_open (fs : FS) (path : bytes) (trunc : bool) : FS * bool :=
  match next_fault fs with
  | (Some _, fs) => (fs, false)
  | (None, fs) =>
      match fs_read fs path with
      | Some data => (if trunc then fs_set fs path [] else fs, true)
      | None => (fs_set fs path [], true)
      end
  end.

(** [write(fd, data, n)] at the end of the file: the number of bytes written, -1 on error. *)
Definition fs_write (fs : FS) (fd : option bytes) (data : bytes) : FS * Z :=
  match fd with
  | None => (fs, -1)
  | Some path =>
      let '(f, fs') := next_fault fs in
      if fs_crashed fs then (fs, -1) else
      let fs := fs' in
      let old := default [] (fs_read fs path) in
      match f with
      | None => (fs_set fs path (old ++ data), zlen data)
      | Some n =>
          if decide (n < length data)%nat
          then (fs_set fs path (old ++ take n data), if decide (n = O) then -1 else Z.of_nat n)
          else (fs, -1)
      end
  end.

(** [fdatasync(fd) == 0] *)
Definition fs_fdatasync (fs : FS) (fd : option bytes) : FS * bool :=
  match fd with
  | None => (fs, false)
  | Some _ => match next_fault fs with (None, fs) => (fs, true) | (Some _, fs) => (fs, false) end
  end.

(** [unlink(path) == 0] *)
Definition fs_unlink (fs : FS) (path : bytes) : FS * bool :=
  match next_fault fs with
  | (Some _, fs) => (fs, false)
  | (None, fs) =>
      (mkFS (delete path (fs_files fs)) (fs_faults fs) (fs_crashed fs), bool_decide (is_Some (fs_read fs path)))
  end.

(** [rename(from, to) == 0] *)
Definition fs_rename (fs : FS) (from to : bytes) : FS * bool :=
  match next_fault fs with
  | (Some _, fs) => (fs, false)
  | (None, fs) =>
      match fs_read fs from with
      | None => (fs, false)
      | Some data => (mkFS (<[to := data]> (delete from (fs_files fs))) (fs_faults fs) (fs_crashed fs), true)
      end
  end.

(** An [ofstream] opened with truncation, written once and closed; no error is reported. *)
Definition fs_ofstream (fs : FS) (path data : bytes) : FS :=
  if fs_crashed fs then fs else
  match next_fault fs with
  | (None, fs) => fs_set fs path data
  | (Some n, fs) => fs_set fs path (take n data)
  end.

(** ** Without faults *)

Lemma fs_open_ok files path trunc :
  fs_open (fs_of files) path trunc =
  (fs_of (<[path := if trunc then [] else default [] (files !! path)]> files), true).
Proof.
  unfold fs_open, fs_read, fs_of, fs_set. simpl.
  destruct (files !! path) as [d|] eqn:E; simpl; [|by destruct trunc].
  destruct trunc; [done|]. by rewrite insert_id.
Qed.

Lemma fs_write_ok files path data :
  fs_write (fs_of files) (Some path) data =
  (fs_of (<[path := default [] (files !! path) ++ data]> files), zlen data).
Proof. done. Qed.

Lemma fs_unlink_ok files path :
  (fs_unlink (fs_of files) path).1 = fs_of (delete path files).
Proof. done. Qed.

Lemma fs_rename_ok files from to data :
  files !! from = Some data ->
  fs_rename (fs_of files) from to = (fs_of (<[to := data]> (delete from files)), true).
Proof. intros Hf. unfold fs_rename, fs_read. simpl. by rewrite Hf. Qed.

(** A call only changes the files it names. *)
Lemma next_fault_files fs : fs_files (next_fault fs).2 = fs_files fs.
Proof. unfold next_fault. destruct (fs_crashed fs); [done|]. by destruct (fs_faults fs) as [|[]]. Qed.

Lemma fs_write_other fs fd data p :
  fd <> Some p -> fs_read (fs_write fs fd data).1 p = fs_read fs p.
Proof.
  intros Hne. unfold fs_write. destruct fd as [path|]; [|done].
  assert (path <> p) by congruence. pose proof (next_fault_files fs) as Hf.
  destruct (next_fault fs) as [f fs']. simpl in Hf. destruct (fs_crashed fs); [done|].
  unfold fs_read, fs_set. destruct f as [n|]; [case_decide|]; simpl; rewrite ?lookup_insert_ne, ?Hf by done; done.
Qed.

Arguments fs_open : simpl never.
Arguments fs_write : simpl never.
Arguments fs_fdatasync : simpl never.
Arguments fs_unlink : simpl never.
Arguments fs_rename : simpl never.
Arguments fs_ofstream : simpl never.

(** ** With any script: what each call can do to the files *)

Lemma fs_open_cases fs path trunc :
  let '(fs', b) := fs_open fs path trunc in
  (b = false /\ fs_files fs' = fs_files fs) \/
  (b = true /\ fs_files fs' = <[path := if trunc then [] else default [] (fs_files fs !! path)]> (fs_files fs)).
Proof.
  unfold fs_open. pose proof (next_fault_files fs) as Hf. destruct (next_fault fs) as [[n|] fs']; simpl in Hf.
  { by left. }
  unfold fs_read, fs_set. rewrite Hf. destruct (fs_files fs !! path) as [d|] eqn:E; simpl; right; (split; [done|]).
  - destruct trunc; [done|]. by rewrite insert_id.
  - by destruct trunc.
Qed.

Lemma fs_unlink_cases fs path :
  fs_files (fs_unlink fs path).1 = fs_files fs \/ fs_files (fs_unlink fs path).1 = delete path (fs_files fs).
Proof.
  unfold fs_unlink. pose proof (next_fault_files fs) as Hf. destruct (next_fault fs) as [[n|] fs']; simpl in *.
  - by left.
  - right. by rewrite Hf.
Qed.

Lemma fs_rename_cases fs from to :
  let '(fs', b) := fs_rename fs from to in
  (b = false /\ fs_files fs' = fs_files fs) \/
  (b = true /\ exists d, fs_files fs !! from = Some d /\ fs_files fs' = <[to := d]> (delete from (fs_files fs))).
Proof.
  unfold fs_rename. pose proof (next_fault_files fs) as Hf. destruct (next_fault fs) as [[n|] fs']; simpl in Hf.
  { by left. }
  unfold fs_read. rewrite Hf. destruct (fs_files fs !! from) as [d|] eqn:E; [|by left].
  right. split; [done|]. exists d. split; [done|]. by rewrite <- Hf.
Qed.

Lemma fs_fdatasync_files fs fd : fs_files (fs_fdatasync fs fd).1 = fs_files fs.
Proof.
  unfold fs_fdatasync. destruct fd; [|done]. pose proof (next_fault_files fs) as Hf.
  by destruct (next_fault fs) as [[n|] fs'].
Qed.

Lemma fs_write_cases fs path old data :
  fs_read fs path = Some old ->
  let '(fs', n) := fs_write fs (Some path) data in
  (n = zlen data /\ fs_read fs' path = Some (old ++ data)) \/
  (n <> zlen data /\ exists k, (k < length data \/ k = 0)%nat /\ fs_read fs' path = Some (old ++ take k data)).
Proof.
  intros Hr. unfold fs_write. pose proof (next_fault_files fs) as Hf.
  destruct (next_fault fs) as [f fs']. simpl in Hf.
  pose proof (zlen_nonneg data). destruct (fs_crashed fs).
  { right. split; [lia|]. exists 0%nat. rewrite take_0, app_nil_r. auto. }
  unfold fs_read, fs_set in *. rewrite Hf, Hr. simpl. destruct f as [n|].
  - case_decide as Hn; simpl; right.
    + split; [case_decide; unfold zlen; lia|]. exists n. rewrite lookup_insert_eq. auto.
    + split; [lia|]. exists 0%nat. rewrite Hf, Hr, take_0, app_nil_r. auto.
  - left. simpl. by rewrite lookup_insert_eq.
Qed.

(** ** Crashes without other faults *)

(** A script of crashes only, or a process that has crashed. *)
Definition calm (fs : FS) : Prop :=
  fs_crashed fs = true \/ Forall (fun f => match f with FFail _ => False | _ => True end) (fs_faults fs).

Lemma calm_next fs : calm fs -> calm (next_fault fs).2 /\ ((next_fault fs).1 <> None -> fs_crashed (next_fault fs).2 = true).
Proof.
  unfold calm, next_fault. intros Hc. destruct (fs_crashed fs) eqn:E; [simpl; auto|].
  destruct Hc as [?|Hc]; [done|]. destruct (fs_faults fs) as [|[|n|n] fl] eqn:Ef; simpl; inversion Hc; subst;
    rewrite ?Ef; auto; done.
Qed.

Lemma fs_unlink_calm fs p : calm fs -> calm (fs_unlink fs p).1.
Proof.
  intros Hc%calm_next. unfold fs_unlink. destruct (next_fault fs) as [[n|] fs']; simpl in *; [tauto|].
  destruct Hc as [Hc _]. exact Hc.
Qed.

Lemma fs_rename_calm fs from to d :
  calm fs -> fs_files fs !! from = Some d ->
  calm (fs_rename fs from to).1 /\
  ((fs_rename fs from to).2 = false -> fs_crashed (fs_rename fs from to).1 = true).
Proof.
  intros Hc%calm_next Hd. pose proof (next_fault_files fs) as Hf. unfold fs_rename.
  destruct (next_fault fs) as [[n|] fs']; simpl in *; [split; [tauto|]; intros _; by apply Hc|].
  unfold fs_read. rewrite Hf, Hd. simpl. split; [apply Hc|done].
Qed.

Lemma fs_rename_crashed fs from to : fs_crashed fs = true -> fs_rename fs from to = (fs, false).
Proof. intros Hc. unfold fs_rename, next_fault. by rewrite Hc. Qed.

Lemma fs_open_calm fs p t : calm fs -> calm (fs_open fs p t).1.
Proof.
  intros Hc%calm_next. unfold fs_open. destruct (next_fault fs) as [[n|] fs']; simpl in *; [tauto|].
  destruct Hc as [Hc _]. destruct (fs_read fs' p); [destruct t|]; exact Hc.
Qed.

Lemma fs_fdatasync_calm fs fd : calm fs -> calm (fs_fdatasync fs fd).1.
Proof.
  intros Hc. unfold fs_fdatasync. destruct fd; [|done]. apply calm_next in Hc as [Hc _].
  by destruct (next_fault fs) as [[n|] fs'].
Qed.

Lemma fs_write_calm fs fd data : calm fs -> calm (fs_write fs fd data).1.
Proof.
  intros Hc. unfold fs_write. destruct fd as [p|]; [|done]. pose proof (calm_next fs Hc) as [Hc' _].
  destruct (next_fault fs) as [f fs']. destruct (fs_crashed fs); [done|].
  destruct f; [case_decide|]; exact Hc'.
Qed.

Lemma fs_write_calm_cases fs p d :
  calm fs -> let '(fs', n) := fs_write fs (Some p) d in
  calm fs' /\ (n <> zlen d -> fs_crashed fs' = true) /\ (forall q, q <> p -> fs_read fs' q = fs_read fs q).
Proof.
  intros Hc. pose proof (fs_write_calm fs (Some p) d Hc) as Hc'.
  assert (forall q, q <> p -> fs_read (fs_write fs (Some p) d).1 q = fs_read fs q) as Ho
    by (intros q Hq; apply fs_write_other; congruence).
  revert Hc' Ho. pose proof (calm_next fs Hc) as [_ Hcr]. unfold fs_write. destruct (next_fault fs) as [f fs'] eqn:En. simpl in Hcr.
  destruct (fs_crashed fs) eqn:Ec; [intros ? ?; by repeat split|].
  destruct f as [n|]; [|intros ? ?; by repeat split].
  specialize (Hcr ltac:(done)). case_decide; intros ? ?; (split; [done|]; split; [|done]); intros _; done.
Qed.
