(* ===== verification/Env.v ===== *)
(** * The environment interface

    [minikv/src/utils/env.h] and [env_posix.cpp]: files opened for writing, deletion and
    tests for existence, over [FileSystem].  A descriptor is the path it was opened at;
    [mkdir] answers as if the directory were new or there already. *)

From Stdlib Require Import ZArith Lia.
From stdpp Require Import base numbers strings list gmap.
From S2P Require Import Prelude Slice FileSystem.
Local Open Scope Z_scope.

(** [fd_]; [None] is -1. *)
Record PosixWritableFile := mkPWF { pwf_fd : option bytes }.

Definition pwf_append (fs : FS) (f : PosixWritableFile) (data : bytes) : FS * Status :=
  let '(fs, n) := fs_write fs (pwf_fd f) data in
  if negb (n =? zlen data) then (fs, SIOError (bs "Write failed")) else (fs, SOk).

Definition pwf_sync (fs : FS) (f : PosixWritableFile) : FS * Status :=
  let '(fs, ok) := fs_fdatasync fs (pwf_fd f) in
  if negb ok then (fs, SIOError (bs "fdatasync failed")) else (fs, SOk).

Definition pwf_close (f : PosixWritableFile) : PosixWritableFile * Status := (mkPWF None, SOk).

Definition newWritableFile (fs : FS) (path : bytes) : FS * option PosixWritableFile * Status :=
  let '(fs, ok) := fs_open fs path true in
  if negb ok then (fs, None, SIOError (bs "Cannot open: " ++ path)) else (fs, Some (mkPWF (Some path)), SOk).

Definition fileExists (fs : FS) (path : bytes) : bool := bool_decide (is_Some (fs_read fs path)).

Definition deleteFile (fs : FS) (path : bytes) : FS * Status :=
  let '(fs, ok) := fs_unlink fs path in
  if negb ok then (fs, SIOError (bs "Cannot delete: " ++ path)) else (fs, SOk).

Definition createDir (fs : FS) (path : bytes) : FS * Status :=
  match next_fault fs with
  | (None, fs) => (fs, SOk)
  | (Some _, fs) => (fs, SIOError (bs "Cannot mkdir: " ++ path))
  end.

(** ** Appending *)

Definition pwf_appends (fs : FS) (f : PosixWritableFile) (ds : list bytes) : FS * list bool :=
  foldl (fun acc d => let '(fs, s) := pwf_append acc.1 f d in (fs, acc.2 ++ [ok s])) (fs, []) ds.

(** [part d b c]: [c] is what an append of [d] with the answer [b] left in the file. *)
Definition part (d : bytes) (b : bool) (c : bytes) : Prop := if b then c = d else c `prefix_of` d.

Lemma pwf_append_ok fs path old d :
  fs_read fs path = Some old ->
  let '(fs', s) := pwf_append fs (mkPWF (Some path)) d in
  exists c, fs_read fs' path = Some (old ++ c) /\ part d (ok s) c.
Proof.
  intros Hr. unfold pwf_append. cbn [pwf_fd]. pose proof (fs_write_cases fs path old d Hr) as Hw. destruct (fs_write fs (Some path) d) as [fs' n].
  destruct Hw as [[-> Hr']|(Hn & k & _ & Hr')].
  - rewrite Z.eqb_refl. by exists d.
  - replace (n =? zlen d) with false by lia. exists (take k d). split; [done|]. cbn. by exists (drop k d); rewrite take_drop.
Qed.

Lemma pwf_appends_ok ds : forall fs path old,
  fs_read fs path = Some old ->
  exists cs, fs_read (pwf_appends fs (mkPWF (Some path)) ds).1 path = Some (old ++ concat cs) /\
    Forall3 part ds (pwf_appends fs (mkPWF (Some path)) ds).2 cs.
Proof.
  induction ds as [|d ds IH] using rev_ind; intros fs path old Hr.
  - exists []. cbn. rewrite app_nil_r. split; [done|constructor].
  - destruct (IH fs path old Hr) as (cs & Hc & Hp). unfold pwf_appends in *. rewrite foldl_snoc. destruct (foldl _ (fs, []) ds) as [fs1 bs1]. cbn [fst snd] in *.
    pose proof (pwf_append_ok fs1 path _ d Hc) as Hd. destruct (pwf_append fs1 _ d) as [fs2 s]. destruct Hd as (c & Hr2 & Hpart). cbn [fst snd].
    exists (cs ++ [c]). rewrite concat_app. cbn [concat]. rewrite app_nil_r, app_assoc. split; [done|]. apply Forall3_app; [done|]. by repeat constructor.
Qed.

(** Whatever faults happen, a file that was opened holds the pieces appended in order: an
    acknowledged one whole, a refused one up to some byte. *)
Theorem env_file_contents fs path ds fs1 f :
  newWritableFile fs path = (fs1, Some f, SOk) ->
  exists cs, fs_read (pwf_appends fs1 f ds).1 path = Some (concat cs) /\ Forall3 part ds (pwf_appends fs1 f ds).2 cs.
Proof.
  unfold newWritableFile, fs_open. destruct (next_fault fs) as [[n|] fs0]; [done|]. intros H.
  assert (f = mkPWF (Some path) /\ fs_read fs1 path = Some []) as [-> Hr].
  { destruct (fs_read fs0 path); cbn in H; injection H as <- <-; (split; [done|]); unfold fs_read, fs_set; cbn; apply lookup_insert_eq. }
  destruct (pwf_appends_ok ds fs1 path [] Hr) as (cs & Hc & Hp). by exists cs.
Qed.

Lemma env_file_contents_witness :
  exists cs, fs_read (pwf_appends (fs_script {[bs "f" := []]} [FFail 2]) (mkPWF (Some (bs "f"))) [bs "abc"; bs "de"]).1 (bs "f") = Some (concat cs) /\
    Forall3 part [bs "abc"; bs "de"] (pwf_appends (fs_script {[bs "f" := []]} [FFail 2]) (mkPWF (Some (bs "f"))) [bs "abc"; bs "de"]).2 cs.
Proof.
  apply (env_file_contents (fs_script {[bs "f" := []]} [FOk; FFail 2]) (bs "f") [bs "abc"; bs "de"]). vm_compute. reflexivity.
Defined.

(** A short write is not completed: what is acknowledged afterwards follows the torn piece. *)
Theorem env_append_torn :
  let r := pwf_appends (fs_script {[bs "f" := []]} [FFail 2]) (mkPWF (Some (bs "f"))) [bs "abc"; bs "de"] in
  r.2 = [false; true] /\ fs_read r.1 (bs "f") = Some (bs "abde").
Proof. vm_compute. done. Qed.
