(* ===== verification/Wal.v ===== *)
(** * The write-ahead log

    [wal.h/.cpp]: records [crc32c][length][data] appended to one file, and [replay], which
    reads the longest well-formed prefix.  The fuel of the replay loop is the file length
    plus one; every record takes at least eight bytes. *)

From Stdlib Require Import ZArith Lia.
From stdpp Require Import base numbers strings list gmap.
From S2P Require Import Prelude Coding Slice FileSystem.
Local Open Scope Z_scope.

Record WAL := mkWAL {
  wal_path : bytes;
  wal_open : bool;   (* fd_ >= 0 *)
}.

Definition wal_fd (w : WAL) : option bytes := if wal_open w then Some (wal_path w) else None.

Definition WAL_new (fs : FS) (path : bytes) : FS * WAL :=
  let '(fs, ok) := fs_open fs path false in (fs, mkWAL path ok).

Definition wal_append (fs : FS) (w : WAL) (data : bytes) : FS * Status :=
  if negb (wal_open w) then (fs, SIOError (bs "WAL not open"))
  else
    let crc := crc32c data in
    let len := u32 (zlen data) in
    let '(fs, n) := fs_write fs (wal_fd w) (encodeFixed32 crc ++ encodeFixed32 len) in
    if negb (n =? 8) then (fs, SIOError (bs "WAL write header failed"))
    else if len >? 0 then
      let '(fs, n) := fs_write fs (wal_fd w) (take (Z.to_nat len) data) in
      if n =? len then (fs, SOk) else (fs, SIOError (bs "WAL write data failed"))
    else (fs, SOk).

Definition wal_sync (fs : FS) (w : WAL) : FS * Status :=
  if wal_open w then
    let '(fs, ok) := fs_fdatasync fs (wal_fd w) in
    if ok then (fs, SOk) else (fs, SIOError (bs "WAL fsync failed"))
  else (fs, SOk).

(** The read loop over the bytes from the current position. *)
Fixpoint replay_loop (fuel : nat) (p : bytes) : list bytes :=
  match fuel with
  | O => []
  | S fuel =>
      if decide (length p < 8)%nat then []
      else
        let crc := default 0 (decodeFixed32 p) in
        let len := Z.to_nat (default 0 (decodeFixed32 (drop 4 p))) in
        let p := drop 8 p in
        if decide (length p < len)%nat then []
        else
          let data := take len p in
          if crc32c data =? crc then data :: replay_loop fuel (drop len p) else []
  end.

Definition wal_replay (fs : FS) (w : WAL) : list bytes :=
  if wal_open w then
    let p := default [] (fs_read fs (wal_path w)) in replay_loop (S (length p)) p
  else [].

Definition wal_truncate (fs : FS) (w : WAL) : FS * WAL * Status :=
  let '(fs, _) := fs_unlink fs (wal_path w) in
  let '(fs, ok) := fs_open fs (wal_path w) false in
  (fs, mkWAL (wal_path w) ok, if ok then SOk else SIOError (bs "WAL reopen after truncate failed")).

Definition wal_exists (fs : FS) (w : WAL) : bool := bool_decide (is_Some (fs_read fs (wal_path w))).

(** ** The log as a function of its records *)

Definition wal_record (d : bytes) : bytes :=
  encodeFixed32 (crc32c d) ++ encodeFixed32 (u32 (zlen d)) ++ d.

Definition wal_log (rs : list bytes) : bytes := concat (wal_record <$> rs).

Definition wal_fits (d : bytes) : Prop := zlen d < 2 ^ 31.

Lemma length_wal_record d : length (wal_record d) = (8 + length d)%nat.
Proof. done. Qed.

Lemma wal_log_cons d rs : wal_log (d :: rs) = wal_record d ++ wal_log rs.
Proof. done. Qed.

Lemma wal_log_app rs1 rs2 : wal_log (rs1 ++ rs2) = wal_log rs1 ++ wal_log rs2.
Proof. unfold wal_log. by rewrite fmap_app, concat_app. Qed.

Lemma wal_log_length rs : (length rs <= length (wal_log rs))%nat.
Proof.
  induction rs as [|d rs IH]; [done|]. rewrite wal_log_cons, length_app, length_wal_record. simpl. lia.
Qed.

Lemma replay_loop_record fuel d p :
  wal_fits d -> replay_loop (S fuel) (wal_record d ++ p) = d :: replay_loop fuel p.
Proof.
  intros Hd. pose proof (zlen_nonneg d) as Hz. unfold wal_fits in Hd.
  cbn [replay_loop]. rewrite decide_False by (rewrite length_app, length_wal_record; lia).
  unfold wal_record. rewrite <- !app_assoc, decodeFixed32_encode by apply crc32c_range.
  rewrite (drop_app_exact _ _ 4) by done. rewrite decodeFixed32_encode by apply u32_range.
  rewrite (app_assoc (encodeFixed32 _)), (drop_app_exact _ _ 8) by done. cbn [from_option id].
  rewrite u32_small, to_nat_zlen by lia.
  rewrite decide_False by (rewrite length_app; lia).
  by rewrite take_app_length, drop_app_length, Z.eqb_refl.
Qed.

(** A tail that is not a whole record ends the replay. *)
Definition torn (p : bytes) : Prop := forall fuel, replay_loop fuel p = [].

Lemma replay_loop_log fuel rs p :
  Forall wal_fits rs -> torn p -> (length rs < fuel)%nat -> replay_loop fuel (wal_log rs ++ p) = rs.
Proof.
  intros Hrs Ht. revert fuel. induction Hrs as [|d rs Hd _ IH]; intros fuel Hf; [apply Ht|].
  destruct fuel as [|fuel]; [simpl in Hf; lia|].
  rewrite wal_log_cons, <- app_assoc, replay_loop_record by done.
  rewrite IH by (simpl in Hf; lia). done.
Qed.

Lemma torn_nil : torn [].
Proof. by intros [|fuel]. Qed.

Lemma torn_record d n : wal_fits d -> (n < length (wal_record d))%nat -> torn (take n (wal_record d)).
Proof.
  intros Hd Hn [|fuel]; [done|]. rewrite length_wal_record in Hn. unfold wal_fits in Hd.
  pose proof (zlen_nonneg d). cbn [replay_loop].
  assert (length (take n (wal_record d)) = n) as Hl by (rewrite length_take, length_wal_record; lia).
  case_decide as H8; [done|]. rewrite Hl in H8.
  assert (take n (wal_record d) = encodeFixed32 (crc32c d) ++ encodeFixed32 (u32 (zlen d)) ++ take (n - 8) d) as ->.
  { unfold wal_record. rewrite take_app_ge by (rewrite !length_encodeFixed32; lia). f_equal.
    rewrite take_app_ge by (rewrite !length_encodeFixed32; lia). do 2 f_equal.
    rewrite !length_encodeFixed32. lia. }
  rewrite (drop_app_exact _ _ 4) by done. rewrite decodeFixed32_encode by apply u32_range.
  rewrite app_assoc, (drop_app_exact _ _ 8) by done. cbn [from_option id].
  rewrite u32_small, to_nat_zlen by lia. rewrite decide_True; [done|]. rewrite length_take. lia.
Qed.

(** [whole n rs]: the records that end within the first [n] bytes of the log. *)
Fixpoint whole (n : nat) (rs : list bytes) : list bytes :=
  match rs with
  | [] => []
  | d :: rs => if decide (length (wal_record d) <= n)%nat
               then d :: whole (n - length (wal_record d)) rs else []
  end.

Lemma wal_log_cut n rs :
  Forall wal_fits rs -> exists p, take n (wal_log rs) = wal_log (whole n rs) ++ p /\ torn p.
Proof.
  intros Hrs. revert n. induction Hrs as [|d rs Hd _ IH]; intros n; cbn [whole].
  { exists []. change (wal_log []) with (@nil byte). rewrite take_nil. split; [done|apply torn_nil]. }
  rewrite wal_log_cons. case_decide as Hn.
  - destruct (IH (n - length (wal_record d))%nat) as (p & Hp & Ht). exists p. split; [|done].
    rewrite take_app_ge, Hp by done. by rewrite wal_log_cons, <- app_assoc.
  - exists (take n (wal_record d)). split; [by rewrite take_app_le by lia|].
    apply torn_record; [done|lia].
Qed.

Lemma whole_prefix n rs : whole n rs `prefix_of` rs.
Proof.
  revert n. induction rs as [|d rs IH]; intros n; cbn [whole]; [done|].
  case_decide; [by apply prefix_cons|apply prefix_nil].
Qed.

Lemma whole_all n rs : (length (wal_log rs) <= n)%nat -> whole n rs = rs.
Proof.
  revert n. induction rs as [|d rs IH]; intros n Hn; cbn [whole]; [done|].
  rewrite wal_log_cons, length_app in Hn. rewrite decide_True, IH by lia. done.
Qed.

(** ** The state of a log file *)

(** The file at the log's path holds the records [rs], then a torn tail. *)
Definition wal_holds (fs : FS) (path : bytes) (rs : list bytes) : Prop :=
  exists p, fs_read fs path = Some (wal_log rs ++ p) /\ torn p /\ Forall wal_fits rs.

(** ... and no tail. *)
Definition wal_clean (fs : FS) (path : bytes) (rs : list bytes) : Prop :=
  fs_read fs path = Some (wal_log rs) /\ Forall wal_fits rs.

Lemma wal_clean_holds fs path rs : wal_clean fs path rs -> wal_holds fs path rs.
Proof. intros [Hr Hf]. exists []. rewrite app_nil_r. by auto using torn_nil. Qed.

Lemma wal_replay_holds fs path rs :
  wal_holds fs path rs -> wal_replay fs (mkWAL path true) = rs.
Proof.
  intros (p & Hr & Ht & Hf). unfold wal_replay. cbn [wal_open wal_path]. rewrite Hr. cbn [from_option id].
  apply replay_loop_log; [done..|]. rewrite length_app. pose proof (wal_log_length rs). lia.
Qed.

Lemma wal_append_cases fs path rs d :
  wal_clean fs path rs -> wal_fits d ->
  let '(fs', s) := wal_append fs (mkWAL path true) d in
  (s = SOk /\ wal_clean fs' path (rs ++ [d])) \/ (ok s = false /\ wal_holds fs' path rs).
Proof.
  intros [Hr Hf] Hd. pose proof Hd as Hd'. unfold wal_fits in Hd'. pose proof (zlen_nonneg d) as Hz.
  unfold wal_append, wal_fd. cbn [wal_open wal_path negb].
  pose proof (fs_write_cases fs path _ (encodeFixed32 (crc32c d) ++ encodeFixed32 (u32 (zlen d))) Hr) as Hw.
  destruct (fs_write fs _ _) as [fs1 n1]. destruct Hw as [[-> Hr1]|(Hn & k & Hk & Hr1)].
  2:{ change (zlen (encodeFixed32 _ ++ encodeFixed32 _)) with 8 in Hn.
      replace (n1 =? 8) with false by lia. simpl. right. split; [done|].
      exists (take k (encodeFixed32 (crc32c d) ++ encodeFixed32 (u32 (zlen d)))). split; [done|].
      split; [|done]. rewrite length_app, !length_encodeFixed32 in Hk.
      replace (take k (_ ++ _)) with (take k (wal_record d)).
      - apply torn_record; [done|]. rewrite length_wal_record. lia.
      - unfold wal_record. rewrite app_assoc, (take_app_le (_ ++ _)); [done|].
        rewrite length_app, !length_encodeFixed32. lia. }
  change (zlen (encodeFixed32 _ ++ encodeFixed32 _)) with 8. simpl.
  rewrite u32_small by lia. rewrite to_nat_zlen, firstn_all.
  destruct (Z.gtb_spec (zlen d) 0) as [Hpos|Hnil].
  2:{ left. split; [done|]. assert (d = []) as -> by (destruct d; [done|rewrite zlen_cons in Hnil; pose proof (zlen_nonneg d); lia]).
      split; [rewrite wal_log_app; exact Hr1|apply Forall_app; auto]. }
  pose proof (fs_write_cases fs1 path _ d Hr1) as Hw.
  destruct (fs_write fs1 _ _) as [fs2 n2]. destruct Hw as [[-> Hr2]|(Hn & k & Hk & Hr2)].
  - rewrite Z.eqb_refl. left. split; [done|]. split; [|apply Forall_app; auto].
    rewrite Hr2, wal_log_app, wal_log_cons. unfold wal_record. rewrite u32_small by lia.
    by rewrite app_nil_r, <- !app_assoc.
  - replace (n2 =? zlen d) with false by lia. right. split; [done|].
    exists (take (8 + k) (wal_record d)). split; [|split; [|done]].
    + rewrite Hr2, <- app_assoc. by do 2 f_equal.
    + apply torn_record; [done|]. rewrite length_wal_record. unfold zlen in *. lia.
Qed.

(** A client's appends one after the other, with what each of them reported. *)
Definition wal_appends (fs : FS) (w : WAL) (rs : list bytes) : FS * list bool :=
  foldl (fun acc d => let '(fs, s) := wal_append acc.1 w d in (fs, acc.2 ++ [ok s])) (fs, []) rs.

Lemma wal_append_ok files path rs d :
  wal_clean (fs_of files) path rs -> wal_fits d ->
  exists files', wal_append (fs_of files) (mkWAL path true) d = (fs_of files', SOk) /\
                 wal_clean (fs_of files') path (rs ++ [d]).
Proof.
  intros Hc Hd. pose proof (wal_append_cases _ _ _ _ Hc Hd) as Hw.
  assert (exists files', wal_append (fs_of files) (mkWAL path true) d = (fs_of files', SOk)) as [files' E].
  { unfold wal_append, wal_fd. simpl negb. cbn [wal_open wal_path]. rewrite fs_write_ok.
    change (zlen (encodeFixed32 _ ++ encodeFixed32 _) =? 8) with true. simpl negb. cbn iota.
    destruct (Z.gtb_spec (u32 (zlen d)) 0); [|by eexists]. rewrite fs_write_ok.
    unfold wal_fits in Hd. pose proof (zlen_nonneg d). rewrite u32_small, to_nat_zlen, firstn_all by lia.
    rewrite Z.eqb_refl. by eexists. }
  rewrite E in Hw. exists files'. split; [done|]. by destruct Hw as [[_ ?]|[? _]].
Qed.

Lemma wal_append_calm fs path d :
  calm fs -> wal_fits d -> let '(fs', s) := wal_append fs (mkWAL path true) d in
  calm fs' /\ (ok s = false -> fs_crashed fs' = true) /\ (forall q, q <> path -> fs_read fs' q = fs_read fs q).
Proof.
  intros Hc Hd. unfold wal_fits in Hd. pose proof (zlen_nonneg d). unfold wal_append, wal_fd. cbn [wal_open wal_path negb].
  rewrite u32_small by lia. rewrite to_nat_zlen, firstn_all.
  set (h := encodeFixed32 _ ++ encodeFixed32 _). assert (zlen h = 8) as Hh by done.
  pose proof (fs_write_calm_cases fs path h Hc) as H1. destruct (fs_write fs (Some path) h) as [fs1 n1]. rewrite Hh in H1.
  destruct H1 as (C1 & F1 & O1). destruct (Z.eqb_spec n1 8) as [->|Hne]; cbn [negb]; [|by repeat split; auto].
  destruct (zlen d >? 0); [|by repeat split].
  pose proof (fs_write_calm_cases fs1 path d C1) as H2. destruct (fs_write fs1 (Some path) d) as [fs2 n2].
  destruct H2 as (C2 & F2 & O2). destruct (Z.eqb_spec n2 (zlen d)) as [->|Hne];
    (split; [done|]; split; [by auto|intros q Hq; by rewrite O2, O1]).
Qed.

Lemma wal_append_crashed fs w d : fs_crashed fs = true -> exists m, wal_append fs w d = (fs, SIOError m).
Proof.
  intros Hc. unfold wal_append, wal_fd, fs_write. destruct (wal_open w); [|by eexists]. cbn [negb].
  destruct (next_fault fs) as [f fs']. rewrite Hc. by eexists.
Qed.

Lemma decodeFixed32_take n p : (4 <= n)%nat -> decodeFixed32 (take n p) = decodeFixed32 p.
Proof. intros Hn. do 4 (destruct n as [|n]; [lia|]). by destruct p as [|? [|? [|? [|? p]]]]. Qed.

(** A torn tail stays one when bytes are lost at its end. *)
Lemma torn_take n p : torn p -> torn (take n p).
Proof.
  intros Ht [|fuel]; [done|]. specialize (Ht (S fuel)). cbn [replay_loop] in *.
  destruct (decide (length (take n p) < 8)%nat) as [|Hn]; [done|]. rewrite length_take in Hn.
  rewrite decide_False in Ht by lia.
  assert (forall m, (m + 4 <= n)%nat -> decodeFixed32 (drop m (take n p)) = decodeFixed32 (drop m p)) as Hdec.
  { intros m Hm. rewrite skipn_firstn_comm. apply decodeFixed32_take. lia. }
  pose proof (Hdec 0%nat ltac:(lia)) as H0. rewrite !drop_0 in H0. rewrite H0, Hdec by lia. clear Hdec H0.
  set (len := Z.to_nat _) in *.
  destruct (decide (length (drop 8 (take n p)) < len)%nat) as [|Hl]; [done|].
  rewrite length_drop, length_take in Hl. rewrite decide_False in Ht by (rewrite length_drop; lia).
  replace (take len (drop 8 (take n p))) with (take len (drop 8 p)) by (rewrite skipn_firstn_comm, take_take; f_equal; lia).
  by destruct (_ =? _).
Qed.

Lemma wal_holds_cut fs path rs n :
  wal_holds fs path rs ->
  wal_replay (fs_of {[ path := take n (default [] (fs_read fs path)) ]}) (mkWAL path true) = whole n rs.
Proof.
  intros (p & Hr & Ht & Hf). apply wal_replay_holds. rewrite Hr. cbn [from_option id]. unfold wal_holds, fs_read. cbn [fs_files fs_of fs_script]. rewrite lookup_singleton_eq.
  destruct (wal_log_cut n rs Hf) as (q & Hq & Htq).
  assert (Forall wal_fits (whole n rs)) as Hw.
  { eapply Forall_forall. intros d Hd. rewrite Forall_forall in Hf. apply Hf. eapply elem_of_prefix; [exact Hd|apply whole_prefix]. }
  destruct (decide (n <= length (wal_log rs))%nat) as [Hn|Hn].
  - exists q. rewrite take_app_le by done. by rewrite Hq.
  - exists (take (n - length (wal_log rs)) p). rewrite take_app_ge by lia.
    rewrite whole_all by lia. split; [done|]. split; [by apply torn_take|done].
Qed.

(** The appends of a process that may die: those acknowledged come first, and are the log. *)
Lemma wal_appends_calm rs fs path rs0 ss0 :
  wal_clean fs path rs0 -> Forall wal_fits rs -> calm fs ->
  exists k m fs', foldl (fun acc d => let '(fs, s) := wal_append acc.1 (mkWAL path true) d in (fs, acc.2 ++ [ok s])) (fs, ss0) rs =
      (fs', ss0 ++ replicate k true ++ replicate m false) /\
    (k + m = length rs)%nat /\ (m <> O -> fs_crashed fs' = true) /\ wal_holds fs' path (rs0 ++ take k rs).
Proof.
  intros Hc Hf. revert fs rs0 ss0 Hc. induction Hf as [|d rs Hd Hf IH]; intros fs rs0 ss0 Hc Hcalm; cbn [foldl].
  { exists O, O, fs. rewrite !app_nil_r. split; [done|]. split; [done|]. split; [done|by apply wal_clean_holds]. }
  pose proof (wal_append_cases fs path rs0 d Hc Hd) as Hw. pose proof (wal_append_calm fs path d Hcalm Hd) as Hq.
  cbn [fst snd]. destruct (wal_append fs _ d) as [fs1 s1]. destruct Hq as (C1 & F1 & _). destruct Hw as [[-> Hc1]|[Hs Hh]].
  - destruct (IH fs1 (rs0 ++ [d]) (ss0 ++ [true]) Hc1 C1) as (k & m & fs' & E & Hkm & Hcr & Hh).
    exists (S k), m, fs'. change (ok SOk) with true. rewrite E. rewrite <- app_assoc in Hh |- *. split; [done|]. split; [simpl; lia|]. by split.
  - rewrite Hs in *. specialize (F1 eq_refl). exists O, (S (length rs)), fs1. rewrite app_nil_r. split; [|split; [simpl; lia|by split]].
    assert (forall l ss, foldl (fun acc d => let '(fs, s) := wal_append acc.1 (mkWAL path true) d in (fs, acc.2 ++ [ok s])) (fs1, ss) l =
       (fs1, ss ++ replicate (length l) false)) as Hdead.
    { induction l as [|x l IHl]; intros ss; cbn [foldl]; [by rewrite app_nil_r|]. cbn [fst snd].
      destruct (wal_append_crashed fs1 (mkWAL path true) x F1) as [msg ->]. rewrite IHl, <- app_assoc. done. }
    by rewrite Hdead, <- app_assoc.
Qed.



(** C14: an append that fails, whatever the fault, does not damage the log: replay still
    returns every record appended before it; an append that reports success is replayed. *)
Theorem wal_append_fault_safe (fs : FS) (path : bytes) (rs : list bytes) (d : bytes) :
  wal_clean fs path rs -> wal_fits d ->
  let '(fs', s) := wal_append fs (mkWAL path true) d in
  wal_replay fs' (mkWAL path true) = if ok s then rs ++ [d] else rs.
Proof.
  intros Hc Hd. pose proof (wal_append_cases fs path rs d Hc Hd) as Hw.
  destruct (wal_append fs (mkWAL path true) d) as [fs' s].
  destruct Hw as [[-> Hc']|[-> Hh]]; apply wal_replay_holds; [by apply wal_clean_holds|done].
Qed.

Lemma wal_append_fault_safe_witness :
  let fs := fs_script {[ bs "w" := wal_log [bs "a"] ]} [FOk; FFail 2] in
  let '(fs', s) := wal_append fs (mkWAL (bs "w") true) (bs "hello") in
  wal_replay fs' (mkWAL (bs "w") true) = (if ok s then [bs "a"; bs "hello"] else [bs "a"]) /\ ok s = false.
Proof.
  pose proof (wal_append_fault_safe (fs_script {[ bs "w" := wal_log [bs "a"] ]} [FOk; FFail 2])
                (bs "w") [bs "a"] (bs "hello")) as Hp.
  specialize (Hp ltac:(split; [vm_compute; reflexivity|repeat constructor]) ltac:(vm_compute; reflexivity)).
  split; [exact Hp|vm_compute; reflexivity].
Defined.

(** Corruption is caught: if one byte of the data of a record is changed, replay
    returns exactly the records before it, and nothing from the damaged record on. *)
Theorem wal_replay_stops_at_corruption (path : bytes) (rs1 rs2 : list bytes) (pre post : bytes) (b b' : byte) :
  Forall wal_fits rs1 -> wal_fits (pre ++ b :: post) -> b <> b' ->
  wal_replay (fs_of {[ path := wal_log rs1 ++
      (encodeFixed32 (crc32c (pre ++ b :: post)) ++ encodeFixed32 (u32 (zlen (pre ++ b :: post))) ++
       pre ++ b' :: post) ++ wal_log rs2 ]}) (mkWAL path true) = rs1.
Proof.
  intros Hrs Hd Hne. apply wal_replay_holds. eexists. unfold fs_read. cbn [fs_files fs_of fs_script].
  rewrite lookup_singleton_eq. split; [done|]. split; [|done]. intros [|fuel]; [done|]. cbn [replay_loop]. unfold wal_fits in Hd.
  set (d := pre ++ b :: post) in *. set (d' := pre ++ b' :: post). pose proof (zlen_nonneg d).
  assert (length d' = length d) as Hl by (subst d d'; rewrite !length_app; done).
  case_decide as H8; [done|clear H8].
  rewrite <- !app_assoc, decodeFixed32_encode by apply crc32c_range.
  rewrite (drop_app_exact _ _ 4) by done. rewrite decodeFixed32_encode by apply u32_range.
  rewrite (app_assoc (encodeFixed32 _)), (drop_app_exact _ _ 8) by done. cbn [from_option id].
  rewrite u32_small, to_nat_zlen, <- Hl by lia. case_decide; [done|]. rewrite take_app_length.
  replace (crc32c d' =? crc32c d) with false; [done|]. symmetry. apply Z.eqb_neq. intros Heq.
  symmetry in Heq. revert Heq. by apply crc32c_change.
Qed.

Lemma wal_replay_stops_at_corruption_witness :
  wal_replay (fs_of {[ bs "w" := wal_log [bs "a"] ++
      (encodeFixed32 (crc32c (bs "k" ++ Byte.x31 :: bs "v")) ++
       encodeFixed32 (u32 (zlen (bs "k" ++ Byte.x31 :: bs "v"))) ++
       bs "k" ++ Byte.x32 :: bs "v") ++ wal_log [bs "b"] ]}) (mkWAL (bs "w") true) = [bs "a"].
Proof.
  apply (wal_replay_stops_at_corruption (bs "w") [bs "a"] [bs "b"] (bs "k") (bs "v") Byte.x31 Byte.x32);
    [repeat constructor|vm_compute; reflexivity|discriminate].
Defined.

(** A torn tail is not removed: after a failed append, further appends report success
    but are invisible to replay.  (Here the header reached the file and the data did
    not; the next record is then read as the missing data and fails its checksum.) *)
Theorem wal_append_after_torn_tail_lost :
  let w := mkWAL (bs "w") true in
  let fs0 := fs_script {[ bs "w" := wal_log [bs "a"] ]} [FOk; FFail 0] in
  let '(fs1, s1) := wal_append fs0 w (bs "hello") in
  let '(fs2, s2) := wal_append fs1 w (bs "acked") in
  ok s1 = false /\ s2 = SOk /\ wal_replay fs2 w = [bs "a"].
Proof. vm_compute. done. Qed.
