(* ===== verification/SSTable.v ===== *)
(** * SSTables: builder, reader and iterator

    [sstable_builder.h/.cpp], [sstable_reader.h/.cpp], [sstable_iterator.h/.cpp].  A table is
    a sequence of data blocks, each [crc][physical size][size][type][payload], an index
    block with the last key and the position of each of them, a footer, and a Bloom filter
    in a side file.  The builder writes through the file system model; a reader holds the
    contents of the file it opened (tables are immutable once written) and reads blocks
    through the optional block cache. *)

From Stdlib Require Import ZArith Lia.
From stdpp Require Import base numbers strings list gmap.
From S2P Require Import Prelude Coding Slice InternalKey SkipHeap SkipList Versions MemTable Bloom Block Caches.
From S2P Require Import Compression FileSystem.
Local Open Scope Z_scope.

Definition kSSTableFormatVersion : Z := 1.
Definition kSSTableMagic : Z := 0x4D4B53535441424C.
Definition kSSTableFooterSize : nat := 48.
Definition kSSTableBlockHeader : nat := 13.

(** ** SSTableBuilder *)

Record SSTableBuilder := mkSB {
  sb_path : bytes;
  sb_open : bool;            (* fd_ >= 0 *)
  sb_block_size : Z;
  sb_data_block : BlockBuilder;
  sb_compression : CompressionType;
  sb_bloom : BloomFilter;
  sb_index_block : bytes;
  sb_last_key : bytes;
  sb_offset : Z;
  sb_finished : bool;
  sb_entry_count : Z;
}.

Definition sb_fd (b : SSTableBuilder) : option bytes := if sb_open b then Some (sb_path b) else None.

Definition SSTableBuilder_new (fs : FS) (path : bytes) (block_size : Z) (compression : CompressionType)
  : FS * SSTableBuilder :=
  let '(fs, ok) := fs_open fs path true in
  (fs, mkSB path ok block_size (BlockBuilder_new block_size) compression
            (BloomFilter_new 10000 bits_for_001) [] [] 0 false 0).

(** The block header: crc, physical size, size, type. *)
Definition block_header (crc psize usize type : Z) : bytes :=
  encodeFixed32 crc ++ encodeFixed32 (u32 psize) ++ encodeFixed32 (u32 usize) ++ [z2b type].

(** The compressed payload, or the raw block when compression fails or does not help. *)
Definition choose_payload `{Codecs} (compression : CompressionType) (raw : bytes) : bytes * CompressionType :=
  if negb (compression =? cNone) then
    let '(s, compressed) := compressBlock compression raw in
    if ok s && (zlen compressed <? zlen raw) then (compressed, compression) else (raw, cNone)
  else (raw, cNone).

Definition index_entry (last_key : bytes) (offset total : Z) : bytes :=
  encodeVariant32 (u32 (zlen last_key)) ++ last_key ++ encodeFixed64 offset ++ encodeFixed64 total.

Definition sb_flushDataBlock `{Codecs} (fs : FS) (b : SSTableBuilder) : FS * SSTableBuilder * Status :=
  if bb_empty (sb_data_block b) then (fs, b, SOk)
  else
    let '(db, raw) := bb_finish (sb_data_block b) in
    let b := mkSB (sb_path b) (sb_open b) (sb_block_size b) db (sb_compression b) (sb_bloom b)
                  (sb_index_block b) (sb_last_key b) (sb_offset b) (sb_finished b) (sb_entry_count b) in
    let '(payload, used) := choose_payload (sb_compression b) raw in
    let header := block_header (crc32c payload) (zlen payload) (zlen raw) used in
    let block_offset := sb_offset b in
    let '(fs, n) := fs_write fs (sb_fd b) header in
    if negb (n =? Z.of_nat kSSTableBlockHeader)
    then (fs, b, SIOError (bs "SSTable write block header failed"))
    else
      let '(fs, n) := fs_write fs (sb_fd b) payload in
      if negb (n =? zlen payload)
      then (fs, b, SIOError (bs "SSTable write block data failed"))
      else
        let total := u64 (Z.of_nat kSSTableBlockHeader + zlen payload) in
        (fs, mkSB (sb_path b) (sb_open b) (sb_block_size b) (BlockBuilder_new (sb_block_size b))
                  (sb_compression b) (sb_bloom b)
                  (sb_index_block b ++ index_entry (sb_last_key b) block_offset total)
                  (sb_last_key b) (u64 (sb_offset b + total)) (sb_finished b) (sb_entry_count b), SOk).

(** [None] is the undefined behaviour of a Bloom filter of size zero. *)
Definition sb_add `{Codecs} (fs : FS) (b : SSTableBuilder) (internalKey userKey value : bytes)
  : option (FS * SSTableBuilder * Status) :=
  let db := bb_add (sb_data_block b) internalKey value in
  bloom ← bf_add (sb_bloom b) userKey;
  let b := mkSB (sb_path b) (sb_open b) (sb_block_size b) db (sb_compression b) bloom
                (sb_index_block b) internalKey (sb_offset b) (sb_finished b)
                (u64 (sb_entry_count b + 1)) in
  if bb_size db >=? sb_block_size b then Some (sb_flushDataBlock fs b) else Some (fs, b, SOk).

Definition sst_footer (index_offset index_size : Z) : bytes :=
  encodeFixed64 index_offset ++ encodeFixed64 index_size ++ [z2b kSSTableFormatVersion] ++
  replicate 23 (z2b 0) ++ encodeFixed64 kSSTableMagic.

Definition sb_writeFooter (fs : FS) (b : SSTableBuilder) : FS * SSTableBuilder :=
  let isz := zlen (sb_index_block b) in
  let '(fs, _) := fs_write fs (sb_fd b) (sst_footer (u64 (sb_offset b - (8 + isz))) (u64 (isz + 8))) in
  (fs, mkSB (sb_path b) (sb_open b) (sb_block_size b) (sb_data_block b) (sb_compression b) (sb_bloom b)
            (sb_index_block b) (sb_last_key b) (u64 (sb_offset b + Z.of_nat kSSTableFooterSize))
            (sb_finished b) (sb_entry_count b)).

Definition sb_finish `{Codecs} (fs : FS) (b : SSTableBuilder) : FS * SSTableBuilder * Status :=
  if sb_finished b then (fs, b, SOk)
  else
    let b := mkSB (sb_path b) (sb_open b) (sb_block_size b) (sb_data_block b) (sb_compression b)
                  (sb_bloom b) (sb_index_block b) (sb_last_key b) (sb_offset b) true (sb_entry_count b) in
    let '(fs, b, _) := sb_flushDataBlock fs b in
    let fs := fs_ofstream fs (sb_path b ++ bs ".bloom") (bf_persist (sb_bloom b)) in
    let isz := zlen (sb_index_block b) in
    let '(fs, n1) := fs_write fs (sb_fd b) (encodeFixed32 (crc32c (sb_index_block b)) ++ encodeFixed32 (u32 isz)) in
    let '(fs, n2) := fs_write fs (sb_fd b) (sb_index_block b) in
    if negb (n1 =? 8) || negb (n2 =? isz) then (fs, b, SIOError (bs "SSTable write index block failed"))
    else
      let b := mkSB (sb_path b) (sb_open b) (sb_block_size b) (sb_data_block b) (sb_compression b)
                    (sb_bloom b) (sb_index_block b) (sb_last_key b) (u64 (sb_offset b + (8 + isz)))
                    (sb_finished b) (sb_entry_count b) in
      let '(fs, b) := sb_writeFooter fs b in
      let '(fs, _) := fs_fdatasync fs (sb_fd b) in
      (fs, b, SOk).

(** The loop that adds entries and does not look at the returned status (the flush path). *)
Fixpoint sb_add_all `{Codecs} (fs : FS) (b : SSTableBuilder) (l : list entry) : option (FS * SSTableBuilder) :=
  match l with
  | [] => Some (fs, b)
  | (ik, v) :: l =>
      '(fs, b, _) ← sb_add fs b ik (InternalKeyUserKey ik) v;
      sb_add_all fs b l
  end.

(** The destructor finishes a builder that was not. *)
Definition sb_destroy `{Codecs} (fs : FS) (b : SSTableBuilder) : FS :=
  if sb_finished b then fs else let '(fs, _, _) := sb_finish fs b in fs.

Definition sb_fileSize (b : SSTableBuilder) : Z := sb_offset b.

(** ** SSTableReader *)

Record IndexEntry := mkIE { ie_last_key : bytes; ie_handle : BlockHandle }.

Record SSTableReader := mkSR {
  sr_path : bytes;
  sr_file : bytes;          (* the contents behind fd_ *)
  sr_format_version : Z;
  sr_index_offset : Z;
  sr_index_size : Z;
  sr_index_entries : list IndexEntry;
  sr_bloom : option BloomFilter;
}.

(** The loop over the index block, on the bytes from [offset] on.  Each entry takes more
    than sixteen bytes; the fuel is the length of the index plus one. *)
Fixpoint parse_index (fuel : nat) (p : bytes) : option (list IndexEntry) :=
  match fuel with
  | O => None
  | S fuel =>
      match p with
      | [] => Some []
      | _ =>
          match decodeVariant32 p with
          | None => Some []
          | Some (keyLen, consumed) =>
              let p := drop (Z.to_nat consumed) p in
              lastKey ← read_n (Z.to_nat keyLen) p;
              let p := drop (Z.to_nat keyLen) p in
              off ← decodeFixed64 p;
              sz ← decodeFixed64 (drop 8 p);
              rest ← parse_index fuel (drop 16 p);
              Some (mkIE lastKey (mkHandle off sz) :: rest)
          end
      end
  end.

(** [read(fd, buf, n)] at a position: the bytes read, fewer than [n] at the end of file. *)
Definition pread (file : bytes) (pos : Z) (n : nat) : bytes := take n (drop (Z.to_nat pos) file).

(** The inner [None] is a null pointer, the outer one undefined behaviour. *)
Definition sr_open (fs : FS) (path : bytes) : option (option SSTableReader) :=
  match fs_read fs path with
  | None => Some None
  | Some file =>
      if decide (length file < kSSTableFooterSize)%nat then Some None
      else
        let footer := pread file (zlen file - Z.of_nat kSSTableFooterSize) kSSTableFooterSize in
        magic ← decodeFixed64 (drop 40 footer);
        if negb (magic =? kSSTableMagic) then Some None
        else
          version ← footer !! 16%nat;
          if b2z version >? kSSTableFormatVersion then Some None
          else
            index_offset ← decodeFixed64 footer;
            index_size ← decodeFixed64 (drop 8 footer);
            let idxHeader := pread file index_offset 8 in
            if negb (bool_decide (length idxHeader = 8%nat)) then Some None
            else
              idxLen ← decodeFixed32 (drop 4 idxHeader);
              let index_data := pread file (index_offset + 8) (Z.to_nat idxLen) in
              if negb (bool_decide (length index_data = Z.to_nat idxLen)) then Some None
              else
                entries ← parse_index (S (length index_data)) index_data;
                bloom ← match fs_read fs (path ++ bs ".bloom") with
                        | None => Some None
                        | Some f => b ← bf_load f; Some (Some b)
                        end;
                Some (Some (mkSR path file (b2z version) index_offset index_size entries bloom))
  end.

(** [readBlock] past the cache: the header, the checksum and the decompression. *)
Definition read_at `{Codecs} (file : bytes) (offset : Z) : Status * bytes :=
  let hdr := pread file offset kSSTableBlockHeader in
  if negb (bool_decide (length hdr = kSSTableBlockHeader))
  then (SIOError (bs "failed to read block header"), [])
  else
    let crc := default 0 (decodeFixed32 hdr) in
    let payload_size := default 0 (decodeFixed32 (drop 4 hdr)) in
    let uncompressed_sz := default 0 (decodeFixed32 (drop 8 hdr)) in
    let type := default 0 (b2z <$> hdr !! 12%nat) in
    if payload_size =? 0 then (SOk, [])
    else
      let payload := pread file (offset + Z.of_nat kSSTableBlockHeader) (Z.to_nat payload_size) in
      if negb (bool_decide (length payload = Z.to_nat payload_size))
      then (SIOError (bs "failed to read block payload"), [])
      else if negb (crc32c payload =? crc) then (SCorruption (bs "SSTable block CRC mismatch"), [])
      else decompressBlock type payload uncompressed_sz.

(** Whether the block was read through to the payload, the case in which it is cached. *)
Definition has_payload (file : bytes) (offset : Z) : bool :=
  negb (default 0 (decodeFixed32 (drop 4 (pread file offset kSSTableBlockHeader))) =? 0).

Definition sr_readBlock `{Codecs} (r : SSTableReader) (cache : option BlockCache) (h : BlockHandle)
  : option BlockCache * Status * bytes :=
  if bh_size h <? Z.of_nat kSSTableBlockHeader
  then (cache, SCorruption (bs "SSTable block handle size too small"), [])
  else
    let '(cache, hit) :=
      match cache with
      | None => (None, None)
      | Some c => let '(c, d) := bc_get c (sr_path r, bh_offset h) in (Some c, d)
      end in
    match hit with
    | Some cached => (cache, SOk, cached)
    | None =>
        let '(s, out) := read_at (sr_file r) (bh_offset h) in
        let cache :=
          match cache with
          | Some c => if ok s && has_payload (sr_file r) (bh_offset h)
                      then Some (bc_put c (sr_path r, bh_offset h) out) else Some c
          | None => None
          end in
        (cache, s, out)
    end.

(** The comparator of the binary search: the block ends before the key. *)
Definition ie_before (userKey : bytes) (e : IndexEntry) : bool :=
  is_lt (Slice_compare (InternalKeyUserKey (ie_last_key e)) userKey).

Definition sr_get `{Codecs} (r : SSTableReader) (cache : option BlockCache) (userKey : bytes)
  : option (option BlockCache * option bytes) :=
  if bool_decide (sr_index_entries r = []) then Some (cache, None)
  else
    may ← match sr_bloom r with Some f => bf_mightContain f userKey | None => Some true end;
    if negb may then Some (cache, None)
    else
      match sr_index_entries r !! lower_bound (ie_before userKey) (sr_index_entries r) with
      | None => Some (cache, None)
      | Some e =>
          let '(cache, s, block) := sr_readBlock r cache (ie_handle e) in
          if ok s then res ← br_getByUserKey (BlockReader_new block) userKey; Some (cache, res)
          else Some (cache, None)
      end.

Definition sr_mightContain (r : SSTableReader) (key : bytes) : option bool :=
  match sr_bloom r with Some f => bf_mightContain f key | None => Some false end.

(** The filter of the inner callback of [scan]. *)
Definition in_range (start stop : bytes) (p : entry) : bool :=
  let uk := InternalKeyUserKey p.1 in
  negb (negb (bool_decide (start = [])) && is_lt (Slice_compare uk start)) &&
  negb (negb (bool_decide (stop = [])) && is_gt (Slice_compare uk stop)).

(** [scan]: the status and the sequence of callback arguments. *)
Fixpoint scan_loop `{Codecs} (r : SSTableReader) (start stop : bytes) (ies : list IndexEntry)
  (cache : option BlockCache) : option (option BlockCache * Status * list entry) :=
  match ies with
  | [] => Some (cache, SOk, [])
  | e :: ies =>
      if negb (bool_decide (stop = [])) && is_gt (Slice_compare (InternalKeyUserKey (ie_last_key e)) stop)
      then Some (cache, SOk, [])
      else
        let '(cache, s, block) := sr_readBlock r cache (ie_handle e) in
        if ok s then
          es ← br_forEach (BlockReader_new block);
          '(cache, s, rest) ← scan_loop r start stop ies cache;
          Some (cache, s, filter (fun p => in_range start stop p = true) es ++ rest)
        else Some (cache, s, [])
  end.

Definition sr_scan `{Codecs} (r : SSTableReader) (cache : option BlockCache) (start stop : bytes) :=
  scan_loop r start stop (sr_index_entries r) cache.

(** ** SSTableIterator *)

Definition SSTableIterator_new `{Codecs} (r : SSTableReader) (cache : option BlockCache)
  : option (option BlockCache * VecIter) :=
  '(cache, st, es) ← sr_scan r cache [] [];
  if ok st then Some (cache, mkVecIter (sort_by (lt_keyed InternalKeyCompare fst) es) 0 SOk)
  else Some (cache, mkVecIter es 0 st).
