(* ===== verification/SSTableProofs.v ===== *)
(** * SSTables: what a table built from entries contains

    The layout of a file, the builder's invariant, and the reader on a built file: opening
    it succeeds, scanning yields the entries, a lookup returns the newest version, with or
    without a block cache. *)

From Stdlib Require Import ZArith Lia.
From stdpp Require Import base numbers strings list gmap.
From S2P Require Import Prelude Coding Slice InternalKey SkipHeap SkipList Versions MemTable Bloom Block Caches.
From S2P Require Import Compression FileSystem SSTable.
Local Open Scope Z_scope.

(** ** Sizes *)

(** A bound on the bytes that entries can take in a block, its trailer and the index. *)
Definition weight (l : list entry) : Z := foldr (fun p a => zlen p.1 + zlen p.2 + 64 + a) 0 l.

Lemma weight_app l1 l2 : weight (l1 ++ l2) = weight l1 + weight l2.
Proof. induction l1 as [|p l1 IH]; simpl; [done|]. rewrite IH. lia. Qed.

Lemma weight_length l : 64 * zlen l <= weight l.
Proof.
  induction l as [|p l IH]; simpl; [done|]. rewrite zlen_cons.
  pose proof (zlen_nonneg p.1). pose proof (zlen_nonneg p.2). lia.
Qed.

Lemma weight_elem l p : p ∈ l -> zlen p.1 + zlen p.2 + 64 <= weight l.
Proof.
  induction l as [|q l IH]; [by intros ?%not_elem_of_nil|]. simpl.
  pose proof (weight_length l). pose proof (zlen_nonneg l).
  pose proof (zlen_nonneg q.1). pose proof (zlen_nonneg q.2).
  intros [->|Hp]%elem_of_cons; [lia|]. specialize (IH Hp). lia.
Qed.

Lemma weight_fits l : weight l < 2 ^ 30 -> Forall fits l.
Proof.
  intros Hw. apply Forall_forall. intros p Hp%weight_elem.
  pose proof (zlen_nonneg p.1). pose proof (zlen_nonneg p.2). unfold fits. lia.
Qed.

Lemma zlen_variant v : zlen (encodeVariant32 (u32 v)) <= 5.
Proof. pose proof (encodeVariant32_length (u32 v) (u32_range v)). unfold zlen. lia. Qed.

Lemma block_entry_size sh k v : (sh <= length k)%nat -> zlen (block_entry sh k v) <= zlen k + zlen v + 15.
Proof.
  intros Hs. unfold block_entry. rewrite !zlen_app.
  pose proof (zlen_variant (Z.of_nat sh)). pose proof (zlen_variant (zlen k - Z.of_nat sh)).
  pose proof (zlen_variant (zlen v)). unfold zlen in *. rewrite length_drop. lia.
Qed.

(** The buffer and the restart array stay within the weight of what was added. *)
Definition bb_bound (b : BlockBuilder) (l : list entry) : Prop :=
  zlen (bb_buffer b) + 4 * zlen (bb_restarts b) <= weight l + 4.

Lemma bb_bound_new n : bb_bound (BlockBuilder_new n) [].
Proof. done. Qed.

Lemma bb_bound_add b l k v : bb_bound b l -> bb_bound (bb_add b k v) (l ++ [(k, v)]).
Proof.
  unfold bb_bound. intros Hb. rewrite weight_app. simpl. unfold bb_add.
  destruct (shared_prefix_spec (bb_last_key b) k) as [Hs _].
  pose proof (block_entry_size (shared_prefix (bb_last_key b) k) k v Hs).
  pose proof (block_entry_size 0 k v ltac:(lia)).
  destruct (_ && _); [|destruct (_ >=? _)]; cbn [bb_buffer bb_restarts];
    rewrite ?zlen_app, ?zlen_cons, ?zlen_nil; lia.
Qed.

Lemma bb_finish_size b l : bb_bound b l -> zlen (bb_finish b).2 <= weight l + 8.
Proof.
  unfold bb_bound, bb_finish. cbn [snd]. intros Hb. rewrite zlen_app.
  pose proof (length_bb_trailer (bb_restarts b)). unfold zlen in *. lia.
Qed.

Lemma bb_rep_empty b l : bb_rep b l -> bb_empty b = bool_decide (l = []).
Proof.
  intros [He _]. unfold bb_empty. apply bool_decide_ext. pose proof (encodes_length _ _ _ He) as Hl.
  split; intros H0; [|subst l; by inversion He].
  rewrite H0 in Hl. destruct l; [done|simpl in Hl; lia].
Qed.

(** ** One block on disk *)

Lemma pread_app (pre mid post : bytes) n :
  length mid = n -> pread (pre ++ mid ++ post) (zlen pre) n = mid.
Proof. intros Hn. unfold pread. rewrite to_nat_zlen, drop_app_length. by apply take_app_exact. Qed.

Lemma block_header_fields crc ps us t :
  0 <= crc < 2 ^ 32 -> 0 <= ps < 2 ^ 32 -> 0 <= us < 2 ^ 32 ->
  let h := block_header crc ps us t in
  decodeFixed32 h = Some crc /\ decodeFixed32 (drop 4 h) = Some ps /\
  decodeFixed32 (drop 8 h) = Some us /\ h !! 12%nat = Some (z2b t).
Proof.
  intros Hc Hp Hu h. subst h. unfold block_header. rewrite !(u32_small) by lia.
  rewrite decodeFixed32_encode by done.
  rewrite (drop_app_exact _ _ 4) by done. rewrite decodeFixed32_encode by done.
  rewrite !app_assoc, <- (app_assoc (_ ++ _)), (drop_app_exact _ _ 8) by done.
  rewrite decodeFixed32_encode by done. done.
Qed.

Section Codec.
Context `{HC : Codecs} `{HL : !CodecLaws}.

(** [stored phys raw]: wherever the bytes [phys] lie in a file, reading the block there
    gives [raw]. *)
Definition stored (phys raw : bytes) : Prop :=
  forall pre post, read_at (pre ++ phys ++ post) (zlen pre) = (SOk, raw).

Lemma choose_payload_spec ct raw payload used :
  choose_payload ct raw = (payload, used) ->
  decompressBlock used payload (zlen raw) = (SOk, raw) /\ zlen payload <= zlen raw /\
  (used = cNone /\ payload = raw \/ used = ct /\ compressBlock ct raw = (SOk, payload)).
Proof.
  unfold choose_payload. destruct (ct =? cNone) eqn:E0; simpl.
  { intros [= <- <-]. split; [done|]. split; [lia|by left]. }
  destruct (compressBlock ct raw) as [s c] eqn:E.
  destruct (ok s && _) eqn:E1; intros [= <- <-]; [|split; [done|]; split; [lia|by left]].
  apply andb_true_iff in E1 as [Hok Hlt].
  assert (s = SOk) as -> by by eapply compressBlock_ok.
  split; [by apply decompress_compress|]. split; [lia|auto].
Qed.

Lemma choose_payload_nonempty ct raw payload used :
  choose_payload ct raw = (payload, used) -> raw <> [] -> payload <> [].
Proof.
  intros Hch Hne. destruct (choose_payload_spec _ _ _ _ Hch) as (_ & _ & [[_ ->]|[_ Hc]]); [done|].
  by eapply compressBlock_nonempty.
Qed.

Lemma compress_type_range ct raw payload : compressBlock ct raw = (SOk, payload) -> 0 <= ct < 256.
Proof.
  unfold compressBlock.
  destruct (Z.eqb_spec ct cNone) as [->|]; [unfold cNone; lia|].
  destruct (Z.eqb_spec ct cSnappy) as [->|]; [unfold cSnappy; lia|].
  destruct (Z.eqb_spec ct cZstd) as [->|]; [unfold cZstd; lia|done].
Qed.

Lemma stored_block ct raw payload used :
  choose_payload ct raw = (payload, used) -> payload <> [] -> zlen raw < 2 ^ 31 ->
  stored (block_header (crc32c payload) (zlen payload) (zlen raw) used ++ payload) raw.
Proof.
  intros Hch Hne Hraw pre post.
  destruct (choose_payload_spec _ _ _ _ Hch) as (Hdec & Hle & Hused).
  assert (0 <= used < 256) as Hur.
  { destruct Hused as [[-> _]|[-> Hc]]; [unfold cNone; lia|by apply compress_type_range in Hc]. }
  pose proof (zlen_nonneg raw). pose proof (zlen_nonneg payload).
  assert (zlen payload <> 0) by (destruct payload; [done|rewrite zlen_cons; pose proof (zlen_nonneg payload); lia]).
  set (hdr := block_header _ _ _ _). assert (length hdr = 13%nat) as Hl by done.
  unfold read_at. rewrite <- (app_assoc hdr). unfold kSSTableBlockHeader.
  rewrite pread_app by done. rewrite Hl, bool_decide_eq_true_2 by done. cbn [negb].
  destruct (block_header_fields (crc32c payload) (zlen payload) (zlen raw) used) as (E1 & E2 & E3 & E4);
    [apply crc32c_range|lia..|]. fold hdr in E1, E2, E3, E4. rewrite E1, E2, E3, E4. cbn [fmap option_fmap option_map from_option id].
  rewrite b2z_z2b, Z.mod_small by lia.
  replace (zlen payload =? 0) with false by lia.
  replace (zlen pre + Z.of_nat 13) with (zlen (pre ++ hdr)) by (rewrite zlen_app; done).
  rewrite to_nat_zlen, app_assoc, pread_app by done. rewrite bool_decide_eq_true_2 by done.
  by rewrite Z.eqb_refl.
Qed.

(** ** The layout of the data blocks *)

(** A flushed block: its entries and its bytes on disk. *)
Abbreviation fblock := (list entry * bytes)%type.

Record good_block (fb : fblock) : Prop := {
  gb_raw : exists raw, stored fb.2 raw /\ br_forEach (BlockReader_new raw) = Some fb.1 /\
           forall uk, br_getByUserKey (BlockReader_new raw) uk = Some (mt_scan uk fb.1);
  gb_nonempty : fb.1 <> [];
  gb_size : Z.of_nat kSSTableBlockHeader <= zlen fb.2 <= weight fb.1 + 21;
}.

Definition data_of (fbs : list fblock) : bytes := concat (snd <$> fbs).
Definition rows_of (fbs : list fblock) : list entry := concat (fst <$> fbs).

Definition fb_last (fb : fblock) : bytes := default [] (last fb.1.*1).

Fixpoint index_from (off : Z) (fbs : list fblock) : list IndexEntry :=
  match fbs with
  | [] => []
  | fb :: fbs => mkIE (fb_last fb) (mkHandle off (zlen fb.2)) :: index_from (off + zlen fb.2) fbs
  end.

Definition index_bytes (ies : list IndexEntry) : bytes :=
  concat ((fun e => index_entry (ie_last_key e) (bh_offset (ie_handle e)) (bh_size (ie_handle e))) <$> ies).

Lemma data_of_snoc fbs fb : data_of (fbs ++ [fb]) = data_of fbs ++ fb.2.
Proof. unfold data_of. rewrite fmap_app, concat_app. simpl. by rewrite app_nil_r. Qed.

Lemma rows_of_snoc fbs fb : rows_of (fbs ++ [fb]) = rows_of fbs ++ fb.1.
Proof. unfold rows_of. rewrite fmap_app, concat_app. simpl. by rewrite app_nil_r. Qed.

Lemma data_of_cons fb fbs : data_of (fb :: fbs) = fb.2 ++ data_of fbs.
Proof. done. Qed.

Lemma rows_of_cons fb fbs : rows_of (fb :: fbs) = fb.1 ++ rows_of fbs.
Proof. done. Qed.

Lemma index_from_snoc off fbs fb :
  index_from off (fbs ++ [fb]) =
  index_from off fbs ++ [mkIE (fb_last fb) (mkHandle (off + zlen (data_of fbs)) (zlen fb.2))].
Proof.
  revert off. induction fbs as [|x fbs IH]; intros off; simpl.
  - change (zlen (data_of [])) with 0. by rewrite Z.add_0_r.
  - by rewrite IH, data_of_cons, zlen_app, Z.add_assoc.
Qed.

Lemma index_bytes_snoc ies e :
  index_bytes (ies ++ [e]) =
  index_bytes ies ++ index_entry (ie_last_key e) (bh_offset (ie_handle e)) (bh_size (ie_handle e)).
Proof. unfold index_bytes. rewrite fmap_app, concat_app. simpl. by rewrite app_nil_r. Qed.

Lemma good_blocks_size fbs :
  Forall good_block fbs -> zlen (data_of fbs) <= 2 * weight (rows_of fbs) /\ zlen fbs * 64 <= weight (rows_of fbs).
Proof.
  induction 1 as [|fb fbs Hg _ IH]; [done|].
  rewrite data_of_cons, rows_of_cons, zlen_app, zlen_cons, weight_app.
  pose proof (gb_size _ Hg) as Hs. pose proof (weight_length fb.1) as Hw.
  destruct fb as [[|p es] phys]; [by destruct (gb_nonempty _ Hg)|]. simpl fst in *. simpl snd in *.
  rewrite zlen_cons in Hw. pose proof (zlen_nonneg es). lia.
Qed.

(** ** The builder's invariant *)

Record sb_rep (files : gmap bytes bytes) (b : SSTableBuilder) (fbs : list fblock) (pend : list entry) : Prop := {
  sbr_open : sb_open b = true;
  sbr_file : files !! sb_path b = Some (data_of fbs);
  sbr_offset : sb_offset b = zlen (data_of fbs);
  sbr_index : sb_index_block b = index_bytes (index_from 0 fbs);
  sbr_good : Forall good_block fbs;
  sbr_pend : bb_rep (sb_data_block b) pend;
  sbr_bound : bb_bound (sb_data_block b) pend;
  sbr_last : sb_last_key b = default [] (last (rows_of fbs ++ pend).*1);
  sbr_bloom : bf_le (BloomFilter_new 10000 bits_for_001) (sb_bloom b);
  sbr_keys : Forall (fun p => bf_mightContain (sb_bloom b) (InternalKeyUserKey p.1) = Some true)
                    (rows_of fbs ++ pend);
  sbr_weight : weight (rows_of fbs ++ pend) < 2 ^ 30;
}.

(** The fields no operation changes. *)
Definition same_config (b b' : SSTableBuilder) : Prop :=
  sb_path b' = sb_path b /\ sb_open b' = sb_open b /\ sb_block_size b' = sb_block_size b /\
  sb_compression b' = sb_compression b /\ sb_finished b' = sb_finished b.

Lemma last_app_r {A} (l1 l2 : list A) : l2 <> [] -> last (l1 ++ l2) = last l2.
Proof. intros Hne. destruct l2 as [|x l2 _] using rev_ind; [done|]. by rewrite app_assoc, !last_snoc. Qed.

Lemma good_block_pending b pend raw payload used ct :
  bb_rep b pend -> bb_bound b pend -> pend <> [] -> weight pend < 2 ^ 30 ->
  raw = (bb_finish b).2 -> choose_payload ct raw = (payload, used) ->
  good_block (pend, block_header (crc32c payload) (zlen payload) (zlen raw) used ++ payload).
Proof.
  intros Hr Hb Hne Hw -> Hch. pose proof (bb_finish_size _ _ Hb) as Hs.
  assert (payload <> []) as Hp.
  { eapply choose_payload_nonempty; [exact Hch|]. intros H0%(f_equal length). simpl in H0.
    rewrite length_app, length_bb_trailer in H0. simpl in H0. lia. }
  destruct (choose_payload_spec _ _ _ _ Hch) as (_ & Hle & _).
  split; cbn [fst snd]; [|done|].
  - exists (bb_finish b).2. split; [apply (stored_block ct); [done..|lia]|].
    split; [apply br_forEach_built; [done|lia]|].
    intros uk. apply br_getByUserKey_built; [done|lia].
  - rewrite zlen_app. change (zlen (block_header _ _ _ _)) with 13. unfold kSSTableBlockHeader.
    pose proof (zlen_nonneg payload). lia.
Qed.
Definition others_same (path : bytes) (files files' : gmap bytes bytes) : Prop :=
  forall p, p <> path -> files' !! p = files !! p.

Lemma sb_flush_ok files b fbs pend :
  sb_rep files b fbs pend ->
  exists files' b' fbs', sb_flushDataBlock (fs_of files) b = (fs_of files', b', SOk) /\
    same_config b b' /\ others_same (sb_path b) files files' /\
    rows_of fbs' = rows_of fbs ++ pend /\ sb_rep files' b' fbs' [].
Proof.
  intros Hr. unfold sb_flushDataBlock. rewrite (bb_rep_empty _ _ (sbr_pend _ _ _ _ Hr)).
  case_bool_decide as Hp.
  { subst pend. exists files, b, fbs. rewrite app_nil_r. split; [done|]. split; [by repeat split|].
    split; [done|]. split; [done|done]. }
  destruct (bb_finish (sb_data_block b)) as [db raw] eqn:Ef. unfold sb_fd.
  cbn [sb_compression sb_offset sb_open sb_path].
  destruct (choose_payload (sb_compression b) raw) as [payload used] eqn:Hch.
  set (hdr := block_header _ _ _ _).
  pose proof (sbr_weight _ _ _ _ Hr) as Hw. rewrite weight_app in Hw.
  pose proof (weight_length (rows_of fbs)). pose proof (zlen_nonneg (rows_of fbs)).
  assert (good_block (pend, hdr ++ payload)) as Hg.
  { apply (good_block_pending (sb_data_block b) pend raw payload used (sb_compression b));
      [apply Hr..|done|lia|by rewrite Ef|done]. }
  pose proof (gb_size _ Hg) as Hgs. cbn [fst snd] in Hgs. rewrite zlen_app in Hgs.
  change (zlen hdr) with 13 in Hgs.
  pose proof (proj1 (good_blocks_size _ (sbr_good _ _ _ _ Hr))). pose proof (zlen_nonneg (data_of fbs)).
  pose proof (weight_length pend). pose proof (zlen_nonneg pend). pose proof (zlen_nonneg payload).
  rewrite (sbr_open _ _ _ _ Hr), !fs_write_ok. change (zlen hdr =? Z.of_nat kSSTableBlockHeader) with true.
  cbn [negb]. rewrite Z.eqb_refl. cbn [negb].
  rewrite lookup_insert_eq, insert_insert_eq, (sbr_file _ _ _ _ Hr). cbn [from_option id].
  unfold kSSTableBlockHeader. rewrite (sbr_offset _ _ _ _ Hr).
  replace (Z.of_nat 13 + zlen payload) with (zlen (hdr ++ payload)) by (rewrite zlen_app; done).
  assert (u64 (zlen (hdr ++ payload)) = zlen (hdr ++ payload)) as Hu1
    by (apply u64_small; rewrite zlen_app; change (zlen hdr) with 13; lia).
  rewrite Hu1. rewrite (u64_small (_ + _)) by (rewrite zlen_app; change (zlen hdr) with 13; lia).
  eexists _, _, (fbs ++ [(pend, hdr ++ payload)]). split; [done|].
  split; [repeat split; cbn; by rewrite ?(sbr_open _ _ _ _ Hr)|].
  split; [intros p Hpne; by rewrite lookup_insert_ne|]. rewrite rows_of_snoc. split; [done|].
  assert ((rows_of fbs ++ pend).*1 = (rows_of fbs).*1 ++ pend.*1) as Hfa by apply fmap_app.
  assert (last (rows_of fbs ++ pend).*1 = last pend.*1) as Hlast.
  { rewrite Hfa. apply last_app_r. by destruct pend. }
  split; cbn [sb_open sb_path sb_offset sb_index_block sb_data_block sb_last_key sb_bloom];
    rewrite ?rows_of_snoc, ?data_of_snoc, ?app_nil_r; cbn [fst snd].
  - done.
  - by rewrite lookup_insert_eq, <- app_assoc.
  - by rewrite (zlen_app (data_of fbs)).
  - rewrite index_from_snoc, index_bytes_snoc, (sbr_index _ _ _ _ Hr). f_equal.
    cbn [ie_last_key ie_handle bh_offset bh_size fst snd]. unfold fb_last. cbn [fst snd].
    by rewrite (sbr_last _ _ _ _ Hr), Hlast, Z.add_0_l.
  - apply Forall_app. split; [apply Hr|by apply Forall_singleton].
  - apply bb_rep_new.
  - apply bb_bound_new.
  - apply Hr.
  - apply Hr.
  - apply Hr.
  - apply Hr.
Qed.

Lemma sb_add_ok files b fbs pend ik v :
  sb_rep files b fbs pend -> weight (rows_of fbs ++ pend ++ [(ik, v)]) < 2 ^ 30 ->
  exists files' b' fbs' pend', sb_add (fs_of files) b ik (InternalKeyUserKey ik) v = Some (fs_of files', b', SOk) /\
    same_config b b' /\ others_same (sb_path b) files files' /\
    rows_of fbs' ++ pend' = (rows_of fbs ++ pend) ++ [(ik, v)] /\ sb_rep files' b' fbs' pend'.
Proof.
  intros Hr Hw. unfold sb_add.
  assert (bf_usable (sb_bloom b)) as Hu.
  { eapply bf_le_usable; [apply (sbr_bloom _ _ _ _ Hr)|]. apply BloomFilter_new_001; lia. }
  destruct (bf_add_spec (sb_bloom b) (InternalKeyUserKey ik) Hu) as (bl & -> & Hle & Hin). cbn [mbind option_bind].
  assert (Forall fits [(ik, v)]) as Hfit.
  { apply weight_fits. rewrite !weight_app in Hw. pose proof (weight_length (rows_of fbs)).
    pose proof (weight_length pend). pose proof (zlen_nonneg (rows_of fbs)). pose proof (zlen_nonneg pend). lia. }
  set (b1 := mkSB _ _ _ _ _ _ _ _ _ _ _).
  assert (sb_rep files b1 fbs (pend ++ [(ik, v)])) as Hr1.
  { subst b1. split; cbn [sb_open sb_path sb_offset sb_index_block sb_data_block sb_last_key sb_bloom]; try apply Hr.
    - apply bb_rep_add; [apply Hr|]. by inversion Hfit.
    - apply bb_bound_add, Hr.
    - rewrite app_assoc, fmap_app. cbn [fmap list_fmap fst]. by rewrite last_snoc.
    - transitivity (sb_bloom b); [apply Hr|done].
    - rewrite app_assoc. apply Forall_app. split; [|by repeat constructor].
      eapply Forall_impl; [apply (sbr_keys _ _ _ _ Hr)|]. intros p Hp. by eapply bf_mightContain_mono.
    - done. }
  destruct (_ >=? _).
  - destruct (sb_flush_ok files b1 fbs _ Hr1) as (files' & b' & fbs' & -> & Hs & Ho & Hrows & Hr').
    exists files', b', fbs', []. rewrite app_nil_r, Hrows, app_assoc. done.
  - exists files, b1, fbs, (pend ++ [(ik, v)]). rewrite app_assoc. split; [done|].
    split; [by repeat split|]. split; [done|]. split; [done|exact Hr1].
Qed.

Lemma sb_add_all_ok l files b fbs pend :
  sb_rep files b fbs pend -> weight (rows_of fbs ++ pend ++ l) < 2 ^ 30 ->
  exists files' b' fbs' pend', sb_add_all (fs_of files) b l = Some (fs_of files', b') /\
    same_config b b' /\ others_same (sb_path b) files files' /\
    rows_of fbs' ++ pend' = (rows_of fbs ++ pend) ++ l /\ sb_rep files' b' fbs' pend'.
Proof.
  revert files b fbs pend. induction l as [|[ik v] l IH]; intros files b fbs pend Hr Hw; simpl.
  { exists files, b, fbs, pend. rewrite app_nil_r. split; [done|]. split; [by repeat split|done]. }
  rewrite !weight_app in Hw. simpl in Hw. pose proof (weight_length l). pose proof (zlen_nonneg l).
  destruct (sb_add_ok files b fbs pend ik v Hr) as (files1 & b1 & fbs1 & pend1 & -> & Hs1 & Ho1 & Hrow1 & Hr1).
  { rewrite !weight_app. simpl. lia. }
  simpl. destruct (IH files1 b1 fbs1 pend1 Hr1) as (files2 & b2 & fbs2 & pend2 & -> & Hs2 & Ho2 & Hrow2 & Hr2).
  { rewrite app_assoc, Hrow1, !weight_app. simpl. lia. }
  exists files2, b2, fbs2, pend2. split; [done|].
  destruct Hs1 as (P1 & P2 & P3 & P4 & P5), Hs2 as (Q1 & Q2 & Q3 & Q4 & Q5).
  split; [repeat split; congruence|]. split; [|by rewrite Hrow2, Hrow1, <- app_assoc].
  intros p Hp. rewrite Ho2, Ho1 by congruence. done.
Qed.

(** ** A finished table *)

Definition sst_bytes (fbs : list fblock) : bytes :=
  let idx := index_bytes (index_from 0 fbs) in
  data_of fbs ++ (encodeFixed32 (crc32c idx) ++ encodeFixed32 (u32 (zlen idx))) ++ idx ++
  sst_footer (zlen (data_of fbs)) (zlen idx + 8).

(** What the reader needs of the filter beside its contents. *)
Definition bloom_ok (f : BloomFilter) (l : list entry) : Prop :=
  bf_wf f /\ bf_usable f /\ Forall (fun p => bf_mightContain f (InternalKeyUserKey p.1) = Some true) l.

(** The file at [path] and its side file are a table of the entries [l]. *)
Definition sst_file (files : gmap bytes bytes) (path : bytes) (l : list entry) : Prop :=
  exists fbs bloom,
    rows_of fbs = l /\ Forall good_block fbs /\ weight l < 2 ^ 30 /\
    files !! path = Some (sst_bytes fbs) /\ files !! (path ++ bs ".bloom") = Some (bf_persist bloom) /\
    bloom_ok bloom l.

Lemma fb_last_size fb : good_block fb -> 0 <= zlen (fb_last fb) /\ zlen (fb_last fb) + 64 <= weight fb.1.
Proof.
  intros Hg. split; [apply zlen_nonneg|]. unfold fb_last.
  destruct (last fb.1.*1) as [k|] eqn:E; simpl.
  - apply last_Some_elem_of, list_elem_of_fmap in E as (p & -> & Hp). apply weight_elem in Hp.
    pose proof (zlen_nonneg p.2). lia.
  - apply last_None, fmap_nil_inv in E. by destruct (gb_nonempty _ Hg).
Qed.

Lemma zlen_index_entry k off t : zlen (index_entry k off t) = zlen (encodeVariant32 (u32 (zlen k))) + zlen k + 16.
Proof.
  unfold index_entry. rewrite !zlen_app. change (zlen (encodeFixed64 off)) with 8.
  change (zlen (encodeFixed64 t)) with 8. lia.
Qed.

Lemma index_size off fbs : Forall good_block fbs -> zlen (index_bytes (index_from off fbs)) <= weight (rows_of fbs).
Proof.
  intros Hg. revert off. induction Hg as [|fb fbs Hg _ IH]; intros off; [done|].
  change (index_bytes (index_from off (fb :: fbs)))
    with (index_entry (fb_last fb) off (zlen fb.2) ++ index_bytes (index_from (off + zlen fb.2) fbs)).
  rewrite zlen_app, rows_of_cons, weight_app, zlen_index_entry. specialize (IH (off + zlen fb.2)).
  pose proof (fb_last_size fb Hg). pose proof (zlen_variant (zlen (fb_last fb))). lia.
Qed.

Lemma index_length off fbs : (length fbs <= length (index_bytes (index_from off fbs)))%nat.
Proof.
  revert off. induction fbs as [|fb fbs IH]; intros off; [done|].
  change (index_bytes (index_from off (fb :: fbs)))
    with (index_entry (fb_last fb) off (zlen fb.2) ++ index_bytes (index_from (off + zlen fb.2) fbs)).
  rewrite length_app. specialize (IH (off + zlen fb.2)).
  pose proof (zlen_index_entry (fb_last fb) off (zlen fb.2)) as Hz. simpl.
  pose proof (zlen_nonneg (fb_last fb)). pose proof (zlen_nonneg (encodeVariant32 (u32 (zlen (fb_last fb))))).
  unfold zlen in Hz at 1. lia.
Qed.

Lemma parse_index_ok fuel off fbs :
  Forall good_block fbs -> weight (rows_of fbs) < 2 ^ 30 -> 0 <= off -> off + zlen (data_of fbs) < 2 ^ 64 ->
  (length fbs < fuel)%nat ->
  parse_index fuel (index_bytes (index_from off fbs)) = Some (index_from off fbs).
Proof.
  intros Hg. revert fuel off. induction Hg as [|fb fbs Hg _ IH]; intros fuel off Hw Ho Hs Hf;
    (destruct fuel as [|fuel]; [simpl in Hf; lia|]); [done|].
  change (index_bytes (index_from off (fb :: fbs)))
    with (index_entry (fb_last fb) off (zlen fb.2) ++ index_bytes (index_from (off + zlen fb.2) fbs)).
  rewrite rows_of_cons, weight_app in Hw. rewrite data_of_cons, zlen_app in Hs. simpl in Hf.
  pose proof (fb_last_size fb Hg) as Hl. pose proof (weight_length (rows_of fbs)).
  pose proof (zlen_nonneg (rows_of fbs)). pose proof (zlen_nonneg fb.2). pose proof (zlen_nonneg (data_of fbs)).
  pose proof (weight_length fb.1). pose proof (zlen_nonneg fb.1).
  unfold index_entry. rewrite <- !app_assoc. set (tail := index_bytes _).
  set (p := encodeVariant32 _ ++ _). cbn [parse_index].
  assert (p <> []) as Hp.
  { intros Hn%(f_equal length). subst p. rewrite length_app in Hn.
    pose proof (encodeVariant32_length (u32 (zlen (fb_last fb))) (u32_range _)). simpl in Hn. lia. }
  replace (match p with [] => Some [] | _ => _ end) with
    (match decodeVariant32 p with
     | None => Some []
     | Some (keyLen, consumed) =>
         lastKey ← read_n (Z.to_nat keyLen) (drop (Z.to_nat consumed) p);
         off ← decodeFixed64 (drop (Z.to_nat keyLen) (drop (Z.to_nat consumed) p));
         sz ← decodeFixed64 (drop 8 (drop (Z.to_nat keyLen) (drop (Z.to_nat consumed) p)));
         rest ← parse_index fuel (drop 16 (drop (Z.to_nat keyLen) (drop (Z.to_nat consumed) p)));
         Some (mkIE lastKey (mkHandle off sz) :: rest)
     end) by (by destruct p).
  subst p. rewrite decodeVariant32_encode by apply u32_range.
  rewrite to_nat_zlen, drop_app_length, u32_small, to_nat_zlen by lia.
  rewrite read_n_app by done. cbn [mbind option_bind]. rewrite drop_app_length.
  rewrite decodeFixed64_encode by lia. cbn [mbind option_bind].
  rewrite (drop_app_exact _ _ 8) by done. rewrite decodeFixed64_encode by lia. cbn [mbind option_bind].
  rewrite app_assoc, (drop_app_exact _ _ 16) by done. subst tail.
  rewrite (IH fuel) by lia. done.
Qed.

Lemma bloom_path_ne (path : bytes) : path <> path ++ bs ".bloom".
Proof. intros H0%(f_equal length). rewrite length_app in H0. simpl in H0. lia. Qed.

Lemma fs_ofstream_ok files path data : fs_ofstream (fs_of files) path data = fs_of (<[path := data]> files).
Proof. done. Qed.

Lemma sb_finish_ok files b fbs pend :
  sb_rep files b fbs pend -> sb_finished b = false ->
  exists files' b', sb_finish (fs_of files) b = (fs_of files', b', SOk) /\ sb_finished b' = true /\
    (forall p, p <> sb_path b -> p <> sb_path b ++ bs ".bloom" -> files' !! p = files !! p) /\
    sst_file files' (sb_path b) (rows_of fbs ++ pend).
Proof.
  intros Hr Hfin. unfold sb_finish. rewrite Hfin. set (b0 := mkSB _ _ _ _ _ _ _ _ _ _ _).
  assert (sb_rep files b0 fbs pend) as Hr0 by (subst b0; split; apply Hr).
  destruct (sb_flush_ok files b0 fbs pend Hr0) as (f1 & b1 & fbs1 & -> & (P1 & P2 & P3 & P4 & P5) & Ho & Hrows & Hr1).
  cbn [sb_path sb_finished b0] in P1, P5, Ho. rewrite P1. cbn iota beta.
  rewrite fs_ofstream_ok. unfold sb_fd. rewrite (sbr_open _ _ _ _ Hr1), !fs_write_ok.
  rewrite (Z.eqb_refl (zlen (sb_index_block b1))).
  change (zlen (encodeFixed32 _ ++ encodeFixed32 _) =? 8) with true. cbn [negb orb].
  unfold sb_writeFooter, sb_fd. cbn [sb_open sb_path sb_index_block sb_offset sb_finished].
  rewrite fs_write_ok. unfold fs_fdatasync. cbn [sb_open fs_of fs_script next_fault fs_crashed fs_faults fs_files].
  pose proof (sbr_weight _ _ _ _ Hr1) as Hw. rewrite app_nil_r in Hw.
  pose proof (proj1 (good_blocks_size _ (sbr_good _ _ _ _ Hr1))) as Hds.
  pose proof (index_size 0 _ (sbr_good _ _ _ _ Hr1)) as His. rewrite <- (sbr_index _ _ _ _ Hr1) in His.
  pose proof (zlen_nonneg (data_of fbs1)). pose proof (zlen_nonneg (sb_index_block b1)).
  pose proof (bloom_path_ne (sb_path b)) as Hne.
  eexists _, _. split; [reflexivity|]. split; [done|]. rewrite P1. split.
  { intros p Hp1 Hp2. rewrite !lookup_insert_ne by done. by apply Ho. }
  exists fbs1, (sb_bloom b1).
  split; [done|]. split; [apply Hr1|]. split; [by rewrite <- Hrows|]. split; [|split; [|split; [|split]]].
  - rewrite !lookup_insert_eq. cbn [from_option id]. rewrite (lookup_insert_ne _ (_ ++ _)) by done.
    rewrite <- P1, (sbr_file _ _ _ _ Hr1). cbn [from_option id]. f_equal. unfold sst_bytes.
    rewrite (sbr_offset _ _ _ _ Hr1), <- (sbr_index _ _ _ _ Hr1).
    rewrite (u64_small (zlen (data_of fbs1) + _)) by lia.
    rewrite !u64_small by lia. rewrite <- !app_assoc. do 7 f_equal. lia.
  - rewrite !lookup_insert_ne by done. by rewrite lookup_insert_eq.
  - eapply bf_le_wf; [apply (sbr_bloom _ _ _ _ Hr1)|]. apply BloomFilter_new_001; lia.
  - eapply bf_le_usable; [apply (sbr_bloom _ _ _ _ Hr1)|]. apply BloomFilter_new_001; lia.
  - rewrite <- Hrows. pose proof (sbr_keys _ _ _ _ Hr1) as Hk. by rewrite app_nil_r in Hk.
Qed.

Lemma SSTableBuilder_new_ok files path bsz ct :
  exists b, SSTableBuilder_new (fs_of files) path bsz ct = (fs_of (<[path := []]> files), b) /\
    sb_rep (<[path := []]> files) b [] [] /\ sb_finished b = false /\ sb_path b = path.
Proof.
  unfold SSTableBuilder_new. rewrite fs_open_ok. eexists. split; [done|]. split; [|done].
  split; simpl; try done; [by rewrite lookup_insert_eq|apply bb_rep_new].
Qed.

(** Building a table without faults. *)
Lemma sst_build_ok files path bsz ct l :
  weight l < 2 ^ 30 ->
  exists b0 files1 b1 files2 b2,
    SSTableBuilder_new (fs_of files) path bsz ct = (fs_of (<[path := []]> files), b0) /\
    sb_add_all (fs_of (<[path := []]> files)) b0 l = Some (fs_of files1, b1) /\
    sb_finish (fs_of files1) b1 = (fs_of files2, b2, SOk) /\
    sst_file files2 path l /\
    (forall p, p <> path -> p <> path ++ bs ".bloom" -> files2 !! p = files !! p).
Proof.
  intros Hw. destruct (SSTableBuilder_new_ok files path bsz ct) as (b0 & E0 & Hr0 & Hf0 & Hp0).
  destruct (sb_add_all_ok l _ _ _ _ Hr0) as (files1 & b1 & fbs & pend & E1 & (P1 & _ & _ & _ & P5) & Ho & Hrows & Hr1); [done|].
  destruct (sb_finish_ok _ _ _ _ Hr1) as (files2 & b2 & E2 & _ & Ho2 & Hs); [congruence|].
  exists b0, files1, b1, files2, b2. rewrite Hrows in Hs. rewrite P1, Hp0 in *.
  do 3 (split; [done|]). split; [done|]. intros p Hp1 Hp2. rewrite Ho2, Ho by done.
  by rewrite lookup_insert_ne.
Qed.

(** ** Opening a table *)

Record sr_rep (r : SSTableReader) (path : bytes) (fbs : list fblock) : Prop := {
  srr_path : sr_path r = path;
  srr_file : sr_file r = sst_bytes fbs;
  srr_index : sr_index_entries r = index_from 0 fbs;
  srr_good : Forall good_block fbs;
  srr_bloom : exists f, sr_bloom r = Some f /\
    Forall (fun p => bf_mightContain f (InternalKeyUserKey p.1) = Some true) (rows_of fbs);
  srr_weight : weight (rows_of fbs) < 2 ^ 30;
  srr_usable f : sr_bloom r = Some f -> forall uk, is_Some (bf_mightContain f uk);
}.

Lemma bf_mightContain_total f uk : bf_usable f -> is_Some (bf_mightContain f uk).
Proof.
  intros Hu. unfold bf_mightContain. generalize (Z.to_nat (bf_num_hashes f)) 0. intros k.
  induction k as [|k IH]; intros i; simpl; [by eexists|].
  replace (bf_nbits (bf_bits f) =? 0) with false by (symmetry; by apply Z.eqb_neq).
  set (pos := bf_pos _ _ _ _). pose proof (bf_pos_range (bf_bits f) (murmurHash2 uk bf_seed1) (murmurHash2 uk bf_seed2) i Hu) as Hp.
  fold pos in Hp. unfold bf_test.
  destruct (lookup_lt_is_Some_2 (bf_bits f) (Z.to_nat (pos / 8))) as [x ->].
  { unfold zlen in Hp. apply Nat2Z.inj_lt. rewrite Z2Nat.id by (apply Z.div_pos; lia).
    apply Z.div_lt_upper_bound; lia. }
  simpl. destruct (negb _); [apply IH|by eexists].
Qed.

Lemma footer_fields ioff isz :
  0 <= ioff < 2 ^ 64 -> 0 <= isz < 2 ^ 64 ->
  let f := sst_footer ioff isz in
  length f = kSSTableFooterSize /\ decodeFixed64 (drop 40 f) = Some kSSTableMagic /\
  f !! 16%nat = Some (z2b kSSTableFormatVersion) /\ decodeFixed64 f = Some ioff /\
  decodeFixed64 (drop 8 f) = Some isz.
Proof.
  intros Ho Hs f. subst f. unfold sst_footer. split; [done|]. split.
  { rewrite !app_assoc, (drop_app_exact _ _ 40) by done.
    rewrite <- (app_nil_r (encodeFixed64 kSSTableMagic)). by rewrite decodeFixed64_encode by (unfold kSSTableMagic; lia). }
  split; [done|]. rewrite decodeFixed64_encode by done. split; [done|].
  rewrite (drop_app_exact _ _ 8) by done. by rewrite decodeFixed64_encode.
Qed.

Lemma sr_open_ok files path fbs f :
  files !! path = Some (sst_bytes fbs) -> files !! (path ++ bs ".bloom") = Some (bf_persist f) ->
  Forall good_block fbs -> weight (rows_of fbs) < 2 ^ 30 -> bloom_ok f (rows_of fbs) ->
  exists r, sr_open (fs_of files) path = Some (Some r) /\ sr_rep r path fbs.
Proof.
  intros Hfile Hbl Hg Hw (Hwf & Hus & Hk). unfold sr_open, fs_read. cbn [fs_files fs_of fs_script]. rewrite Hfile.
  pose proof (proj1 (good_blocks_size _ Hg)) as Hds. pose proof (proj2 (good_blocks_size _ Hg)) as Hcnt.
  pose proof (index_size 0 _ Hg) as His. set (idx := index_bytes (index_from 0 fbs)) in *.
  pose proof (zlen_nonneg (data_of fbs)). pose proof (zlen_nonneg idx).
  set (ih := encodeFixed32 (crc32c idx) ++ encodeFixed32 (u32 (zlen idx))).
  set (ft := sst_footer (zlen (data_of fbs)) (zlen idx + 8)).
  assert (sst_bytes fbs = (data_of fbs ++ ih ++ idx) ++ ft ++ []) as Hb.
  { unfold sst_bytes. fold idx. fold ih. fold ft. by rewrite app_nil_r, <- !app_assoc. }
  destruct (footer_fields (zlen (data_of fbs)) (zlen idx + 8) ltac:(lia) ltac:(lia)) as (Hfl & Hm & Hv & Hio & Hisz).
  fold ft in Hfl, Hm, Hv, Hio, Hisz.
  rewrite decide_False by (rewrite Hb, !length_app, Hfl; lia).
  replace (pread (sst_bytes fbs) (zlen (sst_bytes fbs) - Z.of_nat kSSTableFooterSize) kSSTableFooterSize) with ft.
  2:{ rewrite Hb. rewrite zlen_app, (zlen_app ft). replace (zlen ft) with (Z.of_nat kSSTableFooterSize) by (unfold zlen; by rewrite Hfl).
      rewrite zlen_nil. replace (_ + _ - _) with (zlen (data_of fbs ++ ih ++ idx)) by lia. by rewrite pread_app. }
  rewrite Hm. cbn [mbind option_bind]. rewrite Z.eqb_refl. cbn [negb]. rewrite Hv. cbn [mbind option_bind].
  rewrite b2z_z2b. change (kSSTableFormatVersion mod 256 >? kSSTableFormatVersion) with false. cbn iota.
  rewrite Hio. cbn [mbind option_bind]. rewrite Hisz. cbn [mbind option_bind].
  assert (sst_bytes fbs = data_of fbs ++ ih ++ (idx ++ ft)) as Hb2 by (by rewrite Hb, app_nil_r, <- !app_assoc).
  assert (pread (sst_bytes fbs) (zlen (data_of fbs)) 8 = ih) as -> by (rewrite Hb2; by apply pread_app).
  rewrite (bool_decide_eq_true_2 (length ih = 8%nat)) by done. cbn [negb].
  replace (drop 4 ih) with (encodeFixed32 (u32 (zlen idx)) ++ []) by (subst ih; by rewrite app_nil_r).
  rewrite decodeFixed32_encode by apply u32_range. cbn [mbind option_bind].
  rewrite u32_small, to_nat_zlen by lia.
  assert (sst_bytes fbs = (data_of fbs ++ ih) ++ idx ++ ft) as Hb3 by (by rewrite Hb2, <- !app_assoc).
  assert (pread (sst_bytes fbs) (zlen (data_of fbs) + 8) (length idx) = idx) as ->.
  { rewrite Hb3. replace (zlen (data_of fbs) + 8) with (zlen (data_of fbs ++ ih)) by (rewrite zlen_app; done).
    by apply pread_app. }
  rewrite (bool_decide_eq_true_2 (length idx = length idx)) by done. cbn [negb].
  assert (length fbs <= length idx)%nat as Hfl2 by apply index_length.
  subst idx. rewrite parse_index_ok; [|done|done|lia|lia|lia]. cbn [mbind option_bind].
  rewrite Hbl, bf_load_persist by done. cbn [mbind option_bind]. eexists. split; [done|].
  split; cbn; try done; [by exists f|]. intros f' [= <-] uk. by apply bf_mightContain_total.
Qed.

(** ** Reading through the cache *)

(** Every cached block is what a read of its file gives. *)
Definition cache_valid (files : gmap bytes bytes) (cache : option BlockCache) : Prop :=
  match cache with
  | None => True
  | Some c => exists e, bc_rep c e /\ bc_capacity c + 2 ^ 33 < 2 ^ 64 /\
      forall path off d, ((path, off), d) ∈ e ->
        exists file, files !! path = Some file /\ read_at file off = (SOk, d)
  end.

Lemma read_at_ok file off s out :
  read_at file off = (s, out) -> ok s = true -> s = SOk /\ zlen out < 2 ^ 33.
Proof.
  unfold read_at. set (hdr := pread _ _ _).
  destruct (negb _); [by intros [= <- <-]|].
  destruct (_ =? 0); [by intros [= <- <-]|]. set (pl := pread _ _ _).
  destruct (negb (bool_decide _)) eqn:Hl; [by intros [= <- <-]|].
  destruct (negb (crc32c pl =? _)); [by intros [= <- <-]|].
  apply negb_false_iff, bool_decide_eq_true in Hl.
  assert (forall n, 0 <= default 0 (decodeFixed32 (drop n hdr)) < 2 ^ 32) as Hr.
  { intros n. destruct (decodeFixed32 (drop n hdr)) as [v|] eqn:E; simpl; [|lia].
    by apply decodeFixed32_range in E. }
  intros Hd Hok. destruct (decompressBlock_ok _ _ _ _ _ Hd Hok) as [-> [->| ->]]; (split; [done|]).
  - specialize (Hr 8%nat). lia.
  - specialize (Hr 4%nat). unfold zlen. lia.
Qed.

Lemma sr_readBlock_spec files r cache h :
  cache_valid files cache -> files !! sr_path r = Some (sr_file r) ->
  Z.of_nat kSSTableBlockHeader <= bh_size h ->
  exists cache', sr_readBlock r cache h = (cache', (read_at (sr_file r) (bh_offset h)).1, (read_at (sr_file r) (bh_offset h)).2) /\
    cache_valid files cache'.
Proof.
  intros Hc Hf Hh. unfold sr_readBlock. replace (bh_size h <? _) with false by lia.
  destruct cache as [c|].
  2:{ destruct (read_at _ _) as [s out]. by exists None. }
  destruct Hc as (e & Hr & Hcap & Hval).
  destruct (bc_get_refines c e (sr_path r, bh_offset h) Hr) as (Hget & Hcap2 & Hr2).
  destruct (bc_get c _) as [c' d]. simpl in Hget, Hcap2, Hr2. subst d.
  set (e' := match assoc _ e with Some d => _ | None => e end) in Hr2.
  assert (forall path off d, ((path, off), d) ∈ e' -> ((path, off), d) ∈ e) as Hsub.
  { intros path off d. subst e'. destruct (assoc _ e) as [x|] eqn:Ea; [|done].
    intros Hin. apply elem_of_cons in Hin as [Heq|Hin].
    - unfold assoc in Ea. destruct (head (filter _ e)) as [[k y]|] eqn:Eh; [|done].
      apply head_Some_elem_of, list_elem_of_filter in Eh as [Hk Hin]. simpl in *. naive_solver.
    - unfold without in Hin. by apply list_elem_of_filter in Hin as [_ ?]. }
  assert (cache_valid files (Some c')) as Hval'.
  { exists e'. split; [done|]. split; [by rewrite Hcap2|]. intros path off d Hin. by eapply Hval, Hsub. }
  subst e'. destruct (assoc _ e) as [x|] eqn:Ea.
  - exists (Some c'). split; [|done].
    assert (((sr_path r, bh_offset h), x) ∈ e) as Hin by (apply Hsub; left).
    destruct (Hval _ _ _ Hin) as (file & Hfile & Hread).
    rewrite Hf in Hfile. injection Hfile as <-. by rewrite Hread.
  - destruct (read_at (sr_file r) (bh_offset h)) as [s out] eqn:Er. simpl.
    destruct (ok s && _) eqn:Ep; [|by exists (Some c')].
    apply andb_true_iff in Ep as [Hok _]. destruct (read_at_ok _ _ _ _ Er Hok) as [-> Hz].
    destruct (bc_put_refines c' e (sr_path r, bh_offset h) out Hr2) as [Hr3 Hcap3]; [rewrite Hcap2; lia|].
    eexists. split; [done|]. eexists. split; [done|]. split; [by rewrite Hcap3, Hcap2|].
    intros path off d Hin. eapply elem_of_prefix in Hin; [|apply keep_prefix].
    apply elem_of_cons in Hin as [Heq|Hin]; [naive_solver|].
    unfold without in Hin. apply list_elem_of_filter in Hin as [_ Hin]. by eapply Hval, Hsub.
Qed.

(** ** Lookup *)

Lemma sl_wf_app l1 l2 :
  sl_wf (l1 ++ l2) <->
  sl_wf l1 /\ sl_wf l2 /\ (forall p q, p ∈ l1 -> q ∈ l2 -> InternalKeyCompare p.1 q.1 = Lt).
Proof.
  unfold sl_wf. rewrite fmap_app, Forall_app, sorted_by_app. split.
  - intros ([H1 H2] & H3 & H4 & H5). split; [done|]. split; [done|]. intros p q Hp Hq.
    apply H5; by apply list_elem_of_fmap_2.
  - intros ([H1 H2] & [H3 H4] & H5). split; [done|]. split; [done|]. split; [done|].
    intros x y (p & -> & Hp)%list_elem_of_fmap (q & -> & Hq)%list_elem_of_fmap. by apply H5.
Qed.

Lemma sl_wf_elem l p : sl_wf l -> p ∈ l -> wf_ikey p.1.
Proof. intros [Hw _] Hp. rewrite Forall_forall in Hw. apply Hw. by apply list_elem_of_fmap_2. Qed.

Lemma user_le l1 l2 p q :
  sl_wf (l1 ++ l2) -> p ∈ l1 -> q ∈ l2 -> lex (InternalKeyUserKey p.1) (InternalKeyUserKey q.1) <> Gt.
Proof.
  intros (H1 & H2 & H3)%sl_wf_app Hp Hq. apply compare_user;
    [by apply (sl_wf_elem l1)|by apply (sl_wf_elem l2)|by apply H3].
Qed.

Lemma fb_last_elem fb : fb.1 <> [] -> exists p, p ∈ fb.1 /\ fb_last fb = p.1 /\ exists l, fb.1 = l ++ [p].
Proof.
  intros Hne. unfold fb_last. destruct fb as [es phys]. simpl in *.
  destruct es as [|p es _] using rev_ind; [done|]. exists p.
  rewrite fmap_app. cbn [fmap list_fmap]. rewrite last_snoc. split; [apply elem_of_app; right; left|].
  split; [done|by exists es].
Qed.

Definition fb_before (uk : bytes) (fb : fblock) : bool := ie_before uk (mkIE (fb_last fb) (mkHandle 0 0)).

Lemma fb_before_lex uk fb : fb_before uk fb = is_lt (lex (InternalKeyUserKey (fb_last fb)) uk).
Proof. unfold fb_before, ie_before. by rewrite Slice_compare_lex. Qed.

(** In a block that ends before the key, every entry is before it. *)
Lemma before_all uk fb p :
  sl_wf fb.1 -> fb.1 <> [] -> fb_before uk fb = true -> p ∈ fb.1 -> lex (InternalKeyUserKey p.1) uk = Lt.
Proof.
  intros Hwf Hne Hb Hp. rewrite fb_before_lex in Hb.
  destruct (fb_last_elem fb Hne) as (q & Hq & Hl & l & Heq). rewrite Hl in Hb.
  destruct (lex (InternalKeyUserKey q.1) uk) eqn:E; try done. rewrite Heq in Hp, Hwf.
  apply elem_of_app in Hp as [Hp|Hp]; [|by apply list_elem_of_singleton in Hp as ->].
  pose proof (user_le l [q] p q Hwf Hp ltac:(left)) as Hle.
  destruct (lex (InternalKeyUserKey p.1) (InternalKeyUserKey q.1)) eqn:E2; [| |done].
  - apply lex_eq_iff in E2. by rewrite E2.
  - by eapply (ord_trans (P := fun _ => True) (cmp := lex)).
Qed.

(** Entries after a block that does not end before the key are not before it either. *)
Lemma after_not_before uk fb l q :
  sl_wf (fb.1 ++ l) -> fb.1 <> [] -> fb_before uk fb = false -> q ∈ l ->
  lex (InternalKeyUserKey q.1) uk <> Lt /\
  (lex (InternalKeyUserKey q.1) uk = Eq -> InternalKeyUserKey (fb_last fb) = uk).
Proof.
  intros Hwf Hne Hb Hq. rewrite fb_before_lex in Hb.
  destruct (fb_last_elem fb Hne) as (p & Hp & Hl & _). rewrite Hl in *.
  pose proof (user_le fb.1 l p q Hwf Hp Hq) as Hle.
  set (a := InternalKeyUserKey p.1) in *. set (b := InternalKeyUserKey q.1) in *.
  destruct (lex a b) eqn:E; [apply lex_eq_iff in E as ->| |done].
  - split; [by destruct (lex b uk)|]. apply lex_eq_iff.
  - split; [|intros ->%lex_eq_iff; by rewrite E in Hb]. intros E2.
    assert (lex a uk = Lt) as E3 by (by eapply (ord_trans (P := fun _ => True) (cmp := lex))).
    by rewrite E3 in Hb.
Qed.

Lemma lookup_blocks uk fbs :
  sl_wf (rows_of fbs) -> Forall (fun fb => fb.1 <> []) fbs ->
  exists fbs1 fbs2, fbs = fbs1 ++ fbs2 /\
    Forall (fun fb => fb_before uk fb = true) fbs1 /\ Forall (fun fb => fb_before uk fb = false) fbs2 /\
    visible uk (rows_of fbs) = match fbs2 with [] => None | fb :: _ => visible uk fb.1 end.
Proof.
  induction fbs as [|fb fbs IH]; intros Hwf Hne.
  { exists [], []. by repeat split. }
  rewrite rows_of_cons in *. inversion_clear Hne as [|? ? Hne1 Hne2].
  pose proof Hwf as (Hw1 & Hw2 & _)%sl_wf_app. destruct (fb_before uk fb) eqn:Hb.
  - destruct (IH Hw2 Hne2) as (fbs1 & fbs2 & -> & H1 & H2 & Hv). exists (fb :: fbs1), fbs2.
    split; [done|]. split; [by constructor|]. split; [done|]. rewrite <- Hv. unfold visible.
    rewrite newest_app. replace (newest uk fb.1) with (@None entry); [done|]. symmetry.
    apply newest_none. intros p Hp Heq. pose proof (before_all uk fb p Hw1 Hne1 Hb Hp) as Hlt.
    by rewrite Heq, lex_refl in Hlt.
  - exists [], (fb :: fbs). split; [done|]. split; [constructor|]. split.
    + constructor; [done|]. apply Forall_forall. intros fb' Hin. rewrite fb_before_lex.
      rewrite Forall_forall in Hne2. destruct (fb_last_elem fb' (Hne2 _ Hin)) as (q & Hq & -> & _).
      assert (q ∈ rows_of fbs) as Hq'.
      { unfold rows_of. apply list_elem_of_In, in_concat. exists fb'.1.
        split; [apply list_elem_of_In, (list_elem_of_fmap_2 fst), Hin|by apply list_elem_of_In]. }
      destruct (after_not_before uk fb (rows_of fbs) q Hwf Hne1 Hb Hq') as [Hn _].
      by destruct (lex (InternalKeyUserKey q.1) uk).
    + unfold visible. rewrite newest_app. destruct (newest uk fb.1) eqn:En; [done|].
      replace (newest uk (rows_of fbs)) with (@None entry); [done|]. symmetry.
      apply newest_none. intros q Hq Heq. rewrite newest_none in En.
      destruct (after_not_before uk fb (rows_of fbs) q Hwf Hne1 Hb Hq) as [_ He].
      destruct (fb_last_elem fb Hne1) as (p & Hp & Hl & _). apply (En p Hp).
      rewrite <- Hl. apply He. by rewrite Heq, lex_refl.
Qed.

Lemma index_from_app off l1 l2 :
  index_from off (l1 ++ l2) = index_from off l1 ++ index_from (off + zlen (data_of l1)) l2.
Proof.
  revert off. induction l1 as [|x l1 IH]; intros off; simpl.
  - change (zlen (data_of [])) with 0. by rewrite Z.add_0_r.
  - by rewrite IH, data_of_cons, zlen_app, Z.add_assoc.
Qed.

Lemma length_index_from off fbs : length (index_from off fbs) = length fbs.
Proof. revert off. induction fbs as [|x fbs IH]; intros off; simpl; [done|]. by rewrite IH. Qed.

Lemma Forall_index uk v off fbs :
  Forall (fun fb => fb_before uk fb = v) fbs -> Forall (fun e => ie_before uk e = v) (index_from off fbs).
Proof.
  intros Hf. revert off. induction Hf as [|fb fbs Hb _ IH]; intros off; simpl; constructor; [done|apply IH].
Qed.

Lemma data_of_app l1 l2 : data_of (l1 ++ l2) = data_of l1 ++ data_of l2.
Proof. unfold data_of. by rewrite fmap_app, concat_app. Qed.

Lemma read_stored fbs1 fb fbs2 raw :
  stored fb.2 raw -> read_at (sst_bytes (fbs1 ++ fb :: fbs2)) (zlen (data_of fbs1)) = (SOk, raw).
Proof.
  intros Hst. unfold sst_bytes. rewrite data_of_app, data_of_cons, <- !app_assoc. apply Hst.
Qed.

Lemma sr_get_ok files r path fbs cache uk :
  sr_rep r path fbs -> files !! path = Some (sst_bytes fbs) -> cache_valid files cache ->
  sl_wf (rows_of fbs) ->
  exists cache', sr_get r cache uk = Some (cache', visible uk (rows_of fbs)) /\ cache_valid files cache'.
Proof.
  intros Hr Hf Hc Hwf. unfold sr_get. rewrite (srr_index _ _ _ Hr).
  assert (Forall (fun fb => fb.1 <> []) fbs) as Hne.
  { eapply Forall_impl; [apply (srr_good _ _ _ Hr)|]. intros fb Hg. apply (gb_nonempty _ Hg). }
  destruct (lookup_blocks uk fbs Hwf Hne) as (fbs1 & fbs2 & -> & H1 & H2 & Hv).
  case_bool_decide as Hemp.
  { exists cache. split; [|done]. do 2 f_equal. destruct (fbs1 ++ fbs2); [done|]. discriminate Hemp. }
  destruct (srr_bloom _ _ _ Hr) as (f & Hbl & Hall). rewrite Hbl.
  destruct (srr_usable _ _ _ Hr f Hbl uk) as [[|] Hm]; rewrite Hm; cbn [mbind option_bind negb].
  2:{ exists cache. split; [|done]. do 2 f_equal. unfold visible.
      replace (newest uk (rows_of (fbs1 ++ fbs2))) with (@None entry); [done|]. symmetry. apply newest_none.
      intros p Hp Hu. rewrite Forall_forall in Hall. specialize (Hall p Hp). rewrite Hu in Hall. congruence. }
  rewrite index_from_app, Z.add_0_l.
  rewrite lower_bound_spec by (by apply Forall_index).
  rewrite lookup_app_r, Nat.sub_diag by done. destruct fbs2 as [|fb fbs2].
  { exists cache. by rewrite Hv. }
  cbn [index_from lookup list_lookup ie_handle].
  assert (good_block fb) as Hg.
  { pose proof (srr_good _ _ _ Hr) as HG. apply Forall_app in HG as [_ HG]. by inversion HG. }
  destruct (gb_raw _ Hg) as (raw & Hst & _ & Hby).
  destruct (sr_readBlock_spec files r cache (mkHandle (zlen (data_of fbs1)) (zlen fb.2)) Hc) as (cache' & Hrd & Hc').
  { by rewrite (srr_path _ _ _ Hr), (srr_file _ _ _ Hr). }
  { apply (gb_size _ Hg). }
  rewrite Hrd. cbn [bh_offset]. rewrite (srr_file _ _ _ Hr), read_stored with (raw := raw) by done.
  cbn [fst snd]. simpl (ok SOk). cbn iota. rewrite Hby. cbn [mbind option_bind].
  exists cache'. split; [|done]. do 2 f_equal. rewrite Hv, mt_scan_visible; [done|].
  unfold rows_of in Hwf. rewrite fmap_app, concat_app in Hwf.
  apply sl_wf_app in Hwf as (_ & Hwf & _). simpl in Hwf. by apply sl_wf_app in Hwf as (Hwf & _ & _).
Qed.

(** ** Scanning *)

Lemma in_range_all p : in_range [] [] p = true.
Proof. done. Qed.

Lemma scan_loop_ok files r path fbs1 fbs2 cache :
  sr_rep r path (fbs1 ++ fbs2) -> files !! path = Some (sst_bytes (fbs1 ++ fbs2)) -> cache_valid files cache ->
  exists cache', scan_loop r [] [] (index_from (zlen (data_of fbs1)) fbs2) cache = Some (cache', SOk, rows_of fbs2) /\
    cache_valid files cache'.
Proof.
  revert fbs1 cache. induction fbs2 as [|fb fbs2 IH]; intros fbs1 cache Hr Hf Hc; [by exists cache|].
  cbn [index_from scan_loop ie_last_key ie_handle]. rewrite bool_decide_eq_true_2 by done. cbn [negb andb].
  assert (good_block fb) as Hg.
  { pose proof (srr_good _ _ _ Hr) as HG. apply Forall_app in HG as [_ HG]. by inversion HG. }
  destruct (gb_raw _ Hg) as (raw & Hst & Heach & _).
  destruct (sr_readBlock_spec files r cache (mkHandle (zlen (data_of fbs1)) (zlen fb.2)) Hc) as (cache1 & Hrd & Hc1).
  { by rewrite (srr_path _ _ _ Hr), (srr_file _ _ _ Hr). }
  { apply (gb_size _ Hg). }
  rewrite Hrd. cbn [bh_offset]. rewrite (srr_file _ _ _ Hr), read_stored with (raw := raw) by done.
  cbn [fst snd]. simpl (ok SOk). cbn iota. rewrite Heach. cbn [mbind option_bind].
  destruct (IH (fbs1 ++ [fb]) cache1) as (cache2 & Hs & Hc2); [by rewrite <- app_assoc..|done|].
  rewrite data_of_snoc, zlen_app in Hs. rewrite Hs. cbn [mbind option_bind].
  exists cache2. split; [|done]. rewrite rows_of_cons. do 3 f_equal.
  apply filter_all. intros p _. apply in_range_all.
Qed.

Lemma sr_scan_ok files r path fbs cache :
  sr_rep r path fbs -> files !! path = Some (sst_bytes fbs) -> cache_valid files cache ->
  exists cache', sr_scan r cache [] [] = Some (cache', SOk, rows_of fbs) /\ cache_valid files cache'.
Proof.
  intros Hr Hf Hc. unfold sr_scan. rewrite (srr_index _ _ _ Hr). by apply (scan_loop_ok files r path []).
Qed.

Lemma sr_iter_ok files r path fbs cache :
  sr_rep r path fbs -> files !! path = Some (sst_bytes fbs) -> cache_valid files cache -> sl_wf (rows_of fbs) ->
  exists cache' i, SSTableIterator_new r cache = Some (cache', i) /\ vi_rep i (rows_of fbs) (rows_of fbs) /\
    cache_valid files cache'.
Proof.
  intros Hr Hf Hc Hwf. destruct (sr_scan_ok files r path fbs cache Hr Hf Hc) as (cache' & Hsc & Hc').
  exists cache'. unfold SSTableIterator_new. rewrite Hsc. cbn [mbind option_bind]. simpl (ok SOk). cbn iota.
  eexists. split; [done|]. split; [|done]. split; [done|]. simpl. by rewrite sort_entries_id.
Qed.

(** ** What a table promises its clients *)

Lemma sst_file_open files path l :
  sst_file files path l ->
  exists r fbs, sr_open (fs_of files) path = Some (Some r) /\ sr_rep r path fbs /\ rows_of fbs = l /\
                files !! path = Some (sst_bytes fbs).
Proof.
  intros (fbs & f & <- & Hg & Hw & Hf & Hb & Hok).
  destruct (sr_open_ok files path fbs f) as (r & Ho & Hr); [done..|]. by exists r, fbs.
Qed.

Lemma sst_file_get files path l cache uk :
  sst_file files path l -> sl_wf l -> cache_valid files cache ->
  exists r cache', sr_open (fs_of files) path = Some (Some r) /\
    sr_get r cache uk = Some (cache', visible uk l) /\ cache_valid files cache'.
Proof.
  intros Hs Hwf Hc. destruct (sst_file_open _ _ _ Hs) as (r & fbs & Ho & Hr & <- & Hf).
  destruct (sr_get_ok files r path fbs cache uk Hr Hf Hc Hwf) as (cache' & Hg & Hc'). by exists r, cache'.
Qed.

Lemma sst_file_iter files path l cache :
  sst_file files path l -> sl_wf l -> cache_valid files cache ->
  exists r cache' i, sr_open (fs_of files) path = Some (Some r) /\
    SSTableIterator_new r cache = Some (cache', i) /\ vi_rep i l l /\ cache_valid files cache'.
Proof.
  intros Hs Hwf Hc. destruct (sst_file_open _ _ _ Hs) as (r & fbs & Ho & Hr & <- & Hf).
  destruct (sr_iter_ok files r path fbs cache Hr Hf Hc Hwf) as (cache' & i & Hi & Hrep & Hc'). by exists r, cache', i.
Qed.

(** C10: a table is a faithful, immutable map: whatever sorted entries are written
    (any block size, any compression), building and finishing it without I/O faults
    succeeds, and afterwards opening it succeeds, every lookup returns the newest version
    of its key (nothing for an absent or deleted one), and iterating yields exactly the
    entries, in order, through any valid block cache or none. *)
Theorem sstable_roundtrip (files : gmap bytes bytes) (path : bytes) (bsz : Z) (ct : CompressionType)
  (l : list entry) :
  sl_wf l -> weight l < 2 ^ 30 ->
  exists b0 files1 b1 files2 b2,
    SSTableBuilder_new (fs_of files) path bsz ct = (fs_of (<[path := []]> files), b0) /\
    sb_add_all (fs_of (<[path := []]> files)) b0 l = Some (fs_of files1, b1) /\
    sb_finish (fs_of files1) b1 = (fs_of files2, b2, SOk) /\
    (forall uk cache, cache_valid files2 cache ->
      exists r cache', sr_open (fs_of files2) path = Some (Some r) /\
        sr_get r cache uk = Some (cache', visible uk l) /\ cache_valid files2 cache') /\
    (forall cache, cache_valid files2 cache ->
      exists r cache' i, sr_open (fs_of files2) path = Some (Some r) /\
        SSTableIterator_new r cache = Some (cache', i) /\ vi_rep i l l).
Proof.
  intros Hwf Hw. destruct (sst_build_ok files path bsz ct l Hw) as (b0 & f1 & b1 & f2 & b2 & E0 & E1 & E2 & Hs & _).
  exists b0, f1, b1, f2, b2. do 3 (split; [done|]). split; [intros uk cache Hc; by apply sst_file_get|].
  intros cache Hc. destruct (sst_file_iter f2 path l cache Hs Hwf Hc) as (r & c' & i & H1 & H2 & H3 & _).
  by exists r, c', i.
Qed.

(** A block read through a current cache is the block of the file. *)
Lemma sr_readBlock_cached files r cache h :
  cache_valid files cache -> files !! sr_path r = Some (sr_file r) ->
  exists cache', sr_readBlock r cache h = (cache', (sr_readBlock r None h).1.2, (sr_readBlock r None h).2) /\ cache_valid files cache'.
Proof.
  intros Hc Hf. destruct (Z.ltb_spec (bh_size h) (Z.of_nat kSSTableBlockHeader)) as [Hs|Hs].
  { exists cache. unfold sr_readBlock. by replace (_ <? _) with true by lia. }
  destruct (sr_readBlock_spec files r cache h Hc Hf Hs) as (c1 & -> & Hc1).
  destruct (sr_readBlock_spec files r None h I Hf Hs) as (c2 & -> & _). by exists c1.
Qed.

Lemma sr_readBlock_uncached r h : exists s out, sr_readBlock r None h = (None, s, out).
Proof.
  unfold sr_readBlock. destruct (_ <? _); [by do 2 eexists|]. destruct (read_at _ _) as [s out]. by do 2 eexists.
Qed.

Lemma scan_loop_cached files r start stop ies cache :
  cache_valid files cache -> files !! sr_path r = Some (sr_file r) ->
  match scan_loop r start stop ies None with
  | None => scan_loop r start stop ies cache = None
  | Some (_, s, es) => exists cache', scan_loop r start stop ies cache = Some (cache', s, es) /\ cache_valid files cache'
  end.
Proof.
  intros Hc Hf. revert cache Hc. induction ies as [|e ies IH]; intros cache Hc; cbn [scan_loop]; [by exists cache|].
  destruct (_ && _); [by exists cache|].
  destruct (sr_readBlock_cached files r cache (ie_handle e) Hc Hf) as (c1 & -> & Hc1).
  destruct (sr_readBlock_uncached r (ie_handle e)) as (s & out & ->). cbn [fst snd]. destruct (ok s); [|by exists c1].
  destruct (br_forEach _) as [es|]; [|done]. cbn [mbind option_bind]. specialize (IH c1 Hc1).
  destruct (scan_loop r start stop ies None) as [[[c0 s0] rest]|]; cbn [mbind option_bind].
  - destruct IH as (c2 & -> & Hc2). by exists c2.
  - by rewrite IH.
Qed.

(** C20: the block cache is transparent: on any table file, well formed or not, a lookup and a
    range scan through a cache whose blocks are current answer exactly as without a cache (the
    same value or none, the same status and entries, undefined behaviour exactly when there),
    and leave the cache current. *)
Theorem block_cache_transparent (files : gmap bytes bytes) (r : SSTableReader) (cache : option BlockCache) :
  cache_valid files cache -> files !! sr_path r = Some (sr_file r) ->
  (forall uk, match sr_get r None uk with
     | None => sr_get r cache uk = None
     | Some (_, answer) => exists cache', sr_get r cache uk = Some (cache', answer) /\ cache_valid files cache'
     end) /\
  (forall start stop, match sr_scan r None start stop with
     | None => sr_scan r cache start stop = None
     | Some (_, s, es) => exists cache', sr_scan r cache start stop = Some (cache', s, es) /\ cache_valid files cache'
     end).
Proof.
  intros Hc Hf. split.
  - intros uk. unfold sr_get. case_bool_decide; [by exists cache|].
    destruct (match sr_bloom r with Some f => bf_mightContain f uk | None => Some true end) as [may|]; [|done].
    cbn [mbind option_bind]. destruct (negb may); [by exists cache|]. destruct (sr_index_entries r !! _) as [e|]; [|by exists cache].
    destruct (sr_readBlock_cached files r cache (ie_handle e) Hc Hf) as (c1 & -> & Hc1).
    destruct (sr_readBlock r None (ie_handle e)) as [[c0 s] block]. cbn [fst snd]. destruct (ok s); [|by exists c1].
    destruct (br_getByUserKey _ _) as [res|]; [|done]. cbn [mbind option_bind]. by exists c1.
  - intros start stop. by apply scan_loop_cached.
Qed.
End Codec.

(** ** Witnesses *)

Definition sst_demo_entries : list entry := block_witness_entries.

Lemma sst_demo_wf : sl_wf sst_demo_entries.
Proof.
  split; [repeat constructor; vm_compute; lia|]. repeat constructor; vm_compute; reflexivity.
Qed.

Lemma sstable_roundtrip_witness :
  exists b0 files1 b1 files2 b2,
    @SSTableBuilder_new (fs_of ∅) (bs "t.sst") 64 cSnappy = (fs_of (<[bs "t.sst" := []]> ∅), b0) /\
    @sb_add_all marker_codecs (fs_of (<[bs "t.sst" := []]> ∅)) b0 sst_demo_entries = Some (fs_of files1, b1) /\
    @sb_finish marker_codecs (fs_of files1) b1 = (fs_of files2, b2, SOk) /\
    exists r cache', sr_open (fs_of files2) (bs "t.sst") = Some (Some r) /\
      @sr_get marker_codecs r None (bs "k2") = Some (cache', Some (bs "two")).
Proof.
  destruct (@sstable_roundtrip marker_codecs marker_laws ∅ (bs "t.sst") 64 cSnappy sst_demo_entries sst_demo_wf)
    as (b0 & f1 & b1 & f2 & b2 & E0 & E1 & E2 & Hg & _); [vm_compute; reflexivity|].
  exists b0, f1, b1, f2, b2. split; [exact E0|]. split; [exact E1|]. split; [exact E2|].
  destruct (Hg (bs "k2") None I) as (r & c' & Ho & Hgt & _). exists r, c'. split; [exact Ho|]. exact Hgt.
Defined.

Lemma cache_valid_empty `{Codecs} files n : 0 <= n < 2 ^ 63 -> cache_valid files (Some (BlockCache_new n)).
Proof.
  intros Hn. exists []. split; [apply bc_rep_new; lia|]. split; [simpl; lia|]. by intros path off d Hin%not_elem_of_nil.
Qed.

(** A table of one block, and the cache after a lookup in it. *)
Definition cache_demo_fs : FS :=
  let '(fs, b) := SSTableBuilder_new (fs_of ∅) (bs "t.sst") 64 cSnappy in
  match @sb_add_all marker_codecs fs b sst_demo_entries with
  | Some (fs, b) => (@sb_finish marker_codecs fs b).1.1
  | None => fs
  end.
Definition cache_demo_reader : SSTableReader :=
  default (mkSR [] [] 0 0 0 [] None) (r ← sr_open cache_demo_fs (bs "t.sst"); r).
Definition cache_demo : BlockCache :=
  match @sr_get marker_codecs cache_demo_reader (Some (BlockCache_new 4096)) (bs "k1") with
  | Some (Some c, _) => c
  | _ => BlockCache_new 4096
  end.

(** The block is in the cache, and a second lookup and a scan, served from it, answer like the
    file. *)
Lemma block_cache_transparent_witness :
  is_Some (bc_get cache_demo (bs "t.sst", 0)).2 /\
  (exists c, @sr_get marker_codecs cache_demo_reader (Some cache_demo) (bs "k2") = Some (c, Some (bs "two"))) /\
  (exists c, @sr_scan marker_codecs cache_demo_reader (Some cache_demo) [] [] = Some (c, SOk, sst_demo_entries)).
Proof.
  assert (fs_files cache_demo_fs !! sr_path cache_demo_reader = Some (sr_file cache_demo_reader)) as Hf by (vm_compute; reflexivity).
  pose proof (@cache_valid_empty marker_codecs (fs_files cache_demo_fs) 4096 ltac:(lia)) as Hnew.
  assert (@cache_valid marker_codecs (fs_files cache_demo_fs) (Some cache_demo)) as Hc.
  { destruct (@block_cache_transparent marker_codecs (fs_files cache_demo_fs) cache_demo_reader (Some (BlockCache_new 4096)) Hnew Hf) as [Hg _].
    specialize (Hg (bs "k1")). unfold cache_demo.
    assert (@sr_get marker_codecs cache_demo_reader None (bs "k1") = Some (None, None)) as E by (vm_compute; reflexivity).
    rewrite E in Hg. destruct Hg as ([c'|] & -> & Hc'); [exact Hc'|exact Hnew]. }
  destruct (@block_cache_transparent marker_codecs (fs_files cache_demo_fs) cache_demo_reader (Some cache_demo) Hc Hf) as [Hg Hs].
  split; [apply (bool_decide_unpack _); vm_compute; exact I|]. specialize (Hg (bs "k2")). specialize (Hs [] []).
  assert (@sr_get marker_codecs cache_demo_reader None (bs "k2") = Some (None, Some (bs "two"))) as E by (vm_compute; reflexivity).
  assert (@sr_scan marker_codecs cache_demo_reader None [] [] = Some (None, SOk, sst_demo_entries)) as E' by (vm_compute; reflexivity).
  rewrite E in Hg. rewrite E' in Hs. destruct Hg as (c1 & Hg & _), Hs as (c2 & Hs & _). split; [by exists c1|by exists c2].
Defined.

(** Building a table over a fault script, then looking a key up: the status of [finish]
    and the answer. *)
Definition build_and_get `{Codecs} (faults : list fault) (path : bytes) (l : list entry) (uk : bytes)
  : option (Status * option bytes) :=
  let '(fs, b) := SSTableBuilder_new (fs_script ∅ faults) path 4096 cNone in
  '(fs, b) ← sb_add_all fs b l;
  let '(fs, _, s) := sb_finish fs b in
  r ← sr_open fs path;
  r ← r;
  '(_, v) ← sr_get r None uk;
  Some (s, v).

(** [finish] drops an I/O error: when the last data block cannot be written, it still
    reports success, and the table that results opens but has lost the entries. *)
Theorem finish_ignores_block_error :
  @build_and_get marker_codecs [FOk; FFail 0] (bs "t.sst") sst_demo_entries (bs "k2") = Some (SOk, None) /\
  @build_and_get marker_codecs [] (bs "t.sst") sst_demo_entries (bs "k2") = Some (SOk, Some (bs "two")).
Proof. split; vm_compute; reflexivity. Qed.
