(* ===== verification/Manifest.v ===== *)
(** * The manifest and the version

    [manifest.h/.cpp]: the log of additions and removals of table files, its replay, and the
    rewriting of it as a snapshot; [version.h/.cpp]: the table files of each level in memory
    and the file-number allocator, which records every change in the manifest.  The
    [Manifest*] of a version is the manifest itself: after recovery nothing else writes it. *)

From Stdlib Require Import ZArith Lia.
From stdpp Require Import base numbers strings list gmap.
From S2P Require Import Prelude CppString Coding Slice FileSystem Wal.
Local Open Scope Z_scope.

Record SSTableMeta := mkMeta {
  sm_path : bytes;
  sm_min_key : bytes;
  sm_max_key : bytes;
  sm_file_number : Z;
  sm_file_size : Z;
}.

Abbreviation levels := (list (list SSTableMeta)).

(** [{path, "", "", file_no, 0}] *)
Definition new_meta (path : bytes) (file_no : Z) : SSTableMeta := mkMeta path [] [] file_no 0.

(** [v.resize(n)] of a vector of vectors: cut or padded with empty ones. *)
Definition resize_levels (n : nat) (l : levels) : levels := take n l ++ replicate (n - length l) [].

Definition kReset : Z := 0.
Definition kAdd : Z := 1.
Definition kDel : Z := 2.

(** [levels_[level].push_back(meta)] after growing the vector; the removal of a path. *)
Definition lv_add (level : nat) (m : SSTableMeta) (l : levels) : levels :=
  let l := if decide (length l <= level)%nat then resize_levels (S level) l else l in
  alter (fun v => v ++ [m]) level l.

Definition remove_path (path : bytes) (v : list SSTableMeta) : list SSTableMeta :=
  filter (fun m => sm_path m <> path) v.

Definition lv_remove (level : nat) (path : bytes) (l : levels) : levels := alter (remove_path path) level l.

(** ** Records *)

Definition mf_payload (type level : Z) (path : bytes) (file_no : Z) : bytes :=
  [z2b type] ++ encodeFixed32 (u32 level) ++ encodeFixed64 file_no ++
  encodeFixed32 (u32 (zlen path)) ++ path.

Definition mf_writeRecordToFd (fs : FS) (fd : option bytes) (type level : Z) (path : bytes) (file_no : Z)
  : FS * Status :=
  match fd with
  | None => (fs, SIOError (bs "MANIFEST fd not open"))
  | Some _ =>
      let payload := mf_payload type level path file_no in
      let '(fs, n) := fs_write fs fd (encodeFixed32 (crc32c payload) ++ encodeFixed32 (u32 (zlen payload))) in
      if negb (n =? 8) then (fs, SIOError (bs "MANIFEST write header"))
      else
        let '(fs, n) := fs_write fs fd payload in
        if negb (n =? zlen payload) then (fs, SIOError (bs "MANIFEST write payload")) else (fs, SOk)
  end.

(** The effect of one record on the roster: [None] is undefined behaviour, [Some None] the
    [break] on a path that does not fit its record. *)
Definition mf_apply (payload : bytes) (tmp : levels) : option (option levels) :=
  type ← head payload;
  if b2z type =? kReset then Some (Some (replicate 8 []))
  else if zlen payload <? 17 then Some (Some tmp)
  else
    level ← decodeFixed32 (drop 1 payload);
    file_no ← decodeFixed64 (drop 5 payload);
    path_len ← decodeFixed32 (drop 13 payload);
    if u32 (17 + path_len) >? zlen payload then Some None
    else
      path ← read_n (Z.to_nat path_len) (drop 17 payload);
      let tmp := if zlen tmp <=? level then resize_levels (Z.to_nat (u32 (level + 1))) tmp else tmp in
      if zlen tmp <=? level then None
      else if b2z type =? kAdd
      then Some (Some (alter (fun v => v ++ [new_meta path file_no]) (Z.to_nat level) tmp))
      else Some (Some (alter (remove_path path) (Z.to_nat level) tmp)).

(** The loop of [replay] over the bytes from the current position. *)
Fixpoint mf_replay_loop (fuel : nat) (p : bytes) (tmp : levels) : option levels :=
  match fuel with
  | O => Some tmp
  | S fuel =>
      if decide (length p < 8)%nat then Some tmp
      else
        let crc := default 0 (decodeFixed32 p) in
        let plen := default 0 (decodeFixed32 (drop 4 p)) in
        if (plen =? 0) || (plen >? 2 ^ 24) then Some tmp
        else
          let p := drop 8 p in
          let payload := take (Z.to_nat plen) p in
          if decide (length p < Z.to_nat plen)%nat then Some tmp
          else if negb (crc32c payload =? crc) then Some tmp
          else
            r ← mf_apply payload tmp;
            match r with
            | None => Some tmp
            | Some tmp => mf_replay_loop fuel (drop (Z.to_nat plen) p) tmp
            end
  end.

Definition mf_replay (file : bytes) : option levels :=
  mf_replay_loop (S (length file)) file (replicate 8 []).

(** ** Manifest *)

Record Manifest := mkManifest {
  mf_path : bytes;
  mf_open_ : bool;          (* fd_ >= 0 *)
  mf_levels : levels;
}.

Definition Manifest_new (db_path : bytes) : Manifest := mkManifest (db_path ++ bs "/MANIFEST") false [].

Definition mf_fd (m : Manifest) : option bytes := if mf_open_ m then Some (mf_path m) else None.
Definition mf_neu (m : Manifest) : bytes := mf_path m ++ bs ".new".
Definition mf_bak (m : Manifest) : bytes := mf_path m ++ bs ".bak".

Definition fs_exists (fs : FS) (path : bytes) : bool := bool_decide (is_Some (fs_read fs path)).

Definition mf_recoverActivePath (fs : FS) (m : Manifest) : FS :=
  if fs_exists fs (mf_path m) then (fs_unlink fs (mf_neu m)).1
  else if fs_exists fs (mf_neu m) then (fs_rename fs (mf_neu m) (mf_path m)).1
  else if fs_exists fs (mf_bak m) then (fs_rename fs (mf_bak m) (mf_path m)).1
  else fs.

Definition mf_open (fs : FS) (m : Manifest) : option (FS * Manifest * Status) :=
  if mf_open_ m then Some (fs, m, SOk)
  else
    let fs := mf_recoverActivePath fs m in
    let '(fs, ok) := fs_open fs (mf_path m) false in
    if negb ok then Some (fs, mkManifest (mf_path m) false (replicate 8 []), SIOError (bs "cannot open MANIFEST"))
    else
      lv ← mf_replay (default [] (fs_read fs (mf_path m)));
      Some (fs, mkManifest (mf_path m) true lv, SOk).

Definition mf_recordReset (fs : FS) (m : Manifest) : FS * Manifest * Status :=
  let '(fs, s) := mf_writeRecordToFd fs (mf_fd m) kReset 0 [] 0 in (fs, m, s).

(** A negative level is undefined behaviour. *)
Definition mf_recordAddFile (fs : FS) (m : Manifest) (level : Z) (path : bytes) (file_no : Z)
  : option (FS * Manifest * Status) :=
  if level <? 0 then None
  else
    let m := mkManifest (mf_path m) (mf_open_ m) (lv_add (Z.to_nat level) (new_meta path file_no) (mf_levels m)) in
    let '(fs, s) := mf_writeRecordToFd fs (mf_fd m) kAdd level path file_no in
    Some (fs, m, s).

Definition mf_recordRemoveFile (fs : FS) (m : Manifest) (level : Z) (path : bytes) (file_no : Z)
  : option (FS * Manifest * Status) :=
  if level <? 0 then None
  else
    let lv := if level <? zlen (mf_levels m) then lv_remove (Z.to_nat level) path (mf_levels m) else mf_levels m in
    let m := mkManifest (mf_path m) (mf_open_ m) lv in
    let '(fs, s) := mf_writeRecordToFd fs (mf_fd m) kDel level path file_no in
    Some (fs, m, s).

Definition mf_sync (fs : FS) (m : Manifest) : FS * Status :=
  if mf_open_ m then
    let '(fs, ok) := fs_fdatasync fs (mf_fd m) in
    if ok then (fs, SOk) else (fs, SIOError (bs "MANIFEST sync failed"))
  else (fs, SOk).

(** The records of a snapshot, level by level. *)
Definition snapshot_records (lv : levels) : list (Z * SSTableMeta) :=
  concat (imap (fun i v => (fun m => (Z.of_nat i, m)) <$> v) lv).

Fixpoint write_snapshot (fs : FS) (fd : bytes) (rs : list (Z * SSTableMeta)) : FS * Status :=
  match rs with
  | [] => (fs, SOk)
  | (level, m) :: rs =>
      let '(fs, s) := mf_writeRecordToFd fs (Some fd) kAdd level (sm_path m) (sm_file_number m) in
      if ok s then write_snapshot fs fd rs else (fs, s)
  end.

Definition mf_rewriteSnapshot (fs : FS) (m : Manifest) : FS * Manifest * Status :=
  let snapshot := mf_levels m in
  let neu := mf_neu m in
  let bak := mf_bak m in
  let '(fs, nfd) := fs_open fs neu true in
  if negb nfd then (fs, m, SIOError (bs "cannot create MANIFEST.new"))
  else
    let '(fs, s) := write_snapshot fs neu (snapshot_records snapshot) in
    if negb (ok s) then let '(fs, _) := fs_unlink fs neu in (fs, m, s)
    else
      let '(fs, synced) := fs_fdatasync fs (Some neu) in
      if negb synced then
        let '(fs, _) := fs_unlink fs neu in (fs, m, SIOError (bs "MANIFEST.new sync failed"))
      else
        let m := mkManifest (mf_path m) false (mf_levels m) in
        let '(fs, _) := fs_unlink fs bak in
        let '(fs, _) := fs_rename fs (mf_path m) bak in
        let '(fs, promoted) := fs_rename fs neu (mf_path m) in
        if negb promoted then
          let '(fs, _) := fs_rename fs bak (mf_path m) in
          (fs, m, SIOError (bs "cannot promote MANIFEST.new"))
        else
          let '(fs, ok) := fs_open fs (mf_path m) false in
          if negb ok then (fs, m, SIOError (bs "cannot reopen MANIFEST after snapshot"))
          else
            let lv := if zlen snapshot <? 8 then resize_levels 8 snapshot else snapshot in
            (fs, mkManifest (mf_path m) true lv, SOk).

Definition mf_totalFiles (m : Manifest) : Z := foldr (fun v a => u64 (zlen v + a)) 0 (mf_levels m).

(** ** Version *)

Record Version := mkVersion {
  v_levels : levels;
  v_next_file_number : Z;
  v_manifest : option Manifest;
}.

Definition Version_new : Version := mkVersion (replicate 7 []) 1 None.

Definition v_setManifest (v : Version) (m : Manifest) : Version :=
  mkVersion (v_levels v) (v_next_file_number v) (Some m).

Definition max_number (lv : levels) : Z :=
  foldl (fun a m => if sm_file_number m >? a then sm_file_number m else a) 0 (concat lv).

Definition v_restoreFrom (v : Version) (snapshot : levels) : Version :=
  let lv := if zlen snapshot <? 7 then resize_levels 7 snapshot else snapshot in
  let max_no := max_number lv in
  let cur := v_next_file_number v in
  mkVersion lv (if max_no >=? cur then u64 (max_no + 1) else cur) (v_manifest v).

Definition in_levels (v : Version) (level : Z) : bool := (0 <=? level) && (level <? zlen (v_levels v)).

Definition v_getLevelMetas (v : Version) (level : Z) : list SSTableMeta :=
  if in_levels v level then default [] (v_levels v !! Z.to_nat level) else [].

Definition v_getLevelFiles (v : Version) (level : Z) : list bytes := sm_path <$> v_getLevelMetas v level.

(** The number in the basename "N.sst" of a path, if it has that form. *)
Definition number_of_path (path : bytes) : option Z :=
  let slash := str_find_last_char path (z2b 47) 0 in
  let base := if slash =? npos then path else default [] (str_substr path (slash + 1) npos) in
  let dot := str_find_char base (z2b 46) 0 in
  if negb (dot =? npos) && (dot >? 0) then
    let digits := take (Z.to_nat dot) base in
    if forallb is_digit digits then Some (dec_value digits) else None
  else None.

(** [while (file_no + 1 > cur) compare_exchange]: raise the allocator past a number. *)
Definition raise_next (cur n : Z) : Z := if n >? cur then n else cur.

Definition v_addLevelFile (fs : FS) (v : Version) (level : Z) (path : bytes) : option (FS * Version) :=
  if level <? 0 then Some (fs, v)
  else
    let '(file_no, next) :=
      match number_of_path path with
      | Some n => (n, raise_next (v_next_file_number v) (u64 (n + 1)))
      | None => (v_next_file_number v, u64 (v_next_file_number v + 1))
      end in
    let lv := lv_add (Z.to_nat level) (new_meta path file_no) (v_levels v) in
    match v_manifest v with
    | None => Some (fs, mkVersion lv next None)
    | Some m =>
        '(fs, m, _) ← mf_recordAddFile fs m level path file_no;
        let '(fs, _) := mf_sync fs m in
        Some (fs, mkVersion lv next (Some m))
    end.

(** [remove_if] applies its predicate once per file, in order; the predicate records the
    removal. *)
Fixpoint record_removals (fs : FS) (m : Manifest) (level : Z) (paths : list bytes) (files : list SSTableMeta)
  : option (FS * Manifest) :=
  match files with
  | [] => Some (fs, m)
  | f :: files =>
      if decide (sm_path f ∈ paths)
      then '(fs, m, _) ← mf_recordRemoveFile fs m level (sm_path f) (sm_file_number f);
           record_removals fs m level paths files
      else record_removals fs m level paths files
  end.

Definition v_removeLevelFiles (fs : FS) (v : Version) (level : Z) (paths : list bytes) : option (FS * Version) :=
  if negb (in_levels v level) then Some (fs, v)
  else
    let files := v_getLevelMetas v level in
    let lv := <[Z.to_nat level := filter (fun m => sm_path m ∉ paths) files]> (v_levels v) in
    match v_manifest v with
    | None => Some (fs, mkVersion lv (v_next_file_number v) None)
    | Some m =>
        '(fs, m) ← record_removals fs m level paths files;
        let '(fs, _) := mf_sync fs m in
        Some (fs, mkVersion lv (v_next_file_number v) (Some m))
    end.

Definition v_shouldCompactL0 (v : Version) (trigger : Z) : bool :=
  match v_levels v with [] => false | l0 :: _ => trigger <=? zlen l0 end.

Definition v_shouldCompactLevel (v : Version) (level file_trigger : Z) : bool :=
  if in_levels v level then file_trigger <=? zlen (v_getLevelMetas v level) else false.

Definition v_levelSize (v : Version) (level : Z) : Z :=
  if in_levels v level then zlen (v_getLevelMetas v level) else 0.

Definition v_nextFileNumber (v : Version) : Z * Version :=
  (v_next_file_number v, mkVersion (v_levels v) (u64 (v_next_file_number v + 1)) (v_manifest v)).

Definition v_ensureNextFileNumberAtLeast (v : Version) (min_next : Z) : Version :=
  mkVersion (v_levels v) (raise_next (v_next_file_number v) min_next) (v_manifest v).

Example number_of_path_demo :
  number_of_path (bs "db/level-0/42.sst") = Some 42 /\ number_of_path (bs "db/x.sst") = None /\
  number_of_path (bs "7.sst") = Some 7.
Proof. vm_compute. done. Qed.
