(* ===== verification/ManifestProofs.v ===== *)
(** * The manifest and the version: replay, crash safety, fresh file numbers *)

From Stdlib Require Import ZArith Lia.
From stdpp Require Import base numbers strings list gmap.
From S2P Require Import Prelude CppString Coding Slice FileSystem Wal Manifest.
Local Open Scope Z_scope.

(** ** Rosters up to trailing empty levels

    Vectors of levels grow on demand, so two rosters are the same when they agree at every
    level, an absent level being empty. *)

Definition lv_at (l : levels) (i : nat) : list SSTableMeta := default [] (l !! i).

Definition lv_equiv (l1 l2 : levels) : Prop := forall i, lv_at l1 i = lv_at l2 i.

#[export] Instance lv_equiv_equivalence : Equivalence lv_equiv.
Proof.
  split; [by intros l i|by intros l1 l2 H i|]. intros l1 l2 l3 H1 H2 i. by rewrite H1, H2.
Qed.

Lemma lookup_resize n l i : lv_at (resize_levels n l) i = if decide (i < n)%nat then lv_at l i else [].
Proof.
  unfold lv_at, resize_levels. case_decide as Hi.
  - destruct (decide (i < length l)%nat) as [Hl|Hl].
    + rewrite lookup_app_l by (rewrite length_take; lia). by rewrite lookup_take_lt.
    + rewrite lookup_app_r by (rewrite length_take; lia). rewrite (lookup_ge_None_2 l) by lia.
      destruct (replicate _ _ !! _) eqn:E; [|done]. by apply lookup_replicate in E as [-> _].
  - rewrite lookup_ge_None_2; [done|]. rewrite length_app, length_take, length_replicate. lia.
Qed.

Lemma resize_equiv n l : (length l <= n)%nat -> lv_equiv (resize_levels n l) l.
Proof.
  intros Hl i. rewrite lookup_resize. case_decide; [done|]. unfold lv_at. by rewrite lookup_ge_None_2 by lia.
Qed.

Lemma length_resize n l : length (resize_levels n l) = n.
Proof. unfold resize_levels. rewrite length_app, length_take, length_replicate. lia. Qed.

Lemma lv_at_alter f j l i :
  (j < length l)%nat -> lv_at (alter f j l) i = if decide (i = j) then f (lv_at l i) else lv_at l i.
Proof.
  intros Hj. unfold lv_at. case_decide as Hd.
  - subst i. rewrite list_lookup_alter_eq. by destruct (lookup_lt_is_Some_2 l j Hj) as [x ->].
  - by rewrite list_lookup_alter_ne by done.
Qed.

Lemma lv_at_add j m l i : lv_at (lv_add j m l) i = if decide (i = j) then lv_at l i ++ [m] else lv_at l i.
Proof.
  unfold lv_add. case_decide as Hj.
  - rewrite lv_at_alter by (rewrite length_resize; lia). rewrite resize_equiv by lia. done.
  - by rewrite lv_at_alter by lia.
Qed.

Lemma lv_at_remove j p l i :
  lv_at (lv_remove j p l) i = if decide (i = j) then remove_path p (lv_at l i) else lv_at l i.
Proof.
  unfold lv_remove. destruct (decide (j < length l)%nat) as [Hj|Hj]; [by rewrite lv_at_alter|].
  unfold lv_at. case_decide as Hd; [subst i|by rewrite list_lookup_alter_ne].
  rewrite list_lookup_alter_eq. by rewrite lookup_ge_None_2 by lia.
Qed.

#[export] Instance lv_add_proper j m : Proper (lv_equiv ==> lv_equiv) (lv_add j m).
Proof. intros l1 l2 H i. by rewrite !lv_at_add, H. Qed.

#[export] Instance lv_remove_proper j p : Proper (lv_equiv ==> lv_equiv) (lv_remove j p).
Proof. intros l1 l2 H i. by rewrite !lv_at_remove, H. Qed.

(** ** Edits and their records *)

Inductive edit :=
  | EAdd (level : Z) (path : bytes) (file_no : Z)
  | EDel (level : Z) (path : bytes) (file_no : Z).

Definition edit_apply (l : levels) (e : edit) : levels :=
  match e with
  | EAdd level path no => lv_add (Z.to_nat level) (new_meta path no) l
  | EDel level path _ => lv_remove (Z.to_nat level) path l
  end.

Definition edit_payload (e : edit) : bytes :=
  match e with
  | EAdd level path no => mf_payload kAdd level path no
  | EDel level path no => mf_payload kDel level path no
  end.

Definition edit_ok (e : edit) : Prop :=
  match e with
  | EAdd level path no | EDel level path no =>
      0 <= level < 2 ^ 31 /\ zlen path + 17 <= 2 ^ 24 /\ 0 <= no < 2 ^ 64
  end.

Definition mf_log (es : list edit) : bytes := wal_log (edit_payload <$> es).

#[export] Instance edit_apply_proper e : Proper (lv_equiv ==> lv_equiv) (fun l => edit_apply l e).
Proof. intros l1 l2 H. destruct e; simpl; by rewrite H. Qed.

Definition edits_apply (l : levels) (es : list edit) : levels := foldl edit_apply l es.

Lemma edits_apply_proper es l1 l2 : lv_equiv l1 l2 -> lv_equiv (edits_apply l1 es) (edits_apply l2 es).
Proof. revert l1 l2. induction es as [|e es IH]; intros l1 l2 H; simpl; [done|]. by apply IH, edit_apply_proper. Qed.

Lemma mf_payload_size type level path no : zlen (mf_payload type level path no) = 17 + zlen path.
Proof.
  unfold mf_payload. rewrite !zlen_app. change (zlen (encodeFixed64 no)) with 8.
  change (zlen (encodeFixed32 (u32 level))) with 4. change (zlen (encodeFixed32 (u32 (zlen path)))) with 4.
  change (zlen [z2b type]) with 1. lia.
Qed.

Lemma mf_payload_fields type level path no :
  0 <= level < 2 ^ 31 -> zlen path + 17 <= 2 ^ 24 -> 0 <= no < 2 ^ 64 ->
  let p := mf_payload type level path no in
  head p = Some (z2b type) /\ decodeFixed32 (drop 1 p) = Some level /\ decodeFixed64 (drop 5 p) = Some no /\
  decodeFixed32 (drop 13 p) = Some (zlen path) /\ drop 17 p = path.
Proof.
  intros Hl Hp Hn p. subst p. pose proof (zlen_nonneg path). unfold mf_payload. rewrite !u32_small by lia.
  split; [done|]. split; [rewrite (drop_app_exact _ _ 1) by done; by rewrite decodeFixed32_encode by lia|].
  split; [rewrite app_assoc, (drop_app_exact _ _ 5) by done; by rewrite decodeFixed64_encode by lia|].
  split; [|done].
  change (drop 13 ([z2b type] ++ encodeFixed32 level ++ encodeFixed64 no ++ encodeFixed32 (zlen path) ++ path))
    with (encodeFixed32 (zlen path) ++ path). by rewrite decodeFixed32_encode by lia.
Qed.

(** Replaying one record does to the roster what the record says. *)
Lemma mf_apply_edit e tmp :
  edit_ok e -> exists tmp', mf_apply (edit_payload e) tmp = Some (Some tmp') /\ lv_equiv tmp' (edit_apply tmp e).
Proof.
  intros He. assert (forall type level path no, (type = kAdd \/ type = kDel) ->
    0 <= level < 2 ^ 31 -> zlen path + 17 <= 2 ^ 24 -> 0 <= no < 2 ^ 64 ->
    exists t0, (level < zlen t0 /\ lv_equiv t0 tmp) /\
      mf_apply (mf_payload type level path no) tmp =
        if type =? kAdd then Some (Some (alter (fun v => v ++ [new_meta path no]) (Z.to_nat level) t0))
        else Some (Some (alter (remove_path path) (Z.to_nat level) t0))) as Hgen.
  { intros type level path no Ht Hl Hp Hn. unfold mf_apply.
    destruct (mf_payload_fields type level path no Hl Hp Hn) as (-> & E1 & E2 & E3 & E4).
    rewrite E1, E2, E3, E4. cbn [mbind option_bind]. rewrite b2z_z2b, mf_payload_size.
    pose proof (zlen_nonneg path). assert (type mod 256 = type) as -> by (destruct Ht; subst; done).
    replace (type =? kReset) with false by (destruct Ht; subst; done).
    replace (17 + zlen path <? 17) with false by lia. rewrite u32_small by lia.
    replace (17 + zlen path >? 17 + zlen path) with false by lia.
    unfold read_n. rewrite decide_True by (unfold zlen; lia). rewrite to_nat_zlen, firstn_all. cbn [mbind option_bind].
    rewrite (u32_small (level + 1)) by lia.
    set (t0 := if zlen tmp <=? level then _ else tmp). exists t0.
    assert (level < zlen t0 /\ lv_equiv t0 tmp) as Ht0.
    { subst t0. destruct (Z.leb_spec (zlen tmp) level); [|by split].
      unfold zlen in *. rewrite length_resize. split; [lia|]. apply resize_equiv. lia. }
    split; [done|]. by replace (zlen t0 <=? level) with false by lia. }
  destruct e as [level path no|level path no]; destruct He as (Hl & Hp & Hn); simpl.
  - destruct (Hgen kAdd level path no) as (t0 & [Hlt Heq] & ->); [by left|done..|]. eexists. split; [done|].
    intros i. rewrite lv_at_alter, lv_at_add, Heq by (unfold zlen in Hlt; lia). done.
  - destruct (Hgen kDel level path no) as (t0 & [Hlt Heq] & ->); [by right|done..|]. eexists. split; [done|].
    intros i. rewrite lv_at_alter, lv_at_remove, Heq by (unfold zlen in Hlt; lia). done.
Qed.

(** ** Replay *)

Definition mf_torn (p : bytes) : Prop := forall fuel tmp, mf_replay_loop fuel p tmp = Some tmp.

Lemma mf_torn_nil : mf_torn [].
Proof. by intros [|fuel] tmp. Qed.

Lemma edit_payload_size e : edit_ok e -> 17 <= zlen (edit_payload e) <= 2 ^ 24.
Proof.
  intros He. destruct e; destruct He as (_ & Hp & _); simpl; rewrite mf_payload_size;
    pose proof (zlen_nonneg path); lia.
Qed.

Lemma record_header d p :
  zlen d < 2 ^ 32 ->
  default 0 (decodeFixed32 (wal_record d ++ p)) = crc32c d /\
  default 0 (decodeFixed32 (drop 4 (wal_record d ++ p))) = zlen d /\
  drop 8 (wal_record d ++ p) = d ++ p.
Proof.
  intros Hd. pose proof (zlen_nonneg d). unfold wal_record. rewrite <- !app_assoc.
  rewrite decodeFixed32_encode by apply crc32c_range. split; [done|].
  rewrite (drop_app_exact _ _ 4) by done. rewrite decodeFixed32_encode by apply u32_range.
  split; [cbn; by apply u32_small|]. by rewrite (app_assoc (encodeFixed32 _)), (drop_app_exact _ _ 8).
Qed.

Lemma mf_torn_record d n : 17 <= zlen d <= 2 ^ 24 -> (n < length (wal_record d))%nat -> mf_torn (take n (wal_record d)).
Proof.
  intros Hd Hn [|fuel] tmp; [done|]. rewrite length_wal_record in Hn. cbn [mf_replay_loop].
  assert (length (take n (wal_record d)) = n) as Hl by (rewrite length_take, length_wal_record; lia).
  case_decide as H8; [done|]. rewrite Hl in H8.
  assert (take n (wal_record d) = encodeFixed32 (crc32c d) ++ encodeFixed32 (u32 (zlen d)) ++ take (n - 8) d) as ->.
  { unfold wal_record. rewrite take_app_ge by (rewrite !length_encodeFixed32; lia). f_equal.
    rewrite take_app_ge by (rewrite !length_encodeFixed32; lia). do 2 f_equal.
    rewrite !length_encodeFixed32. lia. }
  rewrite (drop_app_exact _ _ 4) by done. rewrite decodeFixed32_encode by apply u32_range.
  rewrite app_assoc, (drop_app_exact _ _ 8) by done. cbn [from_option id].
  rewrite u32_small by lia. destruct (_ || _); [done|].
  rewrite to_nat_zlen. rewrite decide_True; [done|]. rewrite length_take. lia.
Qed.

Lemma mf_replay_edit fuel e p tmp :
  edit_ok e ->
  exists tmp', mf_replay_loop (S fuel) (wal_record (edit_payload e) ++ p) tmp = mf_replay_loop fuel p tmp' /\
               lv_equiv tmp' (edit_apply tmp e).
Proof.
  intros He. pose proof (edit_payload_size e He) as Hs. cbn [mf_replay_loop].
  rewrite decide_False by (rewrite length_app, length_wal_record; lia).
  destruct (record_header (edit_payload e) p) as (-> & -> & ->); [lia|].
  replace ((zlen _ =? 0) || _) with false by (symmetry; apply orb_false_iff; lia).
  rewrite to_nat_zlen, decide_False by (rewrite length_app; lia).
  rewrite take_app_length, drop_app_length, Z.eqb_refl. cbn [negb].
  destruct (mf_apply_edit e tmp He) as (tmp' & -> & Heq). by exists tmp'.
Qed.

Lemma mf_replay_log fuel es p tmp :
  Forall edit_ok es -> mf_torn p -> (length es < fuel)%nat ->
  exists tmp', mf_replay_loop fuel (mf_log es ++ p) tmp = Some tmp' /\ lv_equiv tmp' (edits_apply tmp es).
Proof.
  intros Hes Hp. revert fuel tmp. induction Hes as [|e es He _ IH]; intros fuel tmp Hf; [by exists tmp|].
  destruct fuel as [|fuel]; [simpl in Hf; lia|].
  change (mf_log (e :: es)) with (wal_record (edit_payload e) ++ mf_log es). rewrite <- app_assoc.
  destruct (mf_replay_edit fuel e (mf_log es ++ p) tmp He) as (t1 & -> & H1).
  destruct (IH fuel t1) as (t2 & -> & H2); [simpl in Hf; lia|]. exists t2. split; [done|].
  rewrite H2. exact (edits_apply_proper es _ _ H1).
Qed.

(** A manifest file that holds the edits [es], then possibly a torn record. *)
Definition mf_holds (file : bytes) (es : list edit) : Prop :=
  exists p, file = mf_log es ++ p /\ mf_torn p /\ Forall edit_ok es.

Definition no_files : levels := replicate 8 [].

Lemma mf_replay_holds file es :
  mf_holds file es -> exists lv, mf_replay file = Some lv /\ lv_equiv lv (edits_apply no_files es).
Proof.
  intros (p & -> & Hp & Hes). unfold mf_replay. apply mf_replay_log; [done..|].
  rewrite length_app. pose proof (wal_log_length (edit_payload <$> es)) as Hl. rewrite length_fmap in Hl.
  unfold mf_log. lia.
Qed.

(** ** Appending records *)

Lemma mf_writeRecord_cases fs path old d :
  fs_read fs path = Some old -> 17 <= zlen d <= 2 ^ 24 ->
  forall type level p no, mf_payload type level p no = d ->
  let '(fs', s) := mf_writeRecordToFd fs (Some path) type level p no in
  (s = SOk /\ fs_read fs' path = Some (old ++ wal_record d)) \/
  (ok s = false /\ exists n, (n < length (wal_record d))%nat /\ fs_read fs' path = Some (old ++ take n (wal_record d))).
Proof.
  intros Hr Hd type level p no <-. set (d := mf_payload type level p no) in *. unfold mf_writeRecordToFd. fold d.
  pose proof (fs_write_cases fs path old (encodeFixed32 (crc32c d) ++ encodeFixed32 (u32 (zlen d))) Hr) as Hw.
  destruct (fs_write fs _ _) as [fs1 n1]. destruct Hw as [[-> Hr1]|(Hn & k & Hk & Hr1)].
  2:{ change (zlen (encodeFixed32 _ ++ encodeFixed32 _)) with 8 in Hn.
      replace (n1 =? 8) with false by lia. cbn [negb]. right. split; [done|]. exists k.
      rewrite length_app, !length_encodeFixed32 in Hk. rewrite length_wal_record. split; [lia|].
      rewrite Hr1. do 2 f_equal. unfold wal_record. rewrite app_assoc, (take_app_le (_ ++ _)); [done|].
      rewrite length_app, !length_encodeFixed32. lia. }
  change (zlen (encodeFixed32 _ ++ encodeFixed32 _)) with 8. cbn [negb Z.eqb Pos.eqb].
  pose proof (fs_write_cases fs1 path _ d Hr1) as Hw.
  destruct (fs_write fs1 _ _) as [fs2 n2]. destruct Hw as [[-> Hr2]|(Hn & k & Hk & Hr2)].
  - rewrite Z.eqb_refl. cbn [negb]. left. split; [done|]. rewrite Hr2. unfold wal_record. by rewrite <- !app_assoc.
  - replace (n2 =? zlen d) with false by lia. cbn [negb]. right. split; [done|].
    exists (8 + k)%nat. rewrite length_wal_record. split; [unfold zlen in Hd; lia|].
    rewrite Hr2, <- app_assoc. by do 2 f_equal.
Qed.

Lemma mf_writeRecord_other fs path type level p no q :
  q <> path -> fs_read (mf_writeRecordToFd fs (Some path) type level p no).1 q = fs_read fs q.
Proof.
  intros Hne. unfold mf_writeRecordToFd. set (h := encodeFixed32 _ ++ encodeFixed32 _).
  pose proof (fs_write_other fs (Some path) h q ltac:(congruence)) as H1.
  destruct (fs_write fs (Some path) h) as [fs1 n1]. simpl in H1. destruct (negb _); [done|].
  pose proof (fs_write_other fs1 (Some path) (mf_payload type level p no) q ltac:(congruence)) as H2.
  destruct (fs_write fs1 (Some path) _) as [fs2 n2]. simpl in H2. destruct (negb _); simpl; congruence.
Qed.

(** ** Snapshots *)

Definition record_edit (r : Z * SSTableMeta) : edit := EAdd r.1 (sm_path r.2) (sm_file_number r.2).

(** The fields the code never fills are empty. *)
Definition plain (m : SSTableMeta) : Prop := m = new_meta (sm_path m) (sm_file_number m).

Lemma edits_add_at rs tmp i :
  Forall (fun r => 0 <= r.1 /\ plain r.2) rs ->
  lv_at (edits_apply tmp (record_edit <$> rs)) i = lv_at tmp i ++ (snd <$> filter (fun r => r.1 = Z.of_nat i) rs).
Proof.
  revert tmp. induction rs as [|[l m] rs IH]; intros tmp Hrs; [by rewrite app_nil_r|].
  inversion_clear Hrs as [|? ? [Hl Hm] Hrs']. simpl in Hl, Hm. rewrite fmap_cons. cbn [edits_apply foldl].
  fold (edits_apply (edit_apply tmp (record_edit (l, m))) (record_edit <$> rs)). rewrite IH by done.
  unfold edit_apply, record_edit. cbn [fst snd]. rewrite lv_at_add, <- Hm, filter_cons. cbn [fst].
  destruct (decide (i = Z.to_nat l)) as [->|Hne].
  - rewrite decide_True by lia. by rewrite <- app_assoc.
  - by rewrite decide_False by lia.
Qed.

Lemma snd_tagged {A} (z : Z) (v : list A) : snd <$> ((fun m => (z, m)) <$> v) = v.
Proof. induction v as [|x v IH]; [done|]. rewrite !fmap_cons. by rewrite IH. Qed.

Lemma snapshot_at_from lv k i :
  snd <$> filter (fun r : Z * SSTableMeta => r.1 = Z.of_nat (k + i))
    (concat (imap (fun j v => (fun m => (Z.of_nat (k + j), m)) <$> v) lv)) = lv_at lv i.
Proof.
  revert k i. induction lv as [|v lv IH]; intros k i; [done|]. rewrite imap_cons. cbn [concat].
  rewrite filter_app, fmap_app.
  assert (imap ((fun j v => (fun m : SSTableMeta => (Z.of_nat (k + j), m)) <$> v) ∘ S) lv =
          imap (fun j v => (fun m : SSTableMeta => (Z.of_nat (S k + j), m)) <$> v) lv) as ->.
  { apply imap_ext. intros j x _. simpl. apply list_fmap_ext. intros _ m _. do 2 f_equal. lia. }
  destruct i as [|i].
  - rewrite filter_all.
    2:{ intros r (m & -> & _)%list_elem_of_fmap. done. }
    rewrite snd_tagged.
    rewrite filter_none, app_nil_r; [done|]. intros r Hr Heq.
    apply list_elem_of_In, in_concat in Hr as (w & Hw & Hr).
    apply list_elem_of_In, list_elem_of_lookup in Hw as [j Hj]. rewrite list_lookup_imap in Hj.
    destruct (lv !! j) as [x|]; [|done]. simpl in Hj. injection Hj as <-.
    apply list_elem_of_In, list_elem_of_fmap in Hr as (m & -> & _). simpl in Heq. lia.
  - rewrite filter_none.
    2:{ intros r (m & -> & _)%list_elem_of_fmap. simpl. lia. }
    simpl. replace (k + S i)%nat with (S k + i)%nat by lia. apply IH.
Qed.

Lemma snapshot_edits lv :
  Forall (Forall plain) lv -> lv_equiv (edits_apply no_files (record_edit <$> snapshot_records lv)) lv.
Proof.
  intros Hp i. rewrite edits_add_at.
  - pose proof (snapshot_at_from lv 0 i) as Hs. cbn [Nat.add] in Hs. fold (snapshot_records lv) in Hs.
    rewrite Hs. unfold lv_at at 1, no_files.
    destruct (replicate 8 [] !! i) eqn:E; [|done]. by apply lookup_replicate in E as [-> _].
  - unfold snapshot_records. apply Forall_forall. intros r Hr.
    apply list_elem_of_In, in_concat in Hr as (w & Hw & Hr).
    apply list_elem_of_In, list_elem_of_lookup in Hw as [j Hj]. rewrite list_lookup_imap in Hj.
    destruct (lv !! j) as [x|] eqn:Ej; [|done]. simpl in Hj. injection Hj as <-.
    apply list_elem_of_In, list_elem_of_fmap in Hr as (m & -> & Hm). simpl. split; [lia|].
    rewrite Forall_forall in Hp. specialize (Hp x (list_elem_of_lookup_2 _ _ _ Ej)). rewrite Forall_forall in Hp. by apply Hp.
Qed.

Lemma mf_log_snoc es e : mf_log (es ++ [e]) = mf_log es ++ wal_record (edit_payload e).
Proof. unfold mf_log. rewrite fmap_app, wal_log_app. simpl. unfold wal_log at 2. simpl. by rewrite app_nil_r. Qed.

Lemma write_snapshot_cases rs fs neu es :
  fs_read fs neu = Some (mf_log es) -> Forall edit_ok (record_edit <$> rs) ->
  let '(fs', s) := write_snapshot fs neu rs in
  (forall q, q <> neu -> fs_read fs' q = fs_read fs q) /\
  (ok s = true -> fs_read fs' neu = Some (mf_log (es ++ (record_edit <$> rs)))).
Proof.
  revert fs es. induction rs as [|[l m] rs IH]; intros fs es Hr Hok; cbn [write_snapshot].
  { split; [done|]. by rewrite app_nil_r. }
  rewrite fmap_cons in Hok. apply Forall_cons in Hok as [He Hok].
  pose proof (edit_payload_size _ He) as Hs.
  pose proof (mf_writeRecord_cases fs neu _ _ Hr Hs kAdd l (sm_path m) (sm_file_number m) eq_refl) as Hw.
  pose proof (mf_writeRecord_other fs neu kAdd l (sm_path m) (sm_file_number m)) as Ho.
  destruct (mf_writeRecordToFd _ _ _ _ _ _) as [fs1 s1]. cbn [fst] in Ho.
  destruct Hw as [[-> Hr1]|[Hs1 _]]; [|rewrite Hs1; split; [by apply Ho|by rewrite Hs1]]. simpl (ok SOk). cbn iota.
  fold (edit_payload (record_edit (l, m))) in Hr1.
  rewrite <- mf_log_snoc in Hr1. specialize (IH fs1 _ Hr1 Hok).
  destruct (write_snapshot fs1 neu rs) as [fs2 s2]. destruct IH as [IH1 IH2].
  split; [intros q Hq; rewrite IH1, Ho by done; done|]. intros Hk. rewrite (IH2 Hk), <- app_assoc. done.
Qed.

(** ** Crash safety of the snapshot *)

(** A file whose replay gives the roster [lv]. *)
Definition mf_good (file : bytes) (lv : levels) : Prop :=
  exists es, mf_holds file es /\ lv_equiv (edits_apply no_files es) lv.

(** A directory from which opening the manifest recovers [lv]. *)
Definition mf_state (files : gmap bytes bytes) (path : bytes) (lv : levels) : Prop :=
  (exists d, files !! path = Some d /\ mf_good d lv) \/
  (files !! path = None /\ exists d, files !! (path ++ bs ".new") = Some d /\ mf_good d lv).

Lemma mf_names_ne (path : bytes) :
  path <> path ++ bs ".new" /\ path <> path ++ bs ".bak" /\ path ++ bs ".new" <> path ++ bs ".bak".
Proof.
  split; [|split].
  - intros Hn%(f_equal length). rewrite length_app in Hn. simpl in Hn. lia.
  - intros Hn%(f_equal length). rewrite length_app in Hn. simpl in Hn. lia.
  - intros Hn%app_inv_head. discriminate Hn.
Qed.

Lemma mf_open_state files path l0 lv :
  mf_state files path lv ->
  exists files' lv', mf_open (fs_of files) (mkManifest path false l0) = Some (fs_of files', mkManifest path true lv', SOk) /\
    lv_equiv lv' lv /\ (exists d, files' !! path = Some d /\ mf_good d lv) /\
    (forall q, q <> path -> q <> path ++ bs ".new" -> files' !! q = files !! q).
Proof.
  intros Hst. destruct (mf_names_ne path) as (N1 & N2 & N3).
  assert (exists files1 d, mf_recoverActivePath (fs_of files) (mkManifest path false l0) = fs_of files1 /\
            files1 !! path = Some d /\ mf_good d lv /\
            forall q, q <> path -> q <> path ++ bs ".new" -> files1 !! q = files !! q) as (files1 & d & Hrec & Hd & Hg & Ho).
  { unfold mf_recoverActivePath, fs_exists, fs_read, mf_neu, mf_bak. cbn [mf_path fs_files fs_of fs_script].
    destruct Hst as [(d & Hd & Hg)|(Hn & d & Hd & Hg)].
    - rewrite Hd, bool_decide_eq_true_2 by by eexists. rewrite fs_unlink_ok. do 2 eexists. split; [done|].
      rewrite lookup_delete_ne by done. split; [done|]. split; [done|]. intros q Q1 Q2. by rewrite lookup_delete_ne.
    - rewrite Hn, bool_decide_eq_false_2 by by intros [? ?]. rewrite Hd, bool_decide_eq_true_2 by by eexists.
      rewrite (fs_rename_ok _ _ _ d) by done. do 2 eexists. split; [done|]. rewrite lookup_insert_eq.
      split; [done|]. split; [done|]. intros q Q1 Q2. by rewrite lookup_insert_ne, lookup_delete_ne. }
  destruct Hg as (es & Hh & Heq). destruct (mf_replay_holds _ _ Hh) as (lv' & Hrep & Heq').
  unfold mf_open. cbn [mf_open_]. rewrite Hrec, fs_open_ok. cbn [mf_path negb].
  unfold fs_read. cbn [fs_files fs_of fs_script]. rewrite lookup_insert_eq, Hd. cbn [from_option id].
  rewrite Hrep. cbn [mbind option_bind]. do 2 eexists. split; [done|].
  split; [by rewrite Heq', Heq|]. split.
  - exists d. rewrite lookup_insert_eq. split; [done|]. by exists es.
  - intros q Q1 Q2. rewrite lookup_insert_ne by done. by apply Ho.
Qed.

Definition roster_ok (lv : levels) : Prop :=
  Forall (Forall plain) lv /\ Forall edit_ok (record_edit <$> snapshot_records lv).

(** The publication steps, from the state in which the new file is complete. *)
Lemma publish_safe fs path lv d0 d1 :
  fs_files fs !! path = Some d0 -> mf_good d0 lv ->
  fs_files fs !! (path ++ bs ".new") = Some d1 -> mf_good d1 lv ->
  (fs_files fs !! (path ++ bs ".bak") = None \/ calm fs) ->
  let fs1 := (fs_unlink fs (path ++ bs ".bak")).1 in
  let fs2 := (fs_rename fs1 path (path ++ bs ".bak")).1 in
  let '(fs3, b) := fs_rename fs2 (path ++ bs ".new") path in
  mf_state (fs_files fs3) path lv /\ (b = true -> exists d, fs_files fs3 !! path = Some d /\ mf_good d lv) /\
  (b = false -> mf_state (fs_files (fs_rename fs3 (path ++ bs ".bak") path).1) path lv).
Proof.
  intros H0 G0 H1 G1 Hb fs1 fs2. destruct (mf_names_ne path) as (N1 & N2 & N3).
  assert (fs_files fs1 !! path = Some d0 /\ fs_files fs1 !! (path ++ bs ".new") = Some d1 /\
          (fs_files fs1 !! (path ++ bs ".bak") = None \/ calm fs1)) as (A0 & A1 & A2).
  { assert (calm fs -> calm fs1) as Hcalm by apply fs_unlink_calm.
    destruct (fs_unlink_cases fs (path ++ bs ".bak")) as [E|E]; fold fs1 in E; rewrite E; [tauto|].
    rewrite lookup_delete_eq, !lookup_delete_ne by done. tauto. }
  clearbody fs1. assert (fs_files fs2 !! (path ++ bs ".new") = Some d1 /\
    ((fs_files fs2 !! path = Some d0 /\ (fs_files fs2 !! (path ++ bs ".bak") = None \/ calm fs2)) \/
     (fs_files fs2 !! path = None /\ fs_files fs2 !! (path ++ bs ".bak") = Some d0))) as [B1 B0].
  { pose proof (fs_rename_cases fs1 path (path ++ bs ".bak")) as Hc.
    assert (calm fs1 -> calm fs2) as Hcalm by (intros Hc1; by apply (fs_rename_calm fs1 path _ d0)).
    destruct (fs_rename fs1 path (path ++ bs ".bak")) as [f b]. simpl in fs2. subst fs2.
    destruct Hc as [[_ ->]|(_ & d & Hd & ->)]; [tauto|].
    rewrite A0 in Hd. injection Hd as <-.
    rewrite lookup_insert_eq, !(lookup_insert_ne _ (path ++ bs ".bak")) by done.
    rewrite lookup_delete_eq, lookup_delete_ne by done. auto. }
  clearbody fs2. pose proof (fs_rename_cases fs2 (path ++ bs ".new") path) as Hc.
  assert (calm fs2 -> (fs_rename fs2 (path ++ bs ".new") path).2 = false ->
          fs_crashed (fs_rename fs2 (path ++ bs ".new") path).1 = true) as Hcr
    by (intros Hc2; by apply (fs_rename_calm fs2 _ path d1)).
  destruct (fs_rename fs2 (path ++ bs ".new") path) as [fs3 b]. simpl in Hcr.
  destruct Hc as [[-> E3]|(-> & d & Hd & E3)].
  2:{ rewrite B1 in Hd. injection Hd as <-. rewrite E3. split; [left|split; [intros _|done]];
        exists d1; by rewrite lookup_insert_eq. }
  assert (mf_state (fs_files fs3) path lv) as S3.
  { rewrite E3. destruct B0 as [[B0 _]|[B0 _]]; [left; by exists d0|right; split; [done|by exists d1]]. }
  split; [done|]. split; [done|]. intros _.
  destruct B0 as [[B0 [Hnone|Hc2]]|[_ Bb]]; cycle 1.
  { by rewrite fs_rename_crashed by by apply Hcr. }
  all: pose proof (fs_rename_cases fs3 (path ++ bs ".bak") path) as Hc;
    destruct (fs_rename fs3 (path ++ bs ".bak") path) as [fs4 b4]; simpl;
    destruct Hc as [[_ ->]|(_ & d & Hd & ->)]; [done|]; rewrite E3 in Hd.
  - left. exists d0. rewrite lookup_insert_eq. split; [congruence|done].
  - congruence.
Qed.

Lemma mf_writeRecord_calm fs fd t l p n : calm fs -> calm (mf_writeRecordToFd fs fd t l p n).1.
Proof.
  intros Hc. unfold mf_writeRecordToFd. destruct fd as [q|]; [|done].
  set (h := encodeFixed32 _ ++ _). pose proof (fs_write_calm fs (Some q) h Hc) as H1.
  destruct (fs_write fs (Some q) h) as [fs1 n1]. destruct (negb _); [done|].
  pose proof (fs_write_calm fs1 (Some q) (mf_payload t l p n) H1) as H2.
  destruct (fs_write fs1 (Some q) _) as [fs2 n2]. by destruct (negb _).
Qed.

Lemma write_snapshot_calm rs fs neu : calm fs -> calm (write_snapshot fs neu rs).1.
Proof.
  revert fs. induction rs as [|[l m] rs IH]; intros fs Hc; cbn [write_snapshot]; [done|].
  pose proof (mf_writeRecord_calm fs (Some neu) kAdd l (sm_path m) (sm_file_number m) Hc) as H1.
  destruct (mf_writeRecordToFd _ _ _ _ _ _) as [fs1 s1]. destruct (ok s1); [by apply IH|done].
Qed.

(** Removing a half-written new file leaves the active log. *)
Lemma unlink_new_safe fs path lv d :
  fs_files fs !! path = Some d -> mf_good d lv -> mf_state (fs_files (fs_unlink fs (path ++ bs ".new")).1) path lv.
Proof.
  intros Hd Hg. destruct (mf_names_ne path) as (N1 & _). left. exists d.
  destruct (fs_unlink_cases fs (path ++ bs ".new")) as [->| ->]; [done|]. by rewrite lookup_delete_ne.
Qed.

(** C11: rewriting the manifest as a snapshot is crash safe: whatever happens during it (a
    crash in any call, or between a rename and the next, with any part of the new file
    written; or any pattern of failed calls when no older archive is left over), opening
    the manifest afterwards recovers exactly the same roster of table files. *)
Theorem manifest_snapshot_crash_safe (fs : FS) (m : Manifest) (d : bytes) :
  mf_open_ m = true -> roster_ok (mf_levels m) ->
  fs_files fs !! mf_path m = Some d -> mf_good d (mf_levels m) ->
  (fs_files fs !! mf_bak m = None \/ calm fs) ->
  exists files' lv',
    mf_open (fs_of (fs_files (mf_rewriteSnapshot fs m).1.1)) (mkManifest (mf_path m) false []) =
      Some (fs_of files', mkManifest (mf_path m) true lv', SOk) /\
    lv_equiv lv' (mf_levels m).
Proof.
  intros Hop [Hpl Hok] Hd Hg Hb.
  enough (mf_state (fs_files (mf_rewriteSnapshot fs m).1.1) (mf_path m) (mf_levels m)) as Hst.
  { destruct (mf_open_state _ _ [] _ Hst) as (files' & lv' & Ho & Heq & _). by exists files', lv'. }
  destruct (mf_names_ne (mf_path m)) as (N1 & N2 & N3).
  unfold mf_rewriteSnapshot, mf_neu, mf_bak in *. cbn [mf_path mf_levels].
  pose proof (fs_open_cases fs (mf_path m ++ bs ".new") true) as Hc.
  pose proof (fs_open_calm fs (mf_path m ++ bs ".new") true) as Hcalm.
  destruct (fs_open fs _ true) as [fs1 b1]. cbn [fst] in Hcalm.
  destruct Hc as [[-> E1]|[-> E1]]; cbn [negb fst]; [rewrite E1; left; by exists d|].
  pose proof (write_snapshot_cases (snapshot_records (mf_levels m)) fs1 (mf_path m ++ bs ".new") []) as Hw.
  pose proof (write_snapshot_calm (snapshot_records (mf_levels m)) fs1 (mf_path m ++ bs ".new")) as Hcalm2.
  unfold fs_read in Hw. rewrite E1 in Hw. specialize (Hw ltac:(by rewrite lookup_insert_eq) Hok).
  destruct (write_snapshot fs1 _ _) as [fs2 s2]. cbn [fst] in Hcalm2. destruct Hw as [Hoth Hall].
  pose proof (Hoth (mf_path m) ltac:(done)) as P2. pose proof (Hoth (mf_path m ++ bs ".bak") ltac:(done)) as B2.
  rewrite lookup_insert_ne in P2, B2 by done. rewrite Hd in P2.
  destruct (ok s2) eqn:Es; cbn [negb].
  2:{ pose proof (unlink_new_safe fs2 _ _ _ P2 Hg) as Hu. by destruct (fs_unlink fs2 _) as [fs3 b3]. }
  pose proof (fs_fdatasync_files fs2 (Some (mf_path m ++ bs ".new"))) as E3.
  pose proof (fs_fdatasync_calm fs2 (Some (mf_path m ++ bs ".new"))) as Hcalm3.
  destruct (fs_fdatasync fs2 _) as [fs3 b3]. cbn [fst] in E3, Hcalm3. rewrite <- E3 in *.
  destruct b3; cbn [negb].
  2:{ pose proof (unlink_new_safe fs3 _ _ _ P2 Hg) as Hu. by destruct (fs_unlink fs3 _) as [fs4 b4]. }
  specialize (Hall eq_refl). cbn [app] in Hall.
  pose proof (publish_safe fs3 (mf_path m) (mf_levels m) d _ P2 Hg Hall) as Hp.
  specialize (Hp ltac:(exists (record_edit <$> snapshot_records (mf_levels m)); split;
    [exists []; rewrite app_nil_r; auto using mf_torn_nil|by apply snapshot_edits])).
  specialize (Hp ltac:(destruct Hb as [Hb|Hb]; [left; by rewrite B2|right; auto])).
  destruct (fs_unlink fs3 _) as [fs4 b4]. cbn [fst] in Hp. destruct (fs_rename fs4 _ _) as [fs5 b5]. cbn [fst] in Hp.
  destruct (fs_rename fs5 _ _) as [fs6 b6]. destruct Hp as (S6 & Hyes & Hno).
  destruct b6; cbn [negb].
  - destruct (Hyes eq_refl) as (d6 & Hd6 & Hg6).
    pose proof (fs_open_cases fs6 (mf_path m) false) as Hc.
    destruct (fs_open fs6 (mf_path m) false) as [fs7 b7].
    destruct Hc as [[-> E7]|[-> E7]]; cbn [negb fst]; rewrite E7; [done|].
    left. exists d6. by rewrite lookup_insert_eq, Hd6.
  - specialize (Hno eq_refl). by destruct (fs_rename fs6 _ _) as [fs7 b7].
Qed.

Definition demo_edits : list edit := [EAdd 0 (bs "db/level-0/1.sst") 1; EAdd 0 (bs "db/level-0/2.sst") 2; EDel 0 (bs "db/level-0/1.sst") 1].
Definition demo_manifest : Manifest := mkManifest (bs "db/MANIFEST") true (edits_apply no_files demo_edits).
(** A crash in the middle of the payload of the only record of the new file. *)
Definition demo_fs : FS := fs_script {[ bs "db/MANIFEST" := mf_log demo_edits; bs "db/MANIFEST.bak" := bs "old" ]} [FOk; FOk; FCrash 5].

Lemma manifest_snapshot_crash_safe_witness :
  exists files' lv',
    mf_open (fs_of (fs_files (mf_rewriteSnapshot demo_fs demo_manifest).1.1)) (mkManifest (bs "db/MANIFEST") false []) =
      Some (fs_of files', mkManifest (bs "db/MANIFEST") true lv', SOk) /\
    lv_equiv lv' (edits_apply no_files demo_edits).
Proof.
  apply (manifest_snapshot_crash_safe demo_fs demo_manifest (mf_log demo_edits)).
  - reflexivity.
  - split; [repeat constructor; vm_compute; reflexivity|]. repeat constructor; vm_compute; congruence.
  - vm_compute. reflexivity.
  - exists demo_edits. split; [|reflexivity]. exists []. split; [by rewrite app_nil_r|].
    split; [apply mf_torn_nil|]. repeat constructor; vm_compute; congruence.
  - right. right. repeat constructor.
Defined.

(** Rolling a failed snapshot back can bring an outdated roster back: when removing the
    old archive, archiving the active log and promoting the new one all fail, the rollback
    renames the archive of an earlier session over the active log. *)
Theorem manifest_rollback_restores_stale_archive :
  let old := mf_log [EAdd 0 (bs "db/level-0/1.sst") 1] in
  let fs := fs_script {[ bs "db/MANIFEST" := mf_log demo_edits; bs "db/MANIFEST.bak" := old ]}
              [FOk; FOk; FOk; FOk; FFail 0; FFail 0; FFail 0] in
  let fs' := (mf_rewriteSnapshot fs demo_manifest).1.1 in
  fs_files fs' !! bs "db/MANIFEST" = Some old /\
  (fun l => sm_path <$> lv_at l 0) <$> mf_replay old = Some [bs "db/level-0/1.sst"] /\
  (sm_path <$> lv_at (mf_levels demo_manifest) 0) = [bs "db/level-0/2.sst"].
Proof. vm_compute. done. Qed.

(** ** A version, its manifest and the file stay in step *)

Record v_durable (files : gmap bytes bytes) (v : Version) (m : Manifest) (es : list edit) : Prop := {
  vd_manifest : v_manifest v = Some m;
  vd_open : mf_open_ m = true;
  vd_file : files !! mf_path m = Some (mf_log es);
  vd_edits : Forall edit_ok es;
  vd_disk : lv_equiv (edits_apply no_files es) (v_levels v);
  vd_memory : lv_equiv (mf_levels m) (v_levels v);
}.

Lemma edits_apply_cons l e es : edits_apply l (e :: es) = edits_apply (edit_apply l e) es.
Proof. done. Qed.

Lemma edits_apply_snoc l es e : edits_apply l (es ++ [e]) = edit_apply (edits_apply l es) e.
Proof. unfold edits_apply. by rewrite foldl_app. Qed.

Lemma mf_writeRecord_ok files path old type level p no :
  files !! path = Some old ->
  mf_writeRecordToFd (fs_of files) (Some path) type level p no =
  (fs_of (<[path := old ++ wal_record (mf_payload type level p no)]> files), SOk).
Proof.
  intros Hr. unfold mf_writeRecordToFd. rewrite !fs_write_ok.
  change (zlen (encodeFixed32 _ ++ encodeFixed32 _) =? 8) with true. cbn [negb]. rewrite Z.eqb_refl. cbn [negb].
  rewrite lookup_insert_eq, insert_insert_eq, Hr. cbn [from_option id]. unfold wal_record. by rewrite <- !app_assoc.
Qed.

Lemma mf_sync_ok files m : (mf_sync (fs_of files) m).1 = fs_of files.
Proof. unfold mf_sync, mf_fd. by destruct (mf_open_ m). Qed.

Lemma number_range path n : number_of_path path = Some n -> 0 <= n < 2 ^ 64.
Proof.
  unfold number_of_path. destruct (_ && _); [|done]. destruct (forallb _ _); [|done]. intros [= <-].
  unfold dec_value. generalize (take (Z.to_nat (str_find_char (if str_find_last_char path (z2b 47) 0 =? npos
    then path else default [] (str_substr path (str_find_last_char path (z2b 47) 0 + 1) npos)) (z2b 46) 0))
    (if str_find_last_char path (z2b 47) 0 =? npos then path
     else default [] (str_substr path (str_find_last_char path (z2b 47) 0 + 1) npos))).
  intros ds. destruct ds as [|c ds _] using rev_ind; [done|]. rewrite foldl_app. simpl. apply u64_range.
Qed.

Definition add_number (v : Version) (path : bytes) : Z := default (v_next_file_number v) (number_of_path path).

Lemma v_add_durable files v m es level path :
  v_durable files v m es -> 0 <= v_next_file_number v < 2 ^ 64 ->
  0 <= level < 2 ^ 31 -> zlen path + 17 <= 2 ^ 24 ->
  exists files' v' m', v_addLevelFile (fs_of files) v level path = Some (fs_of files', v') /\
    v_durable files' v' m' (es ++ [EAdd level path (add_number v path)]) /\ mf_path m' = mf_path m /\
    (forall q, q <> mf_path m -> files' !! q = files !! q).
Proof.
  intros Hv Hn Hl Hp. unfold v_addLevelFile. replace (level <? 0) with false by lia.
  set (t := match number_of_path path with Some n => _ | None => _ end).
  assert (exists nx, t = (add_number v path, nx)) as [nx ->].
  { subst t. unfold add_number. destruct (number_of_path path); by eexists. }
  assert (0 <= add_number v path < 2 ^ 64) as Hno.
  { unfold add_number. destruct (number_of_path path) eqn:E; simpl; [by eapply number_range|done]. }
  rewrite (vd_manifest _ _ _ _ Hv). unfold mf_recordAddFile, mf_fd. replace (level <? 0) with false by lia.
  cbn [mf_open_ mf_path mf_levels]. rewrite (vd_open _ _ _ _ Hv).
  rewrite (mf_writeRecord_ok _ _ _ _ _ _ _ (vd_file _ _ _ _ Hv)). cbn [mbind option_bind].
  destruct (mf_sync _ _) as [fs2 s2] eqn:Es. apply (f_equal fst) in Es. rewrite mf_sync_ok in Es. simpl in Es. subst fs2.
  eexists _, _, (mkManifest (mf_path m) true (lv_add (Z.to_nat level) (new_meta path (add_number v path)) (mf_levels m))).
  split; [done|]. split; [|split; [done|intros q Hq; by rewrite lookup_insert_ne]].
  assert (edit_ok (EAdd level path (add_number v path))) as He by done.
  split; cbn [v_manifest mf_open_ mf_path mf_levels v_levels].
  - done.
  - done.
  - by rewrite lookup_insert_eq, mf_log_snoc.
  - apply Forall_app. split; [apply Hv|by apply Forall_singleton].
  - rewrite edits_apply_snoc. simpl. by rewrite (vd_disk _ _ _ _ Hv).
  - by rewrite (vd_memory _ _ _ _ Hv).
Qed.

Lemma filter_ext_elem {A} (P Q : A -> Prop) `{!forall x, Decision (P x)} `{!forall x, Decision (Q x)} (l : list A) :
  (forall x, x ∈ l -> P x <-> Q x) -> filter P l = filter Q l.
Proof.
  induction l as [|x l IH]; intros Hiff; [done|]. rewrite !filter_cons.
  rewrite IH by (intros y Hy; apply Hiff; by right). pose proof (Hiff x ltac:(left)).
  case_decide; case_decide; tauto.
Qed.

Definition removal_edits (level : Z) (paths : list bytes) (fl : list SSTableMeta) : list edit :=
  (fun f => EDel level (sm_path f) (sm_file_number f)) <$> filter (fun f => sm_path f ∈ paths) fl.

Lemma record_removals_ok level paths fl files m old :
  mf_open_ m = true -> files !! mf_path m = Some old -> 0 <= level ->
  exists files' m', record_removals (fs_of files) m level paths fl = Some (fs_of files', m') /\
    mf_path m' = mf_path m /\ mf_open_ m' = true /\
    files' !! mf_path m = Some (old ++ mf_log (removal_edits level paths fl)) /\
    lv_equiv (mf_levels m') (edits_apply (mf_levels m) (removal_edits level paths fl)) /\
    (forall q, q <> mf_path m -> files' !! q = files !! q).
Proof.
  intros Ho Hf Hl. revert files m old Ho Hf. induction fl as [|f fl IH]; intros files m old Ho Hf; cbn [record_removals].
  { exists files, m. change (mf_log (removal_edits level paths [])) with (@nil byte). rewrite app_nil_r. by repeat split. }
  unfold removal_edits in *. rewrite filter_cons. case_decide as Hin; [|by apply IH].
  unfold mf_recordRemoveFile, mf_fd. replace (level <? 0) with false by lia. cbn [mf_open_ mf_path mf_levels].
  rewrite Ho, (mf_writeRecord_ok _ _ _ _ _ _ _ Hf). cbn [mbind option_bind].
  set (m1 := mkManifest _ _ _). set (f1 := <[_ := _]> files).
  destruct (IH f1 m1 (old ++ wal_record (mf_payload kDel level (sm_path f) (sm_file_number f))))
    as (files' & m' & E & Hp & Ho' & Hf' & Heq & Hoth); [done|by subst f1 m1; rewrite lookup_insert_eq|].
  change (mf_path m1) with (mf_path m) in Hp, Hf', Hoth.
  exists files', m'. split; [done|]. split; [done|]. split; [done|]. split; [|split].
  - rewrite Hf', fmap_cons, <- app_assoc. done.
  - rewrite Heq, fmap_cons, edits_apply_cons. cbn [edit_apply]. apply edits_apply_proper. subst m1. cbn [mf_levels].
    intros i. rewrite lv_at_remove. destruct (Z.ltb_spec level (zlen (mf_levels m))); [by rewrite lv_at_remove|].
    case_decide as Hi; [|done]. subst i. unfold lv_at. rewrite lookup_ge_None_2; [done|]. unfold zlen in *. lia.
  - intros q Hq. rewrite Hoth by done. subst f1. by rewrite lookup_insert_ne.
Qed.

Lemma removals_at level paths fl l i :
  lv_at (edits_apply l (removal_edits level paths fl)) i =
  if decide (i = Z.to_nat level)
  then filter (fun f => ~ (sm_path f ∈ paths /\ sm_path f ∈ sm_path <$> fl)) (lv_at l i) else lv_at l i.
Proof.
  revert l. induction fl as [|f fl IH]; intros l; unfold removal_edits in *.
  { cbn. case_decide; [|done]. symmetry. apply filter_all. intros x _ [_ Hx]. by apply not_elem_of_nil in Hx. }
  rewrite filter_cons. destruct (decide (sm_path f ∈ paths)) as [Hin|Hin].
  - rewrite fmap_cons, edits_apply_cons. cbn [edit_apply].
    rewrite IH, lv_at_remove. case_decide as Hi; [|done]. unfold remove_path. rewrite list_filter_filter.
    apply list_filter_iff. intros x. rewrite fmap_cons, elem_of_cons.
    split; [intros [Ha Hb] [Hc [Hd|Hd]]; [by apply Hb|by apply Ha]|intros Ha; split; [tauto|]].
    intros Heq. apply Ha. rewrite Heq. tauto.
  - rewrite IH. case_decide; [|done]. apply list_filter_iff. intros x. rewrite fmap_cons, elem_of_cons.
    split; [intros Ha [Hb [Hc|Hc]]; [congruence|tauto]|tauto].
Qed.

Lemma v_remove_durable files v m es level paths :
  v_durable files v m es -> 0 <= level < 2 ^ 31 ->
  Forall (fun f => zlen (sm_path f) + 17 <= 2 ^ 24 /\ 0 <= sm_file_number f < 2 ^ 64) (v_getLevelMetas v level) ->
  exists files' v' m' es', v_removeLevelFiles (fs_of files) v level paths = Some (fs_of files', v') /\
    v_durable files' v' m' es' /\ mf_path m' = mf_path m /\
    (forall q, q <> mf_path m -> files' !! q = files !! q).
Proof.
  intros Hv Hl Hok. unfold v_removeLevelFiles. destruct (in_levels v level) eqn:Hin; cbn [negb].
  2:{ by exists files, v, m, es. }
  rewrite (vd_manifest _ _ _ _ Hv).
  destruct (record_removals_ok level paths (v_getLevelMetas v level) files m (mf_log es))
    as (files' & m' & -> & Hp & Ho & Hf & Heq & Hoth); [apply Hv..|lia|]. cbn [mbind option_bind].
  destruct (mf_sync _ _) as [fs2 s2] eqn:Es. apply (f_equal fst) in Es. rewrite mf_sync_ok in Es. simpl in Es. subst fs2.
  eexists files', _, m', (es ++ removal_edits level paths (v_getLevelMetas v level)).
  split; [done|]. split; [|split; [done|done]].
  assert (forall l, lv_equiv l (v_levels v) ->
    lv_equiv (edits_apply l (removal_edits level paths (v_getLevelMetas v level)))
      (<[Z.to_nat level := filter (fun f => sm_path f ∉ paths) (v_getLevelMetas v level)]> (v_levels v))) as Hgen.
  { intros l Hle i. rewrite removals_at. unfold in_levels in Hin. unfold zlen in Hin.
    case_decide as Hi.
    - subst i. unfold lv_at at 2. rewrite list_lookup_insert_eq by lia. cbn [from_option id].
      rewrite Hle. unfold v_getLevelMetas, in_levels, zlen. rewrite Hin. fold (lv_at (v_levels v) (Z.to_nat level)).
      apply filter_ext_elem. intros f Hf'. split; [|tauto]. intros Ha Hb. apply Ha. split; [done|].
      by apply list_elem_of_fmap_2.
    - unfold lv_at at 2. rewrite list_lookup_insert_ne by done. apply Hle. }
  split; cbn [v_manifest v_levels]; [done|done| | | |].
  - rewrite Hp, Hf. unfold mf_log. by rewrite fmap_app, wal_log_app.
  - apply Forall_app. split; [apply Hv|]. apply Forall_forall. intros e (f & -> & Hfe)%list_elem_of_fmap.
    apply list_elem_of_filter in Hfe as [_ Hfe]. rewrite Forall_forall in Hok. destruct (Hok f Hfe). by repeat split; lia.
  - unfold edits_apply. rewrite foldl_app. apply Hgen. apply Hv.
  - rewrite Heq. apply Hgen. apply Hv.
Qed.

Lemma v_getLevelMetas_at v level :
  v_getLevelMetas v level = if 0 <=? level then lv_at (v_levels v) (Z.to_nat level) else [].
Proof.
  unfold v_getLevelMetas, in_levels, lv_at. destruct (Z.leb_spec 0 level); [|done]. simpl.
  destruct (Z.ltb_spec level (zlen (v_levels v))); [done|].
  rewrite lookup_ge_None_2; [done|]. unfold zlen in *. lia.
Qed.

Definition meta_ok (f : SSTableMeta) : Prop := zlen (sm_path f) + 17 <= 2 ^ 24 /\ 0 <= sm_file_number f < 2 ^ 64.

Lemma edits_metas_ok es i : Forall edit_ok es -> Forall meta_ok (lv_at (edits_apply no_files es) i).
Proof.
  intros Hes. induction es as [|e es IH] using rev_ind.
  - unfold lv_at, no_files. destruct (edits_apply (replicate 8 []) [] !! i) eqn:E; [|constructor].
    apply (lookup_replicate 8) in E as [-> _]. constructor.
  - apply Forall_app in Hes as [Hes He]. rewrite Forall_singleton in He. rewrite edits_apply_snoc.
    destruct e as [l p n|l p n]; destruct He as (Hl & Hp & Hn); simpl.
    + rewrite lv_at_add. case_decide; [|by apply IH]. apply Forall_app. split; [by apply IH|]. by apply Forall_singleton.
    + rewrite lv_at_remove. case_decide; [|by apply IH]. by apply Forall_filter, IH.
Qed.

Inductive vop := VAdd (level : Z) (path : bytes) | VRemove (level : Z) (paths : list bytes).

Definition vop_ok (o : vop) : Prop :=
  match o with
  | VAdd level path => 0 <= level < 2 ^ 31 /\ zlen path + 17 <= 2 ^ 24
  | VRemove level _ => 0 <= level < 2 ^ 31
  end.

Definition v_step (fs : FS) (v : Version) (o : vop) : option (FS * Version) :=
  match o with
  | VAdd level path => v_addLevelFile fs v level path
  | VRemove level paths => v_removeLevelFiles fs v level paths
  end.

Fixpoint v_run (fs : FS) (v : Version) (os : list vop) : option (FS * Version) :=
  match os with
  | [] => Some (fs, v)
  | o :: os => '(fs, v) ← v_step fs v o; v_run fs v os
  end.

(** The first part of recovery: open the manifest, restore the version from it. *)
Definition v_boot (fs : FS) (db_path : bytes) : option (FS * Version * Status) :=
  '(fs, m, s) ← mf_open fs (Manifest_new db_path);
  if ok s then Some (fs, v_restoreFrom (v_setManifest Version_new m) (mf_levels m), SOk)
  else Some (fs, Version_new, s).

Lemma v_next_range fs v o fs' v' :
  0 <= v_next_file_number v < 2 ^ 64 -> v_step fs v o = Some (fs', v') -> 0 <= v_next_file_number v' < 2 ^ 64.
Proof.
  intros Hn. pose proof (u64_range (v_next_file_number v + 1)).
  destruct o as [level path|level paths]; simpl.
  - unfold v_addLevelFile. destruct (level <? 0); [by intros [= <- <-]|].
    set (t := match number_of_path path with Some n => _ | None => _ end).
    assert (0 <= t.2 < 2 ^ 64) as Ht.
    { subst t. destruct (number_of_path path) as [n|]; simpl; [|done].
      pose proof (u64_range (n + 1)). unfold raise_next. destruct (_ >? _); lia. }
    destruct t as [no nx]. destruct (v_manifest v) as [m|]; [|by intros [= <- <-]].
    destruct (mf_recordAddFile fs m level path no) as [[[fs1 m1] s1]|]; [|done]. simpl.
    destruct (mf_sync fs1 m1) as [fs2 s2]. by intros [= <- <-].
  - unfold v_removeLevelFiles. destruct (negb _); [by intros [= <- <-]|].
    destruct (v_manifest v) as [m|]; [|by intros [= <- <-]].
    destruct (record_removals fs m level paths _) as [[fs1 m1]|]; [|done]. simpl.
    destruct (mf_sync fs1 m1) as [fs2 s2]. by intros [= <- <-].
Qed.

Lemma v_run_durable os files v m es :
  v_durable files v m es -> 0 <= v_next_file_number v < 2 ^ 64 -> Forall vop_ok os ->
  exists files' v' m' es', v_run (fs_of files) v os = Some (fs_of files', v') /\ v_durable files' v' m' es' /\
    mf_path m' = mf_path m.
Proof.
  intros Hv Hn Hos. revert files v m es Hv Hn. induction Hos as [|o os Ho _ IH]; intros files v m es Hv Hn.
  { by exists files, v, m, es. }
  cbn [v_run].
  assert (exists f1 v1 m1 es1, v_step (fs_of files) v o = Some (fs_of f1, v1) /\ v_durable f1 v1 m1 es1 /\ mf_path m1 = mf_path m)
    as (f1 & v1 & m1 & es1 & E1 & Hv1 & Hp1).
  { destruct o as [level path|level paths]; simpl in *.
    - destruct (v_add_durable files v m es level path) as (f1 & v1 & m1 & E & Hd & Hp & _); [done|done|tauto|tauto|].
      do 4 eexists. by eauto.
    - destruct (v_remove_durable files v m es level paths) as (f1 & v1 & m1 & es1 & E & Hd & Hp & _); [done|done| |by eauto 10].
      rewrite v_getLevelMetas_at. destruct (0 <=? level); [|constructor].
      rewrite <- (vd_disk _ _ _ _ Hv). apply edits_metas_ok, Hv. }
  rewrite E1. cbn [mbind option_bind].
  destruct (IH f1 v1 m1 es1 Hv1) as (f2 & v2 & m2 & es2 & E2 & Hv2 & Hp2); [by eapply v_next_range|].
  exists f2, v2, m2, es2. split; [done|]. split; [done|congruence].
Qed.

Lemma restoreFrom_equiv v lv : lv_equiv (v_levels (v_restoreFrom v lv)) lv.
Proof.
  unfold v_restoreFrom. cbn [v_levels]. destruct (Z.ltb_spec (zlen lv) 7); [|done].
  apply resize_equiv. unfold zlen in *. lia.
Qed.

(** C12: the table roster survives a restart: starting from an empty directory, after any
    sequence of file additions and removals (each of them recorded in the manifest), a new
    process that opens the manifest restores a version with exactly the same files at every
    level, in the same order. *)
Theorem version_survives_restart (db_path : bytes) (os : list vop) :
  Forall vop_ok os ->
  exists fs0 v0 files v files' m,
    v_boot (fs_of ∅) db_path = Some (fs0, v0, SOk) /\ v_run fs0 v0 os = Some (fs_of files, v) /\
    mf_open (fs_of files) (Manifest_new db_path) = Some (fs_of files', m, SOk) /\
    (forall level, v_getLevelFiles (v_restoreFrom (v_setManifest Version_new m) (mf_levels m)) level =
                   v_getLevelFiles v level).
Proof.
  intros Hos. set (path := db_path ++ bs "/MANIFEST").
  assert (v_boot (fs_of ∅) db_path = Some (fs_of (<[path := []]> ∅),
    mkVersion no_files 1 (Some (mkManifest path true no_files)), SOk)) as Eb.
  { unfold v_boot, mf_open, Manifest_new. cbn [mf_open_].
    unfold mf_recoverActivePath, fs_exists, fs_read. cbn [fs_files fs_of fs_script].
    rewrite !lookup_empty, bool_decide_eq_false_2 by by intros [? ?]. rewrite fs_open_ok. cbn [negb mf_path].
    cbn [fs_files fs_of fs_script]. rewrite lookup_insert_eq, lookup_empty. done. }
  destruct (v_run_durable os (<[path := []]> ∅) (mkVersion no_files 1 (Some (mkManifest path true no_files)))
             (mkManifest path true no_files) []) as (files & v & m & es & Er & Hv & Hp); [|simpl; lia|done|].
  { split; simpl; try done. by rewrite lookup_insert_eq. }
  assert (mf_state files path (v_levels v)) as Hst.
  { left. exists (mf_log es). simpl in Hp. rewrite <- Hp. split; [apply Hv|]. exists es. split; [|apply Hv].
    exists []. rewrite app_nil_r. split; [done|]. split; [apply mf_torn_nil|apply Hv]. }
  destruct (mf_open_state files path [] (v_levels v) Hst) as (files' & lv' & Ho & Heq & _).
  do 6 eexists. split; [exact Eb|]. split; [exact Er|]. split; [exact Ho|].
  intros level. unfold v_getLevelFiles. rewrite !v_getLevelMetas_at. destruct (0 <=? level); [|done].
  by rewrite restoreFrom_equiv, Heq.
Qed.

Lemma version_survives_restart_witness :
  let os := [VAdd 0 (bs "d/level-0/1.sst"); VAdd 0 (bs "d/level-0/2.sst"); VAdd 1 (bs "d/level-1/3.sst");
             VRemove 0 [bs "d/level-0/1.sst"; bs "d/level-0/2.sst"]] in
  exists fs0 v0 files v files' m,
    v_boot (fs_of ∅) (bs "d") = Some (fs0, v0, SOk) /\ v_run fs0 v0 os = Some (fs_of files, v) /\
    mf_open (fs_of files) (Manifest_new (bs "d")) = Some (fs_of files', m, SOk) /\
    (forall level, v_getLevelFiles (v_restoreFrom (v_setManifest Version_new m) (mf_levels m)) level =
                   v_getLevelFiles v level).
Proof.
  apply (version_survives_restart (bs "d")). repeat constructor; vm_compute; congruence.
Defined.

(** ** Fresh file numbers *)

Definition numbers_below (v : Version) : Prop :=
  0 <= v_next_file_number v /\ forall f, f ∈ concat (v_levels v) -> sm_file_number f < v_next_file_number v.

Lemma max_number_spec lv f : f ∈ concat lv -> sm_file_number f <= max_number lv.
Proof.
  unfold max_number. intros Hf. induction (concat lv) as [|g l IH] using rev_ind; [by apply not_elem_of_nil in Hf|].
  rewrite foldl_app. simpl. apply elem_of_app in Hf as [Hf|Hf%list_elem_of_singleton].
  - specialize (IH Hf). destruct (Z.gtb_spec (sm_file_number g) (foldl (fun a m => if sm_file_number m >? a then sm_file_number m else a) 0 l)); lia.
  - subst g. destruct (Z.gtb_spec (sm_file_number f) (foldl (fun a m => if sm_file_number m >? a then sm_file_number m else a) 0 l)); lia.
Qed.

Lemma elem_of_levels lv f : f ∈ concat lv <-> exists i, f ∈ lv_at lv i.
Proof.
  unfold lv_at. rewrite list_elem_of_In, in_concat. split.
  - intros (v & Hv & Hf). apply list_elem_of_In, list_elem_of_lookup in Hv as [i Hi]. exists i. rewrite Hi.
    by apply list_elem_of_In.
  - intros [i Hf]. destruct (lv !! i) as [v|] eqn:E; simpl in Hf; [|by apply not_elem_of_nil in Hf].
    exists v. split; [apply list_elem_of_In, list_elem_of_lookup; by exists i|by apply list_elem_of_In].
Qed.

(** No wrap-around of the 64-bit allocator in this step. *)
Definition no_wrap (v : Version) (o : vop) : Prop :=
  v_next_file_number v + 1 < 2 ^ 64 /\
  match o with VAdd _ path => forall n, number_of_path path = Some n -> n + 1 < 2 ^ 64 | _ => True end.

Lemma v_step_below fs v o fs' v' :
  numbers_below v -> no_wrap v o -> v_step fs v o = Some (fs', v') ->
  numbers_below v' /\ v_next_file_number v <= v_next_file_number v'.
Proof.
  intros [Hn Hb] [Hw Hp]. destruct o as [level path|level paths]; simpl in *.
  - unfold v_addLevelFile. destruct (level <? 0); [by intros [= <- <-]|].
    set (t := match number_of_path path with Some n => _ | None => _ end).
    assert (v_next_file_number v <= t.2 /\ t.1 < t.2) as [Ht1 Ht2].
    { subst t. destruct (number_of_path path) as [n|] eqn:E; simpl.
      - specialize (Hp n eq_refl). apply number_range in E. rewrite u64_small by lia. unfold raise_next.
        destruct (Z.gtb_spec (n + 1) (v_next_file_number v)); lia.
      - rewrite u64_small by lia. lia. }
    destruct t as [no nx]. simpl in Ht1, Ht2. intros E.
    assert (v_next_file_number v' = nx /\ v_levels v' = lv_add (Z.to_nat level) (new_meta path no) (v_levels v)) as [E1 E2].
    { revert E. destruct (v_manifest v) as [m|]; [|by intros [= <- <-]].
      destruct (mf_recordAddFile fs m level path no) as [[[fs1 m1] s1]|]; [|done]. simpl.
      destruct (mf_sync fs1 m1) as [fs2 s2]. by intros [= <- <-]. }
    unfold numbers_below. rewrite E1, E2. split; [|done]. split; [lia|].
    intros f [i Hf]%elem_of_levels. rewrite lv_at_add in Hf.
    assert (f ∈ lv_at (v_levels v) i \/ f = new_meta path no) as [Hin| ->].
    { case_decide; [|by left]. by apply elem_of_app in Hf as [?|?%list_elem_of_singleton]; auto. }
    + assert (f ∈ concat (v_levels v)) as Hc by (apply elem_of_levels; by exists i). specialize (Hb f Hc). lia.
    + simpl. lia.
  - unfold v_removeLevelFiles. destruct (in_levels v level) eqn:Hin; cbn [negb]; [|by intros [= <- <-]].
    intros E. assert (v_next_file_number v' = v_next_file_number v /\
      v_levels v' = <[Z.to_nat level := filter (fun m => sm_path m ∉ paths) (v_getLevelMetas v level)]> (v_levels v)) as [E1 E2].
    { revert E. destruct (v_manifest v) as [m|]; [|by intros [= <- <-]].
      destruct (record_removals fs m level paths _) as [[fs1 m1]|]; [|done]. simpl.
      destruct (mf_sync fs1 m1) as [fs2 s2]. by intros [= <- <-]. }
    unfold numbers_below. rewrite E1, E2. split; [|lia]. split; [lia|].
    intros f [i Hf]%elem_of_levels. apply Hb, elem_of_levels. exists i. unfold lv_at in *.
    destruct (decide (i = Z.to_nat level)) as [->|Hne]; [|by rewrite list_lookup_insert_ne in Hf].
    unfold in_levels, zlen in Hin. rewrite list_lookup_insert_eq in Hf by lia. simpl in Hf.
    apply list_elem_of_filter in Hf as [_ Hf]. unfold v_getLevelMetas, in_levels, zlen in Hf. by rewrite Hin in Hf.
Qed.

(** File numbers are never reused: after restoring any roster, and after any
    addition or removal of files, the allocator is above the number of every live file and
    never goes back, so the number [nextFileNumber] hands out names no live file (as long as
    the 64-bit counter does not wrap around). *)
Theorem version_fresh_numbers :
  (forall v lv, 0 <= v_next_file_number v -> max_number lv + 1 < 2 ^ 64 ->
     numbers_below (v_restoreFrom v lv)) /\
  (forall fs v o fs' v', numbers_below v -> no_wrap v o -> v_step fs v o = Some (fs', v') ->
     numbers_below v' /\ v_next_file_number v <= v_next_file_number v') /\
  (forall v, numbers_below v -> v_next_file_number v + 1 < 2 ^ 64 ->
     let '(n, v') := v_nextFileNumber v in
     (forall f, f ∈ concat (v_levels v) -> sm_file_number f <> n) /\
     numbers_below v' /\ n < v_next_file_number v').
Proof.
  split; [|split].
  - intros v lv Hn Hm. unfold numbers_below, v_restoreFrom. cbn [v_next_file_number v_levels].
    set (lv' := if zlen lv <? 7 then _ else lv).
    assert (lv_equiv lv' lv) as Heq by apply (restoreFrom_equiv v lv).
    assert (max_number lv' + 1 < 2 ^ 64) as Hm'.
    { enough (max_number lv' = max_number lv) by lia. unfold max_number. f_equal. subst lv'.
      destruct (Z.ltb_spec (zlen lv) 7); [|done]. unfold resize_levels, zlen in *. rewrite take_ge by lia.
      rewrite concat_app. replace (concat (replicate _ [])) with (@nil SSTableMeta); [by rewrite app_nil_r|].
      generalize (7 - length lv)%nat. intros k. by induction k. }
    split; [destruct (Z.geb_spec (max_number lv') (v_next_file_number v)); [apply u64_range|done]|].
    intros f Hf%max_number_spec. destruct (Z.geb_spec (max_number lv') (v_next_file_number v)); [|lia].
    rewrite u64_small; [lia|]. lia.
  - apply v_step_below.
  - intros v [Hn Hb] Hw. unfold v_nextFileNumber, numbers_below. cbn [v_levels v_next_file_number].
    rewrite u64_small by lia. split; [intros f Hf; specialize (Hb f Hf); lia|]. split; [|lia].
    split; [lia|]. intros f Hf. specialize (Hb f Hf). lia.
Qed.
