(* ===== verification/Merging.v ===== *)
(** * The merging iterator

    [merging_iterator.h/.cpp]: a heap merge of child iterators, written and proved against
    the iterator contract of [Versions].  The heap is the list of its items in insertion
    order; [top] is a least item by raw byte comparison of the keys, the first one among
    equals (the C++ heap leaves that choice open; [next] pops all equal items, so only which
    of several equal keys' values is shown depends on it).  No child is null: the only
    caller passes none.  The loops take their fuel as an argument; the theorems ask for
    more than the number of remaining entries. *)

From Stdlib Require Import ZArith Lia.
From stdpp Require Import base numbers strings list.
From S2P Require Import Prelude Coding Slice InternalKey SkipHeap SkipList Versions MemTable.
Local Open Scope Z_scope.

Section Merging.
Context {I : Type} `{IterOps I}.

Abbreviation HeapItem := (nat * bytes)%type.

Record MergingIterator := mkMI {
  mi_children : list I;
  mi_heap : list HeapItem;
  mi_current : option nat;   (* None is static_cast<size_t>(-1) *)
  mi_status_ : Status;
}.

Definition first_error (cs : list I) : Status :=
  default SOk (head (filter (fun s => ok s = false) (it_status <$> cs))).

Definition MergingIterator_new (children : list I) : MergingIterator :=
  mkMI children [] None (first_error children).

Definition pushChild (cs : list I) (heap : list HeapItem) (i : nat) : list HeapItem :=
  match cs !! i with
  | Some c => if it_valid c then heap ++ [(i, it_key c)] else heap
  | None => heap
  end.

(** [heap_.top()]: no item has a smaller key. *)
Fixpoint heap_top (heap : list HeapItem) : option HeapItem :=
  match heap with
  | [] => None
  | x :: heap =>
      match heap_top heap with
      | None => Some x
      | Some y => if is_gt (lex x.2 y.2) then Some y else Some x
      end
  end.

(** [heap_.pop()]: one occurrence of the top leaves. *)
Fixpoint heap_remove (x : HeapItem) (heap : list HeapItem) : list HeapItem :=
  match heap with
  | [] => []
  | y :: heap => if decide (x = y) then heap else y :: heap_remove x heap
  end.

Definition rebuildHeap (m : MergingIterator) : MergingIterator :=
  let heap := foldl (pushChild (mi_children m)) [] (seq 0 (length (mi_children m))) in
  mkMI (mi_children m) heap (fst <$> heap_top heap) (mi_status_ m).

Definition mi_child (m : MergingIterator) : option I := i ← mi_current m; mi_children m !! i.

Definition mi_valid (m : MergingIterator) : bool :=
  ok (mi_status_ m) && match mi_child m with Some c => it_valid c | None => false end.

Definition mi_seekToFirst (m : MergingIterator) : MergingIterator :=
  rebuildHeap (mkMI (it_seekToFirst <$> mi_children m) (mi_heap m) (mi_current m) (mi_status_ m)).

Definition mi_seek (target : bytes) (m : MergingIterator) : MergingIterator :=
  rebuildHeap (mkMI (it_seek target <$> mi_children m) (mi_heap m) (mi_current m) (mi_status_ m)).

(** [while (!heap_.empty() && heap_.top().key == cur) { pop; children_[i]->next(); push; }] *)
Fixpoint next_loop (fuel : nat) (cur : bytes) (cs : list I) (heap : list HeapItem) : list I * list HeapItem :=
  match fuel with
  | O => (cs, heap)
  | S fuel =>
      match heap_top heap with
      | None => (cs, heap)
      | Some x =>
          if decide (x.2 = cur) then
            let heap := heap_remove x heap in
            let cs := alter it_next x.1 cs in
            next_loop fuel cur cs (pushChild cs heap x.1)
          else (cs, heap)
      end
  end.

Definition mi_key (m : MergingIterator) : bytes :=
  if mi_valid m then match mi_child m with Some c => it_key c | None => [] end else [].

Definition mi_value (m : MergingIterator) : bytes :=
  if mi_valid m then match mi_child m with Some c => it_value c | None => [] end else [].

Definition mi_next (fuel : nat) (m : MergingIterator) : MergingIterator :=
  if mi_valid m then
    let '(cs, heap) := next_loop fuel (mi_key m) (mi_children m) (mi_heap m) in
    mkMI cs heap (fst <$> heap_top heap) (mi_status_ m)
  else m.

Definition mi_status (m : MergingIterator) : Status :=
  if ok (mi_status_ m) then first_error (mi_children m) else mi_status_ m.

(** What a client's loop [for (; it.valid(); it.next())] sees. *)
Fixpoint mi_collect (n fuel : nat) (m : MergingIterator) : list entry :=
  match n with
  | O => []
  | S n => if mi_valid m then (mi_key m, mi_value m) :: mi_collect n fuel (mi_next fuel m) else []
  end.

(** ** The heap *)

Lemma heap_top_elem heap x : heap_top heap = Some x -> x ∈ heap.
Proof.
  revert x. induction heap as [|y heap IH]; intros x; simpl; [done|].
  destruct (heap_top heap) as [z|]; [|intros [= ->]; left].
  destruct (is_gt _); intros [= <-]; [right; by apply IH|left].
Qed.

(** No item of the heap has a smaller key than its top. *)
Lemma heap_top_least heap x y : heap_top heap = Some x -> y ∈ heap -> lex y.2 x.2 <> Lt.
Proof.
  revert x y. induction heap as [|z heap IH]; intros x y; cbn [heap_top]; [done|].
  destruct (heap_top heap) as [w|] eqn:Et.
  - destruct (lex z.2 w.2) eqn:Ec; cbn [is_gt]; intros [= <-] [->|Hy]%elem_of_cons; rewrite ?lex_refl; try done;
      try by apply IH. 1: apply lex_eq_iff in Ec as ->; by apply IH.
    + intros Hl. apply (IH w y eq_refl Hy). by eapply lex_trans.
    + by rewrite Ec.
  - destruct heap; [|simpl in Et; by destruct (heap_top _); [destruct (is_gt _)|]].
    intros [= <-] ->%list_elem_of_singleton. by rewrite lex_refl.
Qed.

Lemma heap_top_None heap : heap_top heap = None <-> heap = [].
Proof.
  destruct heap as [|y heap]; simpl; [done|]. split; [|done].
  destruct (heap_top heap); [destruct (is_gt _)|]; done.
Qed.

Lemma heap_remove_perm x heap : x ∈ heap -> heap ≡ₚ x :: heap_remove x heap.
Proof.
  induction heap as [|y heap IH]; [by intros ?%not_elem_of_nil|]. simpl. intros Hx.
  destruct (decide (x = y)) as [->|Hne]; [done|].
  apply elem_of_cons in Hx as [->|Hx]; [done|]. rewrite (IH Hx) at 1. apply Permutation_swap.
Qed.

(** The items that belong to the children: one per child that is not exhausted. *)
Definition items (rests : list (list entry)) : list HeapItem :=
  concat (imap (fun i r => match r with [] => [] | p :: _ => [(i, p.1)] end) rests).

Lemma elem_of_items rests i k :
  (i, k) ∈ items rests <-> exists p r, rests !! i = Some (p :: r) /\ p.1 = k.
Proof.
  unfold items. rewrite list_elem_of_In, in_concat. split.
  - intros (v & Hv & Hx). apply list_elem_of_In, list_elem_of_lookup in Hv as [j Hj].
    rewrite list_lookup_imap in Hj. destruct (rests !! j) as [[|p r]|] eqn:E; simpl in Hj; simplify_eq; [done|].
    destruct Hx as [[= <- <-]|[]]. eauto.
  - intros (p & r & Hi & <-). exists [(i, p.1)]. split; [|by left].
    apply list_elem_of_In, list_elem_of_lookup. exists i. rewrite list_lookup_imap, Hi. done.
Qed.

Lemma items_split rests i v :
  (i < length rests)%nat ->
  exists l1 l2, items rests = l1 ++ (match default [] (rests !! i) with [] => [] | p :: _ => [(i, p.1)] end) ++ l2 /\
                items (<[i := v]> rests) = l1 ++ (match v with [] => [] | p :: _ => [(i, p.1)] end) ++ l2.
Proof.
  intros Hi. unfold items. set (f := fun (i : nat) (r : list entry) => match r with [] => [] | p :: _ => [(i, p.1)] end).
  destruct (lookup_lt_is_Some_2 rests i Hi) as [w Hw].
  exists (concat (imap f (take i rests))), (concat (imap (fun j => f (i + S j)%nat) (drop (S i) rests))).
  rewrite Hw. cbn [from_option id]. split.
  - rewrite <- (take_drop_middle rests i w Hw) at 1. rewrite imap_app, concat_app. f_equal.
    rewrite imap_cons, length_take_le by lia. cbn [concat compose].
    by replace (i + 0)%nat with i by lia.
  - rewrite insert_take_drop by done. rewrite imap_app, concat_app. f_equal.
    rewrite imap_cons, length_take_le by lia. cbn [concat compose].
    by replace (i + 0)%nat with i by lia.
Qed.

(** ** The merge against the contract of its children *)

Context (rep : I -> list entry -> list entry -> Prop) `{!IterSpec I rep}.

Definition child_at (c : I) (r : list entry) : Prop := exists all, rep c all r.

Record mi_rep (cs : list I) (heap : list HeapItem) (rests : list (list entry)) : Prop := {
  mr_children : Forall2 child_at cs rests;
  mr_heap : heap ≡ₚ items rests;
}.

Definition remaining (rests : list (list entry)) : nat := length (concat rests).

Lemma concat_insert_perm (rests : list (list entry)) i p r :
  rests !! i = Some (p :: r) -> concat rests ≡ₚ p :: concat (<[i := r]> rests).
Proof.
  intros Hi. pose proof (lookup_lt_Some _ _ _ Hi) as Hlt.
  rewrite <- (take_drop_middle rests i _ Hi) at 1. rewrite insert_take_drop by done.
  rewrite !concat_app. cbn [concat]. cbn [app]. by rewrite <- Permutation_middle.
Qed.

(** The children advance: what is left of each is a tail of what was left. *)
Definition advanced (rests' rests : list (list entry)) : Prop := Forall2 suffix rests' rests.

Lemma advanced_refl rests : advanced rests rests.
Proof. unfold advanced. reflexivity. Qed.

Lemma advanced_insert rests i p r : rests !! i = Some (p :: r) -> advanced (<[i := r]> rests) rests.
Proof.
  intros Hi. unfold advanced. rewrite <- (list_insert_id rests i (p :: r) Hi) at 2.
  apply Forall2_insert; [apply advanced_refl|by exists [p]].
Qed.

Lemma advanced_trans r1 r2 r3 : advanced r1 r2 -> advanced r2 r3 -> advanced r1 r3.
Proof. unfold advanced. intros ? ?. by etransitivity. Qed.

(** One iteration: the top child moves on and its new head enters the heap. *)
Lemma advance_rep cs heap rests x p r :
  mi_rep cs heap rests -> x ∈ heap -> rests !! x.1 = Some (p :: r) -> p.1 = x.2 ->
  let cs' := alter it_next x.1 cs in
  mi_rep cs' (pushChild cs' (heap_remove x heap) x.1) (<[x.1 := r]> rests).
Proof.
  intros [Hc Hh] Hx Hi Hk cs'. destruct x as [i k]. cbn [fst snd] in *. subst k.
  pose proof (lookup_lt_Some _ _ _ Hi) as Hlt.
  destruct (Forall2_lookup_r _ _ _ _ _ Hc Hi) as (c & Hci & all & Hrep).
  pose proof (it_next_spec c all p r Hrep) as Hnext.
  assert (cs' !! i = Some (it_next c)) as Hci' by (subst cs'; by rewrite list_lookup_alter_eq, Hci).
  split.
  - apply Forall2_same_length_lookup. split.
    { subst cs'. rewrite length_alter, length_insert. by eapply Forall2_length. }
    intros j c' r'. destruct (decide (i = j)) as [<-|Hne].
    + rewrite Hci', list_lookup_insert_eq by done. intros [= <-] [= <-]. by exists all.
    + subst cs'. rewrite list_lookup_alter_ne, list_lookup_insert_ne by done. by apply Forall2_lookup_lr.
  - destruct (items_split rests i r Hlt) as (l1 & l2 & E1 & E2). rewrite Hi in E1. cbn [from_option id] in E1.
    assert (heap_remove (i, p.1) heap ≡ₚ l1 ++ l2) as Hrem.
    { apply (Permutation_cons_inv (a := (i, p.1))). rewrite <- heap_remove_perm by done.
      rewrite Hh, E1. simpl. by rewrite Permutation_middle. }
    unfold pushChild. rewrite Hci', (it_valid_spec _ all r Hnext), E2.
    destruct r as [|q r']; simpl; [by rewrite Hrem|].
    destruct (it_current _ _ _ _ Hnext) as [-> _]. rewrite Hrem. rewrite Permutation_app_comm. simpl.
    by rewrite Permutation_middle.
Qed.

Lemma next_loop_spec fuel cur cs heap rests :
  mi_rep cs heap rests -> (remaining rests < fuel)%nat ->
  exists rests' gone, let '(cs', heap') := next_loop fuel cur cs heap in
    mi_rep cs' heap' rests' /\ concat rests ≡ₚ gone ++ concat rests' /\ advanced rests' rests /\
    Forall (fun p => p.1 = cur) gone /\
    (forall x p r, heap_top heap = Some x -> x.2 = cur -> rests !! x.1 = Some (p :: r) -> p ∈ gone) /\
    (forall x, heap_top heap' = Some x -> x.2 <> cur).
Proof.
  revert cs heap rests. induction fuel as [|fuel IH]; intros cs heap rests Hr Hf; [lia|]. cbn [next_loop].
  destruct (heap_top heap) as [x|] eqn:Et.
  2:{ exists rests, []. split; [done|]. split; [done|]. split; [apply advanced_refl|]. split; [constructor|]. split; [done|]. by rewrite Et. }
  destruct (decide (x.2 = cur)) as [Hx|Hx].
  2:{ exists rests, []. split; [done|]. split; [done|]. split; [apply advanced_refl|]. split; [constructor|].
      split; [by intros y ? ? [= <-] ?|]. rewrite Et. by intros y [= <-]. }
  pose proof (heap_top_elem _ _ Et) as Hin. destruct x as [i k]. cbn [fst snd] in *. subst k.
  assert ((i, cur) ∈ items rests) as (p & r & Hi & Hp)%elem_of_items by (by rewrite <- (mr_heap _ _ _ Hr)).
  pose proof (advance_rep cs heap rests (i, cur) p r Hr Hin Hi Hp) as Hr'. cbn [fst] in Hr'.
  pose proof (concat_insert_perm rests i p r Hi) as Hperm.
  destruct (IH _ _ _ Hr') as (rests' & gone & Hres).
  { unfold remaining in *. rewrite Hperm in Hf. simpl in Hf. lia. }
  exists rests', (p :: gone). destruct (next_loop fuel cur _ _) as [cs' heap'].
  destruct Hres as (Ha & Hb & Hadv & Hc & _ & He). split; [done|]. split; [rewrite Hperm, Hb; done|].
  split; [eapply advanced_trans; [exact Hadv|by eapply advanced_insert]|]. split; [by constructor|].
  split; [|done]. intros x q r' [= <-] _ Hq. cbn [fst] in Hq. simplify_eq. left.
Qed.

(** ** What a full scan produces *)

Record mi_good (m : MergingIterator) (rests : list (list entry)) : Prop := {
  mg_rep : mi_rep (mi_children m) (mi_heap m) rests;
  mg_current : mi_current m = fst <$> heap_top (mi_heap m);
  mg_status : ok (mi_status_ m) = true;
}.

Lemma mi_good_current m rests :
  mi_good m rests ->
  match heap_top (mi_heap m) with
  | Some x => exists p r, rests !! x.1 = Some (p :: r) /\ x.2 = p.1 /\
              mi_valid m = true /\ mi_key m = p.1 /\ mi_value m = p.2
  | None => mi_valid m = false /\ concat rests = []
  end.
Proof.
  intros [Hr Hc Hs]. unfold mi_key, mi_value, mi_valid, mi_child. rewrite Hc, Hs.
  destruct (heap_top (mi_heap m)) as [[i k]|] eqn:Et; simpl.
  - apply heap_top_elem in Et. rewrite (mr_heap _ _ _ Hr) in Et. apply elem_of_items in Et as (p & r & Hi & <-).
    destruct (Forall2_lookup_r _ _ _ _ _ (mr_children _ _ _ Hr) Hi) as (c & Hci & all & Hrep). rewrite Hci.
    rewrite (it_valid_spec _ _ _ Hrep). destruct (it_current _ _ _ _ Hrep) as [-> ->]. simpl. eauto 10.
  - split; [done|]. apply heap_top_None in Et. pose proof (mr_heap _ _ _ Hr) as Hh. rewrite Et in Hh.
    apply Permutation_nil in Hh. destruct (concat rests) as [|p l] eqn:E; [done|].
    assert (p ∈ concat rests) as Hp by (rewrite E; left).
    apply list_elem_of_In, in_concat in Hp as (v & Hv & Hpv). apply list_elem_of_In, list_elem_of_lookup in Hv as [i Hi].
    destruct v as [|q r]; [done|]. assert ((i, q.1) ∈ items rests) as Hin by (apply elem_of_items; eauto).
    rewrite Hh in Hin. by apply not_elem_of_nil in Hin.
Qed.

(** The step of a scan: the entries consumed all have the key shown, the one shown is among
    them, and none of the least heads left has that key. *)
Lemma mi_next_good fuel m rests p r x :
  mi_good m rests -> (remaining rests < fuel)%nat ->
  heap_top (mi_heap m) = Some x -> rests !! x.1 = Some (p :: r) -> x.2 = p.1 -> mi_valid m = true -> mi_key m = p.1 ->
  exists rests' gone, mi_good (mi_next fuel m) rests' /\ concat rests ≡ₚ gone ++ concat rests' /\
    advanced rests' rests /\ Forall (fun q => q.1 = p.1) gone /\ p ∈ gone /\
    (forall y, heap_top (mi_heap (mi_next fuel m)) = Some y -> y.2 <> p.1).
Proof.
  intros Hg Hf Ht Hi Hx Hv Hk. unfold mi_next. rewrite Hv, Hk.
  destruct (next_loop_spec fuel p.1 _ _ _ (mg_rep _ _ Hg) Hf) as (rests' & gone & Hres).
  exists rests', gone. destruct (next_loop fuel p.1 _ _) as [cs' heap']. destruct Hres as (Ha & Hb & Hadv & Hc & Hd & He).
  split; [split; [done|done|apply Hg]|]. split; [done|]. split; [done|]. split; [done|]. split; [by eapply Hd|exact He].
Qed.

(** Children whose keys are in increasing byte order, and no entry below a bound. *)
Abbreviation increasing := (fun l : list entry => sorted_by lex l.*1).

Lemma increasing_suffix l1 l2 : suffix l1 l2 -> increasing l2 -> increasing l1.
Proof. intros [k ->]. rewrite fmap_app. by intros (_ & ? & _)%sorted_by_app. Qed.

Lemma advanced_increasing rests' rests : advanced rests' rests -> Forall increasing rests -> Forall increasing rests'.
Proof.
  intros Ha. induction Ha as [|x y l k Hs _ IH]; [done|]. intros [Hx Hl]%Forall_cons.
  constructor; [by eapply increasing_suffix|by apply IH].
Qed.

(** In increasing children every entry left is at least the top of the heap. *)
Lemma top_least m rests x p :
  mi_good m rests -> Forall increasing rests -> heap_top (mi_heap m) = Some x -> p ∈ concat rests -> lex p.1 x.2 <> Lt.
Proof.
  intros Hg Hs Ht Hp. apply list_elem_of_In, in_concat in Hp as (l & Hl & Hp). apply list_elem_of_In in Hl, Hp.
  rewrite Forall_forall in Hs. specialize (Hs l Hl). apply list_elem_of_lookup in Hl as [i Hi].
  destruct l as [|q l]; [by apply not_elem_of_nil in Hp|].
  assert (lex q.1 x.2 <> Lt) as Hq.
  { apply (heap_top_least (mi_heap m) x (i, q.1) Ht). rewrite (mr_heap _ _ _ (mg_rep _ _ Hg)). apply elem_of_items. eauto. }
  apply elem_of_cons in Hp as [->|Hp]; [done|]. intros Hlt. apply Hq.
  eapply lex_trans; [|exact Hlt]. rewrite fmap_cons in Hs. unfold sorted_by in Hs. inversion_clear Hs as [|? ? _ Hall].
  rewrite Forall_forall in Hall. apply Hall. by apply list_elem_of_fmap_2.
Qed.

Record scanned (rests : list (list entry)) (fuel : nat) (m : MergingIterator) (out : list entry) : Prop := {
  sc_sub : out ⊆+ concat rests;
  sc_keys : forall p, p ∈ concat rests -> p.1 ∈ out.*1;
  sc_ends : mi_valid (Nat.iter (length out) (mi_next fuel) m) = false;
  sc_order : Forall increasing rests -> increasing out;
}.

Lemma mi_collect_spec n fuel m rests :
  mi_good m rests -> (remaining rests < n)%nat -> (remaining rests < fuel)%nat ->
  scanned rests fuel m (mi_collect n fuel m).
Proof.
  revert m rests. induction n as [|n IH]; intros m rests Hg Hn Hf; [lia|]. cbn [mi_collect].
  pose proof (mi_good_current m rests Hg) as Hcur. destruct (heap_top (mi_heap m)) as [x|] eqn:Et.
  2:{ destruct Hcur as [Hcur1 E]. rewrite Hcur1. split; [apply submseteq_nil_l| |exact Hcur1|by constructor]. rewrite E. by intros p ?%not_elem_of_nil. }
  destruct Hcur as (p & r & Hi & Hx & Hv & Hk & Hval). rewrite Hv, Hk, Hval.
  destruct (mi_next_good fuel m rests p r x Hg Hf Et Hi Hx Hv Hk) as (rests' & gone & Hg' & Hperm & Hadv & Hgone & Hpg & Htop).
  assert (remaining rests' < remaining rests)%nat as Hlt.
  { unfold remaining. rewrite Hperm, length_app. destruct gone; [by apply not_elem_of_nil in Hpg|]. simpl. lia. }
  destruct (IH _ _ Hg') as [Ha Hb He Ho]; [lia..|].
  replace (p.1, p.2) with p by by destruct p. split.
  - rewrite Hperm. apply (submseteq_app [p]); [by apply singleton_submseteq_l|done].
  - intros q Hq. rewrite Hperm in Hq. rewrite fmap_cons. apply elem_of_app in Hq as [Hq|Hq].
    + rewrite Forall_forall in Hgone. rewrite (Hgone q Hq). left.
    + right. by apply Hb.
  - cbn [length]. by rewrite Nat.iter_succ_r.
  - intros Hs. pose proof (advanced_increasing _ _ Hadv Hs) as Hs'. rewrite fmap_cons. constructor; [by apply Ho|].
    apply Forall_forall. intros k (q & -> & Hq)%list_elem_of_fmap.
    assert (q ∈ concat rests') as Hq' by by eapply elem_of_submseteq.
    destruct (heap_top (mi_heap (mi_next fuel m))) as [y|] eqn:Ey.
    2:{ pose proof (mi_good_current _ _ Hg') as Hcur. rewrite Ey in Hcur. destruct Hcur as [_ E]. rewrite E in Hq'. by apply not_elem_of_nil in Hq'. }
    pose proof (top_least _ _ _ _ Hg' Hs' Ey Hq') as Hqy. specialize (Htop y eq_refl).
    assert (lex p.1 y.2 = Lt) as Hpy.
    { apply heap_top_elem in Ey. rewrite (mr_heap _ _ _ (mg_rep _ _ Hg')) in Ey. destruct y as [j ky].
      apply elem_of_items in Ey as (w & rw & Hw & <-). cbn [snd] in *.
      assert (w ∈ concat rests) as Hwin.
      { rewrite Hperm. apply elem_of_app. right. apply list_elem_of_In, in_concat. exists (w :: rw). split; [|by left].
        apply list_elem_of_In. by eapply list_elem_of_lookup_2. }
      pose proof (top_least _ _ _ _ Hg Hs Et Hwin) as Hwx. rewrite Hx in Hwx. rewrite lex_opp.
      destruct (lex w.1 p.1) eqn:Ec; [by apply lex_eq_iff in Ec|done|done]. }
    unfold lt_by. destruct (lex y.2 q.1) eqn:Ec.
    + apply lex_eq_iff in Ec. by rewrite <- Ec.
    + by eapply lex_trans.
    + by apply lex_gt_lt in Ec.
Qed.

Lemma foldl_pushChild cs rests :
  Forall2 child_at cs rests -> foldl (pushChild cs) [] (seq 0 (length cs)) = items rests.
Proof.
  intros Hc. enough (forall k, (k <= length cs)%nat -> foldl (pushChild cs) [] (seq 0 k) = items (take k rests)) as Hall.
  { rewrite Hall by done. rewrite take_ge; [done|]. by rewrite (Forall2_length _ _ _ Hc). }
  induction k as [|k IH]; intros Hk; [done|]. rewrite seq_S, foldl_app, IH by lia. cbn [foldl].
  destruct (lookup_lt_is_Some_2 cs k ltac:(lia)) as [c Hck].
  destruct (Forall2_lookup_l _ _ _ _ _ Hc Hck) as (r & Hr & all & Hrep).
  rewrite (take_S_r _ _ _ Hr). unfold items. rewrite imap_app, concat_app. simpl.
  rewrite app_nil_r, Nat.add_0_r, length_take_le by (pose proof (lookup_lt_Some _ _ _ Hr); lia).
  unfold pushChild. rewrite Hck, (it_valid_spec _ _ _ Hrep).
  destruct r as [|p r']; simpl; [by rewrite app_nil_r|]. by destruct (it_current _ _ _ _ Hrep) as [-> _].
Qed.

(** Repositioning at the start, from any position without an error. *)
Lemma mi_restart_good m alls :
  Forall2 (fun c all => exists r, rep c all r) (mi_children m) alls -> ok (mi_status_ m) = true ->
  mi_good (mi_seekToFirst m) alls.
Proof.
  intros Hc Hok. assert (Forall2 child_at (it_seekToFirst <$> mi_children m) alls) as Hc'.
  { apply Forall2_fmap_l. eapply Forall2_impl; [exact Hc|]. intros c all [r Hr]. exists all. by eapply it_first_spec. }
  unfold mi_seekToFirst, rebuildHeap. cbn [mi_children mi_heap mi_status_].
  rewrite (foldl_pushChild _ _ Hc'). by split; cbn; [split| |].
Qed.

(** A fresh merging iterator positioned at the start. *)
Lemma mi_first_good cs alls :
  Forall2 (fun c all => exists r, rep c all r) cs alls ->
  mi_good (mi_seekToFirst (MergingIterator_new cs)) alls.
Proof.
  intros Hc. apply mi_restart_good; [done|]. cbn [mi_status_ MergingIterator_new].
  assert (first_error cs = SOk) as ->; [|done].
  unfold first_error. rewrite filter_none; [done|].
  intros s (c & -> & Hin)%list_elem_of_fmap. apply list_elem_of_lookup in Hin as [i Hi].
  destruct (Forall2_lookup_l _ _ _ _ _ Hc Hi) as (all & _ & r & Hrep). by rewrite (it_status_spec _ _ _ Hrep).
Qed.

(** And positioned there once more. *)
Lemma mi_first_again cs alls :
  Forall2 (fun c all => exists r, rep c all r) cs alls ->
  mi_good (mi_seekToFirst (mi_seekToFirst (MergingIterator_new cs))) alls.
Proof.
  intros Hc. apply mi_restart_good; [|apply (mi_first_good cs alls Hc)]. apply Forall2_fmap_l.
  eapply Forall2_impl; [exact Hc|]. intros c all [r Hr]. exists all. by eapply it_first_spec.
Qed.
End Merging.

(** C18: a merged scan over any children that meet the iterator contract ends, shows entries
    of the children only and none more often than they hold it, and shows every key that
    occurs in any child.  When the keys of each child are in increasing byte order (the order
    the heap compares by) the scan is in strictly increasing byte order, so it shows every
    key of the children exactly once and in order; when moreover, or instead, all keys are
    distinct, it shows every entry of every child exactly once. *)
Theorem merging_scan_complete {I : Type} `{IterOps I} (rep : I -> list entry -> list entry -> Prop)
  `{!IterSpec I rep} (children : list I) (alls : list (list entry)) (n : nat) :
  Forall2 (fun c all => exists rest, rep c all rest) children alls -> (length (concat alls) < n)%nat ->
  let first := mi_seekToFirst (MergingIterator_new children) in
  let out := mi_collect n n first in
  mi_valid (Nat.iter (length out) (mi_next n) first) = false /\
  out ⊆+ concat alls /\ (forall p, p ∈ concat alls -> p.1 ∈ out.*1) /\
  (Forall (fun all => sorted_by lex all.*1) alls -> sorted_by lex out.*1) /\
  (NoDup (concat alls).*1 -> out ≡ₚ concat alls).
Proof.
  intros Hc Hn first out. destruct (mi_collect_spec rep n n first alls) as [Hs Hk He Ho]; [by apply (mi_first_good rep)|done..|].
  split; [done|]. split; [done|]. split; [done|]. split; [done|]. intros Hnd. apply submseteq_length_Permutation; [done|].
  rewrite <- (length_fmap fst (concat alls)), <- (length_fmap fst out). apply submseteq_length, NoDup_submseteq; [done|].
  intros k (p & -> & Hp)%list_elem_of_fmap. by apply Hk.
Qed.

Definition merge_newer : list entry := [(mt_ikey (bs "k") 2 false, bs "new"); (mt_ikey (bs "m") 3 false, bs "x")].
Definition merge_older : list entry := [(mt_ikey (bs "j") 4 false, bs "y"); (mt_ikey (bs "k") 1 false, bs "old")].

(** Three children, two of them with the same keys: the scan shows four keys, in order. *)
Lemma merging_scan_complete_witness :
  let out := mi_collect 9 9 (mi_seekToFirst (MergingIterator_new
               (MemTableIterator_new <$> [merge_newer; merge_older; merge_newer]))) in
  length out = 4%nat /\ sorted_by lex out.*1 /\ out ⊆+ merge_newer ++ merge_older ++ merge_newer.
Proof.
  assert (sl_wf merge_newer /\ sl_wf merge_older) as [H1 H2].
  { split; (split; [repeat constructor; vm_compute; lia|repeat constructor; vm_compute; reflexivity]). }
  destruct (merging_scan_complete vi_rep (MemTableIterator_new <$> [merge_newer; merge_older; merge_newer])
              [merge_newer; merge_older; merge_newer] 9) as (_ & Hsub & _ & Hord & _).
  - repeat constructor; eexists; by apply MemTableIterator_rep.
  - vm_compute. lia.
  - split; [vm_compute; reflexivity|]. split; [|exact Hsub]. apply Hord. repeat constructor; vm_compute; reflexivity.
Defined.

(** The merge is not in internal-key order: with two versions of a key in two children,
    the older version comes out before the newer one, whichever child comes first, because
    the heap compares the raw bytes of the keys; a reader that keeps the first version of
    each user key then shows the stale value. *)
Theorem merging_shows_older_version_first :
  snd <$> mi_collect 9 9 (mi_seekToFirst (MergingIterator_new
     [MemTableIterator_new merge_newer; MemTableIterator_new merge_older])) =
  [bs "y"; bs "old"; bs "new"; bs "x"] /\
  InternalKeyCompare (mt_ikey (bs "k") 2 false) (mt_ikey (bs "k") 1 false) = Lt.
Proof. vm_compute. done. Qed.
