(* ===== verification/Compaction.v ===== *)
(** * Compaction

    [compaction.h/.cpp]: merging the tables of a level into one table of the next.  The
    background thread's loop body is [compaction_tick]; the version, the block cache and the
    file system it works on are passed in.  [mkdir] is not modelled. *)

From Stdlib Require Import ZArith Lia.
From stdpp Require Import base numbers strings list gmap.
From S2P Require Import Prelude CppString Coding Slice InternalKey SkipHeap SkipList Versions MemTable Bloom Block.
From S2P Require Import Caches Compression FileSystem SSTable Wal Manifest.
Local Open Scope Z_scope.

Record CompactionManager := mkCM {
  cm_db_path : bytes;
  cm_block_size : Z;
  cm_max_level : Z;
  cm_l0_trigger : Z;
  cm_running : bool;
  cm_triggered : bool;
  cm_failures : Z;
}.

Definition CompactionManager_new (db_path : bytes) (block_size max_level l0_trigger : Z) : CompactionManager :=
  mkCM db_path block_size max_level l0_trigger false false 0.

Definition cm_set_running (c : CompactionManager) (b : bool) : CompactionManager :=
  mkCM (cm_db_path c) (cm_block_size c) (cm_max_level c) (cm_l0_trigger c) b (cm_triggered c) (cm_failures c).
Definition cm_start (c : CompactionManager) : CompactionManager := cm_set_running c true.
Definition cm_stop (c : CompactionManager) : CompactionManager := cm_set_running c false.

Definition cm_set_triggered (c : CompactionManager) (b : bool) : CompactionManager :=
  mkCM (cm_db_path c) (cm_block_size c) (cm_max_level c) (cm_l0_trigger c) (cm_running c) b (cm_failures c).
Definition cm_triggerCompaction (c : CompactionManager) : CompactionManager := cm_set_triggered c true.

Definition cm_set_failures (c : CompactionManager) (n : Z) : CompactionManager :=
  mkCM (cm_db_path c) (cm_block_size c) (cm_max_level c) (cm_l0_trigger c) (cm_running c) (cm_triggered c) n.

(** The parts of the database a compaction works on. *)
Record CompactState := mkCS {
  cs_fs : FS;
  cs_version : Version;
  cs_cache : option BlockCache;
}.

Definition invalidateCache (cache : option BlockCache) (paths : list bytes) : option BlockCache :=
  match cache with
  | None => None
  | Some c => Some (foldl bc_invalidatePath c paths)
  end.

(** The entries of one source file; [None] for a file that cannot be opened. *)
Definition load_table `{Codecs} (fs : FS) (cache : option BlockCache) (path : bytes)
  : option (option BlockCache * Status * list entry) :=
  r ← sr_open fs path;
  match r with
  | None => Some (cache, SOk, [])
  | Some r =>
      '(cache, it) ← SSTableIterator_new r cache;
      let '(es, it) := it_collect (S (length (vi_entries it))) (it_seekToFirst it) in
      Some (cache, it_status it, es)
  end.

Fixpoint load_tables `{Codecs} (fs : FS) (cache : option BlockCache) (paths : list bytes)
  : option (option BlockCache * Status * list entry) :=
  match paths with
  | [] => Some (cache, SOk, [])
  | path :: paths =>
      '(cache, s, es) ← load_table fs cache path;
      if ok s then
        '(cache, s, rest) ← load_tables fs cache paths;
        Some (cache, s, es ++ rest)
      else Some (cache, s, [])
  end.

(** The loop over the sorted entries: the first version of each user key goes to the new
    table, unless it is a tombstone.  Returns the number of entries kept. *)
Fixpoint compact_add `{Codecs} (fs : FS) (b : SSTableBuilder) (last_user : bytes) (kept : Z) (all : list entry)
  : option (FS * SSTableBuilder * Z * Status) :=
  match all with
  | [] => Some (fs, b, kept, SOk)
  | (ik, v) :: all =>
      let uks := InternalKeyUserKey ik in
      if decide (uks = last_user) then compact_add fs b last_user kept all
      else if InternalKeyType ik =? kDeletion then compact_add fs b uks kept all
      else
        '(fs, b, s) ← sb_add fs b ik uks v;
        if ok s then compact_add fs b uks (kept + 1) all else Some (fs, b, kept, s)
  end.

Definition unlink_all (fs : FS) (paths : list bytes) : FS := foldl (fun fs p => (fs_unlink fs p).1) fs paths.

Definition sst_path (db_path : bytes) (level n : Z) : bytes :=
  db_path ++ bs "/level-" ++ to_string level ++ bs "/" ++ to_string n ++ bs ".sst".

Definition mergeLevelFiles `{Codecs} (c : CompactionManager) (st : CompactState) (src_level : Z)
  (src_files : list bytes) : option (CompactState * Status) :=
  if bool_decide (src_files = []) then Some (st, SOk)
  else
    let dst_level := src_level + 1 in
    if dst_level >? cm_max_level c then Some (st, SOk)
    else
      '(cache, s, all) ← load_tables (cs_fs st) (cs_cache st) src_files;
      if negb (ok s) then Some (mkCS (cs_fs st) (cs_version st) cache, s)
      else
        let all := sort_by (lt_keyed InternalKeyCompare fst) all in
        let '(n, v) := v_nextFileNumber (cs_version st) in
        let newFile := sst_path (cm_db_path c) dst_level n in
        let '(fs, b) := SSTableBuilder_new (cs_fs st) newFile (cm_block_size c) cSnappy in
        '(fs, b, kept, s) ← compact_add fs b [] 0 all;
        if negb (ok s) then Some (mkCS (sb_destroy fs b) v cache, s)
        else
          let '(fs, b, s) := sb_finish fs b in
          if negb (ok s) then
            let '(fs, _) := fs_unlink fs newFile in Some (mkCS fs v cache, s)
          else
            let cache := invalidateCache cache src_files in
            if kept =? 0 then
              let '(fs, _) := fs_unlink fs newFile in
              '(fs, v) ← v_removeLevelFiles fs v src_level src_files;
              Some (mkCS (unlink_all fs src_files) v cache, SOk)
            else
              '(fs, v) ← v_addLevelFile fs v dst_level newFile;
              '(fs, v) ← v_removeLevelFiles fs v src_level src_files;
              Some (mkCS (unlink_all fs src_files) v cache, SOk).

Definition compactL0 `{Codecs} (c : CompactionManager) (st : CompactState) : option (CompactState * Status) :=
  let l0_files := v_getLevelFiles (cs_version st) 0 in
  if bool_decide (l0_files = []) then Some (st, SOk) else mergeLevelFiles c st 0 l0_files.

Definition compactLevel `{Codecs} (c : CompactionManager) (st : CompactState) (level : Z) : option (CompactState * Status) :=
  if (level <? 1) || (level >=? cm_max_level c) then Some (st, SOk)
  else
    let files := v_getLevelFiles (cs_version st) level in
    if zlen files <? 2 then Some (st, SOk) else mergeLevelFiles c st level files.

(** [for (int lvl = 1; lvl < max_level_; ++lvl) ...], with the levels still to visit. *)
Fixpoint compact_levels `{Codecs} (c : CompactionManager) (st : CompactState) (lvls : list nat)
  : option (CompactionManager * CompactState) :=
  match lvls with
  | [] => Some (c, st)
  | lvl :: lvls =>
      if v_shouldCompactLevel (cs_version st) (Z.of_nat lvl) 2 then
        '(st, s) ← compactLevel c st (Z.of_nat lvl);
        let c := if ok s then cm_set_failures c 0
                 else cm_set_triggered (cm_set_failures c (cm_failures c + 1)) true in
        compact_levels c st lvls
      else compact_levels c st lvls
  end.

(** One pass of [compactionLoop]. *)
Definition compaction_tick `{Codecs} (c : CompactionManager) (st : CompactState)
  : option (CompactionManager * CompactState) :=
  '(c, st) ←
    (if cm_triggered c || v_shouldCompactL0 (cs_version st) (cm_l0_trigger c) then
       let c := cm_set_triggered c false in
       '(st, s) ← compactL0 c st;
       Some (if ok s then cm_set_failures c 0
             else cm_set_triggered (cm_set_failures c (cm_failures c + 1)) true, st)
     else Some (c, st));
  compact_levels c st (seq 1 (Z.to_nat (cm_max_level c) - 1)).

(** ** What is kept *)

Fixpoint keep_newest (last_user : bytes) (all : list entry) : list entry :=
  match all with
  | [] => []
  | p :: all =>
      let uk := InternalKeyUserKey p.1 in
      if decide (uk = last_user) then keep_newest last_user all
      else if IsDeletion p.1 then keep_newest uk all
      else p :: keep_newest uk all
  end.

Lemma keep_newest_sublist last all : keep_newest last all `sublist_of` all.
Proof.
  revert last. induction all as [|p all IH]; intros last; simpl; [done|].
  destruct (decide _); [by apply sublist_cons|]. destruct (IsDeletion _); [by apply sublist_cons|by apply sublist_skip].
Qed.

Lemma keep_newest_user last all p :
  p ∈ keep_newest last all -> p ∈ all /\ IsDeletion p.1 = false.
Proof.
  revert last. induction all as [|q all IH]; intros last; simpl; [by intros ?%not_elem_of_nil|].
  destruct (decide _); [intros Hp%IH; split; [right|]; tauto|].
  destruct (IsDeletion q.1) eqn:E; [intros Hp%IH; split; [right|]; tauto|].
  intros [->|Hp]%elem_of_cons; [split; [left|done]|]. apply IH in Hp. split; [right|]; tauto.
Qed.

(** Entries of the user key just handled are skipped. *)
Lemma keep_newest_last last all :
  sl_wf all -> (forall p, p ∈ all -> lex last (InternalKeyUserKey p.1) <> Gt) ->
  forall p, p ∈ keep_newest last all -> InternalKeyUserKey p.1 <> last.
Proof.
  revert last. induction all as [|q all IH]; intros last Hwf Hle p; simpl; [by intros ?%not_elem_of_nil|].
  pose proof Hwf as [Hw Hs]. simpl in Hw, Hs. apply Forall_cons in Hw as [Hq Hw]. inversion_clear Hs as [|? ? Hs' Hall].
  destruct (decide (InternalKeyUserKey q.1 = last)) as [Heq|Hne].
  - apply IH; [done|]. intros r Hr. apply Hle. by right.
  - assert (forall r, r ∈ q :: all -> InternalKeyUserKey r.1 <> last) as Hno.
    { assert (lex last (InternalKeyUserKey q.1) = Lt) as Hlt.
      { specialize (Hle q ltac:(left)). destruct (lex last (InternalKeyUserKey q.1)) eqn:E; [|done|done].
        apply lex_eq_iff in E. congruence. }
      intros r [->|Hr]%elem_of_cons; [done|]. intros Heq.
      rewrite Forall_forall in Hall, Hw. assert (r.1 ∈ all.*1) as Hr1 by by apply list_elem_of_fmap_2.
      pose proof (compare_user q.1 r.1 Hq (Hw _ Hr1) (Hall _ Hr1)) as Hc. rewrite Heq in Hc.
      apply Hc. by apply lex_gt_lt. }
    intros Hp. apply Hno. destruct (IsDeletion q.1).
    + right. by apply keep_newest_user in Hp as [? _].
    + apply elem_of_cons in Hp as [->|Hp]; [left|]. right. by apply keep_newest_user in Hp as [? _].
Qed.

Lemma newest_head_user p all uk :
  InternalKeyUserKey p.1 = uk -> newest uk (p :: all) = Some p.
Proof. intros Hu. rewrite newest_cons. by rewrite decide_True. Qed.

(** Of every user key other than the one already handled the first version is kept, unless
    it is a tombstone, and nothing else. *)
Lemma keep_newest_versions last all uk :
  sl_wf all -> (forall p, p ∈ all -> lex last (InternalKeyUserKey p.1) <> Gt) -> uk <> last ->
  versions uk (keep_newest last all) =
    match newest uk all with Some p => if IsDeletion p.1 then [] else [p] | None => [] end.
Proof.
  revert last. induction all as [|q all IH]; intros last Hwf Hle Hne; [done|]. cbn [keep_newest].
  pose proof Hwf as [Hw Hs]. simpl in Hw, Hs. apply Forall_cons in Hw as [Hq Hw]. inversion_clear Hs as [|? ? Hs' Hall].
  assert (sl_wf all) as Hwf' by done.
  assert (forall p, p ∈ all -> lex (InternalKeyUserKey q.1) (InternalKeyUserKey p.1) <> Gt) as Hle'.
  { intros p Hp. rewrite Forall_forall in Hall, Hw. assert (p.1 ∈ all.*1) as Hp1 by by apply list_elem_of_fmap_2.
    by apply compare_user; [|apply Hw|apply Hall]. }
  rewrite newest_cons. destruct (decide (InternalKeyUserKey q.1 = last)) as [Heq|Hql].
  - rewrite decide_False by congruence. apply IH; [done|intros p Hp; apply Hle; by right|done].
  - destruct (decide (InternalKeyUserKey q.1 = uk)) as [Hqu|Hqu].
    + assert (versions uk (keep_newest (InternalKeyUserKey q.1) all) = []) as Hno.
      { unfold versions. apply filter_none. intros p Hp Hpu. rewrite Hqu in Hp.
        apply (keep_newest_last uk all Hwf' ltac:(by rewrite <- Hqu) p Hp Hpu). }
      destruct (IsDeletion q.1); [done|]. unfold versions in *. rewrite filter_cons_True by done. by rewrite Hno.
    + specialize (IH (InternalKeyUserKey q.1) Hwf' Hle' ltac:(congruence)).
      destruct (IsDeletion q.1); [done|]. unfold versions in *. by rewrite filter_cons_False.
Qed.

(** The loop adds exactly the kept entries. *)
Lemma type_is_deletion ik : (InternalKeyType ik =? kDeletion) = IsDeletion ik.
Proof. done. Qed.
