(* ===== verification/CompactionProofs.v ===== *)
(** * Compaction: the merged table answers as its inputs did *)

From Stdlib Require Import ZArith Lia.
From stdpp Require Import base numbers strings list gmap.
From S2P Require Import Prelude CppString Coding Slice InternalKey SkipHeap SkipList Versions MemTable Bloom Block.
From S2P Require Import Caches Compression FileSystem SSTable SSTableProofs Wal Manifest ManifestProofs.
From S2P Require Import Compaction.
Local Open Scope Z_scope.

Section Codec.
Context `{HC : Codecs} `{HL : !CodecLaws}.

(** ** Loading the inputs *)

Definition table (files : gmap bytes bytes) (path : bytes) (l : list entry) : Prop :=
  sst_file files path l /\ sl_wf l.

(** The cache is judged against [base], a part of the directory that holds the inputs. *)
Lemma load_table_ok files base cache path l :
  table files path l -> base !! path = files !! path -> cache_valid base cache ->
  exists cache', load_table (fs_of files) cache path = Some (cache', SOk, l) /\ cache_valid base cache'.
Proof.
  intros [Hs Hwf] Hb Hc. destruct (sst_file_open _ _ _ Hs) as (r & fbs & Ho & Hr & <- & Hf).
  destruct (sr_iter_ok base r path fbs cache) as (c' & i & Hi & Hrep & Hc'); [done|congruence|done..|].
  unfold load_table. rewrite Ho. cbn [mbind option_bind]. rewrite Hi. cbn [mbind option_bind].
  pose proof (it_first_spec (rep := vi_rep) i _ _ Hrep) as Hrep'.
  assert (vi_entries i = rows_of fbs) as He by apply Hrep.
  destruct (it_collect_spec vi_rep (S (length (vi_entries i))) _ _ _ Hrep') as (j & -> & Hj); [rewrite He; lia|].
  rewrite (it_status_spec (rep := vi_rep) _ _ _ Hj). by exists c'.
Qed.

Lemma load_tables_ok files base cache paths ls :
  Forall2 (table files) paths ls -> (forall p, p ∈ paths -> base !! p = files !! p) -> cache_valid base cache ->
  exists cache', load_tables (fs_of files) cache paths = Some (cache', SOk, concat ls) /\ cache_valid base cache'.
Proof.
  intros Hall Hb. revert cache Hb. induction Hall as [|p l paths ls Hp _ IH]; intros cache Hb Hc; cbn [load_tables].
  { by exists cache. }
  destruct (load_table_ok files base cache p l Hp (Hb p ltac:(left)) Hc) as (c1 & -> & Hc1). cbn [mbind option_bind]. simpl (ok SOk). cbn iota.
  destruct (IH c1 ltac:(intros q Hq; apply Hb; by right) Hc1) as (c2 & -> & Hc2). by exists c2.
Qed.

(** ** Writing the output *)

Lemma weight_sublist l1 l2 : l1 `sublist_of` l2 -> weight l1 <= weight l2.
Proof.
  induction 1 as [|x l1 l2 _ IH|x l1 l2 _ IH]; simpl; [done|lia|].
  pose proof (zlen_nonneg x.1). pose proof (zlen_nonneg x.2). lia.
Qed.

Lemma compact_add_ok all files b fbs pend last kept :
  sb_rep files b fbs pend -> weight (rows_of fbs ++ pend ++ all) < 2 ^ 30 ->
  exists files' b' fbs' pend',
    compact_add (fs_of files) b last kept all = Some (fs_of files', b', kept + zlen (keep_newest last all), SOk) /\
    same_config b b' /\ others_same (sb_path b) files files' /\
    rows_of fbs' ++ pend' = (rows_of fbs ++ pend) ++ keep_newest last all /\ sb_rep files' b' fbs' pend'.
Proof.
  revert files b fbs pend last kept. induction all as [|[ik v] all IH]; intros files b fbs pend last kept Hr Hw.
  { exists files, b, fbs, pend. simpl. rewrite app_nil_r, zlen_nil, Z.add_0_r.
    split; [done|]. split; [by repeat split|done]. }
  cbn [compact_add keep_newest fst].
  rewrite !weight_app in Hw. cbn [weight foldr fst snd] in Hw. fold (weight all) in Hw.
  pose proof (zlen_nonneg ik). pose proof (zlen_nonneg v). pose proof (weight_length all). pose proof (zlen_nonneg all).
  destruct (decide (InternalKeyUserKey ik = last)) as [He|Hne].
  { apply IH; [done|]. rewrite !weight_app. lia. }
  rewrite type_is_deletion. destruct (IsDeletion ik).
  { apply IH; [done|]. rewrite !weight_app. lia. }
  destruct (sb_add_ok files b fbs pend ik v Hr) as (f1 & b1 & fbs1 & pend1 & -> & (P1 & P2 & P3 & P4 & P5) & Ho1 & Hrow1 & Hr1).
  { rewrite !weight_app. simpl. lia. }
  cbn [mbind option_bind]. simpl (ok SOk). cbn iota.
  destruct (IH f1 b1 fbs1 pend1 (InternalKeyUserKey ik) (kept + 1) Hr1) as
    (f2 & b2 & fbs2 & pend2 & -> & (Q1 & Q2 & Q3 & Q4 & Q5) & Ho2 & Hrow2 & Hr2).
  { rewrite app_assoc, Hrow1, !weight_app. simpl. lia. }
  exists f2, b2, fbs2, pend2. rewrite zlen_cons. split; [do 3 f_equal; lia|].
  split; [repeat split; congruence|]. split; [|split; [|done]].
  - intros p Hp. rewrite Ho2, Ho1 by congruence. done.
  - rewrite Hrow2, Hrow1, <- app_assoc. done.
Qed.

(** ** Files and version *)

Lemma sst_file_same files files' path l :
  files' !! path = files !! path -> files' !! (path ++ bs ".bloom") = files !! (path ++ bs ".bloom") ->
  sst_file files path l -> sst_file files' path l.
Proof. intros H1 H2 (fbs & f & ?). exists fbs, f. by rewrite H1, H2. Qed.

Lemma unlink_all_files files paths q :
  q ∉ paths -> exists files', unlink_all (fs_of files) paths = fs_of files' /\ files' !! q = files !! q.
Proof.
  unfold unlink_all. revert files. induction paths as [|p paths IH]; intros files Hq; [by exists files|].
  apply not_elem_of_cons in Hq as [Hne Hq]. cbn [foldl]. rewrite fs_unlink_ok.
  destruct (IH (delete p files) Hq) as (files' & -> & Hf). exists files'. by rewrite Hf, lookup_delete_ne.
Qed.

Lemma unlink_all_lookup files paths :
  exists files', unlink_all (fs_of files) paths = fs_of files' /\
    (forall q, q ∉ paths -> files' !! q = files !! q) /\ (forall q, q ∈ paths -> files' !! q = None).
Proof.
  unfold unlink_all. revert files. induction paths as [|p paths IH]; intros files.
  { exists files. split; [done|]. split; [done|]. by intros q ?%not_elem_of_nil. }
  cbn [foldl]. rewrite fs_unlink_ok. destruct (IH (delete p files)) as (files' & -> & Hno & Hin).
  exists files'. split; [done|]. split.
  - intros q [Hne Hq]%not_elem_of_cons. by rewrite Hno, lookup_delete_ne.
  - intros q Hq. destruct (decide (q ∈ paths)) as [Hp|Hp]; [by apply Hin|].
    apply elem_of_cons in Hq as [->|?]; [|done]. by rewrite Hno, lookup_delete_eq.
Qed.

(** The names a merge into [newFile] must not collide with: the manifest and its inputs. *)
Definition apart (newFile : bytes) (mf : bytes) (src : list bytes) : Prop :=
  newFile <> mf /\ newFile ++ bs ".bloom" <> mf /\ mf ∉ src /\ newFile ∉ src /\ newFile ++ bs ".bloom" ∉ src.

Lemma v_nextFileNumber_durable files v m es :
  v_durable files v m es -> v_durable files (v_nextFileNumber v).2 m es.
Proof. intros [? ? ? ? ? ?]. by split. Qed.

Lemma v_durable_same files files' v m es :
  files' !! mf_path m = files !! mf_path m -> v_durable files v m es -> v_durable files' v m es.
Proof. intros Heq [? ? Hf ? ? ?]. split; try done. by rewrite Heq. Qed.

Lemma v_remove_levels fs v level paths fs' v' :
  v_removeLevelFiles fs v level paths = Some (fs', v') -> 0 <= level ->
  forall i, lv_at (v_levels v') i =
    if decide (i = Z.to_nat level) then filter (fun f => sm_path f ∉ paths) (lv_at (v_levels v) i)
    else lv_at (v_levels v) i.
Proof.
  unfold v_removeLevelFiles. intros E Hl i. destruct (in_levels v level) eqn:Hin; cbn [negb] in E.
  2:{ injection E as <- <-. case_decide as Hi; [|done]. subst i. unfold in_levels, zlen in Hin. unfold lv_at.
      rewrite lookup_ge_None_2 by lia. done. }
  assert (v_levels v' = <[Z.to_nat level := filter (fun m => sm_path m ∉ paths) (v_getLevelMetas v level)]> (v_levels v)) as ->.
  { revert E. destruct (v_manifest v) as [m|]; [|by intros [= <- <-]].
    destruct (record_removals fs m level paths _) as [[fs1 m1]|]; [|done]. simpl.
    destruct (mf_sync fs1 m1) as [fs2 s2]. by intros [= <- <-]. }
  rewrite v_getLevelMetas_at. replace (0 <=? level) with true by lia. unfold in_levels, zlen in Hin.
  unfold lv_at at 1. case_decide as Hi.
  - subst i. by rewrite list_lookup_insert_eq by lia.
  - by rewrite list_lookup_insert_ne by done.
Qed.

Lemma v_add_levels fs v level path fs' v' :
  v_addLevelFile fs v level path = Some (fs', v') -> 0 <= level ->
  exists no, forall i, lv_at (v_levels v') i =
    if decide (i = Z.to_nat level) then lv_at (v_levels v) i ++ [new_meta path no] else lv_at (v_levels v) i.
Proof.
  unfold v_addLevelFile. intros E Hl. replace (level <? 0) with false in E by lia.
  destruct (match number_of_path path with Some n => _ | None => _ end) as [no nx].
  exists no. intros i. rewrite <- lv_at_add. f_equal. revert E.
  destruct (v_manifest v) as [m|]; [|by intros [= <- <-]].
  destruct (mf_recordAddFile fs m level path no) as [[[fs1 m1] s1]|]; [|done]. simpl.
  destruct (mf_sync fs1 m1) as [fs2 s2]. by intros [= <- <-].
Qed.

(** The new table holds the kept entries; nothing but it and its filter is touched. *)
Lemma merge_output files newFile bsz all :
  weight all < 2 ^ 30 ->
  exists b0 files1 b1 files2 b2,
    SSTableBuilder_new (fs_of files) newFile bsz cSnappy = (fs_of (<[newFile := []]> files), b0) /\
    compact_add (fs_of (<[newFile := []]> files)) b0 [] 0 all =
      Some (fs_of files1, b1, zlen (keep_newest [] all), SOk) /\
    sb_finish (fs_of files1) b1 = (fs_of files2, b2, SOk) /\
    sst_file files2 newFile (keep_newest [] all) /\
    (forall p, p <> newFile -> p <> newFile ++ bs ".bloom" -> files2 !! p = files !! p).
Proof.
  intros Hw. destruct (SSTableBuilder_new_ok files newFile bsz cSnappy) as (b0 & E0 & Hr0 & Hf0 & Hp0).
  destruct (compact_add_ok all _ _ _ _ [] 0 Hr0 Hw)
    as (f1 & b1 & fbs & pend & E1 & (P1 & _ & _ & _ & P5) & Ho & Hrows & Hr1).
  destruct (sb_finish_ok _ _ _ _ Hr1) as (f2 & b2 & E2 & _ & Ho2 & Hs); [congruence|].
  exists b0, f1, b1, f2, b2. rewrite Z.add_0_l in E1. rewrite Hrows in Hs. rewrite P1, Hp0 in *.
  do 3 (split; [done|]). split; [done|]. intros p Hp1 Hp2. rewrite Ho2, Ho by done. by rewrite lookup_insert_ne.
Qed.

Lemma v_getLevelFiles_at v level : 0 <= level -> v_getLevelFiles v level = sm_path <$> lv_at (v_levels v) (Z.to_nat level).
Proof. intros Hl. unfold v_getLevelFiles. rewrite v_getLevelMetas_at. by replace (0 <=? level) with true by lia. Qed.

(** Removing every file of a level empties it and touches nothing else. *)
Lemma merge_retire files v m es level src :
  v_durable files v m es -> 0 <= level < 2 ^ 31 -> v_getLevelFiles v level = src ->
  exists files' v' m' es', v_removeLevelFiles (fs_of files) v level src = Some (fs_of files', v') /\
    v_durable files' v' m' es' /\ mf_path m' = mf_path m /\
    (forall q, q <> mf_path m -> files' !! q = files !! q) /\
    v_getLevelFiles v' level = [] /\
    (forall l, 0 <= l -> l <> level -> v_getLevelFiles v' l = v_getLevelFiles v l).
Proof.
  intros Hv Hl Hsrc. destruct (v_remove_durable files v m es level src Hv Hl) as (f' & v' & m' & es' & E & Hd & Hp & Ho).
  { rewrite v_getLevelMetas_at. replace (0 <=? level) with true by lia.
    rewrite <- (vd_disk _ _ _ _ Hv). apply edits_metas_ok, Hv. }
  exists f', v', m', es'. do 4 (split; [done|]). pose proof (v_remove_levels _ _ _ _ _ _ E (proj1 Hl)) as Hlv. split.
  - rewrite v_getLevelFiles_at, Hlv, decide_True by lia. rewrite <- Hsrc, v_getLevelFiles_at by lia.
    match goal with |- sm_path <$> ?x = [] => enough (x = []) as -> by done end.
    apply elem_of_nil_inv. intros f [Hn Hf]%list_elem_of_filter. apply Hn. by apply list_elem_of_fmap_2.
  - intros l H0 Hne. rewrite !v_getLevelFiles_at, Hlv, decide_False by lia. done.
Qed.

(** Registering the new table appends it to its level. *)
Lemma merge_register files v m es level path :
  v_durable files v m es -> 0 <= v_next_file_number v < 2 ^ 64 -> 0 <= level < 2 ^ 31 -> zlen path + 17 <= 2 ^ 24 ->
  exists files' v' m' es', v_addLevelFile (fs_of files) v level path = Some (fs_of files', v') /\
    v_durable files' v' m' es' /\ mf_path m' = mf_path m /\
    (forall q, q <> mf_path m -> files' !! q = files !! q) /\
    (forall l, 0 <= l -> v_getLevelFiles v' l = v_getLevelFiles v l ++ (if decide (l = level) then [path] else [])).
Proof.
  intros Hv Hn Hl Hp. destruct (v_add_durable files v m es level path Hv Hn Hl Hp) as (f' & v' & m' & E & Hd & Hm & Ho).
  destruct (v_add_levels _ _ _ _ _ _ E (proj1 Hl)) as [no Hlv].
  exists f', v', m', (es ++ [EAdd level path (add_number v path)]). do 4 (split; [done|]).
  intros l H0. rewrite !v_getLevelFiles_at, Hlv by lia. case_decide as Hi; case_decide as Hi'; try lia; [|by rewrite app_nil_r].
  by rewrite fmap_app.
Qed.

(** ** The cache *)

Lemma cache_valid_weaken files files' cache :
  cache_valid files cache -> (forall p d, files !! p = Some d -> files' !! p = Some d) -> cache_valid files' cache.
Proof.
  destruct cache as [c|]; [|done]. intros (e & Hr & Hcap & Hv) Hsub. exists e. split; [done|]. split; [done|].
  intros path off d Hin. destruct (Hv _ _ _ Hin) as (file & Hf & Hrd). exists file. by split; [apply Hsub|].
Qed.

Lemma cache_valid_invalidate files cache paths :
  cache_valid files cache ->
  cache_valid (filter (fun x : bytes * bytes => x.1 ∉ paths) files) (invalidateCache cache paths).
Proof.
  destruct cache as [c|]; [|done]. intros (e & Hr & Hcap & Hv). simpl.
  assert (exists e', bc_rep (foldl bc_invalidatePath c paths) e' /\
    bc_capacity (foldl bc_invalidatePath c paths) = bc_capacity c /\
    (forall x, x ∈ e' -> x ∈ e /\ x.1.1 ∉ paths)) as (e' & Hr' & Hcap' & Hsub).
  { clear Hv. revert c e Hr Hcap. induction paths as [|p paths IH]; intros c e Hr Hcap; simpl.
    { exists e. split; [done|]. split; [done|]. intros x Hx. split; [done|apply not_elem_of_nil]. }
    destruct (bc_invalidate_refines c e p Hr) as [Hr1 Hc1].
    destruct (IH _ _ Hr1 ltac:(lia)) as (e' & Hr' & Hc' & Hs). exists e'. split; [done|]. split; [congruence|].
    intros x Hx. destruct (Hs x Hx) as [Hin Hp]. unfold not_path in Hin. apply list_elem_of_filter in Hin as [Hne Hin].
    split; [done|]. by apply not_elem_of_cons. }
  exists e'. split; [done|]. split; [by rewrite Hcap'|].
  intros path off d Hin. destruct (Hsub _ Hin) as [Hin' Hp]. destruct (Hv _ _ _ Hin') as (file & Hf & Hrd).
  exists file. split; [|done]. by apply map_lookup_filter_Some.
Qed.

Lemma weight_perm l1 l2 : l1 ≡ₚ l2 -> weight l1 = weight l2.
Proof. induction 1; simpl; lia. Qed.

Lemma sl_wf_sublist l1 l2 : l1 `sublist_of` l2 -> sl_wf l2 -> sl_wf l1.
Proof.
  intros Hsub [Hw Hs]. assert (l1.*1 `sublist_of` l2.*1) as Hk.
  { clear Hw Hs. induction Hsub; simpl; [done|by apply sublist_skip|by apply sublist_cons]. }
  split; [|by eapply sorted_by_sublist].
  rewrite Forall_forall in Hw |- *. intros x Hx. apply Hw. by eapply (elem_of_submseteq _ _ _ Hx), sublist_submseteq.
Qed.

(** ** The whole merge *)

(** What a merge of the tables [ls] relies on: the version is durable, the inputs are the
    tables of the level, with distinct internal keys, the name of the output is fresh. *)
Record merge_pre (c : CompactionManager) (files : gmap bytes bytes) (v : Version) (cache : option BlockCache)
  (m : Manifest) (es : list edit) (level : Z) (ls : list (list entry)) : Prop := {
  mp_version : v_durable files v m es;
  mp_number : 0 <= v_next_file_number v < 2 ^ 64;
  mp_level : 0 <= level < cm_max_level c /\ cm_max_level c < 2 ^ 31;
  mp_inputs : Forall2 (table files) (v_getLevelFiles v level) ls;
  mp_nonempty : ls <> [];
  mp_distinct : NoDup (concat ls).*1;
  mp_weight : weight (concat ls) < 2 ^ 30;
  mp_cache : cache_valid (delete (mf_path m) files) cache;
  mp_apart : apart (sst_path (cm_db_path c) (level + 1) (v_next_file_number v)) (mf_path m) (v_getLevelFiles v level);
  mp_fresh : files !! sst_path (cm_db_path c) (level + 1) (v_next_file_number v) = None;
  mp_fresh_bloom : files !! (sst_path (cm_db_path c) (level + 1) (v_next_file_number v) ++ bs ".bloom") = None;
  mp_name : zlen (sst_path (cm_db_path c) (level + 1) (v_next_file_number v)) + 17 <= 2 ^ 24;
}.

(** The last steps of a merge, on either branch: retire the inputs and delete them. *)
Lemma merge_finish (files : gmap bytes bytes) (v : Version) (m : Manifest) (es : list edit) (level : Z)
  (src : list bytes) (cache : option BlockCache) :
  v_durable files v m es -> 0 <= level < 2 ^ 31 -> v_getLevelFiles v level = src -> mf_path m ∉ src ->
  exists f1 files' v' m' es',
    ('(fs, v') ← v_removeLevelFiles (fs_of files) v level src; Some (mkCS (unlink_all fs src) v' cache, SOk)) =
      Some (mkCS (fs_of files') v' cache, SOk) /\
    v_removeLevelFiles (fs_of files) v level src = Some (fs_of f1, v') /\
    v_durable files' v' m' es' /\ mf_path m' = mf_path m /\
    v_getLevelFiles v' level = [] /\
    (forall l, 0 <= l -> l <> level -> v_getLevelFiles v' l = v_getLevelFiles v l) /\
    (forall q, q ∉ src -> q <> mf_path m -> files' !! q = files !! q) /\
    (forall q, q ∈ src -> files' !! q = None).
Proof.
  intros Hv Hl Hsrc Hmf.
  destruct (merge_retire files v m es level src Hv Hl Hsrc) as (f1 & v1 & m1 & es1 & E & Hv1 & Hp1 & Ho1 & He & Hl1).
  rewrite E. cbn [mbind option_bind]. destruct (unlink_all_lookup f1 src) as (f2 & -> & Hno & Hin).
  exists f1, f2, v1, m1, es1. split; [done|]. split; [done|]. split.
  { eapply v_durable_same; [|done]. rewrite Hp1. by apply Hno. }
  do 3 (split; [done|]). split; [intros q H1 H2; by rewrite Hno, Ho1|done].
Qed.

Lemma table_wf files paths ls : Forall2 (table files) paths ls -> Forall wf_ikey (concat ls).*1.
Proof.
  induction 1 as [|p l paths ls [_ [Hl _]] _ IH]; simpl; [constructor|]. rewrite fmap_app. by apply Forall_app.
Qed.

(** The version after a merge: the output registered, the inputs removed. *)
Definition v_moved (v : Version) (level : Z) (newFile : bytes) (src : list bytes) (v' : Version) : Prop :=
  exists fs1 fs2 fs3 fs4 v1, v_addLevelFile fs1 v (level + 1) newFile = Some (fs2, v1) /\
    v_removeLevelFiles fs3 v1 level src = Some (fs4, v').

(** Installing the output: register it (or drop it when nothing was kept), retire the inputs. *)
Lemma merge_install (files f2 : gmap bytes bytes) (v2 : Version) (m : Manifest) (es : list edit) (level : Z)
  (src : list bytes) (newFile : bytes) (merged : list entry) (cache : option BlockCache) :
  v_durable f2 v2 m es -> 0 <= v_next_file_number v2 < 2 ^ 64 -> 0 <= level < 2 ^ 31 - 1 ->
  zlen newFile + 17 <= 2 ^ 24 -> v_getLevelFiles v2 level = src -> apart newFile (mf_path m) src ->
  (forall p, p <> newFile -> p <> newFile ++ bs ".bloom" -> f2 !! p = files !! p) ->
  table f2 newFile merged ->
  exists files' v' m' es',
    (if zlen merged =? 0 then
       let '(fs, _) := fs_unlink (fs_of f2) newFile in
       '(fs, v) ← v_removeLevelFiles fs v2 level src;
       Some (mkCS (unlink_all fs src) v cache, SOk)
     else
       '(fs, v) ← v_addLevelFile (fs_of f2) v2 (level + 1) newFile;
       '(fs, v) ← v_removeLevelFiles fs v level src;
       Some (mkCS (unlink_all fs src) v cache, SOk)) =
      Some (mkCS (fs_of files') v' cache, SOk) /\
    v_durable files' v' m' es' /\ mf_path m' = mf_path m /\ (merged <> [] -> v_moved v2 level newFile src v') /\
    v_getLevelFiles v' level = [] /\
    v_getLevelFiles v' (level + 1) = v_getLevelFiles v2 (level + 1) ++ (if decide (merged = []) then [] else [newFile]) /\
    (forall l, 0 <= l -> l <> level -> l <> level + 1 -> v_getLevelFiles v' l = v_getLevelFiles v2 l) /\
    (forall q, q ∈ src -> files' !! q = None) /\
    (forall q, q ∉ src -> q <> mf_path m -> q <> newFile -> q <> newFile ++ bs ".bloom" -> files' !! q = files !! q) /\
    (merged <> [] -> table files' newFile merged).
Proof.
  intros Hv Hn Hl Hname Hsrc (A1 & A2 & A3 & A4 & A5) Ho Ht. destruct (decide (merged = [])) as [Hm|Hm].
  - rewrite Hm. cbn [zlen]. change (zlen [] =? 0) with true. cbn iota. rewrite (surjective_pairing (fs_unlink _ _)), fs_unlink_ok.
    destruct (merge_finish (delete newFile f2) v2 m es level src cache)
      as (f1 & f' & v' & m' & es' & -> & _ & H1 & H2 & H3 & H4 & H5 & H6); try done; [|lia|].
    { eapply v_durable_same; [|done]. by rewrite lookup_delete_ne. }
    exists f', v', m', es'. do 5 (split; [done|]). split; [rewrite app_nil_r; apply H4; lia|].
    split; [intros; by apply H4|]. split; [done|]. split; [|done].
    intros q B1 B2 B3 B4. by rewrite H5, lookup_delete_ne, Ho.
  - assert (zlen merged =? 0 = false) as -> by (destruct merged; [done|]; rewrite zlen_cons; pose proof (zlen_nonneg merged); lia).
    destruct (merge_register f2 v2 m es (level + 1) newFile Hv Hn) as (f3 & v3 & m3 & es3 & Eadd & Hv3 & Hp3 & Ho3 & Hl3); [lia|done|].
    rewrite Eadd. cbn [mbind option_bind].
    destruct (merge_finish f3 v3 m3 es3 level src cache)
      as (f1 & f' & v' & m' & es' & -> & Erm & H1 & H2 & H3 & H4 & H5 & H6); rewrite ?Hp3; try done; [lia| |].
    { rewrite Hl3, decide_False, app_nil_r by lia. done. }
    rewrite Hp3 in *. exists f', v', m', es'. do 3 (split; [done|]). split; [intros _; by do 5 eexists|]. split; [done|].
    split; [rewrite H4, Hl3, decide_True by lia; done|].
    split; [intros; rewrite H4, Hl3, decide_False by lia; by rewrite app_nil_r|]. split; [done|].
    split; [intros q B1 B2 B3 B4; by rewrite H5, Ho3, Ho|]. intros _.
    destruct Ht as [Hs Hwf]. split; [|done]. eapply sst_file_same; [| |done]; rewrite H5, ?Ho3; done.
Qed.

(** The whole merge; the cache is judged against any part [base] of the directory that has the
    inputs and not the manifest. *)
Lemma mergeLevelFiles_ok (c : CompactionManager) (files base : gmap bytes bytes) (v : Version)
  (cache : option BlockCache) (m : Manifest) (es : list edit) (level : Z) (ls : list (list entry)) :
  v_durable files v m es -> 0 <= v_next_file_number v < 2 ^ 64 -> 0 <= level < cm_max_level c -> cm_max_level c < 2 ^ 31 ->
  let src := v_getLevelFiles v level in
  let newFile := sst_path (cm_db_path c) (level + 1) (v_next_file_number v) in
  let merged := keep_newest [] (sort_by (lt_keyed InternalKeyCompare fst) (concat ls)) in
  Forall2 (table files) src ls -> ls <> [] -> NoDup (concat ls).*1 -> weight (concat ls) < 2 ^ 30 ->
  cache_valid base cache -> (forall p, p ∈ src -> base !! p = files !! p) ->
  apart newFile (mf_path m) src -> zlen newFile + 17 <= 2 ^ 24 ->
  exists files' v' cache' m' es',
    mergeLevelFiles c (mkCS (fs_of files) v cache) level src = Some (mkCS (fs_of files') v' cache', SOk) /\
    cache_valid (filter (fun x : bytes * bytes => x.1 ∉ src) base) cache' /\
    v_durable files' v' m' es' /\ mf_path m' = mf_path m /\ (merged <> [] -> v_moved (v_nextFileNumber v).2 level newFile src v') /\
    v_getLevelFiles v' level = [] /\
    v_getLevelFiles v' (level + 1) = v_getLevelFiles v (level + 1) ++ (if decide (merged = []) then [] else [newFile]) /\
    (forall l, 0 <= l -> l <> level -> l <> level + 1 -> v_getLevelFiles v' l = v_getLevelFiles v l) /\
    (forall q, q ∈ src -> files' !! q = None) /\
    (forall q, q ∉ src -> q <> mf_path m -> q <> newFile -> q <> newFile ++ bs ".bloom" -> files' !! q = files !! q) /\
    (merged <> [] -> table files' newFile merged).
Proof.
  intros Hv Hn Hl Hmax src newFile merged Hin Hne Hnd Hw Hc Hb Hap Hname.
  set (sorted := sort_by (lt_keyed InternalKeyCompare fst) (concat ls)) in merged |- *.
  assert (sl_wf sorted) as Hwf by (apply sort_entries_wf; [by eapply table_wf|done]).
  assert (weight sorted < 2 ^ 30) as Hw' by (unfold sorted; by rewrite (weight_perm _ _ (sort_by_perm _ _))).
  destruct (load_tables_ok files base cache src ls Hin Hb Hc) as (c1 & El & Hc1).
  destruct (merge_output files newFile (cm_block_size c) sorted Hw') as (b0 & f1 & b1 & f2 & b2 & E0 & E1 & E2 & Hs & Ho).
  fold merged in E1, Hs.
  assert (table f2 newFile merged) as Ht.
  { split; [done|]. eapply sl_wf_sublist; [apply keep_newest_sublist|done]. }
  assert (src <> []) as Hsne by (intros E; rewrite E in Hin; inversion Hin; subst; done).
  unfold mergeLevelFiles. rewrite bool_decide_eq_false_2 by done. replace (level + 1 >? cm_max_level c) with false by lia.
  cbn [cs_fs cs_cache cs_version]. rewrite El. cbn [mbind option_bind]. simpl (negb (ok SOk)). cbn iota.
  fold sorted. unfold v_nextFileNumber at 1. fold newFile. rewrite E0, E1. cbn [mbind option_bind].
  simpl (negb (ok SOk)). cbn iota. rewrite E2. cbn iota. simpl (negb (ok SOk)). cbn iota.
  change (mkVersion _ _ _) with (v_nextFileNumber v).2.
  destruct (merge_install files f2 (v_nextFileNumber v).2 m es level src newFile merged (invalidateCache c1 src))
    as (f' & v' & m' & es' & -> & Hrest); try done; [|apply u64_range|lia|].
  { apply v_nextFileNumber_durable. eapply v_durable_same; [|done]. destruct Hap as (A1 & A2 & _). by apply Ho. }
  exists f', v', (invalidateCache c1 src), m', es'. split; [done|]. split; [by apply cache_valid_invalidate|exact Hrest].
Qed.

(** ** What the merged table means *)

Section Meaning.
Context (ls : list (list entry)) (Hwf : Forall wf_ikey (concat ls).*1) (Hnd : NoDup (concat ls).*1).

Definition merged_entries : list entry := keep_newest [] (sort_by (lt_keyed InternalKeyCompare fst) (concat ls)).

Lemma sorted_versions uk : versions uk (sort_by (lt_keyed InternalKeyCompare fst) (concat ls)) ≡ₚ versions uk (concat ls).
Proof. apply filter_Permutation, sort_by_perm. Qed.

(** Exactly the current version of each key is kept, and none when it is a tombstone. *)
Lemma merged_versions uk p :
  uk <> [] -> current uk (concat ls) p -> versions uk merged_entries = if IsDeletion p.1 then [] else [p].
Proof.
  intros Huk Hp. assert (sl_wf (sort_by (lt_keyed InternalKeyCompare fst) (concat ls))) as Hs by by apply sort_entries_wf.
  unfold merged_entries. rewrite keep_newest_versions; [|done|intros q _; by destruct (InternalKeyUserKey q.1)|done].
  destruct (newest uk (sort_by _ _)) as [q|] eqn:En.
  - apply newest_current in En; [|done]. apply (current_proper _ _ (concat ls)) in En; [|apply sorted_versions].
    by rewrite (current_unique _ _ _ _ Hwf Hp En).
  - destruct Hp as [Hp _]. rewrite <- sorted_versions in Hp. unfold newest in En.
    destruct (versions uk (sort_by _ _)); [by apply not_elem_of_nil in Hp|done].
Qed.

Lemma merged_no_versions uk : uk <> [] -> versions uk (concat ls) = [] -> versions uk merged_entries = [].
Proof.
  intros Huk Hn. unfold merged_entries. rewrite keep_newest_versions; [|by apply sort_entries_wf|intros q _; by destruct (InternalKeyUserKey q.1)|done].
  pose proof (sorted_versions uk) as Hp. rewrite Hn in Hp. apply Permutation_nil_r in Hp. unfold newest. by rewrite Hp.
Qed.

Lemma inputs_current uk : versions uk (concat ls) = [] \/ exists p, current uk (concat ls) p.
Proof.
  destruct (newest uk (sort_by (lt_keyed InternalKeyCompare fst) (concat ls))) as [p|] eqn:En.
  - right. exists p. eapply current_proper; [apply sorted_versions|]. apply newest_current; [by apply sort_entries_wf|done].
  - left. pose proof (sorted_versions uk) as Hp. unfold newest in En. destruct (versions uk (sort_by _ _)); [|done].
    by apply Permutation_nil in Hp.
Qed.

(** Above older data that is in order, the merged table reads like its inputs. *)
Lemma merged_reads uk older answer :
  uk <> [] -> Forall wf_ikey older.*1 -> ordered uk [concat ls; older] ->
  reads uk (concat ls ++ older) answer <-> reads uk (merged_entries ++ older) answer.
Proof.
  intros Huk Hwo (Hnew & Hdel & _). cbn [concat] in Hnew. rewrite app_nil_r in Hnew.
  destruct (inputs_current uk) as [Hn|[p Hp]].
  { assert (versions uk (concat ls ++ older) = versions uk (merged_entries ++ older)) as E
      by (by rewrite !versions_app, Hn, merged_no_versions).
    split; apply reads_proper; by rewrite E. }
  pose proof (merged_versions uk p Huk Hp) as Hm.
  assert (forall es, p ∈ versions uk es -> (forall q, q ∈ versions uk es -> q ∈ versions uk (concat ls)) -> current uk (es ++ older) p) as Hcur.
  { intros es Hin Hsub. split; [rewrite versions_app; apply elem_of_app; by left|]. intros q Hq. rewrite versions_app in Hq.
    apply elem_of_app in Hq as [Hq|Hq]; [apply Hp; by apply Hsub|right]. destruct Hp as [Hpv _].
    pose proof (versions_wf _ _ _ Hwf Hpv). pose proof (versions_wf _ _ _ Hwo Hq). specialize (Hnew p q Hpv Hq).
    apply elem_of_versions in Hpv as [_ Hpu], Hq as [_ Hqu]. apply compare_newer; [done..|congruence|lia]. }
  assert (Forall wf_ikey (concat ls ++ older).*1) as Hw1 by (rewrite fmap_app; by apply Forall_app).
  assert (reads uk (concat ls ++ older) (live p)) as H1.
  { unfold live. specialize (Hcur (concat ls) (proj1 Hp) ltac:(done)). destruct (IsDeletion p.1) eqn:Ed; [right|]; by exists p. }
  assert (Forall wf_ikey (merged_entries ++ older).*1) as Hw2.
  { rewrite fmap_app. apply Forall_app. split; [|done]. rewrite Forall_forall in Hwf |- *. intros k Hk. apply Hwf.
    assert (merged_entries ⊆+ concat ls) as Hsub.
    { etransitivity; [apply sublist_submseteq, keep_newest_sublist|]. by rewrite sort_by_perm. }
    apply list_elem_of_fmap in Hk as (x & -> & Hx). apply list_elem_of_fmap_2. by eapply elem_of_submseteq. }
  assert (reads uk (merged_entries ++ older) (live p)) as H2.
  { unfold live. destruct (IsDeletion p.1) eqn:Ed.
    - specialize (Hdel p Hp Ed). apply Forall_cons in Hdel as [Hdel _]. eapply reads_proper; [|exact Hdel].
      by rewrite versions_app, Hm.
    - exists p. split; [|done]. apply Hcur; rewrite Hm; [left|]. intros q ->%list_elem_of_singleton. apply Hp. }
  split; intros Ha; [rewrite (reads_unique _ _ _ _ Hw1 Ha H1)|rewrite (reads_unique _ _ _ _ Hw2 Ha H2)]; done.
Qed.
End Meaning.

End Codec.

(** ** Witness: two level-0 tables, a newer value and a tombstone in the second *)

Definition merge_demo_new : list entry :=
  [ (mt_ikey (bs "k1") 9 false, bs "uno"); (mt_ikey (bs "k2") 8 true, []) ].

Definition merge_demo_edits : list edit :=
  [ EAdd 0 (bs "d/level-0/1.sst") 1; EAdd 0 (bs "d/level-0/2.sst") 2 ].

Definition merge_demo_cm : CompactionManager := CompactionManager_new (bs "d") 4096 6 4.
Definition merge_demo_manifest : Manifest :=
  mkManifest (bs "d/MANIFEST") true (edits_apply no_files merge_demo_edits).
Definition merge_demo_version : Version :=
  mkVersion (edits_apply no_files merge_demo_edits) 3 (Some merge_demo_manifest).

Lemma merge_demo_wf : sl_wf merge_demo_new.
Proof. split; [repeat constructor; vm_compute; lia|]. repeat constructor; vm_compute; reflexivity. Qed.


(** A level-0 table whose footer is damaged, and the outcome of compacting level 0: the
    status, whether the file is still there, and the files of levels 0 and 1. *)
Definition compact_damaged `{Codecs} : option (Status * bool * list bytes * list bytes) :=
  let path := bs "d/level-0/1.sst" in
  let fs := fs_of {[ path := bs "a table whose footer was overwritten, its data blocks intact" ]} in
  let v := mkVersion [[new_meta path 1]; []; []] 2 None in
  '(st, s) ← compactL0 (CompactionManager_new (bs "d") 4096 6 4) (mkCS fs v None);
  Some (s, fs_exists (cs_fs st) path, v_getLevelFiles (cs_version st) 0, v_getLevelFiles (cs_version st) 1).

(** A source table that cannot be opened is skipped as if empty, and then deleted with
    the others: compacting a level whose only table is damaged succeeds and removes the file
    from disk and from the version. *)
Theorem compaction_deletes_unreadable_input :
  @compact_damaged marker_codecs = Some (SOk, false, [], []).
Proof. vm_compute. reflexivity. Qed.
