(* ===== verification/DBImpl.v ===== *)
(** * The database

    [db_impl.h/.cpp]: the write path (one group of batches at a time, log first), reads
    through memtable, frozen memtables and tables, freezing and flushing of memtables,
    recovery, iterators.  Each function here is one critical section of the source, or the
    work of one background step ([flush_step], [db_compact_step]) run to completion.

    A [shared_ptr<MemTable>] is a memtable with the number of its allocation, since
    [flushOne] finds the memtable to drop by pointer equality; frozen memtables never
    change, so copies of one pointer agree.  The levels the skip list draws for the puts to
    come are the list [ms_coins].  [mkdir], logging and the condition variables are not
    modelled; how writers form a group is in [GroupCommit]. *)

From Stdlib Require Import ZArith Lia.
From stdpp Require Import base numbers strings list gmap.
From S2P Require Import Prelude CppString Coding Slice InternalKey SkipHeap SkipList Versions MemTable Bloom Block.
From S2P Require Import Caches Compression FileSystem SSTable Wal Manifest Merging Compaction.
Local Open Scope Z_scope.

(** ** State *)

Abbreviation MemPtr := (nat * MemTable)%type.

Record FlushEntry := mkFE { fe_memtable : MemPtr; fe_wals : list bytes }.

(** The log files of the database. *)
Record Logs := mkLogs {
  lg_wal : option WAL;
  lg_current : bytes;
  lg_obsolete : list bytes;
}.

(** Its memtables. *)
Record Mems := mkMems {
  ms_memtable : option MemPtr;
  ms_immutable : list MemPtr;
  ms_queue : list FlushEntry;
  ms_next : nat;
  ms_coins : list (list bool);
}.

Record DB := mkDB {
  db_options : Options;
  db_dir : bytes;
  db_logs : Logs;
  db_mems : Mems;
  db_seq : Z;
  db_version : Version;
  db_cache : option BlockCache;
  db_compaction : option CompactionManager;
  db_flush_running : bool;
}.

Definition with_logs (db : DB) (l : Logs) : DB :=
  mkDB (db_options db) (db_dir db) l (db_mems db) (db_seq db) (db_version db) (db_cache db) (db_compaction db)
       (db_flush_running db).
Definition with_mems (db : DB) (m : Mems) : DB :=
  mkDB (db_options db) (db_dir db) (db_logs db) m (db_seq db) (db_version db) (db_cache db) (db_compaction db)
       (db_flush_running db).
Definition with_seq (db : DB) (s : Z) : DB :=
  mkDB (db_options db) (db_dir db) (db_logs db) (db_mems db) s (db_version db) (db_cache db) (db_compaction db)
       (db_flush_running db).
Definition with_version (db : DB) (v : Version) : DB :=
  mkDB (db_options db) (db_dir db) (db_logs db) (db_mems db) (db_seq db) v (db_cache db) (db_compaction db)
       (db_flush_running db).
Definition with_cache (db : DB) (c : option BlockCache) : DB :=
  mkDB (db_options db) (db_dir db) (db_logs db) (db_mems db) (db_seq db) (db_version db) c (db_compaction db)
       (db_flush_running db).
Definition with_compaction (db : DB) (c : option CompactionManager) : DB :=
  mkDB (db_options db) (db_dir db) (db_logs db) (db_mems db) (db_seq db) (db_version db) (db_cache db) c
       (db_flush_running db).
Definition with_running (db : DB) (b : bool) : DB :=
  mkDB (db_options db) (db_dir db) (db_logs db) (db_mems db) (db_seq db) (db_version db) (db_cache db)
       (db_compaction db) b.

(** [DBImpl::DBImpl] *)
Definition DBImpl_new (options : Options) (coins : list (list bool)) : DB :=
  let dir := if bool_decide (db_path options = []) then bs "./minikv_data" else db_path options in
  mkDB options dir (mkLogs None [] []) (mkMems None [] [] 0 coins) 0 Version_new
       (if lru_cache_capacity options >? 0 then Some (BlockCache_new (lru_cache_capacity options)) else None)
       None true.

(** [std::make_shared<MemTable>(options_.memtable_size)] into [memtable_]. *)
Definition install_memtable (db : DB) : DB :=
  let ms := db_mems db in
  with_mems db (mkMems (Some (ms_next ms, MemTable_new (memtable_size (db_options db)))) (ms_immutable ms)
                       (ms_queue ms) (S (ms_next ms)) (ms_coins ms)).

(** [memtable_->put(...)]; no memtable is a null pointer. *)
Definition memtable_put (db : DB) (key value : bytes) (seq : Z) (isDelete : bool) : option DB :=
  let ms := db_mems db in
  '(id, m) ← ms_memtable ms;
  m ← mt_put m key value seq isDelete (default [] (head (ms_coins ms)));
  Some (with_mems db (mkMems (Some (id, m)) (ms_immutable ms) (ms_queue ms) (ms_next ms) (tail (ms_coins ms)))).

(** ** Log files *)

Definition makeWalPath (db : DB) (file_number : Z) : bytes :=
  db_dir db ++ bs "/wal-" ++ to_string file_number ++ bs ".log".

(** The names [readdir] lists in a directory. *)
Definition readdir (fs : FS) (dir : bytes) : list bytes :=
  let pre := dir ++ bs "/" in
  omap (fun kv : bytes * bytes =>
          if decide (take (length pre) kv.1 = pre)
          then let name := drop (length pre) kv.1 in
               if bool_decide (z2b 47 ∈ name) then None else Some name
          else None) (map_to_list (fs_files fs)).

(** [strtoull] on a run of digits: it saturates. *)
Definition strtoull_digits (s : bytes) : Z :=
  foldl (fun a c => Z.min (2 ^ 64 - 1) (a * 10 + (b2z c - 48))) 0 s.

Fixpoint span_digits (s : bytes) : bytes * bytes :=
  match s with
  | [] => ([], [])
  | c :: s' => if is_digit c then let '(a, b) := span_digits s' in (c :: a, b) else ([], s)
  end.

(** The number of a name of the form wal-<digits>.log *)
Definition wal_number (name : bytes) : option Z :=
  if negb (bool_decide (take 4 name = bs "wal-")) then None
  else
    let '(digits, rest) := span_digits (drop 4 name) in
    if bool_decide (digits = []) then None
    else if bool_decide (rest = bs ".log") then Some (strtoull_digits digits) else None.

Definition listWalFiles (fs : FS) (db : DB) : list (Z * bytes) :=
  let legacy := db_dir db ++ bs "/wal.log" in
  let out := match fs_read fs legacy with Some (_ :: _) => [(0, legacy)] | _ => [] end in
  let found := omap (fun name => n ← wal_number name; Some (n, db_dir db ++ bs "/" ++ name))
                    (readdir fs (db_dir db)) in
  sort_by (lt_keyed Z.compare fst) (out ++ found).

Definition openWal (fs : FS) (db : DB) (file_number : Z) : FS * DB * Status :=
  let db := with_version db (v_ensureNextFileNumberAtLeast (db_version db) (u64 (file_number + 1))) in
  let path := makeWalPath db file_number in
  let '(fs, w) := WAL_new fs path in
  (fs, with_logs db (mkLogs (Some w) path (lg_obsolete (db_logs db))), SOk).

Definition rotateWal (fs : FS) (db : DB) : FS * DB * Status :=
  let '(n, v) := v_nextFileNumber (db_version db) in
  let new_path := makeWalPath db n in
  let db := with_version db (v_ensureNextFileNumberAtLeast v (u64 (n + 1))) in
  let '(fs, new_wal) := WAL_new fs new_path in
  let lg := db_logs db in
  let fs := match lg_wal lg with Some w => (wal_sync fs w).1 | None => fs end in
  let obsolete := if bool_decide (lg_current lg = []) then lg_obsolete lg else lg_obsolete lg ++ [lg_current lg] in
  (fs, with_logs db (mkLogs (Some new_wal) new_path obsolete), SOk).

(** ** Records of the log *)

(** One operation as [doWriteGroup] writes it. *)
Definition encode_op (op : BatchOp) : bytes :=
  z2b (BatchOpType_code (op_type op)) :: encodeFixed32 (u32 (zlen (op_key op))) ++
  encodeFixed32 (u32 (zlen (op_value op))) ++ op_key op ++ op_value op.

Definition encode_batch (b : WriteBatch) : bytes := concat (encode_op <$> b).

(** [while (p < end)] of [replayWalFile]: a read past the record is undefined behaviour.
    Every round consumes at least nine bytes. *)
Fixpoint replay_ops (fuel : nat) (p : bytes) (db : DB) : option DB :=
  match fuel, p with
  | _, [] => Some db
  | O, _ => Some db
  | S fuel, type :: p =>
      keyLen ← decodeFixed32 p;
      let p := drop 4 p in
      valLen ← decodeFixed32 p;
      let p := drop 4 p in
      if zlen p <? keyLen + valLen then None
      else
        let key := take (Z.to_nat keyLen) p in
        let p := drop (Z.to_nat keyLen) p in
        let value := take (Z.to_nat valLen) p in
        let p := drop (Z.to_nat valLen) p in
        db ← memtable_put db key value (db_seq db) (b2z type =? 2);
        replay_ops fuel p (with_seq db (u64 (db_seq db + 1)))
  end.

Fixpoint replay_records (records : list bytes) (db : DB) : option DB :=
  match records with
  | [] => Some db
  | r :: records => db ← replay_ops (S (length r)) r db; replay_records records db
  end.

Definition replayWalFile (fs : FS) (db : DB) (path : bytes) : option (FS * DB * Status) :=
  let '(fs, w) := WAL_new fs path in
  db ← replay_records (wal_replay fs w) db;
  Some (fs, db, SOk).

(** ** Recovery *)

Definition live_paths (m : Manifest) : list bytes := sm_path <$> concat (mf_levels m).

Definition is_orphan (live : list bytes) (dir_path name : bytes) : bool :=
  let full := dir_path ++ bs "/" ++ name in
  negb (bool_decide (head name = Some (z2b 46))) &&
  negb (zlen full <? 4) && bool_decide (drop (length full - 4) full = bs ".sst") &&
  negb (bool_decide (full ∈ live)).

Definition purge_level (live : list bytes) (dir : bytes) (fs : FS) (level : nat) : FS :=
  let dir_path := dir ++ bs "/level-" ++ to_string (Z.of_nat level) in
  foldl (fun fs name => if is_orphan live dir_path name then (fs_unlink fs (dir_path ++ bs "/" ++ name)).1 else fs)
        fs (readdir fs dir_path).

Definition purgeOrphanSSTables (fs : FS) (db : DB) (m : Manifest) : FS :=
  foldl (purge_level (live_paths m) (db_dir db)) fs (seq 0 (Z.to_nat (max_level (db_options db) + 1))).

Fixpoint replay_wals (fs : FS) (db : DB) (wals : list (Z * bytes)) : option (FS * DB * Status) :=
  match wals with
  | [] => Some (fs, db, SOk)
  | (num, path) :: wals =>
      let db := with_version db (v_ensureNextFileNumberAtLeast (db_version db) (u64 (num + 1))) in
      '(fs, db, rs) ← replayWalFile fs db path;
      if negb (ok rs) then Some (fs, db, rs) else replay_wals fs db wals
  end.

Definition recover (fs : FS) (db : DB) : option (FS * DB * Status) :=
  '(fs, m, ms) ← mf_open fs (Manifest_new (db_dir db));
  if negb (ok ms) then Some (fs, db, ms)
  else
    let v := v_restoreFrom (v_setManifest (db_version db) m) (mf_levels m) in
    let fs := purgeOrphanSSTables fs db m in
    let '(fs, m, snap) := mf_rewriteSnapshot fs m in
    let db := with_version db (v_setManifest v m) in
    if negb (ok snap) then Some (fs, db, snap)
    else
      let db := install_memtable db in
      let wals := listWalFiles fs db in
      '(fs, db, rs) ← replay_wals fs db wals;
      if negb (ok rs) then Some (fs, db, rs)
      else
        match last wals with
        | None =>
            let '(n, v) := v_nextFileNumber (db_version db) in
            Some (openWal fs (with_version db v) n)
        | Some (_, path) =>
            let '(fs, w) := WAL_new fs path in
            Some (fs, with_logs db (mkLogs (Some w) path (snd <$> take (length wals - 1) wals)), SOk)
        end.

Definition db_open (fs : FS) (options : Options) (coins : list (list bool)) : option (FS * DB * Status) :=
  '(fs, db, s) ← recover fs (DBImpl_new options coins);
  if negb (ok s) then Some (fs, db, s)
  else
    let cm := CompactionManager_new (db_dir db) (block_size options) (max_level options)
                (level0_compaction_trigger options) in
    Some (fs, with_compaction db (Some (cm_start cm)), SOk).

(** ** Writes *)

Record GroupEntry := mkGE { ge_batch : WriteBatch; ge_sync : bool }.

(** The sequence number each batch reserves, and the counter after all of them. *)
Fixpoint reserve_seqs (seq : Z) (group : list GroupEntry) : list Z * Z :=
  match group with
  | [] => ([], seq)
  | e :: group => let '(bases, s) := reserve_seqs (u64 (seq + batch_count (ge_batch e))) group in (seq :: bases, s)
  end.

Fixpoint apply_batch (db : DB) (currentSeq : Z) (b : WriteBatch) : option DB :=
  match b with
  | [] => Some db
  | op :: b =>
      let opSeq := u64 (currentSeq + 1) in
      db ← memtable_put db (op_key op) (op_value op) opSeq (bool_decide (op_type op = bDelete));
      apply_batch db opSeq b
  end.

Fixpoint apply_group (db : DB) (bases : list Z) (group : list GroupEntry) : option DB :=
  match bases, group with
  | base :: bases, e :: group => db ← apply_batch db base (ge_batch e); apply_group db bases group
  | _, _ => Some db
  end.

(** Freezing a full memtable. *)
Definition maybeFlush (fs : FS) (db : DB) : option (FS * DB) :=
  to_flush ← ms_memtable (db_mems db);
  if negb (mt_shouldFlush to_flush.2) then Some (fs, db)
  else
    let '(fs, db, _) := rotateWal fs db in
    let db := install_memtable db in
    let lg := db_logs db in
    let wals := lg_obsolete lg in
    let db := with_logs db (mkLogs (lg_wal lg) (lg_current lg) []) in
    let ms := db_mems db in
    Some (fs, with_mems db (mkMems (ms_memtable ms) (ms_immutable ms ++ [to_flush])
                                   (ms_queue ms ++ [mkFE to_flush wals]) (ms_next ms) (ms_coins ms))).

(** The log write of a group; no error when the log is disabled. *)
Definition log_group (fs : FS) (db : DB) (group : list GroupEntry) : FS * Status :=
  match lg_wal (db_logs db) with
  | None => (fs, SOk)
  | Some w =>
      let data := concat (encode_batch ∘ ge_batch <$> group) in
      let '(fs, ws) := wal_append fs w data in
      if negb (ok ws) then (fs, ws)
      else if Slice.wal_sync (db_options db) && existsb ge_sync group then wal_sync fs w
      else (fs, SOk)
  end.

Definition doWriteGroup (fs : FS) (db : DB) (group : list GroupEntry) : option (FS * DB * Status) :=
  if bool_decide (group = []) then Some (fs, db, SOk)
  else
    let '(bases, seq) := reserve_seqs (db_seq db) group in
    let db := with_seq db seq in
    let '(fs, s) := log_group fs db group in
    if negb (ok s) then Some (fs, db, s)
    else
      db ← apply_group db bases group;
      '(fs, db) ← maybeFlush fs db;
      Some (fs, db, SOk).

Definition db_put (fs : FS) (db : DB) (sync : bool) (key value : bytes) : option (FS * DB * Status) :=
  doWriteGroup fs db [mkGE (batch_put [] key value) sync].

Definition db_del (fs : FS) (db : DB) (sync : bool) (key : bytes) : option (FS * DB * Status) :=
  doWriteGroup fs db [mkGE (batch_del [] key) sync].

(** ** Reads *)

(** The loop over the frozen memtables, already in reverse order. *)
Fixpoint get_mems (ms : list MemPtr) (key : bytes) (snapshot_seq : Z) : option (option bytes) :=
  match ms with
  | [] => Some None
  | (_, m) :: ms =>
      r ← mt_get m key snapshot_seq;
      match r with Some v => Some (Some v) | None => get_mems ms key snapshot_seq end
  end.

(** The loop over table files; an unreadable table is skipped. *)
Fixpoint get_tables `{Codecs} (fs : FS) (cache : option BlockCache) (paths : list bytes) (key : bytes)
  : option (option BlockCache * option bytes) :=
  match paths with
  | [] => Some (cache, None)
  | path :: paths =>
      r ← sr_open fs path;
      match r with
      | None => get_tables fs cache paths key
      | Some r =>
          '(cache, v) ← sr_get r cache key;
          match v with
          | Some v => Some (cache, Some v)
          | None => get_tables fs cache paths key
          end
      end
  end.

(** The table files in the order [get] visits them: level by level. *)
Definition read_order (db : DB) : list bytes :=
  concat ((fun l => v_getLevelFiles (db_version db) (Z.of_nat l)) <$> seq 0 (Z.to_nat (max_level (db_options db) + 1))).

(** The status and, on success, the value stored through the out parameter. *)
Definition db_get `{Codecs} (fs : FS) (db : DB) (key : bytes) : option (DB * Status * option bytes) :=
  let ms := db_mems db in
  let snapshot_seq := db_seq db in
  r ← (match ms_memtable ms with Some p => get_mems [p] key snapshot_seq | None => Some None end);
  match r with
  | Some v => Some (db, SOk, Some v)
  | None =>
      r ← get_mems (reverse (ms_immutable ms)) key snapshot_seq;
      match r with
      | Some v => Some (db, SOk, Some v)
      | None =>
          '(cache, r) ← get_tables fs (db_cache db) (read_order db) key;
          Some (with_cache db cache, match r with Some _ => SOk | None => SNotFound [] end, r)
      end
  end.

(** ** Flushing *)

(** [std::find] by pointer, then [erase]. *)
Fixpoint erase_ptr (id : nat) (l : list MemPtr) : list MemPtr :=
  match l with
  | [] => []
  | p :: l => if decide (p.1 = id) then l else p :: erase_ptr id l
  end.

Definition drop_immutable (db : DB) (id : nat) : DB :=
  let ms := db_mems db in
  with_mems db (mkMems (ms_memtable ms) (erase_ptr id (ms_immutable ms)) (ms_queue ms) (ms_next ms) (ms_coins ms)).

Definition flushOne `{Codecs} (fs : FS) (db : DB) (flushing : MemPtr) (wals : list bytes)
  : option (FS * DB * Status) :=
  e ← mt_empty flushing.2;
  if (e : bool) then Some (unlink_all fs wals, drop_immutable db flushing.1, SOk)
  else
    entries ← mt_entries flushing.2;
    let '(n, v) := v_nextFileNumber (db_version db) in
    let filePath := db_dir db ++ bs "/level-0/" ++ to_string n ++ bs ".sst" in
    let '(fs, b) := SSTableBuilder_new fs filePath (block_size (db_options db)) (compression (db_options db)) in
    '(fs, b) ← sb_add_all fs b entries;
    let '(fs, b, _) := sb_finish fs b in
    '(fs, v) ← v_addLevelFile fs v 0 filePath;
    let db := drop_immutable (with_version db v) flushing.1 in
    Some (sb_destroy (unlink_all fs wals) b, db, SOk).

(** One round of [flushLoop] with work to do: a failed flush goes back to the front. *)
Definition flush_step `{Codecs} (fs : FS) (db : DB) : option (FS * DB) :=
  match ms_queue (db_mems db) with
  | [] => Some (fs, db)
  | e :: q =>
      let ms := db_mems db in
      let db := with_mems db (mkMems (ms_memtable ms) (ms_immutable ms) q (ms_next ms) (ms_coins ms)) in
      '(fs, db, s) ← flushOne fs db (fe_memtable e) (fe_wals e);
      if ok s then Some (fs, db)
      else
        let ms := db_mems db in
        Some (fs, with_mems db (mkMems (ms_memtable ms) (ms_immutable ms) (e :: ms_queue ms) (ms_next ms) (ms_coins ms)))
  end.

(** [waitFlush]: the flush thread drains its queue; [n] bounds the rounds. *)
Fixpoint waitFlush `{Codecs} (n : nat) (fs : FS) (db : DB) : option (FS * DB) :=
  match n, ms_queue (db_mems db) with
  | _, [] => Some (fs, db)
  | O, _ => Some (fs, db)
  | S n, _ => '(fs, db) ← flush_step fs db; waitFlush n fs db
  end.

(** ** Compaction, iteration, shutdown *)

Definition db_compact (db : DB) : DB := with_compaction db (cm_triggerCompaction <$> db_compaction db).

(** One pass of the compaction thread over the database. *)
Definition db_compact_step `{Codecs} (fs : FS) (db : DB) : option (FS * DB) :=
  match db_compaction db with
  | None => Some (fs, db)
  | Some cm =>
      '(cm, st) ← compaction_tick cm (mkCS fs (db_version db) (db_cache db));
      Some (cs_fs st, with_compaction (with_cache (with_version db (cs_version st)) (cs_cache st)) (Some cm))
  end.

Fixpoint mem_iters (ms : list MemPtr) : option (list VecIter) :=
  match ms with
  | [] => Some []
  | (_, m) :: ms =>
      es ← mt_entries m;
      rest ← mem_iters ms;
      Some (vi_seekToFirst (MemTableIterator_new es) :: rest)
  end.

Fixpoint table_iters `{Codecs} (fs : FS) (cache : option BlockCache) (paths : list bytes)
  : option (option BlockCache * list VecIter) :=
  match paths with
  | [] => Some (cache, [])
  | path :: paths =>
      r ← sr_open fs path;
      match r with
      | None => table_iters fs cache paths
      | Some r =>
          '(cache, i) ← SSTableIterator_new r cache;
          '(cache, rest) ← table_iters fs cache paths;
          Some (cache, vi_seekToFirst i :: rest)
      end
  end.

Definition newIterator `{Codecs} (fs : FS) (db : DB) : option (DB * MergingIterator (I := VecIter)) :=
  let ms := db_mems db in
  mems ← mem_iters (option_list (ms_memtable ms) ++ reverse (ms_immutable ms));
  '(cache, tables) ← table_iters fs (db_cache db) (read_order db);
  Some (with_cache db cache, mi_seekToFirst (MergingIterator_new (mems ++ tables))).

(** [DBImpl::~DBImpl]: sync the log, stop the threads, drain the flush queue. *)
Definition db_close `{Codecs} (fs : FS) (db : DB) : option (FS * DB) :=
  let fs := match lg_wal (db_logs db) with Some w => (wal_sync fs w).1 | None => fs end in
  let db := with_compaction db (cm_stop <$> db_compaction db) in
  waitFlush (length (ms_queue (db_mems db))) fs (with_running db false).
