(* ===== verification/DBProofs.v ===== *)
(** * The database: reads, writes, recovery, flushing *)

From Stdlib Require Import ZArith Lia.
From stdpp Require Import base numbers strings list gmap.
From S2P Require Import Prelude CppString Coding Slice InternalKey SkipHeap SkipList Versions MemTable Bloom Block.
From S2P Require Import Caches Compression FileSystem SSTable SSTableProofs Wal Manifest ManifestProofs.
From S2P Require Import Merging Compaction CompactionProofs DBImpl.
Local Open Scope Z_scope.

(** ** What a database holds *)

(** The current memtable holds [l], the frozen ones, oldest first, [imms]. *)
Record db_rep (db : DB) (l : list entry) (imms : list (list entry)) : Prop := {
  dr_memtable : exists id m, ms_memtable (db_mems db) = Some (id, m) /\ mt_rep m l /\
                             mt_max_size m = memtable_size (db_options db);
  dr_immutable : Forall2 (fun p l => mt_rep (snd p) l) (ms_immutable (db_mems db)) imms;
}.

(** The answer of a stack of layers, newest first: the first one with a live version. *)
Fixpoint first_live (uk : bytes) (layers : list (list entry)) : option bytes :=
  match layers with
  | [] => None
  | l :: layers => match visible uk l with Some v => Some v | None => first_live uk layers end
  end.

Lemma first_live_app uk ls1 ls2 :
  first_live uk (ls1 ++ ls2) = match first_live uk ls1 with Some v => Some v | None => first_live uk ls2 end.
Proof. induction ls1 as [|l ls1 IH]; [done|]. simpl. by destruct (visible uk l). Qed.

Lemma first_live_none uk ls : Forall (fun l => visible uk l = None) ls -> first_live uk ls = None.
Proof. induction 1 as [|l ls Hl _ IH]; [done|]. simpl. by rewrite Hl. Qed.

(** ** Reads *)

Lemma get_mems_ok ps ls uk seq :
  Forall2 (fun p l => mt_rep (snd p) l) ps ls -> get_mems ps uk seq = Some (first_live uk ls).
Proof.
  induction 1 as [|[id m] l ps ls Hp _ IH]; [done|]. simpl in *.
  rewrite (mt_get_rep _ _ uk seq Hp). simpl. by destruct (visible uk l).
Qed.

Section Codec.
Context `{HC : Codecs}.

(** The cache is judged against any part [base] of the directory that has the tables. *)
Lemma get_tables_ok files base cache paths ls uk :
  Forall2 (table files) paths ls -> (forall p, p ∈ paths -> base !! p = files !! p) -> cache_valid base cache ->
  exists cache', get_tables (fs_of files) cache paths uk = Some (cache', first_live uk ls) /\ cache_valid base cache'.
Proof.
  intros Hall. revert cache. induction Hall as [|p l paths ls [Hs Hwf] _ IH]; intros cache Hb Hc; cbn [get_tables first_live].
  { by exists cache. }
  destruct (sst_file_open _ _ _ Hs) as (r & fbs & -> & Hr & <- & Hf). rewrite <- (Hb p ltac:(left)) in Hf.
  destruct (sr_get_ok base r p fbs cache uk Hr Hf Hc Hwf) as (c1 & Hg & Hc1). cbn [mbind option_bind].
  rewrite Hg. cbn [mbind option_bind]. destruct (visible uk (rows_of fbs)) as [v|]; [by exists c1|].
  apply IH; [|done]. intros q Hq. apply Hb. by right.
Qed.

Lemma db_get_base (files base : gmap bytes bytes) (db : DB) (l : list entry) (imms tables : list (list entry)) (uk : bytes) :
  db_rep db l imms -> Forall2 (table files) (read_order db) tables ->
  (forall p, p ∈ read_order db -> base !! p = files !! p) -> cache_valid base (db_cache db) ->
  let answer := first_live uk (l :: reverse imms ++ tables) in
  exists cache', cache_valid base cache' /\
    db_get (fs_of files) db uk =
      Some (with_cache db cache', match answer with Some _ => SOk | None => SNotFound [] end, answer).
Proof.
  intros [(id & m & Hm & Hl & _) Hi] Ht Hb Hc. simpl. unfold db_get. rewrite Hm.
  rewrite (get_mems_ok [(id, m)] [l]) by by repeat constructor. cbn [mbind option_bind first_live].
  destruct (visible uk l) as [v|]; [exists (db_cache db); split; [done|by destruct db]|].
  rewrite (get_mems_ok (reverse _) (reverse imms)) by by apply Forall2_reverse.
  cbn [mbind option_bind]. rewrite first_live_app.
  destruct (first_live uk (reverse imms)) as [v|]; [exists (db_cache db); split; [done|by destruct db]|].
  destruct (get_tables_ok files base (db_cache db) (read_order db) tables uk Ht Hb Hc) as (c' & -> & Hc').
  cbn [mbind option_bind]. by exists c'.
Qed.

Lemma db_get_ok (files : gmap bytes bytes) (db : DB) (l : list entry) (imms tables : list (list entry)) (uk : bytes) :
  db_rep db l imms -> Forall2 (table files) (read_order db) tables -> cache_valid files (db_cache db) ->
  let answer := first_live uk (l :: reverse imms ++ tables) in
  exists cache', cache_valid files cache' /\
    db_get (fs_of files) db uk =
      Some (with_cache db cache', match answer with Some _ => SOk | None => SNotFound [] end, answer).
Proof. intros Hr Ht Hc. by apply db_get_base. Qed.

(** The tables of each level of the version. *)
Definition level_tables (files : gmap bytes bytes) (db : DB) (tabs : list (list (list entry))) : Prop :=
  Forall2 (fun i ts => Forall2 (table files) (v_getLevelFiles (db_version db) (Z.of_nat i)) ts)
    (seq 0 (Z.to_nat (max_level (db_options db) + 1))) tabs.

Lemma level_tables_read files db tabs : level_tables files db tabs -> Forall2 (table files) (read_order db) (concat tabs).
Proof.
  unfold level_tables, read_order. generalize (seq 0 (Z.to_nat (max_level (db_options db) + 1))). intros ns Ht.
  induction Ht as [|i ts ns tabs Hts _ IH]; [constructor|]. cbn [fmap list_fmap concat]. by apply Forall2_app.
Qed.

Lemma first_live_silent uk layers : Forall sl_wf layers -> Forall (fun l => reads uk l None) layers -> first_live uk layers = None.
Proof.
  intros Hls Hr. apply first_live_none. induction Hr as [|l ls Hr _ IH]; constructor; apply Forall_cons in Hls as [Hl Hls]; [|by apply IH].
  apply (reads_unique uk l); [apply Hl|by apply visible_reads|done].
Qed.

Lemma tables_sorted files paths tables : Forall2 (table files) paths tables -> Forall sl_wf tables.
Proof. intros Ht. eapply Forall2_Forall_r; [exact Ht|]. apply Forall_true. by intros q l' [_ ?]. Qed.

(** In a stack of sorted layers in which the key is in order, the first live version is the
    current one. *)
Lemma first_live_reads uk layers :
  Forall sl_wf layers -> ordered uk layers -> reads uk (concat layers) (first_live uk layers).
Proof.
  induction 1 as [|l layers Hl Hls IH]; [intros _; by left|]. intros (H1 & H2 & H3). specialize (IH H3). cbn [concat first_live].
  pose proof (visible_reads uk l Hl) as Hv. unfold visible in *.
  destruct (newest uk l) as [p|] eqn:En; cbn [mbind option_bind] in *.
  2:{ eapply reads_proper; [|exact IH]. rewrite versions_app. unfold newest in En. by destruct (versions uk l). }
  pose proof (newest_current uk l p Hl En) as Hc.
  assert (current uk (l ++ concat layers) p) as Hcur.
  { destruct Hc as [Hp Hmax]. split; [rewrite versions_app; apply elem_of_app; by left|].
    intros q Hq. rewrite versions_app in Hq. apply elem_of_app in Hq as [Hq|Hq]; [by apply Hmax|right].
    assert (Forall wf_ikey (concat layers).*1) as Hwl.
    { clear -Hls. induction Hls as [|l ls [Hw _] _ IH]; [constructor|]. cbn [concat]. rewrite fmap_app. by apply Forall_app. }
    pose proof (versions_wf _ _ _ (proj1 Hl) Hp). pose proof (versions_wf _ _ _ Hwl Hq).
    apply elem_of_versions in Hp as Hp', Hq as Hq'. apply compare_newer; [done..|destruct Hp', Hq'; congruence|].
    specialize (H1 p q Hp Hq). lia. }
  unfold live in *. destruct (IsDeletion p.1) eqn:Ed; [|by exists p].
  rewrite first_live_silent; [right; by exists p|done|]. by eapply H2.
Qed.

Lemma db_get_current (files : gmap bytes bytes) (db : DB) (l : list entry) (imms : list (list entry))
  (tabs : list (list (list entry))) (uk : bytes) :
  db_rep db l imms -> level_tables files db tabs -> cache_valid files (db_cache db) ->
  Forall (one_table uk) tabs -> ordered uk (l :: reverse imms ++ (@concat entry <$> tabs)) ->
  exists cache' answer, cache_valid files cache' /\
    db_get (fs_of files) db uk =
      Some (with_cache db cache', match answer with Some _ => SOk | None => SNotFound [] end, answer) /\
    reads uk (l ++ concat imms ++ concat (concat tabs)) answer.
Proof.
  intros Hr Ht Hc Hone Hord. apply level_tables_read in Ht.
  destruct (db_get_ok files db l imms (concat tabs) uk Hr Ht Hc) as (c' & Hc' & Hg).
  exists c', (first_live uk (l :: reverse imms ++ concat tabs)). split; [done|]. split; [done|].
  eapply reads_proper; [|apply first_live_reads].
  - cbn [concat]. rewrite !concat_app, !versions_app. apply Permutation_app_head, Permutation_app_tail.
    apply filter_Permutation. by rewrite reverse_Permutation.
  - destruct Hr as [(id & m & _ & Hl & _) Hi]. constructor; [by apply (mt_rep_wf m)|]. apply Forall_app. split.
    + apply Forall_reverse. eapply Forall2_Forall_r; [exact Hi|]. apply Forall_true. intros q l' Hq. by apply (mt_rep_wf _ _ Hq).
    + by eapply tables_sorted.
  - by apply (ordered_levels uk (l :: reverse imms)).
Qed.

(** C9: a read returns the current version of the key.  The database holds a current memtable,
    frozen memtables (oldest first) and the tables of each level; [reads] says what all their
    entries together mean for a key, with no regard to where they are: the value of the
    version with the greatest sequence number, nothing if that is a tombstone or if there is
    none.  [get] returns exactly this for every key that is in order in the stack of the
    memtable, the frozen memtables from newest to oldest, and the levels (newer above older,
    and no live version below a tombstone) and of which each level has at most one table with
    versions.  It changes nothing but the block cache, which stays current.  The two
    conditions cannot be dropped: [db_deleted_key_resurrects], [db_level0_reads_stale]. *)
Theorem db_get_layers (files : gmap bytes bytes) (db : DB) (l : list entry) (imms : list (list entry))
  (tabs : list (list (list entry))) (uk : bytes) :
  db_rep db l imms -> level_tables files db tabs -> cache_valid files (db_cache db) ->
  Forall (one_table uk) tabs -> ordered uk (l :: reverse imms ++ (@concat entry <$> tabs)) ->
  exists cache' answer, cache_valid files cache' /\
    db_get (fs_of files) db uk =
      Some (with_cache db cache', match answer with Some _ => SOk | None => SNotFound [] end, answer) /\
    reads uk (l ++ concat imms ++ concat (concat tabs)) answer.
Proof. apply db_get_current. Qed.
End Codec.

(** ** Writes *)

Definition group_ops (group : list GroupEntry) : list BatchOp := concat (ge_batch <$> group).
Definition group_data (group : list GroupEntry) : bytes := concat (encode_batch ∘ ge_batch <$> group).

(** The writes of a sequence of operations numbered from [seq + 1]. *)
Fixpoint op_writes (seq : Z) (ops : list BatchOp) : list Write :=
  match ops with
  | [] => []
  | op :: ops => mkWrite (op_key op) (op_value op) (seq + 1) (bool_decide (op_type op = bDelete)) :: op_writes (seq + 1) ops
  end.

Lemma op_writes_app seq ops1 ops2 : op_writes seq (ops1 ++ ops2) = op_writes seq ops1 ++ op_writes (seq + zlen ops1) ops2.
Proof.
  revert seq. induction ops1 as [|op ops1 IH]; intros seq; simpl; [by rewrite zlen_nil, Z.add_0_r|].
  rewrite IH, zlen_cons. do 3 f_equal. lia.
Qed.

Lemma op_writes_seqs seq ops : -1 <= seq -> seq + zlen ops < 2 ^ 56 -> seqs_from seq (op_writes seq ops).
Proof.
  revert seq. induction ops as [|op ops IH]; intros seq H1 H2; [done|]. rewrite zlen_cons in H2. pose proof (zlen_nonneg ops).
  simpl. split; [lia|]. apply IH; lia.
Qed.

(** [db'] differs from [db] in the current memtable and the coins only. *)
Definition mem_step (db db' : DB) : Prop :=
  exists p coins, db' = with_mems db (mkMems p (ms_immutable (db_mems db)) (ms_queue (db_mems db)) (ms_next (db_mems db)) coins).

Lemma mem_step_trans db1 db2 db3 : mem_step db1 db2 -> mem_step db2 db3 -> mem_step db1 db3.
Proof. intros (p & c & ->) (p' & c' & ->). by exists p', c'. Qed.

Lemma mem_step_refl db : mem_step db db.
Proof. exists (ms_memtable (db_mems db)), (ms_coins (db_mems db)). by destruct db as [? ? ? []]. Qed.

Lemma memtable_put_ok db l imms k v seq del :
  db_rep db l imms ->
  exists db', memtable_put db k v seq del = Some db' /\ db_rep db' (mt_insert k v seq del l) imms /\ mem_step db db'.
Proof.
  intros [(id & m & Hm & Hl & Hmax) Hi]. unfold memtable_put. rewrite Hm. cbn [mbind option_bind].
  destruct (mt_put_rep m l k v seq del (default [] (head (ms_coins (db_mems db)))) Hl) as (m' & -> & Hl' & Hmax').
  cbn [mbind option_bind]. eexists. split; [done|]. split; [|by do 2 eexists].
  split; [|done]. exists id, m'. split; [done|]. split; [done|]. by rewrite Hmax'.
Qed.

Lemma apply_batch_ok b db l imms seq :
  db_rep db l imms -> 0 <= seq -> seq + zlen b < 2 ^ 56 ->
  exists db', apply_batch db seq b = Some db' /\ db_rep db' (mt_inserts (op_writes seq b) l) imms /\ mem_step db db'.
Proof.
  revert db l seq. induction b as [|op b IH]; intros db l seq Hr H0 H1; cbn [apply_batch op_writes].
  { exists db. split; [done|]. split; [done|apply mem_step_refl]. }
  rewrite zlen_cons in H1. pose proof (zlen_nonneg b). rewrite u64_small by lia.
  destruct (memtable_put_ok db l imms (op_key op) (op_value op) (seq + 1) (bool_decide (op_type op = bDelete)) Hr)
    as (db1 & -> & Hr1 & Hs1). cbn [mbind option_bind].
  destruct (IH db1 _ (seq + 1) Hr1) as (db2 & -> & Hr2 & Hs2); [lia..|].
  exists db2. split; [done|]. split; [done|]. by eapply mem_step_trans.
Qed.

Lemma apply_group_ok group db l imms seq :
  db_rep db l imms -> 0 <= seq -> seq + zlen (group_ops group) < 2 ^ 56 ->
  exists bases db', reserve_seqs seq group = (bases, seq + zlen (group_ops group)) /\
    apply_group db bases group = Some db' /\
    db_rep db' (mt_inserts (op_writes seq (group_ops group)) l) imms /\ mem_step db db'.
Proof.
  revert db l seq. induction group as [|e group IH]; intros db l seq Hr H0 H1; cbn [reserve_seqs].
  { exists [], db. change (zlen (group_ops [])) with 0. rewrite Z.add_0_r. split; [done|]. split; [done|]. split; [done|apply mem_step_refl]. }
  change (group_ops (e :: group)) with (ge_batch e ++ group_ops group) in *. rewrite zlen_app in *.
  pose proof (zlen_nonneg (group_ops group)). pose proof (zlen_nonneg (ge_batch e)). unfold batch_count.
  rewrite u64_small by lia. destruct (apply_batch_ok (ge_batch e) db l imms seq Hr) as (db1 & E1 & Hr1 & Hs1); [lia..|].
  destruct (IH db1 _ (seq + zlen (ge_batch e)) Hr1) as (bases & db2 & -> & E2 & Hr2 & Hs2); [lia..|].
  exists (seq :: bases), db2. split; [f_equal; lia|]. cbn [apply_group]. rewrite E1. cbn [mbind option_bind].
  split; [done|]. split; [|by eapply mem_step_trans]. rewrite op_writes_app. unfold mt_inserts in *. by rewrite foldl_app.
Qed.

Lemma WAL_new_clean fs path p rs : wal_clean fs path rs -> wal_clean (WAL_new fs p).1 path rs.
Proof.
  intros [Hr Hf]. unfold WAL_new. pose proof (fs_open_cases fs p false) as Hc. destruct (fs_open fs p false) as [fs' b].
  split; [|done]. unfold fs_read in *. destruct Hc as [[-> E]|[-> E]]; simpl; rewrite E; [done|].
  destruct (decide (p = path)) as [->|Hne]; [by rewrite lookup_insert_eq, Hr|by rewrite lookup_insert_ne].
Qed.

Lemma wal_sync_files fs w : fs_files (wal_sync fs w).1 = fs_files fs.
Proof.
  unfold wal_sync. destruct (wal_open w); [|done]. pose proof (fs_fdatasync_files fs (wal_fd w)) as E.
  destruct (fs_fdatasync fs (wal_fd w)) as [fs' [|]]; simpl in *; done.
Qed.

(** Freezing a full memtable moves it, unchanged, to the end of the frozen ones. *)
Lemma maybeFlush_ok fs db l imms path rs :
  db_rep db l imms -> wal_clean fs path rs ->
  exists fs' db', maybeFlush fs db = Some (fs', db') /\ db_seq db' = db_seq db /\ wal_clean fs' path rs /\
    ((db' = db /\ fs' = fs /\ u64 (sl_bytes l) < memtable_size (db_options db) /\ db_rep db' l imms) \/
     (memtable_size (db_options db) <= u64 (sl_bytes l) /\ db_rep db' [] (imms ++ [l]))).
Proof.
  intros [(id & m & Hm & Hl & Hmax) Hi] Hc. unfold maybeFlush. rewrite Hm. cbn [mbind option_bind snd].
  unfold mt_shouldFlush. rewrite Hmax, (mt_usage_rep _ _ Hl).
  destruct (Z.leb_spec (memtable_size (db_options db)) (u64 (sl_bytes l))) as [Hle|Hlt]; cbn [negb].
  2:{ exists fs, db. split; [done|]. split; [done|]. split; [done|]. left. split; [done|]. split; [done|]. split; [done|].
      split; [|done]. by exists id, m. }
  unfold rotateWal. destruct (v_nextFileNumber (db_version db)) as [n v] eqn:En.
  pose proof (WAL_new_clean fs path (makeWalPath db n) rs Hc) as Hc1.
  cbn [db_logs with_version]. destruct (WAL_new fs (makeWalPath db n)) as [fs1 w1]. simpl in Hc1.
  set (fs2 := match lg_wal (db_logs db) with Some w => (wal_sync fs1 w).1 | None => fs1 end).
  assert (wal_clean fs2 path rs) as Hc2.
  { subst fs2. destruct (lg_wal (db_logs db)) as [w|]; [|done]. destruct Hc1 as [Hr1 Hf1]. split; [|done].
    unfold fs_read in *. by rewrite wal_sync_files. }
  cbn [install_memtable with_logs with_mems with_version db_logs db_mems db_options ms_memtable ms_immutable ms_queue ms_next ms_coins db_seq].
  do 2 eexists. split; [done|]. split; [done|]. split; [done|]. right. split; [done|]. split; simpl.
  - do 2 eexists. split; [done|]. split; [apply mt_rep_new|done].
  - apply Forall2_app; [done|]. by repeat constructor.
Qed.

(** The database logs to an open file whose records are [rs]. *)
Definition logs_to (fs : FS) (db : DB) (path : bytes) (rs : list bytes) : Prop :=
  lg_wal (db_logs db) = Some (mkWAL path true) /\ wal_clean fs path rs.

Lemma log_group_cases fs db group path rs :
  logs_to fs db path rs -> wal_fits (group_data group) ->
  let '(fs', s) := log_group fs db group in
  (ok s = true /\ wal_clean fs' path (rs ++ [group_data group])) \/
  (ok s = false /\ (wal_holds fs' path rs \/ wal_clean fs' path (rs ++ [group_data group]))).
Proof.
  intros [Hw Hc] Hf. unfold log_group. rewrite Hw. fold (group_data group).
  pose proof (wal_append_cases fs path rs (group_data group) Hc Hf) as Ha.
  destruct (wal_append fs _ _) as [fs1 s1]. destruct Ha as [[-> Hc1]|[Hs1 Hh]].
  2:{ rewrite Hs1. cbn [negb]. right. auto. }
  simpl (negb (ok SOk)). cbn iota. destruct (_ && _); [|by left].
  pose proof (wal_sync_files fs1 (mkWAL path true)) as Ef. destruct (wal_sync fs1 _) as [fs2 s2] eqn:Es. simpl in Ef.
  assert (wal_clean fs2 path (rs ++ [group_data group])) as Hc2.
  { destruct Hc1. split; [|done]. unfold fs_read in *. by rewrite Ef. }
  destruct (ok s2); auto.
Qed.

(** One group, with any faults: on success it is in the log and in memory, numbered in
    order; on failure memory is unchanged. *)
Lemma doWriteGroup_cases fs db l imms group path rs :
  db_rep db l imms -> logs_to fs db path rs -> group <> [] ->
  0 <= db_seq db -> db_seq db + zlen (group_ops group) < 2 ^ 56 -> wal_fits (group_data group) ->
  exists fs' db' s, doWriteGroup fs db group = Some (fs', db', s) /\ db_seq db' = db_seq db + zlen (group_ops group) /\
    let l' := mt_inserts (op_writes (db_seq db) (group_ops group)) l in
    ((ok s = true /\ wal_clean fs' path (rs ++ [group_data group]) /\
      ((db_rep db' l' imms /\ db_logs db' = db_logs db /\ fs' = (log_group fs db group).1 /\
        db_options db' = db_options db /\ db_version db' = db_version db /\ db_cache db' = db_cache db) \/
       (memtable_size (db_options db) <= u64 (sl_bytes l') /\ db_rep db' [] (imms ++ [l'])))) \/
     (ok s = false /\ db_mems db' = db_mems db /\ db_logs db' = db_logs db /\ (fs', s) = log_group fs db group /\
      (wal_holds fs' path rs \/ wal_clean fs' path (rs ++ [group_data group])))).
Proof.
  intros Hr Hlog Hne H0 H1 Hf. unfold doWriteGroup. rewrite bool_decide_eq_false_2 by done.
  destruct (apply_group_ok group (with_seq db (db_seq db + zlen (group_ops group))) l imms (db_seq db))
    as (bases & db1 & Eb & E1 & Hr1 & Hs1); [by destruct Hr|done..|].
  rewrite Eb. pose proof (log_group_cases fs db group path rs Hlog Hf) as Hl.
  change (log_group fs (with_seq db _) group) with (log_group fs db group).
  destruct (log_group fs db group) as [fs1 s1] eqn:El. destruct Hl as [[Hs Hc]|[Hs Hc]]; rewrite Hs; cbn [negb].
  2:{ eexists _, _, s1. split; [done|]. split; [done|]. right. by repeat split. }
  rewrite E1. cbn [mbind option_bind].
  destruct (maybeFlush_ok fs1 db1 _ imms path _ Hr1 Hc) as (fs2 & db2 & -> & Hseq & Hc2 & Hcase). cbn [mbind option_bind].
  exists fs2, db2, SOk. split; [done|]. destruct Hs1 as (p & coins & ->).
  split; [done|]. left. split; [done|]. split; [done|].
  destruct Hcase as [(-> & -> & _ & Hr2)|(Hle & Hr2)]; [left|right]; [|by split]. by repeat split; try apply Hr2.
Qed.

(** Without faults the log write succeeds, and with it the group. *)
Lemma log_group_no_fault files db group path rs :
  logs_to (fs_of files) db path rs -> wal_fits (group_data group) ->
  exists files', log_group (fs_of files) db group = (fs_of files', SOk).
Proof.
  intros Hlog Hf. unfold log_group. rewrite (proj1 Hlog). fold (group_data group).
  destruct (wal_append_ok files path rs (group_data group) (proj2 Hlog) Hf) as (f1 & -> & _).
  simpl (negb (ok SOk)). cbn iota. destruct (_ && _); by eexists.
Qed.

Lemma doWriteGroup_no_fault files db group path rs fs' db' st :
  logs_to (fs_of files) db path rs -> group <> [] -> wal_fits (group_data group) ->
  doWriteGroup (fs_of files) db group = Some (fs', db', st) -> st = SOk.
Proof.
  intros Hlog Hne Hf. unfold doWriteGroup. rewrite bool_decide_eq_false_2 by done. destruct (reserve_seqs _ _) as [bases sq].
  destruct (log_group_no_fault files (with_seq db sq) group path rs) as [f1 ->]; [done..|].
  simpl (negb (ok SOk)). cbn iota. destruct (apply_group _ _ _) as [db1|]; [|done]. cbn [mbind option_bind].
  destruct (maybeFlush (fs_of f1) db1) as [[fs2 db2]|]; [|done]. cbn [mbind option_bind]. by intros [= <- <- <-].
Qed.

(** The store a sequence of operations leaves: the last operation of each key. *)
Definition op_live (op : BatchOp) : option bytes :=
  match op_type op with bDelete => None | bPut => Some (op_value op) end.

Definition ops_store (ops : list BatchOp) (s : gmap bytes (option bytes)) : gmap bytes (option bytes) :=
  foldl (fun s op => <[op_key op := op_live op]> s) s ops.

Lemma op_writes_store seq ops s : apply_writes (op_writes seq ops) s = ops_store ops s.
Proof.
  revert seq s. induction ops as [|op ops IH]; intros seq s; [done|]. simpl. unfold apply_writes, ops_store in *. simpl.
  rewrite IH. do 2 f_equal. unfold w_live, op_live. simpl. by destruct (op_type op).
Qed.

Lemma ops_store_elem ops s k x : ops_store ops ∅ !! k = Some x -> ops_store ops s !! k = Some x.
Proof.
  revert s. induction ops as [|op ops IH] using rev_ind; intros s; [done|]. unfold ops_store in *. rewrite !foldl_app. simpl.
  destruct (decide (op_key op = k)) as [->|Hne]; [by rewrite !lookup_insert_eq|]. rewrite !lookup_insert_ne by done. apply IH.
Qed.

(** C7: read your writes.  A group of batches written without faults is acknowledged and
    logged as one record; afterwards every key whose last operation in the group is a put
    reads back that value, even when the write filled the memtable and froze it. *)
Theorem db_read_your_writes `{Codecs} (files : gmap bytes bytes) (db : DB) (l : list entry) (imms : list (list entry))
  (s : gmap bytes (option bytes)) (group : list GroupEntry) (path : bytes) (rs : list bytes) :
  db_rep db l imms -> store_of (db_seq db) l s -> logs_to (fs_of files) db path rs -> group <> [] ->
  0 <= db_seq db -> db_seq db + zlen (group_ops group) < 2 ^ 56 -> wal_fits (group_data group) ->
  exists fs' db', doWriteGroup (fs_of files) db group = Some (fs', db', SOk) /\
    wal_clean fs' path (rs ++ [group_data group]) /\
    forall k v, ops_store (group_ops group) ∅ !! k = Some (Some v) -> db_get fs' db' k = Some (db', SOk, Some v).
Proof.
  intros Hr Hs Hlog Hne H0 H1 Hf.
  destruct (doWriteGroup_cases (fs_of files) db l imms group path rs Hr Hlog Hne H0 H1 Hf)
    as (fs' & db' & st & E & _ & Hcase).
  assert (st = SOk) as -> by by eapply doWriteGroup_no_fault.
  exists fs', db'. split; [done|]. destruct Hcase as [(_ & Hc & Hrep)|[? _]]; [|done]. split; [done|].
  intros k v Hk. set (l' := mt_inserts _ l) in Hrep.
  assert (visible k l' = Some v) as Hv.
  { destruct (store_of_run (op_writes (db_seq db) (group_ops group)) (db_seq db) l s) as (hi & _ & Hst'); [lia|done|by apply op_writes_seqs; lia|].
    unfold l'. rewrite (store_of_visible _ _ _ k Hst'), op_writes_store, (ops_store_elem _ _ _ _ Hk). done. }
  unfold db_get. destruct Hrep as [([(id & m & -> & Hm & _) _] & _)|(_ & [(id & m & -> & Hm & _) Hi])];
    rewrite (get_mems_ok [(id, m)] [_] k _ ltac:(by repeat constructor)); cbn [mbind option_bind first_live].
  - by rewrite Hv.
  - change (visible k []) with (@None bytes). cbn iota.
    rewrite (get_mems_ok (reverse _) (reverse (imms ++ [l']))) by by apply Forall2_reverse.
    cbn [mbind option_bind]. rewrite reverse_snoc. cbn [first_live]. by rewrite Hv.
Qed.

(** C8: a failed write is invisible.  With any pattern of I/O faults, a group of batches that is
    acknowledged is replayed from the log after the earlier ones; one that is not leaves
    every memtable as it was, and the log replays either without it or with it at the end. *)
Theorem db_write_fault_atomic (fs : FS) (db : DB) (l : list entry) (imms : list (list entry))
  (group : list GroupEntry) (path : bytes) (rs : list bytes) :
  db_rep db l imms -> logs_to fs db path rs -> group <> [] ->
  0 <= db_seq db -> db_seq db + zlen (group_ops group) < 2 ^ 56 -> wal_fits (group_data group) ->
  exists fs' db' s, doWriteGroup fs db group = Some (fs', db', s) /\
    if ok s then wal_replay fs' (mkWAL path true) = rs ++ [group_data group]
    else db_mems db' = db_mems db /\
         (wal_replay fs' (mkWAL path true) = rs \/ wal_replay fs' (mkWAL path true) = rs ++ [group_data group]).
Proof.
  intros Hr Hlog Hne H0 H1 Hf.
  destruct (doWriteGroup_cases fs db l imms group path rs Hr Hlog Hne H0 H1 Hf) as (fs' & db' & s & E & _ & Hcase).
  exists fs', db', s. split; [done|]. destruct Hcase as [(-> & Hc & _)|(-> & Hm & _ & _ & Hc)].
  - by apply wal_replay_holds, wal_clean_holds.
  - split; [done|]. destruct Hc as [Hc|Hc]; [left|right]; apply wal_replay_holds; [done|by apply wal_clean_holds].
Qed.

(** ** Replay *)

Definition replay_step (db db' : DB) : Prop :=
  exists p coins seq, db' = with_seq (with_mems db
    (mkMems p (ms_immutable (db_mems db)) (ms_queue (db_mems db)) (ms_next (db_mems db)) coins)) seq.

Lemma replay_step_trans db1 db2 db3 : replay_step db1 db2 -> replay_step db2 db3 -> replay_step db1 db3.
Proof. intros (p & c & q & ->) (p' & c' & q' & ->). by exists p', c', q'. Qed.

Lemma replay_step_refl db : replay_step db db.
Proof. exists (ms_memtable (db_mems db)), (ms_coins (db_mems db)), (db_seq db). by destruct db as [? ? ? []]. Qed.

Definition op_fits (op : BatchOp) : Prop := zlen (op_key op) < 2 ^ 32 /\ zlen (op_value op) < 2 ^ 32.

Lemma encode_batch_app b1 b2 : encode_batch (b1 ++ b2) = encode_batch b1 ++ encode_batch b2.
Proof. unfold encode_batch. by rewrite fmap_app, concat_app. Qed.

Lemma group_data_ops group : group_data group = encode_batch (group_ops group).
Proof.
  unfold group_data, group_ops. induction group as [|e group IH]; [done|].
  cbn [fmap list_fmap concat]. by rewrite encode_batch_app, <- IH.
Qed.

Lemma encode_batch_fits b : wal_fits (encode_batch b) -> Forall op_fits b.
Proof.
  unfold wal_fits. induction b as [|op b IH]; intros Hf; [constructor|].
  change (encode_batch (op :: b)) with (encode_op op ++ encode_batch b) in Hf. rewrite zlen_app in Hf.
  pose proof (zlen_nonneg (encode_op op)). pose proof (zlen_nonneg (encode_batch b)). constructor; [|apply IH; lia].
  assert (zlen (encode_op op) = 9 + zlen (op_key op) + zlen (op_value op)) as Hz.
  { unfold encode_op. rewrite zlen_cons, !zlen_app. 
    change (zlen (encodeFixed32 (u32 (zlen (op_key op))))) with 4. change (zlen (encodeFixed32 (u32 (zlen (op_value op))))) with 4.
    lia. }
  pose proof (zlen_nonneg (op_key op)). pose proof (zlen_nonneg (op_value op)). split; lia.
Qed.

Lemma length_encode_op op : (9 <= length (encode_op op))%nat.
Proof. unfold encode_op. simpl. lia. Qed.

Lemma replay_op fuel op p db :
  op_fits op ->
  replay_ops (S fuel) (encode_op op ++ p) db =
  (db' ← memtable_put db (op_key op) (op_value op) (db_seq db) (bool_decide (op_type op = bDelete));
   replay_ops fuel p (with_seq db' (u64 (db_seq db' + 1)))).
Proof.
  intros [Hk Hv]. pose proof (zlen_nonneg (op_key op)). pose proof (zlen_nonneg (op_value op)).
  unfold encode_op. rewrite <- app_comm_cons, <- !app_assoc. cbn [replay_ops].
  rewrite decodeFixed32_encode by apply u32_range. cbn [mbind option_bind].
  rewrite (drop_app_exact _ _ 4) by done. rewrite decodeFixed32_encode by apply u32_range. cbn [mbind option_bind].
  rewrite (drop_app_exact _ _ 4) by done. rewrite !u32_small by lia. rewrite !to_nat_zlen.
  rewrite !zlen_app. replace (_ <? _) with false by (pose proof (zlen_nonneg p); lia).
  rewrite take_app_length, drop_app_length, take_app_length, drop_app_length.
  by destruct (op_type op).
Qed.

Lemma replay_ops_ok ops fuel db l imms :
  db_rep db l imms -> Forall op_fits ops -> 0 <= db_seq db -> db_seq db + zlen ops < 2 ^ 56 ->
  (length (encode_batch ops) < fuel)%nat ->
  exists db', replay_ops fuel (encode_batch ops) db = Some db' /\ db_seq db' = db_seq db + zlen ops /\
    db_rep db' (mt_inserts (op_writes (db_seq db - 1) ops) l) imms /\ replay_step db db'.
Proof.
  intros Hr Hops. revert fuel db l Hr. induction Hops as [|op ops Hop _ IH]; intros fuel db l Hr H0 H1 Hfuel.
  { destruct fuel; exists db; rewrite zlen_nil, Z.add_0_r; auto using replay_step_refl. }
  destruct fuel as [|fuel]; [simpl in Hfuel; lia|].
  change (encode_batch (op :: ops)) with (encode_op op ++ encode_batch ops) in *. rewrite replay_op by done.
  rewrite zlen_cons in *. pose proof (zlen_nonneg ops). rewrite length_app in Hfuel. pose proof (length_encode_op op).
  destruct (memtable_put_ok db l imms (op_key op) (op_value op) (db_seq db) (bool_decide (op_type op = bDelete)) Hr)
    as (db1 & -> & Hr1 & (p & coins & ->)). cbn [mbind option_bind db_seq with_mems]. rewrite u64_small by lia.
  set (db2 := with_seq (with_mems db _) (db_seq db + 1)).
  destruct (IH fuel db2 (mt_insert (op_key op) (op_value op) (db_seq db) (bool_decide (op_type op = bDelete)) l))
    as (db3 & -> & Hs3 & Hr3 & Hst3).
  { destruct Hr1; by split. }
  { simpl; lia. }
  { simpl; lia. }
  { lia. }
  exists db3. split; [done|]. cbn [db_seq db2 with_seq] in Hs3, Hr3. split; [lia|]. split.
  - cbn [op_writes]. unfold mt_inserts in *. cbn [foldl w_key w_value w_seq w_del].
    replace (db_seq db - 1 + 1) with (db_seq db) by lia.
    replace (db_seq db + 1 - 1) with (db_seq db) in Hr3 by lia. done.
  - eapply replay_step_trans; [|done]. by exists p, coins, (db_seq db + 1).
Qed.

Lemma replay_records_ok (opss : list (list BatchOp)) db l imms :
  db_rep db l imms -> Forall (fun ops => wal_fits (encode_batch ops)) opss -> 0 <= db_seq db ->
  db_seq db + zlen (concat opss) < 2 ^ 56 ->
  exists db', replay_records (encode_batch <$> opss) db = Some db' /\ db_seq db' = db_seq db + zlen (concat opss) /\
    db_rep db' (mt_inserts (op_writes (db_seq db - 1) (concat opss)) l) imms /\ replay_step db db'.
Proof.
  intros Hr Hf. revert db l Hr. induction Hf as [|ops opss Hops _ IH]; intros db l Hr H0 H1.
  { exists db. change (zlen (concat [])) with 0. rewrite Z.add_0_r. auto using replay_step_refl. }
  cbn [fmap list_fmap replay_records concat] in *. rewrite zlen_app in *. pose proof (zlen_nonneg (concat opss)).
  destruct (replay_ops_ok ops (S (length (encode_batch ops))) db l imms) as (db1 & -> & Hs1 & Hr1 & Hst1);
    [done|by apply encode_batch_fits|lia..|]. cbn [mbind option_bind]. pose proof (zlen_nonneg ops).
  destruct (IH db1 _ Hr1) as (db2 & -> & Hs2 & Hr2 & Hst2); [lia..|].
  exists db2. split; [done|]. split; [lia|]. split; [|by eapply replay_step_trans].
  rewrite op_writes_app. unfold mt_inserts in *. rewrite foldl_app.
  replace (db_seq db - 1 + zlen ops) with (db_seq db1 - 1) by lia. done.
Qed.

(** ** Runs of a whole database, for the executions below *)

Inductive act := APut (k v : bytes) | ADel (k : bytes) | AFlush | ACompact | AReopen.

Definition run_act `{Codecs} (o : Options) (st : FS * DB) (a : act) : option (FS * DB) :=
  let '(fs, db) := st in
  match a with
  | APut k v => '(fs, db, _) ← db_put fs db true k v; Some (fs, db)
  | ADel k => '(fs, db, _) ← db_del fs db true k; Some (fs, db)
  | AFlush => waitFlush (length (ms_queue (db_mems db))) fs db
  | ACompact => db_compact_step fs (db_compact db)
  | AReopen => '(fs, db) ← db_close fs db; '(fs, db, _) ← db_open fs o []; Some (fs, db)
  end.

Fixpoint run_acts `{Codecs} (o : Options) (st : FS * DB) (l : list act) : option (FS * DB) :=
  match l with [] => Some st | a :: l => st ← run_act o st a; run_acts o st l end.

(** Open an empty database, run the acts, then read a key. *)
Definition run_get `{Codecs} (o : Options) (l : list act) (k : bytes) : option (Status * option bytes) :=
  '(fs, db, _) ← db_open (fs_of ∅) o [];
  '(fs, db) ← run_acts o (fs, db) l;
  '(_, s, v) ← db_get fs db k;
  Some (s, v).

(** A memtable of one byte is full after every write. *)
Definition tiny : Options := mkOptions 1 4096 0 7 4 true (bs "d") 0.
Definition roomy : Options := mkOptions 4096 4096 0 7 4 true (bs "d") 0.

(** A deleted key comes back: the tombstone is in the memtable, but [MemTable::get] answers
    a tombstone like an absent key, so the read falls through to the flushed value. *)
Theorem db_deleted_key_resurrects :
  @run_get marker_codecs tiny [APut (bs "k") (bs "v"); AFlush; ADel (bs "k")] (bs "k") = Some (SOk, Some (bs "v")).
Proof. vm_compute. reflexivity. Qed.

(** Level 0 is read oldest first: once two versions of a key have been flushed to two
    tables, a read returns the older one. *)
Theorem db_level0_reads_stale :
  @run_get marker_codecs tiny [APut (bs "k") (bs "old"); AFlush; APut (bs "k") (bs "new")] (bs "k") = Some (SOk, Some (bs "new")) /\
  @run_get marker_codecs tiny [APut (bs "k") (bs "old"); AFlush; APut (bs "k") (bs "new"); AFlush] (bs "k") =
    Some (SOk, Some (bs "old")).
Proof. split; vm_compute; reflexivity. Qed.

(** The files of levels 0 and 1 at the end of a run. *)
Definition run_levels `{Codecs} (o : Options) (l : list act) : option (list bytes * list bytes) :=
  '(fs, db, _) ← db_open (fs_of ∅) o [];
  '(fs, db) ← run_acts o (fs, db) l;
  Some (v_getLevelFiles (db_version db) 0, v_getLevelFiles (db_version db) 1).

(** Sequence numbers start over when a database is reopened with an empty log: a value
    written afterwards has a smaller sequence number than the flushed one it replaces, and
    compacting both into one table keeps the old value and discards the new. *)
Theorem db_reopen_reuses_sequence_numbers :
  let acts := [APut (bs "a") (bs "1"); APut (bs "b") (bs "2"); APut (bs "k") (bs "old"); AFlush; AReopen;
               APut (bs "k") (bs "new"); AFlush; ACompact] in
  @run_levels marker_codecs tiny acts = Some ([], [bs "d/level-1/10.sst"]) /\
  @run_get marker_codecs tiny acts (bs "k") = Some (SOk, Some (bs "old")).
Proof. split; vm_compute; reflexivity. Qed.

(** A merge drops tombstones also when deeper levels still hold the key: a key is put and
    compacted into level 1, then deleted, flushed and compacted again: level 0 is empty, no
    table has the tombstone any more, and the old value in level 1 is what reads find. *)
Theorem compaction_drops_needed_tombstone :
  let acts := [APut (bs "k") (bs "v"); AFlush; ACompact; ADel (bs "k"); AFlush; ACompact] in
  @run_levels marker_codecs tiny acts = Some ([], [bs "d/level-1/4.sst"]) /\
  @run_get marker_codecs tiny acts (bs "k") = Some (SOk, Some (bs "v")).
Proof. split; vm_compute; reflexivity. Qed.

(** ** Witnesses *)

(** A database with an open, empty log and nothing else. *)
Definition demo_db (coins : list (list bool)) : DB :=
  with_logs (install_memtable (DBImpl_new roomy coins)) (mkLogs (Some (mkWAL (bs "d/wal-1.log") true)) (bs "d/wal-1.log") []).
Definition demo_files : gmap bytes bytes := {[ bs "d/wal-1.log" := [] ]}.
Definition demo_group : list GroupEntry :=
  [mkGE [mkOp bPut (bs "k") (bs "v1"); mkOp bPut (bs "j") (bs "w")] true; mkGE [mkOp bPut (bs "k") (bs "v2"); mkOp bDelete (bs "j") []] false].

Lemma demo_rep coins : db_rep (demo_db coins) [] [].
Proof. split; [do 2 eexists; split; [done|]; split; [apply mt_rep_new|done]|constructor]. Qed.

Lemma demo_logs fs coins : fs_files fs = demo_files -> logs_to fs (demo_db coins) (bs "d/wal-1.log") [].
Proof. intros Hf. split; [done|]. split; [|constructor]. unfold fs_read. rewrite Hf. vm_compute. reflexivity. Qed.

(** A database with a memtable, a frozen memtable and a table in each of the levels 0 and 1:
    [k1] has been overwritten since it was flushed, [k2] deleted since it was written, and the
    table of level 0 has the newer one of the two flushed versions of [k3]. *)
Definition layers_edits : list edit := [EAdd 0 (bs "d/level-0/2.sst") 2; EAdd 1 (bs "d/level-1/1.sst") 1].
Definition layers_mem : list entry := mt_insert (bs "k1") (bs "new") 9 false [].
Definition layers_imm : list entry := mt_insert (bs "k2") [] 8 true (mt_insert (bs "k2") (bs "two") 7 false []).
Definition layers_t0 : list entry := mt_insert (bs "k1") (bs "old") 6 false (mt_insert (bs "k3") (bs "three") 5 false []).
Definition layers_t1 : list entry := mt_insert (bs "k3") (bs "drei") 1 false [].
Definition layers_tabs : list (list (list entry)) := [layers_t0] :: [layers_t1] :: replicate 6 [].
Definition layers_db (mt imm : MemTable) : DB :=
  with_mems (with_version (DBImpl_new roomy []) (mkVersion (edits_apply no_files layers_edits) 3 None))
    (mkMems (Some (1%nat, mt)) [(0%nat, imm)] [] 2 []).

Lemma layers_t0_wf : sl_wf layers_t0.
Proof. split; [repeat constructor; vm_compute; lia|]. repeat constructor; vm_compute; reflexivity. Qed.

Lemma layers_t1_wf : sl_wf layers_t1.
Proof. split; [repeat constructor; vm_compute; lia|]. repeat constructor; vm_compute; reflexivity. Qed.

Lemma layers_files : exists files, level_tables (HC := marker_codecs) files (layers_db (MemTable_new 4096) (MemTable_new 4096)) layers_tabs.
Proof.
  destruct (@sst_build_ok marker_codecs marker_laws ∅ (bs "d/level-0/2.sst") 64 cNone layers_t0 ltac:(vm_compute; reflexivity))
    as (a0 & f1 & a1 & f2 & a2 & _ & _ & _ & Hs1 & Ho1).
  destruct (@sst_build_ok marker_codecs marker_laws f2 (bs "d/level-1/1.sst") 64 cSnappy layers_t1 ltac:(vm_compute; reflexivity))
    as (c0 & f3 & c1 & f4 & c2 & _ & _ & _ & Hs2 & Ho2).
  exists f4. unfold level_tables. change (seq 0 _) with (seq 0 8). cbn [seq].
  constructor; [|constructor; [|repeat (constructor; [change (v_getLevelFiles _ _) with (@nil bytes); constructor|]); constructor]].
  - change (v_getLevelFiles _ _) with [bs "d/level-0/2.sst"]. constructor; [|constructor].
    split; [eapply sst_file_same; [| |exact Hs1]; by rewrite Ho2|apply layers_t0_wf].
  - change (v_getLevelFiles _ _) with [bs "d/level-1/1.sst"]. constructor; [|constructor]. split; [exact Hs2|apply layers_t1_wf].
Qed.

Lemma layers_rep : exists mt imm, db_rep (layers_db mt imm) layers_mem [layers_imm].
Proof.
  destruct (mt_put_rep (MemTable_new 4096) [] (bs "k1") (bs "new") 9 false [true] (mt_rep_new 4096)) as (mt & _ & Hmt & Hmax).
  destruct (mt_put_rep (MemTable_new 4096) [] (bs "k2") (bs "two") 7 false [] (mt_rep_new 4096)) as (m1 & _ & Hm1 & _).
  destruct (mt_put_rep m1 _ (bs "k2") [] 8 true [true] Hm1) as (imm & _ & Himm & _). exists mt, imm.
  split; [do 2 eexists; split; [reflexivity|]; split; [exact Hmt|exact Hmax]|by repeat constructor].
Qed.

Lemma db_get_layers_witness :
  exists mt imm files,
    (exists c, @db_get marker_codecs (fs_of files) (layers_db mt imm) (bs "k1") = Some (with_cache (layers_db mt imm) c, SOk, Some (bs "new"))) /\
    (exists c, @db_get marker_codecs (fs_of files) (layers_db mt imm) (bs "k2") = Some (with_cache (layers_db mt imm) c, SNotFound [], None)) /\
    (exists c, @db_get marker_codecs (fs_of files) (layers_db mt imm) (bs "k3") = Some (with_cache (layers_db mt imm) c, SOk, Some (bs "three"))).
Proof.
  destruct layers_rep as (mt & imm & Hr). destruct layers_files as [files Ht]. exists mt, imm, files.
  assert (forall uk, Forall (one_table uk) layers_tabs ->
    ordered uk (layers_mem :: reverse [layers_imm] ++ (@concat entry <$> layers_tabs)) ->
    let answer := visible uk (sort_by (lt_keyed InternalKeyCompare fst) (layers_mem ++ concat [layers_imm] ++ concat (concat layers_tabs))) in
    exists c, @db_get marker_codecs (fs_of files) (layers_db mt imm) uk =
      Some (with_cache (layers_db mt imm) c, match answer with Some _ => SOk | None => SNotFound [] end, answer)) as Hget.
  { intros uk H1 H2 answer. destruct (@db_get_layers marker_codecs files (layers_db mt imm) layers_mem [layers_imm] layers_tabs uk Hr Ht I H1 H2)
      as (c & a & _ & Hg & Ha). exists c. rewrite Hg.
    assert (a = answer) as ->; [|done]. eapply reads_unique; [|exact Ha|apply reads_sorted]; apply (bool_decide_unpack _); vm_compute; exact I. }
  assert (forall uk, bool_decide (Forall (fun ts => (length (filter (fun t => versions uk t <> []) ts) <= 1)%nat) layers_tabs) = true ->
    Forall (one_table uk) layers_tabs) as Hone by (intros uk Hb; by apply bool_decide_eq_true in Hb).
  split; [|split].
  - apply (Hget (bs "k1")); [apply Hone; vm_compute; reflexivity|]. apply ordered_live; [apply (bool_decide_unpack _); vm_compute; exact I|].
    apply (ordered_none _ [layers_imm]); [apply (bool_decide_unpack _); vm_compute; exact I|].
    apply ordered_last. apply (bool_decide_unpack _); vm_compute; exact I.
  - apply (Hget (bs "k2")); [apply Hone; vm_compute; reflexivity|].
    apply (ordered_none _ [layers_mem]); [apply (bool_decide_unpack _); vm_compute; exact I|].
    apply ordered_last. apply (bool_decide_unpack _); vm_compute; exact I.
  - apply (Hget (bs "k3")); [apply Hone; vm_compute; reflexivity|].
    apply (ordered_none _ [layers_mem; layers_imm]); [apply (bool_decide_unpack _); vm_compute; exact I|].
    apply ordered_live; [apply (bool_decide_unpack _); vm_compute; exact I|].
    apply ordered_last. apply (bool_decide_unpack _); vm_compute; exact I.
Defined.

Lemma db_read_your_writes_witness :
  exists fs' db', doWriteGroup (fs_of demo_files) (demo_db [[true]; [false]]) demo_group = Some (fs', db', SOk) /\
    @db_get marker_codecs fs' db' (bs "k") = Some (db', SOk, Some (bs "v2")).
Proof.
  destruct (@db_read_your_writes marker_codecs demo_files (demo_db [[true]; [false]]) [] [] ∅ demo_group (bs "d/wal-1.log") [])
    as (fs' & db' & E & _ & Hg).
  - apply demo_rep.
  - apply store_of_nil.
  - by apply demo_logs.
  - discriminate.
  - done.
  - vm_compute. reflexivity.
  - vm_compute. reflexivity.
  - exists fs', db'. split; [exact E|]. apply Hg. vm_compute. reflexivity.
Defined.

Lemma db_write_fault_atomic_witness :
  exists fs' db' s, doWriteGroup (fs_script demo_files [FOk; FFail 5]) (demo_db []) demo_group = Some (fs', db', s) /\
    if ok s then wal_replay fs' (mkWAL (bs "d/wal-1.log") true) = [group_data demo_group]
    else db_mems db' = db_mems (demo_db []) /\
         (wal_replay fs' (mkWAL (bs "d/wal-1.log") true) = [] \/
          wal_replay fs' (mkWAL (bs "d/wal-1.log") true) = [group_data demo_group]).
Proof.
  apply (db_write_fault_atomic (fs_script demo_files [FOk; FFail 5]) (demo_db []) [] [] demo_group (bs "d/wal-1.log") []).
  - apply demo_rep.
  - by apply demo_logs.
  - discriminate.
  - done.
  - vm_compute. reflexivity.
  - vm_compute. reflexivity.
Defined.
