(* ===== verification/DBRecovery.v ===== *)
(** * Recovery of a database

    Which log files recovery finds and in which order, what the removal of orphan tables
    may touch, and the end-to-end theorems: reopening a directory rebuilds the store its
    logs describe, after a clean shutdown or after a crash at any point of a write. *)

From Stdlib Require Import ZArith Lia.
From stdpp Require Import base numbers strings list gmap.
From S2P Require Import Prelude CppString Coding Slice InternalKey SkipHeap SkipList Versions MemTable Bloom Block.
From S2P Require Import Caches Compression FileSystem SSTable SSTableProofs Wal Manifest ManifestProofs.
From S2P Require Import Merging Compaction CompactionProofs DBImpl DBProofs.
Local Open Scope Z_scope.

(** ** Directory listings *)

Lemma elem_of_readdir fs dir name :
  name ∈ readdir fs dir <-> is_Some (fs_read fs (dir ++ bs "/" ++ name)) /\ z2b 47 ∉ name.
Proof.
  unfold readdir. rewrite list_elem_of_omap. split.
  - intros ([k v] & Hin & Hk). simpl in Hk. apply elem_of_map_to_list in Hin.
    destruct (decide _) as [Heq|]; [|done]. case_bool_decide as Hs; [done|]. injection Hk as <-.
    split; [|done]. unfold fs_read. rewrite app_assoc. rewrite <- Heq at 1. rewrite take_drop. by exists v.
  - intros [[v Hv] Hs]. exists (dir ++ bs "/" ++ name, v). split; [by apply elem_of_map_to_list|]. cbn [fst].
    rewrite app_assoc, take_app_length, drop_app_length, decide_True by done. by rewrite bool_decide_eq_false_2.
Qed.

Lemma NoDup_omap {A B} (f : A -> option B) (l : list A) :
  (forall x y b, f x = Some b -> f y = Some b -> x = y) -> NoDup l -> NoDup (omap f l).
Proof.
  intros Hinj. induction 1 as [|x l Hx _ IH]; simpl; [constructor|]. destruct (f x) as [b|] eqn:E; [|done].
  constructor; [|done]. rewrite list_elem_of_omap. intros (y & Hy & Ey). by rewrite (Hinj _ _ _ E Ey) in Hx.
Qed.

Lemma NoDup_readdir fs dir : NoDup (readdir fs dir).
Proof.
  unfold readdir. set (pre := dir ++ bs "/").
  assert (NoDup (map_to_list (fs_files fs)).*1) as Hnd by apply NoDup_fst_map_to_list.
  assert (forall l : list (bytes * bytes), NoDup l.*1 -> NoDup (omap (fun kv : bytes * bytes =>
    if decide (take (length pre) kv.1 = pre)
    then let name := drop (length pre) kv.1 in if bool_decide (z2b 47 ∈ name) then None else Some name else None) l)) as H.
  { intros l. induction l as [|[k v] l IH]; simpl; [constructor|]. intros Hl. apply NoDup_cons in Hl as [Hk Hl].
    destruct (decide (take (length pre) k = pre)) as [Hp|]; [|by apply IH]. case_bool_decide; [by apply IH|].
    constructor; [|by apply IH]. rewrite list_elem_of_omap. intros ([k' v'] & Hin & E). simpl in E.
    destruct (decide (take (length pre) k' = pre)) as [Hp'|]; [|done]. case_bool_decide; [done|]. injection E as E.
    apply Hk. rewrite <- (take_drop (length pre) k), Hp, <- E, <- Hp' at 1. rewrite take_drop.
    by apply (list_elem_of_fmap_2 fst) in Hin. }
  by apply H.
Qed.

(** ** The log files *)

(** A log file of generation [n]. *)
Definition is_wal (files : gmap bytes bytes) (dir : bytes) (n : Z) (p : bytes) : Prop :=
  (n = 0 /\ p = dir ++ bs "/wal.log" /\ exists c d, files !! p = Some (c :: d)) \/
  (exists name, p = dir ++ bs "/" ++ name /\ z2b 47 ∉ name /\ wal_number name = Some n /\ is_Some (files !! p)).

(** Lists with the same elements and the same keys in the same places are equal when keys
    are distinct. *)
Lemma keyed_unique {K V} (l2 l1 : list (K * V)) : NoDup l2.*1 -> l1 ≡ₚ l2 -> l1.*1 = l2.*1 -> l1 = l2.
Proof.
  intros Hnd Hp Hk. apply list_eq_same_length with (length l2); [done|by rewrite Hp|]. intros i x y Hi Hx Hy.
  assert (x.1 = y.1) as Hxy.
  { assert (l1.*1 !! i = l2.*1 !! i) as E by by rewrite Hk. rewrite !list_lookup_fmap, Hx, Hy in E. by injection E. }
  assert (x ∈ l2) as [j Hj]%list_elem_of_lookup by (rewrite <- Hp; by eapply list_elem_of_lookup_2).
  assert (j = i) as ->; [|congruence]. eapply (NoDup_lookup l2.*1); [done| |].
  - by rewrite list_lookup_fmap, Hj.
  - rewrite list_lookup_fmap, Hy. simpl. by rewrite Hxy.
Qed.

(** The listing has every log file once, in order of generation. *)
Lemma listWalFiles_spec files db wals :
  (forall n p, (n, p) ∈ wals <-> is_wal files (db_dir db) n p) -> sorted_by Z.compare wals.*1 ->
  listWalFiles (fs_of files) db = wals.
Proof.
  intros Hin Hs. unfold listWalFiles. set (out := match fs_read _ _ with Some (_ :: _) => _ | _ => _ end).
  set (found := omap _ _).
  assert (forall x, x ∈ out ++ found <-> x ∈ wals) as Hel.
  { intros [n p]. rewrite Hin, elem_of_app. unfold is_wal. apply Morphisms_Prop.or_iff_morphism.
    - subst out. unfold fs_read. cbn [fs_files fs_of fs_script].
      destruct (files !! (db_dir db ++ bs "/wal.log")) as [[|c d]|] eqn:E.
      + split; [by intros ?%not_elem_of_nil|]. intros (_ & -> & c & d & E'). congruence.
      + rewrite list_elem_of_singleton. split; [intros [= -> ->]; eauto|]. by intros (-> & -> & _).
      + split; [by intros ?%not_elem_of_nil|]. intros (_ & -> & c & d & E'). congruence.
    - subst found. rewrite list_elem_of_omap. split.
      + intros (name & Hn & E). apply elem_of_readdir in Hn as [Hf Hsl].
        destruct (wal_number name) as [n'|] eqn:En; [|done]. injection E as <- <-. exists name. by rewrite En.
      + intros (name & -> & Hsl & En & Hf). exists name. rewrite elem_of_readdir, En. by split. }
  assert (NoDup wals) as Hnd.
  { apply (NoDup_fmap_1 fst). apply (sorted_by_NoDup (fun _ => True) Z.compare); [by apply Forall_true|done]. }
  assert (NoDup (out ++ found)) as Hnd'.
  { apply NoDup_app. split; [|split].
    - subst out. destruct (fs_read _ _) as [[|]|]; repeat constructor; apply not_elem_of_nil.
    - intros x Hx Hf. subst out found. apply list_elem_of_omap in Hf as (name & _ & E).
      destruct (fs_read _ _) as [[|c d]|]; [by apply not_elem_of_nil in Hx| |by apply not_elem_of_nil in Hx].
      apply list_elem_of_singleton in Hx as ->. destruct (wal_number name) as [n|] eqn:En; [|done]. injection E as -> E.
      apply app_inv_head in E. apply (f_equal (drop 1)) in E. vm_compute in E. subst name. vm_compute in En. discriminate En.
    - apply NoDup_omap; [|apply NoDup_readdir]. intros x y b Ex Ey.
      destruct (wal_number x); [|done]. destruct (wal_number y); [|done]. injection Ex as <-. injection Ey as _ E.
      apply app_inv_head in E. by injection E. }
  assert (out ++ found ≡ₚ wals) as Hp by by apply NoDup_Permutation.
  assert (sort_by (lt_keyed Z.compare fst) (out ++ found) ≡ₚ wals) as Hp' by by rewrite sort_by_perm.
  assert (NoDup wals.*1) as Hk by (apply (sorted_by_NoDup (fun _ => True) Z.compare); [by apply Forall_true|done]).
  assert (sorted_by Z.compare (sort_by (lt_keyed Z.compare fst) (out ++ found)).*1) as Hs'.
  { apply (nondecr_strict (fun _ => True) Z.compare fst); [by apply Forall_true|by rewrite Hp'|].
    apply (sort_by_nondecr (fun _ : Z => True) Z.compare fst). by apply Forall_true. }
  apply (keyed_unique _ _ Hk Hp').
  apply (sorted_by_unique (fun _ => True) Z.compare); [by apply Forall_true..|done|done|by rewrite Hp'].
Qed.

(** ** Removal of orphan tables *)

(** [q] is a file of [dir_path] that the purge takes for an orphan. *)
Definition orphan_in (live : list bytes) (dir_path q : bytes) : Prop :=
  exists name, q = dir_path ++ bs "/" ++ name /\ z2b 47 ∉ name /\ is_orphan live dir_path name = true.

Lemma unlink_if_spec (P : bytes -> bool) (dir_path : bytes) names files :
  exists files', foldl (fun fs name => if P name then (fs_unlink fs (dir_path ++ bs "/" ++ name)).1 else fs)
                   (fs_of files) names = fs_of files' /\
    (forall name, name ∈ names -> P name = true -> files' !! (dir_path ++ bs "/" ++ name) = None) /\
    (forall q, files' !! q = files !! q \/
               (files' !! q = None /\ exists name, name ∈ names /\ P name = true /\ q = dir_path ++ bs "/" ++ name)).
Proof.
  revert files. induction names as [|x names IH]; intros files; cbn [foldl].
  { exists files. split; [done|]. split; [by intros ? ?%not_elem_of_nil|by left]. }
  assert (exists f1, (if P x then (fs_unlink (fs_of files) (dir_path ++ bs "/" ++ x)).1 else fs_of files) = fs_of f1 /\
    (P x = true -> f1 !! (dir_path ++ bs "/" ++ x) = None) /\
    forall q, f1 !! q = files !! q \/ (f1 !! q = None /\ P x = true /\ q = dir_path ++ bs "/" ++ x)) as (f1 & -> & Hx & H1).
  { destruct (P x); [|exists files; split; [done|]; split; [done|by left]]. rewrite fs_unlink_ok. eexists. split; [done|].
    split; [intros _; apply lookup_delete_eq|]. intros q.
    destruct (decide (q = dir_path ++ bs "/" ++ x)) as [->|Hne]; [right; by rewrite lookup_delete_eq|left; by rewrite lookup_delete_ne]. }
  destruct (IH f1) as (f2 & -> & Hin & H2). exists f2. split; [done|]. split.
  - intros name [->|Hn]%elem_of_cons Hp; [|by apply Hin]. destruct (H2 (dir_path ++ bs "/" ++ x)) as [->|[-> _]]; [|done]. by apply Hx.
  - intros q. destruct (H2 q) as [->|(Hn & name & Hi & Hp & ->)]; [|right; split; [done|]; exists name; split; [by right|done]].
    destruct (H1 q) as [->|(-> & Hp & ->)]; [by left|]. right. split; [done|]. exists x. split; [by left|done].
Qed.

Lemma purge_level_ok live dir files level :
  let dir_path := dir ++ bs "/level-" ++ to_string (Z.of_nat level) in
  exists files', purge_level live dir (fs_of files) level = fs_of files' /\
    (forall q, orphan_in live dir_path q -> files' !! q = None) /\
    (forall q, files' !! q = files !! q \/ (files' !! q = None /\ orphan_in live dir_path q)).
Proof.
  intros dir_path. unfold purge_level. fold dir_path.
  destruct (unlink_if_spec (is_orphan live dir_path) dir_path (readdir (fs_of files) dir_path) files) as (f' & -> & Hin & Hq).
  exists f'. split; [done|]. split.
  - intros q (name & -> & Hs & Ho).
    destruct (files !! (dir_path ++ bs "/" ++ name)) as [d|] eqn:E.
    + apply Hin; [|done]. apply elem_of_readdir. split; [|done]. by exists d.
    + destruct (Hq (dir_path ++ bs "/" ++ name)) as [->|[-> _]]; done.
  - intros q. destruct (Hq q) as [?|(Hn & name & Hr & Ho & ->)]; [by left|]. right. split; [done|].
    apply elem_of_readdir in Hr as [_ Hs]. by exists name.
Qed.

(** An orphan of the database: a table file in a level directory that the roster [live] does
    not name. *)
Definition orphan (live : list bytes) (dir : bytes) (n : nat) (q : bytes) : Prop :=
  exists level, (level < n)%nat /\ orphan_in live (dir ++ bs "/level-" ++ to_string (Z.of_nat level)) q.

Lemma purge_ok files db m :
  let n := Z.to_nat (max_level (db_options db) + 1) in
  exists files', purgeOrphanSSTables (fs_of files) db m = fs_of files' /\
    (forall q, orphan (live_paths m) (db_dir db) n q -> files' !! q = None) /\
    (forall q, files' !! q = files !! q \/ (files' !! q = None /\ orphan (live_paths m) (db_dir db) n q)).
Proof.
  intros n. unfold purgeOrphanSSTables. fold n. clearbody n. set (live := live_paths m). set (dir := db_dir db).
  induction n as [|n IH].
  { exists files. split; [done|]. split; [intros q (k & ? & _); lia|by left]. }
  destruct IH as (f1 & E1 & Hin1 & H1). rewrite seq_S, foldl_app, E1. cbn [foldl Nat.add].
  destruct (purge_level_ok live dir f1 n) as (f2 & -> & Hin2 & H2). exists f2. split; [done|]. split.
  - intros q (k & Hk & Ho). destruct (decide (k = n)) as [->|Hne]; [by apply Hin2|].
    destruct (H2 q) as [->|[-> _]]; [|done]. apply Hin1. exists k. split; [lia|done].
  - intros q. destruct (H2 q) as [->|[-> Ho]]; [|right; split; [done|]; exists n; split; [lia|done]].
    destruct (H1 q) as [->|(-> & k & Hk & Ho)]; [by left|]. right. split; [done|]. exists k. split; [lia|done].
Qed.

Lemma orphan_not_live live dir n q : orphan live dir n q -> q ∉ live.
Proof.
  intros (k & _ & name & -> & _ & Ho). unfold is_orphan in Ho. rewrite !andb_true_iff, !negb_true_iff in Ho.
  destruct Ho as [_ Ho]. by apply bool_decide_eq_false in Ho.
Qed.

Lemma orphan_sst live dir n q : orphan live dir n q -> exists p, q = p ++ bs ".sst".
Proof.
  intros (k & _ & name & -> & _ & Ho). unfold is_orphan in Ho. rewrite !andb_true_iff in Ho.
  destruct Ho as [[_ Ho] _]. apply bool_decide_eq_true in Ho.
  match type of Ho with drop ?i ?q = _ => exists (take i q); rewrite <- Ho; by rewrite take_drop end.
Qed.

(** ** The manifest on the way up *)

Lemma edits_entries es i :
  Forall edit_ok es ->
  Forall (fun f => plain f /\ edit_ok (EAdd (Z.of_nat i) (sm_path f) (sm_file_number f))) (lv_at (edits_apply no_files es) i).
Proof.
  intros Hes. induction es as [|e es IH] using rev_ind.
  - unfold lv_at, no_files. destruct (edits_apply (replicate 8 []) [] !! i) eqn:E; [|constructor].
    apply (lookup_replicate 8) in E as [-> _]. constructor.
  - apply Forall_app in Hes as [Hes He]. rewrite Forall_singleton in He. rewrite edits_apply_snoc.
    destruct e as [l p n|l p n]; destruct He as (Hl & Hp & Hn); simpl.
    + rewrite lv_at_add. case_decide as Hi; [|by apply IH]. apply Forall_app. split; [by apply IH|]. apply Forall_singleton.
      subst i. rewrite Z2Nat.id by lia. done.
    + rewrite lv_at_remove. case_decide; [|by apply IH]. by apply Forall_filter, IH.
Qed.

Lemma roster_of_edits es lv : Forall edit_ok es -> lv_equiv lv (edits_apply no_files es) -> roster_ok lv.
Proof.
  intros Hes Heq.
  assert (forall i v, lv !! i = Some v ->
    Forall (fun f => plain f /\ edit_ok (EAdd (Z.of_nat i) (sm_path f) (sm_file_number f))) v) as Hall.
  { intros i v Hi. pose proof (edits_entries es i Hes) as H. rewrite <- Heq in H. unfold lv_at in H. by rewrite Hi in H. }
  split.
  - apply Forall_lookup. intros i v Hi. eapply Forall_impl; [by apply (Hall i)|]. by intros f [? _].
  - unfold snapshot_records. apply Forall_forall. intros e (r & -> & Hr)%list_elem_of_fmap.
    apply list_elem_of_In, in_concat in Hr as (w & Hw & Hr).
    apply list_elem_of_In, list_elem_of_lookup in Hw as [j Hj]. rewrite list_lookup_imap in Hj.
    destruct (lv !! j) as [x|] eqn:Ej; [|done]. simpl in Hj. injection Hj as <-.
    apply list_elem_of_In, list_elem_of_fmap in Hr as (f & -> & Hf).
    specialize (Hall j x Ej). rewrite Forall_forall in Hall. by apply Hall.
Qed.

Lemma write_snapshot_ok rs files neu :
  exists files', write_snapshot (fs_of files) neu rs = (fs_of files', SOk).
Proof.
  revert files. induction rs as [|[l m] rs IH]; intros files; cbn [write_snapshot]; [by exists files|].
  unfold mf_writeRecordToFd. rewrite fs_write_ok.
  change (zlen (encodeFixed32 _ ++ encodeFixed32 _) =? 8) with true. cbn [negb]. rewrite fs_write_ok, Z.eqb_refl. cbn [negb].
  simpl (ok SOk). cbn iota. apply IH.
Qed.

(** Without faults the snapshot succeeds and only the manifest's three files change. *)
Lemma mf_rewriteSnapshot_ok files m d :
  roster_ok (mf_levels m) -> files !! mf_path m = Some d ->
  exists files' lv' es, mf_rewriteSnapshot (fs_of files) m = (fs_of files', mkManifest (mf_path m) true lv', SOk) /\
    lv_equiv lv' (mf_levels m) /\ files' !! mf_path m = Some (mf_log es) /\ Forall edit_ok es /\
    lv_equiv (edits_apply no_files es) (mf_levels m) /\
    (forall q, q <> mf_path m -> q <> mf_neu m -> q <> mf_bak m -> files' !! q = files !! q).
Proof.
  intros [Hpl Hok] Hd. destruct (mf_names_ne (mf_path m)) as (N1 & N2 & N3).
  unfold mf_rewriteSnapshot, mf_neu, mf_bak. cbn [mf_path mf_levels]. rewrite fs_open_ok. cbn [negb].
  set (neu := mf_path m ++ bs ".new") in *. set (f1 := <[neu := _]> files).
  destruct (write_snapshot_ok (snapshot_records (mf_levels m)) f1 neu) as (f2 & E2).
  pose proof (write_snapshot_cases (snapshot_records (mf_levels m)) (fs_of f1) neu []) as Hw. unfold fs_read in Hw.
  rewrite E2 in Hw |- *. specialize (Hw (lookup_insert_eq _ _ _) Hok) as [Hoth Hnew]. specialize (Hnew eq_refl).
  cbn [fs_files fs_of fs_script app] in Hoth, Hnew. simpl (negb (ok SOk)). cbn iota.
  change (fs_fdatasync (fs_of f2) (Some neu)) with (fs_of f2, true). cbn [negb].
  rewrite (surjective_pairing (fs_unlink _ _)), fs_unlink_ok. cbn iota.
  assert (delete (mf_path m ++ bs ".bak") f2 !! mf_path m = Some d) as Hd2.
  { rewrite lookup_delete_ne by done. rewrite Hoth by done. unfold f1. by rewrite lookup_insert_ne. }
  rewrite (fs_rename_ok _ _ _ d Hd2). cbn iota.
  rewrite (fs_rename_ok _ _ _ (mf_log (record_edit <$> snapshot_records (mf_levels m))))
    by (rewrite lookup_insert_ne, !lookup_delete_ne by done; done).
  cbn [negb]. rewrite fs_open_ok. cbn [negb].
  eexists _, _, (record_edit <$> snapshot_records (mf_levels m)). split; [done|]. split.
  { destruct (zlen (mf_levels m) <? 8) eqn:E8; [|done]. apply resize_equiv. unfold zlen in E8. lia. }
  split; [by rewrite lookup_insert_eq, lookup_insert_eq|]. split; [done|]. split; [by apply snapshot_edits|].
  intros q Q1 Q2 Q3. rewrite !lookup_insert_ne by done. rewrite lookup_delete_ne, lookup_insert_ne by done.
  rewrite !lookup_delete_ne, Hoth by done. unfold f1. by rewrite lookup_insert_ne.
Qed.

(** A directory from which opening the manifest recovers the roster [lv]: [mf_state], or no
    manifest at all. *)
Definition mf_dir (files : gmap bytes bytes) (path : bytes) (lv : levels) : Prop :=
  mf_state files path lv \/
  (files !! path = None /\ files !! (path ++ bs ".new") = None /\ files !! (path ++ bs ".bak") = None /\ lv_equiv lv no_files).

Lemma mf_open_dir files path l0 lv :
  mf_dir files path lv ->
  exists files' lv' d es, mf_open (fs_of files) (mkManifest path false l0) = Some (fs_of files', mkManifest path true lv', SOk) /\
    lv_equiv lv' lv /\ files' !! path = Some d /\ Forall edit_ok es /\ lv_equiv lv' (edits_apply no_files es) /\
    (forall q, q <> path -> q <> path ++ bs ".new" -> files' !! q = files !! q).
Proof.
  intros [Hst|(H1 & H2 & H3 & Heq)].
  - destruct (mf_open_state files path l0 lv Hst) as (f' & lv' & E & Hlv & (d & Hd & es & Hh & Hes) & Hq).
    exists f', lv', d, es. split; [done|]. split; [done|]. split; [done|]. destruct Hh as (p & _ & _ & Hok).
    split; [done|]. split; [by rewrite Hlv, Hes|done].
  - unfold mf_open, mf_recoverActivePath, fs_exists, fs_read, mf_neu, mf_bak. cbn [mf_open_ mf_path fs_files fs_of fs_script].
    rewrite H1, H2, H3. rewrite !bool_decide_eq_false_2 by by intros [? ?]. rewrite fs_open_ok. cbn [negb].
    unfold fs_read. cbn [fs_files fs_of fs_script]. rewrite lookup_insert_eq, H1. cbn [from_option id].
    change (mf_replay []) with (Some no_files). cbn [mbind option_bind].
    eexists _, no_files, [], []. split; [done|]. split; [done|]. rewrite lookup_insert_eq. split; [done|].
    split; [constructor|]. split; [done|]. intros q Q1 Q2. by rewrite lookup_insert_ne.
Qed.

(** ** Names *)

Lemma span_digits_app s a b : span_digits s = (a, b) -> s = a ++ b.
Proof.
  revert a b. induction s as [|c s IH]; intros a b; simpl; [by intros [= <- <-]|].
  destruct (is_digit c); [|by intros [= <- <-]]. destruct (span_digits s) as [x y]. intros [= <- <-].
  by rewrite (IH x y eq_refl).
Qed.

Lemma wal_number_name name n : wal_number name = Some n -> exists x, name = bs "wal-" ++ x ++ bs ".log".
Proof.
  unfold wal_number. case_bool_decide as H4; [|done]. cbn [negb].
  destruct (span_digits (drop 4 name)) as [a b] eqn:E. apply span_digits_app in E. case_bool_decide; [done|].
  case_bool_decide as Hb; [|done]. intros _. exists a. rewrite <- (take_drop 4 name), H4, E, Hb. done.
Qed.

Lemma is_wal_name files dir n p : is_wal files dir n p -> exists x, p = dir ++ bs "/wal" ++ x ++ bs ".log".
Proof.
  intros [(_ & -> & _)|(name & -> & _ & Hn & _)]; [by exists []|].
  destruct (wal_number_name _ _ Hn) as [x ->]. by exists (bs "-" ++ x).
Qed.

Lemma app_suffix_ne (a b : bytes) (s t : bytes) : length s = length t -> s <> t -> a ++ s <> b ++ t.
Proof. intros Hl Hne Heq. apply app_inj_2 in Heq as [_ ?]; done. Qed.

(** The name the database gives to a log reads back as its number. *)
Lemma strtoull_to_string n : 0 <= n < 2 ^ 64 -> strtoull_digits (to_string n) = n.
Proof.
  apply to_string_fold. intros m Hm. rewrite digit_value by lia. lia.
Qed.

Lemma span_digits_run a c b :
  Forall (fun c => is_digit c = true) a -> is_digit c = false -> span_digits (a ++ c :: b) = (a, c :: b).
Proof. intros Ha Hc. induction Ha as [|x a Hx _ IH]; simpl; [by rewrite Hc|]. by rewrite Hx, IH. Qed.

Lemma wal_number_make n : 0 <= n < 2 ^ 64 -> wal_number (bs "wal-" ++ to_string n ++ bs ".log") = Some n.
Proof.
  intros Hn. unfold wal_number. rewrite take_app_length' by done. rewrite bool_decide_eq_true_2 by done. cbn [negb].
  rewrite (drop_app_exact _ _ 4) by done.
  change (bs ".log") with (z2b 46 :: bs "log"). rewrite span_digits_run by (done || apply to_string_digits).
  rewrite bool_decide_eq_false_2 by (pose proof (to_string_nonempty n); intros E; rewrite E in *; simpl in *; lia).
  rewrite bool_decide_eq_true_2 by done. by rewrite strtoull_to_string.
Qed.

Lemma wal_name_flat n : z2b 47 ∉ bs "wal-" ++ to_string n ++ bs ".log".
Proof.
  rewrite !not_elem_of_app. split; [vm_compute; set_solver|]. split; [|vm_compute; set_solver].
  intros Hin. pose proof (to_string_digits n) as Hd. rewrite Forall_forall in Hd. by specialize (Hd _ Hin).
Qed.

(** Log files are neither tables nor part of the manifest. *)
Lemma wal_apart dir x :
  let p := dir ++ bs "/wal" ++ x ++ bs ".log" in
  (forall live n, ~ orphan live dir n p) /\ p <> dir ++ bs "/MANIFEST" /\
  p <> (dir ++ bs "/MANIFEST") ++ bs ".new" /\ p <> (dir ++ bs "/MANIFEST") ++ bs ".bak".
Proof.
  intros p. split; [|split; [|split]].
  - intros live n Ho. destruct (orphan_sst _ _ _ _ Ho) as [q Hq]. unfold p in Hq. rewrite !app_assoc in Hq.
    revert Hq. apply app_suffix_ne; [done|]. vm_compute. congruence.
  - unfold p. intros E%app_inv_head. discriminate E.
  - unfold p. rewrite <- app_assoc. intros E%app_inv_head. discriminate E.
  - unfold p. rewrite <- app_assoc. intros E%app_inv_head. discriminate E.
Qed.

Lemma is_wal_same files files' dir n p :
  (forall x, files' !! (dir ++ bs "/wal" ++ x ++ bs ".log") = files !! (dir ++ bs "/wal" ++ x ++ bs ".log")) ->
  is_wal files' dir n p <-> is_wal files dir n p.
Proof.
  intros Hs. assert (forall f, is_wal f dir n p -> files' !! p = files !! p) as Hp.
  { intros f [x ->]%is_wal_name. apply Hs. }
  split; intros Hw; pose proof (Hp _ Hw) as E; unfold is_wal in *.
  - rewrite E in Hw. destruct Hw as [(-> & -> & c & d & Hc)|(name & -> & ? & ? & ?)]; [left|right]; [eauto 10|].
    exists name. rewrite <- E. rewrite E. done.
  - rewrite E. done.
Qed.

(** ** Replaying the log files *)

(** Each log file holds the encodings of batches of operations, whole records first. *)
Definition wal_content (files : gmap bytes bytes) (w : Z * bytes) (opss : list (list BatchOp)) : Prop :=
  wal_holds (fs_of files) w.2 (encode_batch <$> opss).

(** The file number allocator is a 64-bit number. *)
Definition numbered (v : Version) : Prop := 0 <= v_next_file_number v < 2 ^ 64.

Lemma numbered_ensure v n : numbered v -> numbered (v_ensureNextFileNumberAtLeast v (u64 n)).
Proof. unfold numbered, v_ensureNextFileNumberAtLeast, raise_next. simpl. pose proof (u64_range n). destruct (_ >? _); lia. Qed.

Lemma replay_wals_ok files wals opsss db l :
  Forall2 (wal_content files) wals opsss -> db_rep db l [] -> 0 <= db_seq db ->
  db_seq db + zlen (concat (concat opsss)) < 2 ^ 56 ->
  exists db' v', replay_wals (fs_of files) db wals = Some (fs_of files, db', SOk) /\
    db_seq db' = db_seq db + zlen (concat (concat opsss)) /\
    db_rep db' (mt_inserts (op_writes (db_seq db - 1) (concat (concat opsss))) l) [] /\
    replay_step (with_version db v') db' /\ v_levels v' = v_levels (db_version db) /\ v_manifest v' = v_manifest (db_version db) /\
    (numbered (db_version db) -> numbered v') /\
    v_next_file_number v' = foldl (fun a w => raise_next a (u64 (w.1 + 1))) (v_next_file_number (db_version db)) wals.
Proof.
  intros Hall. revert db l. induction Hall as [|[n p] opss wals opsss Hw _ IH]; intros db l Hr H0 H1; cbn [replay_wals].
  { exists db, (db_version db). change (zlen (concat (concat []))) with 0. rewrite Z.add_0_r. split; [done|]. split; [done|].
    split; [done|]. split; [|done]. replace (with_version db (db_version db)) with db by by destruct db. apply replay_step_refl. }
  set (db0 := with_version db _). cbn [concat] in *. rewrite concat_app in *. rewrite zlen_app in *.
  pose proof (zlen_nonneg (concat (concat opsss))). pose proof (zlen_nonneg (concat opss)).
  destruct Hw as (tl & Hrd & Ht & Hf). cbn [snd] in Hrd.
  unfold replayWalFile, WAL_new. rewrite fs_open_ok. unfold fs_read in Hrd. cbn [fs_files fs_of fs_script] in Hrd.
  rewrite Hrd. cbn [from_option id]. rewrite insert_id by done.
  rewrite (wal_replay_holds (fs_of files) p (encode_batch <$> opss)) by by exists tl.
  destruct (replay_records_ok opss db0 l []) as (db1 & -> & Hs1 & Hr1 & Hst1).
  { by destruct Hr. }
  { rewrite Forall_fmap in Hf. exact Hf. }
  { done. }
  { simpl; lia. }
  cbn [mbind option_bind]. simpl (negb (ok SOk)). cbn iota. destruct Hst1 as (q & coins & sq & ->).
  cbn [db_seq with_seq] in Hs1. change (db_seq db0) with (db_seq db) in *. subst sq.
  destruct (IH _ _ Hr1) as (db2 & v2 & -> & Hs2 & Hr2 & Hst2 & Hl2 & Hm2 & Hn2 & Hx2); [simpl; lia..|].
  exists db2, v2. split; [done|]. cbn [db_seq with_seq] in Hs2, Hr2. split; [lia|].
  split; [|split; [|split; [done|split; [done|split; [intros Hn; by apply Hn2, numbered_ensure|exact Hx2]]]]].
  - rewrite op_writes_app. unfold mt_inserts in *. rewrite foldl_app.
    replace (db_seq db - 1 + zlen (concat opss)) with (db_seq db + zlen (concat opss) - 1) by lia. done.
  - destruct Hst2 as (q2 & c2 & s2 & ->). by exists q2, c2, s2.
Qed.

(** ** Opening *)

Definition dir_of (options : Options) : bytes :=
  if bool_decide (db_path options = []) then bs "./minikv_data" else db_path options.

(** A directory that can be opened: the manifest describes the roster [lv], the log files are
    [wals], oldest generation first, holding the operations [opsss]. *)
Record recoverable (dir : bytes) (files : gmap bytes bytes) (lv : levels) (wals : list (Z * bytes))
  (opsss : list (list (list BatchOp))) : Prop := {
  rc_manifest : mf_dir files (dir ++ bs "/MANIFEST") lv;
  rc_wals n p : (n, p) ∈ wals <-> is_wal files dir n p;
  rc_sorted : sorted_by Z.compare wals.*1;
  rc_content : Forall2 (wal_content files) wals opsss;
  rc_seq : zlen (concat (concat opsss)) < 2 ^ 56;
}.

(** A name recovery may change: the manifest's files, orphan tables, the new log. *)
Definition touched (dir : bytes) (q : bytes) : Prop :=
  (exists x, q = dir ++ bs "/MANIFEST" ++ x) \/ (exists x, q = dir ++ bs "/wal" ++ x).

Lemma install_memtable_rep db : ms_immutable (db_mems db) = [] -> db_rep (install_memtable db) [] [].
Proof.
  intros Hi. split; simpl.
  - do 2 eexists. split; [done|]. split; [apply mt_rep_new|done].
  - rewrite Hi. constructor.
Qed.

(** The part of recovery before the logs: manifest, purge, snapshot. *)
Lemma recover_manifest files db lv wals opsss :
  recoverable (db_dir db) files lv wals opsss ->
  exists f1 m1 f2 f3 m3 es,
    mf_open (fs_of files) (Manifest_new (db_dir db)) = Some (fs_of f1, m1, SOk) /\
    purgeOrphanSSTables (fs_of f1) db m1 = fs_of f2 /\
    mf_rewriteSnapshot (fs_of f2) m1 = (fs_of f3, m3, SOk) /\
    lv_equiv (mf_levels m1) lv /\ lv_equiv (mf_levels m3) lv /\ mf_open_ m3 = true /\
    f3 !! mf_path m3 = Some (mf_log es) /\ mf_path m3 = db_dir db ++ bs "/MANIFEST" /\
    Forall edit_ok es /\ lv_equiv (edits_apply no_files es) lv /\
    (forall q, ~ touched (db_dir db) q -> (forall n, ~ orphan (live_paths m1) (db_dir db) n q) -> f3 !! q = files !! q) /\
    (forall x, f3 !! (db_dir db ++ bs "/wal" ++ x ++ bs ".log") = files !! (db_dir db ++ bs "/wal" ++ x ++ bs ".log")) /\
    (forall q, ~ touched (db_dir db) q -> f3 !! q = files !! q \/ f3 !! q = None).
Proof.
  intros Hrc. unfold Manifest_new. set (path := db_dir db ++ bs "/MANIFEST").
  destruct (mf_open_dir files path [] lv (rc_manifest _ _ _ _ _ Hrc)) as (f1 & lv1 & d & es1 & E1 & Hlv1 & Hd & Hes1 & Heq1 & Ho1).
  set (m1 := mkManifest path true lv1) in *. destruct (purge_ok f1 db m1) as (f2 & E2 & _ & Hp2).
  assert (f2 !! path = Some d) as Hd2.
  { destruct (Hp2 path) as [->|[_ Hbad]]; [done|]. destruct (orphan_sst _ _ _ _ Hbad) as [x Hx]. exfalso.
    revert Hx. unfold path. change (bs "/MANIFEST") with (bs "/MANI" ++ bs "FEST"). rewrite app_assoc.
    apply app_suffix_ne; [done|]. vm_compute. congruence. }
  destruct (mf_rewriteSnapshot_ok f2 m1 d) as (f3 & lv3 & es & E3 & Hlv3 & Hf3 & Hes & Heq & Ho3).
  { by eapply roster_of_edits. }
  { done. }
  exists f1, m1, f2, f3, (mkManifest path true lv3), es.
  assert (forall q, q <> path -> q <> path ++ bs ".new" -> q <> path ++ bs ".bak" ->
    f3 !! q = files !! q \/ (f3 !! q = None /\ exists n, orphan (live_paths m1) (db_dir db) n q)) as Hany.
  { intros q Q1 Q2 Q3. rewrite Ho3 by done. destruct (Hp2 q) as [->|[-> Hbad]]; [left; by apply Ho1|right]. split; [done|]. by eexists. }
  assert (forall q, ~ touched (db_dir db) q -> q <> path /\ q <> path ++ bs ".new" /\ q <> path ++ bs ".bak") as Ht.
  { intros q Hq. split_and!; intros ->; apply Hq; left; unfold path; [exists []; by rewrite app_nil_r|eexists; by rewrite <- app_assoc..]. }
  do 3 (split; [done|]). split; [done|]. split; [simpl; by rewrite Hlv3|]. split; [done|]. split; [done|]. split; [done|].
  split; [done|]. split; [by rewrite Heq|]. split_and!.
  - intros q Hq Hn. destruct (Ht q Hq) as (Q1 & Q2 & Q3). destruct (Hany q Q1 Q2 Q3) as [?|[_ [n Hbad]]]; [done|]. by destruct (Hn n).
  - intros x. destruct (wal_apart (db_dir db) x) as (A1 & A2 & A3 & A4). destruct (Hany _ A2 A3 A4) as [?|[_ [n Hbad]]]; [done|]. by destruct (A1 _ _ Hbad).
  - intros q Hq. destruct (Ht q Hq) as (Q1 & Q2 & Q3). destruct (Hany q Q1 Q2 Q3) as [?|[? _]]; auto.
Qed.

(** A file recovery keeps: not [touched], and named by the roster or not a table. *)
Definition kept (dir : bytes) (lv : levels) (q : bytes) : Prop :=
  ~ touched dir q /\ ((exists i f, f ∈ lv_at lv i /\ sm_path f = q) \/ (forall p, q <> p ++ bs ".sst")).

Lemma kept_not_orphan dir lv m q n : lv_equiv (mf_levels m) lv -> kept dir lv q -> ~ orphan (live_paths m) dir n q.
Proof.
  intros Heq [_ [(i & f & Hf & <-)|Hs]] Ho.
  - apply orphan_not_live in Ho. apply Ho. apply list_elem_of_fmap_2, elem_of_levels. exists i. by rewrite Heq.
  - apply orphan_sst in Ho as [p Hp]. by apply (Hs p).
Qed.

(** Opening the log to append to touches no file but a log file. *)
Lemma open_last_wal files db (wals : list (Z * bytes)) :
  exists files' db', match last wals with
    | None => let '(n, v) := v_nextFileNumber (db_version db) in Some (openWal (fs_of files) (with_version db v) n)
    | Some (_, path) =>
        let '(fs, w) := WAL_new (fs_of files) path in
        Some (fs, with_logs db (mkLogs (Some w) path (snd <$> take (length wals - 1) wals)), SOk)
    end = Some (fs_of files', db', SOk) /\
    (exists v' lg, db' = with_logs (with_version db v') lg /\ v_levels v' = v_levels (db_version db) /\
       v_manifest v' = v_manifest (db_version db)) /\
    (forall q, files' !! q = files !! q \/ (exists n, (n, q) ∈ wals) \/ exists n, q = makeWalPath db n) /\
    match last wals with
    | Some (_, p) => db_logs db' = mkLogs (Some (mkWAL p true)) p (snd <$> take (length wals - 1) wals) /\
                     db_version db' = db_version db /\ files' = <[p := default [] (files !! p)]> files
    | None => let n := v_next_file_number (db_version db) in let path := makeWalPath db n in
              db_logs db' = mkLogs (Some (mkWAL path true)) path (lg_obsolete (db_logs db)) /\
              v_next_file_number (db_version db') = u64 (n + 1) /\ files' = <[path := default [] (files !! path)]> files
    end.
Proof.
  destruct (last wals) as [[n p]|] eqn:El.
  - unfold WAL_new. rewrite fs_open_ok. do 2 eexists. split; [done|]. split.
    + exists (db_version db), (mkLogs (Some (mkWAL p true)) p (snd <$> take (length wals - 1) wals)). by destruct db.
    + split; [|done].
      intros q. destruct (decide (q = p)) as [->|Hne]; [|left; by rewrite lookup_insert_ne].
      right. left. exists n. by apply last_Some_elem_of.
  - destruct (v_nextFileNumber (db_version db)) as [n v] eqn:En. unfold v_nextFileNumber in En. injection En as <- <-.
    unfold openWal, WAL_new. rewrite fs_open_ok. do 2 eexists. split; [done|]. split; [by do 2 eexists|].
    split; [|split; [done|split; [cbn; unfold raise_next; by rewrite Z.gtb_ltb, Z.ltb_irrefl|done]]].
    intros q. match goal with |- <[?p := _]> files !! _ = _ \/ _ => destruct (decide (q = p)) as [->|Hne] end;
      [|left; by rewrite lookup_insert_ne].
    right. right. by eexists.
Qed.

(** A new log in a directory without logs is its only log, and empty. *)
Lemma fresh_wal files f3 db wals n (lg : option WAL) :
  (forall n p, (n, p) ∈ wals <-> is_wal files (db_dir db) n p) -> wals = [] ->
  (forall x, f3 !! (db_dir db ++ bs "/wal" ++ x ++ bs ".log") = files !! (db_dir db ++ bs "/wal" ++ x ++ bs ".log")) ->
  0 <= n < 2 ^ 64 -> lg = Some (mkWAL (makeWalPath db n) true) ->
  let path := db_dir db ++ bs "/wal-" ++ to_string n ++ bs ".log" in
  let files' := <[path := default [] (f3 !! path)]> f3 in
  lg = Some (mkWAL path true) /\ files' !! path = Some [] /\
  (forall k p, is_wal files' (db_dir db) k p <-> k = n /\ p = path).
Proof.
  intros Hin -> Hs Hn -> path files'. split; [done|].
  assert (forall k p, ~ is_wal f3 (db_dir db) k p) as Hno.
  { intros k p Hw. apply (is_wal_same files) in Hw; [|done]. apply Hin in Hw. by apply not_elem_of_nil in Hw. }
  assert (f3 !! path = None) as Hnone.
  { apply eq_None_not_Some. intros Hf. apply (Hno n path). right. exists (bs "wal-" ++ to_string n ++ bs ".log").
    split; [done|]. split; [apply wal_name_flat|]. split; [by apply wal_number_make|done]. }
  unfold files'. rewrite Hnone, lookup_insert_eq. split; [done|]. intros k p. split.
  - intros Hw. destruct (decide (p = path)) as [->|Hne].
    + split; [|done]. destruct Hw as [(_ & E & _)|(name & E & _ & Hk & _)]; unfold path in E; apply app_inv_head in E; [discriminate E|].
      apply (f_equal (drop 1)) in E. change (drop 1 (bs "/" ++ name)) with name in E. rewrite <- E in Hk.
      change (wal_number (bs "wal-" ++ to_string n ++ bs ".log") = Some k) in Hk. rewrite (wal_number_make n Hn) in Hk. congruence.
    + destruct (Hno k p). unfold is_wal in *. by rewrite lookup_insert_ne in Hw.
  - intros [-> ->]. right. exists (bs "wal-" ++ to_string n ++ bs ".log"). split; [done|]. split; [apply wal_name_flat|].
    split; [by apply wal_number_make|]. rewrite lookup_insert_eq. by eexists.
Qed.

(** The next file number of a version restored from a roster. *)
Definition restored_next (lv : levels) : Z := v_next_file_number (v_restoreFrom Version_new lv).

(** What opening leaves besides the data: the log to append to (the last one found, or a new
    one when there was none), the allocator past every number found, empty queues. *)
Record opened (options : Options) (files : gmap bytes bytes) (wals : list (Z * bytes)) (n : Z)
  (files' : gmap bytes bytes) (db : DB) : Prop := {
  op_dir : db_dir db = dir_of options;
  op_queue : ms_queue (db_mems db) = [];
  op_compaction : exists cm, db_compaction db = Some cm /\ cm_db_path cm = dir_of options /\ cm_max_level cm = max_level options;
  op_number : 0 <= n < 2 ^ 64;
  op_other : forall q, ~ touched (dir_of options) q -> files' !! q = files !! q \/ files' !! q = None;
  op_logs : match last wals with
    | Some (_, p) => db_logs db = mkLogs (Some (mkWAL p true)) p (snd <$> take (length wals - 1) wals) /\
        v_next_file_number (db_version db) = foldl (fun a w => raise_next a (u64 (w.1 + 1))) n wals /\
        (forall x, files' !! (dir_of options ++ bs "/wal" ++ x ++ bs ".log") = files !! (dir_of options ++ bs "/wal" ++ x ++ bs ".log"))
    | None => let path := dir_of options ++ bs "/wal-" ++ to_string n ++ bs ".log" in
        db_logs db = mkLogs (Some (mkWAL path true)) path [] /\ v_next_file_number (db_version db) = u64 (n + 1) /\
        files' !! path = Some [] /\ (forall k p, is_wal files' (dir_of options) k p <-> k = n /\ p = path)
    end;
}.

(** The file number a restored version continues from is a machine word. *)
Lemma restored_next_range lv : 0 <= restored_next lv < 2 ^ 64.
Proof.
  unfold restored_next, v_restoreFrom. cbn [v_next_file_number]. destruct (_ >=? _); [apply u64_range|]. cbn. lia.
Qed.

(** Logs that kept their bytes keep their contents. *)
Lemma wal_contents_same files files' (wals : list (Z * bytes)) opsss :
  (forall n p, (n, p) ∈ wals -> files' !! p = files !! p) ->
  Forall2 (wal_content files) wals opsss -> Forall2 (wal_content files') wals opsss.
Proof.
  intros Hin Hc. induction Hc as [|[n p] y l k Hxy _ IH]; constructor.
  - destruct Hxy as (tl & Hr & Ht). exists tl. split; [|done]. unfold fs_read in *. simpl in *.
    by rewrite (Hin n p ltac:(left)).
  - apply IH. intros n' p' Hn. apply (Hin n'). by right.
Qed.

(** Reopening the last log for appending changes no log. *)
Lemma last_wal_same (files f3 : gmap bytes bytes) dir (wals : list (Z * bytes)) n p x :
  (forall n p, (n, p) ∈ wals <-> is_wal files dir n p) -> last wals = Some (n, p) ->
  (forall x, f3 !! (dir ++ bs "/wal" ++ x ++ bs ".log") = files !! (dir ++ bs "/wal" ++ x ++ bs ".log")) ->
  <[p := default [] (f3 !! p)]> f3 !! (dir ++ bs "/wal" ++ x ++ bs ".log") = files !! (dir ++ bs "/wal" ++ x ++ bs ".log").
Proof.
  intros Hin El Hwal. assert (is_Some (f3 !! p)) as [d Hd].
  { apply last_Some_elem_of in El. apply Hin in El. apply (is_wal_same files f3) in El; [|done].
    destruct El as [(_ & _ & c & d & ?)|(_ & _ & _ & _ & ?)]; [by eexists|done]. }
  rewrite Hd. cbn [from_option id]. rewrite insert_id by done. apply Hwal.
Qed.

Lemma db_open_ok files options coins lv wals opsss :
  recoverable (dir_of options) files lv wals opsss ->
  exists files' db m es, db_open (fs_of files) options coins = Some (fs_of files', db, SOk) /\
    db_options db = options /\ db_cache db = db_cache (DBImpl_new options coins) /\
    db_seq db = zlen (concat (concat opsss)) /\
    db_rep db (mt_inserts (op_writes (-1) (concat (concat opsss))) []) [] /\
    v_durable files' (db_version db) m es /\ mf_path m = dir_of options ++ bs "/MANIFEST" /\
    lv_equiv (v_levels (db_version db)) lv /\
    (forall q, kept (dir_of options) lv q -> files' !! q = files !! q) /\
    exists lv', lv_equiv lv' lv /\ opened options files wals (restored_next lv') files' db.
Proof.
  intros Hrc. unfold db_open, recover. set (db0 := DBImpl_new options coins).
  change (dir_of options) with (db_dir db0) in *.
  destruct (recover_manifest files db0 lv wals opsss Hrc)
    as (f1 & m1 & f2 & f3 & m3 & es & -> & E2 & E3 & Hlv1 & Hlv3 & Hop & Hf3 & Hp3 & Hes & Heq & Hsame & Hwal & Hany).
  cbn [mbind option_bind]. simpl (negb (ok SOk)). cbn iota. rewrite E2, E3. cbn iota. simpl (negb (ok SOk)). cbn iota.
  set (v1 := v_setManifest (v_restoreFrom _ _) m3). set (db1 := install_memtable (with_version db0 v1)).
  assert (lv_equiv (v_levels v1) lv) as Hv1 by (unfold v1; simpl; etransitivity; [apply (restoreFrom_equiv Version_new)|done]).
  assert (listWalFiles (fs_of f3) db1 = wals) as ->.
  { apply listWalFiles_spec; [|apply Hrc]. intros n p. rewrite (rc_wals _ _ _ _ _ Hrc). symmetry. by apply is_wal_same. }
  assert (forall n p, (n, p) ∈ wals -> f3 !! p = files !! p /\ exists x, p = db_dir db0 ++ bs "/wal" ++ x) as Hin.
  { intros n p Hp. apply (rc_wals _ _ _ _ _ Hrc), is_wal_name in Hp as [x ->]. split; [apply Hwal|by exists (x ++ bs ".log")]. }
  destruct (replay_wals_ok f3 wals opsss db1 []) as (db2 & v2 & -> & Hs2 & Hr2 & Hst2 & Hl2 & Hm2 & Hn2 & Hx2).
  { eapply wal_contents_same; [|apply Hrc]. intros n p Hn. by apply (Hin n). }
  { by apply install_memtable_rep. }
  { simpl; lia. }
  { simpl. apply Hrc. }
  cbn [mbind option_bind]. simpl (negb (ok SOk)). cbn iota.
  destruct (open_last_wal f3 db2 wals) as (f4 & db4 & -> & (v4 & lg & -> & Hl4 & Hm4) & Hf4 & Hnew). cbn [mbind option_bind].
  destruct Hst2 as (q2 & c2 & s2 & ->). cbn [db_seq with_seq db1] in Hs2. simpl (negb (ok SOk)). cbn iota.
  assert (forall q, f4 !! q = f3 !! q \/ exists x, q = db_dir db0 ++ bs "/wal" ++ x) as Hf4'.
  { intros q. destruct (Hf4 q) as [?|[[n Hn]|[n ->]]]; [by left|right..]; [by apply Hin in Hn as [_ ?]|].
    by exists (bs "-" ++ to_string n ++ bs ".log"). }
  assert (f4 !! mf_path m3 = f3 !! mf_path m3) as Hmf.
  { rewrite Hp3. destruct (Hf4' (db_dir db0 ++ bs "/MANIFEST")) as [?|[x Hx]]; [done|].
    apply app_inv_head in Hx. discriminate Hx. }
  eexists f4, _, m3, es. split; [done|]. cbn in Hl4, Hm4. split; [done|]. split; [done|]. split; [exact Hs2|].
  split; [by destruct Hr2|]. split; [|split; [done|split; [|split]]].
  - split; simpl; [by rewrite Hm4, Hm2|done|by rewrite Hmf|done|..];
      (transitivity lv; [done|]; rewrite Hl4, Hl2; symmetry; exact Hv1).
  - simpl. by rewrite Hl4, Hl2.
  - intros q Hk. destruct (Hf4' q) as [->|Hbad].
    + apply Hsame; [apply Hk|]. intros n. by eapply kept_not_orphan.
    + exfalso. apply Hk. by right.
  - exists (mf_levels m1). split; [done|].
    assert (v_next_file_number (db_version db1) = restored_next (mf_levels m1)) as Hbase by done.
    pose proof (restored_next_range (mf_levels m1)) as Hrange.
    assert (forall q, ~ touched (dir_of options) q -> f4 !! q = files !! q \/ f4 !! q = None) as Hother.
    { intros q Hq. destruct (Hf4' q) as [->|Hbad]; [by apply Hany|]. destruct Hq. by right. }
    split; [done|done|by eexists|done|exact Hother|]. clear Hother. destruct (last wals) as [[n p]|] eqn:El; cbn in Hnew.
    + destruct Hnew as (Hlg & Hver & ->). split; [exact Hlg|]. cbn. rewrite Hver. split; [by rewrite Hx2, Hbase|].
      intros x. by eapply last_wal_same; [apply Hrc|..].
    + apply last_None in El. subst wals. destruct Hnew as (Hlg & Hver & ->).
      assert (v_next_file_number v2 = restored_next (mf_levels m1)) as En by exact Hx2.
      assert (lg = mkLogs (Some (mkWAL (makeWalPath db0 (v_next_file_number v2)) true)) (makeWalPath db0 (v_next_file_number v2)) []) as Hlg' by exact Hlg.
      assert (v_next_file_number v4 = u64 (v_next_file_number v2 + 1)) as Hver' by exact Hver.
      match goal with |- context [<[?p := _]> f3] =>
        replace p with (makeWalPath db0 (restored_next (mf_levels m1))) by (rewrite <- En; reflexivity) end.
      rewrite En in Hlg', Hver'.
      destruct (fresh_wal files f3 db0 [] (restored_next (mf_levels m1)) (lg_wal lg)) as (_ & F2 & F3); [apply Hrc|done|done|done|by rewrite Hlg'|].
      split; [exact Hlg'|]. split; [exact Hver'|]. by split.
Qed.

(** ** Reopening a database *)

(** The tables of a roster in the order reads visit them. *)
Definition roster_paths (lv : levels) (n : nat) : list bytes := concat ((fun l => sm_path <$> lv_at lv l) <$> seq 0 n).

Lemma read_order_roster db lv :
  lv_equiv (v_levels (db_version db)) lv ->
  read_order db = roster_paths lv (Z.to_nat (max_level (db_options db) + 1)).
Proof.
  intros Heq. unfold read_order, roster_paths. f_equal. apply list_fmap_ext. intros i x _.
  rewrite v_getLevelFiles_at, Nat2Z.id, Heq by lia. done.
Qed.

Lemma recovered_visible ops uk :
  zlen ops < 2 ^ 56 -> visible uk (mt_inserts (op_writes (-1) ops) []) = ops_store ops ∅ !! uk ≫= id.
Proof.
  intros Hz. destruct (store_of_run (op_writes (-1) ops) (-1) [] ∅) as (hi & _ & Hs);
    [lia|apply store_of_nil|apply op_writes_seqs; lia|].
  by rewrite (store_of_visible _ _ _ uk Hs), op_writes_store.
Qed.

(** Table files live in the level directories. *)
Definition level_path (dir p : bytes) : Prop := exists x, p = dir ++ bs "/level-" ++ x.

Lemma level_path_kept dir p : level_path dir p -> ~ touched dir p.
Proof.
  intros [x ->] [[y Hy]|[y Hy]]; apply app_inv_head in Hy; discriminate Hy.
Qed.

Lemma level_path_bloom dir p : level_path dir p -> level_path dir (p ++ bs ".bloom").
Proof. intros [x ->]. exists (x ++ bs ".bloom"). by rewrite <- !app_assoc. Qed.

Lemma bloom_not_sst (p q : bytes) : p ++ bs ".bloom" <> q ++ bs ".sst".
Proof.
  change (bs ".bloom") with (bs ".b" ++ bs "loom"). rewrite app_assoc. apply app_suffix_ne; [done|]. vm_compute. congruence.
Qed.

Section Codec.
Context `{HC : Codecs}.

Lemma tables_kept dir files files' lv n ls :
  Forall (level_path dir) (roster_paths lv n) -> Forall2 (table files) (roster_paths lv n) ls ->
  (forall q, kept dir lv q -> files' !! q = files !! q) -> Forall2 (table files') (roster_paths lv n) ls.
Proof.
  intros Hlp Ht Hk.
  assert (Forall (fun p => exists i f, f ∈ lv_at lv i /\ sm_path f = p) (roster_paths lv n)) as Hin.
  { apply Forall_forall. intros p Hp. unfold roster_paths in Hp. apply list_elem_of_In, in_concat in Hp as (w & Hw & Hp).
    apply list_elem_of_In, list_elem_of_fmap in Hw as (i & -> & _).
    apply list_elem_of_In, list_elem_of_fmap in Hp as (f & -> & Hf). by exists i, f. }
  induction Ht as [|p l ps ls [Hs Hwf] _ IH]; constructor; inversion Hlp; inversion Hin; subst; [|by apply IH].
  split; [|done]. eapply sst_file_same; [apply Hk|apply Hk|done].
  - split; [by apply level_path_kept|by left].
  - split; [by apply level_path_kept, level_path_bloom|]. right. intros q. apply bloom_not_sst.
Qed.

Lemma cache_valid_new files options coins :
  0 <= lru_cache_capacity options < 2 ^ 63 -> cache_valid files (db_cache (DBImpl_new options coins)).
Proof.
  intros Hc. simpl. destruct (_ >? 0); [|done]. exists []. split; [apply bc_rep_new; lia|]. split; [simpl; lia|].
  by intros path off d Hd%not_elem_of_nil.
Qed.

Lemma db_reopen_ok (files : gmap bytes bytes) (options : Options) (coins : list (list bool)) (lv : levels)
  (wals : list (Z * bytes)) (opsss : list (list (list BatchOp))) (tables : list (list entry)) :
  recoverable (dir_of options) files lv wals opsss -> 0 <= lru_cache_capacity options < 2 ^ 63 ->
  let paths := roster_paths lv (Z.to_nat (max_level options + 1)) in
  Forall (level_path (dir_of options)) paths -> Forall2 (table files) paths tables ->
  exists fs db, db_open (fs_of files) options coins = Some (fs, db, SOk) /\
    forall uk, exists db',
      let answer := match ops_store (concat (concat opsss)) ∅ !! uk ≫= id with
                    | Some v => Some v | None => first_live uk tables end in
      db_get fs db uk = Some (db', match answer with Some _ => SOk | None => SNotFound [] end, answer).
Proof.
  intros Hrc Hcap paths Hlp Ht.
  destruct (db_open_ok files options coins lv wals opsss Hrc) as (f' & db & m & es & E & Ho & Hca & _ & Hr & _ & _ & Hlv & Hk & _).
  exists (fs_of f'), db. split; [done|]. intros uk.
  destruct (db_get_ok f' db _ [] tables uk Hr) as (c' & _ & Hg).
  { rewrite (read_order_roster db lv Hlv), Ho. by eapply tables_kept. }
  { rewrite Hca. by apply cache_valid_new. }
  exists (with_cache db c'). cbn [reverse rev_append app first_live] in Hg.
  by rewrite (recovered_visible _ uk (rc_seq _ _ _ _ _ Hrc)) in Hg.
Qed.

(** The tables of each level of a roster. *)
Definition roster_tables (files : gmap bytes bytes) (lv : levels) (n : nat) (tabs : list (list (list entry))) : Prop :=
  Forall2 (fun i ts => Forall2 (table files) (sm_path <$> lv_at lv i) ts) (seq 0 n) tabs.

Lemma roster_tables_read files lv n tabs : roster_tables files lv n tabs -> Forall2 (table files) (roster_paths lv n) (concat tabs).
Proof.
  unfold roster_tables, roster_paths. generalize (seq 0 n). intros ns Ht.
  induction Ht as [|i ts ns tabs Hts _ IH]; [constructor|]. cbn [fmap list_fmap concat]. by apply Forall2_app.
Qed.

(** C4: reopening recovers the store.  From any directory with a readable manifest, log files
    that hold whole batches (and possibly a torn tail each) and the tables the manifest names,
    opening succeeds.  Then a key of which the logs, oldest first, hold operations reads what
    the last of them says: the value put, or nothing if it is a deletion.  A key of which they
    hold none reads the current version of the tables ([reads]: greatest sequence number, a
    tombstone is nothing).  This is for the keys of which each level has at most one table
    with versions and that are in order in the levels, and that no level answers if the logs
    end by deleting them: [db_level0_reads_stale], [db_deleted_key_resurrects] show why. *)
Theorem db_reopen_recovers (files : gmap bytes bytes) (options : Options) (coins : list (list bool)) (lv : levels)
  (wals : list (Z * bytes)) (opsss : list (list (list BatchOp))) (tabs : list (list (list entry))) :
  recoverable (dir_of options) files lv wals opsss -> 0 <= lru_cache_capacity options < 2 ^ 63 ->
  let n := Z.to_nat (max_level options + 1) in
  Forall (level_path (dir_of options)) (roster_paths lv n) -> roster_tables files lv n tabs ->
  exists fs db, db_open (fs_of files) options coins = Some (fs, db, SOk) /\
    forall uk, let logged := ops_store (concat (concat opsss)) ∅ !! uk in
      Forall (one_table uk) tabs -> ordered uk (@concat entry <$> tabs) ->
      (logged = Some None -> Forall (fun l => reads uk l None) (@concat entry <$> tabs)) ->
      exists db' answer, db_get fs db uk = Some (db', match answer with Some _ => SOk | None => SNotFound [] end, answer) /\
        match logged with
        | Some last => answer = last
        | None => reads uk (concat (concat tabs)) answer
        end.
Proof.
  intros Hrc Hcap n Hlp Ht. apply roster_tables_read in Ht.
  destruct (db_reopen_ok files options coins lv wals opsss (concat tabs) Hrc Hcap Hlp Ht) as (fs & db & E & Hget).
  exists fs, db. split; [done|]. intros uk logged Hone Hord Hdel. destruct (Hget uk) as [db' Hg]. fold logged in Hg.
  do 2 eexists. split; [exact Hg|]. destruct logged as [[v|]|]; cbn [mbind option_bind id].
  - done.
  - apply first_live_silent; [by eapply tables_sorted|]. apply levels_silent; [done|by apply Hdel].
  - apply first_live_reads; [by eapply tables_sorted|]. by apply (ordered_levels uk []).
Qed.
End Codec.

(** ** A crash during a sequence of writes *)

(** The groups are written one after another; for each, whether it was acknowledged. *)
Fixpoint write_groups (fs : FS) (db : DB) (groups : list (list GroupEntry)) : option (FS * DB * list bool) :=
  match groups with
  | [] => Some (fs, db, [])
  | g :: groups =>
      '(fs, db, s) ← doWriteGroup fs db g;
      '(fs, db, acks) ← write_groups fs db groups;
      Some (fs, db, ok s :: acks)
  end.

Lemma log_group_calm fs db group path :
  lg_wal (db_logs db) = Some (mkWAL path true) -> calm fs -> wal_fits (group_data group) ->
  let '(fs', s) := log_group fs db group in
  calm fs' /\ (ok s = false -> fs_crashed fs' = true) /\ (forall q, q <> path -> fs_read fs' q = fs_read fs q).
Proof.
  intros Hw Hc Hf. unfold log_group. rewrite Hw. fold (group_data group).
  pose proof (wal_append_calm fs path (group_data group) Hc Hf) as Ha. destruct (wal_append fs _ _) as [fs1 s1].
  destruct Ha as (C1 & F1 & O1). destruct (ok s1) eqn:Es; cbn [negb]; [|by repeat split; auto].
  destruct (_ && _); [|by repeat split]. unfold wal_sync. cbn [wal_open wal_fd].
  pose proof (fs_fdatasync_calm fs1 (Some path) C1) as C2. pose proof (fs_fdatasync_files fs1 (Some path)) as E2.
  revert C2 E2. unfold fs_fdatasync. pose proof (calm_next fs1 C1) as [_ Hcr].
  destruct (next_fault fs1) as [[n|] fs2]; simpl in *; intros C2 E2; (split; [done|]; split; [auto|]);
    intros q Hq; unfold fs_read in *; rewrite E2; by apply O1.
Qed.

(** After a crash every write fails and nothing on disk changes. *)
Lemma write_groups_crashed groups fs db path :
  fs_crashed fs = true -> lg_wal (db_logs db) = Some (mkWAL path true) -> Forall (fun g => g <> []) groups ->
  exists db', write_groups fs db groups = Some (fs, db', replicate (length groups) false).
Proof.
  intros Hc Hw Hne. revert db Hw. induction Hne as [|g groups Hg _ IH]; intros db Hw; cbn [write_groups]; [by exists db|].
  unfold doWriteGroup. rewrite bool_decide_eq_false_2 by done. destruct (reserve_seqs _ _) as [bases sq].
  assert (exists m, log_group fs (with_seq db sq) g = (fs, SIOError m)) as [msg ->].
  { unfold log_group. cbn [db_logs with_seq]. rewrite Hw. unfold wal_append, fs_write. cbn [wal_open wal_fd wal_path negb].
    destruct (next_fault fs) as [f fs']. rewrite Hc. by eexists. }
  simpl (negb (ok (SIOError msg))). cbn iota. cbn [mbind option_bind].
  destruct (IH (with_seq db sq) Hw) as (db' & ->). by exists db'.
Qed.

Lemma mt_inserts_bytes ops seq l : sl_bytes (mt_inserts (op_writes seq ops) l) <= sl_bytes l + ops_bytes ops.
Proof.
  revert seq l. induction ops as [|op ops IH]; intros seq l; [simpl; lia|]. cbn [op_writes ops_bytes foldr]. fold (ops_bytes ops).
  unfold mt_inserts in *. cbn [foldl w_key w_value w_seq w_del]. etransitivity; [apply IH|].
  unfold mt_insert. set (del := bool_decide _).
  pose proof (sl_insert_bytes (mt_ikey (op_key op) (seq + 1) del) (if del then [] else op_value op) l) as Hi.
  assert (zlen (mt_ikey (op_key op) (seq + 1) del) = zlen (op_key op) + 8) as Hk.
  { unfold mt_ikey, InternalKeyEncode. rewrite zlen_app. done. }
  pose proof (zlen_nonneg (op_value op)). destruct del; rewrite ?zlen_nil in Hi; lia.
Qed.

Definition groups_ops (groups : list (list GroupEntry)) : list BatchOp := concat (group_ops <$> groups).

Definition group_ok (g : list GroupEntry) : Prop := g <> [] /\ wal_fits (group_data g).

(** Under crashes only, the log ends up holding a prefix of the groups that includes every
    acknowledged one. *)
Lemma write_groups_ok groups fs db l path rs :
  db_rep db l [] -> logs_to fs db path rs -> calm fs -> Forall group_ok groups -> 0 <= db_seq db ->
  db_seq db + zlen (groups_ops groups) < 2 ^ 56 -> sl_bytes l + ops_bytes (groups_ops groups) < memtable_size (db_options db) ->
  memtable_size (db_options db) <= 2 ^ 64 ->
  exists fs' db' acks k, write_groups fs db groups = Some (fs', db', acks) /\
    wal_holds fs' path (rs ++ (group_data <$> take k groups)) /\
    (forall i, acks !! i = Some true -> (i < k)%nat) /\ (forall q, q <> path -> fs_read fs' q = fs_read fs q).
Proof.
  intros Hr Hlog Hc Hg. revert fs db l rs Hr Hlog Hc.
  induction Hg as [|g groups [Hne Hfit] Hg IH]; intros fs db l rs Hr Hlog Hc H0 H1 Hb Hmax; cbn [write_groups].
  { exists fs, db, [], 0%nat. split; [done|]. rewrite app_nil_r. split; [by apply wal_clean_holds, Hlog|done]. }
  change (groups_ops (g :: groups)) with (group_ops g ++ groups_ops groups) in *.
  rewrite zlen_app in H1. rewrite ops_bytes_app in Hb. pose proof (zlen_nonneg (groups_ops groups)). pose proof (zlen_nonneg (group_ops g)). pose proof (ops_bytes_nonneg (groups_ops groups)).
  destruct (doWriteGroup_cases fs db l [] g path rs Hr Hlog Hne H0) as (fs1 & db1 & s & -> & Hseq & Hcase); [lia|done|].
  pose proof (log_group_calm fs db g path (proj1 Hlog) Hc Hfit) as Hlc. cbn [mbind option_bind].
  pose proof (mt_inserts_bytes (group_ops g) (db_seq db) l) as Hmb. set (l' := mt_inserts _ l) in *.
  destruct Hcase as [(Hs & Hcl & [(Hr1 & Hlg1 & Hfs1 & Hop1 & _)|(Hfull & _)])|(Hs & Hms & Hlg1 & Hfs1 & Hcl)].
  - destruct (log_group fs db g) as [fsx sx]. cbn [fst] in Hfs1. subst fsx. destruct Hlc as (Hc1 & _ & Ho1).
    destruct (IH fs1 db1 l' (rs ++ [group_data g]) Hr1) as (fs2 & db2 & acks & k & -> & Hh & Ha & Ho2).
    + split; [by rewrite Hlg1, (proj1 Hlog)|done].
    + done.
    + lia.
    + lia.
    + rewrite Hop1. lia.
    + by rewrite Hop1.
    + exists fs2, db2, (ok s :: acks), (S k). split; [done|]. split; [by rewrite <- app_assoc in Hh|]. split.
      * intros [|i] Hi; [lia|]. specialize (Ha i Hi). lia.
      * intros q Hq. by rewrite Ho2, Ho1.
  - pose proof (sl_bytes_nonneg l'). rewrite u64_small in Hfull by lia. lia.
  - rewrite <- Hfs1 in Hlc. destruct Hlc as (_ & Hcr & Ho1). specialize (Hcr Hs).
    destruct (write_groups_crashed groups fs1 db1 path Hcr) as (db2 & ->).
    { rewrite Hlg1. apply Hlog. }
    { eapply Forall_impl; [exact Hg|]. by intros ? [? _]. }
    assert (forall i k, (ok s :: replicate (length groups) false) !! i = Some true -> (i < k)%nat) as Hno.
    { intros [|i] k; simpl; [by rewrite Hs|]. intros Hi%lookup_replicate. by destruct Hi. }
    destruct Hcl as [Hcl|Hcl].
    + exists fs1, db2, (ok s :: replicate (length groups) false), 0%nat. split; [done|]. split; [by rewrite app_nil_r|]. eauto.
    + exists fs1, db2, (ok s :: replicate (length groups) false), 1%nat. split; [done|]. split; [by apply wal_clean_holds|]. eauto.
Qed.

Lemma recoverable_empty dir : recoverable dir ∅ no_files [] [].
Proof.
  split; [right; by rewrite !lookup_empty| |constructor|constructor|done].
  intros n p. split; [by intros ?%not_elem_of_nil|].
  intros [(_ & _ & c & d & Hf)|(name & _ & _ & _ & [d Hf])]; by rewrite lookup_empty in Hf.
Qed.

(** A directory whose only change is in the content of its only log. *)
Lemma recoverable_log dir files files' m es v n path rs opss :
  v_durable files v m es -> mf_path m = dir ++ bs "/MANIFEST" -> lv_equiv (v_levels v) no_files ->
  path = dir ++ bs "/wal-" ++ to_string n ++ bs ".log" -> is_Some (files !! path) ->
  (forall k p, is_wal files dir k p <-> k = n /\ p = path) ->
  (forall q, q <> path -> files' !! q = files !! q) -> wal_holds (fs_of files') path rs -> rs = encode_batch <$> opss ->
  zlen (concat opss) < 2 ^ 56 -> recoverable dir files' no_files [(n, path)] [opss].
Proof.
  intros Hv Hm Hlv Hp Hs Hw Ho Hh Hrs Hz. subst rs. split.
  - left. left. exists (mf_log es). rewrite <- Hm. split.
    + rewrite Ho; [apply Hv|]. rewrite Hm, Hp. intros E%app_inv_head. discriminate E.
    + exists es. split; [|by rewrite (vd_disk _ _ _ _ Hv)]. exists []. rewrite app_nil_r.
      split; [done|]. split; [apply mf_torn_nil|apply Hv].
  - intros k p. rewrite list_elem_of_singleton. transitivity (k = n /\ p = path); [split; [by intros [= -> ->]|by intros [-> ->]]|].
    rewrite <- (Hw k p). assert (is_Some (files' !! path)) as Hs'.
    { destruct Hh as (tl & Hr & _). by exists (wal_log (encode_batch <$> opss) ++ tl). }
    unfold is_wal. destruct (decide (p = path)) as [->|Hne]; [|by rewrite Ho].
    assert (path <> dir ++ bs "/wal.log") as Hnl by (rewrite Hp; intros E%app_inv_head; discriminate E).
    split; (intros [(_ & E & _)|(name & E & ? & ? & _)]; [done|]; right; by exists name).
  - repeat constructor.
  - by repeat constructor.
  - simpl. by rewrite app_nil_r.
Qed.

Lemma roster_paths_none n : roster_paths no_files n = [].
Proof.
  unfold roster_paths. induction n as [|j IH]; [done|]. rewrite seq_S, fmap_app, concat_app, IH. simpl. rewrite app_nil_r.
  unfold lv_at, no_files. destruct (replicate 8 [] !! j) eqn:E; [|done]. by apply lookup_replicate in E as [-> _].
Qed.

Section CodecCrash.
Context `{HC : Codecs}.

(** C2: no acknowledged write is lost in a crash.  Open an empty database, write groups of
    batches that fit the memtable, and let the process crash in any system call (with any
    part of a write done) or not at all.  Reopening the directory succeeds, and the store is
    exactly the effect of the first [k] groups for some [k] past every acknowledged group:
    nothing acknowledged is lost, no group is applied in part, none out of order. *)
Theorem db_crash_recovery (options : Options) (coins coins' : list (list bool)) (groups : list (list GroupEntry))
  (faults : list fault) :
  Forall group_ok groups -> Forall (fun f => match f with FFail _ => False | _ => True end) faults ->
  zlen (groups_ops groups) < 2 ^ 56 -> ops_bytes (groups_ops groups) < memtable_size options <= 2 ^ 64 ->
  0 <= lru_cache_capacity options < 2 ^ 63 ->
  exists files0 db0 fs1 db1 acks k fs2 db2,
    db_open (fs_of ∅) options coins = Some (fs_of files0, db0, SOk) /\
    write_groups (fs_script files0 faults) db0 groups = Some (fs1, db1, acks) /\
    (forall i, acks !! i = Some true -> (i < k)%nat) /\
    db_open (fs_of (fs_files fs1)) options coins' = Some (fs2, db2, SOk) /\
    forall uk, exists db',
      let answer := ops_store (groups_ops (take k groups)) ∅ !! uk ≫= id in
      db_get fs2 db2 uk = Some (db', match answer with Some _ => SOk | None => SNotFound [] end, answer).
Proof.
  intros Hg Hf Hz Hb Hcap.
  destruct (db_open_ok ∅ options coins no_files [] [] (recoverable_empty _))
    as (f0 & db0 & m & es & E0 & Ho & _ & Hseq & Hr & Hv & Hm & Hlv & _ & lv' & _ & [_ _ _ _ _ (Hlw & _ & Hfile & Hwal)]).
  set (n := restored_next lv') in *. apply (f_equal lg_wal) in Hlw. set (path := dir_of options ++ bs "/wal-" ++ to_string n ++ bs ".log") in *.
  destruct (write_groups_ok groups (fs_script f0 faults) db0 [] path [] Hr) as (fs1 & db1 & acks & k & E1 & Hh & Ha & Hoth).
  { split; [done|]. split; [exact Hfile|constructor]. }
  { by right. }
  { done. }
  { by rewrite Hseq. }
  { rewrite Hseq. exact Hz. }
  { rewrite Ho. simpl. lia. }
  { rewrite Ho. lia. }
  assert (zlen (groups_ops (take k groups)) < 2 ^ 56) as Hz'.
  { rewrite <- (take_drop k groups) in Hz. unfold groups_ops in *. rewrite fmap_app, concat_app, zlen_app in Hz.
    pose proof (zlen_nonneg (concat (group_ops <$> drop k groups))). lia. }
  destruct (db_reopen_ok (fs_files fs1) options coins' no_files [(n, path)] [group_ops <$> take k groups] [])
    as (fs2 & db2 & E2 & Hget); [|done|..].
  - eapply (recoverable_log (dir_of options) f0); [done|done|done|done|by eexists|done|exact Hoth| | |exact Hz'].
    + destruct Hh as (tl & Hrd & Ht). exists tl. split; [exact Hrd|done].
    + simpl. rewrite <- list_fmap_compose. apply list_fmap_ext. intros i g _. apply group_data_ops.
  - rewrite roster_paths_none. constructor.
  - rewrite roster_paths_none. constructor.
  - exists f0, db0, fs1, db1, acks, k, fs2, db2. do 4 (split; [done|]). intros uk. destruct (Hget uk) as [db' Hd].
    exists db'. cbn [concat app] in Hd. rewrite app_nil_r in Hd. cbn [first_live] in Hd.
    fold (groups_ops (take k groups)) in Hd. by destruct (ops_store (groups_ops (take k groups)) ∅ !! uk ≫= id).
Qed.
End CodecCrash.

(** ** Witnesses *)

(** Three groups; the process dies in the middle of the third one's log record. *)
Definition crash_groups : list (list GroupEntry) :=
  [ [mkGE [mkOp bPut (bs "a") (bs "1"); mkOp bPut (bs "b") (bs "2")] true; mkGE [mkOp bDelete (bs "a") []] false];
    [mkGE [mkOp bPut (bs "c") (bs "3")] true]; [mkGE [mkOp bPut (bs "b") (bs "4")] true] ].
Definition crash_faults : list fault := [FOk; FOk; FOk; FOk; FOk; FOk; FOk; FCrash 3].

Lemma db_crash_recovery_witness :
  exists files0 db0 fs1 db1 k fs2 db2,
    db_open (fs_of ∅) roomy [] = Some (fs_of files0, db0, SOk) /\
    write_groups (fs_script files0 crash_faults) db0 crash_groups = Some (fs1, db1, [true; true; false]) /\ (2 <= k)%nat /\
    db_open (fs_of (fs_files fs1)) roomy [] = Some (fs2, db2, SOk) /\
    (exists db', @db_get marker_codecs fs2 db2 (bs "c") = Some (db', SOk, Some (bs "3"))) /\
    (exists db', @db_get marker_codecs fs2 db2 (bs "a") = Some (db', SNotFound [], None)).
Proof.
  destruct (@db_crash_recovery marker_codecs roomy [] [] crash_groups crash_faults)
    as (f0 & db0 & fs1 & db1 & acks & k & fs2 & db2 & E0 & E1 & Ha & E2 & Hg).
  { repeat constructor; vm_compute; congruence. }
  { repeat constructor. }
  { vm_compute; reflexivity. }
  { split; vm_compute; congruence. }
  { split; vm_compute; congruence. }
  assert (acks = [true; true; false]) as ->.
  { assert (('(fs, db, _) ← db_open (fs_of ∅) roomy [];
             '(_, _, acks) ← write_groups (fs_script (fs_files fs) crash_faults) db crash_groups; Some acks)
            = Some [true; true; false]) as Hv by (vm_compute; reflexivity).
    rewrite E0 in Hv. cbn [mbind option_bind fs_files fs_of fs_script] in Hv. fold (fs_script f0 crash_faults) in Hv.
    rewrite E1 in Hv. cbn [mbind option_bind] in Hv. by injection Hv as ->. }
  pose proof (Ha 1%nat eq_refl) as Hk.
  exists f0, db0, fs1, db1, k, fs2, db2. split; [exact E0|]. split; [exact E1|]. split; [lia|]. split; [exact E2|].
  assert (ops_store (groups_ops (take k crash_groups)) ∅ !! bs "c" ≫= id = Some (bs "3") /\
          ops_store (groups_ops (take k crash_groups)) ∅ !! bs "a" ≫= id = None) as [Hc Hna].
  { destruct k as [|[|[|k]]]; [lia|lia|..]; [split; vm_compute; reflexivity|].
    rewrite take_ge by (simpl; lia). split; vm_compute; reflexivity. }
  split; [destruct (Hg (bs "c")) as [db' H]; exists db'; rewrite Hc in H|destruct (Hg (bs "a")) as [db' H]; exists db'; rewrite Hna in H];
    exact H.
Defined.

(** A directory with a table in each of the levels 0 and 1, and one log with two batches and a
    torn third record. *)
Definition reopen_opss : list (list BatchOp) :=
  [ [mkOp bPut (bs "a") (bs "1")]; [mkOp bPut (bs "k1") (bs "newest"); mkOp bDelete (bs "a") []] ].
Definition reopen_base : gmap bytes bytes :=
  {[ bs "d/MANIFEST" := mf_log layers_edits; bs "d/wal-7.log" := wal_log (encode_batch <$> reopen_opss) ++ bs "torn" ]}.
Definition reopen_tables : list bytes :=
  [bs "d/level-0/2.sst"; bs "d/level-0/2.sst.bloom"; bs "d/level-1/1.sst"; bs "d/level-1/1.sst.bloom"].

Lemma reopen_files : exists files, (forall q, q ∉ reopen_tables -> files !! q = reopen_base !! q) /\
  roster_tables (HC := marker_codecs) files (edits_apply no_files layers_edits) 8 layers_tabs.
Proof.
  destruct (@sst_build_ok marker_codecs marker_laws reopen_base (bs "d/level-0/2.sst") 64 cNone layers_t0 ltac:(vm_compute; reflexivity))
    as (a0 & f1 & a1 & f2 & a2 & _ & _ & _ & Hs1 & Ho1).
  destruct (@sst_build_ok marker_codecs marker_laws f2 (bs "d/level-1/1.sst") 64 cSnappy layers_t1 ltac:(vm_compute; reflexivity))
    as (c0 & f3 & c1 & f4 & c2 & _ & _ & _ & Hs2 & Ho2).
  exists f4. split.
  { intros q Hq. rewrite Ho2, Ho1; [done|..]; intros ->; apply Hq; unfold reopen_tables; set_solver. }
  unfold roster_tables. cbn [seq].
  constructor; [|constructor; [|repeat (constructor; [change (sm_path <$> _) with (@nil bytes); constructor|]); constructor]].
  - change (sm_path <$> _) with [bs "d/level-0/2.sst"]. constructor; [|constructor].
    split; [eapply sst_file_same; [| |exact Hs1]; by rewrite Ho2|apply layers_t0_wf].
  - change (sm_path <$> _) with [bs "d/level-1/1.sst"]. constructor; [|constructor]. split; [exact Hs2|apply layers_t1_wf].
Qed.

Lemma reopen_recoverable files :
  (forall q, q ∉ reopen_tables -> files !! q = reopen_base !! q) ->
  recoverable (bs "d") files (edits_apply no_files layers_edits) [(7, bs "d/wal-7.log")] [reopen_opss].
Proof.
  intros Hf. assert (files !! bs "d/wal-7.log" = reopen_base !! bs "d/wal-7.log") as Hlog
    by (apply Hf; apply (bool_decide_unpack _); vm_compute; exact I).
  split.
  - left. left. exists (mf_log layers_edits). rewrite Hf by (apply (bool_decide_unpack _); vm_compute; exact I).
    split; [vm_compute; reflexivity|]. exists layers_edits. split; [|done]. exists []. rewrite app_nil_r. split; [done|].
    split; [apply mf_torn_nil|]. repeat constructor; vm_compute; congruence.
  - intros n p. rewrite list_elem_of_singleton. split.
    + intros [= -> ->]. right. exists (bs "wal-7.log"). split; [done|]. split; [vm_compute; set_solver|].
      split; [vm_compute; reflexivity|]. rewrite Hlog. eexists. vm_compute. reflexivity.
    + assert (forall q, is_Some (files !! q) -> q ∈ reopen_tables ++ [bs "d/MANIFEST"; bs "d/wal-7.log"]) as Hdom.
      { intros q [d Hq]. apply elem_of_app. destruct (decide (q ∈ reopen_tables)) as [|Hq']; [by left|right]. rewrite Hf in Hq by done.
        unfold reopen_base in Hq. rewrite lookup_insert_Some in Hq. destruct Hq as [[<- _]|[_ Hq]]; [left|].
        apply lookup_singleton_Some in Hq as [<- _]. right. left. }
      intros [(_ & -> & c & d & Hd)|(name & -> & _ & Hn & Hd)].
      * exfalso. rewrite Hf in Hd by (apply (bool_decide_unpack _); vm_compute; exact I). vm_compute in Hd. discriminate Hd.
      * apply Hdom in Hd. clear -Hn Hd. cbn [reopen_tables app] in Hd.
        repeat (apply elem_of_cons in Hd as [E|Hd]; [apply (f_equal (drop 2)) in E;
          change (drop 2 (bs "d" ++ bs "/" ++ name)) with name in E; subst name; vm_compute in Hn; first [discriminate Hn|by injection Hn as <-]|]).
        by apply not_elem_of_nil in Hd.
  - repeat constructor.
  - constructor; [|constructor]. exists (bs "torn"). split; [change (files !! bs "d/wal-7.log" = Some (wal_log (encode_batch <$> reopen_opss) ++ bs "torn")); rewrite Hlog; vm_compute; reflexivity|].
    split; [by intros [|[|fuel]]|]. repeat constructor; vm_compute; reflexivity.
  - vm_compute. reflexivity.
Qed.

(** [k1] is in the log and in a table, [a] is deleted in the log, [k3] is in two levels. *)
Lemma db_reopen_recovers_witness :
  exists files fs db, db_open (fs_of files) roomy [] = Some (fs, db, SOk) /\
    (exists db', @db_get marker_codecs fs db (bs "k1") = Some (db', SOk, Some (bs "newest"))) /\
    (exists db', @db_get marker_codecs fs db (bs "a") = Some (db', SNotFound [], None)) /\
    (exists db', @db_get marker_codecs fs db (bs "k3") = Some (db', SOk, Some (bs "three"))).
Proof.
  destruct reopen_files as (files & Hf & Ht).
  destruct (@db_reopen_recovers marker_codecs files roomy [] _ _ _ layers_tabs (reopen_recoverable files Hf)) as (fs & db & E & Hg).
  - vm_compute. split; congruence.
  - change (roster_paths _ _) with [bs "d/level-0/2.sst"; bs "d/level-1/1.sst"].
    constructor; [by exists (bs "0/2.sst")|constructor; [by exists (bs "1/1.sst")|constructor]].
  - exact Ht.
  - assert (forall uk, bool_decide (Forall (fun ts => (length (filter (fun t => versions uk t <> []) ts) <= 1)%nat) layers_tabs) = true ->
      Forall (one_table uk) layers_tabs) as Hone by (intros uk Hb; by apply bool_decide_eq_true in Hb).
    exists files, fs, db. split; [exact E|]. split; [|split].
    + destruct (Hg (bs "k1")) as (db' & a & Hk & Ha); [apply Hone; vm_compute; reflexivity| |intros Hl; vm_compute in Hl; discriminate Hl|].
      { apply ordered_last. apply (bool_decide_unpack _); vm_compute; exact I. }
      change (ops_store _ _ !! _) with (Some (Some (bs "newest"))) in Ha. rewrite Ha in Hk. by exists db'.
    + destruct (Hg (bs "a")) as (db' & a & Hk & Ha); [apply Hone; vm_compute; reflexivity|..].
      { apply ordered_last. apply (bool_decide_unpack _); vm_compute; exact I. }
      { intros _. repeat (constructor; [left; vm_compute; reflexivity|]). constructor. }
      change (ops_store _ _ !! _) with (Some (@None bytes)) in Ha. rewrite Ha in Hk. by exists db'.
    + destruct (Hg (bs "k3")) as (db' & a & Hk & Ha); [apply Hone; vm_compute; reflexivity| |intros Hl; vm_compute in Hl; discriminate Hl|].
      { apply ordered_live; [apply (bool_decide_unpack _); vm_compute; exact I|].
        apply ordered_last. apply (bool_decide_unpack _); vm_compute; exact I. }
      change (ops_store _ _ !! _) with (@None (option bytes)) in Ha.
      assert (a = Some (bs "three")) as ->; [|by exists db'].
      eapply reads_unique; [|exact Ha|]; [apply (bool_decide_unpack _); vm_compute; exact I|].
      change (Some (bs "three")) with (visible (bs "k3") (sort_by (lt_keyed InternalKeyCompare fst) (concat (concat layers_tabs)))).
      apply reads_sorted; apply (bool_decide_unpack _); vm_compute; exact I.
Defined.

(** Recovery deletes only orphans.  On a disk without faults, the purge of a level directory
    removes every table file the manifest does not name, and nothing else: no file the
    manifest names, nothing outside the level directories, nothing without the .sst suffix. *)
Theorem purge_removes_exactly_orphans (files : gmap bytes bytes) (db : DB) (m : Manifest) :
  let n := Z.to_nat (max_level (db_options db) + 1) in
  exists files', purgeOrphanSSTables (fs_of files) db m = fs_of files' /\
    (forall q, orphan (live_paths m) (db_dir db) n q -> files' !! q = None) /\
    (forall q, ~ orphan (live_paths m) (db_dir db) n q -> files' !! q = files !! q) /\
    (forall q, orphan (live_paths m) (db_dir db) n q -> q ∉ live_paths m /\ exists p, q = p ++ bs ".sst").
Proof.
  intros n. destruct (purge_ok files db m) as (f' & E & H1 & H2). exists f'. split; [exact E|]. split; [exact H1|]. split.
  - intros q Hq. destruct (H2 q) as [?|[_ ?]]; [done|]. by destruct Hq.
  - intros q Hq. split; [by eapply orphan_not_live|by eapply orphan_sst].
Qed.
