(* ===== verification/DBFlush.v ===== *)
(** * Flushing a frozen memtable

    What one round of the flush thread does on a disk without faults, and what readers see
    of it. *)

From Stdlib Require Import ZArith Lia.
From stdpp Require Import base numbers strings list gmap.
From S2P Require Import Prelude CppString Coding Slice InternalKey SkipHeap SkipList Versions MemTable Bloom Block.
From S2P Require Import Caches Compression FileSystem SSTable SSTableProofs Wal Manifest ManifestProofs.
From S2P Require Import Merging Compaction CompactionProofs DBImpl DBProofs DBRecovery.
Local Open Scope Z_scope.

Section Codec.
Context `{HC : Codecs} `{HL : !CodecLaws}.

(** The cache holds blocks of table files only. *)
Definition tables_cached (dir : bytes) (files : gmap bytes bytes) (cache : option BlockCache) : Prop :=
  exists base : gmap bytes bytes, cache_valid base cache /\
    (forall p d, base !! p = Some d -> files !! p = Some d /\ level_path dir p).

Lemma tables_cached_valid dir files cache : tables_cached dir files cache -> cache_valid files cache.
Proof. intros (base & Hc & Hb). eapply cache_valid_weaken; [exact Hc|]. intros p d Hp. by apply Hb. Qed.

(** The table a flush of [db] writes. *)
Definition flush_path (db : DB) : bytes :=
  db_dir db ++ bs "/level-0/" ++ to_string (v_next_file_number (db_version db)) ++ bs ".sst".

(** What a flush relies on: the oldest frozen memtable heads the queue, the version is durable,
    the number of the new table is unused. *)
Record flush_pre (files : gmap bytes bytes) (db : DB) (l : list entry) (flushed : list entry) (imms : list (list entry))
  (id : nat) (wals : list bytes) (t0 t1 : list (list entry)) (m : Manifest) (es : list edit) : Prop := {
  fp_rep : db_rep db l (flushed :: imms);
  fp_queue : exists mt q rest, ms_queue (db_mems db) = mkFE (id, mt) wals :: q /\
               ms_immutable (db_mems db) = (id, mt) :: rest;
  fp_flushed : flushed <> [] /\ weight flushed < 2 ^ 30;
  fp_wals : Forall (fun w => exists x, w = db_dir db ++ bs "/wal" ++ x) wals;
  fp_version : v_durable files (db_version db) m es /\ mf_path m = db_dir db ++ bs "/MANIFEST" /\ numbered (db_version db);
  fp_fresh : files !! flush_path db = None /\ files !! (flush_path db ++ bs ".bloom") = None;
  fp_name : zlen (flush_path db) + 17 <= 2 ^ 24;
  fp_levels : 0 <= max_level (db_options db) < 2 ^ 31;
  fp_tables0 : Forall2 (table files) (v_getLevelFiles (db_version db) 0) t0;
  fp_tables : Forall2 (table files) (read_order db) (t0 ++ t1);
  fp_paths : Forall (level_path (db_dir db)) (read_order db);
  fp_cache : tables_cached (db_dir db) files (db_cache db);
}.

Lemma read_order_cons db :
  0 <= max_level (db_options db) ->
  read_order db = v_getLevelFiles (db_version db) 0 ++
    concat ((fun l => v_getLevelFiles (db_version db) (Z.of_nat l)) <$> seq 1 (Z.to_nat (max_level (db_options db)))).
Proof.
  intros Hm. unfold read_order. replace (Z.to_nat (max_level (db_options db) + 1)) with (S (Z.to_nat (max_level (db_options db)))) by lia.
  done.
Qed.

Lemma flush_path_level db : level_path (db_dir db) (flush_path db).
Proof.
  exists (bs "0/" ++ to_string (v_next_file_number (db_version db)) ++ bs ".sst"). done.
Qed.

Lemma level_path_not_wal dir p w : level_path dir p -> (exists x, w = dir ++ bs "/wal" ++ x) -> p <> w.
Proof. intros [x ->] [y ->] E%app_inv_head. discriminate E. Qed.

Lemma level_path_not_manifest dir p : level_path dir p -> p <> dir ++ bs "/MANIFEST".
Proof. intros [x ->] E%app_inv_head. discriminate E. Qed.

Lemma sb_flush_finished fs b : sb_finished (sb_flushDataBlock fs b).1.2 = sb_finished b.
Proof.
  unfold sb_flushDataBlock. destruct (bb_empty _); [done|]. destruct (bb_finish _) as [db raw].
  destruct (choose_payload _ raw) as [payload used]. destruct (fs_write _ _ _) as [fs1 n1]. destruct (negb _); [done|].
  destruct (fs_write fs1 _ _) as [fs2 n2]. by destruct (negb _).
Qed.

Lemma sb_finish_finished fs b fs' b' s : sb_finish fs b = (fs', b', s) -> sb_finished b' = true.
Proof.
  unfold sb_finish. destruct (sb_finished b) eqn:E; [by intros [= <- <- <-]|]. set (b0 := mkSB _ _ _ _ _ _ _ _ _ _ _).
  pose proof (sb_flush_finished fs b0) as Hf. destruct (sb_flushDataBlock fs b0) as [[fs1 b1] s1]. simpl in Hf.
  destruct (fs_write _ _ _) as [fs2 n2]. destruct (fs_write fs2 _ _) as [fs3 n3].
  destruct (_ || _); [by intros [= <- <- <-]|]. unfold sb_writeFooter. destruct (fs_write fs3 _ _) as [fs4 n4].
  destruct (fs_fdatasync _ _) as [fs5 n5]. by intros [= <- <- <-].
Qed.

(** The effect of a round on the disk and on the database. *)
Lemma flush_step_ok files db l flushed imms id wals t0 t1 m es :
  flush_pre files db l flushed imms id wals t0 t1 m es ->
  exists files' db' m' es', flush_step (fs_of files) db = Some (fs_of files', db') /\
    db' = with_mems (with_version db (db_version db'))
            (mkMems (ms_memtable (db_mems db)) (tail (ms_immutable (db_mems db))) (tail (ms_queue (db_mems db)))
                    (ms_next (db_mems db)) (ms_coins (db_mems db))) /\
    db_rep db' l imms /\ v_durable files' (db_version db') m' es' /\ mf_path m' = mf_path m /\
    (exists fs1 fs2, v_addLevelFile fs1 (v_nextFileNumber (db_version db)).2 0 (flush_path db) = Some (fs2, db_version db')) /\
    (forall k, 0 <= k -> v_getLevelFiles (db_version db') k =
                         v_getLevelFiles (db_version db) k ++ (if decide (k = 0) then [flush_path db] else [])) /\
    table files' (flush_path db) flushed /\ (forall w, w ∈ wals -> files' !! w = None) /\
    (forall q, q ∉ wals -> q <> mf_path m -> q <> flush_path db -> q <> flush_path db ++ bs ".bloom" -> files' !! q = files !! q).
Proof.
  intros [Hr (mt & q & rest & Hq & Him) [Hne Hw] Hwals (Hv & Hm & Hn) [Hf1 Hf2] Hname Hmax _ _ _ _].
  destruct Hr as [Hmem Hi]. rewrite Him in Hi. inversion Hi as [|? ? ? ? Hmt Hrest]; subst. simpl in Hmt.
  unfold flush_step. rewrite Hq. cbn [fe_memtable fe_wals]. unfold flushOne. cbn [snd fst].
  rewrite (mt_empty_rep _ _ Hmt), bool_decide_eq_false_2 by done. cbn [mbind option_bind].
  rewrite (mt_entries_rep _ _ Hmt). cbn [mbind option_bind]. cbn [db_version with_mems db_dir db_options].
  unfold v_nextFileNumber at 1. change (db_dir db ++ bs "/level-0/" ++ _) with (flush_path db).
  destruct (sst_build_ok files (flush_path db) (block_size (db_options db)) (compression (db_options db)) flushed Hw)
    as (b0 & f1 & b1 & f2 & b2 & -> & E1 & E2 & Hs & Ho).
  rewrite E1. cbn [mbind option_bind]. rewrite E2. cbn iota.
  pose proof (flush_path_level db) as Hlp. pose proof (level_path_not_manifest _ _ Hlp) as Nm.
  pose proof (level_path_not_manifest _ _ (level_path_bloom _ _ Hlp)) as Nb. rewrite <- Hm in Nm, Nb.
  change (mkVersion _ _ _) with (v_nextFileNumber (db_version db)).2.
  destruct (merge_register f2 (v_nextFileNumber (db_version db)).2 m es 0 (flush_path db))
    as (f3 & v3 & m3 & es3 & Eadd & Hv3 & Hm3 & Ho3 & Hl3); [..|lia|done|].
  { apply v_nextFileNumber_durable. eapply v_durable_same; [|done]. by apply Ho. }
  { apply u64_range. }
  rewrite Eadd. cbn [mbind option_bind]. destruct (unlink_all_lookup f3 wals) as (f4 & -> & Hno & Hin).
  assert (sb_finished b2 = true) as Hfin by (eapply sb_finish_finished; exact E2).
  unfold sb_destroy. rewrite Hfin. cbn iota. simpl (ok SOk). cbn iota.
  assert (forall p, level_path (db_dir db) p -> p ∉ wals) as Hnw.
  { intros p Hp Hin'. rewrite Forall_forall in Hwals. by apply (level_path_not_wal _ _ _ Hp (Hwals _ Hin')). }
  assert (mf_path m ∉ wals) as Hmw.
  { rewrite Hm. intros Hin'. rewrite Forall_forall in Hwals. destruct (Hwals _ Hin') as [x E%app_inv_head]. discriminate E. }
  eexists f4, _, m3, es3. split; [done|]. split; [by rewrite Him; unfold drop_immutable; cbn; rewrite decide_True by done|]. split.
  { split; simpl; [done|]. rewrite Him. simpl. by rewrite decide_True. }
  split; [simpl; eapply v_durable_same; [|done]; rewrite Hm3; by apply Hno|]. split; [done|].
  split; [by exists (fs_of f2), (fs_of f3)|]. split; [exact Hl3|]. split; [|split; [done|]].
  - split; [|apply (mt_rep_wf _ _ Hmt)].
    eapply sst_file_same; [| |exact Hs]; rewrite Hno, Ho3 by auto using level_path_bloom; done.
  - intros p P0 Pm P1 P2. by rewrite Hno, Ho3, Ho by auto.
Qed.

Lemma tables_moved dir files files' paths ls (np : bytes) :
  Forall2 (table files) paths ls -> Forall (level_path dir) paths -> files !! np = None -> files !! (np ++ bs ".bloom") = None ->
  (forall q, level_path dir q -> q <> np -> q <> np ++ bs ".bloom" -> files' !! q = files !! q) ->
  Forall2 (table files') paths ls.
Proof.
  intros Ht Hp N1 N2 Hq. induction Ht as [|p l paths ls [Hs Hwf] _ IH]; constructor; inversion Hp; subst; [|by apply IH].
  split; [|done]. destruct Hs as (fbs & f & A1 & A2 & A3 & A4 & A5 & A6).
  exists fbs, f. rewrite !Hq; [done|..]; try (by apply level_path_bloom); try done; congruence.
Qed.

(** Moving the oldest frozen layer below the level-0 tables is invisible to keys they do not
    answer. *)
Lemma first_live_move uk (l flushed : list entry) imms t0 t1 :
  first_live uk t0 = None ->
  first_live uk (l :: reverse imms ++ t0 ++ flushed :: t1) = first_live uk (l :: reverse (flushed :: imms) ++ t0 ++ t1).
Proof.
  intros H0. rewrite reverse_cons, <- app_assoc. cbn [first_live app]. rewrite !first_live_app. cbn [first_live].
  rewrite !first_live_app, H0. cbn [first_live]. destruct (visible uk l); [done|]. destruct (first_live uk (reverse imms)); [done|].
  by destruct (visible uk flushed).
Qed.

(** A key that a level-0 table answers is answered by what is left of the memtables, or by it. *)
Lemma first_live_shadowed uk (l flushed : list entry) imms t0 t1 v :
  first_live uk t0 = Some v ->
  first_live uk (l :: reverse imms ++ t0 ++ flushed :: t1) = Some (default v (first_live uk (l :: reverse imms))).
Proof.
  intros H0. rewrite app_comm_cons, first_live_app. destruct (first_live uk (l :: reverse imms)) as [w|]; [done|].
  by rewrite first_live_app, H0.
Qed.

End Codec.

(** ** Witness: a frozen memtable above a level-0 table that has one of its keys *)

Definition flush_edits : list edit := [EAdd 0 (bs "d/level-0/1.sst") 1].
Definition flush_manifest : Manifest := mkManifest (bs "d/MANIFEST") true (edits_apply no_files flush_edits).

Definition flush_db (mt : MemTable) : DB :=
  let db := with_version (DBImpl_new roomy []) (mkVersion (edits_apply no_files flush_edits) 2 (Some flush_manifest)) in
  with_mems db (mkMems (Some (1%nat, MemTable_new 4096)) [(0%nat, mt)] [mkFE (0%nat, mt) [bs "d/wal-1.log"]] 2 []).

Definition flush_base : gmap bytes bytes := {[ bs "d/MANIFEST" := mf_log flush_edits; bs "d/wal-1.log" := bs "old log" ]}.
Definition flush_entries : list entry := mt_insert (bs "k1") (bs "new") 9 false (mt_insert (bs "k2") (bs "v") 8 false []).

