(* ===== verification/DBLifecycle.v ===== *)
(** * The life of a store

    The components of the store together: writes, reads, flushes, compactions and restarts in
    any order, on a disk without faults.  The workload writes every key once, which is the
    class of workloads the read path is right for whatever the background threads do
    ([db_level0_reads_stale] and [db_deleted_key_resurrects] are what happens outside it). *)

From Stdlib Require Import ZArith Lia.
From stdpp Require Import base numbers strings list gmap.
From S2P Require Import Prelude CppString Coding Slice InternalKey SkipHeap SkipList Versions MemTable Bloom Block.
From S2P Require Import Caches Compression FileSystem SSTable SSTableProofs Wal Manifest ManifestProofs.
From S2P Require Import Merging Compaction CompactionProofs DBImpl DBProofs DBRecovery DBFlush.
Local Open Scope Z_scope.

(** ** Pairs held by layers *)

Definition kv (e : entry) : bytes * bytes := (InternalKeyUserKey e.1, e.2).
Definition op_kv (op : BatchOp) : bytes * bytes := (op_key op, op_value op).

(** The entries are live versions of the pairs [ps]. *)
Record holds (ps : list (bytes * bytes)) (es : list entry) : Prop := {
  ho_kv : kv <$> es ≡ₚ ps;
  ho_live : Forall (fun e => IsDeletion e.1 = false) es;
}.

#[export] Instance holds_proper : Proper ((≡ₚ) ==> (≡ₚ) ==> iff) holds.
Proof.
  intros p1 p2 Hp e1 e2 He. split; intros [H1 H2]; split.
  - by rewrite <- He, H1.
  - by rewrite <- He.
  - by rewrite He, H1.
  - by rewrite He.
Qed.

Lemma holds_app p1 p2 e1 e2 : holds p1 e1 -> holds p2 e2 -> holds (p1 ++ p2) (e1 ++ e2).
Proof. intros [H1 H2] [H3 H4]. split; [by rewrite fmap_app, H1, H3|by apply Forall_app]. Qed.

Lemma holds_lookup ps es e : NoDup ps.*1 -> holds ps es -> e ∈ es -> (list_to_map ps : gmap bytes bytes) !! InternalKeyUserKey e.1 = Some e.2.
Proof. intros Hnd [Hp _] He. apply elem_of_list_to_map_1; [done|]. rewrite <- Hp. by apply (list_elem_of_fmap_2 kv). Qed.

Lemma visible_holds ps es l uk v :
  NoDup ps.*1 -> holds ps es -> l ⊆ es -> visible uk l = Some v -> (list_to_map ps : gmap bytes bytes) !! uk = Some v.
Proof.
  intros Hnd Hh Hl. unfold visible. destruct (newest uk l) as [e|] eqn:E; [|done]. cbn. apply newest_elem in E as [He <-].
  pose proof (ho_live _ _ Hh) as Hv. rewrite Forall_forall in Hv. unfold live. rewrite (Hv e) by by apply Hl. intros [= <-].
  eapply holds_lookup; [done..|]. by apply Hl.
Qed.

Lemma visible_some es l e : Forall (fun e => IsDeletion e.1 = false) es -> l ⊆ es -> e ∈ l -> visible (InternalKeyUserKey e.1) l <> None.
Proof.
  intros Hv Hl He. unfold visible. destruct (newest _ l) as [f|] eqn:E.
  - apply newest_elem in E as [Hf _]. rewrite Forall_forall in Hv. cbn. unfold live. by rewrite (Hv f) by by apply Hl.
  - rewrite newest_none in E. by destruct (E e He).
Qed.

Lemma first_live_elem uk layers v : first_live uk layers = Some v -> exists l, l ∈ layers /\ visible uk l = Some v.
Proof.
  induction layers as [|l layers IH]; [done|]. cbn. destruct (visible uk l) eqn:E.
  - intros [= <-]. exists l. split; [left|done].
  - intros (l' & ? & ?)%IH. exists l'. split; [by right|done].
Qed.

Lemma first_live_is_some uk layers l : l ∈ layers -> visible uk l <> None -> first_live uk layers <> None.
Proof. intros Hl Hv. induction Hl as [l ls|l l' ls _ IH]; cbn; [by destruct (visible uk l)|]. destruct (visible uk l'); [done|by apply IH]. Qed.

(** Whatever the order of the layers, a read finds the pair. *)
Lemma first_live_holds ps layers uk :
  NoDup ps.*1 -> holds ps (concat layers) -> first_live uk layers = (list_to_map ps : gmap bytes bytes) !! uk.
Proof.
  intros Hnd Hh. assert (forall l, l ∈ layers -> l ⊆ concat layers) as Hsub.
  { intros l Hl e He. apply list_elem_of_In, in_concat. exists l. split; by apply list_elem_of_In. }
  destruct (first_live uk layers) as [v|] eqn:E.
  - apply first_live_elem in E as (l & Hl & Hv). symmetry. by eapply visible_holds; [| |apply Hsub|].
  - symmetry. apply not_elem_of_list_to_map_1. intros Hin. apply list_elem_of_fmap in Hin as ([k v] & -> & Hkv). cbn in E.
    rewrite <- (ho_kv _ _ Hh) in Hkv. apply list_elem_of_fmap in Hkv as (e & [= Hk _] & He).
    apply list_elem_of_In, in_concat in He as (l & Hl & He). apply list_elem_of_In in Hl, He.
    apply (first_live_is_some k layers l Hl); [|done]. rewrite Hk. by eapply visible_some; [apply Hh|apply Hsub|].
Qed.

(** The bytes of a set of pairs bound the weight of their entries. *)
Definition kvs_weight (ps : list (bytes * bytes)) : Z := foldr (fun p a => zlen p.1 + zlen p.2 + 72 + a) 0 ps.

#[export] Instance kvs_weight_proper : Proper ((≡ₚ) ==> eq) kvs_weight.
Proof. intros p1 p2 Hp. induction Hp; simpl; lia. Qed.

Lemma kvs_weight_app p1 p2 : kvs_weight (p1 ++ p2) = kvs_weight p1 + kvs_weight p2.
Proof. induction p1 as [|p p1 IH]; simpl; lia. Qed.

Lemma kvs_weight_length ps : 72 * zlen ps <= kvs_weight ps.
Proof.
  induction ps as [|p ps IH]; [done|]. rewrite zlen_cons. simpl. pose proof (zlen_nonneg p.1). pose proof (zlen_nonneg p.2). lia.
Qed.

Lemma user_key_length ik : wf_ikey ik -> zlen (InternalKeyUserKey ik) + 8 = zlen ik.
Proof.
  unfold wf_ikey, kTrailerBytes, InternalKeyUserKey, kTrailerBytes, zlen. intros H. rewrite decide_False by lia.
  rewrite length_take. lia.
Qed.

Lemma weight_kv es : Forall wf_ikey es.*1 -> weight es = kvs_weight (kv <$> es).
Proof.
  induction es as [|e es IH]; [done|]. rewrite fmap_cons. intros [He Hes]%Forall_cons. pose proof (user_key_length _ He). specialize (IH Hes).
  cbn [weight foldr fmap list_fmap kvs_weight kv fst snd] in *. fold (weight es). fold (kvs_weight (kv <$> es)). cbn in IH |- *. lia.
Qed.

(** ** Writing fresh keys *)

Lemma sl_insert_fresh k v l :
  wf_ikey k -> Forall wf_ikey l.*1 -> InternalKeyUserKey k ∉ (kv <$> l).*1 -> sl_insert k v l ≡ₚ (k, v) :: l.
Proof.
  intros Hk. induction l as [|p l IH]; cbn; [done|]. intros [Hp Hl]%Forall_cons [Hne Hnin]%not_elem_of_cons.
  destruct (InternalKeyCompare p.1 k) eqn:E; [|rewrite IH by done; by constructor|done].
  apply (ord_eq (P:=wf_ikey)) in E; [|done..]. by rewrite E in Hne.
Qed.

Lemma mt_inserts_fresh ops seq l :
  Forall (fun op => op_type op = bPut) ops -> Forall wf_ikey l.*1 -> NoDup ((op_kv <$> ops).*1 ++ (kv <$> l).*1) ->
  -1 <= seq -> seq + zlen ops < 2 ^ 56 -> Forall (fun e => IsDeletion e.1 = false) l ->
  holds ((op_kv <$> ops) ++ (kv <$> l)) (mt_inserts (op_writes seq ops) l).
Proof.
  intros Hput. revert seq l. induction Hput as [|op ops Hp _ IH]; intros seq l Hwf Hnd Hs Hb Hl; [done|].
  rewrite zlen_cons in Hb. pose proof (zlen_nonneg ops). cbn [op_writes fmap list_fmap app] in *. unfold mt_inserts in *. cbn [foldl].
  apply NoDup_cons in Hnd as [Hnin Hnd]. rewrite not_elem_of_app in Hnin. destruct Hnin as [Hn1 Hn2].
  cbn [w_key w_value w_seq w_del]. rewrite bool_decide_eq_false_2 by by rewrite Hp. unfold mt_insert.
  set (k := mt_ikey (op_key op) (seq + 1) false).
  assert (sl_insert k (op_value op) l ≡ₚ (k, op_value op) :: l) as Hi.
  { apply sl_insert_fresh; [apply mt_ikey_wf|done|]. unfold k. by rewrite mt_ikey_user. }
  assert (kv (k, op_value op) = op_kv op) as Hk by (unfold kv, k; cbn; by rewrite mt_ikey_user).
  set (l' := sl_insert k (op_value op) l) in *.
  assert (holds ((op_kv <$> ops) ++ (kv <$> l')) (foldl (fun l w => mt_insert (w_key w) (w_value w) (w_seq w) (w_del w) l) l' (op_writes (seq + 1) ops))) as Hh.
  2:{ eapply holds_proper; [|reflexivity|exact Hh]. rewrite Hi, fmap_cons, Hk. apply Permutation_middle. }
  apply IH.
  - by rewrite Hi; cbn; constructor; [apply mt_ikey_wf|].
  - rewrite Hi, fmap_cons, Hk. cbn [fmap list_fmap]. rewrite <- Permutation_middle.
    constructor; [|done]. by rewrite elem_of_app; intros [?|?].
  - lia.
  - lia.
  - rewrite Hi. constructor; [|done]. unfold k. cbn. apply mt_ikey_del. lia.
Qed.

(** ** Names *)

Definition walp (dir : bytes) (n : Z) : bytes := dir ++ bs "/wal-" ++ to_string n ++ bs ".log".

Lemma digits_no n c : is_digit c = false -> c ∉ to_string n.
Proof. intros Hc Hin. pose proof (to_string_digits n) as Hd. rewrite Forall_forall in Hd. rewrite (Hd c Hin) in Hc. done. Qed.

Lemma find_index_run (f : byte -> bool) a c b : Forall (fun x => f x = false) a -> f c = true -> find_index f (a ++ c :: b) = Some (length a).
Proof. intros Ha Hc. induction Ha as [|x a Hx _ IH]; cbn; [by rewrite Hc|]. by rewrite Hx, IH. Qed.

(** A table's name gives back its number. *)
Lemma number_of_path_sst dir k n : 0 <= n < 2 ^ 64 -> zlen (sst_path dir k n) < npos -> number_of_path (sst_path dir k n) = Some n.
Proof.
  intros Hn Hlen. unfold number_of_path, sst_path in *. set (base := to_string n ++ bs ".sst") in *.
  replace (dir ++ bs "/level-" ++ to_string k ++ bs "/" ++ base) with ((dir ++ bs "/level-" ++ to_string k) ++ z2b 47 :: base) in *
    by (rewrite <- !app_assoc; done).
  set (pre := dir ++ bs "/level-" ++ to_string k) in *. rewrite zlen_app, zlen_cons in Hlen.
  assert (z2b 47 ∉ base) as Hsl.
  { unfold base. rewrite not_elem_of_app. split; [by apply digits_no|]. vm_compute. set_solver. }
  pose proof (zlen_nonneg base). pose proof (zlen_nonneg pre). rewrite (find_last_char_at _ _ _ 0 Hsl) by lia. rewrite Z.add_0_l.
  replace (zlen pre =? npos) with false by lia. unfold str_substr. rewrite zlen_app, zlen_cons.
  replace (zlen pre + 1 >? zlen pre + (1 + zlen base)) with false by lia. cbn [from_option id].
  assert (drop (Z.to_nat (zlen pre + 1)) (pre ++ z2b 47 :: base) = base) as ->.
  { unfold zlen. rewrite drop_app_ge by lia. replace (Z.to_nat (Z.of_nat (length pre) + 1) - length pre)%nat with 1%nat by lia. done. }
  rewrite take_ge by (unfold zlen in *; lia).
  assert (str_find_char base (z2b 46) 0 = zlen (to_string n)) as ->.
  { unfold str_find_char. change (drop (Z.to_nat 0) base) with base. unfold base.
    change (bs ".sst") with (z2b 46 :: bs "sst"). rewrite find_index_run; [unfold zlen; lia| |by apply bool_decide_eq_true_2].
    apply Forall_forall. intros x Hx. apply bool_decide_eq_false_2. intros ->. by apply (digits_no n (z2b 46)) in Hx. }
  pose proof (to_string_length n). pose proof (to_string_nonempty n).
  replace (zlen (to_string n) =? npos) with false by (unfold npos; lia). replace (zlen (to_string n) >? 0) with true by (unfold zlen; lia).
  cbn [negb andb]. unfold base. rewrite to_nat_zlen, take_app_length.
  assert (forallb is_digit (to_string n) = true) as ->.
  { apply forallb_forall. intros x Hx. pose proof (to_string_digits n) as Hd. rewrite Forall_forall in Hd. by apply Hd, list_elem_of_In. }
  by rewrite to_string_value.
Qed.

Lemma sst_path_number dir k n k' n' : 0 <= n < 2 ^ 64 -> 0 <= n' < 2 ^ 64 -> zlen (sst_path dir k n) < npos ->
  sst_path dir k n = sst_path dir k' n' -> n = n'.
Proof.
  intros Hn Hn' Hl E. pose proof (number_of_path_sst dir k n Hn Hl) as H. rewrite E in H.
  rewrite number_of_path_sst in H; [congruence|done|by rewrite <- E].
Qed.

Lemma sst_path_level dir k n k' n' : 0 <= n < 2 ^ 64 -> 0 <= n' < 2 ^ 64 -> 0 <= k < 2 ^ 64 -> 0 <= k' < 2 ^ 64 -> zlen (sst_path dir k n) < npos ->
  sst_path dir k n = sst_path dir k' n' -> k = k'.
Proof.
  intros Hn Hn' Hk Hk' Hl E. pose proof (sst_path_number _ _ _ _ _ Hn Hn' Hl E) as <-. unfold sst_path in E.
  apply app_inv_head, app_inv_head, app_inv_tail in E. by apply to_string_inj.
Qed.

Lemma sst_path_level_path dir k n : level_path dir (sst_path dir k n).
Proof. by eexists. Qed.

Lemma sst_path_length dir k n : zlen (sst_path dir k n) <= zlen dir + 52.
Proof.
  unfold sst_path. rewrite !zlen_app. pose proof (to_string_length k). pose proof (to_string_length n).
  change (zlen (bs "/level-")) with 7. change (zlen (bs "/")) with 1. change (zlen (bs ".sst")) with 4. lia.
Qed.

Lemma walp_inj dir n n' : 0 <= n < 2 ^ 64 -> 0 <= n' < 2 ^ 64 -> walp dir n = walp dir n' -> n = n'.
Proof. intros Hn Hn' E%app_inv_head%app_inv_head%app_inv_tail. by apply to_string_inj. Qed.

(** The files in the level directories. *)
Definition level_part (dir : bytes) (files : gmap bytes bytes) : gmap bytes bytes :=
  filter (fun x : bytes * bytes => (dir ++ bs "/level-") `prefix_of` x.1) files.

Lemma level_path_prefix dir p : level_path dir p <-> (dir ++ bs "/level-") `prefix_of` p.
Proof. unfold level_path, prefix. by setoid_rewrite <- app_assoc. Qed.

Lemma level_part_Some dir files p d : level_part dir files !! p = Some d <-> files !! p = Some d /\ level_path dir p.
Proof. unfold level_part. rewrite map_lookup_filter_Some. by rewrite level_path_prefix. Qed.

Lemma level_part_lookup dir files p : level_path dir p -> level_part dir files !! p = files !! p.
Proof.
  intros Hp. apply option_eq. intros d. rewrite level_part_Some. tauto.
Qed.

(** ** What is on disk *)

(** The effect of registering a table whose name has a number. *)
Lemma v_add_effect fs v level path n fs' v' :
  v_addLevelFile fs v level path = Some (fs', v') -> number_of_path path = Some n -> 0 <= level ->
  v_next_file_number v' = raise_next (v_next_file_number v) (u64 (n + 1)) /\
  forall i, lv_at (v_levels v') i =
    if decide (i = Z.to_nat level) then lv_at (v_levels v) i ++ [new_meta path n] else lv_at (v_levels v) i.
Proof.
  unfold v_addLevelFile. intros E Hn Hl. replace (level <? 0) with false in E by lia. rewrite Hn in E. cbn iota in E.
  assert (v_next_file_number v' = raise_next (v_next_file_number v) (u64 (n + 1)) /\
          v_levels v' = lv_add (Z.to_nat level) (new_meta path n) (v_levels v)) as [-> ->].
  { destruct (v_manifest v) as [m|]; [|by injection E as <- <-].
    destruct (mf_recordAddFile fs m level path n) as [[[fs1 m1] s1]|]; [|done]. cbn in E. destruct (mf_sync fs1 m1). by injection E as <- <-. }
  split; [done|]. intros i. by rewrite lv_at_add.
Qed.

Lemma v_remove_next fs v level paths fs' v' :
  v_removeLevelFiles fs v level paths = Some (fs', v') -> v_next_file_number v' = v_next_file_number v.
Proof.
  unfold v_removeLevelFiles. destruct (negb _); [by intros [= <- <-]|]. destruct (v_manifest v) as [m|]; [|by intros [= <- <-]].
  destruct (record_removals _ _ _ _ _) as [[fs1 m1]|]; [|done]. cbn. destruct (mf_sync fs1 m1). by intros [= <- <-].
Qed.

Section Codec.
Context `{HC : Codecs} `{HL : !CodecLaws}.
Context (dir : bytes) (maxl : Z).

Definition nlevels : nat := Z.to_nat (maxl + 1).

(** A directory whose manifest, tables and allocator agree with the version: [tabs] are the
    contents of the tables, level by level. *)
Record disk_inv (files : gmap bytes bytes) (v : Version) (cache : option BlockCache) (tabs : list (list (list entry))) : Prop := {
  di_durable : exists m es, v_durable files v m es /\ mf_path m = dir ++ bs "/MANIFEST";
  di_next : 0 < v_next_file_number v < 2 ^ 64;
  di_metas : forall k f, f ∈ lv_at (v_levels v) k ->
    Z.of_nat k <= maxl /\ sm_path f = sst_path dir (Z.of_nat k) (sm_file_number f) /\ 0 <= sm_file_number f < v_next_file_number v;
  di_levels : length tabs = nlevels;
  di_tables : forall i ts, tabs !! i = Some ts -> Forall2 (table files) (v_getLevelFiles v (Z.of_nat i)) ts;
  di_nonempty : Forall (Forall (fun t => t <> [])) tabs;
  di_fresh : forall k n, v_next_file_number v <= n < 2 ^ 64 ->
    files !! sst_path dir k n = None /\ files !! (sst_path dir k n ++ bs ".bloom") = None;
  di_cache : cache_valid (level_part dir files) cache;
}.

Context (Hdir : zlen dir <= 2 ^ 23) (Hmax : 0 <= maxl < 2 ^ 31).

Lemma sst_path_short k n : zlen (sst_path dir k n) < npos.
Proof. pose proof (sst_path_length dir k n). unfold npos. lia. Qed.

Lemma level_member files v cache tabs k p : disk_inv files v cache tabs -> 0 <= k -> p ∈ v_getLevelFiles v k ->
  k <= maxl /\ exists n, p = sst_path dir k n /\ 0 <= n < v_next_file_number v.
Proof.
  intros H Hk Hp. rewrite v_getLevelFiles_at in Hp by done. apply list_elem_of_fmap in Hp as (f & -> & Hf).
  apply (di_metas _ _ _ _ H) in Hf as (H1 & H2 & H3). rewrite Z2Nat.id in * by done. split; [done|]. by eexists.
Qed.

(** Reads see the tables of all levels. *)
Lemma disk_read_order files db tabs : disk_inv files (db_version db) (db_cache db) tabs -> max_level (db_options db) = maxl ->
  Forall2 (table files) (read_order db) (concat tabs) /\ Forall (level_path dir) (read_order db).
Proof.
  intros H Hm. unfold read_order. rewrite Hm. fold nlevels. split.
  - pose proof (di_levels _ _ _ _ H) as Hl. pose proof (di_tables _ _ _ _ H) as Ht.
    assert (forall b tb, length tb = length (seq b (length tb)) -> (forall i ts, tb !! i = Some ts -> Forall2 (table files) (v_getLevelFiles (db_version db) (Z.of_nat (b + i))) ts) ->
      Forall2 (table files) (concat ((fun l => v_getLevelFiles (db_version db) (Z.of_nat l)) <$> seq b (length tb))) (concat tb)) as Hgen.
    { clear. intros b tb _. revert b. induction tb as [|t tb IH]; intros b Ht; cbn; [constructor|]. apply Forall2_app.
      - specialize (Ht 0%nat t eq_refl). by rewrite Nat.add_0_r in Ht.
      - apply IH. intros i ts Hi. specialize (Ht (S i) ts Hi). by rewrite <- Nat.add_succ_comm in Ht. }
    rewrite <- Hl. apply Hgen; [by rewrite length_seq|done].
  - apply Forall_forall. intros p Hp. apply list_elem_of_In, in_concat in Hp as (ps & Hps & Hp).
    apply list_elem_of_In, list_elem_of_fmap in Hps as (k & -> & _). apply list_elem_of_In in Hp.
    eapply level_member in Hp as (_ & n & -> & _); [apply sst_path_level_path|done|lia].
Qed.

Lemma tables_same files files' ps ts :
  (forall p, p ∈ ps -> files' !! p = files !! p /\ files' !! (p ++ bs ".bloom") = files !! (p ++ bs ".bloom")) ->
  Forall2 (table files) ps ts -> Forall2 (table files') ps ts.
Proof.
  intros Hs Ht. induction Ht as [|p t ps ts [Hf Hwf] _ IH]; constructor.
  - split; [|done]. destruct (Hs p ltac:(left)). by eapply sst_file_same.
  - apply IH. intros q Hq. apply Hs. by right.
Qed.

(** Changes outside the level directories and the manifest, and of the allocator, do not matter. *)
Lemma disk_inv_frame files files' v v' cache tabs :
  disk_inv files v cache tabs -> (forall q, level_path dir q \/ q = dir ++ bs "/MANIFEST" -> files' !! q = files !! q) ->
  v_levels v' = v_levels v -> v_manifest v' = v_manifest v -> v_next_file_number v <= v_next_file_number v' < 2 ^ 64 ->
  disk_inv files' v' cache tabs.
Proof.
  intros [(m & es & Hv & Hm) Hn Hme Hl Ht Hne Hf Hc] Hs Elv Emf Hn'. split.
  - exists m, es. split; [|done]. destruct Hv as [? ? Hfile ? ? ?]. split; rewrite ?Elv, ?Emf, ?Hs; try done. right. done.
  - lia.
  - intros k f Hk. rewrite Elv in Hk. destruct (Hme _ _ Hk) as (? & ? & ?). split_and!; [done|done|lia|lia].
  - done.
  - intros i ts Hi. specialize (Ht i ts Hi). unfold v_getLevelFiles, v_getLevelMetas, in_levels in *. rewrite Elv.
    eapply tables_same; [|exact Ht]. intros p Hp. assert (level_path dir p) as Hlp; [|split; apply Hs; left; [done|by apply level_path_bloom]].
    assert (p ∈ v_getLevelFiles v (Z.of_nat i)) as Hp' by done. rewrite v_getLevelFiles_at in Hp' by lia.
    apply list_elem_of_fmap in Hp' as (g & -> & Hg). destruct (Hme _ _ Hg) as (_ & -> & _). apply sst_path_level_path.
  - done.
  - intros k n Hkn. pose proof (sst_path_level_path dir k n) as Hlp. rewrite !Hs by (left; auto using level_path_bloom). apply Hf. lia.
  - eapply cache_valid_weaken; [exact Hc|]. intros p d [Hp Hlp]%level_part_Some. apply level_part_Some. by rewrite Hs by by left.
Qed.

(** A table with the next number is added to level [k], others may go. *)
Lemma disk_change files v cache tabs files' v' cache' tabs' k m' es' :
  let n := v_next_file_number v in let newp := sst_path dir (Z.of_nat k) n in
  disk_inv files v cache tabs -> n + 1 < 2 ^ 64 -> Z.of_nat k <= maxl ->
  v_durable files' v' m' es' -> mf_path m' = dir ++ bs "/MANIFEST" -> v_next_file_number v' = n + 1 ->
  (forall i f, f ∈ lv_at (v_levels v') i -> f ∈ lv_at (v_levels v) i \/ (i = k /\ f = new_meta newp n)) ->
  length tabs' = nlevels -> (forall i ts, tabs' !! i = Some ts -> Forall2 (table files') (v_getLevelFiles v' (Z.of_nat i)) ts) ->
  Forall (Forall (fun t => t <> [])) tabs' ->
  (forall q, level_path dir q -> q <> newp -> q <> newp ++ bs ".bloom" -> files' !! q = files !! q \/ files' !! q = None) ->
  cache_valid (level_part dir files') cache' -> disk_inv files' v' cache' tabs'.
Proof.
  intros n newp [_ Hn Hme _ _ _ Hf _] Hb Hk Hv Hm Hn' Hlv Hl Ht Hne Hoth Hc. split; try done.
  - by exists m', es'.
  - lia.
  - intros i f Hi. destruct (Hlv i f Hi) as [Hi'|[-> ->]].
    + destruct (Hme _ _ Hi') as (? & ? & ?). split_and!; [done|done|lia|lia].
    + cbn. split_and!; [done|done|unfold n; lia|lia].
  - intros j x Hx. assert (n <= x < 2 ^ 64) as Hx' by lia. destruct (Hf j x Hx') as [F1 F2].
    assert (sst_path dir j x <> newp) as N1.
    { intros E. apply sst_path_number in E; [lia|lia|unfold n; lia|apply sst_path_short]. }
    assert (forall q, level_path dir q -> files !! q = None -> q <> newp -> q <> newp ++ bs ".bloom" -> files' !! q = None) as Hnone.
    { intros q Hq Hq0 Q1 Q2. destruct (Hoth q Hq Q1 Q2) as [->| ->]; done. }
    pose proof (sst_path_level_path dir j x) as Hlp. split; apply Hnone; auto using level_path_bloom.
    + intros E. unfold sst_path in E. rewrite !app_assoc in E. symmetry in E. apply bloom_not_sst in E. done.
    + unfold newp, sst_path. rewrite !app_assoc. apply bloom_not_sst.
    + intros E%app_inv_tail. done.
Qed.

(** The names of the tables are not those of the next one. *)
Lemma old_path_ne k n x j : 0 <= n < x -> x < 2 ^ 64 ->
  let p := sst_path dir k n in let newp := sst_path dir j x in
  p <> newp /\ p <> newp ++ bs ".bloom" /\ p ++ bs ".bloom" <> newp /\ p ++ bs ".bloom" <> newp ++ bs ".bloom".
Proof.
  intros Hn Hx p newp. assert (p <> newp) as N1.
  { intros E. apply sst_path_number in E; [lia|lia|lia|apply sst_path_short]. }
  split_and!; [done| | |by intros E%app_inv_tail].
  - intros E. unfold p, sst_path in E. rewrite !app_assoc in E. symmetry in E. apply bloom_not_sst in E. done.
  - unfold newp, sst_path. rewrite !app_assoc. apply bloom_not_sst.
Qed.

(** Tables that stay, while the next one is written to level [j] and the files [gone] go. *)
Lemma level_tables_kept files v cache tabs files' j i ts (gone : list bytes) :
  let n := v_next_file_number v in let newp := sst_path dir j n in
  disk_inv files v cache tabs -> tabs !! i = Some ts ->
  (forall q, level_path dir q -> q ∉ gone -> q <> newp -> q <> newp ++ bs ".bloom" -> files' !! q = files !! q) ->
  (forall p, p ∈ v_getLevelFiles v (Z.of_nat i) -> p ∉ gone /\ p ++ bs ".bloom" ∉ gone) ->
  Forall2 (table files') (v_getLevelFiles v (Z.of_nat i)) ts.
Proof.
  intros n newp H Hts Hoth Hg. pose proof (di_next _ _ _ _ H) as Hn. eapply tables_same; [|by apply (di_tables _ _ _ _ H i)].
  intros p Hp. destruct (Hg p Hp) as [G1 G2]. eapply level_member in Hp as (_ & x & -> & Hx); [|done|lia].
  destruct (old_path_ne (Z.of_nat i) x n j ltac:(unfold n; lia) ltac:(unfold n; lia)) as (? & ? & ? & ?).
  split; apply Hoth; auto using sst_path_level_path, level_path_bloom.
Qed.

(** The version after the next table is registered at level [k]. *)
Lemma next_added files v cache tabs fs1 fs2 v1 k :
  let n := v_next_file_number v in let newp := sst_path dir k n in
  disk_inv files v cache tabs -> n + 1 < 2 ^ 64 -> 0 <= k -> v_addLevelFile fs1 (v_nextFileNumber v).2 k newp = Some (fs2, v1) ->
  v_next_file_number v1 = n + 1 /\
  forall i, lv_at (v_levels v1) i = if decide (i = Z.to_nat k) then lv_at (v_levels v) i ++ [new_meta newp n] else lv_at (v_levels v) i.
Proof.
  intros n newp H Hb Hk Hadd. pose proof (di_next _ _ _ _ H) as Hn. fold n in Hn.
  destruct (v_add_effect _ _ _ _ n _ _ Hadd) as [Hnx Hlv]; [by apply number_of_path_sst; [lia|apply sst_path_short]|lia|].
  unfold raise_next in Hnx. cbn [v_nextFileNumber snd v_next_file_number] in Hnx. fold n in Hnx. rewrite u64_small in Hnx by lia.
  rewrite Z.gtb_ltb, Z.ltb_irrefl in Hnx. done.
Qed.

(** A flush appends its table to level 0. *)
Lemma disk_flush files v cache tabs files' v' t m' es' fs1 fs2 :
  let n := v_next_file_number v in let newp := sst_path dir 0 n in
  disk_inv files v cache tabs -> n + 1 < 2 ^ 64 -> v_durable files' v' m' es' -> mf_path m' = dir ++ bs "/MANIFEST" ->
  v_addLevelFile fs1 (v_nextFileNumber v).2 0 newp = Some (fs2, v') ->
  table files' newp t -> t <> [] ->
  (forall q, level_path dir q -> q <> newp -> q <> newp ++ bs ".bloom" -> files' !! q = files !! q) ->
  disk_inv files' v' cache (alter (fun ts => ts ++ [t]) 0%nat tabs) /\ v_next_file_number v' = n + 1 /\
  exists f, f ∈ lv_at (v_levels v') 0 /\ sm_file_number f = n.
Proof.
  intros n newp H Hb Hv Hm Hadd Ht Hne Hoth. pose proof (di_next _ _ _ _ H) as Hn. fold n in Hn.
  destruct (next_added _ _ _ _ _ _ _ 0 H Hb ltac:(lia) Hadd) as [Hnx Hlv]. fold n newp in Hnx, Hlv. change (Z.to_nat 0) with 0%nat in Hlv.
  assert (forall i ts, tabs !! i = Some ts -> Forall2 (table files') (v_getLevelFiles v (Z.of_nat i)) ts) as Hkept.
  { intros i ts Hts. eapply (level_tables_kept _ _ _ _ _ 0 _ _ []); [done|done|intros q ? _; by apply Hoth|].
    intros p _. split; apply not_elem_of_nil. }
  split; [|split; [done|]].
  - eapply (disk_change files v cache tabs files' v' cache _ 0 m' es'); try done.
    + lia.
    + intros i f. rewrite Hlv. case_decide as Hi; [|by left]. rewrite elem_of_app, list_elem_of_singleton. intros [Hf'| ->]; [by left|by right].
    + rewrite length_alter. apply H.
    + intros i ts. rewrite v_getLevelFiles_at, Nat2Z.id, Hlv by lia. destruct (decide (i = 0%nat)) as [->|Hi].
      * rewrite list_lookup_alter_eq. destruct (tabs !! 0%nat) as [ts0|] eqn:E0; [|done]. intros [= <-]. rewrite fmap_app.
        apply Forall2_app; [|constructor; [exact Ht|constructor]]. specialize (Hkept _ _ E0). by rewrite v_getLevelFiles_at in Hkept.
      * rewrite list_lookup_alter_ne by done. intros Hts. specialize (Hkept _ _ Hts). by rewrite v_getLevelFiles_at, Nat2Z.id in Hkept by lia.
    + apply Forall_alter; [apply H|]. intros ts _ Hts. apply Forall_app. split; [done|by repeat constructor].
    + intros q Hq Q1 Q2. left. by apply Hoth.
    + eapply cache_valid_weaken; [apply H|]. intros p d [Hp Hlp]%level_part_Some. apply level_part_Some. split; [|done].
      destruct (di_fresh _ _ _ _ H 0 n ltac:(fold n; lia)) as [F1 F2]. rewrite Hoth; [done|done|unfold newp; congruence|unfold newp; congruence].
  - exists (new_meta newp n). rewrite Hlv, decide_True by done. split; [apply elem_of_app; right; left|done].
Qed.

(** A merge empties a level and appends its table to the next. *)
Lemma disk_merge files v cache tabs files' v' cache' (lvl : nat) t m' es' :
  let n := v_next_file_number v in let newp := sst_path dir (Z.of_nat lvl + 1) n in let src := v_getLevelFiles v (Z.of_nat lvl) in
  disk_inv files v cache tabs -> n + 1 < 2 ^ 64 -> Z.of_nat lvl + 1 <= maxl -> v_durable files' v' m' es' -> mf_path m' = dir ++ bs "/MANIFEST" ->
  v_moved (v_nextFileNumber v).2 (Z.of_nat lvl) newp src v' -> table files' newp t -> t <> [] ->
  (forall q, q ∈ src -> files' !! q = None) ->
  (forall q, level_path dir q -> q ∉ src -> q <> newp -> q <> newp ++ bs ".bloom" -> files' !! q = files !! q) ->
  cache_valid (filter (fun x : bytes * bytes => x.1 ∉ src) (level_part dir files)) cache' ->
  disk_inv files' v' cache' (alter (fun ts => ts ++ [t]) (S lvl) (<[lvl := []]> tabs)) /\ v_next_file_number v' = n + 1 /\
  exists f, f ∈ lv_at (v_levels v') (S lvl) /\ sm_file_number f = n.
Proof.
  intros n newp src H Hb Hk Hv Hm (fs1 & fs2 & fs3 & fs4 & v1 & Hadd & Hrm) Ht Hne Hgone Hoth Hc.
  pose proof (di_next _ _ _ _ H) as Hn. fold n in Hn.
  destruct (next_added _ _ _ _ _ _ _ (Z.of_nat lvl + 1) H Hb ltac:(lia) Hadd) as [Hnx Hlv1]. fold n newp in Hnx, Hlv1.
  replace (Z.to_nat (Z.of_nat lvl + 1)) with (S lvl) in Hlv1 by lia.
  pose proof (v_remove_next _ _ _ _ _ _ Hrm) as Hnx'. pose proof (v_remove_levels _ _ _ _ _ _ Hrm ltac:(lia)) as Hlv. rewrite Nat2Z.id in Hlv.
  assert (lv_at (v_levels v') lvl = []) as Hempty.
  { rewrite Hlv, decide_True, Hlv1, decide_False by lia. apply elem_of_nil_inv. intros f [Hf1 Hf2]%list_elem_of_filter. apply Hf1.
    unfold src. rewrite v_getLevelFiles_at, Nat2Z.id by lia. by apply list_elem_of_fmap_2. }
  assert (forall i, i <> lvl -> lv_at (v_levels v') i = if decide (i = S lvl) then lv_at (v_levels v) i ++ [new_meta newp n] else lv_at (v_levels v) i) as Hother.
  { intros i Hi. by rewrite Hlv, decide_False, Hlv1. }
  assert (forall i ts, i <> lvl -> tabs !! i = Some ts -> Forall2 (table files') (v_getLevelFiles v (Z.of_nat i)) ts) as Hkept.
  { intros i ts Hi Hts. eapply (level_tables_kept _ _ _ _ _ (Z.of_nat lvl + 1) _ _ src); [done|done|done|].
    intros p Hp. eapply level_member in Hp as (Hki & x & -> & Hx); [|done|lia]. split; intros Hin.
    - eapply level_member in Hin as (_ & y & E & Hy); [|done|lia]. apply sst_path_level in E; [lia|lia|lia|lia|lia|apply sst_path_short].
    - eapply level_member in Hin as (_ & y & E & Hy); [|done|lia]. unfold sst_path at 2 in E. rewrite !app_assoc in E. apply bloom_not_sst in E. done. }
  split; [|split; [lia|]].
  - eapply (disk_change files v cache tabs files' v' cache' _ (S lvl) m' es'); try done.
    + lia.
    + lia.
    + intros i f. destruct (decide (i = lvl)) as [->|Hi]; [rewrite Hempty; by intros ?%not_elem_of_nil|]. rewrite Hother by done.
      case_decide as Hi'; [|by left]. rewrite elem_of_app, list_elem_of_singleton. intros [Hf'| ->]; [by left|right]. split; [done|].
      unfold newp. do 2 f_equal. lia.
    + rewrite length_alter, length_insert. apply H.
    + intros i ts. rewrite v_getLevelFiles_at, Nat2Z.id by lia. destruct (decide (i = lvl)) as [->|Hi].
      * rewrite Hempty. rewrite list_lookup_alter_ne by lia. intros Hts. apply list_lookup_insert_Some in Hts as [(_ & <- & _)|[? _]]; [constructor|done].
      * rewrite Hother by done. case_decide as Hi'.
        -- subst i. rewrite list_lookup_alter_eq, list_lookup_insert_ne by done. destruct (tabs !! S lvl) as [ts0|] eqn:E0; [|done]. intros [= <-].
           rewrite fmap_app. apply Forall2_app; [|constructor; [exact Ht|constructor]]. specialize (Hkept _ _ Hi E0). by rewrite v_getLevelFiles_at, Nat2Z.id in Hkept by lia.
        -- rewrite list_lookup_alter_ne, list_lookup_insert_ne by done. intros Hts. specialize (Hkept _ _ Hi Hts). by rewrite v_getLevelFiles_at, Nat2Z.id in Hkept by lia.
    + apply Forall_alter; [apply Forall_insert; [apply H|constructor]|]. intros ts _ Hts. apply Forall_app. split; [done|by repeat constructor].
    + replace (Z.of_nat (S lvl)) with (Z.of_nat lvl + 1) by lia. intros q Hq Q1 Q2. destruct (decide (q ∈ src)); [right; by apply Hgone|left; by apply Hoth].
    + eapply cache_valid_weaken; [exact Hc|]. intros p d [[Hp Hlp]%level_part_Some Hps]%map_lookup_filter_Some. apply level_part_Some. split; [|done].
      destruct (di_fresh _ _ _ _ H (Z.of_nat lvl + 1) n ltac:(fold n; lia)) as [F1 F2].
      rewrite Hoth; [done|done|done|unfold newp; congruence|unfold newp; congruence].
  - exists (new_meta newp n). rewrite Hother, decide_True by lia. split; [apply elem_of_app; right; left|done].
Qed.

(** ** Compaction *)

(** Entries of a workload that writes every key once. *)
Record once (es : list entry) : Prop := {
  on_live : Forall (fun e => IsDeletion e.1 = false) es;
  on_keys : NoDup (kv <$> es).*1;
  on_named : [] ∉ (kv <$> es).*1;
  on_weight : weight es < 2 ^ 30;
}.

Lemma once_submseteq e1 e2 : e1 ⊆+ e2 -> once e2 -> once e1.
Proof.
  intros Hs [H1 H2 H3 H4]. assert ((kv <$> e1).*1 ⊆+ (kv <$> e2).*1) as Hk by by apply fmap_submseteq, fmap_submseteq. split.
  - apply Forall_forall. intros e He. rewrite Forall_forall in H1. apply H1. by eapply elem_of_submseteq.
  - apply submseteq_Permutation in Hk as [k3 Hk]. rewrite Hk in H2. by apply NoDup_app in H2 as [? _].
  - intros Hin. apply H3. by eapply elem_of_submseteq.
  - apply submseteq_Permutation in Hs as [e3 Hs]. rewrite (weight_perm _ _ Hs), weight_app in H4. pose proof (weight_length e3). pose proof (zlen_nonneg e3). lia.
Qed.

Lemma once_perm e1 e2 : e1 ≡ₚ e2 -> once e2 -> once e1.
Proof. intros Hp. apply once_submseteq. by rewrite Hp. Qed.

Lemma once_ikeys es : once es -> NoDup es.*1.
Proof.
  intros H. pose proof (on_keys _ H) as Hn. rewrite <- list_fmap_compose in Hn. change (fst ∘ kv) with (InternalKeyUserKey ∘ @fst bytes bytes) in Hn.
  rewrite list_fmap_compose in Hn. by apply NoDup_fmap_1 in Hn.
Qed.

(** Nothing is dropped from such entries. *)
Lemma keep_newest_once last es : Forall (fun e => IsDeletion e.1 = false) es -> NoDup (kv <$> es).*1 -> last ∉ (kv <$> es).*1 ->
  keep_newest last es = es.
Proof.
  revert last. induction es as [|e es IH]; intros last; [done|]. cbn [fmap list_fmap keep_newest]. intros [Hd Hv]%Forall_cons [Hn Hnd]%NoDup_cons [Hl _]%not_elem_of_cons.
  rewrite decide_False by (cbn in Hl; congruence). rewrite Hd. by rewrite IH.
Qed.

Lemma concat_alter_snoc {A} (t : list A) k (tabs : list (list (list A))) :
  (k < length tabs)%nat -> concat (concat (alter (fun ts => ts ++ [t]) k tabs)) ≡ₚ t ++ concat (concat tabs).
Proof.
  revert k. induction tabs as [|ts tabs IH]; intros [|k] Hk; cbn in Hk; [lia..| |].
  - cbn. rewrite !concat_app. cbn. rewrite app_nil_r. solve_Permutation.
  - change (alter (fun ts => ts ++ [t]) (S k) (ts :: tabs)) with (ts :: alter (fun ts => ts ++ [t]) k tabs). cbn [concat]. rewrite !concat_app, IH by lia.
    solve_Permutation.
Qed.

Lemma concat_insert_nil {A} k ts (tabs : list (list (list A))) :
  tabs !! k = Some ts -> concat ts ++ concat (concat (<[k := []]> tabs)) ≡ₚ concat (concat tabs).
Proof.
  revert k. induction tabs as [|ts0 tabs IH]; intros [|k] Hk; [done|done| |].
  - injection Hk as ->. cbn. by rewrite concat_app.
  - cbn in Hk |- *. rewrite !concat_app, <- (IH k Hk). solve_Permutation.
Qed.

(** The disk after a step of the compaction thread that allocates at most [b] numbers. *)
Record moved_on (b : Z) (files : gmap bytes bytes) (v : Version) (tabs : list (list (list entry)))
  (files' : gmap bytes bytes) (v' : Version) (cache' : option BlockCache) (tabs' : list (list (list entry))) : Prop := {
  mo_inv : disk_inv files' v' cache' tabs';
  mo_data : concat (concat tabs') ≡ₚ concat (concat tabs);
  mo_next : v_next_file_number v <= v_next_file_number v' <= v_next_file_number v + b;
  mo_top : v' = v \/ exists k f, f ∈ lv_at (v_levels v') k /\ sm_file_number f = v_next_file_number v' - 1;
  mo_frame : forall q, ~ level_path dir q -> q <> dir ++ bs "/MANIFEST" -> files' !! q = files !! q;
}.

Lemma moved_on_refl b files v cache tabs : 0 <= b -> disk_inv files v cache tabs -> moved_on b files v tabs files v cache tabs.
Proof. intros Hb H. split; [done|done|lia|by left|done]. Qed.

Lemma moved_on_trans b1 b2 files v tabs files1 v1 cache1 tabs1 files2 v2 cache2 tabs2 :
  moved_on b1 files v tabs files1 v1 cache1 tabs1 -> moved_on b2 files1 v1 tabs1 files2 v2 cache2 tabs2 ->
  moved_on (b1 + b2) files v tabs files2 v2 cache2 tabs2.
Proof.
  intros [_ D1 N1 T1 F1] [I2 D2 N2 T2 F2]. split; [done|by rewrite D2|lia| |].
  - destruct T2 as [->|?]; [done|by right].
  - intros q Q1 Q2. by rewrite F2, F1.
Qed.

(** Merging keeps every entry of a list of live entries with one entry per user key. *)
Lemma merged_once es : once es -> keep_newest [] (sort_by (lt_keyed InternalKeyCompare fst) es) ≡ₚ es.
Proof.
  intros Ho. assert (sort_by (lt_keyed InternalKeyCompare fst) es ≡ₚ es) as Hsp by apply sort_by_perm.
  assert (once (sort_by (lt_keyed InternalKeyCompare fst) es)) as Hos by by eapply once_perm.
  rewrite keep_newest_once; [done|apply Hos..].
Qed.

Lemma merge_moved cm files v cache tabs (lvl : nat) :
  disk_inv files v cache tabs -> once (concat (concat tabs)) -> cm_db_path cm = dir -> cm_max_level cm = maxl ->
  v_next_file_number v + 1 < 2 ^ 64 -> Z.of_nat lvl < maxl -> v_getLevelFiles v (Z.of_nat lvl) <> [] ->
  exists files' v' cache' tabs',
    mergeLevelFiles cm (mkCS (fs_of files) v cache) (Z.of_nat lvl) (v_getLevelFiles v (Z.of_nat lvl)) = Some (mkCS (fs_of files') v' cache', SOk) /\
    moved_on 1 files v tabs files' v' cache' tabs'.
Proof.
  intros H Ho Hcd Hcm Hb Hl Hne. destruct (di_durable _ _ _ _ H) as (m & es & Hv & Hm). pose proof (di_next _ _ _ _ H) as Hn.
  pose proof (di_levels _ _ _ _ H) as Hlen. unfold nlevels in Hlen.
  destruct (lookup_lt_is_Some_2 tabs lvl ltac:(lia)) as [ts Hts]. pose proof (di_tables _ _ _ _ H _ _ Hts) as Htab.
  pose proof (concat_insert_nil _ _ _ Hts) as Hsplit.
  assert (once (concat ts)) as Hot by (eapply once_submseteq; [|exact Ho]; rewrite <- Hsplit; by apply submseteq_inserts_r).
  set (src := v_getLevelFiles v (Z.of_nat lvl)) in *. set (newp := sst_path dir (Z.of_nat lvl + 1) (v_next_file_number v)).
  pose proof (sst_path_length dir (Z.of_nat lvl + 1) (v_next_file_number v)) as Hpl. fold newp in Hpl.
  assert (forall p, p ∈ src -> exists n, p = sst_path dir (Z.of_nat lvl) n /\ 0 <= n < v_next_file_number v) as Hsrc.
  { intros p Hp. eapply level_member in Hp as (_ & n & -> & Hn'); [by exists n|done|lia]. }
  assert (level_path dir newp) as Hlp by apply sst_path_level_path.
  destruct (mergeLevelFiles_ok cm files (level_part dir files) v cache m es (Z.of_nat lvl) ts)
    as (f' & v' & c' & m' & es' & E & Hc' & Hv' & Hm' & Hmv & H0 & H1 & H2 & H3 & H4 & H5);
    rewrite ?Hcd, ?Hcm; fold src; fold newp; try done.
  - lia.
  - lia.
  - lia.
  - intros ->. by inversion Htab.
  - by apply once_ikeys.
  - apply Hot.
  - apply H.
  - intros p (n & -> & _)%Hsrc. apply level_part_lookup, sst_path_level_path.
  - rewrite Hm. split_and!.
    + by apply level_path_not_manifest.
    + by apply level_path_not_manifest, level_path_bloom.
    + intros (n & E & _)%Hsrc. symmetry in E. revert E. apply level_path_not_manifest, sst_path_level_path.
    + intros (n & E & Hn')%Hsrc. symmetry in E. revert E. by apply old_path_ne; lia.
    + intros (n & E & Hn')%Hsrc. symmetry in E. revert E. by apply old_path_ne; lia.
  - lia.
  - set (merged := keep_newest [] (sort_by (lt_keyed InternalKeyCompare fst) (concat ts))) in *.
    assert (merged ≡ₚ concat ts) as Hmp by by apply merged_once.
    assert (merged <> []) as Hmne.
    { intros E0. rewrite E0 in Hmp. apply Permutation_nil in Hmp. destruct ts as [|t ts']; [by inversion Htab|].
      pose proof (di_nonempty _ _ _ _ H) as Hnn. eapply Forall_lookup_1 in Hnn; [|exact Hts]. apply Forall_cons in Hnn as [Ht0 _]. cbn in Hmp. by destruct t. }
    rewrite decide_False in H1 by done. rewrite Hcd in Hmv, H1, H4, H5. fold newp in Hmv, H1, H4, H5. fold src in Hmv, H3, H4, Hc', E.
    destruct (disk_merge files v cache tabs f' v' c' lvl merged m' es' H ltac:(lia) ltac:(lia) Hv') as (Hd & Hnx & f & Hf & Hfn); fold src; fold newp; try done.
    + by rewrite Hm'.
    + by apply Hmv.
    + by apply H5.
    + intros q Hq Q1 Q2 Q3. apply H4; [done| |done|done]. rewrite Hm. by apply level_path_not_manifest.
    + eexists f', v', c', _. split; [exact E|]. split; [exact Hd| |lia| |].
      * rewrite concat_alter_snoc by (rewrite length_insert; lia). by rewrite Hmp, Hsplit.
      * right. exists (S lvl), f. split; [done|lia].
      * intros q Q1 Q2. apply H4; [|by rewrite Hm| |].
        -- intros (n & -> & _)%Hsrc. apply Q1, sst_path_level_path.
        -- by intros ->.
        -- intros ->. by apply Q1, level_path_bloom.
Qed.

Lemma compactL0_moved cm files v cache tabs :
  disk_inv files v cache tabs -> once (concat (concat tabs)) -> cm_db_path cm = dir -> cm_max_level cm = maxl -> v_next_file_number v + 1 < 2 ^ 64 ->
  exists files' v' cache' tabs', compactL0 cm (mkCS (fs_of files) v cache) = Some (mkCS (fs_of files') v' cache', SOk) /\
    moved_on 1 files v tabs files' v' cache' tabs'.
Proof.
  intros H Ho Hcd Hcm Hb. unfold compactL0. cbn [cs_version]. case_bool_decide as He.
  { exists files, v, cache, tabs. split; [done|by apply moved_on_refl]. }
  destruct (decide (maxl = 0)) as [H0|Hnz]; [|by apply (merge_moved cm files v cache tabs 0); try done; lia].
  exists files, v, cache, tabs. split; [|by apply moved_on_refl]. unfold mergeLevelFiles. rewrite bool_decide_eq_false_2 by done. by rewrite Hcm, H0.
Qed.

Lemma compactLevel_moved cm files v cache tabs (lvl : nat) :
  disk_inv files v cache tabs -> once (concat (concat tabs)) -> cm_db_path cm = dir -> cm_max_level cm = maxl -> v_next_file_number v + 1 < 2 ^ 64 ->
  exists files' v' cache' tabs', compactLevel cm (mkCS (fs_of files) v cache) (Z.of_nat lvl) = Some (mkCS (fs_of files') v' cache', SOk) /\
    moved_on 1 files v tabs files' v' cache' tabs'.
Proof.
  intros H Ho Hcd Hcm Hb. unfold compactLevel. rewrite Hcm. destruct (_ || _) eqn:Eg.
  { exists files, v, cache, tabs. split; [done|by apply moved_on_refl]. }
  cbn [cs_version]. destruct (Z.ltb_spec (zlen (v_getLevelFiles v (Z.of_nat lvl))) 2) as [Hz|Hz].
  { exists files, v, cache, tabs. split; [done|by apply moved_on_refl]. }
  apply orb_false_iff in Eg as [E1 E2]. apply merge_moved; try done; [lia|]. intros E. rewrite E in Hz. done.
Qed.

Lemma compact_levels_moved lvls : forall cm files v cache tabs,
  disk_inv files v cache tabs -> once (concat (concat tabs)) -> cm_db_path cm = dir -> cm_max_level cm = maxl ->
  v_next_file_number v + zlen lvls < 2 ^ 64 ->
  exists cm' files' v' cache' tabs', compact_levels cm (mkCS (fs_of files) v cache) lvls = Some (cm', mkCS (fs_of files') v' cache') /\
    cm_db_path cm' = dir /\ cm_max_level cm' = maxl /\ moved_on (zlen lvls) files v tabs files' v' cache' tabs'.
Proof.
  induction lvls as [|lvl lvls IH]; intros cm files v cache tabs H Ho Hcd Hcm Hb; cbn [compact_levels].
  { exists cm, files, v, cache, tabs. split_and!; try done. by apply moved_on_refl. }
  rewrite zlen_cons in *. pose proof (zlen_nonneg lvls). cbn [cs_version]. destruct (v_shouldCompactLevel _ _ _).
  - destruct (compactLevel_moved cm files v cache tabs lvl) as (f1 & v1 & c1 & t1 & -> & M1); [done..|lia|]. cbn [mbind option_bind].
    simpl (ok SOk). cbn iota. pose proof (mo_next _ _ _ _ _ _ _ _ M1) as Hn1.
    destruct (IH (cm_set_failures cm 0) f1 v1 c1 t1) as (cm' & f2 & v2 & c2 & t2 & E & D2 & X2 & M2); [apply M1| |done|done|lia|].
    { eapply once_perm; [apply M1|done]. }
    exists cm', f2, v2, c2, t2. split_and!; [done..|]. by eapply moved_on_trans.
  - destruct (IH cm files v cache tabs) as (cm' & f2 & v2 & c2 & t2 & E & D2 & X2 & M2); [done..|lia|].
    exists cm', f2, v2, c2, t2. split_and!; [done..|]. destruct M2 as [I2 P2 N2 T2 F2]. split; [done|done|lia|done|done].
Qed.

(** One pass of the compaction thread. *)
Lemma compaction_tick_moved cm files v cache tabs :
  disk_inv files v cache tabs -> once (concat (concat tabs)) -> cm_db_path cm = dir -> cm_max_level cm = maxl ->
  v_next_file_number v + (maxl + 1) < 2 ^ 64 ->
  exists cm' files' v' cache' tabs', compaction_tick cm (mkCS (fs_of files) v cache) = Some (cm', mkCS (fs_of files') v' cache') /\
    cm_db_path cm' = dir /\ cm_max_level cm' = maxl /\ moved_on (maxl + 1) files v tabs files' v' cache' tabs'.
Proof.
  intros H Ho Hcd Hcm Hb. unfold compaction_tick. cbn [cs_version]. set (lvls := seq 1 (Z.to_nat (cm_max_level cm) - 1)).
  assert (zlen lvls <= maxl) as Hlen by (unfold zlen, lvls; rewrite length_seq, Hcm; lia). pose proof (zlen_nonneg lvls).
  assert (exists cm1 f1 v1 c1 t1, (if cm_triggered cm || v_shouldCompactL0 v (cm_l0_trigger cm) then
      '(st, s) ← compactL0 (cm_set_triggered cm false) (mkCS (fs_of files) v cache);
      Some (if ok s then cm_set_failures (cm_set_triggered cm false) 0
            else cm_set_triggered (cm_set_failures (cm_set_triggered cm false) (cm_failures (cm_set_triggered cm false) + 1)) true, st)
    else Some (cm, mkCS (fs_of files) v cache)) = Some (cm1, mkCS (fs_of f1) v1 c1) /\
    cm_db_path cm1 = dir /\ cm_max_level cm1 = maxl /\ moved_on 1 files v tabs f1 v1 c1 t1) as (cm1 & f1 & v1 & c1 & t1 & E & D1 & X1 & M1).
  { destruct (_ || _).
    - destruct (compactL0_moved (cm_set_triggered cm false) files v cache tabs) as (f1 & v1 & c1 & t1 & -> & M1); [done..|lia|].
      cbn [mbind option_bind]. simpl (ok SOk). cbn iota. by do 5 eexists.
    - exists cm, files, v, cache, tabs. split_and!; try done. by apply moved_on_refl. }
  cbv zeta in E |- *. rewrite E. cbn [mbind option_bind]. pose proof (mo_next _ _ _ _ _ _ _ _ M1) as Hn1.
  destruct (compact_levels_moved lvls cm1 f1 v1 c1 t1) as (cm' & f2 & v2 & c2 & t2 & E2 & D2 & X2 & M2); [apply M1| |done|done|lia|].
  { eapply once_perm; [apply M1|done]. }
  exists cm', f2, v2, c2, t2. split; [by rewrite X1, <- Hcm|]. do 2 (split; [done|]). destruct (moved_on_trans _ _ _ _ _ _ _ _ _ _ _ _ _ M1 M2) as [I3 P3 N3 T3 F3].
  split; [done|done|lia|done|done].
Qed.

(** ** The whole store *)

(** The logs of the generations [ns] hold the pairs of the layer [l]. *)
Definition logged (files : gmap bytes bytes) (ns : list Z) (l : list entry) : Prop :=
  exists opsss, Forall2 (fun n opss => wal_clean (fs_of files) (walp dir n) (encode_batch <$> opss)) ns opsss /\
    Forall (fun op => op_type op = bPut) (concat (concat opsss)) /\ op_kv <$> concat (concat opsss) ≡ₚ kv <$> l.

Lemma logged_same files files' ns l :
  (forall n, n ∈ ns -> files' !! walp dir n = files !! walp dir n) -> logged files ns l -> logged files' ns l.
Proof.
  intros Hs (opsss & Hf & Hrest). exists opsss. split; [|exact Hrest]. clear Hrest.
  induction Hf as [|n opss ns opsss [Hr Hfit] _ IH]; constructor.
  - split; [|done]. unfold fs_read in *. cbn in *. by rewrite Hs by left.
  - apply IH. intros k Hk. apply Hs. by right.
Qed.

Lemma frozen_same files files' frozen imms :
  (forall n, n ∈ concat frozen -> files' !! walp dir n = files !! walp dir n) ->
  Forall2 (logged files) frozen imms -> Forall2 (logged files') frozen imms.
Proof.
  intros Hs Hf. induction Hf as [|x y xs ys Hxy _ IH]; constructor.
  - eapply logged_same; [|done]. intros n Hn. apply Hs. cbn. apply elem_of_app. by left.
  - apply IH. intros n Hn. apply Hs. cbn. apply elem_of_app. by right.
Qed.

Context (options : Options) (Hopt_dir : dir_of options = dir) (Hopt_max : max_level options = maxl) (Hopt_mem : 0 < memtable_size options).

(** A store that holds the pairs [ps]: [l] in the memtable, [imms] in the frozen ones, [tabs] in
    the tables; the logs [frozen] belong to the frozen memtables, [old] and [cur] to the
    current one. *)
Record life (files : gmap bytes bytes) (db : DB) (ps : list (bytes * bytes)) (l : list entry) (imms : list (list entry))
  (tabs : list (list (list entry))) (frozen : list (list Z)) (old : list Z) (cur : Z) : Prop := {
  li_options : db_options db = options /\ db_dir db = dir;
  li_rep : db_rep db l imms;
  li_queue : fe_memtable <$> ms_queue (db_mems db) = ms_immutable (db_mems db);
  li_queue_wals : fe_wals <$> ms_queue (db_mems db) = fmap (walp dir) <$> frozen;
  li_logs : db_logs db = mkLogs (Some (mkWAL (walp dir cur) true)) (walp dir cur) (walp dir <$> old);
  li_sorted : sorted_by Z.compare (concat frozen ++ old ++ [cur]);
  li_numbers : Forall (fun n => 0 <= n < v_next_file_number (db_version db)) (concat frozen ++ old ++ [cur]);
  li_wals : forall n p, is_wal files dir n p <-> n ∈ concat frozen ++ old ++ [cur] /\ p = walp dir n;
  li_frozen : Forall2 (logged files) frozen imms;
  li_current : logged files (old ++ [cur]) l;
  li_imms : Forall (fun t => t <> []) imms;
  li_disk : disk_inv files (db_version db) (db_cache db) tabs;
  li_data : holds ps (l ++ concat imms ++ concat (concat tabs));
  li_seq : 0 <= db_seq db <= zlen ps;
  li_compaction : exists cm, db_compaction db = Some cm /\ cm_db_path cm = dir /\ cm_max_level cm = maxl;
  li_top : v_next_file_number (db_version db) - 1 ∈ concat frozen ++ old ++ [cur] \/
    exists k f, f ∈ lv_at (v_levels (db_version db)) k /\ sm_file_number f = v_next_file_number (db_version db) - 1;
}.

(** Pairs a store may hold: distinct, non-empty keys and less than a gigabyte in all. *)
Record pairs_ok (ps : list (bytes * bytes)) : Prop := {
  po_keys : NoDup ps.*1;
  po_named : [] ∉ ps.*1;
  po_weight : kvs_weight ps < 2 ^ 30;
}.

Lemma life_wf files db ps l imms tabs frozen old cur :
  life files db ps l imms tabs frozen old cur -> Forall wf_ikey (l ++ concat imms ++ concat (concat tabs)).*1.
Proof.
  intros H. rewrite !fmap_app, !Forall_app. destruct (li_rep _ _ _ _ _ _ _ _ _ H) as [(id & m & _ & Hm & _) Hi]. split_and!.
  - apply (mt_rep_wf _ _ Hm).
  - clear -Hi. induction Hi as [|[i m] t ps ts Hm _ IH]; cbn; [constructor|]. rewrite fmap_app. apply Forall_app. split; [apply (mt_rep_wf _ _ Hm)|done].
  - pose proof (di_tables _ _ _ _ (li_disk _ _ _ _ _ _ _ _ _ H)) as Ht. apply Forall_fmap, Forall_concat, Forall_concat.
    apply Forall_lookup. intros i ts Hts. apply Ht in Hts. clear -Hts. induction Hts as [|p t ps ts [_ [Ht _]] _ IH]; constructor; [|done].
    exact (proj1 (Forall_fmap _ _ _) Ht).
Qed.

Lemma life_once files db ps l imms tabs frozen old cur :
  life files db ps l imms tabs frozen old cur -> pairs_ok ps -> once (l ++ concat imms ++ concat (concat tabs)).
Proof.
  intros H [H1 H2 H3]. destruct (li_data _ _ _ _ _ _ _ _ _ H) as [Hkv Hlive]. split; [done|by rewrite Hkv|by rewrite Hkv|].
  rewrite weight_kv by by eapply life_wf. by rewrite Hkv.
Qed.

(** Reads find exactly the pairs. *)
Lemma life_get files db ps l imms tabs frozen old cur uk :
  life files db ps l imms tabs frozen old cur -> pairs_ok ps ->
  let answer := (list_to_map ps : gmap bytes bytes) !! uk in
  exists db', db_get (fs_of files) db uk = Some (db', match answer with Some _ => SOk | None => SNotFound [] end, answer) /\
    db_version db' = db_version db /\ life files db' ps l imms tabs frozen old cur.
Proof.
  intros H Hps answer. destruct (disk_read_order files db tabs) as [Ht Hlp]; [apply H|by rewrite (proj1 (li_options _ _ _ _ _ _ _ _ _ H))|].
  destruct (db_get_base files (level_part dir files) db l imms (concat tabs) uk) as (c' & Hc' & E); [apply H|done| |apply H|].
  { intros p Hp. rewrite Forall_forall in Hlp. by apply level_part_lookup, Hlp. }
  assert (first_live uk (l :: reverse imms ++ concat tabs) = answer) as Ea.
  { apply first_live_holds; [apply Hps|]. cbn [concat]. rewrite concat_app.
    assert (concat (reverse imms) ≡ₚ concat imms) as -> by (by rewrite reverse_Permutation). apply H. }
  rewrite Ea in E. exists (with_cache db c'). split; [exact E|]. split; [done|].
  destruct H as [? [] ? ? ? ? ? ? ? ? ? Hd ? ? ? ?]. split; try done. destruct Hd. by split.
Qed.

Lemma is_wal_local files files' n p : files' !! p = files !! p -> is_wal files' dir n p <-> is_wal files dir n p.
Proof. intros E. unfold is_wal. by rewrite E. Qed.

Lemma is_wal_some files n p : is_wal files dir n p -> is_Some (files !! p).
Proof. intros [(_ & _ & c & d & ->)|(_ & _ & _ & _ & ?)]; [by eexists|done]. Qed.

Lemma walp_name n : exists x, walp dir n = dir ++ bs "/wal" ++ x.
Proof. exists (bs "-" ++ to_string n ++ bs ".log"). done. Qed.

Lemma walp_not_level n : ~ level_path dir (walp dir n).
Proof. intros H. destruct (walp_name n) as [x E]. apply (level_path_not_wal dir _ (walp dir n) H); [by exists x|done]. Qed.

Lemma walp_not_manifest n : walp dir n <> dir ++ bs "/MANIFEST".
Proof. intros E%app_inv_head. discriminate E. Qed.

Lemma walp_not_in n ns : Forall (fun n => 0 <= n < 2 ^ 64) (n :: ns) -> n ∉ ns -> walp dir n ∉ walp dir <$> ns.
Proof.
  intros [Hn Hns]%Forall_cons Hnin Hin. apply list_elem_of_fmap in Hin as (k & E & Hk). rewrite Forall_forall in Hns.
  apply walp_inj in E; [by subst|done|by apply Hns].
Qed.

Lemma life_numbers files db ps l imms tabs frozen old cur n :
  life files db ps l imms tabs frozen old cur -> n ∈ concat frozen ++ old ++ [cur] -> 0 <= n < v_next_file_number (db_version db) /\ 0 <= n < 2 ^ 64.
Proof.
  intros H Hn. pose proof (li_numbers _ _ _ _ _ _ _ _ _ H) as Hns. rewrite Forall_forall in Hns. specialize (Hns n Hn).
  pose proof (di_next _ _ _ _ (li_disk _ _ _ _ _ _ _ _ _ H)). lia.
Qed.

(** The flush of the oldest frozen memtable is possible. *)
Lemma life_flush_pre files db ps l flushed imms tabs ns frozen old cur :
  life files db ps l (flushed :: imms) tabs (ns :: frozen) old cur -> pairs_ok ps ->
  exists id t0 t1 m es, tabs = t0 :: t1 /\ mf_path m = dir ++ bs "/MANIFEST" /\
    flush_pre files db l flushed imms id (walp dir <$> ns) t0 (concat t1) m es.
Proof.
  intros H Hps. pose proof (life_once _ _ _ _ _ _ _ _ _ H Hps) as Ho. destruct (li_options _ _ _ _ _ _ _ _ _ H) as [Eo Ed].
  pose proof (li_disk _ _ _ _ _ _ _ _ _ H) as Hd. destruct (di_durable _ _ _ _ Hd) as (m & es & Hv & Hm).
  pose proof (di_levels _ _ _ _ Hd) as Hlen. unfold nlevels in Hlen. destruct tabs as [|t0 t1]; [cbn in Hlen; lia|].
  pose proof (li_queue _ _ _ _ _ _ _ _ _ H) as Hq. pose proof (li_queue_wals _ _ _ _ _ _ _ _ _ H) as Hqw.
  destruct (ms_queue (db_mems db)) as [|[[id mt] w] q] eqn:Eq; [done|]. cbn in Hq, Hqw. injection Hqw as -> _.
  exists id, t0, t1, m, es. split; [done|]. split; [done|]. pose proof (di_next _ _ _ _ Hd) as Hn.
  destruct (disk_read_order files db (t0 :: t1) Hd) as [Ht Hlp]; [by rewrite Eo|].
  assert (flush_path db = sst_path dir 0 (v_next_file_number (db_version db))) as Efp by (unfold flush_path; by rewrite Ed).
  split.
  - apply H.
  - exists mt, q, (fe_memtable <$> q). by rewrite Eq, <- Hq.
  - pose proof (li_imms _ _ _ _ _ _ _ _ _ H) as Hi. apply Forall_cons in Hi as [Hi _]. split; [done|].
    eapply Z.le_lt_trans; [|apply (on_weight _ Ho)]. rewrite weight_app, weight_app. cbn [concat]. rewrite weight_app.
    pose proof (weight_length l). pose proof (zlen_nonneg l). pose proof (weight_length (concat imms)). pose proof (zlen_nonneg (concat imms)).
    pose proof (weight_length (concat (t0 ++ concat t1))). pose proof (zlen_nonneg (concat (t0 ++ concat t1))). lia.
  - apply Forall_forall. intros w (k & -> & _)%list_elem_of_fmap. rewrite Ed. apply walp_name.
  - split; [done|]. split; [by rewrite Ed|]. unfold numbered. lia.
  - rewrite Efp. apply (di_fresh _ _ _ _ Hd). lia.
  - rewrite Efp. pose proof (sst_path_length dir 0 (v_next_file_number (db_version db))). lia.
  - rewrite Eo, Hopt_max. done.
  - by apply (di_tables _ _ _ _ Hd 0%nat).
  - exact Ht.
  - by rewrite Ed.
  - exists (level_part dir files). split; [apply Hd|]. intros p d. rewrite Ed. apply level_part_Some.
Qed.

(** The logs of the flushed memtable are gone, the others are untouched. *)
Lemma flush_wals files files' ns rest :
  NoDup (ns ++ rest) -> Forall (fun n => 0 <= n < 2 ^ 64) (ns ++ rest) ->
  (forall n p, is_wal files dir n p <-> n ∈ ns ++ rest /\ p = walp dir n) ->
  (forall w, w ∈ walp dir <$> ns -> files' !! w = None) ->
  (forall n, n ∈ rest -> files' !! walp dir n = files !! walp dir n) ->
  (forall q, q ∉ walp dir <$> ns -> ~ level_path dir q -> q <> dir ++ bs "/MANIFEST" -> files' !! q = files !! q) ->
  forall n p, is_wal files' dir n p <-> n ∈ rest /\ p = walp dir n.
Proof.
  intros Hnd Hr Hw Hgone Hrest Hoth n p. apply NoDup_app in Hnd as (_ & Hdis & _). split.
  - intros Hp. assert (p ∉ walp dir <$> ns) as Hnin by (intros Hin; apply Hgone in Hin; apply is_wal_some in Hp as [? Hp]; congruence).
    destruct (is_wal_name _ _ _ _ Hp) as [x Ex].
    assert (is_wal files dir n p) as [Hn ->]%Hw.
    { rewrite is_wal_local in Hp; [exact Hp|]. apply Hoth; [done| |].
      - intros Hlp. apply (level_path_not_wal dir p p Hlp); [|done]. by exists (x ++ bs ".log").
      - rewrite Ex. intros E%app_inv_head. discriminate E. }
    apply elem_of_app in Hn as [Hn|Hn]; [|done]. destruct Hnin. by apply list_elem_of_fmap_2.
  - intros [Hn ->]. rewrite is_wal_local by by apply Hrest. apply Hw. split; [|done]. apply elem_of_app. by right.
Qed.

Lemma life_flush files db ps l imms tabs frozen old cur :
  life files db ps l imms tabs frozen old cur -> pairs_ok ps -> v_next_file_number (db_version db) + 1 < 2 ^ 64 ->
  exists files' db' imms' tabs' frozen', flush_step (fs_of files) db = Some (fs_of files', db') /\
    v_next_file_number (db_version db') <= v_next_file_number (db_version db) + 1 /\ life files' db' ps l imms' tabs' frozen' old cur.
Proof.
  intros H Hps Hb. destruct frozen as [|ns frozen].
  { exists files, db, imms, tabs, []. pose proof (li_queue_wals _ _ _ _ _ _ _ _ _ H) as Hq. cbn in Hq. apply fmap_nil_inv in Hq.
    unfold flush_step. rewrite Hq. split; [done|]. split; [lia|done]. }
  destruct imms as [|flushed imms]; [pose proof (li_frozen _ _ _ _ _ _ _ _ _ H) as Hf; by inversion Hf|].
  destruct (life_flush_pre _ _ _ _ _ _ _ _ _ _ _ H Hps) as (id & t0 & t1 & m & es & -> & Hm & Hpre).
  destruct (flush_step_ok _ _ _ _ _ _ _ _ _ _ _ Hpre) as (f' & db' & m' & es' & E & Edb & Hr' & Hv' & Hm' & (fs1 & fs2 & Hadd) & _ & Ht & Hdel & Hoth).
  destruct (li_options _ _ _ _ _ _ _ _ _ H) as [Eo Ed]. pose proof (li_disk _ _ _ _ _ _ _ _ _ H) as Hd.
  assert (flush_path db = sst_path dir 0 (v_next_file_number (db_version db))) as Efp by (unfold flush_path; by rewrite Ed).
  rewrite Efp in Hadd, Ht, Hoth. rewrite Hm in Hoth. set (newp := sst_path dir 0 _) in *.
  assert (forall q, q ∉ walp dir <$> ns -> ~ level_path dir q -> q <> dir ++ bs "/MANIFEST" -> f' !! q = files !! q) as Hframe.
  { intros q Q1 Q2 Q3. apply Hoth; [done|done| |]; intros ->; apply Q2; [|apply level_path_bloom]; apply sst_path_level_path. }
  assert (forall q, level_path dir q -> q <> newp -> q <> newp ++ bs ".bloom" -> f' !! q = files !! q) as Hlevel.
  { intros q Q1 Q2 Q3. apply Hoth; [|by apply level_path_not_manifest|done|done].
    intros (k & -> & _)%list_elem_of_fmap. by apply walp_not_level in Q1. }
  pose proof (fp_flushed _ _ _ _ _ _ _ _ _ _ _ Hpre) as [Hne _].
  destruct (disk_flush files (db_version db) (db_cache db) (t0 :: t1) f' (db_version db') flushed m' es' fs1 fs2 Hd ltac:(lia) Hv') as (Hd' & Hnx & f & Hf & Hfn);
    [by rewrite Hm'|done..|].
  pose proof (li_sorted _ _ _ _ _ _ _ _ _ H) as Hsort. cbn [concat] in Hsort. rewrite <- app_assoc in Hsort.
  assert (Forall (fun n => 0 <= n < 2 ^ 64) (ns ++ concat frozen ++ old ++ [cur])) as Hrange.
  { apply Forall_forall. intros n Hn. eapply life_numbers; [exact H|]. cbn [concat]. by rewrite <- app_assoc. }
  assert (NoDup (ns ++ concat frozen ++ old ++ [cur])) as Hnd.
  { apply (sorted_by_NoDup (fun _ => True) Z.compare); [by apply Forall_true|done]. }
  assert (forall n, n ∈ concat frozen ++ old ++ [cur] -> f' !! walp dir n = files !! walp dir n) as Hwsame.
  { intros n Hn. apply Hframe; [|apply walp_not_level|apply walp_not_manifest]. apply walp_not_in.
    - apply Forall_app in Hrange as [R1 R2]. constructor; [|done]. rewrite Forall_forall in R2. by apply R2.
    - apply NoDup_app in Hnd as (_ & Hdis & _). intros Hin. by apply (Hdis n Hin). }
  eexists f', db', imms, _, frozen. split; [exact E|]. split; [lia|].
  destruct H as [_ Hrep Hq Hqw Hlg _ Hnum Hwals Hfr Hcu Him _ Hdata Hseq Hcm _].
  cbn [concat] in Hnum, Hwals, Hdata. rewrite <- app_assoc in Hnum. setoid_rewrite <- app_assoc in Hwals.
  assert (db_mems db' = mkMems (ms_memtable (db_mems db)) (tail (ms_immutable (db_mems db))) (tail (ms_queue (db_mems db))) (ms_next (db_mems db)) (ms_coins (db_mems db))) as Ems by by rewrite Edb.
  split.
  - rewrite Edb. done.
  - exact Hr'.
  - rewrite Ems. cbn. rewrite <- Hq. by destruct (ms_queue (db_mems db)).
  - rewrite Ems. cbn. destruct (ms_queue (db_mems db)); [done|]. cbn in Hqw |- *. by injection Hqw.
  - rewrite Edb. exact Hlg.
  - by apply sorted_by_app in Hsort as (_ & ? & _).
  - apply Forall_app in Hnum as [_ Hnum]. eapply Forall_impl; [exact Hnum|]. cbn. lia.
  - by eapply flush_wals.
  - inversion Hfr as [|? ? ? ? _ Hfr']; subst. eapply frozen_same; [|exact Hfr']. intros n Hn. apply Hwsame, elem_of_app. by left.
  - eapply logged_same; [|done]. intros n Hn. apply Hwsame, elem_of_app. by right.
  - by apply Forall_cons in Him as [_ ?].
  - assert (db_cache db' = db_cache db) as -> by by rewrite Edb. exact Hd'.
  - eapply holds_proper; [reflexivity| |exact Hdata]. rewrite concat_alter_snoc by (cbn; lia). solve_Permutation.
  - rewrite Edb. exact Hseq.
  - rewrite Edb. exact Hcm.
  - right. exists 0%nat, f. split; [done|lia].
Qed.

(** Without faults a group is logged, and only its log changes. *)
Lemma log_group_exact files db group path rs :
  logs_to (fs_of files) db path rs -> wal_fits (group_data group) ->
  exists files', log_group (fs_of files) db group = (fs_of files', SOk) /\ wal_clean (fs_of files') path (rs ++ [group_data group]) /\
    (forall q, q <> path -> files' !! q = files !! q).
Proof.
  intros Hlog Hf. destruct (log_group_no_fault files db group path rs Hlog Hf) as [f' E]. exists f'. split; [done|].
  pose proof (log_group_cases (fs_of files) db group path rs Hlog Hf) as Hc. rewrite E in Hc.
  assert (calm (fs_of files)) as Hcalm by (right; constructor).
  pose proof (log_group_calm (fs_of files) db group path (proj1 Hlog) Hcalm Hf) as Hq. rewrite E in Hq. destruct Hq as (_ & _ & Hq).
  split; [|exact Hq]. by destruct Hc as [[_ ?]|[? _]].
Qed.

(** Freezing: the memtable joins the frozen ones with its logs, a new log is opened. *)
Lemma maybeFlush_exact files db l imms w :
  db_rep db l imms -> lg_wal (db_logs db) = Some w -> lg_current (db_logs db) <> [] -> memtable_size (db_options db) <= u64 (sl_bytes l) ->
  0 <= v_next_file_number (db_version db) -> v_next_file_number (db_version db) + 1 < 2 ^ 64 ->
  let n := v_next_file_number (db_version db) in let path := makeWalPath db n in
  exists db' p, maybeFlush (fs_of files) db = Some (fs_of (<[path := default [] (files !! path)]> files), db') /\
    db_rep db' [] (imms ++ [l]) /\ db_options db' = db_options db /\ db_dir db' = db_dir db /\
    ms_immutable (db_mems db') = ms_immutable (db_mems db) ++ [p] /\
    ms_queue (db_mems db') = ms_queue (db_mems db) ++ [mkFE p (lg_obsolete (db_logs db) ++ [lg_current (db_logs db)])] /\
    db_logs db' = mkLogs (Some (mkWAL path true)) path [] /\ db_seq db' = db_seq db /\ db_cache db' = db_cache db /\
    db_compaction db' = db_compaction db /\ v_levels (db_version db') = v_levels (db_version db) /\
    v_manifest (db_version db') = v_manifest (db_version db) /\ v_next_file_number (db_version db') = n + 1.
Proof.
  intros [(id & m & Hm & Hl & Hmax') Hi] Hw Hcur Hsz H0 Hb n path. unfold maybeFlush. rewrite Hm. cbn [mbind option_bind snd].
  unfold mt_shouldFlush. rewrite Hmax', (mt_usage_rep _ _ Hl), (proj2 (Z.leb_le _ _) Hsz). cbn [negb].
  unfold rotateWal. cbn [v_nextFileNumber with_version db_logs db_version]. fold n. change (makeWalPath db n) with path.
  unfold WAL_new. rewrite fs_open_ok. rewrite Hw. rewrite bool_decide_eq_false_2 by done.
  assert (forall f, (wal_sync (fs_of f) w).1 = fs_of f) as Hsync.
  { intros f. unfold wal_sync. destruct (wal_open w); [|done]. unfold wal_fd. destruct (wal_open w); done. }
  rewrite Hsync. eexists _, (id, m). split; [reflexivity|].
  split; [split; [do 2 eexists; split; [reflexivity|]; split; [apply mt_rep_new|reflexivity]|cbn; apply Forall2_app; [done|by repeat constructor]]|].
  do 10 (split; [by cbn; rewrite ?Hm|]). cbn. unfold raise_next. rewrite Z.gtb_ltb, Z.ltb_irrefl. by rewrite u64_small by lia.
Qed.

Lemma is_wal_walp files n c : 0 <= c < 2 ^ 64 -> is_wal files dir n (walp dir c) <-> n = c /\ is_Some (files !! walp dir c).
Proof.
  intros Hc. unfold is_wal. split.
  - intros [(_ & E & _)|(name & E & _ & Hn & Hs)]; [apply app_inv_head in E; discriminate E|]. split; [|done].
    apply app_inv_head, (f_equal (drop 1)) in E. change (drop 1 (bs "/" ++ name)) with name in E. rewrite <- E in Hn.
    change (wal_number (bs "wal-" ++ to_string c ++ bs ".log") = Some n) in Hn. rewrite (wal_number_make c Hc) in Hn. congruence.
  - intros [-> Hs]. right. exists (bs "wal-" ++ to_string c ++ bs ".log"). split; [done|]. split; [apply wal_name_flat|].
    split; [by apply wal_number_make|done].
Qed.

Lemma holds_fresh_ops ps es l ops : holds ps (l ++ es) -> pairs_ok (ps ++ (op_kv <$> ops)) -> NoDup ((op_kv <$> ops).*1 ++ (kv <$> l).*1).
Proof.
  intros [Hkv _] [Hnd _ _]. rewrite <- Hkv, !fmap_app in Hnd. rewrite <- app_assoc in Hnd.
  apply NoDup_app in Hnd as (H1 & H2 & H3). apply NoDup_app in H3 as (_ & H4 & H5). apply NoDup_app. split_and!; [done| |done].
  intros x Hx Hl. apply (H2 x Hl). apply elem_of_app. by right.
Qed.

(** A group is logged and applied. *)
Lemma life_append files db ps l imms tabs frozen old cur g f1 p coins :
  let ops := group_ops g in let l1 := mt_inserts (op_writes (db_seq db) ops) l in
  let db1 := with_mems (with_seq db (db_seq db + zlen ops)) (mkMems p (ms_immutable (db_mems db)) (ms_queue (db_mems db)) (ms_next (db_mems db)) coins) in
  life files db ps l imms tabs frozen old cur -> Forall (fun op => op_type op = bPut) ops -> pairs_ok (ps ++ (op_kv <$> ops)) ->
  db_rep db1 l1 imms ->
  (forall rs, wal_clean (fs_of files) (walp dir cur) rs -> wal_clean (fs_of f1) (walp dir cur) (rs ++ [group_data g])) ->
  (forall q, q <> walp dir cur -> f1 !! q = files !! q) ->
  life f1 db1 (ps ++ (op_kv <$> ops)) l1 imms tabs frozen old cur.
Proof.
  intros ops l1 db1 H Hput Hps Hr1 Hlog Hoth. pose proof (li_data _ _ _ _ _ _ _ _ _ H) as Hdata. pose proof (life_wf _ _ _ _ _ _ _ _ _ H) as Hwf.
  assert (zlen ops <= zlen (ps ++ (op_kv <$> ops))) as Hz by (rewrite zlen_app; unfold zlen; rewrite length_fmap; lia).
  pose proof (kvs_weight_length (ps ++ (op_kv <$> ops))) as Hkw. pose proof (po_weight _ Hps) as Hw.
  assert (zlen (ps ++ (op_kv <$> ops)) = zlen ps + zlen ops) as Ez by (rewrite zlen_app; unfold zlen; by rewrite length_fmap).
  pose proof (li_seq _ _ _ _ _ _ _ _ _ H) as Hseq. pose proof (zlen_nonneg ops). pose proof (zlen_nonneg ps).
  assert (holds ((op_kv <$> ops) ++ (kv <$> l)) l1) as Hl1.
  { apply mt_inserts_fresh; [done| |by eapply holds_fresh_ops|lia|lia|].
    - rewrite fmap_app in Hwf. by apply Forall_app in Hwf as [? _].
    - pose proof (ho_live _ _ Hdata) as Hv. by apply Forall_app in Hv as [? _]. }
  assert (forall n, n ∈ concat frozen ++ old -> f1 !! walp dir n = files !! walp dir n) as Hws.
  { intros n Hn. apply Hoth. intros E. pose proof (li_sorted _ _ _ _ _ _ _ _ _ H) as Hs. rewrite app_assoc in Hs.
    apply sorted_by_app in Hs as (_ & _ & Hs). specialize (Hs n cur Hn ltac:(left)).
    assert (0 <= n < 2 ^ 64) as Hn1 by (eapply life_numbers; [exact H|]; rewrite app_assoc; apply elem_of_app; by left).
    assert (0 <= cur < 2 ^ 64) as Hc1 by (eapply life_numbers; [exact H|]; rewrite app_assoc; apply elem_of_app; right; left).
    apply walp_inj in E; [|done..]. subst. unfold lt_by in Hs. by rewrite Z.compare_refl in Hs. }
  destruct H as [Ho Hrep Hq Hqw Hlg Hso Hnum Hwals Hfr (opsss & Hf2 & Hp2 & Hk2) Him Hdisk _ _ Hcm Htop].
  apply Forall2_app_inv_l in Hf2 as (o1 & o2 & Hf2 & Hf3 & ->). inversion Hf3 as [|? opss ? ? Hcur Hf4]; subst. inversion Hf4; subst. clear Hf3 Hf4.
  assert (is_Some (files !! walp dir cur)) as Hcs by (destruct Hcur as [Hc _]; unfold fs_read in Hc; cbn in Hc; rewrite Hc; by eexists).
  specialize (Hlog _ Hcur). assert (is_Some (f1 !! walp dir cur)) as Hcs1 by (destruct Hlog as [Hc _]; unfold fs_read in Hc; cbn in Hc; rewrite Hc; by eexists).
  assert (0 <= cur < 2 ^ 64) as Hcr.
  { rewrite Forall_forall in Hnum. specialize (Hnum cur ltac:(rewrite !elem_of_app; right; right; left)). pose proof (di_next _ _ _ _ Hdisk). lia. }
  split; try done.
  - intros n q. rewrite <- Hwals. destruct (decide (q = walp dir cur)) as [->|Hne]; [rewrite !is_wal_walp by done; tauto|by apply is_wal_local, Hoth].
  - eapply frozen_same; [|exact Hfr]. intros n Hn. apply Hws, elem_of_app. by left.
  - exists (o1 ++ [opss ++ [ops]]). split_and!.
    + apply Forall2_app.
      * apply Forall2_same_length_lookup. apply Forall2_same_length_lookup in Hf2 as [Hlen Hf2]. split; [done|].
        intros i n x Hn Hx. destruct (Hf2 i n x Hn Hx) as [Hrd Hfit]. split; [|done]. unfold fs_read in *. cbn in *. rewrite Hws; [done|].
        apply elem_of_app. right. by eapply list_elem_of_lookup_2.
      * constructor; [|constructor]. rewrite fmap_app. cbn. unfold ops. by rewrite <- group_data_ops.
    + rewrite !concat_app in *. cbn in *. rewrite !concat_app, !app_nil_r in *. cbn. rewrite app_nil_r, app_assoc. by apply Forall_app.
    + rewrite !concat_app in *. cbn in *. rewrite !concat_app, !app_nil_r in *. cbn. rewrite app_nil_r, app_assoc, fmap_app.
      rewrite Hk2, (ho_kv _ _ Hl1). apply Permutation_app_comm.
  - eapply (disk_inv_frame files); [exact Hdisk| |done|done|cbn; pose proof (di_next _ _ _ _ Hdisk); lia].
    intros q [Hq'| ->]; apply Hoth; [intros ->; by apply walp_not_level in Hq'|]. intros E. symmetry in E. by apply walp_not_manifest in E.
  - destruct Hdata as [Dk Dv]. destruct Hl1 as [Lk Lv]. split.
    + rewrite fmap_app, Lk, <- Dk, !fmap_app. solve_Permutation.
    + apply Forall_app in Dv as [_ Dv]. by apply Forall_app.
  - cbn. lia.
Qed.

(** The next log does not exist. *)
Lemma next_log_fresh files db ps l imms tabs frozen old cur :
  life files db ps l imms tabs frozen old cur -> files !! walp dir (v_next_file_number (db_version db)) = None.
Proof.
  intros H. pose proof (di_next _ _ _ _ (li_disk _ _ _ _ _ _ _ _ _ H)) as Hn. apply eq_None_not_Some. intros Hs.
  assert (is_wal files dir (v_next_file_number (db_version db)) (walp dir (v_next_file_number (db_version db)))) as Hw by (apply is_wal_walp; [lia|done]).
  apply (li_wals _ _ _ _ _ _ _ _ _ H) in Hw as [Hin _]. eapply life_numbers in Hin; [|exact H]. lia.
Qed.

(** A full memtable is frozen. *)
Lemma life_freeze files db ps l imms tabs frozen old cur :
  life files db ps l imms tabs frozen old cur -> memtable_size options <= u64 (sl_bytes l) -> v_next_file_number (db_version db) + 1 < 2 ^ 64 ->
  exists files' db', maybeFlush (fs_of files) db = Some (fs_of files', db') /\
    v_next_file_number (db_version db') = v_next_file_number (db_version db) + 1 /\
    life files' db' ps [] (imms ++ [l]) tabs (frozen ++ [old ++ [cur]]) [] (v_next_file_number (db_version db)).
Proof.
  intros H Hsz Hb. destruct (li_options _ _ _ _ _ _ _ _ _ H) as [Eo Ed]. pose proof (li_logs _ _ _ _ _ _ _ _ _ H) as Elg.
  pose proof (di_next _ _ _ _ (li_disk _ _ _ _ _ _ _ _ _ H)) as Hn. set (n := v_next_file_number (db_version db)) in *.
  destruct (maybeFlush_exact files db l imms (mkWAL (walp dir cur) true)) as
    (db' & p & E & Hr' & Eo' & Ed' & Ei & Eq & Elg' & Es & Ec & Ecm & Elv & Emf & En); [apply H|by rewrite Elg| |by rewrite Eo|lia|lia|].
  { rewrite Elg. cbn. unfold walp. by destruct dir. }
  assert (makeWalPath db n = walp dir n) as Ep by (unfold makeWalPath; by rewrite Ed).
  fold n in E, Elg', En. rewrite Ep in E, Elg'. pose proof (next_log_fresh _ _ _ _ _ _ _ _ _ H) as Hfresh. fold n in Hfresh. rewrite Hfresh in E. cbn [from_option id] in E.
  set (f' := <[walp dir n := []]> files) in *. exists f', db'. split; [exact E|]. split; [exact En|].
  assert (forall k, k ∈ concat frozen ++ old ++ [cur] -> 0 <= k < n) as Hnum by (intros k Hk; eapply life_numbers in Hk; [|exact H]; fold n in Hk; lia).
  assert (forall k, k ∈ concat frozen ++ old ++ [cur] -> f' !! walp dir k = files !! walp dir k) as Hsame.
  { intros k Hk. specialize (Hnum k Hk). unfold f'. rewrite lookup_insert_ne; [done|]. intros Ek. apply walp_inj in Ek; lia. }
  assert (concat (frozen ++ [old ++ [cur]]) ++ [] ++ [n] = (concat frozen ++ old ++ [cur]) ++ [n]) as Ens.
  { rewrite concat_app. cbn. by rewrite app_nil_r. }
  destruct H as [_ Hrep Hq Hqw _ Hso Hnm Hwals Hfr Hcu Him Hdisk Hdata Hseq Hcm Htop]. rewrite Elg in Eq. cbn in Eq. split.
  - by rewrite Eo', Ed'.
  - exact Hr'.
  - by rewrite Eq, Ei, fmap_app, Hq.
  - rewrite Eq, fmap_app, Hqw, fmap_app. cbn. by rewrite fmap_app.
  - done.
  - rewrite Ens. apply sorted_by_app. split_and!; [done|by repeat constructor|]. intros x y Hx ->%list_elem_of_singleton. apply Z.compare_lt_iff.
    by apply Hnum.
  - rewrite Ens, En. apply Forall_app. split; [|constructor; [lia|constructor]]. apply Forall_forall. intros k Hk. specialize (Hnum k Hk). lia.
  - intros k q. rewrite Ens, elem_of_app, list_elem_of_singleton. destruct (decide (q = walp dir n)) as [->|Hne].
    + rewrite is_wal_walp by lia. unfold f'. rewrite lookup_insert_eq. split; [intros [-> _]; auto|].
      intros [[Hk| ->] Ek]; [|by split; [|eexists]]. specialize (Hnum k Hk). apply walp_inj in Ek; lia.
    + rewrite is_wal_local by (unfold f'; by rewrite lookup_insert_ne). rewrite Hwals. split; [intros [? ->]; auto|]. intros [[?| ->] ->]; done.
  - apply Forall2_app; [eapply frozen_same; [|exact Hfr]; intros k Hk; apply Hsame, elem_of_app; by left|]. constructor; [|constructor].
    eapply logged_same; [|exact Hcu]. intros k Hk. apply Hsame, elem_of_app. by right.
  - exists [[]]. split_and!; [|constructor|done]. constructor; [|constructor]. split; [|constructor]. unfold fs_read. cbn. unfold f'. by rewrite lookup_insert_eq.
  - apply Forall_app. split; [done|]. constructor; [|constructor]. intros ->. cbn in Hsz. rewrite u64_small in Hsz by lia. lia.
  - rewrite Ec. eapply (disk_inv_frame files); [exact Hdisk| |done|done|lia].
    intros q Hq'. unfold f'. rewrite lookup_insert_ne; [done|]. intros <-. destruct Hq' as [Hq'|Hq']; [by apply walp_not_level in Hq'|by apply walp_not_manifest in Hq'].
  - eapply holds_proper; [reflexivity| |exact Hdata]. rewrite concat_app. cbn. rewrite app_nil_r. solve_Permutation.
  - by rewrite Es.
  - by rewrite Ecm.
  - left. rewrite Ens, En. apply elem_of_app. right. replace (n + 1 - 1) with n by lia. left.
Qed.

(** A group of puts is acknowledged, and the store holds its pairs. *)
Lemma life_write files db ps l imms tabs frozen old cur g :
  life files db ps l imms tabs frozen old cur -> group_ok g -> Forall (fun op => op_type op = bPut) (group_ops g) ->
  pairs_ok (ps ++ (op_kv <$> group_ops g)) -> v_next_file_number (db_version db) + 1 < 2 ^ 64 ->
  exists files' db' l' imms' frozen' old' cur', doWriteGroup (fs_of files) db g = Some (fs_of files', db', SOk) /\
    v_next_file_number (db_version db') <= v_next_file_number (db_version db) + 1 /\
    life files' db' (ps ++ (op_kv <$> group_ops g)) l' imms' tabs frozen' old' cur'.
Proof.
  intros H [Hne Hfit] Hput Hps Hb. destruct (li_options _ _ _ _ _ _ _ _ _ H) as [Eo Ed]. set (ops := group_ops g) in *.
  pose proof (li_seq _ _ _ _ _ _ _ _ _ H) as Hseq. pose proof (kvs_weight_length (ps ++ (op_kv <$> ops))) as Hkw. pose proof (po_weight _ Hps) as Hw.
  assert (zlen (ps ++ (op_kv <$> ops)) = zlen ps + zlen ops) as Ez by (rewrite zlen_app; unfold zlen; by rewrite length_fmap).
  pose proof (zlen_nonneg ops). pose proof (zlen_nonneg ps).
  destruct (apply_group_ok g (with_seq db (db_seq db + zlen ops)) l imms (db_seq db)) as (bases & db1 & Eb & E1 & Hr1 & (p & coins & ->));
    [by destruct (li_rep _ _ _ _ _ _ _ _ _ H)|lia|fold ops; lia|].
  assert (exists rs, logs_to (fs_of files) db (walp dir cur) rs) as [rs Hlog].
  { destruct (li_current _ _ _ _ _ _ _ _ _ H) as (opsss & Hf2 & _). apply Forall2_app_inv_l in Hf2 as (o1 & o2 & _ & Hf3 & ->).
    inversion Hf3 as [|? opss ? ? Hcur _]; subst. eexists. split; [by rewrite (li_logs _ _ _ _ _ _ _ _ _ H)|exact Hcur]. }
  destruct (log_group_exact files db g (walp dir cur) rs Hlog Hfit) as (f1 & El & Hcl & Hoth).
  assert (life f1 (with_mems (with_seq db (db_seq db + zlen ops)) (mkMems p (ms_immutable (db_mems db)) (ms_queue (db_mems db)) (ms_next (db_mems db)) coins))
            (ps ++ (op_kv <$> ops)) (mt_inserts (op_writes (db_seq db) ops) l) imms tabs frozen old cur) as Hmid.
  { apply (life_append files db ps l imms tabs frozen old cur g f1 p coins H Hput Hps Hr1); [|done].
    intros rs' Hcl'. assert (rs' = rs) as ->; [|exact Hcl].
    transitivity (wal_replay (fs_of files) (mkWAL (walp dir cur) true)); [symmetry|]; apply wal_replay_holds, wal_clean_holds; [done|apply Hlog]. }
  unfold doWriteGroup. rewrite bool_decide_eq_false_2 by done. fold ops in Eb. rewrite Eb.
  change (log_group (fs_of files) (with_seq db _) g) with (log_group (fs_of files) db g). rewrite El. simpl (negb (ok SOk)). cbn iota.
  rewrite E1. cbn [mbind option_bind]. fold ops in Hr1. set (db1 := with_mems _ _) in *. set (l1 := mt_inserts _ l) in *.
  destruct (Z.le_gt_cases (memtable_size options) (u64 (sl_bytes l1))) as [Hle|Hgt].
  - destruct (life_freeze _ _ _ _ _ _ _ _ _ Hmid Hle Hb) as (f2 & db2 & -> & En & H2). cbn [mbind option_bind].
    do 7 eexists. split; [done|]. split; [|exact H2]. rewrite En. done.
  - assert (maybeFlush (fs_of f1) db1 = Some (fs_of f1, db1)) as ->.
    { destruct (li_rep _ _ _ _ _ _ _ _ _ Hmid) as [(id & m & Hm & Hl & Hmx) _]. unfold maybeFlush. rewrite Hm. cbn [mbind option_bind snd].
      unfold mt_shouldFlush. rewrite Hmx, (mt_usage_rep _ _ Hl). change (db_options db1) with (db_options db). rewrite Eo.
      by replace (memtable_size options <=? u64 (sl_bytes l1)) with false by lia. }
    cbn [mbind option_bind]. do 7 eexists. split; [done|]. split; [|exact Hmid]. cbn. lia.
Qed.

(** A pass of the compaction thread. *)
Lemma life_compact files db ps l imms tabs frozen old cur :
  life files db ps l imms tabs frozen old cur -> pairs_ok ps -> v_next_file_number (db_version db) + (maxl + 1) < 2 ^ 64 ->
  exists files' db' tabs', db_compact_step (fs_of files) db = Some (fs_of files', db') /\
    v_next_file_number (db_version db') <= v_next_file_number (db_version db) + (maxl + 1) /\ life files' db' ps l imms tabs' frozen old cur.
Proof.
  intros H Hps Hb. destruct (li_compaction _ _ _ _ _ _ _ _ _ H) as (cm & Ecm & Hcd & Hcm).
  assert (once (concat (concat tabs))) as Ho.
  { eapply once_submseteq; [|by eapply life_once]. rewrite app_assoc. apply submseteq_inserts_l. done. }
  destruct (compaction_tick_moved cm files (db_version db) (db_cache db) tabs) as (cm' & f' & v' & c' & t' & E & Hcd' & Hcm' & [Hd Hdat Hn Ht Hfr]); [apply H|done..|].
  unfold db_compact_step. rewrite Ecm, E. cbn [mbind option_bind cs_fs cs_version cs_cache].
  exists f', (with_compaction (with_cache (with_version db v') c') (Some cm')), t'. split; [done|]. split; [cbn; lia|].
  assert (forall n, f' !! walp dir n = files !! walp dir n) as Hws by (intros n; apply Hfr; [apply walp_not_level|apply walp_not_manifest]).
  destruct H as [Hop [] Hq Hqw Hlg Hso Hnum Hwals Hfz Hcu Him _ Hdata Hseq _ Htop]. split; cbn; try done.
  - eapply Forall_impl; [exact Hnum|]. cbn. lia.
  - intros n p. rewrite <- Hwals. apply is_wal_same. intros x. destruct (wal_apart dir x) as (_ & A2 & _). apply Hfr; [|done].
    intros Hlp. apply (level_path_not_wal dir _ (dir ++ bs "/wal" ++ x ++ bs ".log") Hlp); [by exists (x ++ bs ".log")|done].
  - eapply frozen_same; [|exact Hfz]. done.
  - eapply logged_same; [|exact Hcu]. done.
  - by rewrite Hdat.
  - by exists cm'.
  - destruct Ht as [->|?]; [exact Htop|by right].
Qed.

Lemma life_trigger files db ps l imms tabs frozen old cur :
  life files db ps l imms tabs frozen old cur -> life files (db_compact db) ps l imms tabs frozen old cur.
Proof.
  intros [Hop [] Hq Hqw Hlg Hso Hnum Hwals Hfz Hcu Him Hd Hdata Hseq (cm & Ecm & ? & ?) Htop]. split; try done.
  exists (cm_triggerCompaction cm). cbn. by rewrite Ecm.
Qed.

(** ** Reopening *)

Lemma logged_app files n1 n2 l1 l2 : logged files n1 l1 -> logged files n2 l2 -> logged files (n1 ++ n2) (l1 ++ l2).
Proof.
  intros (o1 & H1 & P1 & K1) (o2 & H2 & P2 & K2). exists (o1 ++ o2). split; [by apply Forall2_app|]. rewrite !concat_app.
  split; [by apply Forall_app|]. by rewrite !fmap_app, K1, K2.
Qed.

Lemma logged_frozen files frozen imms : Forall2 (logged files) frozen imms -> logged files (concat frozen) (concat imms).
Proof. induction 1; cbn; [exists []; split; [constructor|by split]|by apply logged_app]. Qed.

Lemma raise_bounds (wals : list (Z * bytes)) base :
  base <= foldl (fun a w => raise_next a (u64 (w.1 + 1))) base wals /\
  (forall w, w ∈ wals -> u64 (w.1 + 1) <= foldl (fun a w => raise_next a (u64 (w.1 + 1))) base wals) /\
  (forall B, base <= B -> (forall w, w ∈ wals -> u64 (w.1 + 1) <= B) -> foldl (fun a w => raise_next a (u64 (w.1 + 1))) base wals <= B).
Proof.
  revert base. induction wals as [|w wals IH]; intros base; cbn.
  - split_and!; [lia|by intros w ?%not_elem_of_nil|done].
  - set (b1 := raise_next base (u64 (w.1 + 1))). destruct (IH b1) as (I1 & I2 & I3).
    assert (base <= b1 /\ u64 (w.1 + 1) <= b1 /\ (b1 = base \/ b1 = u64 (w.1 + 1))) as (B1 & B2 & B3).
    { unfold b1, raise_next. destruct (Z.gtb_spec (u64 (w.1 + 1)) base); split_and!; auto; lia. }
    split_and!; [lia| |].
    + intros x [->|Hx]%elem_of_cons; [lia|by apply I2].
    + intros B HB Hw. apply I3; [|intros x Hx; apply Hw; by right]. specialize (Hw w ltac:(left)). destruct B3 as [->| ->]; done.
Qed.

Lemma max_number_upper lv B : 0 <= B -> (forall f, f ∈ concat lv -> sm_file_number f <= B) -> 0 <= max_number lv <= B.
Proof.
  unfold max_number. intros HB. induction (concat lv) as [|g l IH] using rev_ind; intros Hf; [done|].
  rewrite foldl_app. cbn. specialize (IH ltac:(intros f Hx; apply Hf, elem_of_app; by left)).
  specialize (Hf g ltac:(apply elem_of_app; right; left)).
  destruct (Z.gtb_spec (sm_file_number g) (foldl (fun a m => if sm_file_number m >? a then sm_file_number m else a) 0 l)); lia.
Qed.

Lemma restored_bounds lv B : 0 < B < 2 ^ 64 -> (forall i f, f ∈ lv_at lv i -> 0 <= sm_file_number f < B) ->
  restored_next lv <= B /\ forall i f, f ∈ lv_at lv i -> sm_file_number f + 1 <= restored_next lv.
Proof.
  intros HB Hf. unfold restored_next, v_restoreFrom. cbn [v_next_file_number Version_new].
  set (lv1 := if zlen lv <? 7 then resize_levels 7 lv else lv).
  assert (lv_equiv lv1 lv) as Heq by (unfold lv1, zlen; destruct (Z.ltb_spec (Z.of_nat (length lv)) 7); [apply resize_equiv; lia|done]).
  destruct (max_number_upper lv1 (B - 1)) as [M1 M2]; [lia| |].
  { intros f [i Hi]%elem_of_levels. rewrite Heq in Hi. specialize (Hf i f Hi). lia. }
  assert (forall i f, f ∈ lv_at lv i -> sm_file_number f <= max_number lv1) as M3.
  { intros i f Hi. apply max_number_spec, elem_of_levels. exists i. by rewrite Heq. }
  destruct (Z.geb_spec (max_number lv1) 1) as [Hge|Hlt].
  - rewrite u64_small by lia. split; [lia|]. intros i f Hi. specialize (M3 i f Hi). lia.
  - split; [lia|]. intros i f Hi. specialize (M3 i f Hi). lia.
Qed.

Context (Hopt_cache : 0 <= lru_cache_capacity options < 2 ^ 63).

(** The directory of a store can be opened again: its logs hold what its memtables hold. *)
Lemma life_recoverable files db ps l imms tabs frozen old cur :
  life files db ps l imms tabs frozen old cur -> pairs_ok ps ->
  let ns := concat frozen ++ old ++ [cur] in
  exists opsss, recoverable dir files (v_levels (db_version db)) ((fun n => (n, walp dir n)) <$> ns) opsss /\
    Forall2 (fun n opss => wal_clean (fs_of files) (walp dir n) (encode_batch <$> opss)) ns opsss /\
    Forall (fun op => op_type op = bPut) (concat (concat opsss)) /\ op_kv <$> concat (concat opsss) ≡ₚ kv <$> (concat imms ++ l).
Proof.
  intros H Hps ns. destruct (logged_app _ _ _ _ _ (logged_frozen _ _ _ (li_frozen _ _ _ _ _ _ _ _ _ H)) (li_current _ _ _ _ _ _ _ _ _ H)) as (opsss & Hf & Hp & Hk).
  exists opsss. split; [|done]. destruct (di_durable _ _ _ _ (li_disk _ _ _ _ _ _ _ _ _ H)) as (m & es & Hv & Hm).
  assert (((fun n => (n, walp dir n)) <$> ns).*1 = ns) as Efst by (rewrite <- list_fmap_compose; apply list_fmap_id).
  split.
  - left. left. exists (mf_log es). rewrite <- Hm. split; [apply Hv|]. exists es. split; [|by rewrite (vd_disk _ _ _ _ Hv)].
    exists []. rewrite app_nil_r. split; [done|]. split; [apply mf_torn_nil|apply Hv].
  - intros n p. rewrite (li_wals _ _ _ _ _ _ _ _ _ H). rewrite list_elem_of_fmap. split; [by intros (k & [= -> ->] & Hk')|].
    intros [Hn ->]. by exists n.
  - rewrite Efst. apply H.
  - apply Forall2_fmap_l. eapply Forall2_impl; [exact Hf|]. intros n opss Hc. by apply wal_clean_holds.
  - assert (zlen (concat (concat opsss)) = zlen (kv <$> (concat imms ++ l))) as ->.
    { unfold zlen. rewrite <- Hk. by rewrite length_fmap. }
    pose proof (kvs_weight_length ps) as Hw. pose proof (po_weight _ Hps). pose proof (li_data _ _ _ _ _ _ _ _ _ H) as [Hkv _].
    assert (zlen (kv <$> (concat imms ++ l)) <= zlen ps) as Hz; [|lia]. unfold zlen. rewrite <- Hkv. rewrite !length_fmap, !length_app. lia.
Qed.

(** The allocator is where it was. *)
Lemma reopened_next files db ps l imms tabs frozen old cur lv' :
  life files db ps l imms tabs frozen old cur -> lv_equiv lv' (v_levels (db_version db)) ->
  foldl (fun a w => raise_next a (u64 (w.1 + 1))) (restored_next lv') ((fun n => (n, walp dir n)) <$> (concat frozen ++ old ++ [cur])) =
  v_next_file_number (db_version db).
Proof.
  intros H Heq. set (ns := concat frozen ++ old ++ [cur]). set (w := (fun n => (n, walp dir n)) <$> ns).
  pose proof (di_next _ _ _ _ (li_disk _ _ _ _ _ _ _ _ _ H)) as Hn. set (nx := v_next_file_number (db_version db)) in *.
  destruct (restored_bounds lv' nx) as [R1 R2]; [lia| |].
  { intros i f Hf. rewrite Heq in Hf. by apply (di_metas _ _ _ _ (li_disk _ _ _ _ _ _ _ _ _ H)) in Hf as (_ & _ & ?). }
  destruct (raise_bounds w (restored_next lv')) as (B1 & B2 & B3).
  assert (forall n, n ∈ ns -> 0 <= n < nx) as Hns by (intros n Hin; eapply life_numbers in Hin; [|exact H]; apply Hin).
  apply Z.le_antisymm.
  - apply B3; [done|]. intros x (n & -> & Hin)%list_elem_of_fmap. specialize (Hns n Hin). cbn. rewrite u64_small by lia. lia.
  - destruct (li_top _ _ _ _ _ _ _ _ _ H) as [Hin|(k & f & Hf & Ef)].
    + fold ns nx in Hin. specialize (B2 (nx - 1, walp dir (nx - 1)) ltac:(by apply (list_elem_of_fmap_2 (fun n => (n, walp dir n))))). cbn [fst] in B2.
      replace (u64 (nx - 1 + 1)) with nx in B2 by (rewrite u64_small; lia). exact B2.
    + rewrite <- Heq in Hf. specialize (R2 k f Hf). fold nx in Ef. lia.
Qed.

Lemma reopened_disk files db ps l imms tabs frozen old cur f' v' coins m' es' :
  life files db ps l imms tabs frozen old cur -> v_durable f' v' m' es' -> mf_path m' = dir ++ bs "/MANIFEST" ->
  lv_equiv (v_levels v') (v_levels (db_version db)) -> v_next_file_number v' = v_next_file_number (db_version db) ->
  (forall q, kept dir (v_levels (db_version db)) q -> f' !! q = files !! q) ->
  (forall q, ~ touched dir q -> f' !! q = files !! q \/ f' !! q = None) ->
  disk_inv f' v' (db_cache (DBImpl_new options coins)) tabs.
Proof.
  intros H Hv Hm Hlv Hn Hk Ho. destruct (li_disk _ _ _ _ _ _ _ _ _ H) as [_ Hnx Hme Hlen Ht Hne Hfr _]. split; try done.
  - by exists m', es'.
  - by rewrite Hn.
  - intros k f Hf. rewrite Hlv in Hf. rewrite Hn. by apply Hme.
  - intros i ts Hts. specialize (Ht i ts Hts). rewrite v_getLevelFiles_at in Ht |- * by lia. rewrite Hlv. eapply tables_same; [|exact Ht].
    intros p Hp. apply list_elem_of_fmap in Hp as (f & -> & Hf). destruct (Hme _ _ Hf) as (_ & Ep & _).
    assert (level_path dir (sm_path f)) as Hlp by (rewrite Ep; apply sst_path_level_path). split; apply Hk.
    + split; [by apply level_path_kept|]. left. by exists (Z.to_nat (Z.of_nat i)), f.
    + split; [by apply level_path_kept, level_path_bloom|]. right. intros q. apply bloom_not_sst.
  - intros k n Hkn. rewrite Hn in Hkn. destruct (Hfr k n Hkn) as [F1 F2]. pose proof (sst_path_level_path dir k n) as Hlp.
    split; [destruct (Ho (sst_path dir k n)) as [->| ->]|destruct (Ho (sst_path dir k n ++ bs ".bloom")) as [->| ->]]; try done;
      apply level_path_kept; auto using level_path_bloom.
  - by apply cache_valid_new.
Qed.

Lemma life_reopen files db ps l imms tabs frozen old cur coins :
  life files db ps l imms tabs frozen old cur -> pairs_ok ps ->
  exists files' db' l', db_open (fs_of files) options coins = Some (fs_of files', db', SOk) /\
    v_next_file_number (db_version db') = v_next_file_number (db_version db) /\
    life files' db' ps l' [] tabs [] (concat frozen ++ old) cur.
Proof.
  intros H Hps. set (ns := concat frozen ++ old ++ [cur]). assert (ns = (concat frozen ++ old) ++ [cur]) as Ens by (unfold ns; by rewrite app_assoc).
  destruct (life_recoverable _ _ _ _ _ _ _ _ _ H Hps) as (opsss & Hrc & Hcl & Hput & Hkv). fold ns in Hrc, Hcl.
  destruct (db_open_ok files options coins (v_levels (db_version db)) ((fun n => (n, walp dir n)) <$> ns) opsss) as
    (f' & db' & m' & es' & E & Eo & Eca & Eseq & Hr & Hv & Hm & Hlv & Hk & lv' & Heq & [Ed Eq Ecm _ Hoth Hlogs]); [by rewrite Hopt_dir|].
  rewrite Hopt_dir in *. set (ops := concat (concat opsss)) in *. set (l' := mt_inserts (op_writes (-1) ops) []) in *.
  pose proof (reopened_next _ _ _ _ _ _ _ _ _ lv' H Heq) as Hnext. fold ns in Hnext.
  assert (last ((fun n => (n, walp dir n)) <$> ns) = Some (cur, walp dir cur)) as Elast by (rewrite Ens, fmap_app; apply last_snoc).
  rewrite Elast in Hlogs. destruct Hlogs as (Elg & Enx & Hws). rewrite Hnext in Enx.
  assert (snd <$> take (length ((fun n => (n, walp dir n)) <$> ns) - 1) ((fun n => (n, walp dir n)) <$> ns) = walp dir <$> (concat frozen ++ old)) as Eold.
  { rewrite length_fmap, Ens, fmap_app, length_app. cbn. rewrite Nat.add_sub. rewrite take_app_le by by rewrite length_fmap.
    rewrite take_ge by by rewrite length_fmap. by rewrite <- list_fmap_compose. }
  rewrite Eold in Elg. pose proof (zlen_nonneg ops).
  assert (zlen ops <= zlen ps) as Hz.
  { unfold zlen. destruct (li_data _ _ _ _ _ _ _ _ _ H) as [Hd _]. rewrite <- Hd, length_fmap.
    rewrite <- (length_fmap op_kv ops), Hkv, length_fmap, !length_app. lia. }
  pose proof (kvs_weight_length ps). pose proof (po_weight _ Hps).
  assert (holds (op_kv <$> ops) l') as Hl'.
  { rewrite <- (app_nil_r (op_kv <$> ops)). apply (mt_inserts_fresh ops (-1) []); [done|constructor| |lia|lia|constructor].
    rewrite app_nil_r. rewrite Hkv. destruct (li_data _ _ _ _ _ _ _ _ _ H) as [Hd _]. pose proof (po_keys _ Hps) as Hnd. rewrite <- Hd in Hnd.
    rewrite (app_assoc l), (Permutation_app_comm l), fmap_app, fmap_app in Hnd. by apply NoDup_app in Hnd as (? & _). }
  assert (forall n, f' !! walp dir n = files !! walp dir n) as Hw by (intros n; apply (Hws (bs "-" ++ to_string n))).
  exists f', db', l'. split; [done|]. split; [done|]. pose proof Hr as [_ Hi]. inversion Hi as [Hi'|]. split.
  - done.
  - done.
  - by rewrite Eq, <- Hi'.
  - by rewrite Eq.
  - done.
  - cbn. rewrite <- app_assoc. apply H.
  - cbn. rewrite <- app_assoc, Enx. apply H.
  - intros n p. cbn. rewrite <- app_assoc, <- (li_wals _ _ _ _ _ _ _ _ _ H). by apply is_wal_same.
  - constructor.
  - exists opsss. rewrite <- app_assoc. fold ns. split; [|split; [done|by rewrite (ho_kv _ _ Hl')]]. eapply Forall2_impl; [exact Hcl|].
    intros n opss [Hrd Hfit]. split; [|done]. unfold fs_read in *. cbn in *. by rewrite Hw.
  - constructor.
  - rewrite Eca. by eapply (reopened_disk files db).
  - destruct (li_data _ _ _ _ _ _ _ _ _ H) as [Dk Dv]. destruct Hl' as [Lk Lv]. cbn. split.
    + rewrite fmap_app, Lk, Hkv, <- Dk, !fmap_app. solve_Permutation.
    + apply Forall_app. split; [done|]. apply Forall_app in Dv as [_ Dv]. by apply Forall_app in Dv as [_ Dv].
  - rewrite Eseq. lia.
  - by rewrite <- Hopt_max.
  - cbn. rewrite <- app_assoc, Enx. destruct (li_top _ _ _ _ _ _ _ _ _ H) as [?|(k & f & Hf & Ef)]; [by left|right]. exists k, f. by rewrite Hlv.
Qed.

(** ** Any life of the store *)

Definition alive (files : gmap bytes bytes) (db : DB) (ps : list (bytes * bytes)) : Prop :=
  exists l imms tabs frozen old cur, life files db ps l imms tabs frozen old cur.

Lemma lv_at_none i : lv_at no_files i = [].
Proof. unfold lv_at, no_files. destruct (replicate 8 [] !! i) eqn:E; [|done]. by apply lookup_replicate in E as [-> _]. Qed.

(** A new store is empty. *)
Lemma life_new coins :
  exists files db, db_open (fs_of ∅) options coins = Some (fs_of files, db, SOk) /\ v_next_file_number (db_version db) <= 2 /\ alive files db [].
Proof.
  destruct (db_open_ok ∅ options coins no_files [] [] (recoverable_empty _)) as
    (f' & db & m & es & E & Eo & Eca & Eseq & Hr & Hv & Hm & Hlv & _ & lv' & Heq & [Ed Eq Ecm Hbase Hoth (Elg & Enx & Hfile & Hwal)]).
  rewrite Hopt_dir in *. set (n := restored_next lv') in *.
  assert (n <= 1) as Hn1.
  { apply (restored_bounds lv' 1); [lia|]. intros i f Hf. rewrite Heq, lv_at_none in Hf. by apply not_elem_of_nil in Hf. }
  clearbody n. rewrite u64_small in Enx by lia. exists f', db. split; [done|]. split; [lia|]. change (mt_inserts (op_writes (-1) (concat (concat []))) []) with (@nil entry) in Hr.
  exists [], [], (replicate nlevels []), [], [], n. pose proof Hr as [_ Hi]. inversion Hi as [Hi'|]. split; cbn; try done.
  - by rewrite Eq, <- Hi'.
  - by rewrite Eq.
  - by repeat constructor.
  - constructor; [|constructor]. lia.
  - intros k p. rewrite list_elem_of_singleton, Hwal. split; by intros [-> ->].
  - exists [[]]. split_and!; [|constructor|done]. constructor; [|constructor]. split; [exact Hfile|constructor].
  - split.
    + by exists m, es.
    + lia.
    + intros k f Hf. rewrite Hlv, lv_at_none in Hf. by apply not_elem_of_nil in Hf.
    + by rewrite length_replicate.
    + intros i ts [-> _]%lookup_replicate. rewrite v_getLevelFiles_at, Hlv, lv_at_none by lia. constructor.
    + apply Forall_replicate. constructor.
    + intros k x _. pose proof (sst_path_level_path dir k x) as Hlp.
      split; [destruct (Hoth (sst_path dir k x)) as [->| ->]|destruct (Hoth (sst_path dir k x ++ bs ".bloom")) as [->| ->]];
        try done; apply level_path_kept; auto using level_path_bloom.
    + rewrite Eca. by apply cache_valid_new.
  - assert (concat (concat (replicate nlevels (@nil (list entry)))) = []) as ->; [|split; [done|constructor]].
    clear. induction nlevels as [|k IH]; [done|exact IH].
  - rewrite Eseq. cbn. done.
  - by rewrite <- Hopt_max.
  - left. rewrite Enx. replace (n + 1 - 1) with n by lia. left.
Qed.
End Codec.

Inductive action :=
| AWrite (group : list GroupEntry)     (* the leader of a group of writers *)
| AGet (key : bytes)
| AFlush                               (* a round of the flush thread *)
| ATrigger                             (* a request to compact *)
| ACompact                             (* a pass of the compaction thread *)
| AReopen (coins : list (list bool)).  (* the process dies between two steps and is started again *)

Definition life_step `{Codecs} (options : Options) (st : FS * DB) (a : action) : option (FS * DB) :=
  let '(fs, db) := st in
  match a with
  | AWrite group => '(fs, db, s) ← doWriteGroup fs db group; if ok s then Some (fs, db) else None
  | AGet key => '(db, _, _) ← db_get fs db key; Some (fs, db)
  | AFlush => flush_step fs db
  | ATrigger => Some (fs, db_compact db)
  | ACompact => db_compact_step fs db
  | AReopen coins => '(fs, db, s) ← db_open fs options coins; if ok s then Some (fs, db) else None
  end.

Definition life_run `{Codecs} (options : Options) (st : FS * DB) (acts : list action) : option (FS * DB) :=
  foldl (fun st a => st ← st; life_step options st a) (Some st) acts.

Definition action_puts (a : action) : list (bytes * bytes) := match a with AWrite g => op_kv <$> group_ops g | _ => [] end.
Definition acts_puts (acts : list action) : list (bytes * bytes) := concat (action_puts <$> acts).

(** Groups are not empty, fit a log record and put only. *)
Definition action_ok (a : action) : Prop :=
  match a with AWrite g => group_ok g /\ Forall (fun op => op_type op = bPut) (group_ops g) | _ => True end.

Section Life.
Context `{HC : Codecs} `{HL : !CodecLaws} (options : Options).
Context (Hdir : zlen (dir_of options) <= 2 ^ 23) (Hmax : 0 <= max_level options < 2 ^ 31).
Context (Hmem : 0 < memtable_size options) (Hcache : 0 <= lru_cache_capacity options < 2 ^ 63).

Local Abbreviation alive := (alive (dir_of options) (max_level options) options).

Lemma pairs_ok_app_l ps qs : pairs_ok (ps ++ qs) -> pairs_ok ps.
Proof.
  intros [H1 H2 H3]. rewrite fmap_app in H1, H2. rewrite kvs_weight_app in H3. pose proof (kvs_weight_length qs). pose proof (zlen_nonneg qs). split.
  - by apply NoDup_app in H1 as (? & _).
  - intros Hin. apply H2, elem_of_app. by left.
  - lia.
Qed.

Lemma life_step_ok files db ps a :
  alive files db ps -> action_ok a -> pairs_ok (ps ++ action_puts a) -> v_next_file_number (db_version db) + (max_level options + 1) < 2 ^ 64 ->
  exists files' db', life_step options (fs_of files, db) a = Some (fs_of files', db') /\ alive files' db' (ps ++ action_puts a) /\
    v_next_file_number (db_version db') <= v_next_file_number (db_version db) + (max_level options + 1).
Proof.
  intros (l & imms & tabs & frozen & old & cur & H) Ha Hps Hb. pose proof (pairs_ok_app_l _ _ Hps) as Hps0.
  destruct a as [g|k| | | |coins]; cbn [life_step action_puts] in *; rewrite ?app_nil_r.
  - destruct Ha as [Hg Hput]. destruct (life_write _ _ Hdir Hmax options eq_refl Hmem _ _ _ _ _ _ _ _ _ g H Hg Hput Hps ltac:(lia))
      as (f' & db' & l' & i' & z' & o' & c' & -> & Hn & H'). cbn [mbind option_bind]. simpl (ok SOk). cbn iota. exists f', db'. split; [done|]. split; [|lia]. by do 6 eexists.
  - destruct (life_get _ _ options eq_refl _ _ _ _ _ _ _ _ _ k H Hps0) as (db' & -> & Ev & H'). cbn [mbind option_bind].
    exists files, db'. split; [done|]. split; [by do 6 eexists|]. rewrite Ev. lia.
  - destruct (life_flush _ _ Hdir Hmax options eq_refl eq_refl Hmem _ _ _ _ _ _ _ _ _ H Hps0 ltac:(lia)) as (f' & db' & i' & t' & z' & -> & Hn & H').
    exists f', db'. split; [done|]. split; [by do 6 eexists|lia].
  - exists files, (db_compact db). split; [done|]. split; [|cbn; lia]. do 6 eexists. by apply life_trigger.
  - destruct (life_compact _ _ Hdir Hmax options _ _ _ _ _ _ _ _ _ H Hps0 Hb) as (f' & db' & t' & -> & Hn & H').
    exists f', db'. split; [done|]. split; [by do 6 eexists|lia].
  - destruct (life_reopen _ _ options eq_refl eq_refl Hcache _ _ _ _ _ _ _ _ _ coins H Hps0) as (f' & db' & l' & -> & Hn & H').
    cbn [mbind option_bind]. simpl (ok SOk). cbn iota. exists f', db'. split; [done|]. split; [by do 6 eexists|lia].
Qed.

Lemma life_run_ok acts : forall files db ps,
  alive files db ps -> Forall action_ok acts -> pairs_ok (ps ++ acts_puts acts) ->
  v_next_file_number (db_version db) + zlen acts * (max_level options + 1) < 2 ^ 64 ->
  exists files' db', life_run options (fs_of files, db) acts = Some (fs_of files', db') /\ alive files' db' (ps ++ acts_puts acts).
Proof.
  induction acts as [|a acts IH]; intros files db ps H Ha Hps Hb.
  { exists files, db. unfold acts_puts. cbn. by rewrite app_nil_r. }
  apply Forall_cons in Ha as [Ha Hacts]. rewrite zlen_cons in Hb. pose proof (zlen_nonneg acts).
  change (acts_puts (a :: acts)) with (action_puts a ++ acts_puts acts) in *. rewrite app_assoc in Hps |- *.
  destruct (life_step_ok files db ps a H Ha) as (f1 & db1 & E1 & H1 & Hn1); [by eapply pairs_ok_app_l|nia|].
  destruct (IH f1 db1 _ H1 Hacts Hps) as (f2 & db2 & E2 & H2); [nia|].
  exists f2, db2. split; [|done]. unfold life_run in *. cbn [foldl mbind option_bind]. by rewrite E1.
Qed.

(** C3: the store is a map, whatever its life.  A database is created and then any sequence of
    groups of puts, reads, flushes, compactions and restarts happens on a disk without faults.
    If no key is put twice, every group is acknowledged, every step succeeds, and at the end
    every key reads exactly the value put for it. *)
Theorem db_lifecycle (coins : list (list bool)) (acts : list action) :
  Forall action_ok acts -> pairs_ok (acts_puts acts) -> 2 + zlen acts * (max_level options + 1) < 2 ^ 64 ->
  exists files0 db0 fs db, db_open (fs_of ∅) options coins = Some (fs_of files0, db0, SOk) /\
    life_run options (fs_of files0, db0) acts = Some (fs, db) /\
    forall uk, exists db',
      let answer := (list_to_map (acts_puts acts) : gmap bytes bytes) !! uk in
      db_get fs db uk = Some (db', match answer with Some _ => SOk | None => SNotFound [] end, answer).
Proof.
  intros Ha Hps Hb. destruct (life_new _ _ options eq_refl eq_refl Hcache coins) as (f0 & db0 & E0 & Hn & H0).
  destruct (life_run_ok acts f0 db0 [] H0 Ha Hps) as (f & db & E & (l & imms & tabs & frozen & old & cur & H)); [lia|].
  exists f0, db0, (fs_of f), db. split; [done|]. split; [done|]. intros uk.
  destruct (life_get _ _ options eq_refl _ _ _ _ _ _ _ _ _ uk H Hps) as (db' & Hg & _). by exists db'.
Qed.
End Life.

(** ** Witness: flushes, a compaction and two restarts *)

Definition life_options : Options := mkOptions 100 4096 16 3 2 true (bs "d") 0.

Definition life_put (k v : string) : GroupEntry := mkGE [mkOp bPut (bs k) (bs v)] true.

Definition life_acts : list action :=
  [AWrite [life_put "a" "1"; life_put "b" "2"]; AWrite [life_put "c" "3"]; AFlush; AReopen [];
   AWrite [life_put "d" "4"; life_put "e" "5"]; AGet (bs "a"); AWrite [life_put "f" "6"]; AFlush; AFlush; ATrigger; ACompact;
   AReopen []; AGet (bs "d")].

Lemma db_lifecycle_witness :
  exists files0 db0 fs db db1 db2, db_open (fs_of ∅) life_options [] = Some (fs_of files0, db0, SOk) /\
    @life_run marker_codecs life_options (fs_of files0, db0) life_acts = Some (fs, db) /\
    @db_get marker_codecs fs db (bs "b") = Some (db1, SOk, Some (bs "2")) /\
    @db_get marker_codecs fs db (bs "g") = Some (db2, SNotFound [], None).
Proof.
  destruct (@db_lifecycle marker_codecs marker_laws life_options) with (coins := @nil (list bool)) (acts := life_acts)
    as (f0 & db0 & fs & db & H0 & H1 & H2); [by vm_compute|by vm_compute|by vm_compute|by vm_compute| | |by vm_compute|].
  - repeat constructor; done.
  - split; [..|by vm_compute]; apply (bool_decide_unpack _); by vm_compute.
  - destruct (H2 (bs "b")) as [db1 Hb]. destruct (H2 (bs "g")) as [db2 Hg].
    exists f0, db0, fs, db, db1, db2. split; [exact H0|]. split; [exact H1|]. split; [exact Hb|exact Hg].
Defined.
