(* ===== verification/GroupCommit.v ===== *)
(** * How concurrent writers form a group

    [DBImpl::write] of [db_impl.cpp] as a state machine: each step is one critical section
    under [write_mutex_].  A writer that finds no active leader becomes one and waits (its
    wait may end at any moment: by timeout, or when the group is full); a writer that finds
    one joins its group.  When the leader resumes it takes the whole queue, runs
    [doWriteGroup] and sets every member's status, all in one critical section.  Threads are
    numbers; [gc_statuses] holds [entry->status] of the entries whose [done] is set. *)

From Stdlib Require Import ZArith Lia.
From stdpp Require Import base numbers strings list gmap.
From S2P Require Import Prelude CppString Coding Slice InternalKey SkipHeap SkipList Versions MemTable FileSystem.
From S2P Require Import Wal Manifest DBImpl DBProofs.
Local Open Scope Z_scope.

Record GState := mkG {
  gc_fs : FS;
  gc_db : DB;
  gc_leader_active : bool;
  gc_entries : list (nat * GroupEntry);
  gc_leader : option nat;
  gc_statuses : gmap nat Status;
}.

(** The part of [write] before the wait. *)
Definition gc_write (g : GState) (t : nat) (e : GroupEntry) : GState :=
  if gc_leader_active g
  then mkG (gc_fs g) (gc_db g) true (gc_entries g ++ [(t, e)]) (gc_leader g) (gc_statuses g)
  else mkG (gc_fs g) (gc_db g) true (gc_entries g ++ [(t, e)]) (Some t) (gc_statuses g).

(** [e->status = s; e->done = true] for every entry of the group. *)
Definition mark_done (group : list (nat * GroupEntry)) (s : Status) (m : gmap nat Status) : gmap nat Status :=
  foldl (fun m p => <[p.1 := s]> m) m group.

(** The part of [write] after the leader's wait. *)
Definition gc_commit (g : GState) : option GState :=
  _ ← gc_leader g;
  let group := gc_entries g in
  '(fs, db, s) ← doWriteGroup (gc_fs g) (gc_db g) (snd <$> group);
  Some (mkG fs db false [] None (mark_done group s (gc_statuses g))).

Inductive gevent := GWrite (t : nat) (e : GroupEntry) | GCommit.

(** A writer calls [write] once; a leader commits when it resumes. *)
Inductive gstep : GState -> gevent -> GState -> Prop :=
  | gstep_write g t e :
      t ∉ (gc_entries g).*1 -> gc_statuses g !! t = None -> gstep g (GWrite t e) (gc_write g t e)
  | gstep_commit g g' : gc_commit g = Some g' -> gstep g GCommit g'.

Inductive grun (g0 : GState) : list gevent -> GState -> Prop :=
  | grun_nil : grun g0 [] g0
  | grun_snoc es g e g' : grun g0 es g -> gstep g e g' -> grun g0 (es ++ [e]) g'.

Definition gc_start (fs : FS) (db : DB) : GState := mkG fs db false [] None ∅.

(** The entries submitted along a run, in order. *)
Definition submitted (es : list gevent) : list (nat * GroupEntry) :=
  omap (fun e => match e with GWrite t e => Some (t, e) | GCommit => None end) es.

(** Groups written one after the other, with what [doWriteGroup] returned for each. *)
Fixpoint commit_groups (fs : FS) (db : DB) (groups : list (list GroupEntry)) : option (FS * DB * list Status) :=
  match groups with
  | [] => Some (fs, db, [])
  | group :: groups =>
      '(fs, db, s) ← doWriteGroup fs db group;
      '(fs, db, ss) ← commit_groups fs db groups;
      Some (fs, db, s :: ss)
  end.

(** The entries of a group, without the threads that wait for them. *)
Definition batches (group : list (nat * GroupEntry)) : list GroupEntry := snd <$> group.

Lemma commit_groups_snoc fs db groups group fs1 db1 ss fs2 db2 s :
  commit_groups fs db groups = Some (fs1, db1, ss) -> doWriteGroup fs1 db1 group = Some (fs2, db2, s) ->
  commit_groups fs db (groups ++ [group]) = Some (fs2, db2, ss ++ [s]).
Proof.
  revert fs db ss. induction groups as [|g groups IH]; intros fs db ss; cbn [commit_groups app].
  { intros [= -> -> <-] ->. done. }
  destruct (doWriteGroup fs db g) as [[[fs3 db3] s3]|]; [|done]. cbn [mbind option_bind].
  destruct (commit_groups fs3 db3 groups) as [[[fs4 db4] ss4]|] eqn:E; [|done]. cbn [mbind option_bind].
  intros [= -> -> <-] Hg. by rewrite (IH _ _ _ E Hg).
Qed.

Lemma submitted_app es1 es2 : submitted (es1 ++ es2) = submitted es1 ++ submitted es2.
Proof. apply omap_app. Qed.

Lemma mark_done_lookup group s m t :
  mark_done group s m !! t = if decide (t ∈ group.*1) then Some s else m !! t.
Proof.
  revert m. induction group as [|[u e] group IH]; intros m; [by rewrite decide_False by apply not_elem_of_nil|].
  unfold mark_done in *. cbn [foldl fmap list_fmap fst]. rewrite IH.
  destruct (decide (t ∈ group.*1)) as [Hin|Hout].
  - by rewrite decide_True by by right.
  - destruct (decide (u = t)) as [->|Hne]; [rewrite lookup_insert_eq, decide_True; [done|left]|].
    rewrite lookup_insert_ne, decide_False; [done| |done]. intros [->|?]%elem_of_cons; done.
Qed.

(** The state of the machine along a run: [groups] have been committed, with [ss]. *)
Record g_inv (fs : FS) (db : DB) (es : list gevent) (groups : list (list (nat * GroupEntry))) (ss : list Status) (g : GState) : Prop := {
  gi_places : concat groups ++ gc_entries g = submitted es;
  gi_nonempty : Forall (fun group => group <> []) groups;
  gi_effect : commit_groups fs db (batches <$> groups) = Some (gc_fs g, gc_db g, ss);
  gi_leader : match gc_leader g with
              | Some t => gc_leader_active g = true /\ head (gc_entries g).*1 = Some t
              | None => gc_leader_active g = false /\ gc_entries g = []
              end;
  gi_status i group s t : groups !! i = Some group -> ss !! i = Some s -> t ∈ group.*1 -> gc_statuses g !! t = Some s;
  gi_done t : is_Some (gc_statuses g !! t) <-> t ∈ (concat groups).*1;
  gi_once : NoDup (submitted es).*1;
  gi_lengths : length ss = length groups;
}.

Lemma g_inv_write fs db es groups ss g t x :
  g_inv fs db es groups ss g -> t ∉ (gc_entries g).*1 -> gc_statuses g !! t = None ->
  g_inv fs db (es ++ [GWrite t x]) groups ss (gc_write g t x).
Proof.
  intros [Hp Hn He Hl Hs Hd Ho Hlen] Hq Ht.
  assert (gc_fs (gc_write g t x) = gc_fs g /\ gc_db (gc_write g t x) = gc_db g /\ gc_statuses (gc_write g t x) = gc_statuses g /\
    gc_entries (gc_write g t x) = gc_entries g ++ [(t, x)]) as (E1 & E2 & E3 & E4) by (unfold gc_write; by destruct (gc_leader_active g)).
  split; rewrite ?E1, ?E2, ?E3, ?E4; try done.
  - by rewrite submitted_app, <- Hp, <- app_assoc.
  - unfold gc_write. destruct (gc_leader g) as [u|].
    + destruct Hl as [-> Hh]. cbn [gc_leader gc_leader_active gc_entries]. split; [done|]. rewrite fmap_app.
      by destruct (gc_entries g).*1.
    + by destruct Hl as [-> ->].
  - rewrite submitted_app, fmap_app. apply NoDup_app. split; [done|]. split; [|apply NoDup_singleton].
    intros u Hu ->%list_elem_of_singleton. rewrite <- Hp, fmap_app, elem_of_app, <- Hd in Hu.
    destruct Hu as [[s Hu]|?]; [simpl in Hu; congruence|done].
Qed.

Lemma g_inv_commit fs db es groups ss g g' :
  g_inv fs db es groups ss g -> gc_commit g = Some g' ->
  exists s, g_inv fs db (es ++ [GCommit]) (groups ++ [gc_entries g]) (ss ++ [s]) g'.
Proof.
  intros [Hp Hn He Hl Hs Hd Ho Hlen]. unfold gc_commit. destruct (gc_leader g) as [u|]; [|done]. cbn [mbind option_bind].
  destruct (doWriteGroup _ _ _) as [[[fs' db'] s]|] eqn:Ew; [|done]. cbn [mbind option_bind]. intros [= <-]. exists s.
  assert (submitted (es ++ [GCommit]) = submitted es) as Hsub by (by rewrite submitted_app, app_nil_r).
  assert (concat (groups ++ [gc_entries g]) = submitted es) as Hc by (rewrite concat_app; cbn [concat]; by rewrite app_nil_r).
  assert (forall t, gc_statuses g !! t = None -> t ∉ (concat groups).*1) as Hnone.
  { intros t Ht Hin. apply Hd in Hin as [s' Hs']. congruence. }
  split; cbn [gc_fs gc_db gc_leader gc_leader_active gc_entries gc_statuses]; rewrite ?Hsub; try done.
  - by rewrite Hc, app_nil_r.
  - apply Forall_app. split; [done|]. repeat constructor. destruct Hl as [_ Hh]. intros E. by rewrite E in Hh.
  - rewrite fmap_app. by eapply commit_groups_snoc.
  - intros i group s' t Hi Hsi Ht. rewrite mark_done_lookup. apply lookup_app_Some in Hi as [Hi|[Hlt Hi]].
    + rewrite decide_False; [eapply Hs; [exact Hi| |exact Ht]|].
      * rewrite lookup_app_l in Hsi; [done|]. rewrite Hlen. by eapply lookup_lt_Some.
      * intros Hin. rewrite <- Hp, fmap_app in Ho. apply NoDup_app in Ho as (_ & Hdis & _). apply (Hdis t); [|done].
        apply list_elem_of_fmap in Ht as (x & -> & Hx). apply list_elem_of_fmap_2, list_elem_of_In, in_concat.
        exists group. split; apply list_elem_of_In; [by eapply list_elem_of_lookup_2|done].
    + destruct (i - length groups)%nat as [|k] eqn:Ei; [|done]. injection Hi as <-. rewrite decide_True by done.
      rewrite lookup_app_r, Hlen, Ei in Hsi by lia. by injection Hsi as ->.
  - intros t. rewrite mark_done_lookup, Hc, <- Hp, fmap_app, elem_of_app, <- Hd.
    destruct (decide _) as [Hin|Hout]; [|tauto]. split; [by right|by eexists].
  - rewrite !length_app. cbn. lia.
Qed.

Lemma grun_inv fs db es g : grun (gc_start fs db) es g -> exists groups ss, g_inv fs db es groups ss g.
Proof.
  induction 1 as [|es g e g' _ (groups & ss & IH) Hs].
  - exists [], []. split; try done; [|by constructor]. intros t. simpl. rewrite lookup_empty.
    split; [by intros [? ?]|by intros ?%not_elem_of_nil].
  - destruct Hs as [g t x Hq Ht|g g' E]; [exists groups, ss; by apply g_inv_write|].
    destruct (g_inv_commit _ _ _ _ _ _ _ IH E) as [s Hs]. by eexists _, _.
Qed.

(** C15: group commit handles every write exactly once.  In every reachable state of concurrent
    writers there are groups of writes such that the groups, one after the other, followed by
    the waiting writes are the submitted writes in order of arrival, each once; disk and
    database are exactly what [doWriteGroup] makes of these groups, in this order, from the
    initial ones; a writer has a result exactly when it is in one of the groups, and the
    result is the status [doWriteGroup] returned for its group.  As long as a writer waits
    there is an active leader, the first of the queue, so no writer is left behind. *)
Theorem group_commit_exactly_once (fs : FS) (db : DB) (es : list gevent) (g : GState) :
  grun (gc_start fs db) es g ->
  exists (groups : list (list (nat * GroupEntry))) (ss : list Status),
    concat groups ++ gc_entries g = submitted es /\ NoDup (submitted es).*1 /\ Forall (fun group => group <> []) groups /\
    commit_groups fs db (batches <$> groups) = Some (gc_fs g, gc_db g, ss) /\
    (forall i group s t, groups !! i = Some group -> ss !! i = Some s -> t ∈ group.*1 -> gc_statuses g !! t = Some s) /\
    (forall t, is_Some (gc_statuses g !! t) <-> t ∈ (concat groups).*1) /\
    (gc_entries g <> [] -> exists t, gc_leader g = Some t /\ gc_leader_active g = true /\ head (gc_entries g).*1 = Some t).
Proof.
  intros Hr. destruct (grun_inv fs db es g Hr) as (groups & ss & [Hp Hn He Hl Hs Hd Ho _]). exists groups, ss.
  do 6 (split; [done|]). intros Hne. destruct (gc_leader g) as [t|]; [|by destruct Hl]. exists t. tauto.
Qed.

Definition gc_demo_events : list gevent :=
  [GWrite 1 (mkGE [mkOp bPut (bs "a") (bs "1")] true); GWrite 2 (mkGE [mkOp bPut (bs "b") (bs "2")] false); GCommit;
   GWrite 3 (mkGE [mkOp bDelete (bs "a") []] true)].

Lemma group_commit_exactly_once_witness :
  exists g groups, grun (gc_start (fs_of demo_files) (demo_db [])) gc_demo_events g /\
    concat groups ++ gc_entries g = submitted gc_demo_events /\ gc_leader g = Some 3%nat /\ length (concat groups) = 2%nat.
Proof.
  set (g1 := gc_write (gc_start (fs_of demo_files) (demo_db [])) 1 (mkGE [mkOp bPut (bs "a") (bs "1")] true)).
  set (g2 := gc_write g1 2 (mkGE [mkOp bPut (bs "b") (bs "2")] false)).
  destruct (gc_commit g2) as [g3|] eqn:E; [|vm_compute in E; discriminate E].
  assert (gc_statuses g3 !! 3%nat = None /\ gc_entries g3 = [] /\ gc_leader_active g3 = false) as (S3 & Q3 & A3).
  { vm_compute in E. injection E as <-. split; vm_compute; [reflexivity|]. split; reflexivity. }
  assert (grun (gc_start (fs_of demo_files) (demo_db [])) gc_demo_events (gc_write g3 3 (mkGE [mkOp bDelete (bs "a") []] true))) as Hr.
  { apply (grun_snoc _ [_; _; _] g3); [|constructor; [rewrite Q3; apply not_elem_of_nil|exact S3]].
    apply (grun_snoc _ [_; _] g2); [|by constructor].
    apply (grun_snoc _ [_] g1); [|constructor; [vm_compute; set_solver|reflexivity]].
    apply (grun_snoc _ [] (gc_start (fs_of demo_files) (demo_db []))); [constructor|]. constructor; [vm_compute; set_solver|reflexivity]. }
  destruct (group_commit_exactly_once _ _ _ _ Hr) as (groups & ss & H1 & _).
  exists (gc_write g3 3 (mkGE [mkOp bDelete (bs "a") []] true)), groups. split; [exact Hr|]. split; [exact H1|].
  unfold gc_write in *. rewrite A3, Q3 in *. split; [reflexivity|]. apply (f_equal length) in H1. rewrite length_app in H1.
  change (length (submitted _)) with 3%nat in H1. cbn in H1. lia.
Defined.
