(* ===== verification/Network.v ===== *)
(** * Wire protocol and connections

    [network/protocol.h]: the packed, little-endian request and response headers.
    [network/connection.h/.cpp]: one client connection, a read buffer cut into request
    frames and a write buffer of responses.  The request handler is an argument: a function
    on the state of the whole server, threaded through the calls.  What a system call
    returns is an argument too: the bytes one [read] delivers, and the numbers of bytes the
    [write]s accept.  A connection works in one of two modes: without a thread pool requests
    run inside [onReadable]; with one, [tryDispatch] hands one request at a time to the pool
    and the loop thread takes the response back ([cn_step]). *)

From Stdlib Require Import ZArith Lia.
From stdpp Require Import base numbers strings list.
From S2P Require Import Prelude Coding Slice.
Local Open Scope Z_scope.

(** ** Protocol *)

Definition kProtocolMagic : Z := 0x4D4B.

Inductive Cmd := CmdPut | CmdGet | CmdDel | CmdScan | CmdBatch | CmdDeleteRange.

Definition Cmd_code (c : Cmd) : Z :=
  match c with CmdPut => 1 | CmdGet => 2 | CmdDel => 3 | CmdScan => 4 | CmdBatch => 5 | CmdDeleteRange => 6 end.

Definition Cmd_of (n : Z) : option Cmd :=
  if n =? 1 then Some CmdPut else if n =? 2 then Some CmdGet else if n =? 3 then Some CmdDel
  else if n =? 4 then Some CmdScan else if n =? 5 then Some CmdBatch else if n =? 6 then Some CmdDeleteRange else None.

Inductive ResponseStatus := RsOk | RsNotFound | RsError.

Definition ResponseStatus_code (s : ResponseStatus) : Z := match s with RsOk => 0 | RsNotFound => 1 | RsError => 2 end.

(** [sizeof(RequestHeader)], [sizeof(ResponseHeader)] *)
Definition kRequestHeader : nat := 11.
Definition kResponseHeader : nat := 7.

(** The fields of a packed [RequestHeader] at the start of a buffer of at least 11 bytes. *)
Definition hdr_magic (b : bytes) : Z := le_combine (take 2 b).
Definition hdr_cmd (b : bytes) : Z := le_combine (take 1 (drop 2 b)).
Definition hdr_key_len (b : bytes) : Z := le_combine (take 4 (drop 3 b)).
Definition hdr_val_len (b : bytes) : Z := le_combine (take 4 (drop 7 b)).

Definition encodeRequest (cmd : Cmd) (key value : bytes) : bytes :=
  le_split 2 kProtocolMagic ++ le_split 1 (Cmd_code cmd) ++ le_split 4 (u32 (zlen key)) ++ le_split 4 (u32 (zlen value)) ++
  key ++ value.

Definition encodeResponse (status : ResponseStatus) (value : bytes) : bytes :=
  le_split 2 kProtocolMagic ++ le_split 1 (ResponseStatus_code status) ++ le_split 4 (u32 (zlen value)) ++ value.

(** What a client reads back: status code, value and the rest of the stream. *)
Definition decodeResponse (b : bytes) : option (Z * bytes * bytes) :=
  if decide (length b < kResponseHeader)%nat then None
  else
    let len := Z.to_nat (le_combine (take 4 (drop 3 b))) in
    let body := drop 7 b in
    if decide (length body < len)%nat then None
    else Some (le_combine (take 1 (drop 2 b)), take len body, drop len body).

(** ** Cutting the stream into frames *)

Inductive cut_result := CutMore | CutBad | CutFrame (raw rest : bytes).

(** One round of the framing code of [onReadable] and [tryDispatch]. *)
Definition cut_frame (read_buf : bytes) : cut_result :=
  if decide (length read_buf < kRequestHeader)%nat then CutMore
  else if negb (hdr_magic read_buf =? kProtocolMagic) then CutBad
  else
    let totalSize := u64 (Z.of_nat kRequestHeader + hdr_key_len read_buf + hdr_val_len read_buf) in
    if zlen read_buf <? totalSize then CutMore
    else CutFrame (take (Z.to_nat totalSize) read_buf) (drop (Z.to_nat totalSize) read_buf).

(** ** Connection *)

Section Connection.
Context {St : Type} (handler : St -> bytes -> option (St * bytes)).

Record Connection := mkConn {
  cn_read_buf : bytes;
  cn_write_buf : bytes;
  cn_close : bool;
  cn_in_flight : bool;
  cn_sent : bytes;      (* what the socket has accepted *)
}.

Definition Connection_new : Connection := mkConn [] [] false false [].

Definition cn_set_close (c : Connection) : Connection :=
  mkConn (cn_read_buf c) (cn_write_buf c) true (cn_in_flight c) (cn_sent c).
Definition markClosed : Connection -> Connection := cn_set_close.

Definition append_read (c : Connection) (chunk : bytes) : Connection :=
  mkConn (cn_read_buf c ++ chunk) (cn_write_buf c) (cn_close c) (cn_in_flight c) (cn_sent c).

Definition append_write (c : Connection) (response : bytes) : Connection :=
  mkConn (cn_read_buf c) (cn_write_buf c ++ response) (cn_close c) (cn_in_flight c) (cn_sent c).

(** The write loop: [accepts] are the results of the successive [write]s, at most the number
    of bytes offered; zero stands for an error or [EAGAIN], as does a missing result. *)
Fixpoint onWritable (accepts : list nat) (c : Connection) : Connection :=
  match cn_write_buf c with
  | [] => c
  | _ =>
      match accepts with
      | [] | O :: _ => c
      | n :: accepts =>
          onWritable accepts (mkConn (cn_read_buf c) (drop n (cn_write_buf c)) (cn_close c) (cn_in_flight c)
                                     (cn_sent c ++ take n (cn_write_buf c)))
      end
  end.

(** The loop of [onReadable] that serves every complete frame, one frame per unit of fuel.
    The flag is false when a bad frame made [onReadable] return. *)
Fixpoint serve_loop (fuel : nat) (st : St) (c : Connection) : option (St * Connection * bool) :=
  match fuel with
  | O => None
  | S fuel =>
      match cut_frame (cn_read_buf c) with
      | CutMore => Some (st, c, true)
      | CutBad => Some (st, cn_set_close c, false)
      | CutFrame raw rest =>
          '(st, response) ← handler st raw;
          serve_loop fuel st (mkConn rest (cn_write_buf c ++ response) (cn_close c) (cn_in_flight c) (cn_sent c))
      end
  end.

(** What a [read] returned. *)
Inductive read_result := ReadData (chunk : bytes) | ReadEof | ReadAgain | ReadError.

(** [onReadable] without a pool. *)
Definition onReadable (r : read_result) (accepts : list nat) (st : St) (c : Connection) : option (St * Connection) :=
  match r with
  | ReadAgain => Some (st, c)
  | ReadError | ReadEof => Some (st, cn_set_close c)
  | ReadData chunk =>
      let c := append_read c chunk in
      '(st, c, go) ← serve_loop (S (length (cn_read_buf c))) st c;
      Some (st, if (go : bool) then onWritable accepts c else c)
  end.

(** The callback [registerConnection] installs for a connection without a pool; [hup] is
    whether the event has [EPOLLERR] or [EPOLLHUP] set.  The flag tells whether the
    descriptor stays registered. *)
Definition conn_event (r : read_result) (hup : bool) (accepts : list nat) (st : St) (c : Connection)
  : option (St * Connection * bool) :=
  '(st, c) ← onReadable r accepts st c;
  if cn_close c || hup then Some (st, markClosed c, false) else Some (st, c, true).

(** The request taken from the buffer, if any, for the pool. *)
Definition tryDispatch (c : Connection) : Connection * option bytes :=
  if cn_close c || cn_in_flight c then (c, None)
  else
    match cut_frame (cn_read_buf c) with
    | CutMore => (c, None)
    | CutBad => (cn_set_close c, None)
    | CutFrame raw rest => (mkConn rest (cn_write_buf c) (cn_close c) true (cn_sent c), Some raw)
    end.

(** [onReadable] with a pool. *)
Definition onReadable_pool (r : read_result) (c : Connection) : Connection * option bytes :=
  match r with
  | ReadAgain => (c, None)
  | ReadError | ReadEof => (cn_set_close c, None)
  | ReadData chunk => tryDispatch (append_read c chunk)
  end.

(** The task a worker runs: the handler is skipped once the connection is closed. *)
Definition pool_task (st : St) (close : bool) (raw : bytes) : option (St * bytes) :=
  if close then Some (st, []) else handler st raw.

(** The functor the task queues in the loop of the connection. *)
Definition pool_functor (accepts : list nat) (response : bytes) (c : Connection) : Connection * option bytes :=
  let c := if cn_close c then c else onWritable accepts (append_write c response) in
  let c := mkConn (cn_read_buf c) (cn_write_buf c) (cn_close c) false (cn_sent c) in
  if cn_close c then (c, None) else tryDispatch c.
End Connection.

(** ** Requests and responses on the wire *)

Lemma le_combine_take_app n m z (l : bytes) :
  n = m -> 0 <= z < 2 ^ (8 * Z.of_nat m) -> le_combine (take n (le_split m z ++ l)) = z.
Proof.
  intros -> Hz. rewrite take_app_exact by apply length_le_split. rewrite le_combine_split. by apply Z.mod_small.
Qed.

Lemma drop_split_app n m z (l : bytes) k : (n = m + k)%nat -> drop n (le_split m z ++ l) = drop k l.
Proof.
  intros ->. rewrite <- drop_drop, drop_app_exact by apply length_le_split. done.
Qed.

Lemma Cmd_code_range c : 0 <= Cmd_code c < 256.
Proof. destruct c; simpl; lia. Qed.

Lemma Cmd_of_code c : Cmd_of (Cmd_code c) = Some c.
Proof. by destruct c. Qed.

(** The header fields of an encoded request, with anything behind it. *)
Lemma encodeRequest_fields cmd key value rest :
  zlen key < 2 ^ 32 -> zlen value < 2 ^ 32 ->
  let b := encodeRequest cmd key value ++ rest in
  hdr_magic b = kProtocolMagic /\ hdr_cmd b = Cmd_code cmd /\ hdr_key_len b = zlen key /\ hdr_val_len b = zlen value /\
  drop kRequestHeader b = key ++ value ++ rest.
Proof.
  intros Hk Hv b. pose proof (zlen_nonneg key). pose proof (zlen_nonneg value). pose proof (Cmd_code_range cmd).
  unfold b, encodeRequest, hdr_magic, hdr_cmd, hdr_key_len, hdr_val_len, kRequestHeader.
  rewrite !u32_small, <- !app_assoc by lia.
  rewrite !(drop_split_app 2 2 _ _ 0), !(drop_split_app 3 2 _ _ 1), !(drop_split_app 1 1 _ _ 0) by done.
  rewrite !(drop_split_app 7 2 _ _ 5), !(drop_split_app 5 1 _ _ 4), !(drop_split_app 4 4 _ _ 0) by done.
  rewrite !(drop_split_app 11 2 _ _ 9), !(drop_split_app 9 1 _ _ 8), !(drop_split_app 8 4 _ _ 4), !(drop_split_app 4 4 _ _ 0) by done.
  rewrite !drop_0. unfold kProtocolMagic.
  rewrite !le_combine_take_app by lia. done.
Qed.

Lemma length_encodeRequest cmd key value : length (encodeRequest cmd key value) = (kRequestHeader + length key + length value)%nat.
Proof. unfold encodeRequest. rewrite !length_app, !length_le_split. unfold kRequestHeader. lia. Qed.

(** A request in front of anything is cut off whole. *)
Lemma cut_encodeRequest cmd key value rest :
  zlen key < 2 ^ 32 -> zlen value < 2 ^ 32 ->
  cut_frame (encodeRequest cmd key value ++ rest) = CutFrame (encodeRequest cmd key value) rest.
Proof.
  intros Hk Hv. destruct (encodeRequest_fields cmd key value rest Hk Hv) as (Hm & _ & Hkl & Hvl & _).
  pose proof (length_encodeRequest cmd key value) as Hlen. pose proof (zlen_nonneg key). pose proof (zlen_nonneg value).
  unfold cut_frame. rewrite Hm, Hkl, Hvl, Z.eqb_refl. simpl negb. cbn iota.
  assert (u64 (Z.of_nat kRequestHeader + zlen key + zlen value) = zlen (encodeRequest cmd key value)) as ->.
  { rewrite u64_small by (unfold kRequestHeader; lia). unfold zlen. lia. }
  rewrite decide_False by (rewrite length_app; lia).
  rewrite zlen_app. pose proof (zlen_nonneg rest).
  destruct (_ <? _) eqn:E; [apply Z.ltb_lt in E; lia|].
  rewrite to_nat_zlen. by rewrite take_app_length, drop_app_length.
Qed.

Lemma decode_encodeResponse status value rest :
  zlen value < 2 ^ 32 ->
  decodeResponse (encodeResponse status value ++ rest) = Some (ResponseStatus_code status, value, rest).
Proof.
  intros Hv. pose proof (zlen_nonneg value).
  assert (length (encodeResponse status value) = (7 + length value)%nat) as Hlen
    by (unfold encodeResponse; rewrite !length_app, !length_le_split; lia).
  unfold decodeResponse, kResponseHeader. rewrite decide_False by (rewrite length_app; lia).
  unfold encodeResponse. rewrite u32_small, <- !app_assoc by lia.
  rewrite !(drop_split_app 2 2 _ _ 0), !(drop_split_app 3 2 _ _ 1), !(drop_split_app 1 1 _ _ 0) by done.
  rewrite !(drop_split_app 7 2 _ _ 5), !(drop_split_app 5 1 _ _ 4), !(drop_split_app 4 4 _ _ 0) by done.
  rewrite !drop_0, !le_combine_take_app by (destruct status; simpl; lia).
  rewrite to_nat_zlen, decide_False by (rewrite length_app; lia). by rewrite take_app_length, drop_app_length.
Qed.
