(* ===== verification/ConnectionProofs.v ===== *)
(** * Connections: framing, order of responses

    The stream of a connection is a sequence of frames whatever chunks the reads deliver.
    Without a pool, feeding chunks serves exactly the frames of the concatenated stream; with
    one, a step relation interleaves reads, workers and the loop thread, and the requests are
    served one at a time in the order of the stream. *)

From Stdlib Require Import ZArith Lia.
From stdpp Require Import base numbers strings list.
From S2P Require Import Prelude Coding Slice Network.
Local Open Scope Z_scope.

(** ** Frames of a stream *)

(** [framed s fs rest bad]: the stream starts with the frames [fs]; [rest] holds no complete
    frame, or starts with a wrong magic number when [bad]. *)
Inductive framed : bytes -> list bytes -> bytes -> bool -> Prop :=
| framed_more s : cut_frame s = CutMore -> framed s [] s false
| framed_bad s : cut_frame s = CutBad -> framed s [] s true
| framed_frame s raw rest fs r bad :
    cut_frame s = CutFrame raw rest -> framed rest fs r bad -> framed s (raw :: fs) r bad.

Lemma hdr_app s t :
  (kRequestHeader <= length s)%nat ->
  hdr_magic (s ++ t) = hdr_magic s /\ hdr_key_len (s ++ t) = hdr_key_len s /\ hdr_val_len (s ++ t) = hdr_val_len s.
Proof.
  unfold kRequestHeader, hdr_magic, hdr_key_len, hdr_val_len. intros Hs.
  rewrite !drop_app_le by lia. rewrite !take_app_le by (rewrite ?length_drop; lia). done.
Qed.

Lemma hdr_len_range s : 0 <= hdr_key_len s < 2 ^ 32 /\ 0 <= hdr_val_len s < 2 ^ 32.
Proof.
  assert (forall l, (length l <= 4)%nat -> 0 <= le_combine l < 2 ^ 32) as Hr.
  { intros l Hl. pose proof (le_combine_range l) as Hc.
    assert (2 ^ (8 * zlen l) <= 2 ^ 32) by (apply Z.pow_le_mono_r; unfold zlen; lia). lia. }
  split; apply Hr; rewrite length_take; lia.
Qed.

(** What a cut says, without the machine arithmetic. *)
Lemma cut_frame_spec s raw rest :
  cut_frame s = CutFrame raw rest <->
  (kRequestHeader <= length s)%nat /\ hdr_magic s = kProtocolMagic /\ s = raw ++ rest /\
  zlen raw = Z.of_nat kRequestHeader + hdr_key_len s + hdr_val_len s.
Proof.
  pose proof (hdr_len_range s) as [Hk Hv]. unfold cut_frame. unfold kRequestHeader in *.
  case_decide as Hlen; [split; [done|lia]|].
  destruct (Z.eqb_spec (hdr_magic s) kProtocolMagic) as [Hm|Hm]; simpl; [|split; [done|tauto]].
  rewrite u64_small by lia. destruct (Z.ltb_spec (zlen s) (Z.of_nat 11 + hdr_key_len s + hdr_val_len s)) as [Hlt|Hge].
  - split; [done|]. intros (_ & _ & Hs & Hr). apply (f_equal zlen) in Hs. rewrite zlen_app in Hs. pose proof (zlen_nonneg rest). lia.
  - split.
    + intros [= <- <-]. rewrite take_drop. split; [lia|]. split; [done|]. split; [done|].
      unfold zlen in *. rewrite length_take. lia.
    + intros (_ & _ & Hs & Hr). rewrite <- Hr, to_nat_zlen. rewrite Hs at 1 2.
      by rewrite take_app_length, drop_app_length.
Qed.

Lemma cut_frame_app s t raw rest : cut_frame s = CutFrame raw rest -> cut_frame (s ++ t) = CutFrame raw (rest ++ t).
Proof.
  rewrite !cut_frame_spec. intros (Hlen & Hm & Hs & Hr). destruct (hdr_app s t Hlen) as (E1 & E2 & E3).
  rewrite E1, E2, E3, length_app. split; [lia|]. split; [done|]. split; [|done]. by rewrite Hs, <- app_assoc.
Qed.

Lemma cut_bad_spec s : cut_frame s = CutBad <-> (kRequestHeader <= length s)%nat /\ hdr_magic s <> kProtocolMagic.
Proof.
  unfold cut_frame. case_decide as Hlen; [split; [done|lia]|].
  destruct (Z.eqb_spec (hdr_magic s) kProtocolMagic); simpl; [|split; [lia|done]].
  case_match; (split; [done|tauto]).
Qed.

Lemma cut_bad_app s t : cut_frame s = CutBad -> cut_frame (s ++ t) = CutBad.
Proof.
  rewrite !cut_bad_spec. intros [Hlen Hm]. destruct (hdr_app s t Hlen) as (-> & _). rewrite length_app. split; [lia|done].
Qed.

Lemma cut_frame_shorter s raw rest : cut_frame s = CutFrame raw rest -> (length rest + kRequestHeader <= length s)%nat.
Proof.
  rewrite cut_frame_spec. intros (Hlen & _ & Hs & Hr). pose proof (hdr_len_range s). rewrite Hs, length_app.
  unfold zlen in Hr. lia.
Qed.

Lemma framed_total s : exists fs r bad, framed s fs r bad.
Proof.
  remember (length s) as n eqn:Hn. revert s Hn. induction (lt_wf n) as [n _ IH]. intros s ->.
  destruct (cut_frame s) as [| |raw rest] eqn:E; [by eauto using framed..|].
  pose proof (cut_frame_shorter _ _ _ E) as Hs. unfold kRequestHeader in Hs.
  destruct (IH (length rest) ltac:(lia) rest eq_refl) as (fs & r & bad & Hf). eauto using framed.
Qed.

Lemma framed_det s fs r bad fs' r' bad' :
  framed s fs r bad -> framed s fs' r' bad' -> fs = fs' /\ r = r' /\ bad = bad'.
Proof.
  intros H. revert fs' r' bad'. induction H as [| |s raw rest fs r bad E H IH]; intros fs' r' bad' H';
    inversion H'; subst; try congruence; try done.
  assert (raw = raw0 /\ rest = rest0) as [<- <-] by (split; congruence).
  match goal with H1 : framed rest _ _ _ |- _ => destruct (IH _ _ _ H1) as (<- & <- & <-) end. done.
Qed.

(** The frames of a stream that goes on. *)
Lemma framed_app s t fs r :
  framed s fs r false -> forall fs' r' bad, framed (r ++ t) fs' r' bad -> framed (s ++ t) (fs ++ fs') r' bad.
Proof.
  intros H. remember false as b eqn:Hb. revert Hb. induction H as [| |s raw rest fs r bad E H IH]; intros Hb fs' r' bad' H'; [done..|].
  simpl. eapply framed_frame; [by apply cut_frame_app|]. by apply IH.
Qed.

Lemma framed_app_bad s t fs r : framed s fs r true -> framed (s ++ t) fs (r ++ t) true.
Proof.
  intros H. remember true as b eqn:Hb. revert Hb. induction H as [| |s raw rest fs r bad E H IH]; intros Hb; [done|..].
  - by apply framed_bad, cut_bad_app.
  - eapply framed_frame; [by apply cut_frame_app|]. by apply IH.
Qed.

Lemma framed_rest s fs r : framed s fs r false -> cut_frame r = CutMore.
Proof.
  intros H. remember false as b eqn:Hb. revert Hb. induction H as [| |s raw rest fs r bad E H IH]; intros Hb; [done..|by apply IH].
Qed.

(** ** Without a pool *)

Section Sync.
Context {St : Type} (handler : St -> bytes -> option (St * bytes)).

(** The requests handled one after another: the final state and the responses. *)
Fixpoint serve_all (st : St) (fs : list bytes) : option (St * list bytes) :=
  match fs with
  | [] => Some (st, [])
  | raw :: fs =>
      '(st, response) ← handler st raw;
      '(st, responses) ← serve_all st fs;
      Some (st, response :: responses)
  end.

Lemma serve_all_app st fs1 fs2 st2 rs :
  serve_all st (fs1 ++ fs2) = Some (st2, rs) ->
  exists st1 rs1 rs2, serve_all st fs1 = Some (st1, rs1) /\ serve_all st1 fs2 = Some (st2, rs2) /\ rs = rs1 ++ rs2.
Proof.
  revert st rs. induction fs1 as [|raw fs1 IH]; intros st rs; simpl; [by eauto 10|].
  destruct (handler st raw) as [[st' resp]|]; cbn [mbind option_bind]; [|done].
  destruct (serve_all st' (fs1 ++ fs2)) as [[st'' rs'']|] eqn:E; cbn [mbind option_bind]; [|done]. intros [= <- <-].
  destruct (IH _ _ E) as (st1 & rs1 & rs2 & -> & E2 & ->). cbn [mbind option_bind]. by eauto 10.
Qed.

Lemma serve_loop_ok c fs r bad :
  framed (cn_read_buf c) fs r bad -> forall fuel st st' rs,
  (length (cn_read_buf c) < fuel)%nat -> serve_all st fs = Some (st', rs) ->
  serve_loop handler fuel st c =
    Some (st', mkConn r (cn_write_buf c ++ concat rs) (cn_close c || bad) (cn_in_flight c) (cn_sent c), negb bad).
Proof.
  remember (cn_read_buf c) as s eqn:Hs. intros H. revert c Hs.
  induction H as [s E|s E|s raw rest fs r bad E H IH]; intros c -> [|fuel] st st' rs Hf; try lia; cbn [serve_loop]; rewrite E.
  - intros [= <- <-]. simpl. rewrite app_nil_r, orb_false_r. by destruct c.
  - intros [= <- <-]. simpl. rewrite app_nil_r, orb_true_r. done.
  - simpl. destruct (handler st raw) as [[st1 resp]|]; cbn [mbind option_bind]; [|done].
    destruct (serve_all st1 fs) as [[st2 rs2]|] eqn:E2; cbn [mbind option_bind]; [|done]. intros [= <- <-].
    pose proof (cut_frame_shorter _ _ _ E) as Hc. unfold kRequestHeader in Hc.
    rewrite (IH (mkConn rest (cn_write_buf c ++ resp) (cn_close c) (cn_in_flight c) (cn_sent c)) eq_refl fuel st1 st2 rs2);
      [|simpl; lia|done]. simpl. by rewrite <- app_assoc.
Qed.

Lemma onWritable_stream accepts c :
  let c' := onWritable accepts c in
  cn_sent c' ++ cn_write_buf c' = cn_sent c ++ cn_write_buf c /\ cn_read_buf c' = cn_read_buf c /\
  cn_close c' = cn_close c /\ cn_in_flight c' = cn_in_flight c.
Proof.
  revert c. induction accepts as [|n accepts IH]; intros c; simpl; [by destruct (cn_write_buf c) eqn:E; rewrite ?E|].
  destruct (cn_write_buf c) as [|b w] eqn:E; [by rewrite E|]. destruct n as [|n]; [by rewrite E|].
  set (c1 := mkConn _ _ _ _ _). destruct (IH c1) as (-> & -> & -> & ->). unfold c1. cbn [cn_sent cn_write_buf cn_read_buf cn_close cn_in_flight].
  by rewrite <- app_assoc, take_drop.
Qed.

(** The writes of a round take [n] bytes: none of them fails or would block before. *)
Definition drains (n : nat) (accepts : list nat) : Prop :=
  Forall (fun k => (0 < k)%nat) accepts /\ (n <= sum_list accepts)%nat.

Lemma drains_le n m accepts : (m <= n)%nat -> drains n accepts -> drains m accepts.
Proof. intros Hm [Hp Hs]. split; [done|lia]. Qed.

Lemma onWritable_drains accepts c : drains (length (cn_write_buf c)) accepts -> cn_write_buf (onWritable accepts c) = [].
Proof.
  intros [Hp Hs]. revert c Hs. induction Hp as [|k accepts Hk Hp IH]; intros c Hs; cbn [onWritable].
  - destruct (cn_write_buf c) eqn:E; [done|]. simpl in Hs. lia.
  - destruct (cn_write_buf c) eqn:E; [done|]. rewrite <- E in *. destruct k as [|k]; [lia|]. apply IH. cbn [cn_write_buf].
    rewrite length_drop. simpl in Hs. lia.
Qed.

(** The events of a connection until it is no longer registered: what each read delivered,
    and what the writes of that round accepted. *)
Fixpoint feed (evs : list (bytes * list nat)) (st : St) (c : Connection) : option (St * Connection) :=
  match evs with
  | [] => Some (st, c)
  | (chunk, accepts) :: evs =>
      '(st, c, registered) ← conn_event handler (ReadData chunk) false accepts st c;
      if (registered : bool) then feed evs st c else Some (st, c)
  end.

Lemma conn_event_ok chunk accepts st c fs r bad st' rs :
  cn_close c = false -> framed (cn_read_buf c ++ chunk) fs r bad -> serve_all st fs = Some (st', rs) ->
  exists c', conn_event handler (ReadData chunk) false accepts st c = Some (st', c', negb bad) /\
    cn_read_buf c' = r /\ cn_close c' = bad /\ cn_sent c' ++ cn_write_buf c' = cn_sent c ++ cn_write_buf c ++ concat rs /\
    (bad = false -> drains (length (cn_write_buf c ++ concat rs)) accepts -> cn_write_buf c' = []).
Proof.
  intros Hc Hf Hs. unfold conn_event, onReadable.
  rewrite (serve_loop_ok (append_read c chunk) fs r bad Hf _ st st' rs) by (done || simpl; lia).
  cbn [mbind option_bind cn_close append_read cn_write_buf cn_in_flight cn_sent]. rewrite Hc. cbn [orb].
  destruct bad; simpl negb; cbn iota; [by eexists|].
  destruct (onWritable_stream accepts (mkConn r (cn_write_buf c ++ concat rs) false (cn_in_flight c) (cn_sent c)))
    as (E1 & E2 & E3 & E4).
  rewrite E3. simpl. eexists. split; [done|]. split; [done|]. split; [done|]. split; [done|].
  intros _ Hd. by apply onWritable_drains.
Qed.

Lemma feed_ok evs : forall st c fs r bad st' rs,
  cn_close c = false -> cut_frame (cn_read_buf c) = CutMore ->
  framed (cn_read_buf c ++ concat evs.*1) fs r bad -> serve_all st fs = Some (st', rs) ->
  exists c', feed evs st c = Some (st', c') /\ cn_close c' = bad /\ (bad = false -> cn_read_buf c' = r) /\
    cn_sent c' ++ cn_write_buf c' = cn_sent c ++ cn_write_buf c ++ concat rs /\
    (bad = false -> cn_write_buf c = [] -> Forall (drains (length (concat rs))) evs.*2 -> cn_write_buf c' = []).
Proof.
  induction evs as [|[chunk accepts] evs IH]; intros st c fs r bad st' rs Hc Hm Hf Hs; simpl in Hf; cbn [feed].
  { rewrite app_nil_r in Hf. destruct (framed_det _ _ _ _ _ _ _ Hf (framed_more _ Hm)) as (-> & -> & ->).
    injection Hs as <- <-. exists c. simpl. rewrite app_nil_r. done. }
  rewrite app_assoc in Hf. destruct (framed_total (cn_read_buf c ++ chunk)) as (fs1 & r1 & bad1 & Hf1). destruct bad1.
  - destruct (framed_det _ _ _ _ _ _ _ (framed_app_bad _ (concat evs.*1) _ _ Hf1) Hf) as (<- & <- & <-).
    destruct (conn_event_ok chunk accepts st c _ _ _ _ _ Hc Hf1 Hs) as (c' & -> & _ & Hc' & Hw & _).
    cbn [mbind option_bind]. by exists c'.
  - destruct (framed_total (r1 ++ concat evs.*1)) as (fs2 & r2 & bad2 & Hf2).
    destruct (framed_det _ _ _ _ _ _ _ (framed_app _ _ _ _ Hf1 _ _ _ Hf2) Hf) as (<- & <- & <-).
    destruct (serve_all_app _ _ _ _ _ Hs) as (st1 & rs1 & rs2 & Hs1 & Hs2 & ->).
    destruct (conn_event_ok chunk accepts st c _ _ _ _ _ Hc Hf1 Hs1) as (c' & -> & Hr' & Hc' & Hw & Hd).
    cbn [mbind option_bind]. simpl negb. cbn iota.
    assert (cut_frame r1 = CutMore) as Hm1 by by eapply framed_rest.
    destruct (IH st1 c' fs2 r2 bad2 st' rs2 Hc') as (c2 & E & Hc2 & Hr2 & Hw2 & Hd2); [by rewrite Hr'|by rewrite Hr'|done|].
    exists c2. split; [done|]. split; [done|]. split; [done|].
    split; [rewrite Hw2, app_assoc, Hw, concat_app, <- !app_assoc; done|].
    intros Hb Hw0 [Hd0 Hds]%Forall_cons. rewrite concat_app, length_app in Hd0, Hds. apply Hd2; [done| |].
    + apply Hd; [done|]. rewrite Hw0. eapply drains_le; [|exact Hd0]. simpl. lia.
    + eapply Forall_impl; [exact Hds|]. intros a. apply drains_le. lia.
Qed.
End Sync.

Lemma connection_chunking_ok {St : Type} (handler : St -> bytes -> option (St * bytes)) (evs : list (bytes * list nat))
  (st st' : St) (fs : list bytes) (r : bytes) (bad : bool) (rs : list bytes) :
  framed (concat evs.*1) fs r bad -> serve_all handler st fs = Some (st', rs) ->
  exists c, feed handler evs st Connection_new = Some (st', c) /\
    cn_sent c ++ cn_write_buf c = concat rs /\ cn_close c = bad /\ (bad = false -> cn_read_buf c = r) /\
    (bad = false -> Forall (drains (length (concat rs))) evs.*2 -> cn_sent c = concat rs).
Proof.
  intros Hf Hs. destruct (feed_ok handler evs st Connection_new fs r bad st' rs) as (c & E & Hc & Hr & Hw & Hd); [done..|].
  exists c. split; [done|]. split; [done|]. split; [done|]. split; [done|]. intros Hb Hds.
  rewrite (Hd Hb eq_refl Hds), app_nil_r in Hw. done.
Qed.

(** C23: framing is independent of chunking: whatever chunks the reads deliver and whatever
    the socket accepts, a connection serves exactly the requests of the concatenated stream,
    in order and each once, an incomplete request waits in the read buffer, and the connection
    closes exactly on a frame with a wrong magic number.  What the peer gets is a prefix of the
    responses in order, the rest waits in the write buffer; if no frame is bad and the socket
    accepts what it is offered in every round, the peer gets exactly all responses.  (After a
    bad frame the responses of the same read stay unsent, and after a short write the rest
    waits for the next request: [bad_frame_keeps_responses], [short_write_waits].) *)
Theorem connection_chunking {St : Type} (handler : St -> bytes -> option (St * bytes)) (evs : list (bytes * list nat))
  (st st' : St) (fs : list bytes) (r : bytes) (bad : bool) (rs : list bytes) :
  framed (concat evs.*1) fs r bad -> serve_all handler st fs = Some (st', rs) ->
  exists c, feed handler evs st Connection_new = Some (st', c) /\
    cn_sent c ++ cn_write_buf c = concat rs /\ cn_close c = bad /\ (bad = false -> cn_read_buf c = r) /\
    (bad = false -> Forall (drains (length (concat rs))) evs.*2 -> cn_sent c = concat rs).
Proof. apply connection_chunking_ok. Qed.

Definition echo_handler (n : nat) (raw : bytes) : option (nat * bytes) := Some (S n, raw).

Definition two_requests : bytes := encodeRequest CmdPut (bs "k") (bs "v") ++ encodeRequest CmdGet (bs "k") [].

Lemma connection_chunking_witness :
  let s := two_requests ++ bs "MK" in
  let evs := [(take 5 s, [99%nat]); (drop 5 (take 20 s), [4%nat; 50%nat]); (drop 20 s, [100%nat])] in
  exists c, feed echo_handler evs 0%nat Connection_new = Some (2%nat, c) /\ cn_read_buf c = bs "MK" /\ cn_sent c = two_requests.
Proof.
  intros s evs.
  destruct (connection_chunking echo_handler evs 0%nat 2%nat
              [encodeRequest CmdPut (bs "k") (bs "v"); encodeRequest CmdGet (bs "k") []] (bs "MK") false
              [encodeRequest CmdPut (bs "k") (bs "v"); encodeRequest CmdGet (bs "k") []]) as (c & E & _ & _ & Hr & Hs).
  - apply framed_frame with (rest := encodeRequest CmdGet (bs "k") [] ++ bs "MK"); [vm_compute; reflexivity|].
    apply framed_frame with (rest := bs "MK"); [vm_compute; reflexivity|]. apply framed_more. vm_compute. reflexivity.
  - reflexivity.
  - exists c. split; [exact E|]. split; [by apply Hr|]. rewrite Hs; [vm_compute; reflexivity|reflexivity|].
    repeat constructor; vm_compute; lia.
Defined.

(** Two requests and a frame with a wrong magic number in one read: both requests are
    handled, the connection closes, and the peer gets no response. *)
Theorem bad_frame_keeps_responses :
  (fun x => (cn_sent x.2, cn_write_buf x.2, cn_close x.2)) <$>
    feed echo_handler [(two_requests ++ bs "not a request", [100%nat])] 0%nat Connection_new = Some ([], two_requests, true).
Proof. vm_compute. reflexivity. Qed.

(** A socket that accepts five bytes and then would block: the rest of the response waits in
    the buffer until the peer sends something. *)
Theorem short_write_waits :
  (fun x => (cn_sent x.2, cn_write_buf x.2)) <$> feed echo_handler [(two_requests, [5%nat; 0%nat])] 0%nat Connection_new =
    Some (take 5 two_requests, drop 5 two_requests).
Proof. vm_compute. reflexivity. Qed.

(** ** With a pool *)

(** The connection, the tasks it has in the pool and the functors it has in its loop. *)
Record PoolConn := mkPC { pc_conn : Connection; pc_tasks : list bytes; pc_functors : list bytes }.

Definition dispatch (p : PoolConn) (cr : Connection * option bytes) : PoolConn :=
  mkPC cr.1 (pc_tasks p ++ option_list cr.2) (pc_functors p).

Inductive cn_label :=
| LReceived (chunk : bytes)
| LHandled (raw response : bytes)
| LDropped (raw : bytes)
| LSilent.

Section Pool.
Context {St : Type} (handler : St -> bytes -> option (St * bytes)).

(** Workers may take the tasks in any order and finish them in any order; the state of the
    server may change between two steps of the connection. *)
Inductive cn_step : St * PoolConn -> cn_label -> St * PoolConn -> Prop :=
| step_read st p chunk :
    cn_step (st, p) (LReceived chunk) (st, dispatch p (onReadable_pool (ReadData chunk) (pc_conn p)))
| step_read_none st p r :
    r <> ReadAgain -> (forall chunk, r <> ReadData chunk) ->
    cn_step (st, p) LSilent (st, dispatch p (onReadable_pool r (pc_conn p)))
| step_work st st' p ts1 raw ts2 response :
    pc_tasks p = ts1 ++ raw :: ts2 -> cn_close (pc_conn p) = false ->
    pool_task handler st false raw = Some (st', response) ->
    cn_step (st, p) (LHandled raw response) (st', mkPC (pc_conn p) (ts1 ++ ts2) (pc_functors p ++ [response]))
| step_skip st p ts1 raw ts2 response :
    pc_tasks p = ts1 ++ raw :: ts2 -> cn_close (pc_conn p) = true ->
    pool_task handler st true raw = Some (st, response) ->
    cn_step (st, p) (LDropped raw) (st, mkPC (pc_conn p) (ts1 ++ ts2) (pc_functors p ++ [response]))
| step_loop st p accepts response fs :
    pc_functors p = response :: fs ->
    cn_step (st, p) LSilent (st, dispatch (mkPC (pc_conn p) (pc_tasks p) fs) (pool_functor accepts response (pc_conn p)))
| step_hup st p :
    cn_step (st, p) LSilent (st, mkPC (markClosed (pc_conn p)) (pc_tasks p) (pc_functors p))
| step_other st st' p : cn_step (st, p) LSilent (st', p).

Inductive cn_run : St * PoolConn -> list cn_label -> St * PoolConn -> Prop :=
| run_start x : cn_run x [] x
| run_step x ls y l z : cn_run x ls y -> cn_step y l z -> cn_run x (ls ++ [l]) z.
End Pool.

Definition received (ls : list cn_label) : bytes :=
  concat ((fun l => match l with LReceived chunk => chunk | _ => [] end) <$> ls).
Definition handled (ls : list cn_label) : list (bytes * bytes) :=
  omap (fun l => match l with LHandled raw response => Some (raw, response) | _ => None end) ls.
Definition dropped (ls : list cn_label) : list bytes :=
  omap (fun l => match l with LDropped raw => Some raw | _ => None end) ls.

Definition pc_start : PoolConn := mkPC Connection_new [] [].

(** A request is a whole frame. *)
Definition is_frame (raw : bytes) : Prop := cut_frame raw = CutFrame raw [].

(** The invariant; [ls] is the history. *)
Record pool_inv (ls : list cn_label) (p : PoolConn) : Prop := {
  pi_one : (length (pc_tasks p) + length (pc_functors p) = if cn_in_flight (pc_conn p) then 1 else 0)%nat;
  pi_taken : Forall is_frame ((handled ls).*1 ++ dropped ls ++ pc_tasks p);
  pi_read : received ls = concat ((handled ls).*1 ++ dropped ls ++ pc_tasks p) ++ cn_read_buf (pc_conn p);
  pi_open_dropped : cn_close (pc_conn p) = false -> dropped ls = [];
  pi_written : cn_close (pc_conn p) = false ->
    concat (handled ls).*2 = (cn_sent (pc_conn p) ++ cn_write_buf (pc_conn p)) ++ concat (pc_functors p);
  pi_sent : cn_sent (pc_conn p) ++ cn_write_buf (pc_conn p) `prefix_of` concat (handled ls).*2;
}.

(** No complete request waits while nothing is in flight. *)
Definition pool_idle (c : Connection) : Prop :=
  cn_close c = false -> cn_in_flight c = false -> cut_frame (cn_read_buf c) = CutMore.

Lemma received_snoc ls l :
  received (ls ++ [l]) = received ls ++ match l with LReceived chunk => chunk | _ => [] end.
Proof. unfold received. rewrite fmap_app, concat_app. simpl. by rewrite app_nil_r. Qed.
Lemma handled_snoc ls l :
  handled (ls ++ [l]) = handled ls ++ match l with LHandled raw response => [(raw, response)] | _ => [] end.
Proof. unfold handled. rewrite omap_app. by destruct l. Qed.
Lemma dropped_snoc ls l :
  dropped (ls ++ [l]) = dropped ls ++ match l with LDropped raw => [raw] | _ => [] end.
Proof. unfold dropped. rewrite omap_app. by destruct l. Qed.

Lemma cut_is_frame s raw rest : cut_frame s = CutFrame raw rest -> is_frame raw /\ s = raw ++ rest.
Proof.
  unfold is_frame. rewrite !cut_frame_spec. intros (Hlen & Hm & Hs & Hr). pose proof (hdr_len_range s) as Hh.
  assert (kRequestHeader <= length raw)%nat as Hl by (unfold zlen in Hr; lia).
  destruct (hdr_app raw rest Hl) as (E1 & E2 & E3). rewrite <- Hs in E1, E2, E3.
  split; [|done]. rewrite <- E1, <- E2, <- E3, app_nil_r. done.
Qed.

Lemma tryDispatch_inv ls p :
  pool_inv ls p -> pool_inv ls (dispatch p (tryDispatch (pc_conn p))) /\ pool_idle (tryDispatch (pc_conn p)).1.
Proof.
  intros [H1 H2 H3 H4 H5 H6]. unfold tryDispatch. destruct p as [c ts fs]. simpl in *.
  destruct (cn_close c) eqn:Ec; simpl.
  { split; [|by intros ?; simpl in *; congruence]. split; simpl; rewrite ?app_nil_r, ?Ec; by auto. }
  destruct (cn_in_flight c) eqn:Ei; simpl; simpl in H1.
  { split; [|by intros ? ?; simpl in *; congruence]. split; simpl; rewrite ?app_nil_r, ?Ei; by auto. }
  destruct (cut_frame (cn_read_buf c)) as [| |raw rest] eqn:E; simpl.
  - split; [|by intros _ _]. split; simpl; rewrite ?app_nil_r, ?Ei; by auto.
  - split; [|by intros ?]. split; simpl; rewrite ?app_nil_r, ?Ei; by auto.
  - destruct (cut_is_frame _ _ _ E) as [Hf Hs]. assert (ts = [] /\ fs = []) as [-> ->].
    { destruct ts, fs; simpl in H1; [done|lia..]. }
    split; [|by intros ? ?]. split; simpl; try by auto.
    + rewrite app_nil_r in H2. rewrite !Forall_app in *. repeat split; [tauto..|by repeat constructor].
    + rewrite H3, Hs, app_nil_r, !concat_app, <- !app_assoc. simpl. by rewrite app_nil_r.
Qed.

Section PoolProofs.
Context {St : Type} (handler : St -> bytes -> option (St * bytes)).

Lemma task_alone ls p ts1 raw ts2 :
  pool_inv ls p -> pc_tasks p = ts1 ++ raw :: ts2 ->
  ts1 = [] /\ ts2 = [] /\ pc_functors p = [] /\ cn_in_flight (pc_conn p) = true.
Proof.
  intros H Ht. pose proof (pi_one _ _ H) as H1. rewrite Ht, length_app in H1. simpl in H1.
  destruct (cn_in_flight _); [|lia].
  destruct ts1, ts2, (pc_functors p); simpl in H1; try lia. done.
Qed.

Lemma pool_read_inv ls p chunk :
  pool_inv ls p -> let cr := onReadable_pool (ReadData chunk) (pc_conn p) in
  pool_inv (ls ++ [LReceived chunk]) (dispatch p cr) /\ pool_idle cr.1.
Proof.
  intros [H1 H2 H3 H4 H5 H6]. simpl.
  apply (tryDispatch_inv (ls ++ [LReceived chunk]) (mkPC (append_read (pc_conn p) chunk) (pc_tasks p) (pc_functors p))).
  split; simpl; rewrite ?received_snoc, ?handled_snoc, ?dropped_snoc, ?app_nil_r; try done.
  by rewrite H3, <- app_assoc.
Qed.

Lemma pool_work_inv ls p ts1 raw ts2 response :
  pool_inv ls p -> cn_close (pc_conn p) = false -> pc_tasks p = ts1 ++ raw :: ts2 ->
  pool_inv (ls ++ [LHandled raw response]) (mkPC (pc_conn p) (ts1 ++ ts2) (pc_functors p ++ [response])).
Proof.
  intros H Hc Ht. destruct (task_alone _ _ _ _ _ H Ht) as (-> & -> & Hf & Hi). destruct H as [H1 H2 H3 H4 H5 H6].
  rewrite Ht, (H4 Hc) in H2, H3. split; simpl; rewrite ?received_snoc, ?handled_snoc, ?dropped_snoc, ?(H4 Hc), ?Hf, ?Hi.
  - done.
  - rewrite fmap_app. simpl in *. by rewrite app_nil_r.
  - rewrite fmap_app. simpl in *. by rewrite !app_nil_r.
  - done.
  - intros _. rewrite fmap_app, concat_app, (H5 Hc), Hf. simpl. by rewrite !app_nil_r.
  - rewrite fmap_app, concat_app. by apply prefix_app_r.
Qed.

Lemma pool_skip_inv ls p ts1 raw ts2 response :
  pool_inv ls p -> cn_close (pc_conn p) = true -> pc_tasks p = ts1 ++ raw :: ts2 ->
  pool_inv (ls ++ [LDropped raw]) (mkPC (pc_conn p) (ts1 ++ ts2) (pc_functors p ++ [response])).
Proof.
  intros H Hc Ht. destruct (task_alone _ _ _ _ _ H Ht) as (-> & -> & Hf & Hi). destruct H as [H1 H2 H3 H4 H5 H6].
  rewrite Ht in H2, H3. split; simpl; rewrite ?received_snoc, ?handled_snoc, ?dropped_snoc, ?Hf, ?Hi, ?Hc, ?app_nil_r; done.
Qed.

Lemma pool_loop_inv ls p accepts response fs :
  pool_inv ls p -> pc_functors p = response :: fs -> let cr := pool_functor accepts response (pc_conn p) in
  pool_inv (ls ++ [LSilent]) (dispatch (mkPC (pc_conn p) (pc_tasks p) fs) cr) /\ pool_idle cr.1.
Proof.
  intros [H1 H2 H3 H4 H5 H6] Hfs. rewrite Hfs in *. simpl in H1.
  assert (pc_tasks p = [] /\ fs = []) as [Ht ->].
  { destruct (cn_in_flight _); [|lia]. destruct (pc_tasks p), fs; simpl in H1; [done|lia..]. }
  unfold pool_functor. destruct (cn_close (pc_conn p)) eqn:Hc.
  - simpl. rewrite Hc. split; [|intros ?; simpl in *; congruence].
    split; simpl; rewrite ?received_snoc, ?handled_snoc, ?dropped_snoc, ?app_nil_r, ?Ht, ?Hc in *; done.
  - destruct (onWritable_stream accepts (append_write (pc_conn p) response)) as (E1 & E2 & E3 & E4).
    set (c := onWritable _ _) in *. simpl in E1, E2, E3, E4. cbn [cn_close]. rewrite E3, Hc.
    set (c1 := mkConn (cn_read_buf c) _ _ _ _).
    apply (tryDispatch_inv (ls ++ [LSilent]) (mkPC c1 (pc_tasks p) [])).
    assert (concat (handled ls).*2 = cn_sent c ++ cn_write_buf c) as Hw.
    { rewrite E1, (H5 eq_refl). simpl. by rewrite app_nil_r, app_assoc. }
    split; simpl; rewrite ?received_snoc, ?handled_snoc, ?dropped_snoc, ?app_nil_r, ?Ht, ?Hw in *; try done.
    by rewrite E2.
Qed.

Lemma cn_step_inv ls st p l st' p' :
  cn_step handler (st, p) l (st', p') -> pool_inv ls p -> pool_idle (pc_conn p) ->
  pool_inv (ls ++ [l]) p' /\ pool_idle (pc_conn p').
Proof.
  intros Hstep Hinv Hid. inversion Hstep as [| | | | | |]; subst.
  - by apply pool_read_inv.
  - assert (onReadable_pool r (pc_conn p) = (cn_set_close (pc_conn p), None)) as -> by (destruct r; naive_solver).
    destruct Hinv as [I1 I2 I3 I4 I5 I6]. split; [|by intros ?].
    split; simpl; rewrite ?received_snoc, ?handled_snoc, ?dropped_snoc, ?app_nil_r; done.
  - split; [|done]. by apply pool_work_inv.
  - split; [|done]. by apply pool_skip_inv.
  - by apply pool_loop_inv.
  - destruct Hinv as [I1 I2 I3 I4 I5 I6]. split; [|by intros ?].
    split; simpl; rewrite ?received_snoc, ?handled_snoc, ?dropped_snoc, ?app_nil_r; done.
  - destruct Hinv as [I1 I2 I3 I4 I5 I6]. split; [|done].
    split; simpl; rewrite ?received_snoc, ?handled_snoc, ?dropped_snoc, ?app_nil_r; done.
Qed.

Lemma cn_run_inv st0 ls st p :
  cn_run handler (st0, pc_start) ls (st, p) -> pool_inv ls p /\ pool_idle (pc_conn p).
Proof.
  intros H. remember (st0, pc_start) as x eqn:Hx. remember (st, p) as y eqn:Hy. revert st p Hy.
  induction H as [x|x ls y l z H IH Hs]; intros st p ->.
  - injection Hx as -> ->. split; [split; done|done].
  - destruct y as [st1 p1]. destruct (IH Hx st1 p1 eq_refl) as [Hi Hd]. by eapply cn_step_inv.
Qed.

Lemma framed_concat fs rest :
  Forall is_frame fs -> cut_frame rest = CutMore -> framed (concat fs ++ rest) fs rest false.
Proof.
  intros Hf Hr. induction Hf as [|raw fs Hraw _ IH]; simpl; [by apply framed_more|].
  rewrite <- app_assoc. eapply framed_frame; [|exact IH]. apply (cut_frame_app _ (concat fs ++ rest)) in Hraw. done.
Qed.
End PoolProofs.

(** C24: with a pool the requests of a connection are served one at a time, in the order of
    the stream.  In every state reachable by any interleaving of reads, workers, the loop
    thread and other clients, at most one request of the connection is in flight, and what
    was written is a prefix of the responses in the order their requests were handled.  While
    the connection is open nothing is lost: when nothing is in flight, the requests handled
    are exactly the complete frames of the stream received, and everything their handlers
    answered is sent or waits in the write buffer. *)
Theorem pool_connection_in_order {St : Type} (handler : St -> bytes -> option (St * bytes)) (st0 st : St)
  (ls : list cn_label) (p : PoolConn) :
  cn_run handler (st0, pc_start) ls (st, p) ->
  (length (pc_tasks p) + length (pc_functors p) <= 1)%nat /\
  cn_sent (pc_conn p) ++ cn_write_buf (pc_conn p) `prefix_of` concat (handled ls).*2 /\
  (cn_close (pc_conn p) = false -> pc_tasks p = [] -> pc_functors p = [] ->
   framed (received ls) (handled ls).*1 (cn_read_buf (pc_conn p)) false /\
   cn_sent (pc_conn p) ++ cn_write_buf (pc_conn p) = concat (handled ls).*2).
Proof.
  intros H. destruct (cn_run_inv handler _ _ _ _ H) as [[H1 H2 H3 H4 H5 H6] Hid].
  split; [destruct (cn_in_flight _); lia|]. split; [done|]. intros Hc Ht Hf. rewrite Ht, Hf, (H4 Hc), !app_nil_r in *.
  split; [|rewrite (H5 Hc); simpl; by rewrite ?app_nil_r]. rewrite H3. apply framed_concat; [done|]. apply Hid; [done|].
  by destruct (cn_in_flight _).
Qed.

(** Two pipelined requests in one read: the second is dispatched when the first response is
    taken back by the loop. *)
Lemma pool_connection_in_order_witness :
  let r1 := encodeRequest CmdPut (bs "k") (bs "v") in
  let r2 := encodeRequest CmdGet (bs "k") [] in
  exists p, cn_run echo_handler (0%nat, pc_start)
    [LReceived (r1 ++ r2); LHandled r1 r1; LSilent; LHandled r2 r2; LSilent] (2%nat, p) /\
    framed (r1 ++ r2) [r1; r2] [] false /\ cn_sent (pc_conn p) ++ cn_write_buf (pc_conn p) = r1 ++ r2.
Proof.
  intros r1 r2.
  pose (p1 := dispatch pc_start (onReadable_pool (ReadData (r1 ++ r2)) (pc_conn pc_start))).
  pose (p2 := mkPC (pc_conn p1) [] [r1]).
  pose (p3 := dispatch (mkPC (pc_conn p2) [] []) (pool_functor [4%nat] r1 (pc_conn p2))).
  pose (p4 := mkPC (pc_conn p3) [] [r2]).
  pose (p5 := dispatch (mkPC (pc_conn p4) [] []) (pool_functor [100%nat] r2 (pc_conn p4))).
  assert (cn_run echo_handler (0%nat, pc_start)
    ([] ++ [LReceived (r1 ++ r2)] ++ [LHandled r1 r1] ++ [LSilent] ++ [LHandled r2 r2] ++ [LSilent]) (2%nat, p5)) as Hrun.
  { rewrite !app_assoc. apply run_step with (y := (2%nat, p4)).
    2:{ refine (step_loop _ _ p4 [100%nat] r2 [] eq_refl). }
    apply run_step with (y := (1%nat, p3)).
    2:{ refine (step_work _ _ _ p3 [] r2 [] r2 _ _ _); vm_compute; reflexivity. }
    apply run_step with (y := (1%nat, p2)).
    2:{ refine (step_loop _ _ p2 [4%nat] r1 [] eq_refl). }
    apply run_step with (y := (0%nat, p1)).
    2:{ refine (step_work _ _ _ p1 [] r1 [] r1 _ _ _); vm_compute; reflexivity. }
    apply run_step with (y := (0%nat, pc_start)); [constructor|]. apply (step_read _ _ pc_start). }
  exists p5. split; [exact Hrun|].
  destruct (pool_connection_in_order echo_handler 0%nat 2%nat _ p5 Hrun) as (_ & _ & Hq).
  destruct Hq as [Hf Hw]; [vm_compute; reflexivity..|]. split; [exact Hf|exact Hw].
Defined.
