(* ===== verification/Server.v ===== *)
(** * Request processing

    [network/server.cpp]: decoding a request, calling the database, encoding the response.
    The database is the abstract class of [minikv/db.h], here a class of operations
    ([DBOps]) with its laws ([DBLaws]): the handler is proved against the laws, and [DBImpl]
    is shown to meet them in [ServerDB].  [None] is undefined behaviour. *)

From Stdlib Require Import ZArith Lia.
From stdpp Require Import base numbers strings list gmap.
From S2P Require Import Prelude CppString Coding Slice InternalKey SkipHeap SkipList Versions MemTable Network.
Local Open Scope Z_scope.

(** ** The interface of the database *)

(** [minikv::DB]; [dbo_size] bounds the number of entries an iterator ranges over. *)
Class DBOps (St I : Type) `{IterOps I} := {
  dbo_put : St -> bytes -> bytes -> option (St * Status);
  dbo_get : St -> bytes -> option (St * Status * option bytes);
  dbo_del : St -> bytes -> option (St * Status);
  dbo_write : St -> WriteBatch -> option (St * Status);
  dbo_newIterator : St -> option (St * I);
  dbo_size : I -> nat;
}.

(** The store as a map. *)
Definition map_op (m : gmap bytes bytes) (op : BatchOp) : gmap bytes bytes :=
  match op_type op with bPut => <[op_key op := op_value op]> m | bDelete => delete (op_key op) m end.
Definition map_ops (ops : list BatchOp) (m : gmap bytes bytes) : gmap bytes bytes := foldl map_op m ops.

(** What the server relies on.  [rep used st m]: the store [st] holds the map [m] and has
    taken [used] bytes of memory for it; the laws hold as long as it stays below [limit].  An
    iterator ranges over sorted versions that say what the map says. *)
Class DBLaws (St I : Type) `{DBOps St I} (limit : Z) (rep : Z -> St -> gmap bytes bytes -> Prop)
  (irep : I -> list entry -> list entry -> Prop) : Prop := {
  dbl_iter :: IterSpec I irep;
  dbl_write used st m b : rep used st m -> used + ops_bytes b < limit ->
    exists st', dbo_write st b = Some (st', SOk) /\ rep (used + ops_bytes b) st' (map_ops b m);
  dbl_put used st m k v : rep used st m -> used + ops_bytes [mkOp bPut k v] < limit ->
    exists st', dbo_put st k v = Some (st', SOk) /\ rep (used + ops_bytes [mkOp bPut k v]) st' (<[k := v]> m);
  dbl_del used st m k : rep used st m -> used + ops_bytes [mkOp bDelete k []] < limit ->
    exists st', dbo_del st k = Some (st', SOk) /\ rep (used + ops_bytes [mkOp bDelete k []]) st' (delete k m);
  dbl_get used st m k : rep used st m ->
    exists st', dbo_get st k = Some (st', match m !! k with Some _ => SOk | None => SNotFound [] end, m !! k) /\ rep used st' m;
  dbl_newIterator used st m : rep used st m ->
    exists st' it all rest, dbo_newIterator st = Some (st', it) /\ rep used st' m /\ irep it all rest /\ sl_wf all /\
      (forall uk, visible uk all = m !! uk) /\ (length all <= dbo_size (it_seekToFirst it))%nat /\ sl_bytes all <= used;
}.

(** ** Payloads *)

Definition scan_item (kv : bytes * bytes) : bytes :=
  encodeFixed32 (u32 (zlen kv.1)) ++ kv.1 ++ encodeFixed32 (u32 (zlen kv.2)) ++ kv.2.

Definition encodeScanPayload (items : list (bytes * bytes)) : bytes :=
  encodeFixed32 (u32 (zlen items)) ++ concat (scan_item <$> items).

Inductive parse_result := Parsed (b : WriteBatch) | ParseError (msg : bytes).

(** The loop over the operations of a batch; [p] is the payload from the current position to
    its end.  A round consumes at least nine bytes, so the fuel is the length. *)
Fixpoint parse_batch (fuel : nat) (count : Z) (p : bytes) (b : WriteBatch) : option parse_result :=
  if count <=? 0 then Some (Parsed b)
  else
    match fuel with
    | O => None
    | S fuel =>
        if zlen p <? 1 + 4 then Some (ParseError (bs "truncated batch"))
        else
          op ← head p;
          let p := drop 1 p in
          klen ← decodeFixed32 p;
          let p := drop 4 p in
          if zlen p <? klen + 4 then Some (ParseError (bs "truncated key"))
          else
            k ← read_n (Z.to_nat klen) p;
            let p := drop (Z.to_nat klen) p in
            vlen ← decodeFixed32 p;
            let p := drop 4 p in
            if zlen p <? vlen then Some (ParseError (bs "truncated val"))
            else
              v ← read_n (Z.to_nat vlen) p;
              let p := drop (Z.to_nat vlen) p in
              if b2z op =? BatchOpType_code bPut then parse_batch fuel (count - 1) p (batch_put b k v)
              else if b2z op =? BatchOpType_code bDelete then parse_batch fuel (count - 1) p (batch_del b k)
              else Some (ParseError (bs "bad batch op"))
    end.

(** ** Range loops *)

(** What the loops of [kScan] and [kDeleteRange] do with the entry they stand on. *)
Inductive visit := VSkip | VStop | VTake (uks : bytes).

Definition visit_entry (start end_ last_user ik : bytes) : visit :=
  if bool_decide (length ik < kTrailerBytes)%nat then VSkip
  else
    let uks := InternalKeyUserKey ik in
    if negb (bool_decide (start = [])) && is_lt (lex uks start) then VSkip
    else if negb (bool_decide (end_ = [])) && negb (is_lt (lex uks end_)) then VStop
    else if bool_decide (uks = last_user) then VSkip
    else VTake uks.

Section Server.
Context {St I : Type} `{DBOps St I}.

Fixpoint scan_range (fuel : nat) (it : I) (start end_ last_user : bytes) (items : list (bytes * bytes))
  : option (I * list (bytes * bytes)) :=
  match fuel with
  | O => None
  | S fuel =>
      if negb (it_valid it) then Some (it, items)
      else
        match visit_entry start end_ last_user (it_key it) with
        | VSkip => scan_range fuel (it_next it) start end_ last_user items
        | VStop => Some (it, items)
        | VTake uks =>
            if IsDeletion (it_key it) then scan_range fuel (it_next it) start end_ uks items
            else scan_range fuel (it_next it) start end_ uks (items ++ [(uks, it_value it)])
        end
  end.

Fixpoint delete_range (fuel : nat) (it : I) (start end_ last_user : bytes) (b : WriteBatch) : option WriteBatch :=
  match fuel with
  | O => None
  | S fuel =>
      if negb (it_valid it) then Some b
      else
        match visit_entry start end_ last_user (it_key it) with
        | VSkip => delete_range fuel (it_next it) start end_ last_user b
        | VStop => Some b
        | VTake uks => delete_range fuel (it_next it) start end_ uks (batch_del b uks)
        end
  end.

(** ** [Server::processRequest] *)

Definition status_response (s : Status) : bytes :=
  if ok s then encodeResponse RsOk [] else encodeResponse RsError (st_msg s).

Definition process_scan (st : St) (start end_ : bytes) : option (St * bytes) :=
  '(st, it) ← dbo_newIterator st;
  let it := it_seekToFirst it in
  '(it, items) ← scan_range (S (dbo_size it)) it start end_ [] [];
  if negb (ok (it_status it)) then Some (st, encodeResponse RsError (st_msg (it_status it)))
  else Some (st, encodeResponse RsOk (encodeScanPayload items)).

Definition process_batch (st : St) (val : bytes) : option (St * bytes) :=
  if zlen val <? 4 then Some (st, encodeResponse RsError (bs "bad batch"))
  else
    count ← decodeFixed32 val;
    r ← parse_batch (length val) count (drop 4 val) [];
    match r with
    | ParseError msg => Some (st, encodeResponse RsError msg)
    | Parsed batch => '(st, s) ← dbo_write st batch; Some (st, status_response s)
    end.

Definition process_delete_range (st : St) (start end_ : bytes) : option (St * bytes) :=
  '(st, it) ← dbo_newIterator st;
  let it := it_seekToFirst it in
  batch ← delete_range (S (dbo_size it)) it start end_ [] [];
  if batch_count batch =? 0 then Some (st, encodeResponse RsOk [])
  else '(st, s) ← dbo_write st batch; Some (st, status_response s).

Definition processRequest (st : St) (rawData : bytes) : option (St * bytes) :=
  if decide (length rawData < kRequestHeader)%nat then Some (st, encodeResponse RsError [])
  else if negb (hdr_magic rawData =? kProtocolMagic) then Some (st, encodeResponse RsError (bs "bad magic"))
  else
    let key_len := Z.to_nat (hdr_key_len rawData) in
    let body := drop kRequestHeader rawData in
    let key := read_n key_len body in
    let val := read_n (Z.to_nat (hdr_val_len rawData)) (drop key_len body) in
    match Cmd_of (hdr_cmd rawData) with
    | Some CmdPut =>
        key ← key; val ← val;
        '(st, s) ← dbo_put st key val;
        Some (st, status_response s)
    | Some CmdGet =>
        key ← key;
        '(st, s, value) ← dbo_get st key;
        Some (st, if ok s then encodeResponse RsOk (default [] value) else encodeResponse RsNotFound [])
    | Some CmdDel =>
        key ← key;
        '(st, s) ← dbo_del st key;
        Some (st, status_response s)
    | Some CmdScan => key ← key; val ← val; process_scan st key val
    | Some CmdBatch => val ← val; process_batch st val
    | Some CmdDeleteRange => key ← key; val ← val; process_delete_range st key val
    | None => Some (st, encodeResponse RsError (bs "Unknown command"))
    end.
End Server.
