(* ===== verification/ServerProofs.v ===== *)
(** * Request processing: memory safety, payload round trips, range scans *)

From Stdlib Require Import ZArith Lia.
From stdpp Require Import base numbers strings list gmap.
From S2P Require Import Prelude CppString Coding Slice InternalKey SkipHeap SkipList Versions MemTable Network ConnectionProofs Server.
Local Open Scope Z_scope.

(** ** Parsing a batch *)

Lemma read_n_some n (p : bytes) : (n <= length p)%nat -> read_n n p = Some (take n p).
Proof. intros Hn. rewrite <- (take_drop n p) at 1. apply read_n_app. rewrite length_take. lia. Qed.

Lemma decodeFixed32_some (p : bytes) : (4 <= length p)%nat -> exists v, decodeFixed32 p = Some v /\ 0 <= v < 2 ^ 32.
Proof.
  intros Hp. assert (decodeFixed32 p = Some (le_combine (take 4 p))) as E.
  { rewrite <- (take_drop 4 p) at 1. apply decodeFixed32_combine. rewrite length_take. lia. }
  eexists. split; [done|]. by eapply decodeFixed32_range.
Qed.

(** Parsing never reads outside the payload and always ends. *)
Lemma parse_batch_safe fuel count p b : (length p < fuel)%nat -> is_Some (parse_batch fuel count p b).
Proof.
  revert count p b. induction fuel as [|fuel IH]; intros count p b Hf; [lia|]. cbn [parse_batch].
  destruct (count <=? 0); [done|]. destruct (Z.ltb_spec (zlen p) (1 + 4)) as [|Hp]; [done|]. unfold zlen in Hp.
  destruct p as [|op p]; [simpl in Hp; lia|]. cbn [head mbind option_bind drop]. simpl in Hp, Hf.
  destruct (decodeFixed32_some (drop 0 p)) as (klen & -> & Hk); [rewrite drop_0; lia|]. rewrite drop_0. cbn [mbind option_bind].
  destruct (Z.ltb_spec (zlen (drop 4 p)) (klen + 4)) as [|Hp1]; [done|]. unfold zlen in Hp1. rewrite length_drop in Hp1.
  rewrite read_n_some by (rewrite length_drop; lia). cbn [mbind option_bind].
  destruct (decodeFixed32_some (drop (Z.to_nat klen) (drop 4 p))) as (vlen & -> & Hv); [rewrite !length_drop; lia|].
  cbn [mbind option_bind]. set (q := drop 4 (drop (Z.to_nat klen) (drop 4 p))).
  destruct (Z.ltb_spec (zlen q) vlen) as [|Hp2]; [done|]. unfold zlen in Hp2.
  rewrite read_n_some by lia. cbn [mbind option_bind].
  assert (length (drop (Z.to_nat vlen) q) < fuel)%nat as Hlt by (unfold q; rewrite !length_drop; lia).
  destruct (_ =? _); [by apply IH|]. destruct (_ =? _); [by apply IH|done].
Qed.

(** The payload of a batch, as clients build it. *)
Definition batch_item (op : BatchOp) : bytes :=
  z2b (BatchOpType_code (op_type op)) :: encodeFixed32 (u32 (zlen (op_key op))) ++ op_key op ++
  encodeFixed32 (u32 (zlen (op_value op))) ++ op_value op.
Definition encodeBatchPayload (ops : list BatchOp) : bytes :=
  encodeFixed32 (u32 (zlen ops)) ++ concat (batch_item <$> ops).

(** A deletion carries no value. *)
Definition strip (op : BatchOp) : BatchOp :=
  match op_type op with bPut => op | bDelete => mkOp bDelete (op_key op) [] end.

Definition op_fits (op : BatchOp) : Prop := zlen (op_key op) < 2 ^ 32 /\ zlen (op_value op) < 2 ^ 32.

Lemma parse_batch_item fuel count op p b :
  0 < count -> op_fits op ->
  parse_batch (S fuel) count (batch_item op ++ p) b = parse_batch fuel (count - 1) p (b ++ [strip op]).
Proof.
  intros Hc [Hk Hv]. pose proof (zlen_nonneg (op_key op)). pose proof (zlen_nonneg (op_value op)).
  cbn [parse_batch]. destruct (Z.leb_spec count 0) as [|_]; [lia|]. unfold batch_item.
  rewrite !u32_small by lia. cbn [app head mbind option_bind drop]. rewrite <- !app_assoc, drop_0.
  rewrite !zlen_cons, !zlen_app. change (zlen (encodeFixed32 (zlen (op_key op)))) with 4.
  change (zlen (encodeFixed32 (zlen (op_value op)))) with 4. pose proof (zlen_nonneg p).
  destruct (Z.ltb_spec (1 + (4 + (zlen (op_key op) + (4 + (zlen (op_value op) + zlen p))))) (1 + 4)) as [|_]; [lia|].
  rewrite decodeFixed32_encode by lia. cbn [mbind option_bind]. rewrite drop_app_exact by done.
  rewrite !zlen_app. change (zlen (encodeFixed32 (zlen (op_value op)))) with 4.
  destruct (Z.ltb_spec (zlen (op_key op) + (4 + (zlen (op_value op) + zlen p))) (zlen (op_key op) + 4)) as [|_]; [lia|].
  rewrite to_nat_zlen, read_n_app, drop_app_length by done. cbn [mbind option_bind].
  rewrite decodeFixed32_encode by lia. cbn [mbind option_bind]. rewrite drop_app_exact by done. rewrite zlen_app.
  destruct (Z.ltb_spec (zlen (op_value op) + zlen p) (zlen (op_value op))) as [|_]; [lia|].
  rewrite to_nat_zlen, read_n_app, drop_app_length by done. cbn [mbind option_bind].
  rewrite b2z_z2b. unfold strip, batch_put, batch_del. destruct op as [[] k v]; done.
Qed.

Lemma parse_batch_items ops fuel b :
  Forall op_fits ops -> (length ops <= fuel)%nat ->
  parse_batch fuel (zlen ops) (concat (batch_item <$> ops)) b = Some (Parsed (b ++ (strip <$> ops))).
Proof.
  intros Hf. revert fuel b. induction Hf as [|op ops Hop _ IH]; intros fuel b Hn.
  { change (zlen []) with 0. rewrite app_nil_r. by destruct fuel. }
  destruct fuel as [|fuel]; simpl in Hn; [lia|]. rewrite zlen_cons. pose proof (zlen_nonneg ops).
  rewrite fmap_cons, concat_cons, parse_batch_item by (done || lia).
  replace (1 + zlen ops - 1) with (zlen ops) by lia. rewrite IH by lia. by rewrite <- app_assoc.
Qed.

Lemma length_batch_items ops : (9 * length ops <= length (concat (batch_item <$> ops)))%nat.
Proof.
  induction ops as [|op ops IH]; [done|]. rewrite fmap_cons, concat_cons, length_app. unfold batch_item at 1.
  cbn [length]. rewrite !length_app, !length_encodeFixed32. lia.
Qed.

(** The scan payload as a client reads it back. *)
Fixpoint decodeScanItems (fuel : nat) (count : Z) (p : bytes) : option (list (bytes * bytes) * bytes) :=
  if count <=? 0 then Some ([], p)
  else
    match fuel with
    | O => None
    | S fuel =>
        klen ← decodeFixed32 p;
        k ← read_n (Z.to_nat klen) (drop 4 p);
        let p := drop (Z.to_nat klen) (drop 4 p) in
        vlen ← decodeFixed32 p;
        v ← read_n (Z.to_nat vlen) (drop 4 p);
        let p := drop (Z.to_nat vlen) (drop 4 p) in
        '(items, p) ← decodeScanItems fuel (count - 1) p;
        Some ((k, v) :: items, p)
    end.
Definition decodeScanPayload (p : bytes) : option (list (bytes * bytes) * bytes) :=
  count ← decodeFixed32 p;
  decodeScanItems (length p) count (drop 4 p).

Lemma decodeScanItems_ok items fuel rest :
  Forall (fun kv => zlen kv.1 < 2 ^ 32 /\ zlen kv.2 < 2 ^ 32) items -> (length items <= fuel)%nat ->
  decodeScanItems fuel (zlen items) (concat (scan_item <$> items) ++ rest) = Some (items, rest).
Proof.
  intros Hf. revert fuel. induction Hf as [|[k v] items [Hk Hv] _ IH]; intros fuel Hn; [by destruct fuel|].
  destruct fuel as [|fuel]; simpl in Hn; [lia|]. simpl in Hk, Hv. rewrite zlen_cons. pose proof (zlen_nonneg items).
  pose proof (zlen_nonneg k). pose proof (zlen_nonneg v).
  rewrite fmap_cons, concat_cons. set (p := concat _). unfold scan_item. cbn [fst snd decodeScanItems].
  destruct (Z.leb_spec (1 + zlen items) 0) as [|_]; [lia|]. rewrite !u32_small, <- !app_assoc by lia.
  rewrite decodeFixed32_encode by lia. cbn [mbind option_bind]. rewrite !drop_app_exact by done.
  rewrite !to_nat_zlen, read_n_app, drop_app_length by done. cbn [mbind option_bind].
  rewrite decodeFixed32_encode by lia. cbn [mbind option_bind]. rewrite !drop_app_exact by done.
  rewrite !to_nat_zlen, read_n_app, drop_app_length by done. cbn [mbind option_bind].
  replace (1 + zlen items - 1) with (zlen items) by lia. unfold p. rewrite IH by lia. done.
Qed.

(** ** Range loops *)

(** The user keys a range request covers; the empty key is never reported. *)
Definition in_scan (start end_ uk : bytes) : Prop :=
  uk <> [] /\ (start <> [] -> lex uk start <> Lt) /\ (end_ <> [] -> lex uk end_ = Lt).

(** The loops as functions of the entries the iterator has left. *)
Fixpoint scan_list (start end_ last : bytes) (l : list entry) : list (bytes * bytes) :=
  match l with
  | [] => []
  | p :: l =>
      match visit_entry start end_ last p.1 with
      | VSkip => scan_list start end_ last l
      | VStop => []
      | VTake uks => if IsDeletion p.1 then scan_list start end_ uks l else (uks, p.2) :: scan_list start end_ uks l
      end
  end.

Fixpoint range_keys (start end_ last : bytes) (l : list entry) : list bytes :=
  match l with
  | [] => []
  | p :: l =>
      match visit_entry start end_ last p.1 with
      | VSkip => range_keys start end_ last l
      | VStop => []
      | VTake uks => uks :: range_keys start end_ uks l
      end
  end.

Section Loops.
Context {I : Type} `{IterOps I} (rep : I -> list entry -> list entry -> Prop) `{!IterSpec I rep}.

Lemma scan_range_ok fuel it all rest start end_ last items :
  rep it all rest -> (length rest < fuel)%nat ->
  exists it' rest', scan_range fuel it start end_ last items = Some (it', items ++ scan_list start end_ last rest) /\ rep it' all rest'.
Proof.
  revert it rest last items. induction fuel as [|fuel IH]; intros it rest last items Hr Hf; [lia|]. cbn [scan_range].
  rewrite (it_valid_spec _ _ _ Hr). destruct rest as [|p rest]; simpl.
  { exists it, []. by rewrite app_nil_r. }
  destruct (it_current _ _ _ _ Hr) as [-> ->]. simpl in Hf. pose proof (it_next_spec _ _ _ _ Hr) as Hn.
  destruct (visit_entry start end_ last p.1) as [| |uks]; [apply IH; [done|lia]|by exists it, (p :: rest); rewrite app_nil_r|].
  destruct (IsDeletion p.1); [apply IH; [done|lia]|].
  destruct (IH (it_next it) rest uks (items ++ [(uks, p.2)]) Hn ltac:(lia)) as (it' & r' & -> & Hr').
  exists it', r'. by rewrite <- app_assoc.
Qed.

Lemma delete_range_ok fuel it all rest start end_ last b :
  rep it all rest -> (length rest < fuel)%nat ->
  delete_range fuel it start end_ last b = Some (b ++ ((fun k => mkOp bDelete k []) <$> range_keys start end_ last rest)).
Proof.
  revert it rest last b. induction fuel as [|fuel IH]; intros it rest last b Hr Hf; [lia|]. cbn [delete_range].
  rewrite (it_valid_spec _ _ _ Hr). destruct rest as [|p rest]; simpl.
  { by rewrite app_nil_r. }
  destruct (it_current _ _ _ _ Hr) as [-> _]. simpl in Hf. pose proof (it_next_spec _ _ _ _ Hr) as Hn.
  destruct (visit_entry start end_ last p.1) as [| |uks]; [apply IH; [done|lia]|by rewrite app_nil_r|].
  rewrite (IH _ rest) by (done || lia). unfold batch_del. by rewrite <- app_assoc.
Qed.
End Loops.

(** What [visit_entry] decides for a well-formed entry. *)
Lemma visit_entry_cases start end_ last ik :
  wf_ikey ik -> let uk := InternalKeyUserKey ik in
  match visit_entry start end_ last ik with
  | VSkip => (start <> [] /\ lex uk start = Lt) \/ uk = last
  | VStop => end_ <> [] /\ lex uk end_ <> Lt
  | VTake uks => uks = uk /\ uk <> last /\ (start <> [] -> lex uk start <> Lt) /\ (end_ <> [] -> lex uk end_ = Lt)
  end.
Proof.
  intros Hwf uk. unfold visit_entry. rewrite bool_decide_eq_false_2.
  2:{ unfold wf_ikey in Hwf. lia. }
  fold uk. destruct (bool_decide_reflect (start = [])) as [Hs|Hs], (bool_decide_reflect (end_ = [])) as [He|He];
    cbn [negb andb]; destruct (lex uk start) eqn:E1, (lex uk end_) eqn:E2; cbn [is_lt negb];
    try destruct (bool_decide_reflect (uk = last)); repeat split; try tauto; intros; congruence.
Qed.

Lemma sl_wf_cons_inv p l :
  sl_wf (p :: l) -> wf_ikey p.1 /\ sl_wf l /\ forall q, q ∈ l -> lex (InternalKeyUserKey p.1) (InternalKeyUserKey q.1) <> Gt.
Proof.
  intros [Hw Hs]. simpl in Hw, Hs. apply Forall_cons in Hw as [Hp Hw]. inversion_clear Hs as [|? ? Hs' Hall].
  split; [done|]. split; [done|]. intros q Hq. rewrite Forall_forall in Hall, Hw.
  assert (q.1 ∈ l.*1) as Hq1 by by apply list_elem_of_fmap_2. by apply compare_user; [|apply Hw|apply Hall].
Qed.

Lemma visible_cons k p l :
  visible k (p :: l) = if decide (InternalKeyUserKey p.1 = k) then live p else visible k l.
Proof. unfold visible. rewrite newest_cons. by case_decide. Qed.

Lemma visible_user k l v : visible k l = Some v -> exists q, q ∈ l /\ InternalKeyUserKey q.1 = k.
Proof.
  unfold visible. destruct (newest k l) as [q|] eqn:E; [|done]. intros _. exists q. by apply newest_elem in E.
Qed.

Lemma lex_le_lt_trans a b c : lex a b <> Gt -> lex b c = Lt -> lex a c = Lt.
Proof.
  intros H1 H2. destruct (lex a b) eqn:E; [apply lex_eq_iff in E as ->; done|by eapply lex_trans|done].
Qed.

Lemma lex_lt_le a b : lex a b <> Gt -> a <> b -> lex a b = Lt.
Proof. intros H1 H2. destruct (lex a b) eqn:E; [apply lex_eq_iff in E; done|done|done]. Qed.

(** The keys of later entries are above the key just taken, and past the end once one is. *)
Lemma later_keys last (p : entry) (l : list entry) k :
  lex last (InternalKeyUserKey p.1) <> Gt -> InternalKeyUserKey p.1 <> last ->
  (forall q, q ∈ l -> lex (InternalKeyUserKey p.1) (InternalKeyUserKey q.1) <> Gt) ->
  (exists q, q ∈ p :: l /\ InternalKeyUserKey q.1 = k) -> k <> last.
Proof.
  intros Hle Hne Hl (q & [->|Hq]%elem_of_cons & <-); [done|]. specialize (Hl q Hq). intros Heq. rewrite Heq in Hl.
  apply Hl. apply lex_gt_lt. by apply lex_lt_le.
Qed.

Lemma past_end (p : entry) (l : list entry) k end_ :
  lex (InternalKeyUserKey p.1) end_ <> Lt ->
  (forall q, q ∈ l -> lex (InternalKeyUserKey p.1) (InternalKeyUserKey q.1) <> Gt) ->
  (exists q, q ∈ p :: l /\ InternalKeyUserKey q.1 = k) -> lex k end_ <> Lt.
Proof.
  intros He Hl (q & [->|Hq]%elem_of_cons & <-); [done|]. intros Hlt. apply He. eapply lex_le_lt_trans; [by apply Hl|done].
Qed.

Lemma scan_list_elem start end_ l : forall last, sl_wf l -> (forall p, p ∈ l -> lex last (InternalKeyUserKey p.1) <> Gt) ->
  forall k v, (k, v) ∈ scan_list start end_ last l <->
    k <> last /\ (start <> [] -> lex k start <> Lt) /\ (end_ <> [] -> lex k end_ = Lt) /\ visible k l = Some v.
Proof.
  induction l as [|p l IH]; intros last Hwf Hle k v; cbn [scan_list].
  { split; [by intros ?%not_elem_of_nil|]. by intros (_ & _ & _ & ?). }
  destruct (sl_wf_cons_inv p l Hwf) as (Hp & Hwf' & Hl). rewrite visible_cons.
  assert (forall q, q ∈ l -> lex last (InternalKeyUserKey q.1) <> Gt) as Hle' by (intros q Hq; apply Hle; by right).
  pose proof (visit_entry_cases start end_ last p.1 Hp) as Hv. simpl in Hv.
  destruct (visit_entry start end_ last p.1) as [| |uks].
  - rewrite (IH last Hwf' Hle'). case_decide as Hk; [|done]. rewrite <- Hk. destruct Hv as [[Hs Hlt]|Heq]; [|by rewrite Heq; tauto].
    split; intros (_ & H1 & _); by destruct (H1 Hs).
  - split; [by intros ?%not_elem_of_nil|]. intros (_ & _ & He & Hvis). destruct Hv as [Hne Hge]. exfalso.
    apply (past_end p l k end_ Hge Hl); [|by apply He].
    case_decide as Hk; [by exists p; split; [left|]|]. destruct (visible_user _ _ _ Hvis) as (q & Hq & Hqk). exists q. split; [by right|done].
  - destruct Hv as (-> & Hne & Hs & He). set (uk := InternalKeyUserKey p.1) in *.
    assert (forall k v, (k, v) ∈ scan_list start end_ uk l <->
      k <> uk /\ (start <> [] -> lex k start <> Lt) /\ (end_ <> [] -> lex k end_ = Lt) /\ visible k l = Some v) as IH' by by apply IH.
    assert (visible k l = Some v -> k <> last) as Hlast.
    { intros (q & Hq & Hqk)%visible_user. apply (later_keys last p l k); [apply Hle; left|done|done|]. exists q. split; [by right|done]. }
    unfold live. destruct (IsDeletion p.1); rewrite ?elem_of_cons, IH'; case_decide as Hk.
    + split; [intros (? & _); congruence|by intros (_ & _ & _ & ?)].
    + split; [|intros (? & ? & ? & ?); repeat split; [congruence|done..]]. intros (? & ? & ? & Hx). by repeat split; auto.
    + split; [intros [[= _ ->]|(? & _)]; [subst k; by repeat split|congruence]|]. intros (_ & _ & _ & [= ->]). left. by rewrite <- Hk.
    + split; [intros [[= -> _]|(? & ? & ? & Hx)]; [done|by repeat split; auto]|]. intros (_ & ? & ? & ?). right. repeat split; [congruence|done..].
Qed.

Lemma scan_list_sorted start end_ l : forall last, sl_wf l -> (forall p, p ∈ l -> lex last (InternalKeyUserKey p.1) <> Gt) ->
  sorted_by lex (scan_list start end_ last l).*1.
Proof.
  induction l as [|p l IH]; intros last Hwf Hle; cbn [scan_list]; [constructor|].
  destruct (sl_wf_cons_inv p l Hwf) as (Hp & Hwf' & Hl).
  assert (forall q, q ∈ l -> lex last (InternalKeyUserKey q.1) <> Gt) as Hle' by (intros q Hq; apply Hle; by right).
  pose proof (visit_entry_cases start end_ last p.1 Hp) as Hv. simpl in Hv.
  destruct (visit_entry start end_ last p.1) as [| |uks]; [by apply IH|constructor|]. destruct Hv as (-> & _).
  destruct (IsDeletion p.1); [by apply IH|]. cbn [fmap list_fmap fst]. constructor; [by apply IH|].
  apply Forall_forall. intros k ([k' v] & -> & Hk)%list_elem_of_fmap. apply scan_list_elem in Hk as (Hne & _ & _ & Hv); [|done..].
  simpl. destruct (visible_user _ _ _ Hv) as (q & Hq & <-). apply lex_lt_le; [by apply Hl|congruence].
Qed.

Lemma range_keys_elem start end_ l : forall last, sl_wf l -> (forall p, p ∈ l -> lex last (InternalKeyUserKey p.1) <> Gt) ->
  forall k, k ∈ range_keys start end_ last l <->
    k <> last /\ (start <> [] -> lex k start <> Lt) /\ (end_ <> [] -> lex k end_ = Lt) /\
    exists q, q ∈ l /\ InternalKeyUserKey q.1 = k.
Proof.
  induction l as [|p l IH]; intros last Hwf Hle k; cbn [range_keys].
  { split; [by intros ?%not_elem_of_nil|]. by intros (_ & _ & _ & q & ?%not_elem_of_nil & _). }
  destruct (sl_wf_cons_inv p l Hwf) as (Hp & Hwf' & Hl).
  assert (forall q, q ∈ l -> lex last (InternalKeyUserKey q.1) <> Gt) as Hle' by (intros q Hq; apply Hle; by right).
  pose proof (visit_entry_cases start end_ last p.1 Hp) as Hv. simpl in Hv.
  destruct (visit_entry start end_ last p.1) as [| |uks].
  - rewrite (IH last Hwf' Hle'). split.
    + intros (? & ? & ? & q & ? & ?). repeat split; [done..|]. exists q. split; [by right|done].
    + intros (? & H1 & ? & q & [->|Hq]%elem_of_cons & <-); [|by eauto 10].
      destruct Hv as [[Hs Hlt]|Heq]; [by destruct (H1 Hs)|congruence].
  - split; [by intros ?%not_elem_of_nil|]. intros (_ & _ & He & Hq). destruct Hv as [Hne Hge]. exfalso.
    apply (past_end p l k end_ Hge Hl Hq). by apply He.
  - destruct Hv as (-> & Hne & Hs & He). rewrite elem_of_cons, (IH _ Hwf' Hl). split.
    + intros [->|(? & ? & ? & q & ? & ?)].
      * repeat split; [done..|]. exists p. split; [left|done].
      * assert (exists q, q ∈ p :: l /\ InternalKeyUserKey q.1 = k) as Hq by (exists q; split; [by right|done]).
        repeat split; [|done..]. by apply (later_keys last p l k); [apply Hle; left|..].
    + intros (? & ? & ? & q & [->|Hq]%elem_of_cons & <-); [by left|].
      destruct (decide (InternalKeyUserKey q.1 = InternalKeyUserKey p.1)) as [|Hn]; [by left|right].
      repeat split; [done..|]. by exists q.
Qed.

(** ** Sessions *)

(** The requests of the protocol. *)
Inductive Request :=
| RPut (k v : bytes) | RGet (k : bytes) | RDel (k : bytes) | RScan (start end_ : bytes)
| RBatch (ops : list BatchOp) | RDeleteRange (start end_ : bytes).

Definition request_bytes (r : Request) : bytes :=
  match r with
  | RPut k v => encodeRequest CmdPut k v
  | RGet k => encodeRequest CmdGet k []
  | RDel k => encodeRequest CmdDel k []
  | RScan s e => encodeRequest CmdScan s e
  | RBatch ops => encodeRequest CmdBatch [] (encodeBatchPayload ops)
  | RDeleteRange s e => encodeRequest CmdDeleteRange s e
  end.

Definition request_fits (r : Request) : Prop :=
  match r with
  | RPut k v | RScan k v | RDeleteRange k v => zlen k < 2 ^ 32 /\ zlen v < 2 ^ 32
  | RGet k | RDel k => zlen k < 2 ^ 32
  | RBatch ops => zlen (encodeBatchPayload ops) < 2 ^ 32
  end.

(** The answer to a scan: the live keys of the range, in order, with their values. *)
Definition scan_answer (m : gmap bytes bytes) (start end_ : bytes) (items : list (bytes * bytes)) : Prop :=
  sorted_by lex items.*1 /\ forall k v, (k, v) ∈ items <-> in_scan start end_ k /\ m !! k = Some v.

(** What each request does to the map and answers. *)
Inductive answers : gmap bytes bytes -> Request -> gmap bytes bytes -> bytes -> Prop :=
| ans_put m k v : answers m (RPut k v) (<[k := v]> m) (encodeResponse RsOk [])
| ans_get m k v : m !! k = Some v -> answers m (RGet k) m (encodeResponse RsOk v)
| ans_get_none m k : m !! k = None -> answers m (RGet k) m (encodeResponse RsNotFound [])
| ans_del m k : answers m (RDel k) (delete k m) (encodeResponse RsOk [])
| ans_scan m s e items : scan_answer m s e items -> answers m (RScan s e) m (encodeResponse RsOk (encodeScanPayload items))
| ans_batch m ops : answers m (RBatch ops) (map_ops (strip <$> ops) m) (encodeResponse RsOk [])
| ans_delete_range m m' s e :
    (forall k, in_scan s e k -> m' !! k = None) -> (forall k, ~ in_scan s e k -> m' !! k = m !! k) ->
    answers m (RDeleteRange s e) m' (encodeResponse RsOk []).

Inductive session : gmap bytes bytes -> list Request -> gmap bytes bytes -> list bytes -> Prop :=
| session_nil m : session m [] m []
| session_cons m r m1 resp rs m2 resps :
    answers m r m1 resp -> session m1 rs m2 resps -> session m (r :: rs) m2 (resp :: resps).

(** Memory after a request: a range deletion writes at most one tombstone per entry. *)
Definition cost (used : Z) (r : Request) : Z :=
  match r with
  | RPut k v => used + ops_bytes [mkOp bPut k v]
  | RDel k => used + ops_bytes [mkOp bDelete k []]
  | RBatch ops => used + ops_bytes (strip <$> ops)
  | RDeleteRange _ _ => used + used
  | RGet _ | RScan _ _ => used
  end.

Lemma parse_request cmd key value :
  zlen key < 2 ^ 32 -> zlen value < 2 ^ 32 -> let raw := encodeRequest cmd key value in
  ~ (length raw < kRequestHeader)%nat /\ hdr_magic raw = kProtocolMagic /\ Cmd_of (hdr_cmd raw) = Some cmd /\
  read_n (Z.to_nat (hdr_key_len raw)) (drop kRequestHeader raw) = Some key /\
  read_n (Z.to_nat (hdr_val_len raw)) (drop (Z.to_nat (hdr_key_len raw)) (drop kRequestHeader raw)) = Some value.
Proof.
  intros Hk Hv raw. destruct (encodeRequest_fields cmd key value [] Hk Hv) as (E1 & E2 & E3 & E4 & E5).
  rewrite !app_nil_r in *. fold raw in E1, E2, E3, E4, E5. rewrite E1, E2, E3, E4, E5, !to_nat_zlen, drop_app_length.
  split; [unfold raw; rewrite length_encodeRequest; lia|]. split; [done|]. split; [apply Cmd_of_code|].
  split; [by apply read_n_app|]. rewrite <- (app_nil_r value) at 2. by apply read_n_app.
Qed.

Lemma map_ops_del_lookup ks m k :
  map_ops ((fun k => mkOp bDelete k []) <$> ks) m !! k = if decide (k ∈ ks) then None else m !! k.
Proof.
  unfold map_ops. revert m. induction ks as [|x ks IH]; intros m; [done|]. rewrite fmap_cons. cbn [foldl]. rewrite IH.
  unfold map_op. cbn [op_type op_key]. destruct (decide (k ∈ ks)) as [Hk|Hk]; [by rewrite decide_True by (by right)|].
  destruct (decide (x = k)) as [->|Hne]; [by rewrite lookup_delete_eq, decide_True by left|].
  rewrite lookup_delete_ne, decide_False by (done || set_solver). done.
Qed.

Lemma range_keys_bytes start end_ last l :
  Forall wf_ikey l.*1 -> ops_bytes ((fun k => mkOp bDelete k []) <$> range_keys start end_ last l) <= sl_bytes l.
Proof.
  revert last. induction l as [|p l IH]; intros last Hwf; simpl in Hwf; [done|]. apply Forall_cons in Hwf as [Hp Hwf].
  rewrite sl_bytes_cons. pose proof (zlen_nonneg p.1). pose proof (zlen_nonneg p.2). pose proof (sl_bytes_nonneg l).
  cbn [range_keys]. pose proof (visit_entry_cases start end_ last p.1 Hp) as Hv.
  destruct (visit_entry start end_ last p.1) as [| |uks]; [specialize (IH last Hwf); unfold sizeof_SkipNode; lia|simpl; unfold sizeof_SkipNode; lia|].
  destruct Hv as (-> & _). rewrite fmap_cons. cbn [ops_bytes foldr op_key op_value]. fold (ops_bytes ((fun k => mkOp bDelete k []) <$> range_keys start end_ (InternalKeyUserKey p.1) l)).
  specialize (IH (InternalKeyUserKey p.1) Hwf). rewrite zlen_nil.
  assert (zlen (InternalKeyUserKey p.1) + 8 = zlen p.1) as Hu.
  { unfold InternalKeyUserKey. unfold wf_ikey, kTrailerBytes in Hp. rewrite decide_False by (unfold kTrailerBytes; lia).
    unfold zlen. rewrite length_take. unfold kTrailerBytes. lia. }
  lia.
Qed.

Lemma payload_fits ops : zlen (encodeBatchPayload ops) < 2 ^ 32 -> Forall op_fits ops /\ zlen ops < 2 ^ 32.
Proof.
  unfold encodeBatchPayload. rewrite zlen_app. change (zlen (encodeFixed32 (u32 (zlen ops)))) with 4. intros Hz.
  split; [|pose proof (length_batch_items ops); unfold zlen in *; lia].
  induction ops as [|op ops IH]; [done|]. rewrite fmap_cons, concat_cons, zlen_app in Hz.
  assert (zlen (batch_item op) = 9 + zlen (op_key op) + zlen (op_value op)) as Hi.
  { unfold batch_item. rewrite zlen_cons, !zlen_app. change (zlen (encodeFixed32 (u32 (zlen (op_key op))))) with 4.
    change (zlen (encodeFixed32 (u32 (zlen (op_value op))))) with 4. lia. }
  pose proof (zlen_nonneg (concat (batch_item <$> ops))). pose proof (zlen_nonneg (op_key op)). pose proof (zlen_nonneg (op_value op)).
  constructor; [split; lia|]. apply IH. lia.
Qed.

Section Session.
Context {St I : Type} `{DBOps St I} (limit : Z) (rep : Z -> St -> gmap bytes bytes -> Prop)
  (irep : I -> list entry -> list entry -> Prop) `{HDL : !DBLaws St I limit rep irep}.

Lemma process_scan_ok used st m start end_ :
  rep used st m -> exists st' items, process_scan st start end_ = Some (st', encodeResponse RsOk (encodeScanPayload items)) /\
    scan_answer m start end_ items /\ rep used st' m.
Proof.
  intros Hr. destruct (dbl_newIterator used st m Hr) as (st' & it & all & rest & E & Hr' & Hi & Hwf & Hvis & Hlen & _).
  unfold process_scan. rewrite E. cbn [mbind option_bind]. pose proof (it_first_spec (rep := irep) _ _ _ Hi) as Hi'.
  destruct (scan_range_ok irep (S (dbo_size (it_seekToFirst it))) (it_seekToFirst it) all all start end_ [] [] Hi')
    as (it' & r' & -> & Hi''); [lia|]. cbn [mbind option_bind].
  rewrite (it_status_spec (rep := irep) _ _ _ Hi''). simpl (negb (ok SOk)). cbn iota.
  exists st', (scan_list start end_ [] all). split; [done|]. split; [|done].
  assert (forall p, p ∈ all -> lex [] (InternalKeyUserKey p.1) <> Gt) as Hle by (intros p _; by destruct (InternalKeyUserKey p.1)).
  split; [by apply scan_list_sorted|]. intros k v. rewrite (scan_list_elem start end_ all [] Hwf Hle), Hvis. unfold in_scan. tauto.
Qed.

Lemma process_delete_range_ok used st m start end_ :
  rep used st m -> used + used < limit ->
  exists st' m' used', process_delete_range st start end_ = Some (st', encodeResponse RsOk []) /\
    answers m (RDeleteRange start end_) m' (encodeResponse RsOk []) /\ rep used' st' m' /\ used' <= used + used.
Proof.
  intros Hr Hu. destruct (dbl_newIterator used st m Hr) as (st1 & it & all & rest & E & Hr' & Hi & Hwf & Hvis & Hlen & Hb).
  unfold process_delete_range. rewrite E. cbn [mbind option_bind]. pose proof (it_first_spec (rep := irep) _ _ _ Hi) as Hi'.
  rewrite (delete_range_ok irep _ (it_seekToFirst it) all all start end_ [] [] Hi') by lia. cbn [mbind option_bind app].
  set (ks := range_keys start end_ [] all). set (dels := (fun k => mkOp bDelete k []) <$> ks).
  pose proof (range_keys_bytes start end_ [] all (proj1 Hwf)) as Hc. fold ks dels in Hc. pose proof (ops_bytes_nonneg dels).
  assert (answers m (RDeleteRange start end_) (map_ops dels m) (encodeResponse RsOk [])) as Ha.
  { assert (forall p, p ∈ all -> lex [] (InternalKeyUserKey p.1) <> Gt) as Hle by (intros p _; by destruct (InternalKeyUserKey p.1)).
    constructor; intros k Hk; unfold dels; rewrite map_ops_del_lookup; unfold ks.
    - destruct (decide _) as [|Hn]; [done|]. destruct (m !! k) as [v|] eqn:Em; [|done]. exfalso. apply Hn.
      apply range_keys_elem; [done..|]. destruct Hk as (? & ? & ?). repeat split; [done..|]. apply (visible_user k all v). by rewrite Hvis.
    - rewrite decide_False; [done|]. intros (? & ? & ? & _)%range_keys_elem; [|done..]. by apply Hk. }
  destruct (Z.eqb_spec (batch_count dels) 0) as [Hz|Hz].
  - exists st1, m, used. split; [done|]. split; [|split; [done|lia]].
    assert (dels = []) as E0 by (destruct dels; [done|unfold batch_count in Hz; rewrite zlen_cons in Hz; pose proof (zlen_nonneg dels); lia]).
    by rewrite E0 in Ha.
  - destruct (dbl_write used st1 m dels Hr') as (st2 & -> & Hr2); [lia|]. cbn [mbind option_bind].
    exists st2, (map_ops dels m), (used + ops_bytes dels). split; [done|]. split; [done|]. split; [done|lia].
Qed.

Lemma process_batch_ok used st m ops :
  rep used st m -> zlen (encodeBatchPayload ops) < 2 ^ 32 -> used + ops_bytes (strip <$> ops) < limit ->
  exists st', process_batch st (encodeBatchPayload ops) = Some (st', encodeResponse RsOk []) /\
    rep (used + ops_bytes (strip <$> ops)) st' (map_ops (strip <$> ops) m).
Proof.
  intros Hr Hz Hc. destruct (payload_fits ops Hz) as [Hf Hn]. unfold process_batch. pose proof (zlen_nonneg ops).
  set (val := encodeBatchPayload ops). assert (val = encodeFixed32 (zlen ops) ++ concat (batch_item <$> ops)) as Ev.
  { unfold val, encodeBatchPayload. by rewrite u32_small by lia. }
  rewrite Ev. rewrite zlen_app. change (zlen (encodeFixed32 (zlen ops))) with 4. pose proof (zlen_nonneg (concat (batch_item <$> ops))).
  destruct (Z.ltb_spec (4 + zlen (concat (batch_item <$> ops))) 4) as [|_]; [lia|].
  rewrite decodeFixed32_encode by lia. cbn [mbind option_bind]. rewrite drop_app_exact by done.
  rewrite parse_batch_items; [|done|rewrite length_app; pose proof (length_batch_items ops); lia]. cbn [mbind option_bind app].
  destruct (dbl_write used st m (strip <$> ops) Hr Hc) as (st' & -> & Hr'). cbn [mbind option_bind]. by exists st'.
Qed.

Lemma processRequest_ok used st m r :
  rep used st m -> request_fits r -> cost used r < limit ->
  exists st' m' resp used', processRequest st (request_bytes r) = Some (st', resp) /\ answers m r m' resp /\
    rep used' st' m' /\ used' <= cost used r.
Proof.
  intros Hr Hf Hc. destruct r as [k v|k|k|s e|ops|s e]; simpl in Hf, Hc; cbn [request_bytes cost].
  - destruct (parse_request CmdPut k v) as (E1 & E2 & E3 & E4 & E5); [tauto..|]. unfold processRequest.
    rewrite decide_False, E2, E3, E4, E5 by done. simpl. destruct (dbl_put used st m k v Hr Hc) as (st' & -> & Hr').
    simpl. do 4 eexists. split; [done|]. split; [constructor|]. split; [done|simpl; lia].
  - destruct (parse_request CmdGet k []) as (E1 & E2 & E3 & E4 & E5); [done..|]. unfold processRequest.
    rewrite decide_False, E2, E3, E4 by done. simpl. destruct (dbl_get used st m k Hr) as (st' & -> & Hr').
    cbn [mbind option_bind]. destruct (m !! k) as [v|] eqn:Em; simpl; do 4 eexists; (split; [done|]); (split; [by constructor|]); (split; [done|lia]).
  - destruct (parse_request CmdDel k []) as (E1 & E2 & E3 & E4 & E5); [done..|]. unfold processRequest.
    rewrite decide_False, E2, E3, E4 by done. simpl. destruct (dbl_del used st m k Hr Hc) as (st' & -> & Hr').
    simpl. do 4 eexists. split; [done|]. split; [constructor|]. split; [done|simpl; lia].
  - destruct (parse_request CmdScan s e) as (E1 & E2 & E3 & E4 & E5); [tauto..|]. unfold processRequest.
    rewrite decide_False, E2, E3, E4, E5 by done. cbn [negb mbind option_bind]. rewrite Z.eqb_refl. cbn [negb].
    destruct (process_scan_ok used st m s e Hr) as (st' & items & -> & Ha & Hr').
    do 4 eexists. split; [done|]. split; [by constructor|]. split; [done|lia].
  - destruct (parse_request CmdBatch [] (encodeBatchPayload ops)) as (E1 & E2 & E3 & E4 & E5); [done..|]. unfold processRequest.
    rewrite decide_False, E2, E3, E5 by done. rewrite Z.eqb_refl. cbn [negb mbind option_bind].
    destruct (process_batch_ok used st m ops Hr Hf Hc) as (st' & -> & Hr').
    do 4 eexists. split; [done|]. split; [by constructor|]. split; [done|lia].
  - destruct (parse_request CmdDeleteRange s e) as (E1 & E2 & E3 & E4 & E5); [tauto..|]. unfold processRequest.
    rewrite decide_False, E2, E3, E4, E5 by done. rewrite Z.eqb_refl. cbn [negb mbind option_bind].
    destruct (process_delete_range_ok used st m s e Hr Hc) as (st' & m' & used' & -> & Ha & Hr' & Hu).
    by exists st', m', (encodeResponse RsOk []), used'.
Qed.

Lemma cost_mono used1 used2 r : used1 <= used2 -> cost used1 r <= cost used2 r.
Proof. intros Hu. destruct r; simpl; lia. Qed.

Lemma serve_session reqs : forall used used0 st m,
  rep used st m -> used <= used0 -> 0 <= used0 -> Forall request_fits reqs -> foldl cost used0 reqs < limit ->
  exists st' m' resps, serve_all processRequest st (request_bytes <$> reqs) = Some (st', resps) /\ session m reqs m' resps /\
    exists used', rep used' st' m' /\ used' <= foldl cost used0 reqs.
Proof.
  assert (forall reqs u, 0 <= u -> u <= foldl cost u reqs) as Hup.
  { intros rs. induction rs as [|r rs IH]; intros u Hu; simpl; [lia|].
    assert (u <= cost u r) as Hcu by (destruct r; cbn [cost]; rewrite ?Z.add_0_r; try lia;
      match goal with |- _ <= _ + ops_bytes ?b => pose proof (ops_bytes_nonneg b); lia end).
    pose proof (IH (cost u r) ltac:(lia)). lia. }
  induction reqs as [|r reqs IH]; intros used used0 st m Hr Hu Hpos Hf Hc; rewrite ?fmap_cons; cbn [serve_all].
  { exists st, m, []. split; [done|]. split; [constructor|]. exists used. simpl. auto. }
  apply Forall_cons in Hf as [Hf1 Hf]. simpl in Hc.
  assert (0 <= cost used0 r) as Hc0 by (destruct r; cbn [cost]; try lia;
      match goal with |- _ <= _ + ops_bytes ?b => pose proof (ops_bytes_nonneg b); lia end).
  pose proof (Hup reqs (cost used0 r) Hc0). pose proof (cost_mono used used0 r Hu).
  destruct (processRequest_ok used st m r Hr Hf1) as (st1 & m1 & resp & used1 & -> & Ha & Hr1 & Hu1); [lia|]. cbn [mbind option_bind].
  destruct (IH used1 (cost used0 r) st1 m1 Hr1) as (st2 & m2 & resps & E & Hs & used2 & Hr2 & Hu2); [lia|done..|].
  rewrite E. cbn [mbind option_bind]. exists st2, m2, (resp :: resps). split; [done|]. split; [by econstructor|]. by exists used2.
Qed.
End Session.

Lemma framed_requests reqs :
  Forall request_fits reqs -> framed (concat (request_bytes <$> reqs)) (request_bytes <$> reqs) [] false.
Proof.
  intros Hf. rewrite <- (app_nil_r (concat _)). apply framed_concat; [|done]. apply Forall_fmap.
  eapply Forall_impl; [exact Hf|]. intros r Hr. unfold compose, is_frame. rewrite <- (app_nil_r (request_bytes r)) at 1.
  destruct r; simpl in Hr; cbn [request_bytes]; apply cut_encodeRequest; (done || tauto).
Qed.

(** ** Every frame is answered *)

Section Answers.
Context {St I : Type} `{DBOps St I}.

(** The iterator runs out within [n] rounds. *)
Fixpoint runs_out (n : nat) (it : I) : Prop :=
  it_valid it = false \/ match n with O => False | S n => runs_out n (it_next it) end.

(** The operations of the store return, whatever their arguments. *)
Record db_answers (st : St) : Prop := {
  da_put k v : is_Some (dbo_put st k v);
  da_get k : is_Some (dbo_get st k);
  da_del k : is_Some (dbo_del st k);
  da_write b : is_Some (dbo_write st b);
  da_iter : exists st' it, dbo_newIterator st = Some (st', it) /\ (forall b, is_Some (dbo_write st' b)) /\
    runs_out (dbo_size (it_seekToFirst it)) (it_seekToFirst it);
}.

Definition responds (r : option (St * bytes)) : Prop :=
  exists st status value, r = Some (st, encodeResponse status value).

Lemma responds_error st status value : responds (Some (st, encodeResponse status value)).
Proof. by do 3 eexists. Qed.

Lemma responds_status (st : St) s : responds (Some (st, status_response s)).
Proof. unfold status_response. destruct (ok s); apply responds_error. Qed.

Lemma responds_write (r : option (St * Status)) : is_Some r -> responds ('(st, s) ← r; Some (st, status_response s)).
Proof. intros [[st s] ->]. apply responds_status. Qed.

Lemma scan_range_ends n it start end_ last items : runs_out n it -> is_Some (scan_range (S n) it start end_ last items).
Proof.
  revert it last items. induction n as [|n IH]; intros it last items [Hv|Hn]; cbn [scan_range]; [by rewrite Hv|done|by rewrite Hv|].
  destruct (it_valid it); [|done]. cbn [negb]. destruct (visit_entry _ _ _ _); [by apply IH|done|]. destruct (IsDeletion _); by apply IH.
Qed.

Lemma delete_range_ends n it start end_ last b : runs_out n it -> is_Some (delete_range (S n) it start end_ last b).
Proof.
  revert it last b. induction n as [|n IH]; intros it last b [Hv|Hn]; cbn [delete_range]; [by rewrite Hv|done|by rewrite Hv|].
  destruct (it_valid it); [|done]. cbn [negb]. destruct (visit_entry _ _ _ _); [by apply IH|done|by apply IH].
Qed.

Lemma process_scan_answers st start end_ : db_answers st -> responds (process_scan st start end_).
Proof.
  intros Hd. destruct (da_iter st Hd) as (st' & it & E & _ & Hr). unfold process_scan. rewrite E. cbn [mbind option_bind].
  destruct (scan_range_ends _ _ start end_ [] [] Hr) as [[it' items] ->]. cbn [mbind option_bind].
  destruct (negb (ok (it_status it'))); apply responds_error.
Qed.

Lemma process_delete_range_answers st start end_ : db_answers st -> responds (process_delete_range st start end_).
Proof.
  intros Hd. destruct (da_iter st Hd) as (st' & it & E & Hw & Hr). unfold process_delete_range. rewrite E. cbn [mbind option_bind].
  destruct (delete_range_ends _ _ start end_ [] [] Hr) as [b ->]. cbn [mbind option_bind].
  destruct (_ =? _); [apply responds_error|]. by apply responds_write.
Qed.

Lemma process_batch_answers st val : db_answers st -> responds (process_batch st val).
Proof.
  intros Hd. unfold process_batch. destruct (Z.ltb_spec (zlen val) 4) as [|H4]; [apply responds_error|]. unfold zlen in H4.
  destruct (decodeFixed32_some val) as (count & -> & _); [lia|]. cbn [mbind option_bind].
  destruct (parse_batch_safe (length val) count (drop 4 val) []) as [r ->]; [rewrite length_drop; lia|]. cbn [mbind option_bind].
  destruct r as [b|msg]; [by apply responds_write, da_write|apply responds_error].
Qed.

(** A frame holds its key and its value. *)
Lemma frame_fields s raw rest :
  cut_frame s = CutFrame raw rest -> ~ (length raw < kRequestHeader)%nat /\
  exists key val, read_n (Z.to_nat (hdr_key_len raw)) (drop kRequestHeader raw) = Some key /\
    read_n (Z.to_nat (hdr_val_len raw)) (drop (Z.to_nat (hdr_key_len raw)) (drop kRequestHeader raw)) = Some val.
Proof.
  intros Hcut. destruct (cut_is_frame _ _ _ Hcut) as [Hraw _]. apply cut_frame_spec in Hraw as (Hlen & _ & _ & Hz).
  pose proof (hdr_len_range raw) as [Hk Hv]. unfold zlen in Hz. split; [lia|].
  rewrite !read_n_some by (rewrite ?length_drop; lia). by do 2 eexists.
Qed.

Lemma frame_answered st s raw rest : db_answers st -> cut_frame s = CutFrame raw rest -> responds (processRequest st raw).
Proof.
  intros Hd Hcut. destruct (frame_fields _ _ _ Hcut) as (Hlen & key & val & Ek & Ev). unfold processRequest.
  rewrite decide_False by done. destruct (negb _); [apply responds_error|]. rewrite Ek, Ev. cbn [mbind option_bind].
  destruct (Cmd_of (hdr_cmd raw)) as [[]|]; try apply responds_error.
  - by apply responds_write, da_put.
  - destruct (da_get st Hd key) as [[[st' s'] v] ->]. cbn [mbind option_bind]. destruct (ok s'); apply responds_error.
  - by apply responds_write, da_del.
  - by apply process_scan_answers.
  - by apply process_batch_answers.
  - by apply process_delete_range_answers.
Qed.

(** A batch that a client encodes reaches the store as it is. *)
Lemma batch_reaches_store st ops : zlen (encodeBatchPayload ops) < 2 ^ 32 ->
  processRequest st (encodeRequest CmdBatch [] (encodeBatchPayload ops)) =
    ('(st', s) ← dbo_write st (strip <$> ops); Some (st', status_response s)).
Proof.
  intros Hz. destruct (parse_request CmdBatch [] (encodeBatchPayload ops)) as (E1 & E2 & E3 & _ & E5); [done..|]. unfold processRequest.
  rewrite decide_False, E2, E3, E5 by done. rewrite Z.eqb_refl. cbn [negb mbind option_bind]. unfold process_batch.
  destruct (payload_fits ops Hz) as [Hf Hn]. pose proof (zlen_nonneg ops). unfold encodeBatchPayload. rewrite u32_small by lia.
  rewrite zlen_app. change (zlen (encodeFixed32 (zlen ops))) with 4. pose proof (zlen_nonneg (concat (batch_item <$> ops))).
  destruct (Z.ltb_spec (4 + zlen (concat (batch_item <$> ops))) 4) as [|_]; [lia|].
  rewrite decodeFixed32_encode by lia. cbn [mbind option_bind]. rewrite drop_app_exact by done.
  rewrite parse_batch_items; [done|done|rewrite length_app; pose proof (length_batch_items ops); lia].
Qed.
End Answers.
