(* ===== verification/ServerDB.v ===== *)
(** * The server on the database

    [DBImpl] as the store of the server: its operations are an instance of the interface, and
    while the data fits the memtable they meet its laws.  The main theorem puts the parts
    together: client bytes in any chunks, framing, request processing, group write, log,
    memtable, merged iteration, response bytes. *)

From Stdlib Require Import ZArith Lia.
From stdpp Require Import base numbers strings list gmap.
From S2P Require Import Prelude CppString Coding Slice InternalKey SkipHeap SkipList Versions MemTable Bloom Block.
From S2P Require Import Caches Compression FileSystem SSTable SSTableProofs Wal Manifest ManifestProofs.
From S2P Require Import Merging Compaction CompactionProofs DBImpl DBProofs DBRecovery Network ConnectionProofs Server ServerProofs.
Local Open Scope Z_scope.

(** ** The merging iterator as an iterator *)

Abbreviation MergeIt := (MergingIterator (I := VecIter)).

(** The entries of all children: enough rounds for [next]. *)
Definition mi_size (m : MergeIt) : nat := sum_list (length ∘ vi_entries <$> mi_children m).

#[export] Instance MergingIterator_ops : IterOps MergeIt := {
  it_valid := mi_valid;
  it_seekToFirst := mi_seekToFirst;
  it_seek := mi_seek;
  it_next m := mi_next (S (mi_size m)) m;
  it_key := mi_key;
  it_value := mi_value;
  it_status := mi_status;
}.

(** A merge of one child stands where the child stands. *)
Definition at_child (i : VecIter) (rest : list entry) : MergeIt :=
  mkMI [i] (match rest with [] => [] | p :: _ => [(0%nat, p.1)] end) (match rest with [] => None | _ => Some 0%nat end) SOk.

Definition mi1_rep (m : MergeIt) (all rest : list entry) : Prop :=
  exists i, vi_rep i all rest /\ NoDup all.*1 /\ m = at_child i rest.

Lemma rebuild_at_child i all rest : vi_rep i all rest ->
  forall h c, rebuildHeap (mkMI [i] h c SOk) = at_child i rest.
Proof.
  intros Hr h c. unfold rebuildHeap, at_child, pushChild. simpl.
  pose proof (it_valid_spec i all rest Hr) as Hv. simpl in Hv. rewrite Hv.
  destruct rest as [|p rest]; simpl; [done|]. destruct (it_current i all p rest Hr) as [Hk _]. simpl in Hk. by rewrite Hk.
Qed.

Lemma next_at_child i all p rest : vi_rep i all (p :: rest) -> NoDup all.*1 ->
  mi_next (S (mi_size (at_child i (p :: rest)))) (at_child i (p :: rest)) = at_child (vi_next i) rest.
Proof.
  intros Hr Hnd. pose proof (it_next_spec i all p rest Hr) as Hn. simpl in Hn.
  pose proof (it_valid_spec i all _ Hr) as Hv. destruct (it_current i all p rest Hr) as [Hk _].
  pose proof (it_valid_spec _ all _ Hn) as Hv'. simpl in Hv, Hk, Hv'.
  assert (exists n, mi_size (at_child i (p :: rest)) = S n) as [n ->].
  { unfold mi_size, at_child. simpl. destruct Hr as (_ & -> & Hd). destruct all as [|q all]; [by rewrite drop_nil in Hd|].
    exists (length all). simpl. lia. }
  unfold mi_next, mi_key, mi_valid, mi_child. cbn [at_child mi_current mi_children mi_status_ mi_heap mbind option_bind].
  simpl. rewrite Hv. simpl. rewrite Hk. rewrite decide_True by done. rewrite decide_True by done.
  unfold pushChild. simpl. rewrite Hv'. destruct rest as [|q rest]; simpl; [done|].
  destruct (it_current _ all q rest Hn) as [Hk' _]. simpl in Hk'. rewrite Hk'. simpl.
  rewrite decide_False; [done|]. intros Heq. destruct Hr as (_ & _ & Hd).
  assert (NoDup (p :: q :: rest).*1) as Hnd'.
  { rewrite Hd, fmap_drop. rewrite <- (take_drop (vi_index i) all.*1) in Hnd. by apply NoDup_app in Hnd as (_ & _ & ?). }
  simpl in Hnd'. apply NoDup_cons in Hnd' as [Hnin _]. apply Hnin. rewrite Heq. left.
Qed.

Lemma status_at_child i all rest : vi_rep i all rest -> first_error [i] = SOk.
Proof. intros (Hs & _). unfold first_error. simpl. rewrite Hs. done. Qed.

#[export] Instance MergingIterator_spec : IterSpec MergeIt mi1_rep.
Proof.
  split; cbn [it_valid it_key it_value it_next it_seekToFirst it_seek it_status MergingIterator_ops].
  - intros m all rest (i & Hr & _ & ->). pose proof (it_valid_spec i all rest Hr) as Hv. simpl in Hv.
    unfold mi_valid, mi_child. destruct rest; simpl; [done|]. by rewrite Hv.
  - intros m all p rest (i & Hr & _ & ->). pose proof (it_valid_spec i all _ Hr) as Hv. simpl in Hv.
    destruct (it_current i all p rest Hr) as [Hk Hx]. simpl in Hk, Hx.
    unfold mi_key, mi_value, mi_valid, mi_child. simpl. rewrite Hv. simpl. auto.
  - intros m all p rest (i & Hr & Hnd & ->). exists (vi_next i). split; [exact (it_next_spec (rep := vi_rep) i all p rest Hr)|].
    split; [done|]. by eapply next_at_child.
  - intros m all rest (i & Hr & Hnd & ->). pose proof (it_first_spec i all rest Hr) as Hf. simpl in Hf.
    exists (vi_seekToFirst i). split; [done|]. split; [done|]. unfold mi_seekToFirst. simpl. by eapply rebuild_at_child.
  - intros m all rest t (i & Hr & Hnd & ->). pose proof (it_seek_spec i all rest t Hr) as Hf. simpl in Hf.
    exists (vi_seek t i). split; [done|]. split; [done|]. unfold mi_seek. simpl. by eapply rebuild_at_child.
  - intros m all rest (i & Hr & _ & ->). unfold mi_status. simpl. by eapply status_at_child.
Qed.

(** ** The database as the store of the server *)

Section Store.
Context `{HC : Codecs}.

Definition DBSt : Type := FS * DB.

(** [write] of a single client is a group of one. *)
Definition db_write (st : DBSt) (b : WriteBatch) : option (DBSt * Status) :=
  '(fs, db, s) ← doWriteGroup st.1 st.2 [mkGE b true]; Some (fs, db, s).

#[export] Instance DBImpl_ops : DBOps DBSt MergeIt := {
  dbo_put st k v := '(fs, db, s) ← db_put st.1 st.2 true k v; Some (fs, db, s);
  dbo_get st k := '(db, s, v) ← db_get st.1 st.2 k; Some (st.1, db, s, v);
  dbo_del st k := '(fs, db, s) ← db_del st.1 st.2 true k; Some (fs, db, s);
  dbo_write := db_write;
  dbo_newIterator st := '(db, it) ← newIterator st.1 st.2; Some (st.1, db, it);
  dbo_size := mi_size;
}.

(** The memory a session may take: the memtable is not frozen, and records fit the log. *)
Definition db_limit (options : Options) : Z := Z.min (memtable_size options) (2 ^ 31).

(** Everything is in the memtable, and has been logged. *)
Definition db_holds (options : Options) (used : Z) (st : DBSt) (m : gmap bytes bytes) : Prop :=
  db_options st.2 = options /\ read_order st.2 = [] /\ 0 <= db_seq st.2 <= used /\
  exists files l s path rs, st.1 = fs_of files /\ db_rep st.2 l [] /\ store_of (db_seq st.2) l s /\ sl_bytes l <= used /\
    (forall k, m !! k = s !! k ≫= id) /\ logs_to (fs_of files) st.2 path rs.

Lemma store_of_ops ops : forall seq l s, 0 <= seq -> seq + zlen ops < 2 ^ 56 -> store_of seq l s ->
  store_of (seq + zlen ops) (mt_inserts (op_writes seq ops) l) (ops_store ops s).
Proof.
  induction ops as [|op ops IH]; intros seq l s H0 H1 Hs; [by rewrite zlen_nil, Z.add_0_r|].
  rewrite zlen_cons in *. pose proof (zlen_nonneg ops).
  set (w := mkWrite (op_key op) (op_value op) (seq + 1) (bool_decide (op_type op = bDelete))).
  pose proof (store_of_insert seq l s w ltac:(lia) Hs) as Hi. simpl in Hi.
  specialize (IH (seq + 1) _ _ ltac:(lia) ltac:(lia) (Hi ltac:(lia))).
  replace (seq + (1 + zlen ops)) with (seq + 1 + zlen ops) by lia.
  assert (w_live w = op_live op) as Hl by (unfold w_live, op_live, w; simpl; by destruct (op_type op)).
  rewrite Hl in IH. exact IH.
Qed.

Lemma map_ops_store ops : forall m s, (forall k, m !! k = s !! k ≫= id) -> forall k, map_ops ops m !! k = ops_store ops s !! k ≫= id.
Proof.
  induction ops as [|op ops IH]; intros m s Hm k; [done|]. unfold map_ops, ops_store in *. cbn [foldl]. apply IH. clear k. intros k.
  unfold map_op, op_live. destruct (decide (op_key op = k)) as [<-|Hne].
  - destruct (op_type op); by rewrite ?lookup_delete_eq, !lookup_insert_eq.
  - destruct (op_type op); [rewrite !lookup_insert_ne by done|rewrite lookup_delete_ne, lookup_insert_ne by done]; apply Hm.
Qed.

Lemma ops_bytes_bounds b : zlen b <= ops_bytes b /\ zlen (encode_batch b) <= ops_bytes b.
Proof.
  unfold encode_batch. induction b as [|op b [IH1 IH2]]; [done|]. cbn [ops_bytes foldr]. fold (ops_bytes b).
  rewrite fmap_cons, concat_cons, zlen_cons, zlen_app. pose proof (zlen_nonneg (op_key op)). pose proof (zlen_nonneg (op_value op)).
  assert (zlen (encode_op op) = 9 + zlen (op_key op) + zlen (op_value op)) as ->.
  { unfold encode_op. rewrite zlen_cons, !zlen_app. change (zlen (encodeFixed32 (u32 (zlen (op_key op))))) with 4.
    change (zlen (encodeFixed32 (u32 (zlen (op_value op))))) with 4. lia. }
  unfold sizeof_SkipNode. lia.
Qed.

Lemma read_order_same db db' : db_options db' = db_options db -> db_version db' = db_version db -> read_order db' = read_order db.
Proof. unfold read_order. by intros -> ->. Qed.

Lemma db_write_holds options used st m b :
  memtable_size options <= 2 ^ 64 -> db_holds options used st m -> used + ops_bytes b < db_limit options ->
  exists st', db_write st b = Some (st', SOk) /\ db_holds options (used + ops_bytes b) st' (map_ops b m).
Proof.
  intros Hmax (Ho & Hro & Hseq & files & l & s & path & rs & Efs & Hr & Hs & Hl & Hm & Hlog) Hu.
  destruct st as [fs db]. cbn [fst snd] in *. subst fs. unfold db_limit in Hu.
  destruct (ops_bytes_bounds b) as [Hb1 Hb2]. pose proof (zlen_nonneg b). pose proof (sl_bytes_nonneg l).
  assert (group_ops [mkGE b true] = b) as Eg by apply app_nil_r.
  assert (group_data [mkGE b true] = encode_batch b) as Ed by apply app_nil_r.
  assert (wal_fits (group_data [mkGE b true])) as Hf by (unfold wal_fits; rewrite Ed; lia).
  destruct (doWriteGroup_cases (fs_of files) db l [] [mkGE b true] path rs Hr Hlog) as (fs' & db' & st & E & Hseq' & Hcase);
    [done|lia|rewrite Eg; lia|done|]. rewrite Eg in *.
  pose proof (doWriteGroup_no_fault files db [mkGE b true] path rs fs' db' st Hlog ltac:(done) Hf E) as ->.
  unfold db_write. cbn [fst snd]. rewrite E. cbn [mbind option_bind]. exists (fs', db'). split; [done|].
  destruct Hcase as [(_ & Hc & [(Hr' & Hlg & Hfs & Hop & Hve & _)|(Hfull & _)])|(? & _)]; [| |done].
  2:{ exfalso. pose proof (mt_inserts_bytes b (db_seq db) l) as Hmb. pose proof (sl_bytes_nonneg (mt_inserts (op_writes (db_seq db) b) l)).
      rewrite Ho, u64_small in Hfull by lia. lia. }
  destruct (log_group_no_fault files db [mkGE b true] path rs Hlog Hf) as (f1 & El). rewrite El in Hfs. cbn [fst] in Hfs. subst fs'.
  split; [cbn [snd]; congruence|]. cbn [fst snd]. split; [by rewrite (read_order_same db db')|]. split; [lia|].
  exists f1, (mt_inserts (op_writes (db_seq db) b) l), (ops_store b s), path, (rs ++ [group_data [mkGE b true]]).
  split; [done|]. split; [done|]. split; [rewrite Hseq'; apply store_of_ops; [lia..|done]|].
  split; [pose proof (mt_inserts_bytes b (db_seq db) l); lia|]. split; [by apply map_ops_store|].
  split; [by rewrite Hlg, (proj1 Hlog)|done].
Qed.

Lemma db_get_holds options used st m k :
  db_holds options used st m ->
  dbo_get st k = Some (st, match m !! k with Some _ => SOk | None => SNotFound [] end, m !! k).
Proof.
  intros (Ho & Hro & Hseq & files & l & s & path & rs & Efs & [(id & mt & Hmt & Hrep & _) Hi] & Hs & _ & Hm & _).
  destruct st as [fs db]. cbn [fst snd] in *. simpl. unfold db_get. rewrite Hmt.
  rewrite (get_mems_ok [(id, mt)] [l]) by by repeat constructor. cbn [mbind option_bind first_live].
  rewrite Hm, <- (store_of_visible _ _ _ k Hs). destruct (visible k l) as [v|]; [done|].
  apply Forall2_nil_inv_r in Hi. rewrite Hi. cbn [reverse rev_append get_mems mbind option_bind]. rewrite Hro.
  cbn [get_tables mbind option_bind]. by destruct db.
Qed.

Lemma db_newIterator_holds options used st m :
  db_holds options used st m ->
  exists l it, dbo_newIterator st = Some (st, it) /\ mi1_rep it l l /\ sl_wf l /\ (forall uk, visible uk l = m !! uk) /\
    (length l <= dbo_size (it_seekToFirst it))%nat /\ sl_bytes l <= used.
Proof.
  intros (Ho & Hro & Hseq & files & l & s & path & rs & Efs & [(id & mt & Hmt & Hrep & _) Hi] & Hs & Hl & Hm & _).
  destruct st as [fs db]. cbn [fst snd] in *. simpl. unfold newIterator. rewrite Hmt. apply Forall2_nil_inv_r in Hi. rewrite Hi, Hro.
  change (option_list (Some (id, mt)) ++ reverse []) with [(id, mt)]. cbn [mem_iters].
  rewrite (mt_entries_rep _ _ Hrep). cbn [mbind option_bind table_iters app].
  pose proof (mt_rep_wf _ _ Hrep) as Hwf. pose proof (MemTableIterator_rep l Hwf) as Hv.
  pose proof (it_first_spec (rep := vi_rep) _ _ _ Hv) as Hv1. pose proof (it_first_spec (rep := vi_rep) _ _ _ Hv1) as Hv2. simpl in Hv1, Hv2.
  assert (mi_seekToFirst (MergingIterator_new [vi_seekToFirst (MemTableIterator_new l)]) =
          at_child (vi_seekToFirst (vi_seekToFirst (MemTableIterator_new l))) l) as ->.
  { unfold mi_seekToFirst, MergingIterator_new. rewrite (status_at_child _ _ _ Hv1). simpl. by eapply rebuild_at_child. }
  exists l. eexists. split; [by destruct db|]. split; [|split; [done|split; [|split; [|done]]]].
  - eexists. split; [exact Hv2|]. split; [|done]. destruct Hwf as [Hw Hsort]. by apply (sorted_by_NoDup wf_ikey InternalKeyCompare).
  - intros uk. by rewrite Hm, (store_of_visible _ _ _ uk Hs).
  - unfold mi_size, mi_seekToFirst. simpl. rewrite sort_entries_id by done. lia.
Qed.

(** The database meets the laws of the interface. *)
Lemma DBImpl_laws options : memtable_size options <= 2 ^ 64 -> DBLaws DBSt MergeIt (db_limit options) (db_holds options) mi1_rep.
Proof.
  intros Hmax. split; [apply _|..].
  - intros used st m b. by apply db_write_holds.
  - intros used st m k v Hr Hu. apply (db_write_holds options used st m _ Hmax Hr) in Hu. exact Hu.
  - intros used st m k Hr Hu. apply (db_write_holds options used st m _ Hmax Hr) in Hu. exact Hu.
  - intros used st m k Hr. exists st. split; [by eapply db_get_holds|done].
  - intros used st m Hr. destruct (db_newIterator_holds options used st m Hr) as (l & it & E & Hi & Hwf & Hvis & Hlen & Hb).
    by exists st, it, l, l.
Qed.
(** ** Every operation returns *)

Lemma doWriteGroup_total fs db l imms group : db_rep db l imms -> is_Some (doWriteGroup fs db group).
Proof.
  assert (forall b db seq l, db_rep db l imms -> exists db' l', apply_batch db seq b = Some db' /\ db_rep db' l' imms) as Hb.
  { intros b. induction b as [|op b IH]; intros db0 seq l0 Hr; cbn [apply_batch]; [by exists db0, l0|].
    destruct (memtable_put_ok db0 l0 imms (op_key op) (op_value op) (u64 (seq + 1)) (bool_decide (op_type op = bDelete)) Hr)
      as (db1 & -> & Hr1 & _). cbn [mbind option_bind]. by eapply IH. }
  assert (forall group bases db l, db_rep db l imms -> exists db' l', apply_group db bases group = Some db' /\ db_rep db' l' imms) as Hg.
  { intros g. induction g as [|e g IH]; intros bases db0 l0 Hr; [by exists db0, l0; destruct bases|].
    destruct bases as [|base bases]; [by exists db0, l0|]. cbn [apply_group].
    destruct (Hb (ge_batch e) db0 base l0 Hr) as (db1 & l1 & -> & Hr1). cbn [mbind option_bind]. by eapply IH. }
  intros Hr. unfold doWriteGroup. destruct (bool_decide _); [done|]. destruct (reserve_seqs _ _) as [bases sq].
  destruct (log_group _ _ _) as [fs1 s1]. destruct (negb (ok s1)); [done|].
  destruct (Hg group bases (with_seq db sq) l) as (db1 & l1 & -> & [(id & m & Hm & _) _]); [by destruct Hr|]. cbn [mbind option_bind].
  unfold maybeFlush. rewrite Hm. cbn [mbind option_bind]. destruct (negb _); [done|]. destruct (rotateWal _ _) as [[fs2 db2] s2]. done.
Qed.

Lemma mi_size_next n m : mi_size (mi_next n m) = mi_size m.
Proof.
  assert (forall n cur cs heap, vi_entries <$> (next_loop n cur cs heap).1 = vi_entries <$> cs) as Hl.
  { induction n0 as [|n0 IH]; intros cur cs heap; [done|]. cbn [next_loop]. destruct (heap_top heap) as [x|]; [|done].
    destruct (decide _); [|done]. rewrite IH. apply list_eq. intros i.
    rewrite !list_lookup_fmap. destruct (decide (i = x.1)) as [->|Hne]; [|by rewrite list_lookup_alter_ne].
    rewrite list_lookup_alter_eq. destruct (cs !! x.1) as [v|]; [|done]. cbn [fmap option_fmap option_map]. f_equal. cbn [it_next VecIter_ops]. unfold vi_next. by destruct (vi_valid v). }
  unfold mi_next. destruct (mi_valid m); [|done]. specialize (Hl n (mi_key m) (mi_children m) (mi_heap m)).
  destruct (next_loop _ _ _ _) as [cs heap]. unfold mi_size. cbn [mi_children fst] in *.
  by rewrite !(list_fmap_compose vi_entries length), Hl.
Qed.

(** A merged scan runs out: every round consumes an entry. *)
Lemma mi_runs_out n (m : MergeIt) rests :
  mi_good vi_rep m rests -> (remaining rests <= n)%nat -> (remaining rests <= mi_size m)%nat -> runs_out n m.
Proof.
  revert m rests. induction n as [|n IH]; intros m rests Hg Hn Hs; pose proof (mi_good_current vi_rep m rests Hg) as Hcur;
    (destruct (heap_top (mi_heap m)) as [x|] eqn:Et; [|left; apply Hcur]); destruct Hcur as (p & r & Hi & Hx & Hv & Hk & _);
    destruct (mi_next_good vi_rep (S (mi_size m)) m rests p r x Hg) as (rests' & gone & Hg' & Hperm & _ & _ & Hpg & _); try done; try lia;
    assert (remaining rests' < remaining rests)%nat as Hlt by
      (unfold remaining; rewrite Hperm, length_app; destruct gone; [by apply not_elem_of_nil in Hpg|simpl; lia]).
  - lia.
  - right. apply (IH _ rests'); [exact Hg'|lia|]. change (it_next m) with (mi_next (S (mi_size m)) m). rewrite mi_size_next. lia.
Qed.

Lemma mem_iters_ok ps ls : Forall2 (fun p l => mt_rep (snd p) l) ps ls ->
  exists its, mem_iters ps = Some its /\ Forall2 (fun i l => exists r, vi_rep i l r) its ls.
Proof.
  induction 1 as [|[id m] l ps ls Hm _ (its & E & Hr)]; cbn [mem_iters]; [by exists []|].
  cbn [snd] in Hm. rewrite (mt_entries_rep _ _ Hm), E. cbn [mbind option_bind]. eexists. split; [done|]. constructor; [|done].
  exists l. exact (it_first_spec (rep := vi_rep) _ _ _ (MemTableIterator_rep l (mt_rep_wf _ _ Hm))).
Qed.

Lemma table_iters_ok files cache paths ls : Forall2 (table files) paths ls -> cache_valid files cache ->
  exists cache' its, table_iters (fs_of files) cache paths = Some (cache', its) /\ Forall2 (fun i l => exists r, vi_rep i l r) its ls.
Proof.
  intros Hall. revert cache. induction Hall as [|p l paths ls [Hs Hwf] _ IH]; intros cache Hc; cbn [table_iters]; [by exists cache, []|].
  destruct (sst_file_iter files p l cache Hs Hwf Hc) as (r & c1 & i & -> & E & Hi & Hc1). cbn [mbind option_bind]. rewrite E.
  cbn [mbind option_bind]. destruct (IH c1 Hc1) as (c2 & its & -> & Hr). cbn [mbind option_bind]. do 2 eexists. split; [done|].
  constructor; [|done]. exists l. exact (it_first_spec (rep := vi_rep) _ _ _ Hi).
Qed.

Lemma mi_size_children (cs : list VecIter) ls m :
  mi_children m = cs -> Forall2 (fun i l => exists r, vi_rep i l r) cs ls -> mi_size m = length (concat ls).
Proof.
  intros <- Hc. unfold mi_size. induction Hc as [|i l its ls (r & _ & He & _) _ IH]; [done|].
  rewrite fmap_cons, concat_cons, length_app. cbn [sum_list_with sum_list foldr]. rewrite <- IH. unfold compose at 1. by rewrite He.
Qed.

(** The database as a store whose operations return. *)
Lemma db_answers_ok files db l imms tables :
  db_rep db l imms -> Forall2 (table files) (read_order db) tables -> cache_valid files (db_cache db) ->
  db_answers (St := DBSt) (fs_of files, db).
Proof.
  intros Hr Ht Hc.
  assert (forall fs c b, is_Some (db_write (fs, with_cache db c) b)) as Hw.
  { intros fs c b. unfold db_write. cbn [fst snd]. destruct (doWriteGroup_total fs (with_cache db c) l imms [mkGE b true]) as [[[f d] s] ->]; [|done].
    destruct Hr as [H1 H2]. by split. }
  assert (with_cache db (db_cache db) = db) as Ed by by destruct db.
  assert (forall b, is_Some (db_write (fs_of files, db) b)) as Hw0 by (intros b; rewrite <- Ed; apply Hw).
  split; [intros k v; exact (Hw0 [mkOp bPut k v])| |intros k; exact (Hw0 [mkOp bDelete k []])|exact Hw0|].
  - intros k. destruct (db_get_ok files db l imms tables k Hr Ht Hc) as (c' & _ & E). cbn [dbo_get DBImpl_ops fst snd]. by rewrite E.
  - cbn [dbo_newIterator DBImpl_ops fst snd]. unfold newIterator. destruct Hr as [(id & m & Hm & Hl & _) Hi]. rewrite Hm.
    destruct (mem_iters_ok (option_list (Some (id, m)) ++ reverse (ms_immutable (db_mems db))) (l :: reverse imms))
      as (is1 & -> & Hr1); [constructor; [done|by apply Forall2_reverse]|]. cbn [mbind option_bind].
    destruct (table_iters_ok files (db_cache db) (read_order db) tables Ht Hc) as (c' & is2 & -> & Hr2). cbn [mbind option_bind].
    pose proof (Forall2_app Hr1 Hr2) as Hrs. set (cs := is1 ++ is2) in *. set (ls := (l :: reverse imms) ++ tables) in *.
    do 2 eexists. split; [done|]. split; [intros b; apply Hw|]. cbn [dbo_size DBImpl_ops it_seekToFirst MergingIterator_ops].
    assert (Forall2 (fun i l => exists r, vi_rep i l r) (vi_seekToFirst <$> (vi_seekToFirst <$> cs)) ls) as Hrs2.
    { apply Forall2_fmap_l, Forall2_fmap_l. eapply Forall2_impl; [exact Hrs|]. intros i l0 [r Hir]. exists l0.
      exact (it_first_spec (rep := vi_rep) _ _ _ (it_first_spec (rep := vi_rep) _ _ _ Hir)). }
    assert (mi_size (mi_seekToFirst (mi_seekToFirst (MergingIterator_new cs))) = length (concat ls)) as Hsz.
    { by eapply mi_size_children; [|exact Hrs2]. }
    apply (mi_runs_out _ _ ls); [exact (mi_first_again vi_rep cs ls Hrs)|rewrite Hsz; unfold remaining; lia..].
Qed.
End Store.



(** C25: every frame is answered.  On a disk without faults, a database in any state (a memtable, frozen memtables,
    tables, a block cache) and for every frame cut from any stream of bytes, whatever its
    command, key and value hold, the handler reads nothing outside the frame, its loops end,
    and it returns a response; and a batch that a client encodes reaches the database with
    exactly its operations, the value of a deletion apart, and is answered with the status of
    that write. *)
Theorem every_frame_answered `{Codecs} (files : gmap bytes bytes) (db : DB) (l : list entry) (imms tables : list (list entry))
  (s raw rest : bytes) (ops : list BatchOp) :
  db_rep db l imms -> Forall2 (table files) (read_order db) tables -> cache_valid files (db_cache db) ->
  cut_frame s = CutFrame raw rest -> zlen (encodeBatchPayload ops) < 2 ^ 32 ->
  (exists st' status value, processRequest (fs_of files, db) raw = Some (st', encodeResponse status value)) /\
  (exists fs' db' st, doWriteGroup (fs_of files) db [mkGE (strip <$> ops) true] = Some (fs', db', st) /\
     processRequest (fs_of files, db) (encodeRequest CmdBatch [] (encodeBatchPayload ops)) = Some ((fs', db'), status_response st)).
Proof.
  intros Hr Ht Hc Hcut Hz. pose proof (db_answers_ok files db l imms tables Hr Ht Hc) as Hd.
  split; [by apply (frame_answered (fs_of files, db) s raw rest)|].
  destruct (doWriteGroup_total (fs_of files) db l imms [mkGE (strip <$> ops) true] Hr) as [[[fs' db'] st] E].
  exists fs', db', st. split; [done|]. rewrite (batch_reaches_store (fs_of files, db) ops Hz). cbn [dbo_write DBImpl_ops].
  unfold db_write. cbn [fst snd]. by rewrite E.
Qed.

Lemma every_frame_answered_witness :
  let garbage := encodeRequest CmdBatch [] (bs "garbage!") in
  let scan := encodeRequest CmdScan (bs "k") (bs "z") in
  exists mt imm files, forall raw, raw ∈ [garbage; scan] ->
    exists st' status value,
      processRequest (H0 := @DBImpl_ops marker_codecs) (fs_of files, layers_db mt imm) raw = Some (st', encodeResponse status value).
Proof.
  intros garbage scan. destruct layers_rep as (mt & imm & Hr). destruct layers_files as [files Ht]. exists mt, imm, files.
  assert (forall raw, cut_frame (raw ++ bs "tail") = CutFrame raw (bs "tail") -> exists st' status value,
    processRequest (H0 := @DBImpl_ops marker_codecs) (fs_of files, layers_db mt imm) raw = Some (st', encodeResponse status value)) as Hall.
  { intros raw Hc. refine (proj1 (@every_frame_answered marker_codecs files (layers_db mt imm) layers_mem [layers_imm] (concat layers_tabs)
      (raw ++ bs "tail") raw (bs "tail") [mkOp bPut (bs "k") (bs "v")] Hr _ I Hc _)); [|vm_compute; reflexivity].
    exact (@level_tables_read marker_codecs files (layers_db mt imm) layers_tabs Ht). }
  intros raw [->|[->|[]%not_elem_of_nil]%elem_of_cons]%elem_of_cons; apply Hall; vm_compute; reflexivity.
Defined.
