(* ===== verification/Reactor.v ===== *)
(** * Event loops and worker threads

    [network/event_loop], [network/event_loop_thread], [utils/thread_pool.h], the thread side
    of [network/server.cpp] and [main.cpp].  A loop is one thread that alternates between
    waiting for events, running callbacks and running the functors other threads queued; the
    model is a step relation over the atomic actions of all threads (a locked section, one
    system call).  Callbacks and functors are names; what they do is the business of
    [ConnectionProofs]. *)

From Stdlib Require Import ZArith Lia.
From stdpp Require Import base numbers strings list gmap.
From S2P Require Import Prelude CppString Slice.
Local Open Scope Z_scope.

(** ** [EventLoop] *)

Section EventLoop.
Context {Fn Cb : Type}.

(** Where the loop thread is: before [running_ = true], at the head of the loop or in
    [epoll_wait], running the callbacks of the events it got, about to swap the queue, running
    the swapped functors, past the loop. *)
Inductive phase := Starting | Waiting | Dispatching (events : list (Z * Z)) | Swapping | Running (functors : list Fn) | Exited.

Record EventLoop := mkLoop {
  el_callbacks : gmap Z Cb;       (* callbacks_ *)
  el_interest : gmap Z Z;         (* the epoll set: descriptor and events *)
  el_pending : list Fn;           (* pending_ *)
  el_wakeup : Z;                  (* the counter of wakeup_fd_ *)
  el_owed : nat;                  (* threads in queueInLoop that have pushed and not yet woken the loop *)
  el_running : bool;
  el_phase : phase;
}.

Definition with_phase (l : EventLoop) (p : phase) : EventLoop :=
  mkLoop (el_callbacks l) (el_interest l) (el_pending l) (el_wakeup l) (el_owed l) (el_running l) p.

(** [epoll_ctl] ignores an error (adding a descriptor twice, changing an unknown one). *)
Definition addEvent (l : EventLoop) (fd events : Z) (cb : Cb) : EventLoop :=
  mkLoop (<[fd := cb]> (el_callbacks l))
         (match el_interest l !! fd with Some _ => el_interest l | None => <[fd := events]> (el_interest l) end)
         (el_pending l) (el_wakeup l) (el_owed l) (el_running l) (el_phase l).

Definition updateEvent (l : EventLoop) (fd events : Z) : EventLoop :=
  mkLoop (el_callbacks l)
         (match el_interest l !! fd with Some _ => <[fd := events]> (el_interest l) | None => el_interest l end)
         (el_pending l) (el_wakeup l) (el_owed l) (el_running l) (el_phase l).

Definition removeEvent (l : EventLoop) (fd : Z) : EventLoop :=
  mkLoop (delete fd (el_callbacks l)) (delete fd (el_interest l)) (el_pending l) (el_wakeup l) (el_owed l) (el_running l) (el_phase l).

(** The two halves of [queueInLoop]: the push under the lock, then [wakeup]. *)
Definition push_functor (l : EventLoop) (f : Fn) : EventLoop :=
  mkLoop (el_callbacks l) (el_interest l) (el_pending l ++ [f]) (el_wakeup l) (S (el_owed l)) (el_running l) (el_phase l).

(** The counter saturates below its maximum: a write that would exceed it fails and is ignored. *)
Definition wakeup (l : EventLoop) : EventLoop :=
  mkLoop (el_callbacks l) (el_interest l) (el_pending l)
         (if el_wakeup l + 1 <? 2 ^ 64 - 1 then el_wakeup l + 1 else el_wakeup l) (el_owed l) (el_running l) (el_phase l).

(** The thread that pushed has woken the loop. *)
Definition paid (l : EventLoop) : EventLoop :=
  mkLoop (el_callbacks l) (el_interest l) (el_pending l) (el_wakeup l) (pred (el_owed l)) (el_running l) (el_phase l).

(** Reading an eventfd takes its whole count. *)
Definition handleWakeup (l : EventLoop) : EventLoop :=
  mkLoop (el_callbacks l) (el_interest l) (el_pending l) 0 (el_owed l) (el_running l) (el_phase l).

(** The head of [loop]: [running_ = true]. *)
Definition el_begin (l : EventLoop) : EventLoop :=
  mkLoop (el_callbacks l) (el_interest l) (el_pending l) (el_wakeup l) (el_owed l) true Waiting.

(** The store of [stop]; the [wakeup] after it is a step of its own. *)
Definition el_stop (l : EventLoop) : EventLoop :=
  mkLoop (el_callbacks l) (el_interest l) (el_pending l) (el_wakeup l) (el_owed l) false (el_phase l).

(** [functors.swap(pending_)] *)
Definition swap_pending (l : EventLoop) : EventLoop :=
  mkLoop (el_callbacks l) (el_interest l) [] (el_wakeup l) (el_owed l) (el_running l) (Running (el_pending l)).

(** [wakeup_fd] is the descriptor of the eventfd.  [epoll_wait] may report any events. *)
Context (wakeup_fd : Z).

Inductive el_action :=
| APush (f : Fn)                         (* some thread: queueInLoop, under the lock *)
| AWake                                  (* that thread: wakeup *)
| ACall (fd events : Z) (cb : Cb)        (* loop: a callback is invoked *)
| ARun (f : Fn)                          (* loop: a functor is invoked *)
| AOther.

Inductive el_step : EventLoop -> el_action -> EventLoop -> Prop :=
| el_push l f : el_step l (APush f) (push_functor l f)
| el_wake l : (0 < el_owed l)%nat -> el_step l AWake (paid (wakeup l))
| el_enter l : el_phase l = Starting -> el_step l AOther (el_begin l)
| el_request_stop l : el_step l AOther (el_stop l)
| el_stop_wake l : el_step l AOther (wakeup l)
| el_add l fd events cb : el_step l AOther (addEvent l fd events cb)
| el_update l fd events : el_step l AOther (updateEvent l fd events)
| el_remove l fd : fd <> wakeup_fd -> el_step l AOther (removeEvent l fd)
| el_poll l events :
    el_running l = true -> el_phase l = Waiting -> el_step l AOther (with_phase l (Dispatching events))
| el_exit l : el_running l = false -> el_phase l = Waiting -> el_step l AOther (with_phase l Exited)
| el_drain l ev events :
    el_phase l = Dispatching ((wakeup_fd, ev) :: events) ->
    el_step l AOther (with_phase (handleWakeup l) (Dispatching events))
| el_call l fd ev events cb :
    el_phase l = Dispatching ((fd, ev) :: events) -> fd <> wakeup_fd -> el_callbacks l !! fd = Some cb ->
    el_step l (ACall fd ev cb) (with_phase l (Dispatching events))
| el_unknown l fd ev events :
    el_phase l = Dispatching ((fd, ev) :: events) -> fd <> wakeup_fd -> el_callbacks l !! fd = None ->
    el_step l AOther (with_phase l (Dispatching events))
| el_dispatched l : el_phase l = Dispatching [] -> el_step l AOther (with_phase l Swapping)
| el_swap l : el_phase l = Swapping -> el_step l AOther (swap_pending l)
| el_functor l f fs : el_phase l = Running (f :: fs) -> el_step l (ARun f) (with_phase l (Running fs))
| el_round l : el_phase l = Running [] -> el_step l AOther (with_phase l Waiting).

Inductive el_run : EventLoop -> list el_action -> EventLoop -> Prop :=
| el_run_nil l : el_run l [] l
| el_run_snoc l as_ l1 a l2 : el_run l as_ l1 -> el_step l1 a l2 -> el_run l (as_ ++ [a]) l2.

Definition pushed (as_ : list el_action) : list Fn := omap (fun a => match a with APush f => Some f | _ => None end) as_.
Definition ran (as_ : list el_action) : list Fn := omap (fun a => match a with ARun f => Some f | _ => None end) as_.
(** After the constructor.  The registration of the wakeup descriptor, which no one removes, and
    its callback are the step [el_drain]. *)
Definition el_start : EventLoop := mkLoop ∅ ∅ [] 0 0 false Starting.

(** The functors taken from the queue and not yet run. *)
Definition in_hand (l : EventLoop) : list Fn := match el_phase l with Running fs => fs | _ => [] end.

(** While the loop waits or runs functors, a queued functor has a wakeup pending or owed. *)
Record loop_inv (as_ : list el_action) (l : EventLoop) : Prop := {
  li_fifo : pushed as_ = ran as_ ++ in_hand l ++ el_pending l;
  li_count : 0 <= el_wakeup l;
  li_awake : match el_phase l with Starting | Waiting | Running _ => el_pending l <> [] -> 0 < el_wakeup l \/ (0 < el_owed l)%nat | _ => True end;
}.

Lemma pushed_snoc as_ a : pushed (as_ ++ [a]) = pushed as_ ++ match a with APush f => [f] | _ => [] end.
Proof. unfold pushed. rewrite omap_app. by destruct a. Qed.
Lemma ran_snoc as_ a : ran (as_ ++ [a]) = ran as_ ++ match a with ARun f => [f] | _ => [] end.
Proof. unfold ran. rewrite omap_app. by destruct a. Qed.

Lemma wakeup_pos n : 0 <= n -> 0 < (if n + 1 <? 2 ^ 64 - 1 then n + 1 else n).
Proof. intros Hn. destruct (Z.ltb_spec (n + 1) (2 ^ 64 - 1)); lia. Qed.

Lemma loop_step_inv as_ l a l' : loop_inv as_ l -> el_step l a l' -> loop_inv (as_ ++ [a]) l'.
Proof.
  intros [Hf Hc Ha] Hstep. pose proof (wakeup_pos (el_wakeup l) Hc) as Hw.
  destruct Hstep as [l f|l Ho|l Hp|l|l|l fd ev cb|l fd ev|l fd Hfd|l evs Hr Hp|l Hr Hp|l ev evs Hp|l fd ev evs cb Hp Hfd Hcb|l fd ev evs Hp Hfd Hcb|l Hp|l Hp|l f fs Hp|l Hp];
    unfold in_hand in *; (split; [rewrite pushed_snoc, ran_snoc, Hf|..]); simpl in *; rewrite ?Hp in *; simpl in *; rewrite ?app_nil_r; try done; try lia.
  - by rewrite <- !app_assoc.
  - destruct (el_phase l); auto with lia.
  - destruct (el_phase l); auto with lia.
  - destruct (el_phase l); auto with lia.
  - by rewrite <- app_assoc.
Qed.

Lemma loop_run_inv as_ l : el_run el_start as_ l -> loop_inv as_ l.
Proof.
  intros H. remember el_start as l0 eqn:E0. induction H as [l|l as_ l1 a l2 H IH Hs].
  - subst. split; simpl; [done|lia|by intros ?].
  - eapply loop_step_inv; [|done]. by apply IH.
Qed.
End EventLoop.
Arguments EventLoop : clear implicits.
Arguments el_action : clear implicits.

(** C36: no functor and no wakeup is lost.  In every state reachable by any interleaving of
    threads that queue functors and the loop thread, the functors that ran, those in hand and
    those still queued are together the functors queued, in order, each once; and whenever
    the loop waits for events while functors are queued and every thread has finished its
    call, the wakeup descriptor is readable, so the wait ends and the queue is taken. *)
Theorem event_loop_no_lost_wakeup {Fn Cb : Type} (wakeup_fd : Z) (as_ : list (el_action Fn Cb)) (l : EventLoop Fn Cb) :
  el_run wakeup_fd el_start as_ l ->
  pushed as_ = ran as_ ++ in_hand l ++ el_pending l /\
  (el_phase l = Waiting -> el_pending l <> [] -> el_owed l = 0%nat -> 0 < el_wakeup l).
Proof.
  intros Hrun. destruct (loop_run_inv wakeup_fd as_ l Hrun) as [Hf _ Ha]. split; [done|].
  intros Hp Hne Ho. rewrite Hp in Ha. destruct (Ha Hne) as [|]; [done|lia].
Qed.

(** Queued after the swap of one round, the functor waits with the descriptor readable. *)
Lemma event_loop_no_lost_wakeup_witness :
  exists l : EventLoop nat nat,
    el_run 3 el_start ([] ++ [AOther] ++ [AOther] ++ [AOther] ++ [AOther] ++ [APush 7%nat] ++ [AWake] ++ [AOther]) l /\
    el_pending l = [7%nat] /\ 0 < el_wakeup l.
Proof.
  pose (l0 := el_start : EventLoop nat nat).
  pose (lb := el_begin l0). pose (l1 := with_phase lb (Dispatching [])). pose (l2 := with_phase l1 Swapping). pose (l3 := swap_pending l2).
  pose (l4 := push_functor l3 7%nat). pose (l5 := paid (wakeup l4)). pose (l6 := with_phase l5 Waiting).
  assert (el_run 3 l0 ([] ++ [AOther] ++ [AOther] ++ [AOther] ++ [AOther] ++ [APush 7%nat] ++ [AWake] ++ [AOther]) l6) as Hrun.
  { rewrite !app_assoc. apply el_run_snoc with l5; [|by apply (el_round 3 l5)].
    apply el_run_snoc with l4; [|apply (el_wake 3 l4); simpl; lia].
    apply el_run_snoc with l3; [|apply (el_push 3 l3)].
    apply el_run_snoc with l2; [|by apply (el_swap 3 l2)].
    apply el_run_snoc with l1; [|by apply (el_dispatched 3 l1)].
    apply el_run_snoc with lb; [|by apply (el_poll 3 lb [])].
    apply el_run_snoc with l0; [constructor|by apply (el_enter 3 l0)]. }
  exists l6. split; [exact Hrun|]. split; [reflexivity|].
  destruct (event_loop_no_lost_wakeup 3 _ l6 Hrun) as [_ Hw]. apply Hw; done.
Defined.

(** A [stop] that comes before the loop thread reaches [running_ = true] is overwritten: the
    loop starts and runs although it was told to stop, and the thread that called
    [EventLoopThread::stop] waits in [join]. *)
Theorem event_loop_early_stop_ignored :
  exists l : EventLoop nat nat,
    el_run 3 el_start [AOther; AOther; AOther] l /\ el_phase l = Waiting /\ el_running l = true.
Proof.
  pose (l0 := el_start : EventLoop nat nat). pose (l1 := el_stop l0). pose (l2 := wakeup l1).
  exists (el_begin l2). split; [|done]. apply (el_run_snoc 3 _ [AOther; AOther] l2); [|by apply (el_enter 3 l2)].
  apply (el_run_snoc 3 _ [AOther] l1); [|apply (el_stop_wake 3 l1)].
  apply (el_run_snoc 3 _ [] l0); [constructor|apply (el_request_stop 3 l0)].
Qed.

(** ** [ThreadPool]

    The condition variable is modelled at the grain that matters: between the evaluation of
    the wait's predicate and the moment the worker is on the wait queue it holds the mutex
    ([WParking]); a notification reaches only workers that are [WAsleep].  [submit] changes
    the queue under the mutex and notifies afterwards; [stop] clears [running_] and notifies
    without taking the mutex at all. *)

Section ThreadPool.
Context {T : Type}.

(** A worker: at the head of its loop, about to test the predicate, about to wait with the
    mutex held, on the wait queue, running a task, gone. *)
Inductive wstate := WHead | WReady | WParking | WAsleep | WBusy (t : T) | WExited.

Record ThreadPool := mkTP {
  tp_tasks : list T;
  tp_running : bool;
  tp_workers : list wstate;
  tp_notify_one : nat;   (* calls of submit past the unlock and before notify_one *)
  tp_notify_all : bool;  (* stop past running_ = false and before notify_all *)
}.

Definition ThreadPool_new (num_threads : nat) : ThreadPool := mkTP [] true (replicate num_threads WHead) 0 false.

Definition parking (w : wstate) : bool := match w with WParking => true | _ => false end.
Definition mutex_free (p : ThreadPool) : bool := negb (existsb parking (tp_workers p)).

Definition submit (p : ThreadPool) (t : T) : ThreadPool :=
  mkTP (tp_tasks p ++ [t]) (tp_running p) (tp_workers p) (S (tp_notify_one p)) (tp_notify_all p).

Definition tp_stop (p : ThreadPool) : ThreadPool :=
  mkTP (tp_tasks p) false (tp_workers p) (tp_notify_one p) true.

Definition set_worker (p : ThreadPool) (i : nat) (w : wstate) : ThreadPool :=
  mkTP (tp_tasks p) (tp_running p) (<[i := w]> (tp_workers p)) (tp_notify_one p) (tp_notify_all p).

Definition notified (p : ThreadPool) : ThreadPool :=
  mkTP (tp_tasks p) (tp_running p) (tp_workers p) (pred (tp_notify_one p)) (tp_notify_all p).

Definition wake (w : wstate) : wstate := match w with WAsleep => WReady | _ => w end.
Definition wake_all (p : ThreadPool) : ThreadPool :=
  mkTP (tp_tasks p) (tp_running p) (map wake (tp_workers p)) (tp_notify_one p) false.

Definition pop_task (p : ThreadPool) (i : nat) (t : T) (ts : list T) : ThreadPool :=
  mkTP ts (tp_running p) (<[i := WBusy t]> (tp_workers p)) (tp_notify_one p) (tp_notify_all p).

Inductive tp_action := TSubmit (t : T) | TStart (t : T) | TFinish (t : T) | TOther.

(** One atomic action of [workerLoop] of worker [i], of [submit] or of [stop]. *)
Inductive tp_step : ThreadPool -> tp_action -> ThreadPool -> Prop :=
| tp_submit p t : mutex_free p = true -> tp_step p (TSubmit t) (submit p t)
| tp_notify p i : (0 < tp_notify_one p)%nat -> tp_workers p !! i = Some WAsleep ->
    tp_step p TOther (notified (set_worker p i WReady))
| tp_notify_none p : (0 < tp_notify_one p)%nat -> Forall (fun w => w <> WAsleep) (tp_workers p) ->
    tp_step p TOther (notified p)
| tp_request_stop p : tp_step p TOther (tp_stop p)
| tp_broadcast p : tp_notify_all p = true -> tp_step p TOther (wake_all p)
| tp_enter p i : tp_workers p !! i = Some WHead ->
    tp_step p TOther (set_worker p i (if tp_running p then WReady else WExited))
| tp_park p i : tp_workers p !! i = Some WReady -> mutex_free p = true -> tp_tasks p = [] -> tp_running p = true ->
    tp_step p TOther (set_worker p i WParking)
| tp_sleep p i : tp_workers p !! i = Some WParking -> tp_step p TOther (set_worker p i WAsleep)
| tp_spurious p i : tp_workers p !! i = Some WAsleep -> tp_step p TOther (set_worker p i WReady)
| tp_leave p i : tp_workers p !! i = Some WReady -> mutex_free p = true -> tp_tasks p = [] -> tp_running p = false ->
    tp_step p TOther (set_worker p i WExited)
| tp_take p i t ts : tp_workers p !! i = Some WReady -> mutex_free p = true -> tp_tasks p = t :: ts ->
    tp_step p (TStart t) (pop_task p i t ts)
| tp_done p i t : tp_workers p !! i = Some (WBusy t) -> tp_step p (TFinish t) (set_worker p i WHead).

Inductive tp_run : ThreadPool -> list tp_action -> ThreadPool -> Prop :=
| tp_run_nil p : tp_run p [] p
| tp_run_snoc p as_ p1 a p2 : tp_run p as_ p1 -> tp_step p1 a p2 -> tp_run p (as_ ++ [a]) p2.

Definition tasks_submitted (as_ : list tp_action) : list T := omap (fun a => match a with TSubmit t => Some t | _ => None end) as_.
Definition started (as_ : list tp_action) : list T := omap (fun a => match a with TStart t => Some t | _ => None end) as_.
Definition finished (as_ : list tp_action) : list T := omap (fun a => match a with TFinish t => Some t | _ => None end) as_.

Definition busy (ws : list wstate) : list T := omap (fun w => match w with WBusy t => Some t | _ => None end) ws.

Lemma busy_update ws i w w' :
  ws !! i = Some w -> busy (<[i := w']> ws) ++ busy [w] ≡ₚ busy ws ++ busy [w'].
Proof.
  intros Hi. rewrite (insert_take_drop ws i w' ltac:(by eapply lookup_lt_Some)).
  rewrite <- (take_drop_middle ws i w Hi) at 3. unfold busy. rewrite !omap_app. cbn [omap list_omap].
  destruct w, w'; simpl; rewrite ?app_nil_r; try done; solve_Permutation.
Qed.

Lemma busy_move ws i w w' :
  ws !! i = Some w -> busy [w] = [] -> busy (<[i := w']> ws) ≡ₚ busy ws ++ busy [w'].
Proof. intros Hi Hw. rewrite <- (busy_update ws i w w' Hi), Hw. by rewrite app_nil_r. Qed.

Lemma busy_wake ws : busy (map wake ws) = busy ws.
Proof. induction ws as [|w ws IH]; [done|]. cbn. unfold busy in IH. rewrite IH. by destruct w. Qed.

(** Nothing runs that was not submitted, nothing is lost, nothing runs twice. *)
Record tp_inv (as_ : list tp_action) (p : ThreadPool) : Prop := {
  tpi_fifo : tasks_submitted as_ = started as_ ++ tp_tasks p;
  tpi_once : started as_ ≡ₚ finished as_ ++ busy (tp_workers p);
}.

Lemma trace_snoc as_ a :
  tasks_submitted (as_ ++ [a]) = tasks_submitted as_ ++ tasks_submitted [a] /\
  started (as_ ++ [a]) = started as_ ++ started [a] /\
  finished (as_ ++ [a]) = finished as_ ++ finished [a].
Proof. unfold tasks_submitted, started, finished. by rewrite !omap_app. Qed.

Lemma busy_idle ws i w w' as_ :
  ws !! i = Some w -> busy [w] = [] -> busy [w'] = [] ->
  finished as_ ++ busy (<[i := w']> ws) ≡ₚ finished as_ ++ busy ws.
Proof. intros Hi Hw Hw'. by rewrite (busy_move ws i w) by done; rewrite Hw', app_nil_r. Qed.

Lemma tp_step_inv as_ p a p' : tp_inv as_ p -> tp_step p a p' -> tp_inv (as_ ++ [a]) p'.
Proof.
  intros [Hf Ho] Hstep. destruct (trace_snoc as_ a) as (Es & Et & Ef).
  destruct Hstep as [p t Hm|p i Hn Hi|p Hn Ha|p|p Ha|p i Hi|p i Hi Hm Ht Hr|p i Hi|p i Hi|p i Hi Hm Ht Hr|p i t ts Hi Hm Ht|p i t Hi];
    (split; [rewrite Es, Et, Hf|rewrite Et, Ef, Ho]);
    cbn [tasks_submitted started finished omap list_omap tp_tasks tp_workers submit tp_stop set_worker notified wake_all pop_task];
    rewrite ?app_nil_r, ?busy_wake; try done; try (by symmetry; eapply busy_idle).
  - by rewrite <- app_assoc.
  - symmetry. eapply busy_idle; [done|done|by destruct (tp_running p)].
  - by rewrite Ht, <- app_assoc.
  - rewrite (busy_move _ i WReady) by done. by rewrite app_assoc.
  - pose proof (busy_update _ i _ WHead Hi) as Hu. cbn in Hu. rewrite app_nil_r in Hu.
    rewrite <- Hu. rewrite <- app_assoc. apply Permutation_app_head, Permutation_app_comm.
Qed.

Lemma tp_run_inv n as_ p : tp_run (ThreadPool_new n) as_ p -> tp_inv as_ p.
Proof.
  intros H. remember (ThreadPool_new n) as p0 eqn:E0. induction H as [p|p as_ p1 a p2 H IH Hs].
  - subst. split; [done|]. simpl. by induction n.
  - eapply tp_step_inv; [|done]. by apply IH.
Qed.

(** A worker that will test the queue again without being notified. *)
Definition up (w : wstate) : Prop := match w with WHead | WReady | WBusy _ => True | _ => False end.
Definition some_up (ws : list wstate) : Prop := Exists up ws.

Record tp_live (p : ThreadPool) : Prop := {
  tpl_some : tp_workers p <> [];
  tpl_parked : WParking ∈ tp_workers p -> tp_tasks p = [];
  tpl_exited : tp_running p = true -> WExited ∉ tp_workers p;
  tpl_up : tp_running p = true -> tp_tasks p <> [] -> (0 < tp_notify_one p)%nat \/ some_up (tp_workers p);
}.

Lemma elem_of_update {A} (l : list A) i x y : y ∈ <[i := x]> l -> y = x \/ y ∈ l.
Proof.
  intros [j Hj]%list_elem_of_lookup. destruct (decide (i = j)) as [->|Hne].
  - apply list_lookup_insert_Some in Hj as [(_ & -> & _)|(Hne & _)]; [by left|done].
  - rewrite list_lookup_insert_ne in Hj by done. right. by eapply list_elem_of_lookup_2.
Qed.

Lemma some_up_at ws i (w w' : wstate) : ws !! i = Some w -> up w' -> some_up (<[i := w']> ws).
Proof.
  intros Hi Hw. apply Exists_exists. exists w'. split; [|done].
  apply (list_elem_of_lookup_2 _ i), list_lookup_insert_eq. by eapply lookup_lt_Some.
Qed.

Lemma update_nil {A} (l : list A) i x : l <> [] -> <[i := x]> l <> [].
Proof. intros Hl Hn. apply Hl, length_zero_iff_nil. rewrite <- (length_insert l i x), Hn. done. Qed.

Lemma mutex_free_spec p : mutex_free p = true -> WParking ∉ tp_workers p.
Proof.
  unfold mutex_free. intros H%negb_true_iff Hin. apply not_true_iff_false in H. apply H.
  apply existsb_exists. exists WParking. by rewrite <- list_elem_of_In.
Qed.

Lemma wake_elem ws w : w <> WReady -> w ∈ map wake ws -> w ∈ ws.
Proof. intros Hw (x & -> & Hx)%list_elem_of_fmap. by destruct x. Qed.

Lemma some_up_wake ws : some_up ws -> some_up (map wake ws).
Proof.
  unfold some_up. rewrite !Exists_exists. intros (w & Hw & Hu). exists w. split; [|done].
  apply list_elem_of_fmap. exists w. by destruct w.
Qed.

(** A worker is set to a state that waits for nothing. *)
Lemma live_raise p p' i w w' :
  tp_live p -> tp_workers p !! i = Some w -> up w' ->
  tp_workers p' = <[i := w']> (tp_workers p) -> tp_running p' = tp_running p ->
  (tp_tasks p = [] -> tp_tasks p' = []) -> tp_live p'.
Proof.
  intros [Hs Hp He Hu] Hi Hw Hws Hr Ht. split; rewrite Hws, ?Hr.
  - by apply update_nil.
  - intros [<-|Hin]%elem_of_update; [done|auto].
  - intros Hrun [<-|Hin]%elem_of_update; [done|by apply He].
  - intros _ _. right. by eapply some_up_at.
Qed.

(** A worker is set to any state while the queue is empty. *)
Lemma live_lower p i w :
  tp_live p -> tp_tasks p = [] -> (w = WExited -> tp_running p = false) -> tp_live (set_worker p i w).
Proof.
  intros [Hs Hp He Hu] Ht Hw. split; cbn.
  - by apply update_nil.
  - done.
  - intros Hrun [<-|Hin]%elem_of_update; [|by apply He]. rewrite Hw in Hrun; done.
  - done.
Qed.

Lemma all_up p :
  tp_live p -> tp_running p = true -> tp_tasks p <> [] -> Forall (fun w => w <> WAsleep) (tp_workers p) ->
  some_up (tp_workers p).
Proof.
  intros [Hs Hp He _] Hr Ht Ha. destruct (tp_workers p) as [|w ws]; [done|]. constructor.
  apply Forall_cons in Ha as [Hw _]. destruct w; simpl; try done.
  - apply Ht, Hp. by left.
  - apply (He Hr). by left.
Qed.

Lemma tp_step_live p a p' : tp_live p -> tp_step p a p' -> tp_live p'.
Proof.
  intros HL Hstep. pose proof HL as [Hs Hp He Hu].
  destruct Hstep as [p t Hm|p i Hn Hi|p Hn Ha|p|p Ha|p i Hi|p i Hi Hm Ht Hr|p i Hi|p i Hi|p i Hi Hm Ht Hr|p i t ts Hi Hm Ht|p i t Hi].
  - split; cbn; [done| |done|]; [by intros ?%(mutex_free_spec p Hm)|]. intros _ _. left. lia.
  - eapply (live_raise p _ i WAsleep WReady); done.
  - split; cbn; [done|done|done|]. intros Hr Ht. right. by apply all_up.
  - by split; cbn.
  - split; cbn; [by destruct (tp_workers p)| | |].
    + intros H%wake_elem; [auto|done].
    + intros Hr H%wake_elem; [by apply He|done].
    + intros Hr Ht. destruct (Hu Hr Ht) as [|H]; [by left|right]. by apply some_up_wake.
  - destruct (tp_running p) eqn:Hr; [by eapply (live_raise p _ i WHead WReady)|]. split; cbn.
    + by apply update_nil.
    + intros [?|Hin]%elem_of_update; [done|auto].
    + by rewrite Hr.
    + by rewrite Hr.
  - by apply live_lower.
  - apply live_lower; [done| |done]. apply Hp. by eapply list_elem_of_lookup_2.
  - by eapply (live_raise p _ i WAsleep WReady).
  - by apply live_lower.
  - eapply (live_raise p _ i WReady (WBusy t)); [done..|]. by rewrite Ht.
  - by eapply (live_raise p _ i (WBusy t) WHead).
Qed.

Lemma tp_run_live n as_ p : (0 < n)%nat -> tp_run (ThreadPool_new n) as_ p -> tp_live p.
Proof.
  intros Hn H. remember (ThreadPool_new n) as p0 eqn:E0. induction H as [p|p as_ p1 a p2 H IH Hs].
  - subst. split; cbn; [by destruct n; [lia|]|done| |done].
    intros _ [? _]%elem_of_replicate. done.
  - eapply tp_step_live; [|done]. by apply IH.
Qed.

(** Once every worker is gone no task starts any more, whatever is submitted. *)
Lemma tp_dead_drops p as_ p' :
  Forall (fun w => w = WExited) (tp_workers p) -> tp_run p as_ p' ->
  started as_ = [] /\ tp_tasks p' = tp_tasks p ++ tasks_submitted as_ /\ tp_workers p' = tp_workers p.
Proof.
  intros Hd. induction 1 as [p|p as_ p1 a p2 H IH Hs]; [by rewrite app_nil_r|].
  destruct (IH Hd) as (I1 & I2 & I3). destruct (trace_snoc as_ a) as (Es & Et & _).
  rewrite Es, Et, I1. rewrite <- I3 in Hd. assert (map wake (tp_workers p1) = tp_workers p1) as Hwk.
  { clear -Hd. induction Hd as [|w ws ->]; [done|]. cbn. by f_equal. }
  destruct Hs; simpl; try (eapply Forall_lookup_1 in Hd; [|eassumption]; discriminate);
    rewrite ?I2, ?Hwk, ?app_nil_r; try done.
  by rewrite <- app_assoc.
Qed.
End ThreadPool.
Arguments ThreadPool : clear implicits.
Arguments tp_action : clear implicits.
Arguments wstate : clear implicits.

(** The thread pool runs each task exactly once, starts them in the order of submission and
    strands none.  For any positive number of workers and any interleaving of clients and
    workers, the tasks started followed by those queued are the tasks submitted; the started
    ones are the finished ones plus those that workers hold now; and while the pool runs, a
    non-empty queue whose notifications are all delivered has a worker that is not asleep. *)
Theorem thread_pool_exactly_once {T : Type} (n : nat) (as_ : list (tp_action T)) (p : ThreadPool T) :
  (0 < n)%nat -> tp_run (ThreadPool_new n) as_ p ->
  tasks_submitted as_ = started as_ ++ tp_tasks p /\
  started as_ ≡ₚ finished as_ ++ busy (tp_workers p) /\
  (tp_running p = true -> tp_tasks p <> [] -> tp_notify_one p = 0%nat -> some_up (tp_workers p)).
Proof.
  intros Hn H. destruct (tp_run_inv n as_ p H) as [Hf Ho]. pose proof (tp_run_live n as_ p Hn H) as HL.
  split_and!; [done|done|]. intros Hr Ht H0. destruct (tpl_up p HL Hr Ht) as [|]; [lia|done].
Qed.

(** One worker asleep, a task submitted and its notification delivered: the worker is up. *)
Lemma thread_pool_exactly_once_witness :
  exists p : ThreadPool nat,
    tp_run (ThreadPool_new 1) ([] ++ [TOther] ++ [TOther] ++ [TOther] ++ [TSubmit 5%nat] ++ [TOther]) p /\
    tp_tasks p = [5%nat] /\ some_up (tp_workers p).
Proof.
  pose (p0 := ThreadPool_new 1 : ThreadPool nat).
  pose (p1 := set_worker p0 0 WReady). pose (p2 := set_worker p1 0 WParking). pose (p3 := set_worker p2 0 WAsleep).
  pose (p4 := submit p3 5%nat). pose (p5 := notified (set_worker p4 0 WReady)).
  assert (tp_run p0 ([] ++ [TOther] ++ [TOther] ++ [TOther] ++ [TSubmit 5%nat] ++ [TOther]) p5) as Hrun.
  { rewrite !app_assoc. apply tp_run_snoc with p4; [|apply (tp_notify p4 0); [cbn; lia|done]].
    apply tp_run_snoc with p3; [|by apply (tp_submit p3)].
    apply tp_run_snoc with p2; [|by apply (tp_sleep p2 0)].
    apply tp_run_snoc with p1; [|by apply (tp_park p1 0)].
    apply tp_run_snoc with p0; [constructor|by apply (tp_enter p0 0)]. }
  exists p5. split; [exact Hrun|]. split; [reflexivity|].
  destruct (thread_pool_exactly_once 1 _ p5 ltac:(lia) Hrun) as (_ & _ & Hup). by apply Hup.
Defined.

(** [stop] can hang: a worker that has found the queue empty and the pool running, and has
    not reached the wait queue yet, misses the only [notify_all], because [stop] does not
    take the mutex.  In the state reached every call of [stop] has notified, the worker is
    asleep, and apart from a spurious wakeup or a new call of a client nothing can happen,
    so the [join] in [stop] waits for ever. *)
Theorem thread_pool_stop_loses_wakeup :
  exists p : ThreadPool nat,
    tp_run (ThreadPool_new 1) [TOther; TOther; TOther; TOther; TOther] p /\
    tp_running p = false /\ tp_notify_all p = false /\ tp_workers p = [WAsleep] /\
    (forall a p', tp_step p a p' -> (exists t, a = TSubmit t) \/ p' = tp_stop p \/ p' = set_worker p 0 WReady).
Proof.
  pose (p0 := ThreadPool_new 1 : ThreadPool nat).
  pose (p1 := set_worker p0 0 WReady). pose (p2 := set_worker p1 0 WParking). pose (p3 := tp_stop p2).
  pose (p4 := wake_all p3). pose (p5 := set_worker p4 0 WAsleep). exists p5. split_and!; try done.
  - change [TOther; TOther; TOther; TOther; TOther] with ([@TOther nat; TOther; TOther; TOther] ++ [TOther]).
    apply tp_run_snoc with p4; [|by apply (tp_sleep p4 0)].
    apply (tp_run_snoc _ [TOther; TOther; TOther] p3); [|by apply (tp_broadcast p3)].
    apply (tp_run_snoc _ [TOther; TOther] p2); [|apply (tp_request_stop p2)].
    apply (tp_run_snoc _ [TOther] p1); [|by apply (tp_park p1 0)].
    apply (tp_run_snoc _ [] p0); [constructor|by apply (tp_enter p0 0)].
  - intros a p' Hs. remember p5 as q eqn:Eq.
    destruct Hs as [p t Hm|p i Hn Hi|p Hn Ha|p|p Ha|p i Hi|p i Hi Hm Ht Hr|p i Hi|p i Hi|p i Hi Hm Ht Hr|p i t ts Hi Hm Ht|p i t Hi];
      subst p; cbn in *; try lia; try done; try (by destruct i); eauto.
    destruct i; [by auto|done].
Qed.
