(* ===== verification/ServerMain.v ===== *)
(** * The accept path and the program's entry

    [EventLoopThreadPool] (the sub reactors), the constructor, accept loop and connection
    registration of [network/server.cpp], and the argument parsing of [main.cpp].  A loop is
    identified by a number, its state is the [EventLoop] of [Reactor]; the functors queued on
    a loop and the callbacks registered with it are the ones the server creates. *)

From Stdlib Require Import ZArith Lia.
From stdpp Require Import base numbers strings list gmap.
From S2P Require Import Prelude CppString Slice Reactor.
Local Open Scope Z_scope.

(** ** [EventLoopThreadPool] *)

Record LoopPool := mkPool {
  lp_main : nat;            (* main_loop_ *)
  lp_loops : list nat;      (* loops_, one per element of threads_ *)
  lp_next : Z;              (* next_, a size_t *)
  lp_started : bool;
}.

Definition LoopPool_new (main_loop : nat) : LoopPool := mkPool main_loop [] 0 false.

(** [startLoop] returns the address of a new loop: [fresh], [fresh + 1], ... *)
Definition lp_start (p : LoopPool) (num_threads fresh : nat) : LoopPool :=
  if lp_started p then p
  else mkPool (lp_main p) (lp_loops p ++ seq fresh num_threads) (lp_next p) true.

Definition lp_stop (p : LoopPool) : LoopPool := mkPool (lp_main p) [] 0 false.

Definition lp_choose (p : LoopPool) : nat * LoopPool :=
  match lp_loops p with
  | [] => (lp_main p, p)
  | _ => (lp_loops p !!! Z.to_nat (lp_next p mod zlen (lp_loops p)),
          mkPool (lp_main p) (lp_loops p) (u64 (lp_next p + 1)) (lp_started p))
  end.

(** ** [EventLoopThread] *)

Section LoopThread.
Context {Fn Cb : Type} (wakeup_fd : Z).

(** The thread: not created, before the loop is published, in [loop.loop()], ended. *)
Inductive tphase := TNone | TStarting | TLooping | TDone.
(** The caller of [stop]: not yet, holding the loop it is about to stop, in [join], returned. *)
Inductive sphase := SNone | SCalling | SWaking | SJoining | SReturned.

Record LoopThread := mkLT {
  lt_loop : bool;                    (* loop_ != nullptr *)
  lt_exiting : bool;
  lt_phase : tphase;
  lt_stop : sphase;
  lt_el : EventLoop Fn Cb;           (* the loop on the thread's stack *)
}.

Definition LoopThread_new : LoopThread := mkLT false false TNone SNone el_start.

(** One action of [startLoop], [threadFunc] or [stop]. *)
Inductive lt_step : LoopThread -> LoopThread -> Prop :=
| lt_create t : lt_phase t = TNone ->
    lt_step t (mkLT (lt_loop t) (lt_exiting t) TStarting (lt_stop t) (lt_el t))
| lt_publish t : lt_phase t = TStarting ->
    lt_step t (mkLT true (lt_exiting t) TLooping (lt_stop t) (lt_el t))
| lt_run t a l : lt_phase t = TLooping -> el_step wakeup_fd (lt_el t) a l ->
    lt_step t (mkLT (lt_loop t) (lt_exiting t) (lt_phase t) (lt_stop t) l)
| lt_end t : lt_phase t = TLooping -> el_phase (lt_el t) = Exited ->
    lt_step t (mkLT false (lt_exiting t) TDone (lt_stop t) (lt_el t))
| lt_call_stop t : lt_exiting t = false ->
    lt_step t (mkLT (lt_loop t) true (lt_phase t) (if lt_loop t then SCalling else SJoining) (lt_el t))
| lt_stop_store t : lt_stop t = SCalling ->
    lt_step t (mkLT (lt_loop t) (lt_exiting t) (lt_phase t) SWaking (el_stop (lt_el t)))
| lt_stop_wake t : lt_stop t = SWaking ->
    lt_step t (mkLT (lt_loop t) (lt_exiting t) (lt_phase t) SJoining (wakeup (lt_el t)))
| lt_join t : lt_stop t = SJoining -> lt_phase t = TDone \/ lt_phase t = TNone ->
    lt_step t (mkLT (lt_loop t) (lt_exiting t) (lt_phase t) SReturned (lt_el t)).

Inductive lt_reach : LoopThread -> Prop :=
| lt_reach_new : lt_reach LoopThread_new
| lt_reach_step t t' : lt_reach t -> lt_step t t' -> lt_reach t'.

(** [startLoop] returns, and other threads see, a loop exactly while its thread runs it: the
    pointer never refers to a loop that is gone. *)
Lemma loop_published t : lt_reach t -> lt_loop t = true <-> lt_phase t = TLooping.
Proof.
  induction 1 as [|t t' H IH Hs]; [done|]. destruct Hs; simpl in *; try done.
  - split; [|done]. intros E. apply IH in E. congruence.
Qed.
End LoopThread.
Arguments LoopThread : clear implicits.

(** ** [Server] *)

Definition EPOLLIN : Z := 1.

(** The functor [registerConnection(io, connFd)] and the callback of a connection. *)
Inductive functor := FRegister (io : nat) (connFd : Z).
Inductive callback := CAccept | CConnection (connFd : Z).

Record Server := mkServer {
  sv_port : Z;
  sv_io_threads : Z;
  sv_biz_threads : Z;
  sv_biz_pool : option nat;                          (* biz_pool_ and its number of workers *)
  sv_listen_fd : Z;
  sv_pool : LoopPool;
  sv_loops : gmap nat (EventLoop functor callback);
}.

(** The listening socket: [None] when [socket], [bind] or [listen] fails, otherwise the
    descriptor and the port [getsockname] reports for it. *)
Definition Server_new (port io_threads biz_threads : Z) (listening : option (Z * Z)) : Server :=
  let io := if io_threads <? 0 then 0 else io_threads in
  let biz := if biz_threads <? 0 then 0 else biz_threads in
  mkServer (match listening with Some (_, p) => if port =? 0 then p else port | None => port end)
           io biz (if biz >? 0 then Some (Z.to_nat biz) else None)
           (match listening with Some (fd, _) => fd | None => -1 end)
           (LoopPool_new 0) {[ 0%nat := el_start ]}.

Definition with_loops (s : Server) (p : LoopPool) (ls : gmap nat (EventLoop functor callback)) : Server :=
  mkServer (sv_port s) (sv_io_threads s) (sv_biz_threads s) (sv_biz_pool s) (sv_listen_fd s) p ls.

(** The new loops [io_pool_.start] creates. *)
Definition start_loops (ids : list nat) (ls : gmap nat (EventLoop functor callback)) : gmap nat (EventLoop functor callback) :=
  foldr (fun i ls => <[i := el_start]> ls) ls ids.

(** The part of [run] before [loop_.loop()]: [false] when the server does not listen. *)
Definition server_start (s : Server) : Server * bool :=
  if sv_listen_fd s <? 0 then (s, false)
  else
    let n := Z.to_nat (sv_io_threads s) in
    let p := lp_start (sv_pool s) n 1 in
    let ls := start_loops (seq 1 n) (sv_loops s) in
    (with_loops s p (alter (fun l => addEvent l (sv_listen_fd s) EPOLLIN CAccept) (lp_main p) ls), true).

Definition registerConnection (l : EventLoop functor callback) (connFd : Z) : EventLoop functor callback :=
  addEvent l connFd EPOLLIN (CConnection connFd).

(** [runInLoop]: run at once on the loop's own thread, otherwise queue and wake. *)
Definition runInLoop (isInLoopThread : bool) (l : EventLoop functor callback) (f : functor) : EventLoop functor callback :=
  if isInLoopThread then match f with FRegister _ connFd => registerConnection l connFd end
  else paid (wakeup (push_functor l f)).

Inductive accept_result := Accepted (connFd : Z) | Interrupted | AcceptFailed.

(** The accept loop on the results [accept4] gives; it runs on the thread of the main loop. *)
Fixpoint handleNewConnection (rs : list accept_result) (s : Server) : Server :=
  match rs with
  | [] | AcceptFailed :: _ => s
  | Interrupted :: rs => handleNewConnection rs s
  | Accepted fd :: rs =>
      let (io, p) := lp_choose (sv_pool s) in
      handleNewConnection rs
        (with_loops s p (alter (fun l => runInLoop (bool_decide (io = lp_main p)) l (FRegister io fd)) io (sv_loops s)))
  end.

(** ** [main] *)

Record MainArgs := mkArgs { ma_port : Z; ma_io : Z; ma_biz : Z; ma_host : bytes; ma_db : bytes }.
Definition default_args : MainArgs := mkArgs 8888 4 4 (bs "0.0.0.0") (bs "./minikv_data").

(** The chain of comparisons for an argument that has a value after it. *)
Definition set_arg (arg v : bytes) (a : MainArgs) : option MainArgs :=
  if bool_decide (arg = bs "--port") then Some (mkArgs (atoi v) (ma_io a) (ma_biz a) (ma_host a) (ma_db a))
  else if bool_decide (arg = bs "--host") then Some (mkArgs (ma_port a) (ma_io a) (ma_biz a) v (ma_db a))
  else if bool_decide (arg = bs "--db") then Some (mkArgs (ma_port a) (ma_io a) (ma_biz a) (ma_host a) v)
  else if bool_decide (arg = bs "--io-threads") then Some (mkArgs (ma_port a) (atoi v) (ma_biz a) (ma_host a) (ma_db a))
  else if bool_decide (arg = bs "--biz-threads") then Some (mkArgs (ma_port a) (ma_io a) (atoi v) (ma_host a) (ma_db a))
  else None.

(** The argument loop: an argument that takes a value consumes it, any other is skipped. *)
Fixpoint parse_args (argv : list bytes) (a : MainArgs) : MainArgs :=
  match argv with
  | [] | [_] => a
  | arg :: ((v :: rest) as tl) =>
      match set_arg arg v a with Some a' => parse_args rest a' | None => parse_args tl a end
  end.

Definition main_options (a : MainArgs) : Options :=
  mkOptions (memtable_size default_options) (block_size default_options) (lru_cache_capacity default_options)
            (max_level default_options) (level0_compaction_trigger default_options) false (ma_db a)
            (compression default_options).

(** The server [main] runs once the database is open. *)
Definition main_server (a : MainArgs) (listening : option (Z * Z)) : Server :=
  Server_new (ma_port a) (ma_io a) (ma_biz a) listening.

(** ** Theorems *)

(** The connections one call of the accept loop takes. *)
Fixpoint accepted (rs : list accept_result) : list Z :=
  match rs with
  | [] | AcceptFailed :: _ => []
  | Interrupted :: rs => accepted rs
  | Accepted fd :: rs => fd :: accepted rs
  end.

(** The descriptors whose turn falls on loop [j] of [n], the first turn being [k]. *)
Fixpoint turn (n j k : Z) (fds : list Z) : list Z :=
  match fds with
  | [] => []
  | fd :: fds => (if k mod n =? j then [fd] else []) ++ turn n j (k + 1) fds
  end.

Lemma div_step x n : 0 < n -> (x + 1) / n = x / n + (if (x + 1) mod n =? 0 then 1 else 0).
Proof.
  intros Hn. pose proof (Z.div_mod x n). pose proof (Z.mod_pos_bound x n Hn).
  pose proof (Z.div_mod (x + 1) n). pose proof (Z.mod_pos_bound (x + 1) n Hn).
  destruct (Z.eqb_spec ((x + 1) mod n) 0) as [E|E]; nia.
Qed.

Lemma mod_turn k j n : 0 <= j < n -> ((k - j) mod n =? 0) = (k mod n =? j).
Proof.
  intros Hj. apply eq_bool_prop_intro. rewrite !Is_true_true, !Z.eqb_eq.
  pose proof (Z.div_mod k n). pose proof (Z.div_mod (k - j) n). split; intros E.
  - symmetry. apply (Z.mod_unique_pos _ _ ((k - j) / n)); lia.
  - symmetry. apply (Z.mod_unique_pos _ _ (k / n)); lia.
Qed.

Lemma turn_length n j k fds :
  0 <= j < n -> 0 <= k -> zlen (turn n j k fds) = (k + zlen fds + n - 1 - j) / n - (k + n - 1 - j) / n.
Proof.
  intros Hj. unfold zlen. revert k. induction fds as [|fd fds IH]; intros k Hk; simpl.
  { rewrite Z.add_0_r. lia. }
  rewrite length_app, Nat2Z.inj_add, IH by lia.
  replace (k + 1 + n - 1 - j) with (k + n - 1 - j + 1) by lia. rewrite (div_step (k + n - 1 - j)) by lia.
  replace ((k + n - 1 - j + 1) mod n =? 0) with (k mod n =? j).
  2: { replace (k + n - 1 - j + 1) with (k - j + 1 * n) by lia. rewrite Z.mod_add by lia.
       by rewrite mod_turn. }
  destruct (k mod n =? j); simpl; replace (k + 1 + Z.of_nat (length fds)) with (k + Z.of_nat (S (length fds))) by lia; lia.
Qed.

(** Every loop gets the same share up to one connection. *)
Lemma turn_balanced n j k fds :
  0 <= j < n -> 0 <= k -> zlen fds / n <= zlen (turn n j k fds) <= zlen fds / n + 1.
Proof.
  intros Hj Hk. rewrite turn_length by done. set (x := k + n - 1 - j). set (m := zlen fds).
  replace (k + m + n - 1 - j) with (x + m) by lia.
  pose proof (Z.div_mod x n). pose proof (Z.mod_pos_bound x n). pose proof (Z.div_mod m n).
  pose proof (Z.mod_pos_bound m n). pose proof (Z.div_mod (x + m) n). pose proof (Z.mod_pos_bound (x + m) n). nia.
Qed.

(** The state of the accept loop over [n] sub reactors. *)
Record pool_ok (p : LoopPool) : Prop := {
  po_some : lp_loops p <> [];
  po_nodup : NoDup (lp_loops p);
  po_main : lp_main p ∉ lp_loops p;
  po_next : 0 <= lp_next p;
}.

Lemma lp_choose_ok p :
  pool_ok p -> lp_next p < 2 ^ 64 - 1 ->
  exists io, lp_loops p !! Z.to_nat (lp_next p mod zlen (lp_loops p)) = Some io /\ io <> lp_main p /\
  lp_choose p = (io, mkPool (lp_main p) (lp_loops p) (lp_next p + 1) (lp_started p)).
Proof.
  intros [Hs Hd Hm Hn] Hb. assert (0 < zlen (lp_loops p)) as Hl.
  { unfold zlen. destruct (lp_loops p); [done|simpl; lia]. }
  pose proof (Z.mod_pos_bound (lp_next p) _ Hl) as Hr.
  destruct (lookup_lt_is_Some_2 (lp_loops p) (Z.to_nat (lp_next p mod zlen (lp_loops p)))) as [io Hio].
  { unfold zlen in *. lia. }
  exists io. split; [done|]. split.
  - intros ->. by apply Hm; eapply list_elem_of_lookup_2.
  - unfold lp_choose. rewrite u64_small by lia. rewrite (list_lookup_total_correct _ _ _ Hio).
    by destruct (lp_loops p).
Qed.

Lemma handleNewConnection_turns rs s j io l :
  pool_ok (sv_pool s) -> lp_next (sv_pool s) + zlen (accepted rs) < 2 ^ 64 ->
  lp_loops (sv_pool s) !! j = Some io -> sv_loops s !! io = Some l ->
  exists l', sv_loops (handleNewConnection rs s) !! io = Some l' /\
    el_pending l' = el_pending l ++
      map (FRegister io) (turn (zlen (lp_loops (sv_pool s))) (Z.of_nat j) (lp_next (sv_pool s)) (accepted rs)).
Proof.
  revert s l. induction rs as [|[fd| |] rs IH]; intros s l Hok Hb Hj Hl; simpl.
  1, 4: by exists l; rewrite app_nil_r.
  2: by apply IH.
  pose proof Hok as [Hs Hd Hm Hn]. unfold zlen in Hb. simpl in Hb.
  destruct (lp_choose_ok (sv_pool s) Hok ltac:(lia)) as (io' & Hio & Hne & Hc). rewrite Hc.
  cbn [lp_main]. rewrite bool_decide_eq_false_2 by done. cbn [runInLoop].
  set (s' := with_loops s _ _). set (k := lp_next (sv_pool s)) in *. set (n := zlen (lp_loops (sv_pool s))) in *.
  assert (0 <= k mod n) as Hpos by (apply Z_mod_nonneg_nonneg; unfold n, zlen; lia).
  assert (exists l1, sv_loops s' !! io = Some l1 /\
    el_pending l1 = el_pending l ++ map (FRegister io) (if k mod n =? Z.of_nat j then [fd] else [])) as (l1 & Hl1 & Hp1).
  { subst s'. cbn. destruct (Z.eqb_spec (k mod n) (Z.of_nat j)) as [E|E].
    - assert (io' = io) as -> by (rewrite E, Nat2Z.id in Hio; congruence).
      rewrite lookup_alter_eq, Hl. by eexists.
    - rewrite lookup_alter_ne; [by exists l; rewrite app_nil_r|]. intros ->.
      apply E. rewrite <- (NoDup_lookup _ _ _ _ Hd Hio Hj). lia. }
  destruct (IH s' l1) as (l' & Hl' & Hp'); [split; cbn; [done|done|done|lia]|cbn; unfold zlen; lia|done|done|].
  exists l'. split; [done|]. rewrite Hp', Hp1, map_app. by rewrite app_assoc.
Qed.

Lemma fresh_loops n ls i :
  (1 <= i <= n)%nat -> start_loops (seq 1 n) ls !! i = Some el_start.
Proof.
  intros Hi. assert (i ∈ seq 1 n) as Hin by (apply elem_of_seq; lia). revert Hin. clear Hi.
  induction (seq 1 n) as [|x xs IH]; simpl; intros Hin; [by inversion Hin|].
  destruct (decide (x = i)) as [->|Hne]; [by rewrite lookup_insert_eq|].
  rewrite lookup_insert_ne by done. apply IH. apply elem_of_cons in Hin as [->|]; done.
Qed.

Lemma server_start_ok port io biz fd pt j :
  0 <= fd -> (j < Z.to_nat io)%nat ->
  let s := (server_start (Server_new port io biz (Some (fd, pt)))).1 in
  pool_ok (sv_pool s) /\ lp_next (sv_pool s) = 0 /\ zlen (lp_loops (sv_pool s)) = io /\
  lp_loops (sv_pool s) !! j = Some (S j) /\ sv_loops s !! S j = Some el_start.
Proof.
  intros Hfd Hj. unfold server_start. cbn [Server_new sv_listen_fd].
  destruct (Z.ltb_spec fd 0) as [?|_]; [lia|]. cbn.
  destruct (Z.ltb_spec io 0) as [?|_]; [lia|]. split; [|split; [done|split; [|split]]].
  - split; cbn; [by destruct (Z.to_nat io); [lia|]|apply NoDup_seq|rewrite elem_of_seq; lia|lia].
  - unfold zlen. rewrite length_seq. lia.
  - by rewrite lookup_seq_lt.
  - rewrite lookup_alter_ne by done. apply fresh_loops. lia.
Qed.

(** Without sub reactors every accepted connection is registered with the main loop at once. *)
Lemma accept_on_main rs s l :
  lp_loops (sv_pool s) = [] -> sv_loops s !! lp_main (sv_pool s) = Some l ->
  exists l', sv_loops (handleNewConnection rs s) !! lp_main (sv_pool s) = Some l' /\
    el_pending l' = el_pending l /\
    el_callbacks l' = foldl (fun m fd => <[fd := CConnection fd]> m) (el_callbacks l) (accepted rs).
Proof.
  revert s l. induction rs as [|[fd| |] rs IH]; intros s l Hl Hm; simpl; [by exists l| |by apply IH|by exists l].
  unfold lp_choose. rewrite Hl, bool_decide_eq_true_2 by done. set (s' := with_loops s _ _).
  apply (IH s' (registerConnection l fd)); [done|]. subst s'. cbn. by rewrite lookup_alter_eq, Hm.
Qed.

(** The accept path spreads connections evenly.  Started with a listening socket and [io]
    sub reactors, the server queues on sub reactor [j] the registration of exactly the
    accepted connections whose turn is [j] modulo [io], in the order of arrival, and the
    number of connections of each is the average up to one. *)
Theorem accept_round_robin (port io biz fd pt : Z) (rs : list accept_result) (j : nat) :
  0 <= fd -> (j < Z.to_nat io)%nat -> zlen (accepted rs) < 2 ^ 64 ->
  let s := (server_start (Server_new port io biz (Some (fd, pt)))).1 in
  let mine := turn io (Z.of_nat j) 0 (accepted rs) in
  (exists l, sv_loops (handleNewConnection rs s) !! S j = Some l /\ el_pending l = map (FRegister (S j)) mine) /\
  zlen (accepted rs) / io <= zlen mine <= zlen (accepted rs) / io + 1.
Proof.
  intros Hfd Hj Hb s mine. destruct (server_start_ok port io biz fd pt j Hfd Hj) as (Hp & Hn & Hz & Hl & Hs). fold s in Hp, Hn, Hz, Hl, Hs.
  split; [|apply turn_balanced; lia].
  destruct (handleNewConnection_turns rs s j (S j) el_start Hp ltac:(rewrite Hn; lia) Hl Hs) as (l & Hl' & Hpend).
  exists l. split; [done|]. by rewrite Hpend, Hz, Hn.
Qed.

Lemma accept_round_robin_witness :
  exists l, sv_loops (handleNewConnection [Accepted 7; Interrupted; Accepted 8; Accepted 9; AcceptFailed]
                        (server_start (Server_new 8888 2 4 (Some (3, 8888)))).1) !! 1%nat = Some l /\
            el_pending l = [FRegister 1 7; FRegister 1 9].
Proof.
  destruct (accept_round_robin 8888 2 4 3 8888 [Accepted 7; Interrupted; Accepted 8; Accepted 9; AcceptFailed] 0
    ltac:(lia) ltac:(cbn; lia) ltac:(vm_compute; reflexivity)) as [(l & Hl & Hp) _].
  exists l. split; [exact Hl|]. rewrite Hp. reflexivity.
Defined.

Lemma set_arg_names v a :
  set_arg (bs "--port") v a = Some (mkArgs (atoi v) (ma_io a) (ma_biz a) (ma_host a) (ma_db a)) /\
  set_arg (bs "--host") v a = Some (mkArgs (ma_port a) (ma_io a) (ma_biz a) v (ma_db a)) /\
  set_arg (bs "--db") v a = Some (mkArgs (ma_port a) (ma_io a) (ma_biz a) (ma_host a) v) /\
  set_arg (bs "--io-threads") v a = Some (mkArgs (ma_port a) (atoi v) (ma_biz a) (ma_host a) (ma_db a)) /\
  set_arg (bs "--biz-threads") v a = Some (mkArgs (ma_port a) (ma_io a) (atoi v) (ma_host a) (ma_db a)).
Proof. split_and!; reflexivity. Qed.

Lemma parse_args_step arg v rest a a' : set_arg arg v a = Some a' -> parse_args (arg :: v :: rest) a = parse_args rest a'.
Proof. intros H. cbn [parse_args]. by rewrite H. Qed.

(** A full command line gives its five values whatever the defaults; [--port] at the end of
    the line, with no value, changes nothing. *)
Lemma parse_args_full port io biz host db d :
  0 <= port < 2 ^ 31 -> 0 <= io < 2 ^ 31 -> 0 <= biz < 2 ^ 31 ->
  parse_args [bs "--biz-threads"; to_string biz; bs "--db"; db; bs "--port"; to_string port;
              bs "--io-threads"; to_string io; bs "--host"; host; bs "--port"] d = mkArgs port io biz host db.
Proof.
  intros Hp Hi Hb. do 5 (erewrite parse_args_step by apply set_arg_names).
  cbn [parse_args ma_port ma_io ma_biz ma_host ma_db]. by rewrite !atoi_to_string by lia.
Qed.

(** The stop of a sub reactor can hang: called right after [startLoop] returns, it stores and
    wakes before the thread enters [loop()], which sets [running_] again.  The caller is in
    [join], no further stop is possible ([exiting_] is set), and the loop waits for events
    with [running_] true. *)
Theorem loop_thread_stop_can_hang :
  exists t : LoopThread nat nat, lt_reach 3 t /\ lt_stop t = SJoining /\ lt_exiting t = true /\
    lt_phase t = TLooping /\ el_phase (lt_el t) = Waiting /\ el_running (lt_el t) = true.
Proof.
  pose (t0 := LoopThread_new : LoopThread nat nat).
  pose (t1 := mkLT (lt_loop t0) (lt_exiting t0) TStarting (lt_stop t0) (lt_el t0)).
  pose (t2 := mkLT true (lt_exiting t1) TLooping (lt_stop t1) (lt_el t1)).
  pose (t3 := mkLT (lt_loop t2) true (lt_phase t2) SCalling (lt_el t2)).
  pose (t4 := mkLT (lt_loop t3) (lt_exiting t3) (lt_phase t3) SWaking (el_stop (lt_el t3))).
  pose (t5 := mkLT (lt_loop t4) (lt_exiting t4) (lt_phase t4) SJoining (wakeup (lt_el t4))).
  exists (mkLT (lt_loop t5) (lt_exiting t5) (lt_phase t5) (lt_stop t5) (el_begin (lt_el t5))). split; [|done].
  apply lt_reach_step with t5; [|by eapply lt_run; [|apply el_enter]].
  apply lt_reach_step with t4; [|by apply lt_stop_wake]. apply lt_reach_step with t3; [|by apply lt_stop_store].
  apply lt_reach_step with t2; [|by apply (lt_call_stop 3 t2)]. apply lt_reach_step with t1; [|by apply lt_publish].
  apply lt_reach_step with t0; [constructor|by apply lt_create].
Qed.
