(* ===== verification/DBThreads.v ===== *)
(** * The background threads of the database

    The flush thread ([DBImpl::flushLoop]), the compaction thread
    ([CompactionManager::compactionLoop]) and the destructor [DBImpl::~DBImpl] that stops both,
    as they interleave.  What a flush or a compaction pass does to the files is in [DBImpl] and
    [Compaction]; here a pass is one stretch of its thread.  A state is left by one atomic action
    of one thread. *)

From Stdlib Require Import Lia.
From stdpp Require Import base numbers list.
From S2P Require Import Prelude.

(** The flush thread: about to lock [flush_mu_] and evaluate the condition of the wait; past a
    false condition, still holding [flush_mu_]; asleep on [flush_cv_]; in [flushOne]; at its
    end. *)
Inductive flphase := FReady | FParking | FAsleep | FFlushing | FExited.

(** The compaction thread: at the test of [running_], in a pass (the 100 ms of sleep included), at
    its end. *)
Inductive cpphase := CHead | CPass | CExited.

(** The destructor: not called yet; past the sync of the log; past [running_ = false] of the
    compaction manager; past the join of its thread; past the store of [flush_running_]; past the
    notification; past the join of the flush thread; past [waitFlush]. *)
Inductive dphase := DAlive | DSynced | DStopped | DJoined | DStored | DNotified | DFlushJoined | DGone.

#[export] Instance flphase_eq_dec : EqDecision flphase.
Proof. solve_decision. Defined.
#[export] Instance dphase_eq_dec : EqDecision dphase.
Proof. solve_decision. Defined.

Record DbThreads := mkDbT {
  dt_queue : nat;             (* flush_queue_.size() *)
  dt_notify : nat;            (* calls of notify_one due after a push *)
  dt_flush_running : bool;
  dt_flush : flphase;
  dt_compact_running : bool;
  dt_compact : cpphase;
  dt_dtor : dphase;
}.

(** After [DBImpl::open]. *)
Definition DbThreads_new : DbThreads := mkDbT 0 0 true FReady true CHead DAlive.

Definition with_flush (d : DbThreads) (f : flphase) : DbThreads :=
  mkDbT (dt_queue d) (dt_notify d) (dt_flush_running d) f (dt_compact_running d) (dt_compact d) (dt_dtor d).
Definition with_compact (d : DbThreads) (c : cpphase) : DbThreads :=
  mkDbT (dt_queue d) (dt_notify d) (dt_flush_running d) (dt_flush d) (dt_compact_running d) c (dt_dtor d).
Definition with_dtor (d : DbThreads) (x : dphase) : DbThreads :=
  mkDbT (dt_queue d) (dt_notify d) (dt_flush_running d) (dt_flush d) (dt_compact_running d) (dt_compact d) x.

(** A thread that sleeps on [flush_cv_] is woken. *)
Definition woken (f : flphase) : flphase := match f with FAsleep => FReady | f => f end.

Lemma woken_exited f : woken f = FExited -> f = FExited.
Proof. by destruct f. Qed.

(** What the two threads do, and what writers that freeze a memtable do to them. *)
Inductive bg_step (d : DbThreads) : DbThreads -> Prop :=
| bg_push : dt_dtor d = DAlive -> dt_flush d <> FParking ->
    bg_step d (mkDbT (S (dt_queue d)) (S (dt_notify d)) (dt_flush_running d) (dt_flush d) (dt_compact_running d) (dt_compact d) (dt_dtor d))
| bg_notify n : dt_notify d = S n ->
    bg_step d (mkDbT (dt_queue d) n (dt_flush_running d) (woken (dt_flush d)) (dt_compact_running d) (dt_compact d) (dt_dtor d))
| bg_park : dt_flush d = FReady -> dt_queue d = 0 -> dt_flush_running d = true -> bg_step d (with_flush d FParking)
| bg_sleep : dt_flush d = FParking -> bg_step d (with_flush d FAsleep)
| bg_spurious : dt_flush d = FAsleep -> bg_step d (with_flush d FReady)
| bg_leave : dt_flush d = FReady -> dt_queue d = 0 -> dt_flush_running d = false -> bg_step d (with_flush d FExited)
| bg_take n : dt_flush d = FReady -> dt_queue d = S n ->
    bg_step d (mkDbT n (dt_notify d) (dt_flush_running d) FFlushing (dt_compact_running d) (dt_compact d) (dt_dtor d))
| bg_flushed : dt_flush d = FFlushing -> bg_step d (with_flush d FReady)
| bg_test : dt_compact d = CHead -> bg_step d (with_compact d (if dt_compact_running d then CPass else CExited))
| bg_pass : dt_compact d = CPass -> bg_step d (with_compact d CHead).

(** The destructor.  Neither the store nor the notification is made under [flush_mu_]. *)
Inductive dtor_step (d : DbThreads) : DbThreads -> Prop :=
| ds_sync : dt_dtor d = DAlive -> dtor_step d (with_dtor d DSynced)
| ds_stop : dt_dtor d = DSynced ->
    dtor_step d (mkDbT (dt_queue d) (dt_notify d) (dt_flush_running d) (dt_flush d) false (dt_compact d) DStopped)
| ds_join : dt_dtor d = DStopped -> dt_compact d = CExited -> dtor_step d (with_dtor d DJoined)
| ds_store : dt_dtor d = DJoined ->
    dtor_step d (mkDbT (dt_queue d) (dt_notify d) false (dt_flush d) (dt_compact_running d) (dt_compact d) DStored)
| ds_notify : dt_dtor d = DStored ->
    dtor_step d (mkDbT (dt_queue d) (dt_notify d) (dt_flush_running d) (woken (dt_flush d)) (dt_compact_running d) (dt_compact d) DNotified)
| ds_join_flush : dt_dtor d = DNotified -> dt_flush d = FExited -> dtor_step d (with_dtor d DFlushJoined)
| ds_wait : dt_dtor d = DFlushJoined -> dt_queue d = 0 -> dt_flush d <> FFlushing -> dtor_step d (with_dtor d DGone).

(** ** The invariant *)

(** How far the destructor is. *)
Definition dtor_rank (x : dphase) : nat :=
  match x with DAlive => 0 | DSynced => 1 | DStopped => 2 | DJoined => 3 | DStored => 4 | DNotified => 5 | DFlushJoined => 6 | DGone => 7 end.

Record d_inv (d : DbThreads) : Prop := {
  di_flush_running : dt_flush_running d = bool_decide (dtor_rank (dt_dtor d) < 4);
  di_compact_running : dt_compact_running d = bool_decide (dtor_rank (dt_dtor d) < 2);
  di_compact : 3 <= dtor_rank (dt_dtor d) -> dt_compact d = CExited;
  di_flush : dt_flush d = FExited -> dt_queue d = 0 /\ dt_flush_running d = false;
  di_flush_joined : 6 <= dtor_rank (dt_dtor d) -> dt_flush d = FExited;
}.

Lemma DbThreads_inv : d_inv DbThreads_new.
Proof. split; cbn; done || lia. Qed.

(** Only the destructor moves the destructor on. *)
Lemma bg_step_dtor d d' : bg_step d d' -> dt_dtor d' = dt_dtor d.
Proof. by destruct 1. Qed.

Lemma bg_step_inv d d' : bg_step d d' -> d_inv d -> d_inv d'.
Proof.
  intros Hs [H1 H2 H3 H4 H5]. destruct Hs; split; cbn; try done; try (intros; exfalso; specialize (H5 ltac:(done)); congruence).
  - intros He. destruct (H4 He) as [_ Hr]. rewrite H1, H in Hr. done.
  - intros He%woken_exited. by apply H4.
  - intros Hr. by rewrite (H5 Hr).
  - intros Hr. specialize (H3 Hr). congruence.
  - intros Hr. specialize (H3 Hr). congruence.
Qed.

Lemma dtor_step_inv d d' : dtor_step d d' -> d_inv d -> d_inv d'.
Proof.
  intros Hs [H1 H2 H3 H4 H5].
  destruct Hs as [Hd|Hd|Hd Hc|Hd|Hd|Hd Hf|Hd Hq Hf]; rewrite Hd in *; cbn in *; split; cbn; try done; try (by auto); try (intros; lia).
  - intros He. by destruct (H4 He).
  - intros He%woken_exited. by apply H4.
Qed.

(** ** Shutting down *)

(** The flush thread misses the notification: it sleeps, or is about to, and the destructor is in
    [join]. *)
Definition lost_flush (d : DbThreads) : Prop := dt_dtor d = DNotified /\ (dt_flush d = FParking \/ dt_flush d = FAsleep).

Definition flush_left (f : flphase) : nat := match f with FExited => 0 | FReady => 1 | FAsleep => 2 | FFlushing => 2 | FParking => 3 end.
Definition compact_left (c : cpphase) : nat := match c with CExited => 0 | CHead => 1 | CPass => 2 end.
Definition db_left (d : DbThreads) : nat :=
  (7 - dtor_rank (dt_dtor d)) + 2 * dt_queue d + flush_left (dt_flush d) + compact_left (dt_compact d).

(** The destructor is done, or the flush thread has missed its end, or the destructor or one of
    the threads takes a step towards the end, which the flush thread does not miss by it. *)
Lemma db_winds_down d :
  d_inv d -> dt_dtor d = DGone \/ lost_flush d \/
  exists d', (dtor_step d d' \/ bg_step d d') /\ db_left d' < db_left d /\ ~ lost_flush d'.
Proof.
  intros [H1 H2 H3 H4 H5]. unfold lost_flush, db_left.
  destruct (dt_dtor d) eqn:Hd; cbn in *.
  - right; right. eexists. split; [left; by apply ds_sync|]. cbn. split; [lia|]. by intros [? _].
  - right; right. eexists. split; [left; by apply ds_stop|]. cbn. split; [lia|]. by intros [? _].
  - right; right. destruct (dt_compact d) eqn:Hc.
    + eexists. split; [right; by apply bg_test|]. cbn. rewrite H2, Hd, bool_decide_eq_false_2 by lia. cbn. split; [lia|]. by intros [? _].
    + eexists. split; [right; by apply bg_pass|]. cbn. rewrite Hd. cbn. split; [lia|]. by intros [? _].
    + eexists. split; [left; by apply ds_join|]. cbn. rewrite Hc. cbn. split; [lia|]. by intros [? _].
  - right; right. eexists. split; [left; by apply ds_store|]. cbn. split; [lia|]. by intros [? _].
  - right; right. destruct (decide (dt_flush d = FParking)) as [Hf|Hf].
    + eexists. split; [right; by apply bg_sleep|]. cbn. rewrite Hd, Hf. cbn. split; [lia|]. by intros [? _].
    + eexists. split; [left; by apply ds_notify|]. cbn. split; [destruct (dt_flush d); cbn; lia|]. intros [_ [H|H]]; destruct (dt_flush d); done.
  - destruct (dt_flush d) eqn:Hf; [right; right|right; left; by auto|right; left; by auto|right; right|right; right].
    + destruct (dt_queue d) as [|n] eqn:Hq.
      * eexists. split; [right; by apply bg_leave|]. cbn. rewrite Hd, Hq. cbn. split; [lia|]. intros [_ [H|H]]; done.
      * eexists. split; [right; by eapply bg_take|]. cbn. rewrite Hd. cbn. split; [lia|]. intros [_ [H|H]]; done.
    + eexists. split; [right; by apply bg_flushed|]. cbn. rewrite Hd. cbn. split; [lia|]. intros [_ [H|H]]; done.
    + eexists. split; [left; by apply ds_join_flush|]. cbn. rewrite Hf. cbn. split; [lia|]. by intros [? _].
  - right; right. pose proof (H5 ltac:(lia)) as Hf. destruct (H4 Hf) as [Hq _].
    eexists. split; [left; apply ds_wait; congruence|]. cbn. split; [lia|]. by intros [? _].
  - by left.
Qed.

Inductive d_reach : DbThreads -> Prop :=
| d_reach_new : d_reach DbThreads_new
| d_reach_bg d d' : d_reach d -> bg_step d d' -> d_reach d'
| d_reach_dtor d d' : d_reach d -> dtor_step d d' -> d_reach d'.

(** The destructor can hang: the flush thread evaluates its condition, the destructor stores and
    notifies before it sleeps. *)
Theorem flush_thread_can_hang : exists d, d_reach d /\ lost_flush d /\ dt_flush d = FAsleep /\ dt_queue d = 0.
Proof.
  exists (mkDbT 0 0 false FAsleep false CExited DNotified). split; [|by repeat split; right].
  eapply d_reach_bg; [|by apply (bg_sleep (mkDbT 0 0 false FParking false CExited DNotified))].
  eapply d_reach_dtor; [|by apply (ds_notify (mkDbT 0 0 false FParking false CExited DStored))].
  eapply d_reach_dtor; [|by apply (ds_store (mkDbT 0 0 true FParking false CExited DJoined))].
  eapply d_reach_dtor; [|by apply (ds_join (mkDbT 0 0 true FParking false CExited DStopped))].
  eapply d_reach_bg; [|by apply (bg_test (mkDbT 0 0 true FParking false CHead DStopped))].
  eapply d_reach_dtor; [|by apply (ds_stop (mkDbT 0 0 true FParking true CHead DSynced))].
  eapply d_reach_dtor; [|by apply (ds_sync (mkDbT 0 0 true FParking true CHead DAlive))].
  eapply d_reach_bg; [apply d_reach_new|by apply bg_park].
Qed.
