(* ===== verification/ServerRun.v ===== *)
(** * The running server

    The process of [minikv/src/main.cpp]: the main thread from the call of [Server::run] to the
    end of [main] with the destructors of the server and of the database, the signal handler, the
    sub reactors ([LoopThread] of [ServerMain]), the worker pool ([ThreadPool] of [Reactor]) and
    the background threads of the database ([DBThreads]), all running together.  A state is left by one
    atomic action of one thread.  The handler runs on the thread the signal interrupts, which
    goes on when the handler has returned. *)

From Stdlib Require Import ZArith Lia.
From stdpp Require Import base numbers strings list gmap.
From S2P Require Import Prelude CppString Slice Reactor ServerMain DBThreads.

(** ** Who does what

    The step relations of the parts allow every thread every action; the process says which
    thread takes which.  A step of the loop's own thread changes its phase; the other threads
    queue functors, wake the loop and register descriptors. *)

Section Process.
Context {Fn Cb T : Type}.

Definition own_step (wfd : Z) (l : EventLoop Fn Cb) (l' : EventLoop Fn Cb) : Prop :=
  exists a, el_step wfd l a l' /\ el_phase l' <> el_phase l.
Definition foreign_step (wfd : Z) (l l' : EventLoop Fn Cb) : Prop :=
  exists a, el_step wfd l a l' /\ el_phase l' = el_phase l /\ el_running l' = el_running l.

(** A sub reactor's thread and the threads that use its loop. *)
Inductive by_thread (wfd : Z) (t t' : LoopThread Fn Cb) : Prop :=
| bt_publish : lt_phase t = TStarting -> t' = mkLT true (lt_exiting t) TLooping (lt_stop t) (lt_el t) -> by_thread wfd t t'
| bt_own l : lt_phase t = TLooping -> own_step wfd (lt_el t) l ->
    t' = mkLT (lt_loop t) (lt_exiting t) TLooping (lt_stop t) l -> by_thread wfd t t'
| bt_foreign l : lt_phase t = TLooping -> foreign_step wfd (lt_el t) l ->
    t' = mkLT (lt_loop t) (lt_exiting t) TLooping (lt_stop t) l -> by_thread wfd t t'
| bt_end : lt_phase t = TLooping -> el_phase (lt_el t) = Exited ->
    t' = mkLT false (lt_exiting t) TDone (lt_stop t) (lt_el t) -> by_thread wfd t t'.

(** The caller of [EventLoopThread::stop]. *)
Definition by_stopper (wfd : Z) (t t' : LoopThread Fn Cb) : Prop := lt_step wfd t t' /\ lt_stop t' <> lt_stop t.

(** Workers, and clients of the pool other than [stop]. *)
Definition client_or_worker (p p' : ThreadPool T) : Prop :=
  exists a, tp_step p a p' /\ tp_running p' = tp_running p /\ tp_notify_all p' = tp_notify_all p.

(** ** The process *)

(** The main thread: before [g_server = &server], starting sub reactors, waiting for the one
    just started, in [loop_.loop()], stopping the workers (store, notification, joins), which
    happens in [run] and once more in the destructor of the server ([final]), stopping sub
    reactor [i], past [server.run()], past [g_server = nullptr], past [~Server] and in [~DBImpl],
    past both. *)
Inductive mainph :=
| MSetup | MStartIo | MWaitIo | MLoop | MStopBiz (final : bool) | MNotifyBiz (final : bool) | MJoinBiz (final : bool)
| MStopIo (i : nat) | MReturned | MCleared | MDb | MDone.

(** The thread a handler runs on: main, a worker, a sub reactor, or one of the two threads of the
    database, which live longer than the server. *)
Inductive onthread := OnMain | OnWorker (i : nat) | OnIo (i : nat) | OnFlush | OnCompact.
Definition on_db (w : onthread) : bool := match w with OnFlush | OnCompact => true | _ => false end.

(** In the handler: at its entry, past [g_running = false], past the test of [g_server] and
    about to call [stop], past the store of [EventLoop::stop]. *)
Inductive hphase := HEnter | HTest | HCall | HWake.

Record Process := mkProc {
  pr_main : mainph;
  pr_g_running : bool;
  pr_g_server : bool;                       (* g_server != nullptr *)
  pr_handlers : list (onthread * hphase);
  pr_loop : EventLoop Fn Cb;                (* loop_ *)
  pr_biz : option (ThreadPool T);           (* biz_pool_ *)
  pr_io : list (LoopThread Fn Cb);          (* io_pool_ *)
  pr_db : DbThreads;                        (* the threads of the database *)
}.

Context (wfd : Z) (io_threads : nat) (biz_threads : option nat) (listening : option (Z * Cb)).

(** [main] after the constructor of the server, whose workers run already. *)
Definition Process_new : Process :=
  mkProc MSetup true false [] el_start (ThreadPool_new <$> biz_threads) [] DbThreads_new.

Definition at_main (p : Process) (m : mainph) : Process :=
  mkProc m (pr_g_running p) (pr_g_server p) (pr_handlers p) (pr_loop p) (pr_biz p) (pr_io p) (pr_db p).
Definition with_g_server (p : Process) (m : mainph) (b : bool) : Process :=
  mkProc m (pr_g_running p) b (pr_handlers p) (pr_loop p) (pr_biz p) (pr_io p) (pr_db p).
Definition with_handlers (p : Process) (hs : list (onthread * hphase)) : Process :=
  mkProc (pr_main p) (pr_g_running p) (pr_g_server p) hs (pr_loop p) (pr_biz p) (pr_io p) (pr_db p).
Definition with_loop (p : Process) (m : mainph) (l : EventLoop Fn Cb) : Process :=
  mkProc m (pr_g_running p) (pr_g_server p) (pr_handlers p) l (pr_biz p) (pr_io p) (pr_db p).
Definition with_biz (p : Process) (m : mainph) (b : ThreadPool T) : Process :=
  mkProc m (pr_g_running p) (pr_g_server p) (pr_handlers p) (pr_loop p) (Some b) (pr_io p) (pr_db p).
Definition with_io (p : Process) (m : mainph) (ts : list (LoopThread Fn Cb)) : Process :=
  mkProc m (pr_g_running p) (pr_g_server p) (pr_handlers p) (pr_loop p) (pr_biz p) ts (pr_db p).
Definition with_db (p : Process) (m : mainph) (d : DbThreads) : Process :=
  mkProc m (pr_g_running p) (pr_g_server p) (pr_handlers p) (pr_loop p) (pr_biz p) (pr_io p) d.

(** The thread [w] has no handler in progress. *)
Definition free (p : Process) (w : onthread) : Prop := Forall (fun h => h.1 <> w) (pr_handlers p).

(** The main thread: [Server::run] and the end of [main]. *)
Inductive run_step (p : Process) : Process -> Prop :=
| ms_publish : pr_main p = MSetup -> run_step p (with_g_server p MStartIo true)
| ms_abort : pr_main p = MStartIo -> listening = None -> run_step p (at_main p MReturned)
| ms_create : pr_main p = MStartIo -> listening <> None -> (length (pr_io p) < io_threads)%nat ->
    run_step p (with_io p MWaitIo (pr_io p ++ [mkLT false false TStarting SNone el_start]))
| ms_started t : pr_main p = MWaitIo -> last (pr_io p) = Some t -> lt_loop t = true -> run_step p (at_main p MStartIo)
| ms_accepting fd cb : pr_main p = MStartIo -> listening = Some (fd, cb) -> length (pr_io p) = io_threads ->
    run_step p (with_loop p MLoop (addEvent (pr_loop p) fd EPOLLIN cb))
| ms_loop l : pr_main p = MLoop -> own_step wfd (pr_loop p) l -> run_step p (with_loop p MLoop l)
| ms_exit : pr_main p = MLoop -> el_phase (pr_loop p) = Exited ->
    run_step p (at_main p (match pr_biz p with Some _ => MStopBiz false | None => MStopIo 0 end))
| ms_stop_biz f b : pr_main p = MStopBiz f -> pr_biz p = Some b -> run_step p (with_biz p (MNotifyBiz f) (tp_stop b))
| ms_notify_biz f b : pr_main p = MNotifyBiz f -> pr_biz p = Some b -> run_step p (with_biz p (MJoinBiz f) (wake_all b))
| ms_join_biz f b : pr_main p = MJoinBiz f -> pr_biz p = Some b -> Forall (fun w => w = WExited) (tp_workers b) ->
    (forall i, free p (OnWorker i)) -> run_step p (at_main p (if f then MDb else MStopIo 0))
| ms_stop_io i t t' : pr_main p = MStopIo i -> pr_io p !! i = Some t -> by_stopper wfd t t' -> lt_stop t' <> SReturned ->
    run_step p (with_io p (MStopIo i) (<[i := t']> (pr_io p)))
| ms_join_io i t t' : pr_main p = MStopIo i -> pr_io p !! i = Some t -> by_stopper wfd t t' -> lt_stop t' = SReturned ->
    free p (OnIo i) -> run_step p (with_io p (MStopIo (S i)) (<[i := t']> (pr_io p)))
| ms_return i : pr_main p = MStopIo i -> pr_io p !! i = None -> run_step p (at_main p MReturned)
| ms_clear : pr_main p = MReturned -> run_step p (with_g_server p MCleared false)
| ms_destroy : pr_main p = MCleared ->
    run_step p (at_main p (match pr_biz p with Some _ => MStopBiz true | None => MDb end))
| ms_db d : pr_main p = MDb -> dtor_step (pr_db p) d -> (dt_dtor d = DJoined -> free p OnCompact) ->
    (dt_dtor d = DFlushJoined -> free p OnFlush) -> run_step p (with_db p MDb d)
| ms_end : pr_main p = MDb -> dt_dtor (pr_db p) = DGone -> run_step p (at_main p MDone).

(** The thread [w] exists and can be interrupted. *)
Definition interruptible (p : Process) (w : onthread) : Prop :=
  match w with
  | OnMain => pr_main p <> MDone
  | OnFlush => dt_flush (pr_db p) <> FExited
  | OnCompact => dt_compact (pr_db p) <> CExited
  | OnWorker i => exists b s, pr_biz p = Some b /\ tp_workers b !! i = Some s /\ s <> WExited
  | OnIo i => exists t, pr_io p !! i = Some t /\ lt_phase t <> TDone /\ lt_phase t <> TNone
  end.

(** [signalHandler].  The call through [g_server] has no step when the pointer is null: that is
    undefined behaviour. *)
Inductive handler_step (p : Process) : Process -> Prop :=
| hs_enter w hs1 hs2 : pr_handlers p = hs1 ++ (w, HEnter) :: hs2 ->
    handler_step p (mkProc (pr_main p) false (pr_g_server p) (hs1 ++ (w, HTest) :: hs2) (pr_loop p) (pr_biz p) (pr_io p) (pr_db p))
| hs_test w hs1 hs2 : pr_handlers p = hs1 ++ (w, HTest) :: hs2 ->
    handler_step p (with_handlers p (hs1 ++ (if pr_g_server p then [(w, HCall)] else []) ++ hs2))
| hs_store w hs1 hs2 : pr_handlers p = hs1 ++ (w, HCall) :: hs2 -> pr_g_server p = true ->
    handler_step p (with_loop (with_handlers p (hs1 ++ (w, HWake) :: hs2)) (pr_main p) (el_stop (pr_loop p)))
| hs_wake w hs1 hs2 : pr_handlers p = hs1 ++ (w, HWake) :: hs2 ->
    handler_step p (with_loop (with_handlers p (hs1 ++ hs2)) (pr_main p) (wakeup (pr_loop p))).

Inductive p_step (p : Process) : Process -> Prop :=
| ps_main p' : free p OnMain -> run_step p p' -> p_step p p'
| ps_handler p' : handler_step p p' -> p_step p p'
| ps_signal w : interruptible p w -> p_step p (with_handlers p (pr_handlers p ++ [(w, HEnter)]))
| ps_foreign l : foreign_step wfd (pr_loop p) l -> p_step p (with_loop p (pr_main p) l)
| ps_pool b b' : pr_biz p = Some b -> client_or_worker b b' -> p_step p (with_biz p (pr_main p) b')
| ps_thread i t t' : pr_io p !! i = Some t -> by_thread wfd t t' -> p_step p (with_io p (pr_main p) (<[i := t']> (pr_io p)))
| ps_db d : bg_step (pr_db p) d -> p_step p (with_db p (pr_main p) d).

Inductive p_reach : Process -> Prop :=
| p_reach_new : p_reach Process_new
| p_reach_step p p' : p_reach p -> p_step p p' -> p_reach p'.

(** ** What the end of [run] leaves behind *)

(** The main thread is past the joins of [biz_pool_->stop()] in [run]. *)
Definition past_biz (m : mainph) : bool :=
  match m with MStopIo _ | MReturned | MCleared | MStopBiz true | MNotifyBiz true | MJoinBiz true | MDb | MDone => true | _ => false end.
(** The number of sub reactors the main thread has joined. *)
Definition joined (p : Process) : nat :=
  match pr_main p with
  | MStopIo i => i
  | MReturned | MCleared | MStopBiz true | MNotifyBiz true | MJoinBiz true | MDb | MDone => length (pr_io p)
  | _ => 0
  end.
(** The server is published: between the two assignments of [g_server]. *)
Definition published (m : mainph) : bool :=
  match m with MSetup | MCleared | MStopBiz true | MNotifyBiz true | MJoinBiz true | MDb | MDone => false | _ => true end.
(** The main thread is in [~DBImpl] or past it. *)
Definition in_db (m : mainph) : bool := match m with MDb | MDone => true | _ => false end.

Definition handler_ok (p : Process) (h : onthread * hphase) : Prop :=
  match h.1 with
  | OnMain => True
  | OnFlush | OnCompact => True
  | OnWorker _ => past_biz (pr_main p) = false /\ pr_biz p <> None
  | OnIo j => (joined p <= j < length (pr_io p))%nat
  end /\ (h.2 = HCall -> on_db h.1 = false -> pr_g_server p = true).

(** A sub reactor of which the main thread has joined the first [n]. *)
Definition thread_ok (n j : nat) (t : LoopThread Fn Cb) : Prop :=
  lt_phase t <> TNone /\ ((j < n)%nat -> lt_phase t = TDone) /\
  (lt_stop t = SNone -> lt_exiting t = false) /\ ((n <= j)%nat -> lt_stop t <> SReturned).

(** The main thread is in [ThreadPool::stop]; and past its store. *)
Definition stopping_biz (m : mainph) : bool := match m with MStopBiz _ | MNotifyBiz _ | MJoinBiz _ => true | _ => false end.
Definition stopped_biz (m : mainph) : bool := match m with MNotifyBiz _ | MJoinBiz _ => true | _ => false end.
Definition biz_ok (m : mainph) (b : option (ThreadPool T)) : Prop :=
  (stopping_biz m = true -> b <> None) /\ (stopped_biz m = true -> forall b', b = Some b' -> tp_running b' = false).

Definition db_ok (m : mainph) (d : DbThreads) : Prop :=
  d_inv d /\ (in_db m = false -> dt_dtor d = DAlive) /\ (m = MDone -> dt_dtor d = DGone).

Lemma db_keep m m' d : (in_db m' = false -> in_db m = false) -> m' <> MDone -> db_ok m d -> db_ok m' d.
Proof. intros H1 H2 (H3 & H4 & _). by split_and!; auto. Qed.

Record p_inv (p : Process) : Prop := {
  pv_handlers : Forall (handler_ok p) (pr_handlers p);
  pv_workers b : past_biz (pr_main p) = true -> pr_biz p = Some b -> Forall (fun w => w = WExited) (tp_workers b);
  pv_io j t : pr_io p !! j = Some t -> thread_ok (joined p) j t;
  pv_server : pr_g_server p = published (pr_main p);
  pv_joined : (joined p <= length (pr_io p))%nat;
  pv_biz : biz_ok (pr_main p) (pr_biz p);
  pv_db : db_ok (pr_main p) (pr_db p);
}.

Lemma handlers_keep p p' hs :
  (past_biz (pr_main p') = true -> past_biz (pr_main p) = true) -> (joined p' <= joined p)%nat ->
  (length (pr_io p) <= length (pr_io p'))%nat -> (pr_biz p <> None -> pr_biz p' <> None) ->
  (pr_g_server p = true -> pr_g_server p' = true) -> Forall (handler_ok p) hs -> Forall (handler_ok p') hs.
Proof.
  intros Hb Hj Hl Hz Hg H. apply (Forall_impl _ _ _ H). intros [w h] [H1 H2]. split; [|by auto].
  destruct w; cbn in *; try done; [|lia]. destruct H1 as [H1 H3]. split; [|by auto].
  destruct (past_biz (pr_main p')); [|done]. rewrite Hb in H1; done.
Qed.

(** What the sub reactor's own steps and the stop of the main thread keep. *)
Lemma by_thread_ok n j t t' : by_thread wfd t t' -> thread_ok n j t -> thread_ok n j t'.
Proof.
  intros Hs (H1 & H2 & H3 & H4). destruct Hs as [Hp ->|l Hp _ ->|l Hp _ ->|Hp _ ->]; cbn;
    (split_and!; [done| |done|done]); cbn; intros Hj; rewrite H2 in Hp; done.
Qed.

Lemma by_stopper_ok n j t t' : by_stopper wfd t t' -> thread_ok n j t ->
  (lt_stop t' <> SReturned -> thread_ok n j t') /\ (lt_stop t' = SReturned -> thread_ok (S j) j t').
Proof.
  intros [Hs Hne] (H1 & H2 & H3 & H4). unfold thread_ok.
  destruct Hs as [t Hp|t Hp|t a l Hp _|t Hp _|t He|t Hp|t Hp|t Hp Hd]; cbn in *; try done.
  - destruct (lt_loop t); cbn; split; intros; split_and!; try done; intros; lia.
  - split; [done|]. intros _. split_and!; try done; [by destruct Hd|lia].
Qed.

Lemma client_or_worker_exited b b' : client_or_worker b b' ->
  Forall (fun w => w = WExited) (tp_workers b) -> Forall (fun w => w = WExited) (tp_workers b').
Proof.
  intros (a & Hs & _) Hd. destruct (tp_dead_drops b [a] b' Hd) as (_ & _ & ->); [|done].
  apply (tp_run_snoc b [] b); [constructor|done].
Qed.

Ltac inv_fields := constructor; cbn [pr_main pr_g_running pr_g_server pr_handlers pr_loop pr_biz pr_io pr_db past_biz published
                               at_main with_g_server with_handlers with_loop with_biz with_io].

(** The main thread moves on within a stretch in which nothing new is promised. *)
Lemma inv_move p p' :
  p_inv p -> (past_biz (pr_main p') = true -> past_biz (pr_main p) = true) -> joined p' = joined p ->
  pr_handlers p' = pr_handlers p -> pr_biz p' = pr_biz p -> pr_io p' = pr_io p ->
  (pr_g_server p = true -> pr_g_server p' = true) -> pr_g_server p' = published (pr_main p') ->
  biz_ok (pr_main p') (pr_biz p) -> db_ok (pr_main p') (pr_db p') -> p_inv p'.
Proof.
  intros [H1 H2 H3 H4 H5 H6 H7] Hb Hj Hh Hbz Hio Hg Hs Hz Hd. constructor; rewrite ?Hh, ?Hbz, ?Hio, ?Hj; auto.
  eapply handlers_keep; [..|done]; rewrite ?Hj, ?Hio, ?Hbz; auto with lia.
Qed.

Lemma inv_thread p m i t t' :
  p_inv p -> pr_io p !! i = Some t -> m = pr_main p -> (forall n, thread_ok n i t -> thread_ok n i t') ->
  p_inv (with_io p m (<[i := t']> (pr_io p))).
Proof.
  intros [H1 H2 H3 H4 H5 H6 H7] Hi -> Ht.
  assert (joined (with_io p (pr_main p) (<[i := t']> (pr_io p))) = joined p) as Ej by (unfold joined; cbn; by rewrite length_insert).
  constructor; rewrite ?Ej; cbn; rewrite ?length_insert; auto.
  - eapply handlers_keep; [..|done]; rewrite ?Ej; cbn; rewrite ?length_insert; auto with lia.
  - intros j u [(-> & -> & _)|(_ & Hj)]%list_lookup_insert_Some; [by auto|by apply H3].
Qed.

Lemma handler_free p w : free p w <-> forall h, (w, h) ∉ pr_handlers p.
Proof.
  unfold free. rewrite Forall_forall. split.
  - intros H h Hin. by apply (H _ Hin).
  - intros H [w' h] Hin E. cbn in E. subst w'. by apply (H h).
Qed.

(** Joining more workers or sub reactors: the handlers that ran on them have returned. *)
Lemma handlers_joined p p' :
  Forall (handler_ok p) (pr_handlers p) -> pr_handlers p' = pr_handlers p -> pr_io p' = pr_io p \/ length (pr_io p') = length (pr_io p) ->
  (pr_biz p <> None -> pr_biz p' <> None) ->
  (past_biz (pr_main p') = true -> pr_biz p <> None -> past_biz (pr_main p) = false -> forall i, free p (OnWorker i)) ->
  (forall j, (joined p <= j < joined p')%nat -> free p (OnIo j)) ->
  (pr_g_server p = true -> pr_g_server p' = true) -> Forall (handler_ok p') (pr_handlers p').
Proof.
  intros H Hh Hl Hz Hw Hj Hg. rewrite Hh. apply Forall_forall. intros [w h] Hin.
  assert (length (pr_io p') = length (pr_io p)) as El by (by destruct Hl as [->|]).
  rewrite Forall_forall in H. destruct (H _ Hin) as [H1 H2]. split; [|by auto]. destruct w as [|i|j| |]; cbn in *; try done.
  - destruct H1 as [H1 H3]. split; [|by auto].
    destruct (past_biz (pr_main p')); [|done]. specialize (Hw eq_refl H3 H1 i). by apply handler_free with (h := h) in Hw.
  - rewrite El. destruct (decide (joined p' <= j)%nat) as [|Hlt]; [lia|].
    specialize (Hj j ltac:(lia)). by apply handler_free with (h := h) in Hj.
Qed.

Lemma inv_biz p m b b' :
  p_inv p -> pr_biz p = Some b -> past_biz m = past_biz (pr_main p) -> published m = published (pr_main p) ->
  joined (with_biz p m b') = joined p -> (stopped_biz m = true -> tp_running b' = false) -> db_ok m (pr_db p) ->
  (Forall (fun w => w = WExited) (tp_workers b) -> Forall (fun w => w = WExited) (tp_workers b')) -> p_inv (with_biz p m b').
Proof.
  intros [H1 H2 H3 H4 H5 H6 H7] Hb Hpast Hpub Hj Hr Hd Hw. constructor; rewrite ?Hj; cbn; auto.
  - eapply handlers_keep; [..|done]; rewrite ?Hj; cbn; auto with lia. by rewrite Hpast.
  - intros b0 Hp [= <-]. apply Hw. eapply H2; [by rewrite <- Hpast|done].
  - by rewrite Hpub.
  - split; [done|]. intros Hs ? [= <-]. by apply Hr.
Qed.

(** All threads of the server are joined, or the next one is. *)
Lemma inv_joined p p' :
  p_inv p -> pr_handlers p' = pr_handlers p -> length (pr_io p') = length (pr_io p) -> pr_biz p' = pr_biz p ->
  (past_biz (pr_main p') = true -> past_biz (pr_main p) = false ->
     (forall i, free p (OnWorker i)) /\ forall b, pr_biz p = Some b -> Forall (fun w => w = WExited) (tp_workers b)) ->
  (forall j, (joined p <= j < joined p')%nat -> free p (OnIo j)) ->
  (forall j t, pr_io p' !! j = Some t -> thread_ok (joined p') j t) -> stopping_biz (pr_main p') = false ->
  pr_g_server p' = pr_g_server p -> published (pr_main p') = published (pr_main p) -> (joined p' <= length (pr_io p'))%nat ->
  db_ok (pr_main p') (pr_db p') -> p_inv p'.
Proof.
  intros [H1 H2 H3 H4 H5 H6 H7] Hh Hl Hb Hw Hj Hio Hz Hg Hpub Hle Hd. constructor; auto.
  - eapply handlers_joined; eauto; try by rewrite ?Hb, ?Hg. intros Hp _ Hf. by apply Hw.
  - rewrite Hb. intros b Hp Hbz. destruct (past_biz (pr_main p)) eqn:E; [by eapply H2|]. by apply (Hw Hp).
  - by rewrite Hg, Hpub.
  - unfold biz_ok. rewrite Hz. split; [done|]. intros Hs. by destruct (pr_main p').
Qed.

Ltac db_done := try match goal with H : db_ok _ (pr_db ?p) |- db_ok _ (pr_db ?p) => eapply db_keep; [| |exact H]; done end.
Ltac inv_move_done p Hm := apply (inv_move p); unfold joined, biz_ok; cbn; rewrite ?Hm; try done; db_done.

Lemma run_step_inv p p' : listening <> None -> p_inv p -> free p OnMain -> run_step p p' -> p_inv p'.
Proof.
  intros Hl HI Hfree Hs. pose proof HI as [H1 H2 H3 H4 H5 H6 H7].
  destruct Hs as [Hm|Hm Hn|Hm _ Hlt|t Hm Ht Hp|fd cb Hm Hn He|l Hm Ho|Hm He|f b Hm Hb|f b Hm Hb|f b Hm Hb Hx Hf|i t t' Hm Hi Hst Hr|i t t' Hm Hi Hst Hr Hf|i Hm Hi|Hm|Hm|d Hm Hds Hjc Hjf|Hm Hg];
    unfold joined in H3, H5; rewrite Hm in H3, H4, H5, H6, H7.
  - inv_move_done p Hm.
  - done.
  - constructor; unfold joined; cbn; try done; db_done; [| |lia].
    { eapply handlers_keep; [..|done]; unfold joined; cbn; rewrite ?Hm, ?length_app; auto with lia. }
    intros j t [Hj|(_ & Hj)]%lookup_app_Some; [by apply H3|apply list_lookup_singleton_Some in Hj as [_ <-]; split_and!; done || lia].
  - inv_move_done p Hm.
  - inv_move_done p Hm.
  - inv_move_done p Hm.
  - destruct (pr_biz p) as [b|] eqn:Hb; [inv_move_done p Hm; by rewrite Hb|].
    apply (inv_joined p); unfold joined; cbn; rewrite ?Hm; try done; db_done; [|intros; lia].
    intros _ _. split; [|by rewrite Hb]. intros i. apply handler_free. intros h Hin.
    rewrite Forall_forall in H1. destruct (H1 _ Hin) as [[_ H] _]. by rewrite Hb in H.
  - apply (inv_biz p _ b); unfold joined; cbn; rewrite ?Hm; db_done; by destruct f.
  - apply (inv_biz p _ b); unfold joined; cbn; rewrite ?Hm; db_done; try by destruct f.
    { intros _. by apply H6. }
    intros Hx. apply Forall_fmap. eapply Forall_impl; [exact Hx|]. by intros w ->.
  - destruct f; [inv_move_done p Hm|].
    apply (inv_joined p); unfold joined; cbn; rewrite ?Hm; try done; db_done; [|intros; lia].
    intros _ _. split; [done|]. intros b' Hb'. congruence.
  - eapply inv_thread; try done. intros n Ht. by apply (by_stopper_ok n i t t' Hst Ht).
  - pose proof (lookup_lt_Some _ _ _ Hi) as Hlt.
    apply (inv_joined p); unfold joined; cbn; rewrite ?Hm, ?length_insert; try done; db_done.
    + intros j Hj. by replace j with i by lia.
    + intros j u [(<- & <- & _)|(Hne' & Hj)]%list_lookup_insert_Some.
      * by apply (by_stopper_ok i i t _ Hst (H3 _ _ Hi)).
      * destruct (H3 _ _ Hj) as (Ha & Hb & Hc & Hd). split_and!; auto with lia.
  - apply lookup_ge_None in Hi. assert (i = length (pr_io p)) as -> by lia. inv_move_done p Hm.
  - constructor; unfold joined; cbn; try done; db_done.
    + apply Forall_forall. intros [w h] Hin. rewrite Forall_forall in H1. destruct (H1 _ Hin) as [Hw Hc].
      unfold joined in Hw. rewrite Hm in Hw. destruct w as [|i|j| |]; cbn in *.
      * by apply handler_free with (h := h) in Hfree.
      * by destruct Hw.
      * lia.
      * by split.
      * by split.
    + intros b _ Hb. eapply H2; [by rewrite Hm|done].
  - destruct (pr_biz p) as [b|] eqn:Hb; inv_move_done p Hm; by rewrite Hb.
  - inv_move_done p Hm. destruct H7 as (Hd & _ & _). split_and!; [by eapply dtor_step_inv|done|done].
  - inv_move_done p Hm. destruct H7 as (Hd & _ & _). by split_and!.
Qed.

(** A handler takes a step: only the list of handlers, [g_running] and the loop change. *)
Lemma inv_handlers p r hs l :
  p_inv p -> Forall (handler_ok p) hs -> p_inv (mkProc (pr_main p) r (pr_g_server p) hs l (pr_biz p) (pr_io p) (pr_db p)).
Proof. intros [H1 H2 H3 H4 H5 H6 H7] Hh. constructor; done. Qed.

Lemma interruptible_ok p w : p_inv p -> interruptible p w -> handler_ok p (w, HEnter).
Proof.
  intros [H1 H2 H3 H4 H5 H6 H7] Hw. split; [|done]. destruct w as [|i|j| |]; cbn in *; try done.
  - destruct Hw as (b & s & Hb & Hs & Hne). rewrite Hb. split; [|done].
    destruct (past_biz (pr_main p)) eqn:E; [|done]. pose proof (H2 b eq_refl Hb) as Hx.
    by eapply Forall_lookup_1 in Hx; [|done].
  - destruct Hw as (t & Ht & Hd & Hn). pose proof (lookup_lt_Some _ _ _ Ht). split; [|done].
    destruct (decide (joined p <= j)%nat); [done|]. destruct (H3 _ _ Ht) as (_ & Hx & _). exfalso. apply Hd, Hx. lia.
Qed.

Lemma handler_step_inv p p' : p_inv p -> handler_step p p' -> p_inv p'.
Proof.
  intros HI Hs. pose proof (pv_handlers p HI) as HH.
  destruct Hs as [w hs1 hs2 E|w hs1 hs2 E|w hs1 hs2 E Hg|w hs1 hs2 E]; rewrite E in HH;
    apply Forall_app in HH as [HH1 HH2]; apply Forall_cons in HH2 as [[Hw Hc] HH2]; apply (inv_handlers p); try done.
  - apply Forall_app. split; [done|]. apply Forall_cons. by repeat split.
  - rewrite !Forall_app. split_and!; [done| |done]. destruct (pr_g_server p) eqn:Hg; [|done].
    apply Forall_singleton. by repeat split.
  - apply Forall_app. split; [done|]. apply Forall_cons. by repeat split.
  - by apply Forall_app.
Qed.

Lemma p_step_inv p p' : listening <> None -> p_inv p -> p_step p p' -> p_inv p'.
Proof.
  intros Hl HI Hs. destruct Hs as [p' Hf Hr|p' Hh|w Hw|l Hfo|b b' Hb Hp|i t t' Hi Ht|d Hd].
  - by eapply run_step_inv.
  - by eapply handler_step_inv.
  - apply inv_handlers; [done|]. apply Forall_app. split; [apply (pv_handlers p HI)|]. apply Forall_singleton. by apply interruptible_ok.
  - by apply (inv_move p); try apply (pv_server p HI); try apply (pv_biz p HI); try apply (pv_db p HI).
  - eapply inv_biz; try done; [|apply (pv_db p HI)|by apply client_or_worker_exited].
    intros Hs. destruct Hp as (a & _ & -> & _). by eapply (pv_biz p HI).
  - eapply inv_thread; try done. intros n. by apply by_thread_ok.
  - pose proof (pv_db p HI) as (H1 & H2 & H3). apply (inv_move p); cbn; try done; try apply (pv_server p HI); try apply (pv_biz p HI).
    split; [by eapply bg_step_inv|]. by rewrite (bg_step_dtor _ _ Hd).
Qed.

Lemma p_reach_inv p : listening <> None -> p_reach p -> p_inv p.
Proof.
  intros Hl. induction 1 as [|p p' H IH Hs]; [|by eapply p_step_inv].
  constructor; unfold joined; cbn; try done. split_and!; [apply DbThreads_inv|done|done].
Qed.

(** When [run] has returned no thread of the server is left, at the end of [main] none at all, and
    no handler of a thread of the server calls through a null [g_server].  In every interleaving
    of the main thread, sub reactors, workers, clients, threads of the database and any number of
    signals: once [server.run()] has returned on a listening server, every worker and every sub
    reactor has ended, so what the destructor takes away is used by nobody; once the destructor
    of the database has returned its threads have ended too, with no memtable left to flush; and
    a handler that is about to call [g_server->stop()], on the main thread, on a worker or on a
    sub reactor, finds the pointer set. *)
Theorem server_run_joins_all p :
  listening <> None -> p_reach p ->
  (pr_main p = MReturned \/ pr_main p = MCleared \/ pr_main p = MDb \/ pr_main p = MDone ->
     (forall b, pr_biz p = Some b -> Forall (fun w => w = WExited) (tp_workers b)) /\
     Forall (fun t => lt_phase t = TDone) (pr_io p)) /\
  (pr_main p = MDone -> dt_flush (pr_db p) = FExited /\ dt_queue (pr_db p) = 0%nat /\ dt_compact (pr_db p) = CExited) /\
  (forall w, (w, HCall) ∈ pr_handlers p -> on_db w = false -> pr_g_server p = true).
Proof.
  intros Hl Hr. destruct (p_reach_inv p Hl Hr) as [H1 H2 H3 H4 H5 H6 H7]. split_and!.
  - intros Hm. assert (past_biz (pr_main p) = true /\ joined p = length (pr_io p)) as [Hp Hj].
    { unfold joined. by destruct Hm as [-> |[-> |[-> | ->]]]. }
    split; [intros b; by apply H2|]. apply Forall_lookup_2. intros j t Ht. eapply H3; [done|]. rewrite Hj. by eapply lookup_lt_Some.
  - intros Hm. destruct H7 as ([D1 D2 D3 D4 D5] & _ & Hg). rewrite (Hg Hm) in D3, D5. cbn in D3, D5.
    pose proof (D5 ltac:(lia)) as Hf. destruct (D4 Hf) as [Hq _]. auto with lia.
  - intros w Hin Hw. rewrite Forall_forall in H1. by apply (H1 _ Hin).
Qed.

(** ** Shutting down *)

#[local] Instance sphase_eq_dec : EqDecision sphase.
Proof. solve_decision. Defined.

(** The steps a loop that has been told to stop still has to take. *)
Definition loop_left (l : EventLoop Fn Cb) : nat :=
  match el_phase l with
  | Exited => 0
  | Waiting => 1
  | Running fs => 2 + length fs
  | Swapping => 3 + length (el_pending l)
  | Dispatching evs => 4 + length evs + length (el_pending l)
  | Starting => 5 + length (el_pending l)
  end.

Ltac wound := cbn; split_and!; [lia|done..].

Lemma loop_winds_down l :
  el_running l = false -> el_phase l <> Starting -> el_phase l <> Exited ->
  exists l', own_step wfd l l' /\ (loop_left l' < loop_left l)%nat /\ el_running l' = false /\ el_phase l' <> Starting.
Proof.
  intros Hr Hs Hx. unfold own_step, loop_left. destruct (el_phase l) as [| |evs| |fs|] eqn:Hp; try done.
  - exists (with_phase l Exited). split; [by exists AOther; split; [apply el_exit|]|]. wound.
  - destruct evs as [|[fd ev] evs].
    { exists (with_phase l Swapping). split; [by exists AOther; split; [apply el_dispatched|]|]. wound. }
    assert (forall l1 : EventLoop Fn Cb, el_phase l1 = Dispatching evs -> el_phase l1 <> Dispatching ((fd, ev) :: evs)) as Hne.
    { intros l1 E E'. rewrite E in E'. injection E' as E'. apply (f_equal length) in E'. cbn in E'. lia. }
    destruct (decide (fd = wfd)) as [->|Hfd].
    { exists (with_phase (handleWakeup l) (Dispatching evs)). split; [exists AOther; split; [by eapply el_drain|by apply Hne]|].
      wound. }
    exists (with_phase l (Dispatching evs)). split; [|wound].
    destruct (el_callbacks l !! fd) as [cb|] eqn:Hcb;
      [exists (ACall fd ev cb); split; [by eapply el_call|by apply Hne]|exists AOther; split; [by eapply el_unknown|by apply Hne]].
  - exists (swap_pending l). split; [by exists AOther; split; [apply el_swap|]|]. wound.
  - destruct fs as [|f fs].
    { exists (with_phase l Waiting). split; [by exists AOther; split; [apply el_round|]|]. wound. }
    exists (with_phase l (Running fs)). split; [|wound].
    exists (ARun f). split; [by apply el_functor|]. cbn. intros E. injection E as E. apply (f_equal length) in E. cbn in E. lia.
Qed.

(** A worker of a pool that has been told to stop. *)
Definition worker_left (w : wstate T) : nat :=
  match w with WExited => 0 | WHead => 1 | WBusy _ => 2 | WReady => 3 | WAsleep => 4 | WParking => 5 end.
Definition pool_left (b : ThreadPool T) : nat := sum_list_with worker_left (tp_workers b).

Lemma find_worker (f : wstate T -> bool) ws :
  (exists i w, ws !! i = Some w /\ f w = true) \/ Forall (fun w => f w = false) ws.
Proof.
  induction ws as [|w ws IH]; [by right|]. destruct (f w) eqn:E; [by left; exists 0%nat, w|].
  destruct IH as [(i & w' & Hi & Hf)|IH]; [by left; exists (S i), w'|right; by constructor].
Qed.

Lemma pool_worker_step b i w w' a b' :
  tp_running b = false -> tp_workers b !! i = Some w -> tp_step b a b' -> tp_workers b' = <[i := w']> (tp_workers b) ->
  (worker_left w' < worker_left w)%nat -> tp_running b' = tp_running b -> tp_notify_all b' = tp_notify_all b ->
  exists b', client_or_worker b b' /\ (pool_left b' < pool_left b)%nat /\ tp_running b' = false.
Proof.
  intros Hr Hi Hs Hw Hlt Hr' Hn. exists b'. split; [by exists a|]. split; [|congruence].
  unfold pool_left. rewrite Hw. pose proof (sum_list_update worker_left _ i w w' Hi). lia.
Qed.

Definition unfinished (w : wstate T) : bool := match w with WExited => false | _ => true end.

(** A pool told to stop: every worker has ended, or one is asleep, or one moves on. *)
Lemma pool_winds_down b :
  tp_running b = false ->
  Forall (fun w => w = WExited) (tp_workers b) \/ (exists i, tp_workers b !! i = Some WAsleep) \/
  exists b', client_or_worker b b' /\ (pool_left b' < pool_left b)%nat /\ tp_running b' = false.
Proof.
  intros Hr. destruct (find_worker parking (tp_workers b)) as [(i & w & Hi & Hw)|Hfree].
  { destruct w; try done. right; right. by eapply (pool_worker_step b i _ WAsleep); [done|done|apply tp_sleep|..]; cbn; try lia. }
  assert (mutex_free b = true) as Hm.
  { unfold mutex_free. apply negb_true_iff. clear -Hfree. induction Hfree as [|w ws Hw _ IH]; [done|]. cbn. by rewrite Hw, IH. }
  destruct (find_worker unfinished (tp_workers b)) as [(i & w & Hi & Hw)|Hall].
  2: { left. eapply Forall_impl; [exact Hall|]. by intros []. }
  destruct w; try done; [..|by eapply Forall_lookup_1 in Hi; [|exact Hfree]|by right; left; exists i|].
  all: right; right.
  - eapply (pool_worker_step b i _ _ _ _ Hr Hi (tp_enter b i Hi)); [done| |done..]. rewrite Hr. cbn. lia.
  - destruct (tp_tasks b) as [|t ts] eqn:Ht.
    + eapply (pool_worker_step b i _ _ _ _ Hr Hi (tp_leave b i Hi Hm Ht Hr)); [done|cbn; lia|done..].
    + eapply (pool_worker_step b i _ _ _ _ Hr Hi (tp_take b i t ts Hi Hm Ht)); [done|cbn; lia|done..].
  - eapply (pool_worker_step b i _ _ _ _ Hr Hi (tp_done b i _ Hi)); [done|cbn; lia|done..].
Qed.

Lemma pool_left_wake b : (pool_left (wake_all b) <= pool_left b)%nat.
Proof.
  unfold pool_left, wake_all. cbn. induction (tp_workers b) as [|w ws IH]; cbn -[worker_left]; [lia|].
  destruct w; cbn in *; lia.
Qed.

(** A sub reactor and the stop of it by the main thread. *)
Definition stop_left (s : sphase) : nat :=
  match s with SNone => 4 | SCalling => 3 | SWaking => 2 | SJoining => 1 | SReturned => 0 end.
Definition thread_left (t : LoopThread Fn Cb) : nat :=
  stop_left (lt_stop t) +
  match lt_phase t with TNone | TDone => 0 | TStarting => 2 + loop_left (lt_el t) | TLooping => 1 + loop_left (lt_el t) end.

(** The stop of a sub reactor is overwritten: the main thread is in [join], and the loop has not
    reached [running_ = true] yet or has set it after the stop. *)
Definition overwritten (t : LoopThread Fn Cb) : Prop :=
  lt_stop t = SJoining /\ lt_phase t = TLooping /\ (el_running (lt_el t) = true \/ el_phase (lt_el t) = Starting).

Lemma thread_winds_down t :
  (lt_stop t = SNone -> lt_exiting t = false) -> lt_stop t <> SReturned ->
  overwritten t \/
  exists t', (by_stopper wfd t t' \/ by_thread wfd t t' /\ lt_stop t' <> SReturned) /\ (thread_left t' < thread_left t)%nat.
Proof.
  intros Hn Hr. unfold thread_left. destruct (lt_stop t) eqn:Hs; try done.
  - right. exists (mkLT (lt_loop t) true (lt_phase t) (if lt_loop t then SCalling else SJoining) (lt_el t)). split.
    + left. split; [by apply lt_call_stop, Hn|]. rewrite Hs. cbn. by destruct (lt_loop t).
    + cbn. destruct (lt_loop t); cbn; lia.
  - right. exists (mkLT (lt_loop t) (lt_exiting t) (lt_phase t) SWaking (el_stop (lt_el t))). split.
    + left. split; [by apply lt_stop_store|]. by rewrite Hs.
    + cbn. unfold loop_left. cbn. destruct (lt_phase t); lia.
  - right. exists (mkLT (lt_loop t) (lt_exiting t) (lt_phase t) SJoining (wakeup (lt_el t))). split.
    + left. split; [by apply lt_stop_wake|]. by rewrite Hs.
    + cbn. unfold loop_left. cbn. destruct (lt_phase t); lia.
  - destruct (lt_phase t) eqn:Hp.
    + right. eexists. split; [left; split; [apply lt_join; [done|by right]|by rewrite Hs]|]. cbn. rewrite Hp. lia.
    + right. eexists. split; [right; split; [by eapply bt_publish|by cbn; rewrite Hs]|]. cbn. rewrite Hs. cbn. lia.
    + destruct (decide (el_running (lt_el t) = true)) as [|Hrun]; [by left; split_and!; auto|]. apply not_true_iff_false in Hrun.
      assert (el_phase (lt_el t) = Starting \/ el_phase (lt_el t) = Exited \/ (el_phase (lt_el t) <> Starting /\ el_phase (lt_el t) <> Exited)) as [He|[He|[He He']]]
        by (destruct (el_phase (lt_el t)); auto).
      * by left; split_and!; auto.
      * right. eexists. split; [right; split; [by eapply bt_end|by cbn; rewrite Hs]|]. cbn. rewrite Hs. cbn. lia.
      * right. destruct (loop_winds_down _ Hrun He He') as (l & Ho & Hlt & _).
        eexists. split; [right; split; [by eapply bt_own|by cbn; rewrite Hs]|]. cbn. rewrite Hs. cbn. lia.
    + right. eexists. split; [left; split; [apply lt_join; [done|by left]|by rewrite Hs]|]. cbn. rewrite Hp. lia.
Qed.

(** The steps the process still has to take after the signal. *)
Definition main_left (p : Process) : nat :=
  let n := length (pr_io p) in
  match pr_main p with
  | MDone => 0 | MDb => 1 | MJoinBiz true => 2 | MNotifyBiz true => 3 | MStopBiz true => 4 | MCleared => 5 | MReturned => 6
  | MStopIo i => 7 + (n - i)
  | MJoinBiz false => 8 + n | MNotifyBiz false => 9 + n | MStopBiz false => 10 + n | MLoop => 11 + n
  | _ => 12 + n
  end.
Definition handler_left (h : onthread * hphase) : nat := match h.2 with HEnter => 4 | HTest => 3 | HCall => 2 | HWake => 1 end.
Definition steps_left (p : Process) : nat :=
  main_left p + sum_list_with handler_left (pr_handlers p) + loop_left (pr_loop p) +
  match pr_biz p with Some b => pool_left b | None => 0 end + sum_list_with thread_left (pr_io p) +
  db_left (pr_db p).

(** The signal has been handled: the main thread is past its loop or will leave it. *)
Definition winding_down (p : Process) : Prop :=
  match pr_main p with
  | MSetup | MStartIo | MWaitIo => False
  | MLoop => el_running (pr_loop p) = false /\ el_phase (pr_loop p) <> Starting
  | _ => True
  end.

(** The three ways in which the shutdown can hang ([lost_flush] of [DBThreads] is the third), and
    the one in which it is undefined. *)
Definition lost_wakeup (p : Process) : Prop :=
  exists f b i, pr_main p = MJoinBiz f /\ pr_biz p = Some b /\ tp_workers b !! i = Some WAsleep.
Definition lost_stop (p : Process) : Prop :=
  exists i t, pr_main p = MStopIo i /\ pr_io p !! i = Some t /\ overwritten t.
Definition null_call (p : Process) : Prop := exists w, (w, HCall) ∈ pr_handlers p /\ on_db w = true /\ pr_g_server p = false.

(** No handler runs on a thread of the database, and the flush thread has not missed its end. *)
Definition calm_db (p : Process) : Prop := free p OnFlush /\ free p OnCompact /\ ~ lost_flush (pr_db p).

(** A step towards the end, which keeps the database calm. *)
Definition progress (p : Process) : Prop :=
  exists p', p_step p p' /\ (steps_left p' < steps_left p)%nat /\ (calm_db p -> calm_db p').

Lemma own_step_running l l' : own_step wfd l l' -> el_phase l <> Starting -> el_running l' = el_running l /\ el_phase l' <> Starting.
Proof.
  intros (a & Hs & Hne) Hp.
  destruct Hs as [l f|l Ho|l Hp'|l|l|l fd ev cb|l fd ev|l fd Hfd|l evs Hr Hp'|l Hr Hp'|l ev evs Hp'|l fd ev evs cb Hp' Hfd Hcb|l fd ev evs Hp' Hfd Hcb|l Hp'|l Hp'|l f fs Hp'|l Hp']; by cbn in *.
Qed.

(** The shutdown is not taken back. *)
Lemma winding_down_step p p' : p_step p p' -> winding_down p -> winding_down p'.
Proof.
  unfold winding_down. intros Hs Hw. destruct Hs as [p' Hf Hr|p' Hh|w Hi|l Hfo|b b' Hb Hp|i t t' Hi Ht|d Hd].
  - destruct Hr as [Hm|Hm Hn|Hm _ Hlt|t Hm Ht Hp|fd cb Hm Hn He|l Hm Ho|Hm He|f b Hm Hb|f b Hm Hb|f b Hm Hb Hx Hf'|i t t' Hm Hi Hst Hr|i t t' Hm Hi Hst Hr Hf'|i Hm Hi|Hm|Hm|d Hm Hds Hjc Hjf|Hm Hg];
      rewrite Hm in Hw; cbn; try done.
    + destruct Hw as [Hr Hp]. destruct (own_step_running _ _ Ho Hp) as [-> Hp']. done.
    + by destruct (pr_biz p).
    + by destruct f.
    + by destruct (pr_biz p).
  - destruct Hh as [w hs1 hs2 E|w hs1 hs2 E|w hs1 hs2 E Hg|w hs1 hs2 E]; cbn; destruct (pr_main p); try done. by destruct Hw.
  - done.
  - destruct Hfo as (a & _ & Hp & Hr). cbn. rewrite Hp, Hr. done.
  - done.
  - done.
  - done.
Qed.

Lemma sum_list_split {A} (f : A -> nat) (l1 l2 : list A) x :
  sum_list_with f (l1 ++ x :: l2) = (sum_list_with f (l1 ++ l2) + f x)%nat.
Proof. rewrite !sum_list_with_app. cbn. lia. Qed.

(** Handlers that were not there do not appear. *)
Lemma progress_intro p p' :
  p_step p p' -> (steps_left p' < steps_left p)%nat -> (forall w h, (w, h) ∈ pr_handlers p' -> exists h', (w, h') ∈ pr_handlers p) ->
  (~ lost_flush (pr_db p) -> ~ lost_flush (pr_db p')) -> progress p.
Proof.
  intros Hs Hlt Hh Hd. exists p'. split_and!; [done|done|]. intros (H1 & H2 & H3). split_and!; [..|by apply Hd]; apply handler_free;
    intros h (h' & Hin)%Hh; [by apply handler_free with (h := h') in H1|by apply handler_free with (h := h') in H2].
Qed.

Lemma handler_progress p w h : (h = HCall -> pr_g_server p = true) -> (w, h) ∈ pr_handlers p -> progress p.
Proof.
  intros Hg (hs1 & hs2 & E)%list_elem_of_split.
  assert (forall q h', handler_step p q -> (steps_left q < steps_left p)%nat -> pr_db q = pr_db p ->
    pr_handlers q = hs1 ++ (w, h') :: hs2 \/ pr_handlers q = hs1 ++ hs2 -> progress p) as Hgo.
  { intros q h' Hq Hlt Hd Hh. apply (progress_intro p q); [by apply ps_handler|done| |by rewrite Hd]. intros w' h0 Hin. rewrite E.
    destruct Hh as [Hh|Hh]; rewrite Hh in Hin; set_unfold; naive_solver. }
  unfold steps_left, main_left, loop_left in *. rewrite E in *. destruct h.
  - eapply (Hgo _ HTest); [by eapply hs_enter| |done|by left]. cbn. rewrite !sum_list_split. cbn. lia.
  - eapply (Hgo _ HCall); [by eapply hs_test| |done|by cbn; destruct (pr_g_server p); [left|right]].
    cbn. rewrite sum_list_split. destruct (pr_g_server p); cbn; rewrite ?sum_list_split; cbn; lia.
  - eapply (Hgo _ HWake); [by eapply hs_store; auto| |done|by left]. cbn. rewrite !sum_list_split. cbn. lia.
  - eapply (Hgo _ HWake); [by eapply hs_wake| |done|by right]. cbn. rewrite !sum_list_split. cbn. lia.
Qed.

(** A step that leaves the handlers and the database alone. *)
Lemma plain_progress p p' :
  p_step p p' -> (steps_left p' < steps_left p)%nat -> pr_handlers p' = pr_handlers p -> pr_db p' = pr_db p -> progress p.
Proof. intros Hs Hlt Hh Hd. apply (progress_intro p p'); [done|done|rewrite Hh; eauto|by rewrite Hd]. Qed.

(** The main thread goes on and no other part changes. *)
Lemma main_progress p m :
  free p OnMain -> run_step p (at_main p m) -> (main_left (at_main p m) < main_left p)%nat -> progress p.
Proof. intros Hf Hs Hlt. apply (plain_progress p (at_main p m)); [by apply ps_main| |done|done]. unfold steps_left. cbn. lia. Qed.

Lemma stop_io_progress p i t t' :
  pr_main p = MStopIo i -> pr_io p !! i = Some t -> free p OnMain -> free p (OnIo i) ->
  by_stopper wfd t t' \/ by_thread wfd t t' /\ lt_stop t' <> SReturned -> (thread_left t' < thread_left t)%nat -> progress p.
Proof.
  intros Hm Hi Hf Hfi Hst Hlt. pose proof (sum_list_update thread_left _ i t t' Hi) as Hsum.
  pose proof (lookup_lt_Some _ _ _ Hi) as Hlen. destruct Hst as [Hst|[Hst _]].
  - destruct (decide (lt_stop t' = SReturned)) as [Hr|Hr].
    + eapply plain_progress; [apply ps_main; [done|by eapply ms_join_io]| |done|done]. unfold steps_left, main_left. cbn. rewrite Hm, length_insert. lia.
    + eapply plain_progress; [apply ps_main; [done|by eapply ms_stop_io]| |done|done]. unfold steps_left, main_left. cbn. rewrite Hm, length_insert. lia.
  - eapply plain_progress; [by eapply ps_thread| |done|done]. unfold steps_left, main_left. cbn. rewrite Hm, length_insert. lia.
Qed.

Lemma join_biz_progress p f b :
  pr_main p = MJoinBiz f -> pr_biz p = Some b -> tp_running b = false -> free p OnMain -> (forall i, free p (OnWorker i)) ->
  lost_wakeup p \/ progress p.
Proof.
  intros Hm Hb Hr Hf Hw. destruct (pool_winds_down b Hr) as [Hx|[[i Hi]|(b' & Hs & Hlt & _)]].
  - right. eapply main_progress; [done|by eapply ms_join_biz|]. unfold main_left. cbn. rewrite Hm. destruct f; lia.
  - left. by exists f, b, i.
  - right. eapply plain_progress; [by eapply ps_pool| |done|done]. unfold steps_left, main_left. cbn. rewrite Hm, Hb. lia.
Qed.

(** In [~DBImpl]. *)
Lemma db_progress p :
  pr_main p = MDb -> d_inv (pr_db p) -> (forall w, free p w) -> lost_flush (pr_db p) \/ progress p.
Proof.
  intros Hm Hd Hfree. destruct (db_winds_down (pr_db p) Hd) as [Hg|[Hlost|(d & Hs & Hlt & Hok)]]; [|by left|].
  - right. eapply main_progress; [done|by apply ms_end|]. unfold main_left. cbn. rewrite Hm. lia.
  - right. destruct Hs as [Hs|Hs].
    + apply (progress_intro p (with_db p MDb d)); [apply ps_main; [done|by apply ms_db]| |by eauto|done].
      unfold steps_left, main_left. cbn. rewrite Hm. lia.
    + apply (progress_intro p (with_db p (pr_main p) d)); [by apply ps_db| |by eauto|done].
      unfold steps_left, main_left. cbn. rewrite Hm. lia.
Qed.

(** A handler can go on, or none is in progress, or one stands before a call through null. *)
Lemma handlers_done p : p_inv p -> null_call p \/ progress p \/ forall w, free p w.
Proof.
  intros HI. destruct (pr_handlers p) as [|[w h] hs] eqn:E; [right; right; intros w; unfold free; by rewrite E|].
  assert ((w, h) ∈ pr_handlers p) as Hin by (rewrite E; left).
  assert (h = HCall -> on_db w = false -> pr_g_server p = true) as Hc.
  { pose proof (pv_handlers p HI) as H1. rewrite Forall_forall in H1. apply (H1 _ Hin). }
  destruct (pr_g_server p) eqn:Hg; [right; left; by eapply handler_progress|].
  destruct h; try (right; left; refine (handler_progress p w _ _ Hin); discriminate). destruct (on_db w) eqn:Hw; [left; exact (ex_intro _ w (conj Hin (conj Hw Hg)))|by specialize (Hc eq_refl eq_refl)].
Qed.

Lemma shutdown_step p :
  listening <> None -> p_reach p -> winding_down p ->
  pr_main p = MDone \/ lost_wakeup p \/ lost_stop p \/ (pr_main p = MDb /\ lost_flush (pr_db p)) \/ null_call p \/ progress p.
Proof.
  intros Hl Hreach Hw. pose proof (p_reach_inv p Hl Hreach) as HI.
  destruct (handlers_done p HI) as [|[|Hfree]]; [by do 4 right; left|by do 5 right|]. destruct HI as [H1 H2 H3 H4 H5 H6 H7].
  pose proof (Hfree OnMain) as Hf. unfold winding_down in Hw. unfold joined in H3, H5.
  destruct (pr_main p) as [| | | |f|f|f|i| | | |] eqn:Hm; try done.
  - do 5 right. destruct Hw as [Hr Hp]. assert (el_phase (pr_loop p) = Exited \/ el_phase (pr_loop p) <> Exited) as [He|He]
      by (destruct (el_phase (pr_loop p)); auto).
    + eapply main_progress; [done|by apply ms_exit|]. unfold main_left. cbn. rewrite Hm. destruct (pr_biz p); lia.
    + destruct (loop_winds_down _ Hr Hp He) as (l & Ho & Hlt & _). eapply plain_progress; [apply ps_main; [done|by eapply ms_loop]| |done|done].
      unfold steps_left, main_left. cbn. rewrite Hm. lia.
  - do 5 right. destruct H6 as [H6 _]. destruct (pr_biz p) as [b|] eqn:Hb; [|by destruct H6].
    eapply plain_progress; [apply ps_main; [done|by eapply ms_stop_biz]| |done|done].
    unfold steps_left, main_left, pool_left. cbn. rewrite Hm, Hb. destruct f; lia.
  - do 5 right. destruct H6 as [H6 _]. destruct (pr_biz p) as [b|] eqn:Hb; [|by destruct H6].
    eapply plain_progress; [apply ps_main; [done|by eapply ms_notify_biz]| |done|done]. pose proof (pool_left_wake b).
    unfold steps_left, main_left. cbn [at_main with_biz pr_main pr_io pr_handlers pr_loop pr_biz pr_db]. rewrite Hm, Hb. destruct f; lia.
  - destruct H6 as [H6 H8]. destruct (pr_biz p) as [b|] eqn:Hb; [|by destruct H6].
    destruct (join_biz_progress p f b Hm Hb) as [|]; auto 10.
  - destruct (pr_io p !! i) as [t|] eqn:Hi.
    2: { do 5 right. eapply main_progress; [done|by eapply ms_return|]. unfold main_left. cbn. rewrite Hm. lia. }
    destruct (H3 _ _ Hi) as (_ & _ & Ha & Hb). destruct (thread_winds_down t Ha (Hb ltac:(lia))) as [Ho|(t' & Hst & Hlt)].
    + right; right; left. by exists i, t.
    + do 5 right. eapply stop_io_progress; eauto.
  - do 5 right. eapply plain_progress; [apply ps_main; [done|by apply ms_clear]| |done|done]. unfold steps_left, main_left. cbn. rewrite Hm. lia.
  - do 5 right. eapply main_progress; [done|by apply ms_destroy|]. unfold main_left. cbn. rewrite Hm. destruct (pr_biz p); lia.
  - destruct (db_progress p Hm) as [|]; [apply H7|done|by right; right; right; left|by do 5 right].
  - by left.
Qed.

(** A sub reactor that has ended, or has entered its loop and is told nothing else than to stop. *)
Definition entered (t : LoopThread Fn Cb) : Prop :=
  lt_phase t = TDone \/
  lt_phase t = TLooping /\ el_phase (lt_el t) <> Starting /\ lt_loop t = true /\
  ((stop_left (lt_stop t) <= 2)%nat -> el_running (lt_el t) = false).

Lemma by_thread_entered t t' : by_thread wfd t t' -> entered t -> entered t'.
Proof.
  intros Hs He. destruct Hs as [Hp ->|l Hp Ho ->|l Hp (a & _ & Hp' & Hr) ->|Hp _ ->]; destruct He as [He|(He & Hst & Hlo & Hrun)]; try congruence.
  - right. cbn. destruct (own_step_running _ _ Ho Hst) as [-> ?]. by split_and!.
  - right. cbn. rewrite Hp', Hr. by split_and!.
  - by left.
Qed.

Lemma by_stopper_entered t t' : by_stopper wfd t t' -> entered t -> entered t'.
Proof.
  intros [Hs Hne] He. destruct He as [He|(He & Hst & Hlo & Hrun)].
  { left. destruct Hs; cbn in *; congruence. }
  destruct Hs as [t Hp|t Hp|t a l Hp _|t Hp _|t Hx|t Hp|t Hp|t Hp [Hd|Hd]]; cbn in *; try congruence.
  - right. cbn. rewrite Hlo. split_and!; try done. cbn. lia.
  - right. by split_and!.
  - right. cbn. rewrite Hp in Hrun. cbn in Hrun. by split_and!; auto.
Qed.

Lemma entered_step p p' : p_step p p' -> winding_down p -> Forall entered (pr_io p) -> Forall entered (pr_io p').
Proof.
  unfold winding_down. intros Hs Hw He. destruct Hs as [p' Hf Hr|p' Hh|w Hi|l Hfo|b b' Hb Hp|i t t' Hi Ht|d Hd]; try done.
  - destruct Hr; cbn; try done; [by rewrite H in Hw| |];
      (apply Forall_insert; [done|]; eapply by_stopper_entered; [done|]; by eapply Forall_lookup_1).
  - by destruct Hh.
  - cbn. apply Forall_insert; [done|]. eapply by_thread_entered; [done|]. by eapply Forall_lookup_1.
Qed.

Lemma no_biz_step p p' : p_step p p' -> pr_biz p = None -> pr_biz p' = None.
Proof. intros Hs Hb. destruct Hs as [p' _ Hr|p' Hh|w _|l _|b b' Hb' _|i t t' _ _|d _]; try done; [destruct Hr|destruct Hh|]; cbn; congruence. Qed.

Inductive p_steps (p : Process) : Process -> Prop :=
| p_steps_refl : p_steps p p
| p_steps_step p1 p2 : p_step p p1 -> p_steps p1 p2 -> p_steps p p2.

Lemma shutdown_without_workers n p :
  listening <> None -> p_reach p -> winding_down p -> pr_biz p = None -> Forall entered (pr_io p) -> calm_db p -> (steps_left p <= n)%nat ->
  exists p', p_steps p p' /\ pr_main p' = MDone.
Proof.
  intros Hl. revert p. induction n as [|n IH]; intros p Hr Hw Hb He Hc Hn;
    (destruct (shutdown_step p Hl Hr Hw) as [Hd|[(f & b & i & _ & Hb' & _)|[(i & t & _ & Hi & Ho1 & Ho2 & Ho3)|[[_ Hlost]|[(w & Hin & Hdb & _)|(p1 & Hs & Hlt & Hk)]]]]];
      [exists p; by split; [constructor|]|congruence| |by destruct Hc as (_ & _ & []); exact Hlost| |]).
  1, 4: eapply Forall_lookup_1 in He; [|done]; destruct He as [He|(_ & Hst & Hlo & Hrun)]; [congruence|];
    rewrite Ho1 in Hrun; destruct Ho3 as [Ho3|Ho3]; [rewrite Hrun in Ho3; [done|cbn; lia]|done].
  1, 3: destruct Hc as (H1 & H2 & _); destruct w; try done;
    [by apply handler_free with (h := HCall) in H1|by apply handler_free with (h := HCall) in H2].
  - lia.
  - destruct (IH p1) as (p' & Hsteps & Hdone);
      [by eapply p_reach_step|by eapply winding_down_step|by eapply no_biz_step|by eapply entered_step|by apply Hk|lia|].
    exists p'. split; [by eapply p_steps_step|done].
Qed.

End Process.
Arguments Process : clear implicits.

(** ** Runs of a small server: a listening socket, one sub reactor, no workers *)

Definition demo_listening : option (Z * nat) := Some (4%Z, 0%nat).
Definition demo_thread : LoopThread nat nat := mkLT true false TLooping SNone (el_begin el_start).
Definition demo_loop : EventLoop nat nat := addEvent el_start 4 EPOLLIN 0%nat.

Definition demo_proc (m : mainph) (g sv : bool) (hs : list (onthread * hphase)) (l : EventLoop nat nat) (io : list (LoopThread nat nat)) : Process nat nat nat :=
  mkProc m g sv hs l None io DbThreads_new.
Definition demo_reach : Process nat nat nat -> Prop := p_reach 3 1 None demo_listening.

Ltac p_go q := apply (p_reach_step _ _ _ _ q).
Ltac on_main := apply ps_main; [once (unfold free; cbn; by repeat constructor)|].
Ltac on_thread t t' := match goal with |- p_step _ _ _ ?p _ => apply (ps_thread _ _ _ p 0 t t'); [done|] end.
Ltac by_rule rule := match goal with |- run_step ?w ?n ?l ?p _ => eapply (rule nat nat nat w n l p) end.
Tactic Notation "stop_io" constr(t) constr(t') "by" tactic3(tac) :=
  on_main; match goal with |- run_step _ _ _ ?p _ => apply (ms_stop_io _ _ _ p 0 t t') end; try done; split; [by tac|done].
Ltac in_handler rule w := apply ps_handler; match goal with |- handler_step ?p _ => by apply (rule nat nat nat p w [] []) end.

(** The start, after signals that were handled before [g_server] was set, or none. *)
Lemma demo_start (g : bool) :
  demo_reach (demo_proc MSetup g false [] el_start []) -> demo_reach (demo_proc MLoop g true [] demo_loop [demo_thread]).
Proof.
  intros H0. pose (t0 := mkLT false false TStarting SNone el_start : LoopThread nat nat).
  pose (t1 := mkLT true false TLooping SNone el_start : LoopThread nat nat).
  p_go (demo_proc MStartIo g true [] el_start [demo_thread]); [|on_main; by apply ms_accepting with (cb := 0%nat)].
  p_go (demo_proc MWaitIo g true [] el_start [demo_thread]); [|on_main; by eapply ms_started].
  p_go (demo_proc MWaitIo g true [] el_start [t1]).
  2: { on_thread t1 demo_thread. eapply bt_own; [done| |done]. exists AOther. split; [by apply el_enter|done]. }
  p_go (demo_proc MWaitIo g true [] el_start [t0]); [|on_thread t0 t1; by apply bt_publish].
  p_go (demo_proc MStartIo g true [] el_start []); [|on_main; by_rule (@ms_create); cbn; done || lia].
  p_go (demo_proc MSetup g false [] el_start []); [done|]. on_main. by by_rule (@ms_publish).
Qed.

(** The main loop runs. *)
Lemma demo_looping (g : bool) :
  demo_reach (demo_proc MSetup g false [] el_start []) -> demo_reach (demo_proc MLoop g true [] (el_begin demo_loop) [demo_thread]).
Proof.
  intros H0%demo_start. p_go (demo_proc MLoop g true [] demo_loop [demo_thread]); [done|]. on_main. apply ms_loop; [done|].
  exists AOther. split; [by apply el_enter|done].
Qed.

(** A signal is delivered to [w] and its handler runs up to the call of [wakeup]. *)
Lemma demo_signal (w : onthread) g l ts :
  w = OnMain \/ w = OnFlush -> demo_reach (demo_proc MLoop g true [] l ts) ->
  demo_reach (demo_proc MLoop false true [(w, HCall)] l ts) /\
  demo_reach (demo_proc MLoop false true [] (wakeup (el_stop l)) ts).
Proof.
  intros Hw H0. assert (demo_reach (demo_proc MLoop false true [(w, HCall)] l ts)) as H3.
  { p_go (demo_proc MLoop false true [(w, HTest)] l ts); [|in_handler (@hs_test) w].
    p_go (demo_proc MLoop g true [(w, HEnter)] l ts); [|in_handler (@hs_enter) w].
    p_go (demo_proc MLoop g true [] l ts); [done|]. apply (ps_signal _ _ _ (demo_proc MLoop g true [] l ts) w). by destruct Hw as [->| ->]. }
  split; [done|].
  p_go (demo_proc MLoop false true [(w, HWake)] (el_stop l) ts); [|in_handler (@hs_wake) w].
  p_go (demo_proc MLoop false true [(w, HCall)] l ts); [done|]. in_handler (@hs_store) w.
Qed.


(** A signal that comes before [g_server] is set is swallowed: the handler clears [g_running],
    which nobody reads, and returns; the server starts and runs as if nothing had happened. *)
Theorem early_signal_ignored :
  exists p : Process nat nat nat, demo_reach p /\ pr_g_running p = false /\ pr_handlers p = [] /\
    pr_main p = MLoop /\ el_running (pr_loop p) = true /\ el_phase (pr_loop p) = Waiting.
Proof.
  exists (demo_proc MLoop false true [] (el_begin demo_loop) [demo_thread]). split; [|done]. apply demo_looping.
  p_go (demo_proc MSetup false false [(OnMain, HTest)] el_start []); [|in_handler (@hs_test) OnMain].
  p_go (demo_proc MSetup true false [(OnMain, HEnter)] el_start []); [|in_handler (@hs_enter) OnMain].
  p_go (demo_proc MSetup true false [] el_start []); [constructor|]. by apply (ps_signal _ _ _ (demo_proc MSetup true false [] el_start []) OnMain).
Qed.

(** So is one that comes between that and the start of the loop, which sets [running_] again. *)
Theorem signal_before_loop_ignored :
  exists p : Process nat nat nat, demo_reach p /\ pr_g_running p = false /\ pr_handlers p = [] /\
    pr_main p = MLoop /\ el_running (pr_loop p) = true /\ el_phase (pr_loop p) = Waiting.
Proof.
  pose (l := wakeup (el_stop demo_loop)). exists (demo_proc MLoop false true [] (el_begin l) [demo_thread]). split; [|done].
  p_go (demo_proc MLoop false true [] l [demo_thread]); [|on_main; apply ms_loop; [done|exists AOther; split; [by apply el_enter|done]]].
  apply (demo_signal OnMain true); [by left|]. apply demo_start. constructor.
Qed.

(** A second signal that interrupts a thread of the database between the test of [g_server] and
    the call, while the first one ends [run]: the call is through a null pointer. *)
Theorem late_signal_calls_null :
  exists p : Process nat nat nat, demo_reach p /\ pr_handlers p = [(OnFlush, HCall)] /\ pr_g_server p = false.
Proof.
  pose (hs := [(OnFlush, HCall)]). pose (l := wakeup (el_stop (el_begin demo_loop))). pose (lx := with_phase l Exited).
  pose (e := el_begin (@el_start nat nat)). pose (e' := wakeup (el_stop e)). pose (ex := with_phase e' Exited).
  exists (demo_proc MCleared false false hs lx [mkLT false true TDone SReturned ex]). split; [|done].
  p_go (demo_proc MReturned false true hs lx [mkLT false true TDone SReturned ex]); [|on_main; by by_rule (@ms_clear)].
  p_go (demo_proc (MStopIo 1) false true hs lx [mkLT false true TDone SReturned ex]); [|on_main; by by_rule (@ms_return)].
  p_go (demo_proc (MStopIo 0) false true hs lx [mkLT false true TDone SJoining ex]).
  2: { on_main. match goal with |- run_step _ _ _ ?p _ => apply (ms_join_io _ _ _ p 0 (mkLT false true TDone SJoining ex) (mkLT false true TDone SReturned ex)) end; try done.
       - split; [by apply lt_join; [|left]|done].
       - by repeat constructor. }
  p_go (demo_proc (MStopIo 0) false true hs lx [mkLT true true TLooping SJoining ex]); [|on_thread (mkLT true true TLooping SJoining ex) (mkLT false true TDone SJoining ex); by apply bt_end].
  p_go (demo_proc (MStopIo 0) false true hs lx [mkLT true true TLooping SJoining e']).
  2: { on_thread (mkLT true true TLooping SJoining e') (mkLT true true TLooping SJoining ex). eapply bt_own; [done| |done]. exists AOther. split; [by apply el_exit|done]. }
  p_go (demo_proc (MStopIo 0) false true hs lx [mkLT true true TLooping SWaking (el_stop e)]).
  2: { stop_io (mkLT true true TLooping SWaking (el_stop e)) (mkLT true true TLooping SJoining e') by (apply lt_stop_wake). }
  p_go (demo_proc (MStopIo 0) false true hs lx [mkLT true true TLooping SCalling e]).
  2: { stop_io (mkLT true true TLooping SCalling e) (mkLT true true TLooping SWaking (el_stop e)) by (apply lt_stop_store). }
  p_go (demo_proc (MStopIo 0) false true hs lx [demo_thread]).
  2: { stop_io demo_thread (mkLT true true TLooping SCalling e) by (apply (lt_call_stop 3 demo_thread)). }
  p_go (demo_proc MLoop false true hs lx [demo_thread]); [|on_main; by by_rule (@ms_exit)].
  p_go (demo_proc MLoop false true hs l [demo_thread]); [|on_main; apply ms_loop; [done|exists AOther; split; [by apply el_exit|done]]].
  apply (demo_signal OnFlush false l); [by right|]. apply (demo_signal OnMain true); [by left|]. apply demo_looping. constructor.
Qed.
