(* ===== verification/LoadBalance.v ===== *)
(** * Upstreams and load balancers of the gateway

    [proxy/upstream], [proxy/load_balancer] and [proxy/health_check] of skynet.  Upstreams are
    shared objects: the manager, the rings of the hashing balancer and running requests hold
    pointers to them.  They live in a heap that only grows (a [shared_ptr] keeps its object
    alive); a pointer is an index into it.  [int]s are integers; [wrr_period] bounds the ones
    that grow. *)

From Stdlib Require Import ZArith Lia.
From stdpp Require Import base numbers strings list.
From S2P Require Import Prelude CppString.
Local Open Scope Z_scope.

Record Upstream := mkUp {
  up_host : bytes;
  up_port : Z;
  up_weight : Z;
  up_active : Z;       (* active_connections *)
  up_healthy : bool;
}.

Notation heap := (list Upstream).

(** ** [UpstreamManager] *)

Record UpstreamManager := mkUM { um_upstreams : list nat; um_current : Z }.

Definition UpstreamManager_new : UpstreamManager := mkUM [] 0.

(** Fresh copies of the given upstreams replace the vector. *)
Definition reload (h : heap) (m : UpstreamManager) (us : list Upstream) : heap * UpstreamManager :=
  (h ++ us, mkUM (seq (length h) (length us)) 0).

Definition is_healthy (h : heap) (p : nat) : bool := match h !! p with Some u => up_healthy u | None => false end.

(** The loop both [UpstreamManager::next] and [RoundRobinLB::select] run: from index
    [(cur + i) % n] on, the first healthy upstream and the cursor after it. *)
Fixpoint rr_loop (fuel : nat) (h : heap) (l : list nat) (cur i : Z) : option (nat * Z) :=
  match fuel with
  | O => None
  | S fuel =>
      let idx := u64 (cur + i) mod zlen l in
      match l !! Z.to_nat idx with
      | Some p => if is_healthy h p then Some (p, (idx + 1) mod zlen l) else rr_loop fuel h l cur (i + 1)
      | None => None
      end
  end.

Definition um_next (h : heap) (m : UpstreamManager) : option nat * UpstreamManager :=
  match rr_loop (length (um_upstreams m)) h (um_upstreams m) (um_current m) 0 with
  | Some (p, cur) => (Some p, mkUM (um_upstreams m) cur)
  | None => (None, m)
  end.

Definition set_healthy (b : bool) (u : Upstream) : Upstream := mkUp (up_host u) (up_port u) (up_weight u) (up_active u) b.

Definition is_at (host : bytes) (port : Z) (u : Upstream) : bool := bool_decide (up_host u = host) && (up_port u =? port).

(** [markUp] and [markDown]: every upstream of the vector with that address. *)
Definition mark (b : bool) (h : heap) (m : UpstreamManager) (host : bytes) (port : Z) : heap :=
  foldl (fun h p => alter (fun u => if is_at host port u then set_healthy b u else u) p h) h (um_upstreams m).
Definition markDown := mark false.
Definition markUp := mark true.

(** ** The balancers *)

(** [RoundRobinLB]: its state is [idx_]. *)
Definition rr_select (h : heap) (m : UpstreamManager) (idx : Z) : option nat * Z :=
  match um_upstreams m with
  | [] => (None, idx)
  | l => match rr_loop (length l) h l idx 0 with Some (p, idx') => (Some p, idx') | None => (None, idx) end
  end.

(** [std::vector::resize(n, 0)] *)
Definition resize (n : nat) (l : list Z) : list Z := take n l ++ replicate (n - length l) 0.

(** The constructor of [WeightedRoundRobinLB]. *)
Definition wrr_new (m : UpstreamManager) : list Z := resize (length (um_upstreams m)) [].

(** One round of the loop of [WeightedRoundRobinLB::select]: the current weights so far, the
    total, the best index and the best weight.  The sums are those of the [int]s as long as
    they fit, that is while the number of upstreams times the total weight does ([wrr_period]
    bounds the current weights); signed overflow would be undefined. *)
Record wrr_acc := mkWA { wa_cw : list Z; wa_total : Z; wa_best : Z; wa_bestWeight : Z }.

Definition wrr_visit (h : heap) (a : wrr_acc) (ip : nat * nat) : wrr_acc :=
  let (i, p) := ip in
  match h !! p with
  | Some u =>
      if up_healthy u then
        let c := (wa_cw a !!! i) + up_weight u in
        let cw := <[i := c]> (wa_cw a) in
        if c >? wa_bestWeight a then mkWA cw (wa_total a + up_weight u) (Z.of_nat i) c
        else mkWA cw (wa_total a + up_weight u) (wa_best a) (wa_bestWeight a)
      else a
  | None => a
  end.

Definition wrr_select (h : heap) (m : UpstreamManager) (cw : list Z) : option nat * list Z :=
  match um_upstreams m with
  | [] => (None, cw)
  | l =>
      let cw := if (length cw =? length l)%nat then cw else resize (length l) cw in
      let a := foldl (wrr_visit h) (mkWA cw 0 (-1) (-1)) (zip (seq 0 (length l)) l) in
      if wa_best a <? 0 then (None, wa_cw a)
      else (l !! Z.to_nat (wa_best a), alter (fun c => c - wa_total a) (Z.to_nat (wa_best a)) (wa_cw a))
  end.

Definition INT32_MAX : Z := 2 ^ 31 - 1.

Definition least_visit (h : heap) (a : option nat * Z) (p : nat) : option nat * Z :=
  match h !! p with
  | Some u => if negb (up_healthy u) then a else if up_active u <? a.2 then (Some p, up_active u) else a
  | None => a
  end.

Definition least_select (h : heap) (m : UpstreamManager) : option nat :=
  (foldl (least_visit h) (None, INT32_MAX) (um_upstreams m)).1.

(** [ConsistentHashLB].  [std::hash] is the platform's; [std::sort] gives some sorted order. *)
Section Ring.
Context (hash : bytes -> Z).

Definition u32_hash (key : bytes) : Z := u32 (hash key).

Definition vnode_key (u : Upstream) (i : nat) : bytes :=
  up_host u ++ bs ":" ++ to_string (up_port u) ++ bs ":" ++ to_string (Z.of_nat i).

Definition ring_points (h : heap) (p : nat) : list (Z * nat) :=
  match h !! p with
  | Some u => (fun i => (u32_hash (vnode_key u i), p)) <$> seq 0 160
  | None => []
  end.

(** The points of all upstreams before they are sorted. *)
Definition ring_unsorted (h : heap) (m : UpstreamManager) : list (Z * nat) := um_upstreams m ≫= ring_points h.

Definition buildRing (h : heap) (m : UpstreamManager) : list (Z * nat) :=
  sort_by (fun a b => a.1 <? b.1) (ring_unsorted h m).

(** The first point at or after [v], or the first of all. *)
Definition ring_at (ring : list (Z * nat)) (v : Z) : option nat :=
  match ring !! lower_bound (fun e => e.1 <? v) ring with
  | Some e => Some e.2
  | None => snd <$> head ring
  end.

Definition ch_select (ring : list (Z * nat)) : option nat := ring_at ring (u32_hash (bs "default")).
End Ring.

(** ** [HealthCheck] *)

(** One round over the vector; [probe] says whether the connection attempt succeeded. *)
Definition health_round (probe : nat -> bool) (h : heap) (m : UpstreamManager) : heap :=
  foldl (fun h p => match h !! p with
                    | Some u => mark (probe p) h m (up_host u) (up_port u)
                    | None => h
                    end) h (um_upstreams m).
