(* ===== verification/BalanceProofs.v ===== *)
(** * The load balancers are fair

    Round robin visits the healthy upstreams cyclically; smooth weighted round robin gives
    each upstream exactly its weight in every period; least connections picks a minimum; the
    hash ring moves only the keys of a removed upstream. *)

From Stdlib Require Import ZArith Lia Sorted.
From stdpp Require Import base numbers strings list.
From S2P Require Import Prelude CppString LoadBalance.
Local Open Scope Z_scope.

(** [k] selections in a row: the results and the state after them. *)
Fixpoint picks {St} (select : St -> option nat * St) (k : nat) (st : St) : list (option nat) * St :=
  match k with
  | O => ([], st)
  | S k => let (r, st1) := select st in let (rs, st2) := picks select k st1 in (r :: rs, st2)
  end.

Lemma picks_app {St} (select : St -> option nat * St) a b st :
  picks select (a + b) st =
  ((picks select a st).1 ++ (picks select b (picks select a st).2).1, (picks select b (picks select a st).2).2).
Proof.
  revert st. induction a as [|a IH]; intros st; simpl; [by destruct (picks select b st)|].
  destruct (select st) as [r st1]. rewrite IH. by destruct (picks select a st1).
Qed.

(** ** Round robin *)

(** The order in which the loop looks at the upstreams. *)
Definition from_cursor (l : list nat) (cur : Z) : list nat := drop (Z.to_nat cur) l ++ take (Z.to_nat cur) l.
Definition up_list (h : heap) (l : list nat) (cur : Z) : list nat := filter (fun p => is_healthy h p = true) (from_cursor l cur).

Lemma from_cursor_lookup l cur i :
  0 <= cur < zlen l -> 0 <= i < zlen l -> from_cursor l cur !! Z.to_nat i = l !! Z.to_nat ((cur + i) mod zlen l).
Proof.
  unfold zlen. intros Hc Hi. unfold from_cursor.
  destruct (decide (cur + i < Z.of_nat (length l))) as [Hlt|Hge].
  - rewrite Z.mod_small by lia. rewrite lookup_app_l by (rewrite length_drop; lia).
    rewrite lookup_drop. f_equal. lia.
  - rewrite lookup_app_r by (rewrite length_drop; lia). rewrite length_drop.
    replace ((cur + i) mod Z.of_nat (length l)) with (cur + i - Z.of_nat (length l)).
    2: { rewrite <- (Z.mod_add (cur + i) (-1)) by lia. rewrite Z.mod_small; lia. }
    rewrite lookup_take_lt by lia. f_equal. lia.
Qed.

Lemma length_from_cursor l cur : length (from_cursor l cur) = length l.
Proof. unfold from_cursor. rewrite length_app, length_drop, length_take. lia. Qed.

(** The cursor after the pick starts with what follows the pick. *)
Lemma from_cursor_after l cur pre p post :
  0 <= cur < zlen l -> from_cursor l cur = pre ++ p :: post ->
  from_cursor l ((cur + zlen pre + 1) mod zlen l) = post ++ pre ++ [p].
Proof.
  intros Hc E. assert (zlen l = zlen pre + zlen post + 1) as Hl.
  { unfold zlen. rewrite <- (length_from_cursor l cur), E, length_app. simpl. lia. }
  pose proof (zlen_nonneg pre). pose proof (zlen_nonneg post).
  set (cur' := (cur + zlen pre + 1) mod zlen l). assert (0 <= cur' < zlen l) as Hc' by (apply Z.mod_pos_bound; lia).
  apply list_eq. intros i. destruct (decide (i < length l)%nat) as [Hi|Hi].
  2: { rewrite !lookup_ge_None_2; [done| |]; [rewrite !length_app|rewrite length_from_cursor]; simpl; unfold zlen in *; lia. }
  rewrite <- (Nat2Z.id i) at 1. rewrite from_cursor_lookup by (unfold zlen in *; lia).
  replace ((cur' + Z.of_nat i) mod zlen l) with ((cur + ((zlen pre + 1 + Z.of_nat i) mod zlen l)) mod zlen l).
  2: { subst cur'. rewrite Zplus_mod_idemp_l, Zplus_mod_idemp_r. f_equal. lia. }
  rewrite <- from_cursor_lookup by (try apply Z.mod_pos_bound; lia). rewrite E.
  destruct (decide (Z.of_nat i < zlen post)) as [Hp|Hp].
  - rewrite Z.mod_small by lia. rewrite (lookup_app_l post) by (unfold zlen in *; lia).
    rewrite lookup_app_r by (unfold zlen in *; lia).
    replace (Z.to_nat (zlen pre + 1 + Z.of_nat i) - length pre)%nat with (S i) by (unfold zlen in *; lia). done.
  - replace ((zlen pre + 1 + Z.of_nat i) mod zlen l) with (Z.of_nat i - zlen post).
    2: { rewrite <- (Z.mod_add (zlen pre + 1 + Z.of_nat i) (-1)) by lia. rewrite Z.mod_small; unfold zlen in *; lia. }
    rewrite (lookup_app_r post) by (unfold zlen in *; lia). replace (pre ++ p :: post) with ((pre ++ [p]) ++ post) by (by rewrite <- app_assoc).
    rewrite lookup_app_l by (rewrite length_app; simpl; unfold zlen in *; lia). f_equal. unfold zlen. lia.
Qed.

Lemma rr_loop_spec h l cur fuel i pre p post :
  0 <= cur < zlen l -> zlen l <= 2 ^ 63 -> drop i (from_cursor l cur) = pre ++ p :: post ->
  Forall (fun q => is_healthy h q = false) pre -> is_healthy h p = true -> (length pre < fuel)%nat ->
  rr_loop fuel h l cur (Z.of_nat i) = Some (p, ((cur + Z.of_nat i + zlen pre + 1) mod zlen l)).
Proof.
  intros Hc Hb. revert i pre. induction fuel as [|fuel IH]; intros i pre Hd Hpre Hp Hf; [lia|]. cbn [rr_loop].
  assert (i < length l)%nat as Hi.
  { rewrite <- (length_from_cursor l cur). apply (f_equal length) in Hd. rewrite length_drop, length_app in Hd. simpl in Hd. lia. }
  rewrite u64_small by (unfold zlen in *; lia). rewrite <- from_cursor_lookup by (unfold zlen in *; lia). rewrite Nat2Z.id.
  assert (from_cursor l cur !! i = (pre ++ p :: post) !! 0%nat) as Hl by (by rewrite <- Hd, lookup_drop, Nat.add_0_r).
  rewrite Hl. destruct pre as [|q pre].
  - simpl. rewrite Hp. rewrite zlen_nil, Z.add_0_r, Zplus_mod_idemp_l. done.
  - simpl. apply Forall_cons in Hpre as [Hq Hpre]. rewrite Hq.
    replace (Z.of_nat i + 1) with (Z.of_nat (S i)) by lia. rewrite (IH (S i) pre); [|..|done|done|simpl in Hf; lia].
    + rewrite zlen_cons. do 2 f_equal. f_equal. lia.
    + replace (S i) with (i + 1)%nat by lia. rewrite <- drop_drop, Hd. done.
Qed.

Lemma rr_loop_none h l cur fuel i :
  0 <= cur < zlen l -> zlen l <= 2 ^ 63 -> Forall (fun q => is_healthy h q = false) (drop i (from_cursor l cur)) ->
  (i + fuel <= length l)%nat -> rr_loop fuel h l cur (Z.of_nat i) = None.
Proof.
  intros Hc Hb. revert i. induction fuel as [|fuel IH]; intros i Hd Hf; [done|]. cbn [rr_loop].
  rewrite u64_small by (unfold zlen in *; lia). rewrite <- from_cursor_lookup by (unfold zlen in *; lia). rewrite Nat2Z.id.
  destruct (drop i (from_cursor l cur)) as [|q r] eqn:E.
  { apply (f_equal length) in E. rewrite length_drop, length_from_cursor in E. simpl in E. lia. }
  assert (from_cursor l cur !! i = Some q) as -> by (rewrite <- (Nat.add_0_r i), <- lookup_drop, E; done).
  apply Forall_cons in Hd as [-> Hr]. replace (Z.of_nat i + 1) with (Z.of_nat (S i)) by lia. apply IH; [|lia].
  replace (S i) with (i + 1)%nat by lia. by rewrite <- drop_drop, E.
Qed.

Lemma filter_first {A} (P : A -> Prop) `{forall x, Decision (P x)} l x r :
  filter P l = x :: r -> exists pre post, l = pre ++ x :: post /\ Forall (fun y => ~ P y) pre /\ P x /\ filter P post = r.
Proof.
  induction l as [|y l IH]; [done|]. rewrite filter_cons. case_decide as Hy.
  - intros [= -> Hr]. by exists [], l.
  - intros E. destruct (IH E) as (pre & post & -> & Hpre & Hx & Hr). exists (y :: pre), post. split_and!; auto.
Qed.

Lemma filter_empty {A} (P : A -> Prop) `{forall x, Decision (P x)} l : Forall (fun y => ~ P y) l -> filter P l = [].
Proof. rewrite Forall_forall. apply filter_none. Qed.

(** One selection takes the first healthy upstream and moves it to the end. *)
Lemma rr_select_step h m cur p r :
  0 <= cur < zlen (um_upstreams m) -> zlen (um_upstreams m) <= 2 ^ 63 -> up_list h (um_upstreams m) cur = p :: r ->
  exists cur', rr_select h m cur = (Some p, cur') /\ 0 <= cur' < zlen (um_upstreams m) /\
               up_list h (um_upstreams m) cur' = r ++ [p].
Proof.
  intros Hc Hb Hl. set (l := um_upstreams m) in *. destruct (filter_first _ _ _ _ Hl) as (pre & post & E & Hpre & Hp & Hr).
  assert (Forall (fun q => is_healthy h q = false) pre) as Hpre'.
  { eapply Forall_impl; [exact Hpre|]. intros q Hq. by apply not_true_is_false. }
  exists ((cur + zlen pre + 1) mod zlen l). split; [|split].
  - unfold rr_select. fold l. pose proof (rr_loop_spec h l cur (length l) 0 pre p post Hc Hb E Hpre' Hp) as Hs.
    change (Z.of_nat 0) with 0 in Hs. rewrite Z.add_0_r in Hs.
    assert (length pre < length l)%nat as Hlen by (rewrite <- (length_from_cursor l cur), E, length_app; simpl; lia).
    specialize (Hs Hlen). destruct l as [|x l0]; [simpl in Hlen; lia|]. by rewrite Hs.
  - apply Z.mod_pos_bound. lia.
  - unfold up_list. rewrite (from_cursor_after l cur pre p post Hc E). rewrite !filter_app, Hr.
    rewrite (filter_empty _ pre Hpre), filter_cons_True by done. done.
Qed.

Lemma rr_select_none h m cur :
  0 <= cur < zlen (um_upstreams m) -> zlen (um_upstreams m) <= 2 ^ 63 -> up_list h (um_upstreams m) cur = [] ->
  rr_select h m cur = (None, cur).
Proof.
  intros Hc Hb Hl. unfold rr_select. set (l := um_upstreams m) in *.
  assert (rr_loop (length l) h l cur 0 = None) as Hn.
  { apply (rr_loop_none h l cur (length l) 0); [done|done| |lia]. rewrite drop_0. apply Forall_forall. intros q Hq.
    destruct (is_healthy h q) eqn:E; [|done]. assert (q ∈ up_list h l cur) as Hin by (by apply list_elem_of_filter).
    rewrite Hl in Hin. by inversion Hin. }
  destruct l; [done|]. by rewrite Hn.
Qed.

Lemma rr_picks h m k cur F :
  0 <= cur < zlen (um_upstreams m) -> zlen (um_upstreams m) <= 2 ^ 63 -> up_list h (um_upstreams m) cur = F -> (k <= length F)%nat ->
  exists cur', picks (rr_select h m) k cur = (Some <$> take k F, cur') /\ 0 <= cur' < zlen (um_upstreams m) /\
               up_list h (um_upstreams m) cur' = drop k F ++ take k F.
Proof.
  intros Hc Hb. revert cur F Hc. induction k as [|k IH]; intros cur F Hc Hl Hk.
  { exists cur. rewrite app_nil_r. by rewrite drop_0. }
  destruct F as [|p r]; [simpl in Hk; lia|]. destruct (rr_select_step h m cur p r Hc Hb Hl) as (cur1 & Hs & Hc1 & Hl1).
  simpl in Hk. destruct (IH cur1 (r ++ [p]) Hc1 Hl1) as (cur2 & Hp & Hc2 & Hl2); [rewrite length_app; simpl; lia|].
  exists cur2. cbn [picks]. rewrite Hs, Hp. rewrite take_app_le, drop_app_le in * by lia. split; [done|]. split; [done|].
  rewrite Hl2. simpl. by rewrite <- app_assoc.
Qed.

(** Round robin is fair.  While health does not change, as many selections as there are
    healthy upstreams return each of them exactly once, in the order of the vector from the
    cursor on, and leave a cursor from which the same happens again; with no healthy
    upstream every selection returns nothing. *)
Theorem round_robin_fair (h : heap) (m : UpstreamManager) (cur : Z) :
  0 <= cur < zlen (um_upstreams m) -> zlen (um_upstreams m) <= 2 ^ 63 ->
  let healthy := up_list h (um_upstreams m) cur in
  (exists cur', picks (rr_select h m) (length healthy) cur = (Some <$> healthy, cur') /\
                up_list h (um_upstreams m) cur' = healthy) /\
  (healthy = [] -> rr_select h m cur = (None, cur)).
Proof.
  intros Hc Hb healthy. split; [|by apply rr_select_none].
  destruct (rr_picks h m (length healthy) cur healthy Hc Hb eq_refl ltac:(lia)) as (cur' & Hp & _ & Hl).
  rewrite firstn_all in Hp. rewrite firstn_all, drop_all in Hl. by exists cur'.
Qed.

Definition demo_heap : heap :=
  [mkUp (bs "a") 80 5 0 true; mkUp (bs "b") 80 1 0 false; mkUp (bs "c") 80 1 0 true; mkUp (bs "d") 80 2 0 true].
Definition demo_manager : UpstreamManager := mkUM [0; 1; 2; 3]%nat 0.

Lemma round_robin_fair_witness :
  exists cur', picks (rr_select demo_heap demo_manager) 3 1 = ([Some 2; Some 3; Some 0]%nat, cur').
Proof.
  destruct (round_robin_fair demo_heap demo_manager 1 ltac:(vm_compute; split; [discriminate|reflexivity]) ltac:(vm_compute; discriminate))
    as [(cur' & Hp & _) _].
  exists cur'. exact Hp.
Defined.

(** ** Smooth weighted round robin *)

Fixpoint zsum (f : nat -> Z) (n : nat) : Z := match n with O => 0 | S n => zsum f n + f n end.

Lemma zsum_ext f g n : (forall i, (i < n)%nat -> f i = g i) -> zsum f n = zsum g n.
Proof. induction n as [|n IH]; intros H; [done|]. simpl. rewrite IH by (intros; apply H; lia). by rewrite H by lia. Qed.

Lemma zsum_lin a b f g n : zsum (fun i => a * f i + b * g i) n = a * zsum f n + b * zsum g n.
Proof. induction n as [|n IH]; simpl; [lia|]. rewrite IH. lia. Qed.

Lemma zsum_le f g n : (forall i, (i < n)%nat -> f i <= g i) -> zsum f n <= zsum g n.
Proof. induction n as [|n IH]; intros H; simpl; [lia|]. pose proof (H n). pose proof (IH ltac:(intros; apply H; lia)). lia. Qed.

Lemma zsum_eq f g n : (forall i, (i < n)%nat -> f i <= g i) -> zsum f n = zsum g n -> forall i, (i < n)%nat -> f i = g i.
Proof.
  induction n as [|n IH]; intros H E i Hi; [lia|]. simpl in E. pose proof (H n ltac:(lia)).
  pose proof (zsum_le f g n ltac:(intros; apply H; lia)). destruct (decide (i = n)) as [->|Hne]; [lia|].
  apply IH; [intros; apply H; lia|lia|lia].
Qed.

Lemma zsum_upd f g n j : (j < n)%nat -> (forall i, (i < n)%nat -> i <> j -> g i = f i) -> zsum g n = zsum f n + (g j - f j).
Proof.
  intros Hj H. induction n as [|n IH]; [lia|]. simpl. destruct (decide (j = n)) as [->|Hne].
  - rewrite (zsum_ext g f n) by (intros; apply H; lia). lia.
  - rewrite IH, (H n) by (intros; (lia || (apply H; lia))). lia.
Qed.

Lemma zsum_pos f n : 0 < zsum f n -> exists i, (i < n)%nat /\ 0 < f i.
Proof.
  induction n as [|n IH]; simpl; intros H; [lia|]. destruct (decide (0 < f n)) as [|Hn]; [by exists n; split; [lia|]|].
  destruct IH as (i & Hi & Hf); [lia|]. exists i. split; [lia|done].
Qed.

Lemma zsum_single f n i W : 0 <= W -> (i < n)%nat -> (forall j, (j < n)%nat -> - W <= f j) -> f i - Z.of_nat n * W <= zsum f n.
Proof.
  intros HW Hi H. pose proof (zsum_le (fun j => (if decide (j = i) then f i + W else 0) - W) f n) as Hle.
  rewrite (zsum_upd (fun _ => - W) _ n i) in Hle; [|done|by intros j _ ?; rewrite decide_False].
  rewrite decide_True in Hle by done. assert (zsum (fun _ => - W) n = - (Z.of_nat n * W)) as Hc.
  { clear. induction n as [|n IH]; [done|]. cbn [zsum]. rewrite IH. lia. }
  rewrite Hc in Hle. enough (f i + W - W - - W + - (Z.of_nat n * W) <= zsum f n) by lia. etransitivity; [|apply Hle]; [lia|].
  intros j Hj. destruct (decide (j = i)) as [->|]; [lia|]. pose proof (H j Hj). lia.
Qed.

(** The weight an upstream counts with: none while it is down. *)
Definition eff (h : heap) (p : nat) : Z := match h !! p with Some u => if up_healthy u then up_weight u else 0 | None => 0 end.

Lemma wrr_visit_cases h a i p c :
  wa_cw a !! i = Some c ->
  let c' := c + eff h p in
  wa_cw (wrr_visit h a (i, p)) = <[i := c']> (wa_cw a) /\
  wa_total (wrr_visit h a (i, p)) = wa_total a + eff h p /\
  (if is_healthy h p && (c' >? wa_bestWeight a)
   then wa_best (wrr_visit h a (i, p)) = Z.of_nat i /\ wa_bestWeight (wrr_visit h a (i, p)) = c'
   else wa_best (wrr_visit h a (i, p)) = wa_best a /\ wa_bestWeight (wrr_visit h a (i, p)) = wa_bestWeight a).
Proof.
  intros Hc c'. subst c'. unfold wrr_visit, eff, is_healthy. rewrite (list_lookup_total_correct _ _ _ Hc).
  destruct (h !! p) as [u|]; [destruct (up_healthy u)|]; simpl;
    rewrite ?Z.add_0_r, ?(list_insert_id _ _ _ Hc); try done.
  destruct (_ >? _); done.
Qed.

(** The loop from index [k] on, over the remaining upstreams. *)
Lemma wrr_fold h l : forall k a done todo,
  wa_cw a = done ++ todo -> length done = k -> length todo = length l ->
  let r := foldl (wrr_visit h) a (zip (seq k (length l)) l) in
  let new := zip_with (fun c p => c + eff h p) todo l in
  wa_cw r = done ++ new /\ wa_total r = wa_total a + zsum (fun i => eff h (l !!! i)) (length l) /\
  (forall i p c, l !! i = Some p -> is_healthy h p = true -> new !! i = Some c -> c <= wa_bestWeight r) /\
  wa_bestWeight a <= wa_bestWeight r /\
  ((wa_best r = wa_best a /\ wa_bestWeight r = wa_bestWeight a) \/
   exists i p, l !! i = Some p /\ is_healthy h p = true /\ new !! i = Some (wa_bestWeight r) /\ wa_best r = Z.of_nat (k + i) /\
               wa_bestWeight a < wa_bestWeight r).
Proof.
  induction l as [|p l IH]; intros k a dn todo Hcw Hk Hlen; destruct todo as [|c todo]; try discriminate; cbv zeta.
  { simpl. rewrite Hcw. split_and!; [done|lia|done|lia|by left]. }
  cbn [length seq zip zip_with foldl]. set (a1 := wrr_visit h a (k, p)).
  assert (wa_cw a !! k = Some c) as Hc by (rewrite Hcw, lookup_app_r, Hk, Nat.sub_diag by lia; done).
  destruct (wrr_visit_cases h a k p c Hc) as (Ha1 & Ha2 & Ha3). fold a1 in Ha1, Ha2, Ha3.
  assert (wa_cw a1 = (dn ++ [c + eff h p]) ++ todo) as Hcw1.
  { rewrite Ha1, Hcw, insert_app_r_alt by lia. rewrite Hk, Nat.sub_diag. by rewrite <- app_assoc. }
  destruct (IH (S k) a1 (dn ++ [c + eff h p]) todo Hcw1 ltac:(rewrite length_app; simpl; lia) ltac:(simpl in Hlen; lia))
    as (R1 & R2 & R3 & R4 & R5). set (r := foldl _ a1 _) in *. set (new := zip_with _ todo l) in *.
  assert (wa_bestWeight a <= wa_bestWeight a1 /\ (is_healthy h p = true -> c + eff h p <= wa_bestWeight a1)) as [Hmono Hp].
  { destruct (is_healthy h p); [|by simpl in Ha3; destruct Ha3 as [_ ->]]. simpl in Ha3.
    destruct (Z.gtb_spec (c + eff h p) (wa_bestWeight a)); destruct Ha3 as [_ ->]; lia. }
  split_and!.
  - rewrite R1, <- app_assoc. done.
  - rewrite R2, Ha2. change (S (length l)) with (1 + length l)%nat. clear.
    assert (forall n, zsum (fun i => eff h ((p :: l) !!! i)) (S n) = eff h p + zsum (fun i => eff h (l !!! i)) n) as E.
    { induction n as [|n IHn]; [simpl; lia|]. cbn [zsum] in *. rewrite IHn. simpl. lia. }
    rewrite E. lia.
  - intros [|i] q d Hq Hh Hd; [|by apply (R3 i q)]. injection Hq as <-. injection Hd as <-. specialize (Hp Hh). lia.
  - lia.
  - destruct R5 as [[B1 B2]|(i & q & Hq & Hh & Hn & Hb & Hlt)].
    + destruct (is_healthy h p) eqn:Eh; simpl in Ha3; [|left; split; [by rewrite B1; apply Ha3|by rewrite B2; apply Ha3]].
      destruct (Z.gtb_spec (c + eff h p) (wa_bestWeight a)) as [Hgt|Hle]; destruct Ha3 as [A1 A2].
      * right. exists 0%nat, p. rewrite B1, B2, A1, A2, Nat.add_0_r. split_and!; [done|done|done|done|lia].
      * left. split; [by rewrite B1|by rewrite B2].
    + right. exists (S i), q. rewrite Hb. split_and!; [done|done|done|f_equal; lia|lia].
Qed.

Lemma alter_at {A} (f : A -> A) (i : nat) (l : list A) x : l !! i = Some x -> alter f i l = <[i := f x]> l.
Proof. intros Hl. apply list_eq. intros j. destruct (decide (i = j)) as [<-|Hne].
  - rewrite list_lookup_alter_eq, Hl, list_lookup_insert_eq; [done|]. by eapply lookup_lt_Some.
  - by rewrite list_lookup_alter_ne, list_lookup_insert_ne.
Qed.

Lemma wrr_select_unfold h m cw :
  um_upstreams m <> [] -> length cw = length (um_upstreams m) ->
  let r := foldl (wrr_visit h) (mkWA cw 0 (-1) (-1)) (zip (seq 0 (length (um_upstreams m))) (um_upstreams m)) in
  wrr_select h m cw = if wa_best r <? 0 then (None, wa_cw r)
    else (um_upstreams m !! Z.to_nat (wa_best r), alter (fun c => c - wa_total r) (Z.to_nat (wa_best r)) (wa_cw r)).
Proof. unfold wrr_select. destruct (um_upstreams m); [done|]. intros _ ->. by rewrite Nat.eqb_refl. Qed.

(** One selection: an upstream with the largest raised weight, the first of them, pays the
    total; nothing only if every raised weight of a healthy upstream is negative. *)
Lemma wrr_select_spec h m cw :
  um_upstreams m <> [] -> length cw = length (um_upstreams m) ->
  let l := um_upstreams m in
  let new := zip_with (fun c p => c + eff h p) cw l in
  (exists j p b, l !! j = Some p /\ is_healthy h p = true /\ new !! j = Some b /\ 0 <= b /\
     (forall i q c, l !! i = Some q -> is_healthy h q = true -> new !! i = Some c -> c <= b) /\
     wrr_select h m cw = (Some p, <[j := b - zsum (fun i => eff h (l !!! i)) (length l)]> new)) \/
  ((forall i q c, l !! i = Some q -> is_healthy h q = true -> new !! i = Some c -> c < 0) /\ wrr_select h m cw = (None, new)).
Proof.
  intros Hne Hlen l new.
  destruct (wrr_fold h l 0 (mkWA cw 0 (-1) (-1)) [] cw eq_refl eq_refl Hlen) as (R1 & R2 & R3 & R4 & R5).
  set (r := foldl _ _ _) in *. fold new in R1, R3, R5.
  pose proof (wrr_select_unfold h m cw Hne Hlen) as Hs. cbv zeta in Hs. fold l r in Hs.
  rewrite Hs. simpl in R1, R2. destruct R5 as [[B1 B2]|(j & p & Hp & Hh & Hb & Hbest & Hlt)]; simpl in *.
  - right. rewrite B1, R1. split; [|done]. intros i q c Hq Hq' Hc. pose proof (R3 i q c Hq Hq' Hc). lia.
  - left. exists j, p, (wa_bestWeight r). rewrite Hbest, Nat2Z.id, R1, R2. destruct (Z.ltb_spec (Z.of_nat j) 0); [lia|].
    split_and!; [done|done|done|lia|done|]. rewrite Hp. f_equal.
    by rewrite (alter_at _ j new _ Hb).
Qed.

Section Period.
Context (h : heap) (m : UpstreamManager).
Notation l := (um_upstreams m).
Notation w i := (eff h (l !!! i)).
Definition total : Z := zsum (fun i => w i) (length l).
Context (Hnd : NoDup l) (Hpos : 0 < total) (Hw : forall i, (i < length l)%nat -> 0 <= w i).

(** How often the upstream at index [i] was selected. *)
Definition times (rs : list (option nat)) (i : nat) : Z := zlen (filter (fun r => r = l !! i) rs).

Lemma times_snoc rs r i : times (rs ++ [r]) i = times rs i + (if decide (r = l !! i) then 1 else 0).
Proof.
  unfold times. rewrite filter_app, zlen_app. f_equal. rewrite filter_cons. destruct (decide _); done.
Qed.

(** What holds after [t] selections from current weights of zero. *)
Record wrr_inv (t : nat) (rs : list (option nat)) (cw : list Z) : Prop := {
  wi_len : length cw = length l;
  wi_cw : forall i c, cw !! i = Some c -> c = Z.of_nat t * w i - total * times rs i;
  wi_low : forall i c, cw !! i = Some c -> - total < c;
  wi_sum : zsum (times rs) (length l) = Z.of_nat t;
  wi_down : forall i p, l !! i = Some p -> is_healthy h p = false -> times rs i = 0;
}.

Lemma weight_down i p : l !! i = Some p -> is_healthy h p = false -> w i = 0.
Proof.
  intros Hi Hh. rewrite (list_lookup_total_correct _ _ _ Hi). unfold is_healthy in Hh. unfold eff.
  destruct (h !! p) as [u|]; [|done]. by rewrite Hh.
Qed.

(** Some healthy upstream has a positive raised weight. *)
Lemma wrr_some_positive t rs cw :
  wrr_inv t rs cw -> exists i p c, l !! i = Some p /\ is_healthy h p = true /\ cw !! i = Some c /\ 0 < c + w i.
Proof.
  intros [Hlen Hcw Hlow Hsum Hdown].
  assert (0 < zsum (fun i => (Z.of_nat t + 1) * w i + (- total) * times rs i) (length l)) as Hz.
  { rewrite zsum_lin, Hsum. fold total. lia. }
  apply zsum_pos in Hz as (i & Hi & Hz). destruct (lookup_lt_is_Some_2 l i Hi) as [p Hp].
  destruct (lookup_lt_is_Some_2 cw i ltac:(lia)) as [c Hc]. pose proof (Hcw i c Hc) as E. exists i, p, c. split_and!; [done| |done|lia].
  destruct (is_healthy h p) eqn:Eh; [done|]. exfalso. pose proof (Hdown i p Hp Eh). pose proof (weight_down i p Hp Eh). lia.
Qed.

Lemma wrr_inv_step t rs cw : l <> [] ->
  wrr_inv t rs cw -> exists j p, l !! j = Some p /\ (wrr_select h m cw).1 = Some p /\
    wrr_inv (S t) (rs ++ [Some p]) (wrr_select h m cw).2.
Proof.
  intros Hne HI. pose proof HI as [Hlen Hcw Hlow Hsum Hdown]. pose proof (wrr_some_positive t rs cw HI) as (i0 & p0 & c0 & Hi0 & Hh0 & Hc0 & Hpos0).
  assert (forall i c d, cw !! i = Some c -> zip_with (fun c p => c + eff h p) cw l !! i = Some d -> d = c + w i) as Hnew.
  { intros i c d Hc Hd. apply lookup_zip_with_Some in Hd as (c' & p & -> & Hc' & Hp). rewrite (list_lookup_total_correct _ _ _ Hp). congruence. }
  assert (zip_with (fun c p => c + eff h p) cw l !! i0 = Some (c0 + w i0)) as Hn0.
  { apply lookup_zip_with_Some. exists c0, p0. by rewrite (list_lookup_total_correct _ _ _ Hi0). }
  destruct (wrr_select_spec h m cw Hne Hlen) as [(j & p & b & Hj & Hh & Hb & Hb0 & Hmax & ->)|[Hneg _]].
  2: { pose proof (Hneg i0 p0 _ Hi0 Hh0 Hn0). lia. }
  exists j, p. split; [done|]. split; [done|]. cbn [fst snd]. fold total.
  pose proof (Hmax i0 p0 _ Hi0 Hh0 Hn0) as Hb1. apply lookup_lt_Some in Hj as Hjl.
  destruct (lookup_lt_is_Some_2 cw j ltac:(lia)) as [cj Hcj]. pose proof (Hnew j cj b Hcj Hb) as Eb.
  assert (forall i, (i < length l)%nat -> times (rs ++ [Some p]) i = times rs i + (if decide (i = j) then 1 else 0)) as Ht.
  { intros i Hi. rewrite times_snoc. destruct (lookup_lt_is_Some_2 l i Hi) as [q Hq]. f_equal. rewrite Hq.
    destruct (decide (i = j)) as [->|Hij]; [rewrite decide_True by congruence; done|]. rewrite decide_False; [done|].
    intros [= ->]. apply Hij. by eapply NoDup_lookup. }
  split.
  - rewrite length_insert, length_zip_with. lia.
  - intros i c Hc. assert (i < length l)%nat as Hi by (apply lookup_lt_Some in Hc; rewrite length_insert, length_zip_with in Hc; lia).
    rewrite Ht by done. apply list_lookup_insert_Some in Hc as [(-> & <- & _)|(Hij & Hc)].
    + rewrite decide_True by done. pose proof (Hcw _ _ Hcj). lia.
    + rewrite decide_False by done. destruct (lookup_lt_is_Some_2 cw i ltac:(lia)) as [ci Hci].
      pose proof (Hnew i ci c Hci Hc). pose proof (Hcw _ _ Hci). lia.
  - intros i c Hc. apply list_lookup_insert_Some in Hc as [(_ & <- & _)|(Hij & Hc)]; [lia|].
    apply lookup_zip_with_Some in Hc as Hc'. destruct Hc' as (ci & q & _ & Hci & Hq). pose proof (Hnew i ci c Hci Hc). pose proof (Hlow _ _ Hci).
    apply lookup_lt_Some in Hq. pose proof (Hw i Hq). lia.
  - rewrite (zsum_upd (times rs) _ _ j Hjl); [|by intros i Hi Hij; rewrite Ht, decide_False by done; lia].
    rewrite Ht, decide_True by done. lia.
  - intros i q Hq Hqh. rewrite Ht by (by eapply lookup_lt_Some). rewrite (Hdown i q Hq Hqh).
    rewrite decide_False; [done|]. intros ->. congruence.
Qed.

Lemma wrr_inv_start : wrr_inv 0 [] (replicate (length l) 0).
Proof.
  split.
  - apply length_replicate.
  - intros i c [-> _]%lookup_replicate. change (times [] i) with 0. lia.
  - intros i c [-> _]%lookup_replicate. lia.
  - clear Hw. induction (length l) as [|n IH]; [done|]. cbn [zsum]. change (zsum (times []) n + 0 = 0). rewrite Z.add_0_r. exact IH.
  - done.
Qed.

Lemma wrr_inv_run t : l <> [] ->
  wrr_inv t (picks (wrr_select h m) t (replicate (length l) 0)).1 (picks (wrr_select h m) t (replicate (length l) 0)).2.
Proof.
  intros Hne. induction t as [|t IH]; [apply wrr_inv_start|]. rewrite <- Nat.add_1_r, picks_app.
  destruct (picks (wrr_select h m) t _) as [rs cw]. cbn [fst snd picks] in *.
  destruct (wrr_inv_step t rs cw Hne IH) as (j & p & Hj & Hs & HI). destruct (wrr_select h m cw) as [r cw']. simpl in *. subst r. by rewrite Nat.add_1_r.
Qed.

(** Between selections the current weights stay in an [int] when [n * total] does. *)
Lemma wrr_bounds t rs cw i c : wrr_inv t rs cw -> cw !! i = Some c -> - total < c <= zlen l * total.
Proof.
  intros [Hlen Hcw Hlow Hsum Hdown] Hc. split; [by eapply Hlow|].
  pose proof (zsum_single (fun i => Z.of_nat t * w i + - total * times rs i) (length l) i total ltac:(lia)) as Hz.
  rewrite zsum_lin, Hsum in Hz. fold total in Hz. apply lookup_lt_Some in Hc as Hi. rewrite (Hcw _ _ Hc). unfold zlen.
  assert (i < length l)%nat as Hil by lia. specialize (Hz Hil). cbv beta in Hz.
  enough (Z.of_nat t * w i + - total * times rs i - Z.of_nat (length l) * total <= Z.of_nat t * total + - total * Z.of_nat t) by lia.
  apply Hz. intros j Hj. destruct (lookup_lt_is_Some_2 cw j ltac:(lia)) as [d Hd].
  pose proof (Hlow _ _ Hd). rewrite (Hcw _ _ Hd) in *. lia.
Qed.
End Period.

(** C30: smooth weighted round robin keeps its promise.  Starting from zero current weights, with
    distinct upstreams, non-negative weights and a positive total [W] of the healthy ones,
    any [W] selections in a row return each healthy upstream exactly as often as its weight
    says and no upstream that is down, bring the current weights back to zero, and on the
    way no current weight leaves [(-W, n * W]]. *)
Theorem wrr_period (h : heap) (m : UpstreamManager) :
  NoDup (um_upstreams m) -> 0 < total h m ->
  (forall i, (i < length (um_upstreams m))%nat -> 0 <= eff h (um_upstreams m !!! i)) ->
  let zeros := replicate (length (um_upstreams m)) 0 in
  let run := picks (wrr_select h m) (Z.to_nat (total h m)) zeros in
  (forall i p, um_upstreams m !! i = Some p -> zlen (filter (fun r => r = Some p) run.1) = eff h p) /\
  run.2 = zeros /\
  (forall t i c, (picks (wrr_select h m) t zeros).2 !! i = Some c ->
     - total h m < c <= zlen (um_upstreams m) * total h m).
Proof.
  intros Hnd Hpos Hw zeros run. set (l := um_upstreams m) in *. assert (l <> []) as Hne.
  { intros E. unfold total in Hpos. fold l in Hpos. rewrite E in Hpos. done. }
  pose proof (wrr_inv_run h m Hnd Hpos Hw (Z.to_nat (total h m)) Hne) as HI. fold l in HI. change (replicate (length l) 0) with zeros in HI. fold run in HI.
  pose proof HI as [Hlen Hcw Hlow Hsum Hdown]. fold l in Hlen, Hcw, Hsum. rewrite Z2Nat.id in Hcw, Hsum by lia.
  assert (forall i, (i < length l)%nat -> times m run.1 i = eff h (l !!! i)) as Ht.
  { apply zsum_eq; [|by rewrite Hsum]. intros i Hi. destruct (lookup_lt_is_Some_2 run.2 i ltac:(lia)) as [c Hc].
    pose proof (Hlow i c Hc) as Hl. rewrite (Hcw i c Hc) in Hl. nia. }
  split; [|split].
  - intros i p Hp. apply lookup_lt_Some in Hp as Hi. pose proof (Ht i Hi) as E. unfold times in E. fold l in E.
    rewrite Hp in E. by rewrite (list_lookup_total_correct _ _ _ Hp) in E.
  - symmetry. apply replicate_as_Forall. split; [done|]. apply Forall_lookup. intros i c Hc.
    rewrite (Hcw i c Hc), Ht; [lia|]. apply lookup_lt_Some in Hc. lia.
  - intros t i c Hc. eapply (wrr_bounds h m); [exact Hpos|apply (wrr_inv_run h m Hnd Hpos Hw t Hne)|exact Hc].
Qed.

Lemma wrr_period_witness :
  (picks (wrr_select demo_heap demo_manager) 8 [0; 0; 0; 0]).1 =
    [Some 0; Some 3; Some 0; Some 0; Some 2; Some 0; Some 3; Some 0]%nat /\
  zlen (filter (fun r => r = Some 0%nat) (picks (wrr_select demo_heap demo_manager) 8 [0; 0; 0; 0]).1) = 5.
Proof.
  split; [vm_compute; reflexivity|].
  destruct (wrr_period demo_heap demo_manager ltac:(by apply (bool_decide_unpack _)) ltac:(vm_compute; reflexivity)) as [Ht _].
  { intros i Hi. destruct i as [|[|[|[|i]]]]; vm_compute; discriminate. }
  exact (Ht 0%nat 0%nat eq_refl).
Defined.

(** The balancer of the gateway can refuse while a healthy upstream exists: [bestWeight]
    starts at [-1], and an upstream that has just paid the total of a larger set has a
    current weight far below it.  After the other upstream goes down the next requests get
    no upstream (the gateway answers 503) until the debt is worked off. *)
Theorem wrr_refuses_healthy_upstream :
  let up b := [mkUp (bs "a") 80 1 0 true; mkUp (bs "b") 80 5 0 b] in
  let m := mkUM [0; 1]%nat 0 in
  let before := picks (wrr_select (up true) m) 3 [0; 0] in
  before.1 = [Some 1; Some 1; Some 0]%nat /\
  is_healthy (up false) 0 = true /\
  (picks (wrr_select (up false) m) 4 before.2).1 = [None; None; Some 0; Some 0]%nat.
Proof. vm_compute. split_and!; reflexivity. Qed.

(** ** Least connections *)

(** The result is a healthy upstream with the fewest connections; nothing only if every
    healthy upstream has [INT32_MAX] of them or more. *)
Lemma least_fold h l : forall a,
  let r := foldl (least_visit h) a l in
  r.2 <= a.2 /\ (forall p u, p ∈ l -> h !! p = Some u -> up_healthy u = true -> r.2 <= up_active u) /\
  (r = a \/ exists p u, p ∈ l /\ r = (Some p, up_active u) /\ h !! p = Some u /\ up_healthy u = true).
Proof.
  induction l as [|q l IH]; intros a; simpl; [split_and!; [lia|by intros ?? ?%not_elem_of_nil|by left]|].
  destruct (IH (least_visit h a q)) as (I1 & I2 & I3). set (r := foldl _ _ l) in *.
  assert ((least_visit h a q).2 <= a.2 /\ (forall u, h !! q = Some u -> up_healthy u = true -> (least_visit h a q).2 <= up_active u) /\
    (least_visit h a q = a \/ exists u, least_visit h a q = (Some q, up_active u) /\ h !! q = Some u /\ up_healthy u = true)) as (V1 & V2 & V3).
  { unfold least_visit. destruct (h !! q) as [u|] eqn:Eq; [|split_and!; [lia|done|by left]].
    destruct (up_healthy u) eqn:Eu; simpl; [|split_and!; [lia|by intros ? [= <-] ?; congruence|by left]].
    destruct (Z.ltb_spec (up_active u) a.2); simpl; (split_and!; [lia|by intros ? [= <-] _; lia|]); [right; by exists u|by left]. }
  split_and!; [lia| |].
  - intros p u [->|Hp]%elem_of_cons Hu Hh; [|by eapply I2]. pose proof (V2 u Hu Hh). lia.
  - destruct I3 as [->|(p & u & Hp & -> & Hu)]; [|right; exists p, u; split; [by right|done]].
    destruct V3 as [->|(u & -> & Hu)]; [by left|right; exists q, u; split; [by left|done]].
Qed.

Lemma least_select_spec h m :
  match least_select h m with
  | Some p => exists u, p ∈ um_upstreams m /\ h !! p = Some u /\ up_healthy u = true /\
                (forall q v, q ∈ um_upstreams m -> h !! q = Some v -> up_healthy v = true -> up_active u <= up_active v)
  | None => forall q v, q ∈ um_upstreams m -> h !! q = Some v -> up_healthy v = true -> INT32_MAX <= up_active v
  end.
Proof.
  unfold least_select. destruct (least_fold h (um_upstreams m) (None, INT32_MAX)) as (_ & Hmin & [E|(p & u & Hp & E & Hu & Hh)]); rewrite E in *; simpl in *; [done|].
  exists u. split_and!; try done.
Qed.

(** ** The hash ring *)

Definition ring_sorted (r : list (Z * nat)) : Prop := StronglySorted (fun a b => a.1 <= b.1) r.
Notation point_lt := (fun a b : Z * nat => a.1 <? b.1).

Lemma point_insert_sorted x r : ring_sorted r -> ring_sorted (insert_by point_lt x r).
Proof.
  induction 1 as [|y r Hs IH Hall]; simpl; [repeat constructor|]. destruct (Z.ltb_spec y.1 x.1).
  - constructor; [done|]. rewrite insert_by_perm. constructor; [lia|done].
  - constructor; [by constructor|]. constructor; [lia|]. eapply Forall_impl; [done|]. simpl. lia.
Qed.

Lemma point_sort_sorted r : ring_sorted (sort_by point_lt r).
Proof. induction r as [|x r IH]; [constructor|]. by apply point_insert_sorted. Qed.

Lemma point_insert_filter (P : Z * nat -> Prop) `{forall x, Decision (P x)} x r :
  ring_sorted r -> filter P (insert_by point_lt x r) = if decide (P x) then insert_by point_lt x (filter P r) else filter P r.
Proof.
  induction 1 as [|y r Hs IH Hall]; simpl; [by rewrite filter_cons|]. destruct (Z.ltb_spec y.1 x.1) as [Hlt|Hge].
  - rewrite !filter_cons, IH. destruct (decide (P x)), (decide (P y)); simpl; try done.
    by destruct (Z.ltb_spec y.1 x.1); [|lia].
  - rewrite (filter_cons P x). destruct (decide (P x)); [|done]. rewrite filter_cons. destruct (decide (P y)); simpl.
    + by destruct (Z.ltb_spec y.1 x.1); [lia|].
    + assert (forall r', Forall (fun b => y.1 <= b.1) r' -> insert_by point_lt x (filter P r') = x :: filter P r') as Hi; [|by rewrite Hi].
      clear -Hge. induction 1 as [|z r' Hz _ IH]; simpl; [done|]. rewrite filter_cons. destruct (decide (P z)); [|done]. simpl.
      by destruct (Z.ltb_spec z.1 x.1); [lia|].
Qed.

Lemma point_sort_filter (P : Z * nat -> Prop) `{forall x, Decision (P x)} r :
  sort_by point_lt (filter P r) = filter P (sort_by point_lt r).
Proof.
  induction r as [|x r IH]; [done|]. change (sort_by point_lt (x :: r)) with (insert_by point_lt x (sort_by point_lt r)).
  rewrite point_insert_filter by apply point_sort_sorted. rewrite filter_cons. destruct (decide (P x)); [|done].
  simpl. fold (sort_by point_lt (filter P r)). by rewrite IH.
Qed.

Lemma ring_split r v : ring_sorted r ->
  exists l1 l2, r = l1 ++ l2 /\ Forall (fun e => e.1 < v) l1 /\ Forall (fun e => v <= e.1) l2.
Proof.
  induction 1 as [|y r Hs (l1 & l2 & -> & H1 & H2) Hall]; [by exists [], []|].
  destruct (decide (y.1 < v)); [by exists (y :: l1), l2; auto|]. exists [], (y :: l1 ++ l2). split_and!; [done|done|].
  constructor; [lia|]. eapply Forall_impl; [done|]. simpl. lia.
Qed.

(** The binary search finds the first point at or after the hash. *)
Lemma ring_at_first r v : ring_sorted r ->
  ring_at r v = match filter (fun e => v <= e.1) r with e :: _ => Some e.2 | [] => snd <$> head r end.
Proof.
  intros Hs. destruct (ring_split r v Hs) as (l1 & l2 & -> & H1 & H2). unfold ring_at.
  rewrite lower_bound_spec.
  - rewrite lookup_app_r, Nat.sub_diag by lia. rewrite filter_app, (filter_empty _ l1).
    2: { eapply Forall_impl; [exact H1|]. simpl. lia. }
    destruct l2 as [|e l2]; [done|]. apply Forall_cons in H2 as [He _]. rewrite filter_cons_True by done. done.
  - eapply Forall_impl; [exact H1|]. intros e He. by apply Z.ltb_lt.
  - eapply Forall_impl; [exact H2|]. intros e He. by apply Z.ltb_ge.
Qed.

Lemma point_filter_comm {A} (P Q : A -> Prop) `{forall x, Decision (P x)} `{forall x, Decision (Q x)} (l : list A) :
  filter P (filter Q l) = filter Q (filter P l).
Proof. induction l as [|x l IH]; [done|]. rewrite !filter_cons. repeat case_decide; rewrite ?filter_cons_True, ?filter_cons_False by done; congruence. Qed.

Lemma ring_remove r v x q : ring_sorted r -> ring_at r v = Some q -> q <> x -> ring_at (filter (fun e => e.2 <> x) r) v = Some q.
Proof.
  intros Hs Hr Hq. assert (ring_sorted (filter (fun e => e.2 <> x) r)) as Hs'.
  { clear Hr. induction Hs as [|y r Hs IH Hall]; [constructor|]. rewrite filter_cons. destruct (decide _); [|done].
    constructor; [done|]. by apply Forall_filter. }
  rewrite ring_at_first in * by done. rewrite point_filter_comm.
  destruct (filter (fun e => v <= e.1) r) as [|e l] eqn:E.
  - destruct r as [|e r]; [done|]. injection Hr as <-. rewrite (filter_cons_True (fun e => e.2 <> x)) by done. done.
  - injection Hr as <-. by rewrite filter_cons_True.
Qed.

Lemma ring_unsorted_remove hash h m x :
  ring_unsorted hash h (mkUM (filter (fun p => p <> x) (um_upstreams m)) 0) = filter (fun e => e.2 <> x) (ring_unsorted hash h m).
Proof.
  unfold ring_unsorted. simpl. induction (um_upstreams m) as [|p l IH]; [done|]. rewrite filter_cons, bind_cons, filter_app, <- IH.
  assert (Forall (fun e => e.2 = p) (ring_points hash h p)) as Hp.
  { unfold ring_points. destruct (h !! p); [|constructor]. apply Forall_fmap, Forall_true. done. }
  destruct (decide (p <> x)) as [Hne|He].
  - rewrite bind_cons. f_equal. symmetry. apply filter_all. intros e He. rewrite Forall_forall in Hp. by rewrite (Hp e He).
  - rewrite (filter_empty _ (ring_points hash h p)); [done|]. eapply Forall_impl; [exact Hp|]. intros e ->. done.
Qed.

(** Consistent hashing moves as little as possible: whatever the hash function and the
    upstreams, when an upstream is removed and the ring rebuilt, every hash value that was
    served by another upstream is still served by the same one. *)
Theorem consistent_hash_minimal_disruption (hash : bytes -> Z) (h : heap) (m : UpstreamManager) (x q : nat) (v : Z) :
  ring_at (buildRing hash h m) v = Some q -> q <> x ->
  ring_at (buildRing hash h (mkUM (filter (fun p => p <> x) (um_upstreams m)) 0)) v = Some q.
Proof.
  intros Hr Hq. unfold buildRing in *. rewrite ring_unsorted_remove, point_sort_filter.
  apply ring_remove; [apply point_sort_sorted|done|done].
Qed.

Lemma consistent_hash_minimal_disruption_witness :
  let hash := fun k => 7 * dec_value k + zlen k in
  ring_at (buildRing hash demo_heap (mkUM [0; 2; 3]%nat 0)) 1000 = Some 0%nat.
Proof.
  apply (consistent_hash_minimal_disruption (fun k => 7 * dec_value k + zlen k) demo_heap demo_manager 1 0 1000); [vm_compute; reflexivity|discriminate].
Defined.

(** ** Health checks *)

Definition mark_one (b : bool) (host : bytes) (port : Z) (u : Upstream) : Upstream := if is_at host port u then set_healthy b u else u.

Lemma mark_fold b host port l : forall (h : heap) p,
  foldl (fun h q => alter (mark_one b host port) q h) h l !! p = if decide (p ∈ l) then mark_one b host port <$> h !! p else h !! p.
Proof.
  induction l as [|q l IH]; intros h p; cbn [foldl]; [by rewrite decide_False by apply not_elem_of_nil|]. rewrite IH.
  destruct (decide (q = p)) as [->|Hqp].
  - rewrite list_lookup_alter_eq. rewrite (decide_True (P := p ∈ p :: l)) by left. destruct (decide (p ∈ l)); [|done].
    destruct (h !! p) as [u|]; [|done]. simpl. f_equal. unfold mark_one. destruct (is_at host port u) eqn:E; [|by rewrite E]. unfold is_at in *. simpl. by rewrite E.
  - rewrite list_lookup_alter_ne by done. destruct (decide (p ∈ l)) as [Hl|Hl].
    + by rewrite decide_True by (by right).
    + rewrite decide_False; [done|]. intros [->|?]%elem_of_cons; done.
Qed.

Lemma mark_lookup b h m host port p :
  mark b h m host port !! p = if decide (p ∈ um_upstreams m) then mark_one b host port <$> h !! p else h !! p.
Proof. apply mark_fold. Qed.

(** Two upstreams of the vector with one address are the same. *)
Definition distinct_addresses (h : heap) (m : UpstreamManager) : Prop :=
  forall p q u v, p ∈ um_upstreams m -> q ∈ um_upstreams m -> h !! p = Some u -> h !! q = Some v ->
    up_host u = up_host v -> up_port u = up_port v -> p = q.

Lemma health_fold probe m : forall l h,
  distinct_addresses h m -> (forall q, q ∈ l -> q ∈ um_upstreams m) ->
  forall p, foldl (fun h p => match h !! p with Some u => mark (probe p) h m (up_host u) (up_port u) | None => h end) h l !! p =
    if decide (p ∈ l) then set_healthy (probe p) <$> h !! p else h !! p.
Proof.
  induction l as [|q l IH]; intros h Hd Hl p; cbn [foldl]; [by rewrite decide_False by apply not_elem_of_nil|].
  pose proof (Hl q ltac:(left)) as Hq. destruct (h !! q) as [u|] eqn:Eq.
  2: { rewrite IH; [|done|by intros ? ?; apply Hl; right]. destruct (decide (p = q)) as [->|Hpq].
       - rewrite Eq. by do 2 destruct (decide _).
       - destruct (decide (p ∈ l)); [by rewrite decide_True by (by right)|]. by rewrite decide_False by (intros [?|?]%elem_of_cons; done). }
  set (h1 := mark (probe q) h m (up_host u) (up_port u)).
  assert (forall p, h1 !! p = if decide (p = q) then Some (set_healthy (probe q) u) else h !! p) as H1.
  { intros p'. unfold h1. rewrite mark_lookup. destruct (decide (p' = q)) as [->|Hpq].
    - rewrite decide_True, Eq by done. simpl. unfold mark_one, is_at. by rewrite bool_decide_eq_true_2, Z.eqb_refl by done.
    - destruct (decide (p' ∈ um_upstreams m)) as [Hp'|]; [|done]. destruct (h !! p') as [v|] eqn:Ev; [|done]. simpl. f_equal.
      unfold mark_one, is_at. case_bool_decide as Hh; simpl; [|done]. destruct (Z.eqb_spec (up_port v) (up_port u)); [|done].
      exfalso. apply Hpq. by eapply (Hd p' q v u). }
  rewrite IH.
  - rewrite H1. destruct (decide (p = q)) as [->|Hpq].
    + rewrite (decide_True (P := q ∈ q :: l)) by left. rewrite Eq. by destruct (decide (q ∈ l)).
    + destruct (decide (p ∈ l)); [by rewrite decide_True by (by right)|]. by rewrite decide_False by (intros [?|?]%elem_of_cons; done).
  - intros a b x y Ha Hb Hx Hy Ehost Eport. rewrite H1 in Hx, Hy.
    destruct (decide (a = q)) as [->|], (decide (b = q)) as [->|]; [done|..]; simplify_eq; simpl in *.
    + by eapply (Hd q b u y).
    + by eapply (Hd a q x u).
    + by eapply (Hd a b x y).
  - intros ? ?. apply Hl. by right.
Qed.

(** One round of health checks: when no address occurs twice, every upstream of the vector is
    healthy afterwards exactly if its own connection attempt succeeded, whatever it was
    before and however often it had failed, and nothing else changes. *)
Theorem health_round_correct (probe : nat -> bool) (h : heap) (m : UpstreamManager) (p : nat) :
  distinct_addresses h m ->
  health_round probe h m !! p = if decide (p ∈ um_upstreams m) then set_healthy (probe p) <$> h !! p else h !! p.
Proof. intros Hd. by apply health_fold. Qed.

Lemma health_round_correct_witness :
  is_healthy (health_round (fun p => bool_decide (p <> 0%nat)) demo_heap demo_manager) 1 = true /\
  is_healthy (health_round (fun p => bool_decide (p <> 0%nat)) demo_heap demo_manager) 0 = false.
Proof.
  assert (distinct_addresses demo_heap demo_manager) as Hd.
  { intros p q u v _ _ Hp Hq Hh _. do 4 (destruct p as [|p]; [do 4 (destruct q as [|q]; [by simplify_eq/=|]); done|]). done. }
  unfold is_healthy. rewrite !(health_round_correct _ _ _ _ Hd). split; reflexivity.
Defined.
