(* ===== verification/Http.v ===== *)
(** * HTTP messages of the gateway

    [http/headers], [http/parser], [http/response], [http/router] and [proxy/middleware] of
    skynet.  A call that throws a C++ exception ([substr] past the end, [stoul] of something
    that is no number) is [None]; the coroutines of the gateway do not catch it. *)

From Stdlib Require Import ZArith Lia.
From stdpp Require Import base numbers strings list gmap.
From S2P Require Import Prelude CppString.
Local Open Scope Z_scope.

Definition chr (c : string) : byte := default (z2b 0) (head (bs c)).
Definition CRLF : bytes := [z2b 13; z2b 10].

(** ** [Headers] *)

Definition tolower (c : byte) : byte := if (65 <=? b2z c) && (b2z c <=? 90) then z2b (b2z c + 32) else c.
Definition toLower (s : bytes) : bytes := map tolower s.

Record Headers := mkHeaders { hs_all : list (bytes * bytes); hs_lower : gmap bytes bytes }.
Definition Headers_new : Headers := mkHeaders [] ∅.

Definition hs_add (hs : Headers) (name value : bytes) : Headers :=
  mkHeaders (hs_all hs ++ [(name, value)]) (<[toLower name := value]> (hs_lower hs)).

Definition hs_get (hs : Headers) (name : bytes) : bytes := default [] (hs_lower hs !! toLower name).
Definition hs_has (hs : Headers) (name : bytes) : bool := bool_decide (is_Some (hs_lower hs !! toLower name)).

Definition hs_remove (hs : Headers) (name : bytes) : Headers :=
  mkHeaders (filter (fun p => toLower p.1 <> toLower name) (hs_all hs)) (delete (toLower name) (hs_lower hs)).

(** ** [HttpRequest] and [HttpParser] *)

Record HttpRequest := mkReq {
  rq_method : bytes; rq_path : bytes; rq_query : bytes; rq_version : bytes; rq_headers : Headers; rq_body : bytes }.
Definition HttpRequest_new : HttpRequest := mkReq [] [] [] [] Headers_new [].

Inductive ParseResult := kOk | kNeedMoreData | kError.
Inductive HState := kMethod | kPath | kVersion | kHeaderName | kHeaderValue | kBody | kDone.

#[export] Instance HState_eq_dec : EqDecision HState.
Proof. solve_decision. Defined.
#[export] Instance ParseResult_eq_dec : EqDecision ParseResult.
Proof. solve_decision. Defined.

Record HttpParser := mkParser {
  hp_state : HState;
  hp_req : HttpRequest;
  hp_buffer : bytes;
  hp_content_length : Z;
  hp_chunked : bool;
}.

Definition HttpParser_new : HttpParser := mkParser kMethod HttpRequest_new [] 0 false.
Definition hp_reset (p : HttpParser) : HttpParser := HttpParser_new.

Definition with_state (p : HttpParser) (s : HState) : HttpParser :=
  mkParser s (hp_req p) (hp_buffer p) (hp_content_length p) (hp_chunked p).
Definition with_req (p : HttpParser) (r : HttpRequest) : HttpParser :=
  mkParser (hp_state p) r (hp_buffer p) (hp_content_length p) (hp_chunked p).
Definition with_buffer (p : HttpParser) (b : bytes) : HttpParser :=
  mkParser (hp_state p) (hp_req p) b (hp_content_length p) (hp_chunked p).
Definition with_length (p : HttpParser) (n : Z) : HttpParser :=
  mkParser (hp_state p) (hp_req p) (hp_buffer p) n (hp_chunked p).

(** [std::stoul]: blanks, a sign, digits; throws without digits and above [ULONG_MAX]. *)
Definition stoul_digits (s : bytes) : option Z :=
  match s with
  | c :: _ => if is_digit c then (let v := atoi_digits s 0 in if v <? 2 ^ 64 then Some v else None) else None
  | [] => None
  end.
Definition stoul (s : bytes) : option Z :=
  match skip_space s with
  | c :: s' => if b2z c =? 45 then (fun v => u64 (- v)) <$> stoul_digits s'
               else if b2z c =? 43 then stoul_digits s' else stoul_digits (c :: s')
  | [] => None
  end.

(** The request line. *)
Definition request_line (p : HttpParser) (line : bytes) : option HttpParser :=
  let sp1 := str_find_char line (chr " ") 0 in
  let sp2 := str_find_char line (chr " ") (u64 (sp1 + 1)) in
  method ← str_substr line 0 sp1;
  fullPath ← str_substr line (u64 (sp1 + 1)) (u64 (sp2 - sp1 - 1));
  version ← str_substr line (u64 (sp2 + 1)) npos;
  let qPos := str_find_char fullPath (chr "?") 0 in
  '(path, query) ← (if qPos =? npos then Some (fullPath, rq_query (hp_req p))
                    else path ← str_substr fullPath 0 qPos;
                         query ← str_substr fullPath (u64 (qPos + 1)) npos; Some (path, query));
  Some (with_state (with_req p (mkReq method path query version (rq_headers (hp_req p)) (rq_body (hp_req p)))) kHeaderName).

(** A header line; [inr] is the result of an early return. *)
Definition header_line (p : HttpParser) (line : bytes) : option (HttpParser * option ParseResult) :=
  match line with
  | [] =>
      if (hp_content_length p >? 0) || hp_chunked p then Some (with_state p kBody, None)
      else Some (with_state p kDone, Some kOk)
  | _ =>
      let colon := str_find_char line (chr ":") 0 in
      if colon =? npos then Some (p, Some kError)
      else
        name ← str_substr line 0 colon;
        value ← str_substr line (u64 (colon + 2)) npos;
        let r := hp_req p in
        let p := with_req p (mkReq (rq_method r) (rq_path r) (rq_query r) (rq_version r) (hs_add (rq_headers r) name value) (rq_body r)) in
        if bool_decide (name = bs "Content-Length") then n ← stoul value; Some (with_length p n, None)
        else Some (p, None)
  end.

(** What the loop does with a complete line in each state. *)
Definition hp_line (p : HttpParser) (line : bytes) : option (HttpParser * option ParseResult) :=
  match hp_state p with
  | kMethod => p ← request_line p line; Some (p, None)
  | kHeaderName => header_line p line
  | _ => Some (p, None)
  end.

(** The loop of [feed].  [rest] is [buffer_] from [pos] on; [buffer_] itself does not change
    in the loop, and is cut to [rest] by [erase(0, pos)] on the returns that erase. *)
Fixpoint hp_loop (fuel : nat) (p : HttpParser) (rest : bytes) : option (ParseResult * HttpParser) :=
  match fuel with
  | O => Some (kNeedMoreData, with_buffer p rest)
  | S fuel =>
      match rest with
      | [] => Some (match hp_state p with kDone => kOk | _ => kNeedMoreData end, with_buffer p [])
      | _ =>
          match hp_state p with
          | kBody =>
              if zlen rest >=? hp_content_length p then
                let r := hp_req p in
                Some (kOk, with_state (with_req p (mkReq (rq_method r) (rq_path r) (rq_query r) (rq_version r) (rq_headers r)
                                                         (take (Z.to_nat (hp_content_length p)) rest))) kDone)
              else Some (kNeedMoreData, with_buffer p rest)
          | _ =>
              match find_sub CRLF rest with
              | None => Some (kNeedMoreData, with_buffer p rest)
              | Some lineEnd =>
                  '(p, ret) ← hp_line p (take lineEnd rest);
                  match ret with
                  | Some r => Some (r, p)
                  | None => hp_loop fuel p (drop (lineEnd + 2) rest)
                  end
              end
          end
      end
  end.

(** Every round of the loop consumes a line end: the length of the buffer is enough fuel. *)
Definition hp_feed (p : HttpParser) (data : bytes) : option (ParseResult * HttpParser) :=
  let buffer := hp_buffer p ++ data in
  hp_loop (S (length buffer)) (with_buffer p buffer) buffer.

(** ** [HttpResponse] *)

Record HttpResponse := mkResp { rs_status : Z; rs_text : bytes; rs_headers : Headers; rs_body : bytes }.
Definition HttpResponse_new : HttpResponse := mkResp 200 (bs "OK") Headers_new [].

Definition serialize (r : HttpResponse) : bytes :=
  bs "HTTP/1.1 " ++ to_string (rs_status r) ++ bs " " ++ rs_text r ++ CRLF ++
  concat (map (fun nv => nv.1 ++ bs ": " ++ nv.2 ++ CRLF) (hs_all (rs_headers r))) ++
  (if hs_has (rs_headers r) (bs "Content-Length") then [] else bs "Content-Length: " ++ to_string (zlen (rs_body r)) ++ CRLF) ++
  CRLF ++ rs_body r.

(** [HttpResponseBuilder] *)
Definition rb_status (r : HttpResponse) (code : Z) (text : bytes) : HttpResponse :=
  mkResp code (match text with
               | [] => if code =? 200 then bs "OK" else if code =? 404 then bs "Not Found" else bs "Error"
               | _ => text
               end) (rs_headers r) (rs_body r).
Definition rb_header (r : HttpResponse) (name value : bytes) : HttpResponse :=
  mkResp (rs_status r) (rs_text r) (hs_add (rs_headers r) name value) (rs_body r).
Definition rb_body (r : HttpResponse) (b : bytes) : HttpResponse := mkResp (rs_status r) (rs_text r) (rs_headers r) b.

(** ** [Router] *)

Definition Handler := HttpRequest -> HttpResponse.
Record Route := mkRoute { ro_method : bytes; ro_pattern : bytes; ro_handler : Handler }.
Definition route (rs : list Route) (method pattern : bytes) (h : Handler) : list Route := rs ++ [mkRoute method pattern h].

(** [s] cut at the first slash: before it, and from it on. *)
Definition cut_slash (s : bytes) : bytes * bytes :=
  match find_index (fun c => bool_decide (c = chr "/")) s with
  | Some i => (take i s, drop i s)
  | None => (s, [])
  end.

(** The loop of [match]: [pat] and [path] are the strings from [pi] and [si] on, empty when the
    position is [npos] or the end. *)
Fixpoint match_loop (fuel : nat) (pat path : bytes) (params : gmap bytes bytes) : bool * gmap bytes bytes :=
  match fuel, pat, path with
  | S fuel, c :: pat', d :: path' =>
      if bool_decide (c = chr ":") then
        let (name, pat2) := cut_slash pat' in
        let (value, path2) := cut_slash path in
        match_loop fuel pat2 path2 (<[name := value]> params)
      else if bool_decide (c <> d) then (false, params)
      else match_loop fuel pat' path' params
  | _, _, _ => (bool_decide (pat = []) && bool_decide (path = []), params)
  end.

Definition route_match (pattern path : bytes) : bool * gmap bytes bytes :=
  if bool_decide (pattern = path) then (true, ∅) else match_loop (S (length pattern)) pattern path ∅.

Definition not_found : HttpResponse := mkResp 404 (bs "Not Found") Headers_new (bs "Not Found").

Fixpoint dispatch_route (rs : list Route) (req : HttpRequest) : HttpResponse :=
  match rs with
  | [] => not_found
  | r :: rs => if bool_decide (ro_method r = rq_method req) && (route_match (ro_pattern r) (rq_path req)).1 then ro_handler r req
               else dispatch_route rs req
  end.

(** ** [MiddlewareChain] *)

Definition mw_add (chain : list Handler) (mw : Handler) : list Handler := chain ++ [mw].

Fixpoint mw_process (chain : list Handler) (req : HttpRequest) : HttpResponse :=
  match chain with
  | [] => HttpResponse_new
  | mw :: chain => let resp := mw req in if rs_status resp >=? 400 then resp else mw_process chain req
  end.
