(* ===== verification/HttpProofs.v ===== *)
(** * The HTTP parser, headers and router are correct

    Feeding a parser in pieces gives what feeding it at once gives; a printed request is
    parsed back; the header map is the last value of each name; a route matches exactly the
    paths its pattern describes. *)

From Stdlib Require Import ZArith Lia.
From stdpp Require Import base numbers strings list gmap.
From S2P Require Import Prelude CppString Http.
Local Open Scope Z_scope.

(** Case analysis on every conversion and test of a line. *)
Ltac split_options :=
  repeat match goal with
  | |- context [str_substr ?a ?b ?c] => destruct (str_substr a b c); cbn
  | |- context [stoul ?a] => destruct (stoul a); cbn
  | |- context [if ?b then _ else _] => destruct b; cbn
  | |- context [match ?l with [] => _ | _ :: _ => _ end] => destruct l; cbn
  end.

(** ** Chunking *)

(** What the caller of the parser sees: the result, the state and the request. *)
Definition outcome (r : option (ParseResult * HttpParser)) : option (ParseResult * HState * HttpRequest) :=
  (fun rp => (rp.1, hp_state rp.2, hp_req rp.2)) <$> r.

(** Two parsers that differ in the bytes they hold only. *)
Definition same (p q : HttpParser) : Prop := with_buffer p [] = with_buffer q [].

Lemma same_fields p q : same p q -> hp_state p = hp_state q /\ hp_req p = hp_req q /\ hp_content_length p = hp_content_length q /\ hp_chunked p = hp_chunked q.
Proof. destruct p, q. unfold same, with_buffer. simpl. by intros [= -> -> -> ->]. Qed.

Lemma same_eq p q : same p q -> q = with_buffer p (hp_buffer q).
Proof. intros (H1 & H2 & H3 & H4)%same_fields. destruct p, q. unfold with_buffer. simpl in *. congruence. Qed.

Lemma hp_line_buffer p b line :
  hp_line (with_buffer p b) line = (fun pr => (with_buffer pr.1 b, pr.2)) <$> hp_line p line.
Proof.
  destruct p as [s r b0 n c]. unfold hp_line, with_buffer. simpl. destruct s; try done.
  - unfold request_line. cbn. by split_options.
  - unfold header_line. cbn. by split_options.
Qed.

(** The loop never looks at the buffer field. *)
Lemma hp_loop_buffer fuel : forall p b rest, outcome (hp_loop fuel (with_buffer p b) rest) = outcome (hp_loop fuel p rest).
Proof.
  induction fuel as [|fuel IH]; intros p b rest; [done|]. cbn [hp_loop]. destruct rest as [|c rest]; [done|].
  change (hp_state (with_buffer p b)) with (hp_state p). change (hp_content_length (with_buffer p b)) with (hp_content_length p).
  assert (forall le, outcome ('(p', ret) ← hp_line (with_buffer p b) (take le (c :: rest));
      match ret with Some r => Some (r, p') | None => hp_loop fuel p' (drop (le + 2) (c :: rest)) end) =
    outcome ('(p', ret) ← hp_line p (take le (c :: rest));
      match ret with Some r => Some (r, p') | None => hp_loop fuel p' (drop (le + 2) (c :: rest)) end)) as Hl.
  { intros le. rewrite hp_line_buffer. destruct (hp_line p _) as [[p' [r|]]|]; [done| |done]. apply IH. }
  destruct (hp_state p); try (destruct (find_sub CRLF (c :: rest)); [apply Hl|done]).
  destruct (_ >=? _); done.
Qed.

Lemma find_crlf_bound s i : find_sub CRLF s = Some i -> (i + 2 <= length s)%nat.
Proof. apply find_sub_bound. Qed.

(** Enough fuel is enough. *)
Lemma hp_loop_fuel f1 : forall f2 p rest, (length rest < f1)%nat -> (length rest < f2)%nat -> hp_loop f1 p rest = hp_loop f2 p rest.
Proof.
  induction f1 as [|f1 IH]; intros f2 p rest H1 H2; [lia|]. destruct f2 as [|f2]; [lia|]. cbn [hp_loop].
  destruct rest as [|c rest]; [done|]. destruct (hp_state p); try done;
    (destruct (find_sub CRLF (c :: rest)) as [le|] eqn:E; [|done]; apply find_crlf_bound in E;
     destruct (hp_line p _) as [[p' [r|]]|]; [done| |done]; cbn [mbind option_bind]; apply IH; rewrite length_drop; simpl in *; lia).
Qed.

Definition hp_run (p : HttpParser) (rest : bytes) : option (ParseResult * HttpParser) := hp_loop (S (length rest)) p rest.

(** One round over a complete line. *)
Lemma hp_run_line p rest le :
  hp_state p <> kBody -> find_sub CRLF rest = Some le ->
  hp_run p rest = '(p', ret) ← hp_line p (take le rest);
                  match ret with Some r => Some (r, p') | None => hp_run p' (drop (le + 2) rest) end.
Proof.
  intros Hs E. pose proof (find_crlf_bound _ _ E) as Hb. unfold hp_run at 1. cbn [hp_loop]. destruct rest as [|c rest]; [simpl in Hb; lia|].
  assert (forall p', hp_loop (length (c :: rest)) p' (drop (le + 2) (c :: rest)) = hp_run p' (drop (le + 2) (c :: rest))) as Hr.
  { intros p'. apply hp_loop_fuel; rewrite length_drop; lia. }
  destruct (hp_state p); try done; rewrite E; (destruct (hp_line p _) as [[p' [r|]]|]; [done| |done]); apply Hr.
Qed.

Lemma hp_run_short p rest : hp_state p <> kBody -> hp_state p <> kDone -> find_sub CRLF rest = None -> hp_run p rest = Some (kNeedMoreData, with_buffer p rest).
Proof.
  intros Hs Hd E. unfold hp_run. cbn [hp_loop]. destruct rest as [|c rest]; [by destruct (hp_state p)|]. destruct (hp_state p); try done; by rewrite E.
Qed.

Lemma hp_line_state p line p' : hp_state p <> kDone -> hp_line p line = Some (p', None) -> hp_state p' <> kDone.
Proof.
  unfold hp_line. intros Hd. destruct (hp_state p) eqn:Es; try done; try (by intros [= <-]; rewrite Es).
  - unfold request_line. cbn. split_options; intros H; by simplify_eq/=.
  - unfold header_line. cbn. split_options; intros H; simplify_eq/=; by rewrite ?Es.
Qed.

Lemma hp_line_ret p line p' : hp_line p line <> Some (p', Some kNeedMoreData).
Proof.
  unfold hp_line. destruct (hp_state p); try done; unfold request_line, header_line; cbn; split_options; intros H; by simplify_eq/=.
Qed.

Lemma hp_run_buffer p b rest : outcome (hp_run (with_buffer p b) rest) = outcome (hp_run p rest).
Proof. apply hp_loop_buffer. Qed.

(** What is known about a feed of [rest] that is followed by more bytes [b]. *)
Definition extends (p : HttpParser) (rest b : bytes) : Prop :=
  match hp_run p rest with
  | Some (kNeedMoreData, p') => hp_state p' <> kDone /\ outcome (hp_run p (rest ++ b)) = outcome (hp_run p' (hp_buffer p' ++ b))
  | _ => outcome (hp_run p (rest ++ b)) = outcome (hp_run p rest)
  end.

Lemma extends_wait p rest b : hp_state p <> kDone -> hp_run p rest = Some (kNeedMoreData, with_buffer p rest) -> extends p rest b.
Proof. intros Hd E. unfold extends. rewrite E. split; [done|]. by rewrite hp_run_buffer. Qed.

Lemma extends_body p rest b : hp_state p = kBody -> extends p rest b.
Proof.
  intros Hs. assert (hp_state p <> kDone) as Hd by congruence. destruct rest as [|c rest].
  { apply extends_wait; [done|]. unfold hp_run. cbn. by rewrite Hs. }
  destruct (zlen (c :: rest) >=? hp_content_length p) eqn:E.
  2: { apply extends_wait; [done|]. unfold hp_run. cbn [hp_loop]. by rewrite Hs, E. }
  assert (forall t, hp_run p ((c :: rest) ++ t) = Some (kOk, with_state (with_req p (mkReq (rq_method (hp_req p)) (rq_path (hp_req p))
    (rq_query (hp_req p)) (rq_version (hp_req p)) (rq_headers (hp_req p)) (take (Z.to_nat (hp_content_length p)) (c :: rest)))) kDone)) as Hr.
  { intros t. unfold hp_run. cbn [hp_loop app]. rewrite Hs. rewrite app_comm_cons. rewrite zlen_app. pose proof (zlen_nonneg t).
    replace (zlen (c :: rest) + zlen t >=? hp_content_length p) with true by lia. rewrite take_app_le; [done|]. unfold zlen in *. lia. }
  pose proof (Hr []) as H0. rewrite app_nil_r in H0. unfold extends. by rewrite H0, Hr.
Qed.

Lemma hp_run_app b n : forall rest p, (length rest < n)%nat -> hp_state p <> kDone -> extends p rest b.
Proof.
  induction n as [|n IH]; intros rest p Hn Hd; [lia|]. 
  destruct (decide (hp_state p = kBody)) as [Hb|Hb]; [by apply extends_body|].
  destruct (find_sub CRLF rest) as [le|] eqn:E; [|by apply extends_wait, hp_run_short].
  pose proof (find_crlf_bound _ _ E) as Hle. pose proof (find_sub_app _ _ b _ E) as E'.
  assert (hp_run p (rest ++ b) = '(p', ret) ← hp_line p (take le rest);
    match ret with Some r => Some (r, p') | None => hp_run p' (drop (le + 2) rest ++ b) end) as Happ.
  { rewrite (hp_run_line p (rest ++ b) le Hb E'). by rewrite take_app_le, drop_app_le by lia. }
  unfold extends. rewrite Happ, (hp_run_line p rest le Hb E).
  destruct (hp_line p (take le rest)) as [[p' [r|]]|] eqn:El; cbn [mbind option_bind]; [|..|done].
  - by destruct r; [..|apply hp_line_ret in El|].
  - apply (IH (drop (le + 2) rest) p'); [rewrite length_drop; lia|]. by eapply hp_line_state.
Qed.

Lemma hp_feed_run p data : outcome (hp_feed p data) = outcome (hp_run p (hp_buffer p ++ data)).
Proof. unfold hp_feed. apply hp_run_buffer. Qed.

(** Feeding pieces until the parser has an answer. *)
Fixpoint feed_chunks (p : HttpParser) (chunks : list bytes) : option (ParseResult * HttpParser) :=
  match chunks with
  | [] => hp_feed p []
  | c :: chunks => match hp_feed p c with Some (kNeedMoreData, p') => feed_chunks p' chunks | r => r end
  end.

Lemma feed_chunks_concat (chunks : list bytes) (p : HttpParser) :
  hp_state p <> kDone -> outcome (feed_chunks p chunks) = outcome (hp_feed p (concat chunks)).
Proof.
  revert p. induction chunks as [|c chunks IH]; intros p Hd; [done|]. cbn [feed_chunks concat].
  set (q := with_buffer p (hp_buffer p ++ c)).
  pose proof (hp_run_app (concat chunks) (S (length (hp_buffer p ++ c))) (hp_buffer p ++ c) q ltac:(lia) Hd) as He.
  assert (outcome (hp_feed p (c ++ concat chunks)) = outcome (hp_run q ((hp_buffer p ++ c) ++ concat chunks))) as Hw.
  { rewrite hp_feed_run, <- app_assoc. unfold q. by rewrite hp_run_buffer. }
  rewrite Hw. change (hp_feed p c) with (hp_run q (hp_buffer p ++ c)). unfold extends in He.
  destruct (hp_run q (hp_buffer p ++ c)) as [[[] p']|]; [done| |done|done].
  destruct He as [Hd' ->]. rewrite IH by done. apply hp_feed_run.
Qed.

(** C31: the parser does not depend on how the stream is cut.  From any parser that has not
    finished, feeding the pieces of a byte stream one by one until there is an answer gives
    the same result, state and request (or the same exception) as feeding the whole stream
    at once. *)
Theorem http_feed_chunking (chunks : list bytes) (p : HttpParser) :
  hp_state p <> kDone -> outcome (feed_chunks p chunks) = outcome (hp_feed p (concat chunks)).
Proof. apply feed_chunks_concat. Qed.

Lemma http_feed_chunking_witness :
  outcome (feed_chunks HttpParser_new [bs "PO"; bs "ST /a?x HTTP/1.1"; [z2b 13]; [z2b 10] ++ bs "Content-Length: 2" ++ CRLF; CRLF ++ bs "h"; bs "i!"]) =
  outcome (hp_feed HttpParser_new (bs "POST /a?x HTTP/1.1" ++ CRLF ++ bs "Content-Length: 2" ++ CRLF ++ CRLF ++ bs "hi!")).
Proof. rewrite http_feed_chunking by discriminate. reflexivity. Defined.

(** ** Printing and parsing *)

Definition LF : byte := z2b 10.

Lemma find_crlf line rest : LF ∉ line -> find_sub CRLF (line ++ CRLF ++ rest) = Some (length line).
Proof.
  induction line as [|c line IH]; intros Hn; [done|]. apply not_elem_of_cons in Hn as [Hc Hn].
  cbn [find_sub app]. change (length CRLF) with 2%nat. rewrite bool_decide_eq_false_2.
  - by rewrite IH.
  - destruct line as [|d line]; cbn.
    + unfold CRLF. intros [=].
    + intros [= _ H]. apply Hn. rewrite H. left.
Qed.

Lemma find_index_app (f : byte -> bool) a c b : Forall (fun x => f x = false) a -> f c = true -> find_index f (a ++ c :: b) = Some (length a).
Proof. intros Ha Hc. induction Ha as [|x a Hx _ IH]; simpl; [by rewrite Hc|]. by rewrite Hx, IH. Qed.

Lemma find_index_none (f : byte -> bool) a : Forall (fun x => f x = false) a -> find_index f a = None.
Proof. induction 1 as [|x a Hx _ IH]; simpl; [done|]. by rewrite Hx, IH. Qed.

Lemma no_char (c : byte) a : c ∉ a -> Forall (fun x => bool_decide (x = c) = false) a.
Proof. intros H. apply Forall_forall. intros x Hx. apply bool_decide_eq_false_2. by intros ->. Qed.

Lemma str_find_at s c pos pre a b : s = pre ++ a ++ c :: b -> pos = zlen pre -> c ∉ a -> str_find_char s c pos = zlen pre + zlen a.
Proof.
  intros -> -> Ha. unfold str_find_char. rewrite to_nat_zlen, drop_app_length.
  rewrite find_index_app; [done|by apply no_char|by apply bool_decide_eq_true_2].
Qed.

Lemma str_find_none s c : c ∉ s -> str_find_char s c 0 = npos.
Proof. intros Hs. unfold str_find_char. rewrite drop_0. rewrite find_index_none; [done|by apply no_char]. Qed.

Lemma str_substr_mid a b c n : n = zlen b -> str_substr (a ++ b ++ c) (zlen a) n = Some b.
Proof.
  intros ->. unfold str_substr. rewrite !zlen_app. pose proof (zlen_nonneg a). pose proof (zlen_nonneg b). pose proof (zlen_nonneg c).
  destruct (Z.gtb_spec (zlen a) (zlen a + (zlen b + zlen c))); [lia|]. rewrite to_nat_zlen, drop_app_length.
  replace (Z.min (zlen b) (zlen a + (zlen b + zlen c) - zlen a)) with (zlen b) by lia. by rewrite to_nat_zlen, take_app_length.
Qed.

Lemma str_substr_end a b n : zlen b <= n -> str_substr (a ++ b) (zlen a) n = Some b.
Proof.
  intros Hn. unfold str_substr. rewrite zlen_app. pose proof (zlen_nonneg a). pose proof (zlen_nonneg b).
  destruct (Z.gtb_spec (zlen a) (zlen a + zlen b)); [lia|]. rewrite to_nat_zlen, drop_app_length.
  replace (Z.min n (zlen a + zlen b - zlen a)) with (zlen b) by lia. by rewrite to_nat_zlen, firstn_all.
Qed.

(** A request as a client writes it. *)
Definition print_target (path query : bytes) : bytes := match query with [] => path | _ => path ++ bs "?" ++ query end.
Definition print_header (nv : bytes * bytes) : bytes := nv.1 ++ bs ": " ++ nv.2 ++ CRLF.
Definition first_line (r : HttpRequest) : bytes := rq_method r ++ bs " " ++ print_target (rq_path r) (rq_query r) ++ bs " " ++ rq_version r.
Definition print_request (r : HttpRequest) : bytes :=
  first_line r ++ CRLF ++ concat (map print_header (hs_all (rq_headers r))) ++ CRLF ++ rq_body r.

Definition word (s : bytes) : Prop := chr " " ∉ s /\ LF ∉ s.

Record line_ok (r : HttpRequest) : Prop := {
  lo_method : word (rq_method r);
  lo_path : word (rq_path r) /\ chr "?" ∉ rq_path r;
  lo_query : word (rq_query r);
  lo_version : LF ∉ rq_version r;
  lo_size : zlen (first_line r) < 2 ^ 63;
}.

Lemma request_line_print r p :
  line_ok r -> hp_req p = HttpRequest_new ->
  request_line p (first_line r) = Some (with_state (with_req p (mkReq (rq_method r) (rq_path r) (rq_query r) (rq_version r) Headers_new [])) kHeaderName).
Proof.
  intros [[Hm _] [[Hp _] Hq] [Hqs _] _ Hsz] Hreq. set (t := print_target (rq_path r) (rq_query r)).
  assert (chr " " ∉ t) as Ht.
  { unfold t, print_target. destruct (rq_query r) as [|c q] eqn:Eq; [done|]. rewrite !not_elem_of_app. split_and!; [done| |done].
    intros H. apply list_elem_of_singleton in H. discriminate H. }
  assert (first_line r = rq_method r ++ chr " " :: t ++ bs " " ++ rq_version r) as E1 by done.
  assert (zlen (first_line r) = zlen (rq_method r) + 1 + zlen t + 1 + zlen (rq_version r)) as El.
  { rewrite E1, zlen_app, zlen_cons, !zlen_app. change (zlen (bs " ")) with 1. lia. }
  pose proof (zlen_nonneg (rq_method r)). pose proof (zlen_nonneg t). pose proof (zlen_nonneg (rq_version r)).
  assert (str_find_char (first_line r) (chr " ") 0 = zlen (rq_method r)) as F1 by (by apply (str_find_at _ _ 0 [] (rq_method r) (t ++ bs " " ++ rq_version r))).
  assert (first_line r = (rq_method r ++ bs " ") ++ t ++ chr " " :: rq_version r) as E2 by (rewrite E1, <- app_assoc; done).
  assert (zlen (rq_method r ++ bs " ") = zlen (rq_method r) + 1) as Z1 by (by rewrite zlen_app).
  assert (str_find_char (first_line r) (chr " ") (zlen (rq_method r) + 1) = zlen (rq_method r) + 1 + zlen t) as F2.
  { rewrite <- Z1. by apply (str_find_at _ _ _ (rq_method r ++ bs " ") t (rq_version r)). }
  unfold request_line. rewrite F1. rewrite (u64_small (zlen (rq_method r) + 1)) by lia. rewrite F2.
  rewrite (u64_small (_ - _ - 1)) by lia. rewrite (u64_small (_ + 1)) by lia.
  pose proof (str_substr_mid [] (rq_method r) (chr " " :: t ++ bs " " ++ rq_version r) _ eq_refl) as S1.
  cbn [app zlen length Z.of_nat] in S1. rewrite <- E1 in S1. change (zlen []) with 0 in S1. rewrite S1. cbn [mbind option_bind].
  assert (str_substr (first_line r) (zlen (rq_method r) + 1) (zlen (rq_method r) + 1 + zlen t - zlen (rq_method r) - 1) = Some t) as ->.
  { rewrite <- Z1. rewrite E2. apply str_substr_mid. lia. }
  cbn [mbind option_bind].
  assert (str_substr (first_line r) (zlen (rq_method r) + 1 + zlen t + 1) npos = Some (rq_version r)) as ->.
  { replace (first_line r) with ((rq_method r ++ bs " " ++ t ++ bs " ") ++ rq_version r) by (rewrite E1, <- !app_assoc; done).
    replace (zlen (rq_method r) + 1 + zlen t + 1) with (zlen (rq_method r ++ bs " " ++ t ++ bs " ")).
    2: { rewrite !zlen_app. change (zlen (bs " ")) with 1. lia. }
    apply str_substr_end. unfold npos. lia. }
  cbn [mbind option_bind]. rewrite Hreq. unfold t, print_target. destruct (rq_query r) as [|c q] eqn:Eq.
  - rewrite str_find_none by done. by rewrite Z.eqb_refl.
  - assert (zlen t = zlen (rq_path r) + 1 + zlen (c :: q)) as Ezt by (unfold t, print_target; rewrite !zlen_app; change (zlen (bs "?")) with 1; lia).
    pose proof (zlen_nonneg (rq_path r)). pose proof (zlen_nonneg (c :: q)).
    rewrite (str_find_at _ (chr "?") 0 [] (rq_path r) (c :: q)) by done. rewrite zlen_nil, Z.add_0_l.
    destruct (Z.eqb_spec (zlen (rq_path r)) npos) as [He|_]; [unfold npos in He; lia|].
    pose proof (str_substr_mid [] (rq_path r) (bs "?" ++ c :: q) _ eq_refl) as S2. cbn [app] in S2. change (zlen []) with 0 in S2. rewrite S2.
    cbn [mbind option_bind]. rewrite u64_small by lia. replace (zlen (rq_path r) + 1) with (zlen (rq_path r ++ bs "?")) by (by rewrite zlen_app).
    rewrite app_assoc, str_substr_end by (unfold npos; lia). done.
Qed.

Definition header_ok (nv : bytes * bytes) : Prop := chr ":" ∉ nv.1 /\ LF ∉ nv.1 /\ LF ∉ nv.2 /\ zlen nv.1 + zlen nv.2 < 2 ^ 63.

Definition add_header (p : HttpParser) (nv : bytes * bytes) : HttpParser :=
  let r := hp_req p in
  with_req p (mkReq (rq_method r) (rq_path r) (rq_query r) (rq_version r) (hs_add (rq_headers r) nv.1 nv.2) (rq_body r)).

Lemma header_line_print p nv : header_ok nv ->
  header_line p (nv.1 ++ bs ": " ++ nv.2) =
  if bool_decide (nv.1 = bs "Content-Length") then n ← stoul nv.2; Some (with_length (add_header p nv) n, None)
  else Some (add_header p nv, None).
Proof.
  intros (Hc & _ & _ & Hz). destruct nv as [n v]. cbn [fst snd] in *. set (line := n ++ bs ": " ++ v).
  pose proof (zlen_nonneg n). pose proof (zlen_nonneg v).
  assert (str_find_char line (chr ":") 0 = zlen n) as F by (by apply (str_find_at _ _ 0 [] n (bs " " ++ v))).
  assert (str_substr line 0 (zlen n) = Some n) as S1 by (apply (str_substr_mid [] n (bs ": " ++ v)); done).
  assert (str_substr line (u64 (zlen n + 2)) npos = Some v) as S2.
  { rewrite u64_small by lia. replace (zlen n + 2) with (zlen (n ++ bs ": ")) by (by rewrite zlen_app).
    unfold line. rewrite app_assoc. apply str_substr_end. unfold npos. lia. }
  unfold header_line. rewrite F, S1, S2. cbn [mbind option_bind].
  destruct (Z.eqb_spec (zlen n) npos) as [He|_]; [unfold npos in He; lia|].
  destruct line eqn:El; [|done]. apply (f_equal length) in El. unfold line in El. rewrite length_app in El. simpl in El. lia.
Qed.

Lemma hp_run_header p nv rest : header_ok nv -> hp_state p = kHeaderName ->
  hp_run p (print_header nv ++ rest) =
  if bool_decide (nv.1 = bs "Content-Length") then n ← stoul nv.2; hp_run (with_length (add_header p nv) n) rest
  else hp_run (add_header p nv) rest.
Proof.
  intros Hok Hs. pose proof Hok as (_ & Hn & Hv & _). unfold print_header. set (line := nv.1 ++ bs ": " ++ nv.2).
  assert ((nv.1 ++ bs ": " ++ nv.2 ++ CRLF) ++ rest = line ++ CRLF ++ rest) as -> by (unfold line; by rewrite <- !app_assoc).
  assert (LF ∉ line) as Hlf.
  { unfold line. rewrite !not_elem_of_app. split_and!; [done| |done]. by apply (bool_decide_unpack _). }
  rewrite (hp_run_line p _ (length line)) by (try apply find_crlf; congruence).
  rewrite take_app_length, app_assoc, drop_app_length' by (rewrite length_app; done).
  unfold hp_line. rewrite Hs. unfold line. rewrite header_line_print by done. case_bool_decide; [by destruct (stoul nv.2)|done].
Qed.

Lemma hp_run_headers hs rest : forall p, Forall header_ok hs -> Forall (fun nv => nv.1 <> bs "Content-Length") hs -> hp_state p = kHeaderName ->
  hp_run p (concat (map print_header hs) ++ rest) = hp_run (foldl add_header p hs) rest.
Proof.
  induction hs as [|nv hs IH]; intros p Hok Hne Hs; [done|]. apply Forall_cons in Hok as [Hok Hoks]. apply Forall_cons in Hne as [Hne Hnes].
  cbn [map concat foldl]. rewrite <- app_assoc, hp_run_header by done. rewrite bool_decide_eq_false_2 by done. by apply IH.
Qed.

Lemma stoul_to_string n : 0 <= n < 2 ^ 64 -> stoul (to_string n) = Some n.
Proof.
  intros Hn. pose proof (atoi_to_string n Hn) as Ha. pose proof (to_string_digits n) as Hd. pose proof (to_string_nonempty n) as Hl.
  unfold stoul, atoi in *. destruct (to_string n) as [|c s]; [simpl in Hl; lia|]. apply Forall_cons in Hd as [Hc _].
  pose proof Hc as Hc'. unfold is_digit in Hc'. simpl in *. unfold is_space in *.
  destruct (Z.eqb_spec (b2z c) 32) as [|_]; [lia|]. replace (b2z c <=? 13) with false in * by lia. rewrite andb_false_r in *. simpl in *.
  destruct (Z.eqb_spec (b2z c) 45) as [|_]; [lia|]. destruct (Z.eqb_spec (b2z c) 43) as [|_]; [lia|].
  rewrite Hc in *. rewrite Ha. by destruct (Z.ltb_spec n (2 ^ 64)); [|lia].
Qed.

(** The request [r] sent with an explicit length of its body. *)
Definition with_content_length (r : HttpRequest) : HttpRequest :=
  mkReq (rq_method r) (rq_path r) (rq_query r) (rq_version r) (hs_add (rq_headers r) (bs "Content-Length") (to_string (zlen (rq_body r)))) (rq_body r).

Record request_ok (r : HttpRequest) : Prop := {
  ro_line : line_ok r;
  ro_headers : Forall header_ok (hs_all (rq_headers r));
  ro_plain : Forall (fun nv => nv.1 <> bs "Content-Length") (hs_all (rq_headers r));
  ro_made : exists hs, rq_headers r = foldl (fun h nv => hs_add h nv.1 nv.2) Headers_new hs;
  ro_body : zlen (rq_body r) < 2 ^ 64;
}.

Lemma foldl_add_all hs : forall h, hs_all (foldl (fun h nv => hs_add h nv.1 nv.2) h hs) = hs_all h ++ hs.
Proof. induction hs as [|[n v] hs IH]; intros h; simpl; [by rewrite app_nil_r|]. rewrite IH. simpl. by rewrite <- app_assoc. Qed.

Lemma foldl_add_header hs : forall p,
  foldl add_header p hs =
  with_req p (mkReq (rq_method (hp_req p)) (rq_path (hp_req p)) (rq_query (hp_req p)) (rq_version (hp_req p))
                    (foldl (fun h nv => hs_add h nv.1 nv.2) (rq_headers (hp_req p)) hs) (rq_body (hp_req p))).
Proof. induction hs as [|nv hs IH]; intros p; simpl; [by destruct p as [? []]|]. rewrite IH. done. Qed.

Lemma first_line_LF r : line_ok r -> LF ∉ first_line r.
Proof.
  intros [[_ H1] [[_ H2] _] [_ H3] H4 _]. assert (LF ∉ bs " ") as Hs by (by apply (bool_decide_unpack _)).
  assert (LF ∉ print_target (rq_path r) (rq_query r)) as Ht.
  { unfold print_target. destruct (rq_query r); [done|]. rewrite !not_elem_of_app. split_and!; [done| |done]. by apply (bool_decide_unpack _). }
  unfold first_line. rewrite !not_elem_of_app. split_and!; done.
Qed.

(** The end of the headers and the body. *)
Lemma hp_run_body p body extra n :
  hp_state p = kHeaderName -> hp_chunked p = false -> hp_content_length p = n -> n = zlen body ->
  rq_body (hp_req p) = [] ->
  outcome (hp_run p (CRLF ++ body ++ extra)) =
  Some (kOk, kDone, mkReq (rq_method (hp_req p)) (rq_path (hp_req p)) (rq_query (hp_req p)) (rq_version (hp_req p)) (rq_headers (hp_req p)) body).
Proof.
  intros Hs Hch Hcl -> Hb. rewrite (hp_run_line p (CRLF ++ body ++ extra) 0) by (try congruence; apply (find_crlf [] (body ++ extra)); apply not_elem_of_nil).
  change (take 0 (CRLF ++ body ++ extra)) with (@nil byte). change (drop (0 + 2) (CRLF ++ body ++ extra)) with (body ++ extra).
  unfold hp_line. rewrite Hs. cbn [header_line]. rewrite Hch, Hcl. destruct body as [|c body].
  - change (zlen [] >? 0) with false. cbn. destruct (hp_req p). simpl in *. by subst.
  - assert ((zlen (c :: body) >? 0) = true) as -> by (rewrite zlen_cons; pose proof (zlen_nonneg body); lia). cbn [orb mbind option_bind].
    unfold hp_run. cbn [hp_loop hp_state with_state hp_content_length app]. rewrite Hcl, app_comm_cons, zlen_app. pose proof (zlen_nonneg extra).
    assert ((zlen (c :: body) + zlen extra >=? zlen (c :: body)) = true) as -> by lia. rewrite to_nat_zlen, take_app_length. done.
Qed.

Lemma parse_print_ok (r : HttpRequest) (extra : bytes) :
  request_ok r ->
  outcome (hp_feed HttpParser_new (print_request (with_content_length r) ++ extra)) = Some (kOk, kDone, with_content_length r).
Proof.
  intros [Hl Hh Hp [hs Ehs] Hb]. pose proof (zlen_nonneg (rq_body r)) as H0.
  assert (hs_all (rq_headers r) = hs) as Ea by (by rewrite Ehs, foldl_add_all).
  set (cl := (bs "Content-Length", to_string (zlen (rq_body r)))).
  assert (header_ok cl) as Hcl.
  { split_and!; [by apply (bool_decide_unpack _)|by apply (bool_decide_unpack _)| |].
    - intros Hin. pose proof (to_string_digits (zlen (rq_body r))) as Hd. rewrite Forall_forall in Hd. pose proof (Hd LF Hin) as Hlf. discriminate Hlf.
    - pose proof (to_string_length (zlen (rq_body r))). cbn [cl fst snd]. change (zlen (bs "Content-Length")) with 14. lia. }
  assert (print_request (with_content_length r) ++ extra =
    first_line r ++ CRLF ++ concat (map print_header hs) ++ print_header cl ++ CRLF ++ rq_body r ++ extra) as ->.
  { unfold print_request, with_content_length. cbn [rq_headers rq_body hs_add hs_all]. rewrite Ea, map_app, concat_app. cbn [map concat].
    rewrite app_nil_r, <- !app_assoc. done. }
  rewrite hp_feed_run. cbn [hp_buffer HttpParser_new app].
  rewrite (hp_run_line _ _ (length (first_line r))) by (try apply find_crlf, first_line_LF, Hl; done).
  rewrite take_app_length, app_assoc, drop_app_length' by (rewrite length_app; done).
  unfold hp_line at 1. cbn [hp_state HttpParser_new]. rewrite request_line_print by done. cbn [mbind option_bind].
  rewrite hp_run_headers by (rewrite <- ?Ea; done). rewrite foldl_add_header.
  rewrite hp_run_header by done. cbn [cl fst snd]. rewrite bool_decide_eq_true_2 by done. rewrite stoul_to_string by lia. cbn [mbind option_bind].
  rewrite (hp_run_body _ _ extra (zlen (rq_body r))) by done.
  unfold with_content_length, add_header. cbn [hp_req with_req with_state with_length rq_method rq_path rq_query rq_version rq_headers fst snd].
  by rewrite Ehs.
Qed.

(** C32: parsing is a left inverse of printing.  Every request whose words contain no separators,
    printed with the length of its body, is recognised as complete, and the parser returns
    the same method, path, query, version, headers (in order) and body; bytes after the body
    are ignored. *)
Theorem http_parse_print (r : HttpRequest) (extra : bytes) :
  request_ok r ->
  outcome (hp_feed HttpParser_new (print_request (with_content_length r) ++ extra)) = Some (kOk, kDone, with_content_length r).
Proof. apply parse_print_ok. Qed.

Definition demo_request : HttpRequest :=
  mkReq (bs "PUT") (bs "/kv/a") (bs "ttl=5") (bs "HTTP/1.1") (hs_add (hs_add Headers_new (bs "Host") (bs "kv")) (bs "X-Id") (bs "a: b")) (bs "value").

Lemma http_parse_print_witness :
  outcome (hp_feed HttpParser_new (print_request (with_content_length demo_request) ++ bs "GET")) = Some (kOk, kDone, with_content_length demo_request).
Proof.
  apply http_parse_print. split.
  - split; repeat split; by apply (bool_decide_unpack _).
  - repeat constructor; by apply (bool_decide_unpack _).
  - repeat constructor; by apply (bool_decide_unpack _).
  - by exists [(bs "Host", bs "kv"); (bs "X-Id", bs "a: b")].
  - by apply (bool_decide_unpack _).
Defined.

(** ** Exceptions *)

(** A header line that ends in its colon makes [substr] throw, in any state of the headers. *)
Lemma header_line_throws p name : chr ":" ∉ name -> zlen name < 2 ^ 63 -> header_line p (name ++ bs ":") = None.
Proof.
  intros Hn Hz. pose proof (zlen_nonneg name). set (line := name ++ bs ":").
  assert (str_find_char line (chr ":") 0 = zlen name) as F by (by apply (str_find_at _ _ 0 [] name [])).
  assert (str_substr line 0 (zlen name) = Some name) as S1 by (apply (str_substr_mid [] name (bs ":")); done).
  assert (str_substr line (u64 (zlen name + 2)) npos = None) as S2.
  { unfold str_substr. rewrite u64_small by lia. unfold line. rewrite zlen_app. change (zlen (bs ":")) with 1.
    by destruct (Z.gtb_spec (zlen name + 2) (zlen name + 1)); [|lia]. }
  unfold header_line. rewrite F, S1, S2. destruct (Z.eqb_spec (zlen name) npos) as [He|_]; [unfold npos in He; lia|].
  destruct line eqn:El; [|done]. apply (f_equal length) in El. unfold line in El. rewrite length_app in El. simpl in El. lia.
Qed.

(** A client can end the gateway.  For every request line and header name, a request with an
    empty header value and nothing after the colon makes [feed] throw; the exception leaves
    the coroutine that called it, whose promise calls [std::terminate]. *)
Theorem http_parser_throws (r : HttpRequest) (name extra : bytes) :
  line_ok r -> chr ":" ∉ name -> LF ∉ name -> zlen name < 2 ^ 63 ->
  hp_feed HttpParser_new (first_line r ++ CRLF ++ name ++ bs ":" ++ CRLF ++ extra) = None.
Proof.
  intros Hl Hc Hn Hz. set (data := first_line r ++ _).
  enough (hp_run (with_buffer HttpParser_new data) data = None) by done.
  unfold data at 2. rewrite (hp_run_line _ _ (length (first_line r))) by (try apply find_crlf, first_line_LF, Hl; done).
  rewrite take_app_length, app_assoc, drop_app_length' by (rewrite length_app; done).
  unfold hp_line at 1. cbn [hp_state HttpParser_new with_buffer]. rewrite request_line_print by done. cbn [mbind option_bind].
  assert (name ++ bs ":" ++ CRLF ++ extra = (name ++ bs ":") ++ CRLF ++ extra) as -> by (by rewrite <- app_assoc).
  rewrite (hp_run_line _ _ (length (name ++ bs ":"))); [|done|].
  2: { apply find_crlf. rewrite not_elem_of_app. split; [done|by apply (bool_decide_unpack _)]. }
  rewrite take_app_length. unfold hp_line at 1. cbn [hp_state with_state]. by rewrite header_line_throws.
Qed.

Lemma http_parser_throws_witness :
  hp_feed HttpParser_new (bs "GET / HTTP/1.1" ++ CRLF ++ bs "X-Empty:" ++ CRLF ++ CRLF) = None.
Proof.
  apply (http_parser_throws (mkReq (bs "GET") (bs "/") [] (bs "HTTP/1.1") Headers_new []) (bs "X-Empty") CRLF).
  - split; repeat split; by apply (bool_decide_unpack _).
  - by apply (bool_decide_unpack _).
  - by apply (bool_decide_unpack _).
  - reflexivity.
Defined.

(** ** Headers *)

(** The map holds, for each name up to case, the last value added. *)
Definition last_value (name : bytes) (l : list (bytes * bytes)) : option bytes :=
  snd <$> last (filter (fun p => toLower p.1 = name) l).
Definition hs_ok (h : Headers) : Prop := forall name, hs_lower h !! name = last_value name (hs_all h).

Lemma hs_ok_new : hs_ok Headers_new.
Proof. done. Qed.

Lemma hs_ok_add h n v : hs_ok h -> hs_ok (hs_add h n v).
Proof.
  intros Hok name. unfold last_value. cbn [hs_add hs_all hs_lower]. rewrite filter_app, filter_cons, filter_nil. destruct (decide _) as [<-|Hne]; simpl.
  - by rewrite lookup_insert_eq, last_snoc.
  - rewrite lookup_insert_ne, app_nil_r by done. apply Hok.
Qed.

Lemma hs_ok_remove h n : hs_ok h -> hs_ok (hs_remove h n).
Proof.
  intros Hok name. unfold last_value. cbn [hs_remove hs_all hs_lower]. destruct (decide (toLower n = name)) as [<-|Hne].
  - rewrite lookup_delete_eq. rewrite filter_none; [done|]. intros p [Hp _]%list_elem_of_filter. done.
  - rewrite lookup_delete_ne, Hok by done. unfold last_value. rewrite list_filter_filter_l; [done|]. intros p Hp Hq. congruence.
Qed.

(** ** Routing *)

Definition slash_or_end (s : bytes) : Prop := s = [] \/ exists s', s = chr "/" :: s'.

Inductive matches : bytes -> bytes -> Prop :=
| m_nil : matches [] []
| m_char c pat path : c <> chr ":" -> matches pat path -> matches (c :: pat) (c :: path)
| m_param name value pat path :
    chr "/" ∉ name -> chr "/" ∉ value -> slash_or_end pat -> slash_or_end path -> value ++ path <> [] ->
    matches pat path -> matches (chr ":" :: name ++ pat) (value ++ path).

Lemma cut_slash_spec s : exists a b, cut_slash s = (a, b) /\ s = a ++ b /\ chr "/" ∉ a /\ slash_or_end b.
Proof.
  unfold cut_slash. induction s as [|c s (a & b & E & -> & Ha & Hb)]; simpl.
  { exists [], []. split_and!; [done|done|apply not_elem_of_nil|by left]. }
  case_bool_decide as Hc; [subst; exists [], (chr "/" :: a ++ b); split_and!; [done|done|apply not_elem_of_nil|right; by eexists]|].
  exists (c :: a), b. split; [|split_and!; [done|by apply not_elem_of_cons|done]].
  destruct (find_index _ (a ++ b)) as [i|]; simpl in *; by injection E as -> ->.
Qed.

Lemma cut_slash_app a b : chr "/" ∉ a -> slash_or_end b -> cut_slash (a ++ b) = (a, b).
Proof.
  intros Ha Hb. unfold cut_slash. destruct Hb as [->|[s ->]].
  - rewrite app_nil_r, find_index_none; [done|by apply no_char].
  - rewrite find_index_app; [|by apply no_char|by apply bool_decide_eq_true_2]. by rewrite take_app_length, drop_app_length.
Qed.

Lemma match_loop_spec fuel : forall pat path params, (length pat < fuel)%nat ->
  ((match_loop fuel pat path params).1 = true <-> matches pat path).
Proof.
  induction fuel as [|fuel IH]; intros pat path params Hf; [lia|]. cbn [match_loop]. destruct pat as [|c pat].
  { simpl. rewrite bool_decide_eq_true. split; [intros ->; constructor|inversion 1; done]. }
  destruct path as [|d path].
  { simpl. split; [done|]. inversion 1; congruence. }
  case_bool_decide as Hc.
  - subst c. destruct (cut_slash_spec pat) as (name & pat2 & -> & -> & Hn & Hp2).
    destruct (cut_slash_spec (d :: path)) as (value & path2 & Ev & Hpath & Hv & Hq2). rewrite Ev.
    rewrite IH by (simpl in Hf; rewrite length_app in Hf; lia). rewrite Hpath. split.
    + intros Hm. apply m_param; [done..| |done]. by rewrite <- Hpath.
    + intros Hm. inversion Hm as [|? ? ? ? ? E1 E2|name' value' pat' path' Hn' Hv' Hp' Hq' Hne Hm' E1 E2]; [done|].
      pose proof (cut_slash_app name' pat' Hn' Hp') as A1. rewrite E1, cut_slash_app in A1 by done.
      pose proof (cut_slash_app value' path' Hv' Hq') as A2. rewrite E2, cut_slash_app in A2 by done.
      by injection A1 as -> ->; injection A2 as -> ->.
  - case_bool_decide as Hd; simpl.
    + split; [done|]. inversion 1; congruence.
    + subst d. rewrite IH by (simpl in Hf; lia). split; [by constructor|]. inversion 1; [done|congruence].
Qed.

(** A route is chosen exactly for the paths its pattern describes: character by character,
    a [:name] standing for a run of characters without a slash; and the first route that has
    the request's method and matches answers, with 404 when there is none. *)
Theorem router_dispatch_spec (rs : list Route) (req : HttpRequest) :
  let fits r := ro_method r = rq_method req /\ (ro_pattern r = rq_path req \/ matches (ro_pattern r) (rq_path req)) in
  (exists pre r post, rs = pre ++ r :: post /\ Forall (fun r' => ~ fits r') pre /\ fits r /\ dispatch_route rs req = ro_handler r req) \/
  (Forall (fun r => ~ fits r) rs /\ dispatch_route rs req = not_found).
Proof.
  intros fits. assert (forall r, bool_decide (ro_method r = rq_method req) && (route_match (ro_pattern r) (rq_path req)).1 = true <-> fits r) as Hf.
  { intros r. rewrite andb_true_iff, bool_decide_eq_true. unfold fits, route_match. apply and_iff_compat_l.
    case_bool_decide as E; [simpl; tauto|]. rewrite match_loop_spec by lia. tauto. }
  induction rs as [|r rs IH]; simpl; [by right|].
  destruct (bool_decide (ro_method r = rq_method req) && (route_match (ro_pattern r) (rq_path req)).1) eqn:E.
  - left. exists [], r, rs. split_and!; [done|constructor|by apply Hf|done].
  - assert (~ fits r) as Hn by (rewrite <- Hf; congruence). destruct IH as [(pre & r' & post & -> & Hpre & Hr & ->)|[Hall ->]].
    + left. exists (r :: pre), r', post. split_and!; auto.
    + right. auto.
Qed.
