(* ===== verification/Timers.v ===== *)
(** * Timers and event registration of skynet

    [core/timer_wheel], [core/executor] and [net/io_context].  Coroutine handles and callbacks
    are names. *)

From Stdlib Require Import ZArith Lia.
From stdpp Require Import base numbers strings list gmap.
From S2P Require Import Prelude.
Local Open Scope Z_scope.

(** ** [TimerWheel] *)

Record TimerEntry := mkTimer { te_expire : Z; te_coro : nat; te_id : Z; te_canceled : bool }.

Record TimerWheel := mkWheel {
  tw_wheel : list (list TimerEntry);    (* wheel_, copies of the entries by slot *)
  tw_size : Z;
  tw_tick : Z;
  tw_current : Z;
  tw_next_id : Z;
  tw_entries : list TimerEntry;         (* all_entries_ *)
}.

Definition TimerWheel_new (wheel_size tick_ms : Z) : TimerWheel :=
  mkWheel (replicate (Z.to_nat wheel_size) []) wheel_size tick_ms 0 1 [].

Definition slotFor (tw : TimerWheel) (expire : Z) : nat := Z.to_nat (expire mod tw_size tw).

Definition ticks_for (tw : TimerWheel) (ms : Z) : Z := u64 (u64 (ms + tw_tick tw) - 1) / tw_tick tw.

Definition addTimer (tw : TimerWheel) (timeout_ms : Z) (coro : nat) : TimerWheel * Z :=
  let t := ticks_for tw timeout_ms in
  let total_ticks := if t =? 0 then 1 else t in
  let expire := u64 (tw_current tw + total_ticks) in
  let id := tw_next_id tw in
  let entry := mkTimer expire coro id false in
  (mkWheel (alter (fun b => b ++ [entry]) (slotFor tw expire) (tw_wheel tw)) (tw_size tw) (tw_tick tw) (tw_current tw)
           (u64 (id + 1)) (tw_entries tw ++ [entry]), id).

(** The first entry with the id; the copies in the wheel keep their flag. *)
Fixpoint cancel_first (id : Z) (l : list TimerEntry) : list TimerEntry :=
  match l with
  | [] => []
  | e :: l => if te_id e =? id then mkTimer (te_expire e) (te_coro e) (te_id e) true :: l else e :: cancel_first id l
  end.

Definition cancelTimer (tw : TimerWheel) (id : Z) : TimerWheel :=
  mkWheel (tw_wheel tw) (tw_size tw) (tw_tick tw) (tw_current tw) (tw_next_id tw) (cancel_first id (tw_entries tw)).

Definition tw_advance (tw : TimerWheel) (elapsed_ms : Z) : TimerWheel :=
  mkWheel (tw_wheel tw) (tw_size tw) (tw_tick tw) (u64 (tw_current tw + ticks_for tw elapsed_ms)) (tw_next_id tw) (tw_entries tw).

Definition is_over (now : Z) (e : TimerEntry) : bool := (te_expire e <=? now) || te_canceled e.

(** The second loop of [getExpired]: the handles that fire and the entries kept. *)
Fixpoint take_expired (now : Z) (l : list TimerEntry) : list nat * list TimerEntry :=
  match l with
  | [] => ([], [])
  | e :: l =>
      let (fired, kept) := take_expired now l in
      if is_over now e then ((if te_canceled e then fired else te_coro e :: fired), kept) else (fired, e :: kept)
  end.

Definition getExpired (tw : TimerWheel) : list nat * TimerWheel :=
  let (fired, kept) := take_expired (tw_current tw) (tw_entries tw) in
  (fired, mkWheel (map (filter (fun e => is_over (tw_current tw) e = false)) (tw_wheel tw)) (tw_size tw) (tw_tick tw)
                  (tw_current tw) (tw_next_id tw) kept).

(** ** [Executor] *)

Definition EPOLLET : Z := 2 ^ 31.

Record Executor := mkExec {
  ex_ready : list nat;               (* ready_queue_ *)
  ex_callbacks : gmap Z nat;         (* io_callbacks_ *)
  ex_interest : gmap Z Z;            (* the epoll set *)
  ex_timers : TimerWheel;
}.

Definition Executor_new : Executor := mkExec [] ∅ ∅ (TimerWheel_new 1024 50).

Definition ex_schedule (x : Executor) (c : nat) : Executor := mkExec (ex_ready x ++ [c]) (ex_callbacks x) (ex_interest x) (ex_timers x).

(** [EPOLL_CTL_ADD] of a registered descriptor fails, and the error is ignored. *)
Definition epoll_add (s : gmap Z Z) (fd ev : Z) : gmap Z Z := match s !! fd with Some _ => s | None => <[fd := ev]> s end.
Definition epoll_mod (s : gmap Z Z) (fd ev : Z) : gmap Z Z := match s !! fd with Some _ => <[fd := ev]> s | None => s end.

Definition addIO (x : Executor) (fd events : Z) (c : nat) : Executor :=
  mkExec (ex_ready x) (<[fd := c]> (ex_callbacks x)) (epoll_add (ex_interest x) fd (Z.lor events EPOLLET)) (ex_timers x).

Definition removeIO (x : Executor) (fd : Z) : Executor :=
  mkExec (ex_ready x) (delete fd (ex_callbacks x)) (delete fd (ex_interest x)) (ex_timers x).

Definition ex_addTimer (x : Executor) (timeout_ms : Z) (c : nat) : Executor :=
  mkExec (ex_ready x) (ex_callbacks x) (ex_interest x) (addTimer (ex_timers x) timeout_ms c).1.

(** [processIO] on the descriptors [epoll_wait] reports. *)
Fixpoint processIO (x : Executor) (fds : list Z) : Executor :=
  match fds with
  | [] => x
  | fd :: fds =>
      match ex_callbacks x !! fd with
      | Some c => processIO (mkExec (ex_ready x ++ [c]) (delete fd (ex_callbacks x)) (ex_interest x) (ex_timers x)) fds
      | None => processIO x fds
      end
  end.

(** The timer part of one round of [run]: the handles to resume. *)
Definition ex_timers_round (x : Executor) (elapsed_ms : Z) : list nat * Executor :=
  let tw := if elapsed_ms >? 0 then tw_advance (ex_timers x) elapsed_ms else ex_timers x in
  let (fired, tw) := getExpired tw in
  (fired, mkExec (ex_ready x) (ex_callbacks x) (ex_interest x) tw).

(** ** [IOContext] *)

Record IOContext := mkCtx { io_callbacks : gmap Z nat; io_interest : gmap Z Z }.
Definition IOContext_new : IOContext := mkCtx ∅ ∅.

Definition watchOnce (c : IOContext) (fd events : Z) (cb : nat) : IOContext :=
  let ev := Z.lor events EPOLLET in
  mkCtx (<[fd := cb]> (io_callbacks c))
        (match io_callbacks c !! fd with Some _ => epoll_mod (io_interest c) fd ev | None => epoll_add (io_interest c) fd ev end).

Definition io_modify (c : IOContext) (fd events : Z) : IOContext := mkCtx (io_callbacks c) (epoll_mod (io_interest c) fd (Z.lor events EPOLLET)).
Definition io_remove (c : IOContext) (fd : Z) : IOContext := mkCtx (delete fd (io_callbacks c)) (delete fd (io_interest c)).

(** One reported descriptor of [poll]: the registration is gone before the callback runs. *)
Definition poll_one (c : IOContext) (fd : Z) : option nat * IOContext :=
  match io_callbacks c !! fd with
  | Some cb => (Some cb, mkCtx (delete fd (io_callbacks c)) (delete fd (io_interest c)))
  | None => (None, c)
  end.

(** [add] is another name of it. *)
Definition io_add (c : IOContext) (fd events : Z) (cb : nat) : IOContext := watchOnce c fd events cb.

(** [poll] on the reported descriptors; [run] is what a callback does to the context (it may
    register descriptors again).  The callbacks run, in order. *)
Fixpoint io_poll (run : nat -> IOContext -> IOContext) (fds : list Z) (c : IOContext) : list nat * IOContext :=
  match fds with
  | [] => ([], c)
  | fd :: fds =>
      let (cb, c) := poll_one c fd in
      let c := match cb with Some k => run k c | None => c end in
      let (ks, c) := io_poll run fds c in
      (match cb with Some k => k :: ks | None => ks end, c)
  end.

(** ** Theorems *)

Definition due (now : Z) (e : TimerEntry) : Prop := te_expire e <= now /\ te_canceled e = false.
#[export] Instance due_dec now e : Decision (due now e).
Proof. unfold due. apply _. Defined.

(** A timer fires, is dropped or stays. *)
Lemma over_cases now e :
  (due now e /\ is_over now e = true /\ te_canceled e = false) \/
  (~ due now e /\ is_over now e = true /\ te_canceled e = true) \/ (~ due now e /\ is_over now e = false).
Proof. unfold due, is_over. destruct (Z.leb_spec (te_expire e) now), (te_canceled e); simpl; intuition (lia || congruence). Qed.

Lemma take_expired_spec now l :
  take_expired now l = (te_coro <$> filter (due now) l, filter (fun e => is_over now e = false) l).
Proof.
  induction l as [|e l IH]; [done|]. cbn [take_expired]. rewrite IH, !filter_cons. destruct (over_cases now e) as [(Hd & -> & ->)|[(Hd & -> & ->)|(Hd & ->)]].
  - rewrite decide_True, decide_False by done. done.
  - rewrite !decide_False by done. done.
  - rewrite decide_False, decide_True by done. done.
Qed.

(** Rounds of the executor: time passes, then the expired timers are taken. *)
Fixpoint tw_run (tw : TimerWheel) (es : list Z) : list nat * TimerWheel :=
  match es with
  | [] => ([], tw)
  | e :: es =>
      let (fired, tw) := getExpired (tw_advance tw e) in
      let (more, tw) := tw_run tw es in (fired ++ more, tw)
  end.

Definition ceil_div (a t : Z) : Z := (a + t - 1) / t.
Definition ticks_sum (t : Z) (es : list Z) : Z := foldr (fun e s => ceil_div e t + s) 0 es.
Definition ms_sum (es : list Z) : Z := foldr Z.add 0 es.

Lemma ceil_div_bounds a t : 0 < t -> a <= ceil_div a t * t < a + t.
Proof. intros Ht. unfold ceil_div. pose proof (Z.div_mod (a + t - 1) t). pose proof (Z.mod_pos_bound (a + t - 1) t Ht). lia. Qed.

Lemma ticks_sum_ge t es : 0 < t -> ms_sum es <= ticks_sum t es * t.
Proof. intros Ht. induction es as [|e es IH]; simpl; [lia|]. pose proof (ceil_div_bounds e t Ht). lia. Qed.

Lemma ticks_sum_nonneg t es : 0 < t -> Forall (fun e => 0 <= e) es -> 0 <= ticks_sum t es.
Proof. intros Ht. induction 1 as [|e es He _ IH]; simpl; [lia|]. pose proof (ceil_div_bounds e t Ht). nia. Qed.

Lemma ticks_for_ceil tw ms : 0 < tw_tick tw -> 0 <= ms -> ms + tw_tick tw < 2 ^ 64 -> ticks_for tw ms = ceil_div ms (tw_tick tw).
Proof. intros Ht Hm Hb. unfold ticks_for, ceil_div. rewrite (u64_small (ms + _)) by lia. by rewrite u64_small by lia. Qed.

(** Time steps that do not overflow. *)
Definition steps_ok (tw : TimerWheel) (es : list Z) : Prop :=
  0 < tw_tick tw /\ 0 <= tw_current tw /\ Forall (fun e => 0 <= e /\ e + tw_tick tw < 2 ^ 64) es /\
  tw_current tw + ticks_sum (tw_tick tw) es < 2 ^ 64.

Lemma filter_due_split now now' l : now <= now' ->
  filter (due now') l ≡ₚ filter (due now) l ++ filter (due now') (filter (fun e => is_over now e = false) l).
Proof.
  intros Hn. induction l as [|e l IH]; [done|]. rewrite !filter_cons. destruct (over_cases now e) as [(Hd & -> & _)|[(Hd & -> & Hc)|(Hd & ->)]].
  - rewrite (decide_True (P := due now' e)) by (destruct Hd; split; [lia|done]). rewrite decide_True, decide_False by done. by rewrite IH.
  - rewrite (decide_False (P := due now' e)) by (intros [_ ?]; congruence). by rewrite !decide_False by done.
  - rewrite (decide_False (P := due now e)), (decide_True (P := false = false)) by done. rewrite filter_cons.
    destruct (decide (due now' e)); [|done]. by rewrite IH, Permutation_middle.
Qed.

(** In a run every timer that becomes due and was not canceled fires once; the others stay. *)
Lemma tw_run_fired es : forall tw, steps_ok tw es -> es <> [] ->
  let now := tw_current tw + ticks_sum (tw_tick tw) es in
  let '(fired, tw') := tw_run tw es in
  fired ≡ₚ te_coro <$> filter (due now) (tw_entries tw) /\
  tw_entries tw' = filter (fun e => is_over now e = false) (tw_entries tw) /\ tw_current tw' = now.
Proof.
  induction es as [|e es IH]; intros tw (Ht & Hc & Hes & Hb) Hne; [done|]. cbv zeta. apply Forall_cons in Hes as [[He Het] Hes].
  cbn [ticks_sum foldr] in Hb. fold (ticks_sum (tw_tick tw) es) in Hb.
  pose proof (ticks_sum_nonneg (tw_tick tw) es Ht ltac:(eapply Forall_impl; [exact Hes|]; simpl; lia)) as Hs0.
  pose proof (ceil_div_bounds e (tw_tick tw) Ht) as Hcd. assert (0 <= ceil_div e (tw_tick tw)) as Hcd0 by nia.
  set (now1 := tw_current tw + ceil_div e (tw_tick tw)).
  assert (getExpired (tw_advance tw e) = (te_coro <$> filter (due now1) (tw_entries tw),
    mkWheel (map (filter (fun e => is_over now1 e = false)) (tw_wheel tw)) (tw_size tw) (tw_tick tw) now1 (tw_next_id tw)
            (filter (fun e => is_over now1 e = false) (tw_entries tw)))) as Hg.
  { unfold getExpired, tw_advance. cbn [tw_current tw_entries tw_wheel tw_size tw_tick tw_next_id].
    rewrite ticks_for_ceil by lia. rewrite u64_small by lia. by rewrite take_expired_spec. }
  cbn [tw_run]. rewrite Hg. set (tw1 := mkWheel _ _ _ _ _ _).
  assert (tw_current tw + ticks_sum (tw_tick tw) (e :: es) = now1 + ticks_sum (tw_tick tw) es) as En by (cbn [ticks_sum foldr]; unfold now1, ticks_sum; lia).
  destruct (decide (es = [])) as [->|Hes0].
  { cbn [tw_run]. rewrite En. cbn [ticks_sum foldr]. rewrite Z.add_0_r, app_nil_r. done. }
  specialize (IH tw1). destruct (tw_run tw1 es) as [more tw'].
  destruct IH as (I1 & I2 & I3); [split_and!; cbn; [done|unfold now1; lia|done|unfold now1; lia]|done|]. cbn in I1, I2, I3.
  rewrite En. split_and!; [|rewrite I2|done].
  - rewrite I1, (filter_due_split now1 (now1 + ticks_sum (tw_tick tw) es) (tw_entries tw)) by lia. by rewrite fmap_app.
  - rewrite list_filter_filter_l; [done|]. unfold is_over. intros x. destruct (te_canceled x); rewrite ?orb_true_r, ?orb_false_r; lia.
Qed.

(** C34: timers fire exactly once and not late.  Let a timer of [timeout] milliseconds be added and
    time pass in any steps that sum up to at least [timeout] (and more than nothing), the
    expired timers being taken after each step.  Then the timer's coroutine is among the
    ones fired exactly once, the others fired are exactly the earlier timers due by then and
    not canceled, and exactly the timers neither due nor canceled remain. *)
Theorem timer_fires_once_not_late (tw : TimerWheel) (timeout : Z) (c : nat) (es : list Z) :
  let tw1 := (addTimer tw timeout c).1 in
  steps_ok tw1 es -> 0 <= timeout -> timeout + tw_tick tw < 2 ^ 64 ->
  tw_current tw + ceil_div timeout (tw_tick tw) + 1 < 2 ^ 64 ->
  0 < ms_sum es -> timeout <= ms_sum es ->
  let now := tw_current tw + ticks_sum (tw_tick tw) es in
  let '(fired, tw2) := tw_run tw1 es in
  fired ≡ₚ c :: (te_coro <$> filter (due now) (tw_entries tw)) /\
  tw_entries tw2 = filter (fun e => is_over now e = false) (tw_entries tw).
Proof.
  intros tw1 Hok Ht0 Htb Hov Hpos Hsum now. pose proof Hok as (Ht & Hc & _). cbn in Ht, Hc.
  assert (es <> []) as Hne by (intros ->; simpl in Hpos; lia). pose proof (tw_run_fired es tw1 Hok Hne) as Hr. cbv zeta in Hr.
  change (tw_current tw1) with (tw_current tw) in Hr. change (tw_tick tw1) with (tw_tick tw) in Hr. fold now in Hr.
  pose proof (ticks_sum_ge (tw_tick tw) es Ht) as Hge. pose proof (ceil_div_bounds timeout (tw_tick tw) Ht) as Hcd.
  assert (0 <= ceil_div timeout (tw_tick tw)) as Hcd0 by nia.
  set (k := if ceil_div timeout (tw_tick tw) =? 0 then 1 else ceil_div timeout (tw_tick tw)).
  assert (0 <= k <= ticks_sum (tw_tick tw) es /\ k <= ceil_div timeout (tw_tick tw) + 1) as [Hk Hk1].
  { unfold k. destruct (Z.eqb_spec (ceil_div timeout (tw_tick tw)) 0); nia. }
  set (entry := mkTimer (tw_current tw + k) c (tw_next_id tw) false).
  assert (tw_entries tw1 = tw_entries tw ++ [entry]) as Ee.
  { unfold tw1, addTimer. cbn [fst tw_entries]. rewrite ticks_for_ceil by lia. fold k. by rewrite u64_small by lia. }
  assert (due now entry) as Hdue by (split; [cbn; unfold now; lia|done]).
  assert (is_over now entry = true) as Hover by (unfold is_over; cbn; unfold now; lia).
  destruct (tw_run tw1 es) as [fired tw2]. destruct Hr as (R1 & R2 & _). rewrite Ee, filter_app in R1, R2.
  rewrite filter_cons_True, filter_nil in R1 by done. rewrite (filter_cons_False _ entry), filter_nil, app_nil_r in R2 by congruence.
  split; [|done]. rewrite R1, fmap_app. cbn. by rewrite Permutation_app_comm.
Qed.

Lemma timer_fires_once_not_late_witness :
  (tw_run (addTimer (addTimer (TimerWheel_new 1024 50) 500 1).1 120 2).1 [60; 0; 70]).1 ≡ₚ [2%nat].
Proof.
  pose proof (timer_fires_once_not_late (addTimer (TimerWheel_new 1024 50) 500 1).1 120 2 [60; 0; 70]) as H. cbv zeta in H.
  destruct (tw_run _ [60; 0; 70]) as [fired tw2]. apply H; clear H.
  - split_and!; [vm_compute; reflexivity|vm_compute; discriminate| |vm_compute; reflexivity].
    repeat constructor; vm_compute; congruence.
  - lia.
  - vm_compute; reflexivity.
  - vm_compute; reflexivity.
  - vm_compute; reflexivity.
  - vm_compute; discriminate.
Defined.

(** But they can fire far too early: [advance] rounds every step up to a whole tick, so the
    wheel of the executor (ticks of 50 ms) fires a timer of one second after twenty rounds
    of one millisecond each. *)
Theorem timer_fires_early :
  (tw_run (addTimer (TimerWheel_new 1024 50) 1000 7).1 (replicate 20 1)).1 = [7%nat] /\ ms_sum (replicate 20 1) = 20.
Proof. vm_compute. split; reflexivity. Qed.

(** ** Registration *)

(** A descriptor is in the epoll set exactly while it has a callback. *)
Definition io_ok (c : IOContext) : Prop := forall fd, is_Some (io_interest c !! fd) <-> is_Some (io_callbacks c !! fd).

Inductive io_op := IoWatch (fd events : Z) (cb : nat) | IoModify (fd events : Z) | IoRemove (fd : Z) | IoPoll (fd : Z).

Definition io_step (c : IOContext) (o : io_op) : IOContext :=
  match o with
  | IoWatch fd ev cb => watchOnce c fd ev cb
  | IoModify fd ev => io_modify c fd ev
  | IoRemove fd => io_remove c fd
  | IoPoll fd => (poll_one c fd).2
  end.

Lemma epoll_mod_Some s fd ev fd' : is_Some (epoll_mod s fd ev !! fd') <-> is_Some (s !! fd').
Proof.
  unfold epoll_mod. destruct (s !! fd) eqn:E; [|done]. destruct (decide (fd = fd')) as [->|]; [|by rewrite lookup_insert_ne].
  rewrite lookup_insert_eq, E. split; by eauto.
Qed.

Lemma watchOnce_interest c fd ev cb fd' : io_ok c ->
  io_interest (watchOnce c fd ev cb) !! fd' = if decide (fd = fd') then Some (Z.lor ev EPOLLET) else io_interest c !! fd'.
Proof.
  intros Hok. specialize (Hok fd). unfold watchOnce. simpl.
  assert (match io_callbacks c !! fd with Some _ => epoll_mod (io_interest c) fd (Z.lor ev EPOLLET) | None => epoll_add (io_interest c) fd (Z.lor ev EPOLLET) end
          = <[fd := Z.lor ev EPOLLET]> (io_interest c)) as ->.
  { unfold epoll_mod, epoll_add. destruct (io_callbacks c !! fd) eqn:E1, (io_interest c !! fd) eqn:E2; try done.
    - destruct Hok as [_ Hok]. destruct Hok as [? ?]; [by eauto|congruence].
    - destruct Hok as [Hok _]. destruct Hok as [? ?]; [by eauto|congruence]. }
  destruct (decide (fd = fd')) as [->|]; [by rewrite lookup_insert_eq|by rewrite lookup_insert_ne].
Qed.

Lemma delete_Some {A B} (m1 : gmap Z A) (m2 : gmap Z B) fd fd' :
  (is_Some (m1 !! fd') <-> is_Some (m2 !! fd')) -> is_Some (delete fd m1 !! fd') <-> is_Some (delete fd m2 !! fd').
Proof.
  intros H. destruct (decide (fd = fd')) as [->|]; [|by rewrite !lookup_delete_ne]. rewrite !lookup_delete_eq. split; by intros [? ?].
Qed.

Lemma io_ok_step c o : io_ok c -> io_ok (io_step c o).
Proof.
  intros Hok fd'. destruct o as [fd ev cb|fd ev|fd|fd]; cbn [io_step].
  - rewrite watchOnce_interest by done. simpl. destruct (decide (fd = fd')) as [->|]; [|by rewrite lookup_insert_ne].
    rewrite lookup_insert_eq. split; by eauto.
  - simpl. by rewrite epoll_mod_Some.
  - by apply delete_Some.
  - unfold poll_one. destruct (io_callbacks c !! fd); [|done]. by apply delete_Some.
Qed.

(** A watch is one-shot and takes effect whatever happened before: after any history of
    registrations, changes, removals and reported events, [watchOnce] leaves the descriptor
    registered for exactly the requested events, the next report of it runs exactly its
    callback, and after that the descriptor is registered no more. *)
Theorem io_watch_once (ops : list io_op) (fd events : Z) (cb : nat) :
  let c := watchOnce (foldl io_step IOContext_new ops) fd events cb in
  io_interest c !! fd = Some (Z.lor events EPOLLET) /\ (poll_one c fd).1 = Some cb /\
  io_interest (poll_one c fd).2 !! fd = None /\ (poll_one (poll_one c fd).2 fd).1 = None.
Proof.
  intros c. assert (io_ok (foldl io_step IOContext_new ops)) as Hok.
  { assert (io_ok IOContext_new) as H0 by (intros ?; cbn; rewrite !lookup_empty; done). revert H0. generalize IOContext_new.
    induction ops as [|o ops IH]; intros c0 H0; [done|]. apply IH. by apply io_ok_step. }
  assert (io_callbacks c !! fd = Some cb) as Hcb by (unfold c, watchOnce; simpl; apply lookup_insert_eq).
  split; [unfold c; rewrite watchOnce_interest, decide_True by done; done|].
  unfold poll_one at 1 2 4. rewrite Hcb. cbn [fst snd io_interest]. split_and!; [done|apply lookup_delete_eq|].
  unfold poll_one. cbn [io_callbacks]. by rewrite lookup_delete_eq.
Qed.

(** The executor is not: it forgets the callback of a reported descriptor but keeps its
    registration, so a later [addIO] for other events is refused by epoll and ignored. *)
Theorem executor_rearm_ignored :
  let x := addIO (processIO (addIO Executor_new 5 1 10) [5]) 5 4 11 in
  ex_ready x = [10%nat] /\ ex_callbacks x !! 5 = Some 11%nat /\ ex_interest x !! 5 = Some (Z.lor 1 EPOLLET).
Proof. vm_compute. split_and!; reflexivity. Qed.
