(* ===== verification/Gateway.v ===== *)
(** * The gateway

    [proxy/connection_pool] and [gateway/main.cpp] of skynet.  The coroutines are modelled as
    the sequential programs they are between their [co_await]s: what a read, a write, a
    connection attempt or the load of [g_running] gives is an input, what is written to a
    socket is an output. *)

From Stdlib Require Import ZArith Lia.
From stdpp Require Import base numbers strings list gmap.
From S2P Require Import Prelude CppString LoadBalance Http.
Local Open Scope Z_scope.

(** ** [ConnectionPool] *)

Section Pool.
Context {Sock : Type}.

Record ConnPool := mkConnPool { cp_pools : gmap bytes (list Sock); cp_max_idle : Z }.
Definition ConnPool_new (max_idle : Z) : ConnPool := mkConnPool ∅ max_idle.

Definition pool_key (u : Upstream) : bytes := up_host u ++ bs ":" ++ to_string (up_port u).

(** [fresh] is the outcome of opening a new connection ([socket], [inet_pton], [connect] with a
    timeout); it is used only when no idle socket is there. *)
Definition cp_acquire (p : ConnPool) (u : Upstream) (fresh : option Sock) : option Sock * ConnPool :=
  match cp_pools p !! pool_key u with
  | Some (s :: idle) => (Some s, mkConnPool (<[pool_key u := idle]> (cp_pools p)) (cp_max_idle p))
  | _ => (fresh, p)
  end.

Definition cp_release (p : ConnPool) (s : Sock) (u : Upstream) : ConnPool :=
  let idle := default [] (cp_pools p !! pool_key u) in
  let idle := if zlen idle <? cp_max_idle p then idle ++ [s] else idle in
  mkConnPool (<[pool_key u := idle]> (cp_pools p)) (cp_max_idle p).
End Pool.
Arguments ConnPool : clear implicits.

(** ** Reading the request *)

Definition kMaxRequestBytes : Z := 2 ^ 20.

(** What [asyncRead] returns. *)
Inductive rd := RdData (chunk : bytes) | RdEnd.

(** [None] is an exception of the parser; otherwise whether a request was read, and [*out]. *)
Fixpoint readFullHttpRequest (p : HttpParser) (out : bytes) (reads : list rd) : option (bool * bytes) :=
  if zlen out >=? kMaxRequestBytes then Some (false, out)
  else
    match reads with
    | [] | RdEnd :: _ => Some (false, out)
    | RdData chunk :: reads =>
        let out := out ++ chunk in
        '(result, p) ← hp_feed p chunk;
        match result with
        | kOk => Some (true, out)
        | kError => Some (false, out)
        | kNeedMoreData => readFullHttpRequest p out reads
        end
    end.

(** ** Writing *)

(** What one [write] of the socket returns. *)
Inductive sys := SysN (n : nat) | SysIntr | SysAgain | SysErr.

(** [asyncWriteAll]: the answer and the bytes the socket took; [None] while it is suspended. *)
Fixpoint asyncWriteAll (results : list sys) (data : bytes) : option (bool * bytes) :=
  match data with
  | [] => Some (true, [])
  | _ =>
      match results with
      | [] => None
      | SysN n :: results =>
          if (n =? 0)%nat then Some (false, [])
          else '(ok, rest) ← asyncWriteAll results (drop n data); Some (ok, take n data ++ rest)
      | SysIntr :: results | SysAgain :: results => asyncWriteAll results data
      | SysErr :: _ => Some (false, [])
      end
  end.

(** ** Relaying the response *)

Definition toLowerCopy (s : bytes) : bytes := toLower s.

Fixpoint skip_blank (s : bytes) : bytes :=
  match s with c :: s' => if (b2z c =? 32) || (b2z c =? 9) then skip_blank s' else s | [] => [] end.

(** Lower-casing keeps positions, so the number is read from the same place of [headers]. *)
Definition parseContentLength (headers : bytes) : Z :=
  match find_sub (bs "content-length:") (toLowerCopy headers) with
  | None => -1
  | Some pos => default (-1) (stoi (skip_blank (drop (pos + 15) headers)))
  end.

Definition headerHas (headers_lower needle : bytes) : bool := bool_decide (is_Some (find_sub needle headers_lower)).

Record Relay := mkRelay {
  rl_buf : bytes;
  rl_headers_done : bool;
  rl_content_length : Z;
  rl_chunked : bool;
  rl_event_stream : bool;
  rl_body_start : Z;
  rl_already_sent : Z;
  rl_out : bytes;             (* what the client's socket has taken *)
}.

Definition Relay_new : Relay := mkRelay [] false (-1) false false 0 0 [].

(** The outcomes of [asyncWriteAll]: everything, or an error after some bytes. *)
Inductive wr := WrAll | WrFail (n : nat).

Definition flush_new (r : Relay) (w : wr) : bool * Relay :=
  if zlen (rl_buf r) <=? rl_already_sent r then (true, r)
  else
    let new := drop (Z.to_nat (rl_already_sent r)) (rl_buf r) in
    let put b := mkRelay (rl_buf r) (rl_headers_done r) (rl_content_length r) (rl_chunked r) (rl_event_stream r)
                         (rl_body_start r) (rl_already_sent r) (rl_out r ++ b) in
    match w with WrAll => (true, put new) | WrFail n => (false, put (take n new)) end.

Definition sent_all (r : Relay) : Relay :=
  mkRelay (rl_buf r) (rl_headers_done r) (rl_content_length r) (rl_chunked r) (rl_event_stream r)
          (rl_body_start r) (zlen (rl_buf r)) (rl_out r).

Definition last_chunk : bytes := CRLF ++ bs "0" ++ CRLF ++ CRLF.

(** The tests that end the relay after a flush. *)
Definition body_complete (r : Relay) : bool :=
  (rl_content_length r >=? 0) && (zlen (rl_buf r) >=? rl_body_start r + rl_content_length r).
Definition chunks_complete (r : Relay) : bool := rl_chunked r && bool_decide (is_Some (find_sub last_chunk (rl_buf r))).

Definition append_buf (r : Relay) (chunk : bytes) : Relay :=
  mkRelay (rl_buf r ++ chunk) (rl_headers_done r) (rl_content_length r) (rl_chunked r) (rl_event_stream r)
          (rl_body_start r) (rl_already_sent r) (rl_out r).

(** The headers are complete at [he]. *)
Definition set_headers (r : Relay) (he : nat) : Relay :=
  let head := take he (rl_buf r) in
  let lower := toLowerCopy head in
  mkRelay (rl_buf r) true (parseContentLength head) (headerHas lower (bs "transfer-encoding: chunked"))
          (headerHas lower (bs "content-type: text/event-stream")) (Z.of_nat he + 4) (rl_already_sent r) (rl_out r).

(** A long event stream keeps the last 64 bytes only. *)
Definition trim_stream (r : Relay) : Relay :=
  if rl_event_stream r && (zlen (rl_buf r) >? 256 * 1024) then
    let buf := drop (Z.to_nat (zlen (rl_buf r) - 64)) (rl_buf r) in
    mkRelay buf (rl_headers_done r) (rl_content_length r) (rl_chunked r) (rl_event_stream r) 0 (zlen buf) (rl_out r)
  else r.

(** One round of the loop: [inl] goes on, [inr] returns.  [running] is [g_running], [rd] what the
    backend gives, [w] how the client takes it. *)
Definition relay_round (running : bool) (i : rd) (w : wr) (r : Relay) : Relay + (bool * Relay) :=
  if negb running then inr (flush_new r w)
  else
    match i with
    | RdEnd =>
        if rl_headers_done r && body_complete r then inr (true, r)
        else if rl_headers_done r && chunks_complete r then inr (true, r)
        else inr ((rl_already_sent r >? 0) || negb (bool_decide (rl_buf r = [])), r)
    | RdData chunk =>
        let r := append_buf r chunk in
        if negb (rl_headers_done r) then
          match find_sub (CRLF ++ CRLF) (rl_buf r) with
          | None => if zlen (rl_buf r) >? 64 * 1024 then inr (false, r) else inl r
          | Some he =>
              let (sent, r) := flush_new (set_headers r he) w in
              if negb sent then inr (false, r)
              else
                let r := sent_all r in
                if body_complete r then inr (true, r) else if chunks_complete r then inr (true, r) else inl r
          end
        else
          let (sent, r) := flush_new r w in
          if negb sent then inr (false, r)
          else
            let r := sent_all r in
            if body_complete r then inr (true, r) else if chunks_complete r then inr (true, r) else inl (trim_stream r)
    end.

Fixpoint relay_loop (ins : list (bool * rd * wr)) (r : Relay) : option (bool * Relay) :=
  match ins with
  | [] => None
  | (running, i, w) :: ins =>
      match relay_round running i w r with
      | inl r => relay_loop ins r
      | inr res => Some res
      end
  end.

Definition relayResponse (ins : list (bool * rd * wr)) : option (bool * Relay) := relay_loop ins Relay_new.

(** ** Handling one client *)

Definition simple_reply (status : string) : bytes :=
  bs "HTTP/1.1 " ++ bs status ++ CRLF ++ bs "Content-Length: 0" ++ CRLF ++ bs "Connection: close" ++ CRLF ++ CRLF.

(** The request forwarded to the backend. *)
Definition add_close (rawReq : bytes) : bytes :=
  match find_sub (CRLF ++ CRLF) rawReq with
  | None => rawReq
  | Some he =>
      match find_sub (bs "connection:") (toLowerCopy (take he rawReq)) with
      | Some _ => rawReq
      | None => take he rawReq ++ CRLF ++ bs "Connection: close" ++ drop he rawReq
      end
  end.

Definition add_active (d : Z) (u : Upstream) : Upstream := mkUp (up_host u) (up_port u) (up_weight u) (up_active u + d) (up_healthy u).

(** What a client connection does to the outside: the bytes the client's socket has taken, the
    bytes the socket of the backend at [p] has taken, and the two [close] calls. *)
Inductive effect := EClient (b : bytes) | EForward (p : nat) (b : bytes) | ECloseBackend | ECloseClient.

Record Gate := mkGate { gt_heap : heap; gt_weights : list Z; gt_inflight : Z }.

(** The bytes a socket takes of a write of [b]. *)
Definition taken (w : wr) (b : bytes) : bytes := match w with WrAll => b | WrFail n => take n b end.

(** How far the coroutine gets: to its end, to a point where the backend or the client is
    waited for, or to an exception (its promise calls [std::terminate]). *)
Inductive HandleResult := HDone (es : list effect) (g : Gate) | HWaits (es : list effect) (g : Gate) | HThrows.

(** The coroutine, from its start.  [reads] are the client's bytes, [connects] says whether the
    backend can be reached, [forward] how it takes the request, [back] are the rounds of
    [relayResponse], and [reply] is how the client takes an error reply.  The result of
    [sendSimple] and of [relayResponse] is not looked at. *)
Definition handleClient (m : UpstreamManager) (reads : list rd) (connects : bool) (forward : wr) (back : list (bool * rd * wr))
  (reply : wr) (g : Gate) : HandleResult :=
  let g := mkGate (gt_heap g) (gt_weights g) (gt_inflight g + 1) in
  let leave g := mkGate (gt_heap g) (gt_weights g) (gt_inflight g - 1) in
  match readFullHttpRequest HttpParser_new [] reads with
  | None => HThrows
  | Some (false, _) => HDone [EClient (taken reply (simple_reply "400 Bad Request")); ECloseClient] (leave g)
  | Some (true, rawReq) =>
      let (upstream, cw) := wrr_select (gt_heap g) m (gt_weights g) in
      let g := mkGate (gt_heap g) cw (gt_inflight g) in
      match upstream with
      | None => HDone [EClient (taken reply (simple_reply "503 Service Unavailable")); ECloseClient] (leave g)
      | Some p =>
          let g := mkGate (alter (add_active 1) p (gt_heap g)) (gt_weights g) (gt_inflight g) in
          let release g := mkGate (alter (add_active (-1)) p (gt_heap g)) (gt_weights g) (gt_inflight g) in
          if negb connects then
            HDone [EClient (taken reply (simple_reply "502 Bad Gateway")); ECloseClient] (leave (release g))
          else
            let fwd := add_close rawReq in
            match forward with
            | WrFail n =>
                HDone [EForward p (take n fwd); EClient (taken reply (simple_reply "502 Bad Gateway")); ECloseBackend; ECloseClient]
                  (leave (release g))
            | WrAll =>
                match relayResponse back with
                | None => HWaits [EForward p fwd] g
                | Some (_, r) => HDone [EForward p fwd; EClient (rl_out r); ECloseBackend; ECloseClient] (leave (release g))
                end
            end
      end
  end.

(** ** Accepting *)

(** [acceptLoop]: the accepted sockets go to the queues of the sub reactors in turn. *)
Fixpoint acceptLoop (idx : Z) (clients : list (option nat)) (subs : list (list nat)) : Z * list (list nat) :=
  match clients with
  | [] => (idx, subs)
  | None :: clients => acceptLoop idx clients subs
  | Some c :: clients => acceptLoop (u64 (idx + 1)) clients (alter (fun q => q ++ [c]) (Z.to_nat (idx mod zlen subs)) subs)
  end.

(** One drain of [subReactorLoop]: each client comes with the value of [g_inflight] loaded
    for it; the clients started and the ones closed at the limit. *)
Fixpoint drain_pending (max_connections : Z) (incoming : list (nat * Z)) : list nat * list nat :=
  match incoming with
  | [] => ([], [])
  | (c, inflight) :: incoming =>
      let (started, closed) := drain_pending max_connections incoming in
      if inflight >=? max_connections then (started, c :: closed) else (c :: started, closed)
  end.
