(* ===== verification/GatewayProofs.v ===== *)
(** * The gateway is correct

    The connection pool never mixes upstreams; a relayed response reaches the client byte for
    byte; a client handled alone is sent one thing and every counter is given back; a request
    that arrives in any pieces is forwarded whole, and its answer comes back. *)

From Stdlib Require Import ZArith Lia.
From stdpp Require Import base numbers strings list gmap.
From S2P Require Import Prelude CppString LoadBalance BalanceProofs Http HttpProofs Gateway.
Local Open Scope Z_scope.

(** ** The connection pool *)

Lemma split_last (c : byte) a1 b1 a2 b2 : a1 ++ c :: b1 = a2 ++ c :: b2 -> c ∉ b1 -> c ∉ b2 -> a1 = a2 /\ b1 = b2.
Proof.
  revert a2. induction a1 as [|x a1 IH]; intros [|y a2] E H1 H2; simplify_eq/=.
  - done.
  - exfalso. apply H1. apply elem_of_app. right. left.
  - exfalso. apply H2. apply elem_of_app. right. left.
  - match goal with E : _ ++ _ = _ ++ _ |- _ => by destruct (IH a2 E H1 H2) as [-> ->] end.
Qed.

Definition port_ok (u : Upstream) : Prop := 0 <= up_port u < 2 ^ 31.

(** Host and port can be read off the key. *)
Lemma pool_key_inj u v : port_ok u -> port_ok v -> pool_key u = pool_key v -> up_host u = up_host v /\ up_port u = up_port v.
Proof.
  intros Hu Hv E. unfold pool_key in E. assert (forall n, chr ":" ∉ to_string n) as Hd.
  { intros n Hin. pose proof (to_string_digits n) as Hd. rewrite Forall_forall in Hd. pose proof (Hd _ Hin) as H. discriminate H. }
  apply (split_last (chr ":")) in E as [E1 E2]; [|apply Hd|apply Hd]. split; [done|].
  apply to_string_inj in E2; unfold port_ok in *; lia.
Qed.

(** Sockets tagged with the address they are connected to. *)
Definition tagged : Type := bytes * Z * nat.
Definition connected (s : tagged) (u : Upstream) : Prop := s.1.1 = up_host u /\ s.1.2 = up_port u.

Inductive pool_op := PAcquire (u : Upstream) (fresh : option tagged) | PRelease (s : tagged) (u : Upstream).

(** What the clients of the pool do: a fresh socket is connected to the upstream asked for, and
    a socket is released for the upstream it is connected to. *)
Definition pool_op_ok (o : pool_op) : Prop :=
  match o with
  | PAcquire u (Some s) => port_ok u /\ connected s u
  | PAcquire u None => port_ok u
  | PRelease s u => port_ok u /\ connected s u
  end.

Definition pool_step (p : ConnPool tagged) (o : pool_op) : ConnPool tagged :=
  match o with PAcquire u fresh => (cp_acquire p u fresh).2 | PRelease s u => cp_release p s u end.

Record conn_pool_ok (p : ConnPool tagged) : Prop := {
  cpo_addr : forall k l s, cp_pools p !! k = Some l -> s ∈ l -> exists u, port_ok u /\ pool_key u = k /\ connected s u;
  cpo_idle : forall k l, cp_pools p !! k = Some l -> zlen l <= Z.max 0 (cp_max_idle p);
}.

Lemma conn_pool_step p o : conn_pool_ok p -> pool_op_ok o -> conn_pool_ok (pool_step p o).
Proof.
  intros [Ha Hi] Ho. destruct o as [u fresh|s u]; simpl.
  - unfold cp_acquire. destruct (cp_pools p !! pool_key u) as [[|s idle]|] eqn:E; [by split..| |by split]. split; simpl.
    + intros k l x Hk Hx. apply lookup_insert_Some in Hk as [[<- <-]|[_ Hk]]; [|by eapply Ha]. eapply Ha; [done|by right].
    + intros k l Hk. apply lookup_insert_Some in Hk as [[<- <-]|[_ Hk]]; [|by eapply Hi]. pose proof (Hi _ _ E). rewrite zlen_cons in *. lia.
  - destruct Ho as [Hp Hc]. unfold cp_release. set (idle := default [] (cp_pools p !! pool_key u)).
    assert (forall x, x ∈ idle -> exists u', port_ok u' /\ pool_key u' = pool_key u /\ connected x u') as Hidle.
    { unfold idle. intros x Hx. destruct (cp_pools p !! pool_key u) as [l|] eqn:E; [by eapply Ha|by inversion Hx]. }
    assert (zlen idle <= Z.max 0 (cp_max_idle p)) as Hlen.
    { unfold idle. destruct (cp_pools p !! pool_key u) as [l|] eqn:E; simpl; [by eapply Hi|rewrite zlen_nil; lia]. }
    split; simpl.
    + intros k l x Hk Hx. apply lookup_insert_Some in Hk as [[<- <-]|[_ Hk]]; [|by eapply Ha].
      destruct (zlen idle <? cp_max_idle p); [|by apply Hidle]. apply elem_of_app in Hx as [Hx|Hx%list_elem_of_singleton]; [by apply Hidle|].
      subst x. by exists u.
    + intros k l Hk. apply lookup_insert_Some in Hk as [[<- <-]|[_ Hk]]; [|by eapply Hi].
      destruct (Z.ltb_spec (zlen idle) (cp_max_idle p)); [rewrite zlen_app; change (zlen [s]) with 1; lia|done].
Qed.

Lemma conn_pool_run max_idle ops : Forall pool_op_ok ops ->
  let p := foldl pool_step (ConnPool_new max_idle) ops in conn_pool_ok p /\ cp_max_idle p = max_idle.
Proof.
  assert (conn_pool_ok (ConnPool_new max_idle) /\ cp_max_idle (ConnPool_new max_idle : ConnPool tagged) = max_idle) as H0 by (by repeat split).
  intros Hops. revert H0. generalize (ConnPool_new max_idle : ConnPool tagged).
  induction Hops as [|o ops Ho _ IH]; intros q [Hq1 Hq2]; [done|]. simpl. apply IH. split; [by apply conn_pool_step|].
  destruct o as [v f|t v]; simpl; [|done]. unfold cp_acquire. by destruct (cp_pools q !! pool_key v) as [[]|].
Qed.

(** The pool never mixes upstreams: after any history, the socket handed out for an upstream
    is connected to that upstream's host and port (the fresh one, or an idle one that was
    released for the same address), and no upstream has more than [max_idle] idle sockets. *)
Theorem conn_pool_isolated (max_idle : Z) (ops : list pool_op) (u : Upstream) (fresh : option tagged) (s : tagged) :
  Forall pool_op_ok (ops ++ [PAcquire u fresh]) ->
  let p := foldl pool_step (ConnPool_new max_idle) ops in
  (cp_acquire p u fresh).1 = Some s ->
  connected s u /\ (forall k l, cp_pools p !! k = Some l -> zlen l <= Z.max 0 max_idle).
Proof.
  intros [Hops Hu]%Forall_app p Hs. apply Forall_cons in Hu as [Hu _].
  destruct (conn_pool_run max_idle ops Hops) as [[Ha Hi] Hm]. fold p in Ha, Hi, Hm.
  split; [|by rewrite <- Hm]. unfold cp_acquire in Hs.
  assert (port_ok u) as Hpu by (destruct fresh; simpl in Hu; tauto).
  assert (fresh = Some s -> connected s u) as Hfresh by (intros ->; apply Hu).
  destruct (cp_pools p !! pool_key u) as [[|t idle]|] eqn:E; simpl in Hs; [by apply Hfresh| |by apply Hfresh].
  injection Hs as ->. destruct (Ha _ _ s E ltac:(left)) as (v & Hv & Ek & Hc1 & Hc2).
  apply pool_key_inj in Ek as [E1 E2]; [|done|done]. split; congruence.
Qed.

Lemma conn_pool_isolated_witness :
  let a := mkUp (bs "10.0.0.1") 80 1 0 true in
  let b := mkUp (bs "10.0.0.1") 8080 1 0 true in
  let p := foldl pool_step (ConnPool_new 2) [PRelease (bs "10.0.0.1", 80, 1%nat) a; PRelease (bs "10.0.0.1", 8080, 2%nat) b] in
  connected (bs "10.0.0.1", 8080, 2%nat) b.
Proof.
  intros a b p. eapply (conn_pool_isolated 2 [PRelease (bs "10.0.0.1", 80, 1%nat) a; PRelease (bs "10.0.0.1", 8080, 2%nat) b] b None).
  - repeat constructor; vm_compute; congruence.
  - vm_compute. reflexivity.
Defined.

(** ** Relaying *)

Definition data (i : rd) : bytes := match i with RdData c => c | RdEnd => [] end.
Definition all_data (ins : list (bool * rd * wr)) : bytes := concat (map (fun x => data x.1.2) ins).

(** Received so far: what the client has and what waits in the buffer. *)
Record relay_inv (r : Relay) (rcv : bytes) : Prop := {
  ri_sent : 0 <= rl_already_sent r <= zlen (rl_buf r);
  ri_bytes : rl_out r ++ drop (Z.to_nat (rl_already_sent r)) (rl_buf r) = rcv;
  ri_done : rl_headers_done r = true -> rl_already_sent r = zlen (rl_buf r);
}.

Lemma drop_zlen {A} (l : list A) : drop (Z.to_nat (zlen l)) l = [].
Proof. rewrite to_nat_zlen. apply drop_all. Qed.

(** Every way [asyncWriteAll] can end is an outcome the relay considers. *)
Lemma async_write_outcome results : forall bytes ok taken, asyncWriteAll results bytes = Some (ok, taken) ->
  exists w, taken = (match w with WrAll => bytes | WrFail n => take n bytes end) /\ ok = (match w with WrAll => true | WrFail _ => false end).
Proof.
  induction results as [|x results IH]; intros b ok taken H.
  { destruct b; [|done]. injection H as <- <-. by exists WrAll. }
  destruct b as [|c b]; [injection H as <- <-; by exists WrAll|]. cbn [asyncWriteAll] in H.
  destruct x as [n| | |]; [|by apply IH|by apply IH|injection H as <- <-; by exists (WrFail 0)].
  destruct (n =? 0)%nat eqn:En; [injection H as <- <-; by exists (WrFail 0)|].
  destruct (asyncWriteAll results (drop n (c :: b))) as [[ok' t']|] eqn:E; [|done]. injection H as <- <-.
  destruct (IH _ _ _ E) as ([|k] & -> & ->); [exists WrAll; by rewrite take_drop|].
  exists (WrFail (n + k)). split; [|done]. apply take_take_drop.
Qed.

(** The result of a flush, and what a successful one leaves. *)
Lemma flush_new_spec r w rcv : relay_inv r rcv \/ (0 <= rl_already_sent r <= zlen (rl_buf r) /\ rl_out r ++ drop (Z.to_nat (rl_already_sent r)) (rl_buf r) = rcv) ->
  let '(ok, r') := flush_new r w in
  rl_out r' `prefix_of` rcv /\ (ok = true -> rl_out r' = rcv) /\ rl_buf r' = rl_buf r /\ rl_headers_done r' = rl_headers_done r /\
  (w = WrAll -> ok = true).
Proof.
  intros H. assert (0 <= rl_already_sent r <= zlen (rl_buf r) /\ rl_out r ++ drop (Z.to_nat (rl_already_sent r)) (rl_buf r) = rcv) as [Hs Hb].
  { destruct H as [[]|]; done. }
  unfold flush_new. destruct (Z.leb_spec (zlen (rl_buf r)) (rl_already_sent r)) as [Hle|Hlt].
  - assert (rl_already_sent r = zlen (rl_buf r)) as E by lia. rewrite E, drop_zlen, app_nil_r in Hb. by subst.
  - destruct w as [|n]; simpl; subst rcv; (split_and!; try done).
    apply prefix_app. exists (drop n (drop (Z.to_nat (rl_already_sent r)) (rl_buf r))). by rewrite take_drop.
Qed.

Lemma sent_all_inv r rcv : rl_out r = rcv -> relay_inv (sent_all r) rcv.
Proof. intros H. split; simpl; [pose proof (zlen_nonneg (rl_buf r)); lia|by rewrite drop_zlen, app_nil_r|done]. Qed.

Lemma trim_stream_inv r rcv : relay_inv r rcv -> rl_already_sent r = zlen (rl_buf r) -> relay_inv (trim_stream r) rcv.
Proof.
  intros HI E. unfold trim_stream. destruct (_ && _); [|done]. destruct HI as [_ Hb _]. rewrite E, drop_zlen, app_nil_r in Hb.
  split; simpl; [|by rewrite drop_zlen, app_nil_r|done]. pose proof (zlen_nonneg (drop (Z.to_nat (zlen (rl_buf r) - 64)) (rl_buf r))). lia.
Qed.

Lemma append_buf_bytes r rcv chunk : relay_inv r rcv ->
  0 <= rl_already_sent r <= zlen (rl_buf (append_buf r chunk)) /\
  rl_out r ++ drop (Z.to_nat (rl_already_sent r)) (rl_buf (append_buf r chunk)) = rcv ++ chunk.
Proof.
  intros [Hs Hb _]. simpl. rewrite zlen_app. pose proof (zlen_nonneg chunk). split; [lia|].
  rewrite drop_app_le by (unfold zlen in Hs; lia). by rewrite app_assoc, Hb.
Qed.

(** One round keeps the account, or ends with a prefix at the client: all of it if the round
    reports success and the headers were complete. *)
Definition relay_ended (res : bool * Relay) (rcv : bytes) : Prop :=
  rl_out res.2 `prefix_of` rcv /\ (res.1 = true -> rl_headers_done res.2 = true -> rl_out res.2 = rcv).

Lemma relay_round_inv running i w r rcv : relay_inv r rcv ->
  match relay_round running i w r with
  | inl r' => relay_inv r' (rcv ++ data i)
  | inr res => relay_ended res (rcv ++ if running then data i else [])
  end.
Proof.
  intros HI. unfold relay_round. destruct running; cbn [negb].
  2: { rewrite app_nil_r. pose proof (flush_new_spec r w rcv (or_introl HI)) as Hf. destruct (flush_new r w) as [ok r']. destruct Hf as (H1 & H2 & _). split; auto. }
  destruct i as [chunk|].
  2: { assert (forall b, relay_ended (b, r) rcv) as He.
       { intros b. destruct HI as [Hs Hb Hd]. split; simpl; [subst rcv; by apply prefix_app_r|]. intros _ E.
         rewrite (Hd E), drop_zlen, app_nil_r in Hb. done. }
       cbn [data]. rewrite app_nil_r. destruct (_ && body_complete r); [done|]. by destruct (_ && chunks_complete r). }
  cbn [data]. pose proof (append_buf_bytes r rcv chunk HI) as Ha. set (r1 := append_buf r chunk) in *.
  assert (forall r2, rl_buf r2 = rl_buf r1 -> rl_already_sent r2 = rl_already_sent r1 -> rl_out r2 = rl_out r1 ->
    let '(sent, r3) := flush_new r2 w in
    (sent = false -> relay_ended (false, r3) (rcv ++ chunk)) /\
    (sent = true -> relay_inv (sent_all r3) (rcv ++ chunk) /\ relay_ended (true, sent_all r3) (rcv ++ chunk))) as Hflush.
  { intros r2 E1 E2 E3. pose proof (flush_new_spec r2 w (rcv ++ chunk)) as Hf. rewrite E1, E2, E3 in Hf. specialize (Hf (or_intror Ha)).
    destruct (flush_new r2 w) as [sent r3]. destruct Hf as (F1 & F2 & _). split.
    - intros _. split; [done|by intros].
    - intros Hs. specialize (F2 Hs). split; [by apply sent_all_inv|]. split; [done|by intros]. }
  destruct (rl_headers_done r1) eqn:Ehd; cbn [negb].
  - specialize (Hflush r1 eq_refl eq_refl eq_refl). destruct (flush_new r1 w) as [[] r3]; cbn [negb]; [|by apply Hflush].
    destruct Hflush as [_ [Hinv He]]; [done|]. destruct (body_complete _); [done|]. destruct (chunks_complete _); [done|]. by apply trim_stream_inv.
  - destruct (find_sub _ _) as [he|].
    + specialize (Hflush (set_headers r1 he) eq_refl eq_refl eq_refl). destruct (flush_new _ w) as [[] r3]; cbn [negb]; [|by apply Hflush].
      destruct Hflush as [_ [Hinv He]]; [done|]. destruct (body_complete _); [done|]. by destruct (chunks_complete _).
    + destruct (_ >? _); [split; [|by intros]|].
      * cbn. destruct Ha as [_ Ha]. rewrite <- Ha. by apply prefix_app_r.
      * split; [apply Ha|apply Ha|]. congruence.
Qed.

(** The bytes the rounds [ins] read from the backend: a round that finds the gateway stopped
    reads nothing. *)
Definition bytes_read (ins : list (bool * rd * wr)) : bytes :=
  concat (map (fun x => if x.1.1 : bool then data x.1.2 else []) ins).

Lemma relay_loop_inv ins : forall r rcv ok r', relay_inv r rcv -> relay_loop ins r = Some (ok, r') ->
  exists n, relay_loop (take n ins) r = Some (ok, r') /\ (forall m, (m < n)%nat -> relay_loop (take m ins) r = None) /\
            relay_ended (ok, r') (rcv ++ bytes_read (take n ins)).
Proof.
  induction ins as [|[[running i] w] ins IH]; intros r rcv ok r' HI H; [done|]. cbn [relay_loop] in H.
  pose proof (relay_round_inv running i w r rcv HI) as Hr. destruct (relay_round running i w r) as [r1|res] eqn:E.
  - destruct (IH r1 _ ok r' Hr H) as (n & Hn & Hm & He). exists (S n). cbn [take relay_loop]. rewrite E. split; [done|]. split.
    + intros [|m] Hlt; [done|]. cbn [take relay_loop]. rewrite E. apply Hm. lia.
    + unfold bytes_read in *. cbn [map concat fst snd]. rewrite app_assoc in *. destruct running; [done|].
      unfold relay_round in E. cbn [negb] in E. by destruct (flush_new r w).
  - injection H as ->. exists 1%nat. cbn [take relay_loop]. rewrite E. split; [done|]. split.
    + intros [|m] Hlt; [done|lia].
    + unfold bytes_read. cbn [map concat fst snd]. by rewrite app_nil_r.
Qed.

(** C28: the relay is faithful.  Whatever the backend sends, in whatever pieces, however writes to
    the client fail and whenever the gateway is told to stop: the relay ends at some first
    round, the client has then received a prefix of the bytes read from the backend in the
    rounds up to it, in order and without repetition; and if the relay reports success for a
    response whose headers it has seen, the client has received all of these bytes.  (Before
    the headers are complete success does not mean that: [relay_success_sends_nothing].) *)
Theorem relay_faithful (ins : list (bool * rd * wr)) (ok : bool) (r : Relay) :
  relayResponse ins = Some (ok, r) ->
  exists n, relayResponse (take n ins) = Some (ok, r) /\ (forall m, (m < n)%nat -> relayResponse (take m ins) = None) /\
    rl_out r `prefix_of` bytes_read (take n ins) /\
    (ok = true -> rl_headers_done r = true -> rl_out r = bytes_read (take n ins)).
Proof.
  intros H. assert (relay_inv Relay_new []) as H0 by (split; [vm_compute; split; discriminate|done|done]).
  destruct (relay_loop_inv ins Relay_new [] ok r H0 H) as (n & Hn & Hm & He1 & He2). by exists n.
Qed.

(** A backend that closes inside its headers: the relay reports success, the client has nothing. *)
Theorem relay_success_sends_nothing :
  exists r, relayResponse [(true, RdData (bs "HTTP/1.1 200 OK"), WrAll); (true, RdEnd, WrAll)] = Some (true, r) /\ rl_out r = [].
Proof. eexists. vm_compute. split; reflexivity. Qed.

Definition demo_reply : list bytes :=
  [bs "HTTP/1.1 200 OK" ++ CRLF ++ bs "Content-Le"; bs "ngth: 5" ++ CRLF ++ [z2b 13]; [z2b 10] ++ bs "he"; bs "llo"].

Lemma relay_faithful_witness :
  let ins := map (fun c => (true, RdData c, WrAll)) (demo_reply ++ [bs "never read"]) in
  exists r n, relayResponse ins = Some (true, r) /\ n = 4%nat /\ rl_out r = bytes_read (take n ins).
Proof.
  intros ins. destruct (relayResponse ins) as [[ok r]|] eqn:E; [|vm_compute in E; discriminate].
  destruct (relay_faithful ins ok r E) as (n & Hn & Hm & Ho & Hall). exists r, n.
  assert (n = 4%nat) as E4.
  { destruct n as [|[|[|[|[|n]]]]]; [vm_compute in Hn; discriminate..|done|].
    specialize (Hm 4%nat ltac:(lia)). vm_compute in Hm. discriminate. }
  vm_compute in E. injection E as <- <-. split; [done|]. split; [done|]. by apply Hall.
Defined.

Definition flushed (r : Relay) : Relay :=
  mkRelay (rl_buf r) (rl_headers_done r) (rl_content_length r) (rl_chunked r) (rl_event_stream r) (rl_body_start r) (rl_already_sent r)
          (rl_out r ++ drop (Z.to_nat (rl_already_sent r)) (rl_buf r)).

Lemma flush_new_all r : rl_already_sent r < zlen (rl_buf r) -> flush_new r WrAll = (true, flushed r).
Proof. intros H. unfold flush_new. by destruct (Z.leb_spec (zlen (rl_buf r)) (rl_already_sent r)); [lia|]. Qed.

(** A response with a length. *)
Section Complete.
Context (head body : bytes).
Definition resp : bytes := head ++ (CRLF ++ CRLF) ++ body.
Definition hlen : Z := zlen head + 4.
Context (Hfind : find_sub (CRLF ++ CRLF) resp = Some (length head)).
Context (Hlen : parseContentLength head = zlen body).
Context (Hch : headerHas (toLowerCopy head) (bs "transfer-encoding: chunked") = false).
Context (Hes : headerHas (toLowerCopy head) (bs "content-type: text/event-stream") = false).
Context (Hsize : hlen <= 64 * 1024).

(** The state after the part [pre] of the response. *)
Definition relay_at (pre : bytes) : Relay :=
  if zlen pre <? hlen then mkRelay pre false (-1) false false 0 0 [] else mkRelay pre true (zlen body) false false hlen (zlen pre) pre.

Lemma zlen_resp : zlen resp = hlen + zlen body.
Proof. unfold resp, hlen. rewrite !zlen_app. change (zlen CRLF) with 2. lia. Qed.

(** After a flush the client has everything, and the relay goes on or is complete. *)
Lemma relay_after_flush pre c rest r : pre ++ c ++ rest = resp -> hlen <= zlen (pre ++ c) ->
  rl_buf r = pre ++ c -> rl_content_length r = zlen body -> rl_chunked r = false -> rl_event_stream r = false ->
  rl_body_start r = hlen -> rl_headers_done r = true -> rl_out r = pre ++ c ->
  sent_all r = relay_at (pre ++ c) /\ body_complete (sent_all r) = bool_decide (rest = []) /\ chunks_complete (sent_all r) = false /\
  trim_stream (sent_all r) = relay_at (pre ++ c).
Proof.
  intros Hp Hl Eb Ec Ech Ees Es Eh Eo. assert (sent_all r = relay_at (pre ++ c)) as Ea.
  { destruct r. unfold sent_all, relay_at. simpl in *. subst. destruct (Z.ltb_spec (zlen (pre ++ c)) hlen); [lia|done]. }
  rewrite Ea. unfold relay_at. destruct (Z.ltb_spec (zlen (pre ++ c)) hlen); [lia|]. split; [done|]. split; [|done].
  unfold body_complete. simpl. pose proof zlen_resp as Hr. rewrite <- Hp, app_assoc, zlen_app in Hr. pose proof (zlen_nonneg body). pose proof (zlen_nonneg rest).
  destruct (Z.geb_spec (zlen body) 0); [|lia]. simpl. case_bool_decide as E.
  - subst rest. rewrite zlen_nil in Hr. apply Z.geb_le. lia.
  - assert (0 < zlen rest) by (destruct rest; [done|rewrite zlen_cons; pose proof (zlen_nonneg rest); lia]). rewrite Z.geb_leb. apply Z.leb_gt. lia.
Qed.

Lemma relay_round_at pre c rest : pre ++ c ++ rest = resp -> c <> [] ->
  relay_round true (RdData c) WrAll (relay_at pre) =
  if bool_decide (rest = []) then inr (true, relay_at (pre ++ c)) else inl (relay_at (pre ++ c)).
Proof.
  intros Hp Hc. assert (0 < zlen c) as Hc0 by (destruct c; [done|rewrite zlen_cons; pose proof (zlen_nonneg c); lia]).
  pose proof (zlen_nonneg pre) as Hp0. pose proof zlen_resp as Hr. rewrite <- Hp, app_assoc, zlen_app in Hr. pose proof (zlen_nonneg rest). pose proof (zlen_nonneg body).
  unfold relay_at at 1. destruct (Z.ltb_spec (zlen pre) hlen) as [Hlt|Hge].
  - unfold relay_round. cbn [negb append_buf rl_headers_done rl_buf].
    destruct (Z.ltb_spec (zlen (pre ++ c)) hlen) as [Hlt'|Hge'].
    + rewrite (find_sub_short (CRLF ++ CRLF) (pre ++ c) rest (length head)); [|by rewrite <- app_assoc, Hp|].
      2: { change (length (CRLF ++ CRLF)) with 4%nat. unfold hlen, zlen in *. lia. }
      destruct (Z.gtb_spec (zlen (pre ++ c)) (64 * 1024)); [lia|]. rewrite bool_decide_eq_false_2; [|intros ->; rewrite zlen_nil in Hr; lia].
      f_equal. unfold relay_at. by destruct (Z.ltb_spec (zlen (pre ++ c)) hlen); [|lia].
    + rewrite (find_sub_prefix (CRLF ++ CRLF) (pre ++ c) rest (length head)); [|by rewrite <- app_assoc, Hp|].
      2: { change (length (CRLF ++ CRLF)) with 4%nat. unfold hlen, zlen in *. lia. }
      assert (take (length head) (pre ++ c) = head) as Eh.
      { rewrite <- (take_app_le (pre ++ c) rest) by (unfold hlen, zlen in *; lia). rewrite <- app_assoc, Hp. apply take_app_length. }
      rewrite flush_new_all by (cbn; unfold hlen in *; pose proof (zlen_nonneg head); lia).
      set (r := flushed _). cbn [negb].
      destruct (relay_after_flush pre c rest r Hp Hge') as (E1 & E2 & E3 & E4);
        [done|unfold r; cbn [flushed set_headers append_buf rl_buf rl_content_length]; by rewrite Eh
        |unfold r; cbn [flushed set_headers append_buf rl_buf rl_chunked]; by rewrite Eh
        |unfold r; cbn [flushed set_headers append_buf rl_buf rl_event_stream]; by rewrite Eh|done|done|done|].
      rewrite E2, E3, E1. by case_bool_decide.
  - unfold relay_round. cbn [negb append_buf rl_headers_done].
    rewrite flush_new_all by (cbn; rewrite zlen_app; lia). set (r := flushed _). cbn [negb].
    destruct (relay_after_flush pre c rest r Hp) as (E1 & E2 & E3 & E4); try done; [rewrite zlen_app; lia| |].
    { cbn. by rewrite to_nat_zlen, drop_app_length. }
    rewrite E2, E3, E4, E1. by case_bool_decide.
Qed.

Lemma relay_loop_at chunks : forall pre, pre ++ concat chunks = resp -> Forall (fun c => c <> []) chunks -> chunks <> [] ->
  relay_loop (map (fun c => (true, RdData c, WrAll)) chunks) (relay_at pre) = Some (true, relay_at resp).
Proof.
  induction chunks as [|c chunks IH]; intros pre Hp Hc Hne; [done|]. apply Forall_cons in Hc as [Hc Hcs]. cbn [map relay_loop concat] in *.
  rewrite (relay_round_at pre c (concat chunks)) by done. case_bool_decide as E.
  - rewrite E, app_nil_r in Hp. by rewrite Hp.
  - apply IH; [by rewrite <- app_assoc|done|]. intros ->. done.
Qed.
End Complete.

(** A head that announces the length of the body, is not too long, and announces nothing else that
    the relay looks at. *)
Record announced (head body : bytes) : Prop := {
  an_head : find_sub (CRLF ++ CRLF) (resp head body) = Some (length head);
  an_length : parseContentLength head = zlen body;
  an_chunked : headerHas (toLowerCopy head) (bs "transfer-encoding: chunked") = false;
  an_stream : headerHas (toLowerCopy head) (bs "content-type: text/event-stream") = false;
  an_size : zlen head + 4 <= 64 * 1024;
}.

Lemma relay_whole (head body : bytes) (chunks : list bytes) :
  announced head body -> concat chunks = resp head body -> Forall (fun c => c <> []) chunks ->
  exists r, relayResponse (map (fun c => (true, RdData c, WrAll)) chunks) = Some (true, r) /\ rl_out r = resp head body.
Proof.
  intros [Hf Hl Hch Hes Hs] Hc Hne. exists (relay_at head body (resp head body)). pose proof (zlen_resp head body) as Hz. pose proof (zlen_nonneg body).
  assert (relay_at head body [] = Relay_new) as E0.
  { unfold relay_at, hlen. pose proof (zlen_nonneg head). rewrite zlen_nil. by destruct (Z.ltb_spec 0 (zlen head + 4)); [|lia]. }
  split.
  - unfold relayResponse. rewrite <- E0. apply relay_loop_at; try done. intros ->. apply (f_equal zlen) in Hc. rewrite Hz in Hc.
    unfold hlen in Hc. pose proof (zlen_nonneg head). change (zlen (concat [])) with 0 in Hc. lia.
  - unfold relay_at. by destruct (Z.ltb_spec (zlen (resp head body)) (hlen head)); [lia|].
Qed.

(** C27: the relay is complete: a response with headers of at most 64 KiB that announce the length
    of its body, cut into packets anywhere, is delivered to the client whole, and the relay
    ends by itself exactly when the last byte has arrived. *)
Theorem relay_complete (head body : bytes) (chunks : list bytes) :
  find_sub (CRLF ++ CRLF) (resp head body) = Some (length head) ->
  parseContentLength head = zlen body ->
  headerHas (toLowerCopy head) (bs "transfer-encoding: chunked") = false ->
  headerHas (toLowerCopy head) (bs "content-type: text/event-stream") = false ->
  zlen head + 4 <= 64 * 1024 ->
  concat chunks = resp head body -> Forall (fun c => c <> []) chunks ->
  exists r, relayResponse (map (fun c => (true, RdData c, WrAll)) chunks) = Some (true, r) /\ rl_out r = resp head body.
Proof. intros Hf Hl Hch Hes Hs. by apply relay_whole. Qed.

Lemma relay_complete_witness :
  exists r, relayResponse (map (fun c => (true, RdData c, WrAll)) demo_reply) = Some (true, r) /\ rl_out r = concat demo_reply.
Proof.
  apply (relay_complete (bs "HTTP/1.1 200 OK" ++ CRLF ++ bs "Content-Length: 5") (bs "hello") demo_reply); try (vm_compute; congruence).
  repeat constructor; discriminate.
Defined.

(** ** One client *)

Definition to_client (es : list effect) : list bytes := omap (fun e => match e with EClient b => Some b | _ => None end) es.
Definition forwarded (es : list effect) : list (nat * bytes) := omap (fun e => match e with EForward p b => Some (p, b) | _ => None end) es.

Lemma alter_active p (h : heap) : alter (add_active (-1)) p (alter (add_active 1) p h) = h.
Proof. rewrite list_alter_alter_eq. apply list_alter_id. intros []. unfold add_active. simpl. f_equal. lia. Qed.

(** The selected upstream is one of the vector, and healthy. *)
Lemma wrr_select_healthy h m cw p cw' :
  length cw = length (um_upstreams m) -> wrr_select h m cw = (Some p, cw') -> p ∈ um_upstreams m /\ is_healthy h p = true.
Proof.
  intros Hlen Es. assert (um_upstreams m <> []) as Hne by (intros E; unfold wrr_select in Es; rewrite E in Es; done).
  destruct (wrr_select_spec h m cw Hne Hlen) as [(j & q & d & Hj & Hh & _ & _ & _ & Es')|[_ Es']]; rewrite Es' in Es; simplify_eq.
  split; [|done]. by eapply list_elem_of_lookup_2.
Qed.



(** [active_connections++] and [--] on a plain [int]: a load into a register of the thread, then
    a store. *)
Inductive count_act := CLoad (t : nat) | CStore (t : nat) (d : Z).
Fixpoint count_run (acts : list count_act) (regs : nat -> Z) (v : Z) : Z :=
  match acts with
  | [] => v
  | CLoad t :: acts => count_run acts (fun u => if (u =? t)%nat then v else regs u) v
  | CStore t d :: acts => count_run acts regs (regs t + d)
  end.

(** Two handlers on two sub reactors, each counting up and down once, leave an idle upstream with
    a count of minus one. *)
Theorem active_connections_lost_update :
  count_run [CLoad 0; CLoad 1; CStore 0 1; CStore 1 1; CLoad 0; CStore 0 (-1); CLoad 1; CStore 1 (-1)] (fun _ => 0) 0 = -1.
Proof. reflexivity. Qed.

(** ** Forwarding *)

Definition waiting (p : HttpParser) : Prop :=
  hp_state p <> kDone /\ exists s q, outcome (hp_feed p []) = Some (kNeedMoreData, s, q).

Lemma waiting_new : waiting HttpParser_new.
Proof. split; [done|]. by do 2 eexists. Qed.

Lemma waiting_feed p c p' : waiting p -> hp_feed p c = Some (kNeedMoreData, p') -> waiting p'.
Proof.
  intros [Hd _] Hf. set (q := with_buffer p (hp_buffer p ++ c)).
  pose proof (hp_run_app [] (S (length (hp_buffer p ++ c))) (hp_buffer p ++ c) q ltac:(lia) Hd) as He.
  change (hp_feed p c) with (hp_run q (hp_buffer p ++ c)) in Hf. unfold extends in He. rewrite Hf in He. destruct He as [Hd' He].
  rewrite app_nil_r, Hf in He. split; [done|]. rewrite hp_feed_run, <- He. by do 2 eexists.
Qed.

(** The reading loop stops at the first piece that completes a request. *)
Lemma readFull_chunks chunks : forall p out s req,
  waiting p -> zlen (out ++ concat chunks) < kMaxRequestBytes -> outcome (feed_chunks p chunks) = Some (kOk, s, req) ->
  exists pre, pre `prefix_of` chunks /\ outcome (feed_chunks p pre) = Some (kOk, s, req) /\
    readFullHttpRequest p out (RdData <$> chunks) = Some (true, out ++ concat pre).
Proof.
  induction chunks as [|c chunks IH]; intros p out s req Hw Hz Ho.
  { destruct Hw as (_ & s' & q & Hw). cbn [feed_chunks] in Ho. congruence. }
  cbn [concat] in Hz. cbn [fmap list_fmap readFullHttpRequest].
  destruct (Z.geb_spec (zlen out) kMaxRequestBytes) as [Hge|_]; [rewrite zlen_app in Hz; pose proof (zlen_nonneg (c ++ concat chunks)); lia|].
  cbn [feed_chunks] in Ho. destruct (hp_feed p c) as [[r p']|] eqn:Ef; [|done]. cbn [mbind option_bind]. destruct r.
  - exists [c]. split; [by apply (prefix_app [c]), prefix_nil|]. cbn [feed_chunks concat]. rewrite Ef, app_nil_r. done.
  - destruct (IH p' (out ++ c) s req) as (pre & Hp & Hf & Hr); [by eapply waiting_feed|by rewrite <- app_assoc|done|].
    exists (c :: pre). split; [by apply prefix_cons|]. cbn [feed_chunks concat]. rewrite Ef. split; [done|]. by rewrite app_assoc.
  - done.
Qed.

(** *** The added header *)

Definition close_line : bytes := bs "Connection: close".
Definition add_close_header (r : HttpRequest) : HttpRequest :=
  mkReq (rq_method r) (rq_path r) (rq_query r) (rq_version r) (hs_add (rq_headers r) (bs "Connection") (bs "close")) (rq_body r).

(** Nothing before the first line end is a blank line. *)
Lemma find_blank line rest he :
  find_sub CRLF (line ++ CRLF ++ rest) = Some (length line) -> find_sub (CRLF ++ CRLF) (CRLF ++ rest) = Some he ->
  find_sub (CRLF ++ CRLF) (line ++ CRLF ++ rest) = Some (length line + he)%nat.
Proof.
  induction line as [|c line IH]; intros H1 H2; [done|]. cbn [app length] in *. cbn [find_sub] in H1. cbn [find_sub].
  case_bool_decide as Hc; [done|]. destruct (find_sub CRLF (line ++ CRLF ++ rest)) as [i|] eqn:Ei; [|done]. injection H1 as ->.
  rewrite bool_decide_eq_false_2.
  - by rewrite IH.
  - intros Hd. apply Hc. apply (f_equal (take 2)) in Hd. rewrite take_take in Hd. exact Hd.
Qed.

(** Nor is it at the end of the line before, unless the line is empty. *)
Lemma find_blank_next line rest he : line <> [] ->
  find_sub CRLF (line ++ CRLF ++ rest) = Some (length line) -> find_sub (CRLF ++ CRLF) (CRLF ++ rest) = Some he ->
  find_sub (CRLF ++ CRLF) (CRLF ++ line ++ CRLF ++ rest) = Some (2 + length line + he)%nat.
Proof.
  intros Hne H1 H2. pose proof (find_blank line rest he H1 H2) as H3. set (s := line ++ CRLF ++ rest) in *.
  change (CRLF ++ s) with (z2b 13 :: z2b 10 :: s). cbn [find_sub].
  rewrite bool_decide_eq_false_2.
  2: { intros Hd. change (take (length (CRLF ++ CRLF)) (z2b 13 :: z2b 10 :: s)) with (z2b 13 :: z2b 10 :: take 2 s) in Hd.
       injection Hd as Hd. destruct line as [|c line]; [done|]. unfold s in H1. cbn [app find_sub] in H1. fold s in H1.
       change (c :: line ++ CRLF ++ rest) with s in H1. change (length CRLF) with 2%nat in H1. rewrite Hd in H1.
       rewrite bool_decide_eq_true_2 in H1 by done. discriminate H1. }
  rewrite bool_decide_eq_false_2 by discriminate. rewrite H3. reflexivity.
Qed.

Lemma crlf_split rest le : find_sub CRLF rest = Some le -> exists line tail, rest = line ++ CRLF ++ tail /\ length line = le.
Proof.
  revert le. induction rest as [|c rest IH]; intros le; cbn [find_sub]; case_bool_decide as Hc; try done.
  - intros [= <-]. exists [], (drop 2 (c :: rest)). split; [|done]. rewrite <- (take_drop 2 (c :: rest)) at 1. by rewrite <- Hc at 1.
  - destruct (find_sub CRLF rest) as [i|]; [|done]. intros [= <-]. destruct (IH i eq_refl) as (line & tail & -> & <-). by exists (c :: line), tail.
Qed.

(** The header just before the blank line is taken in, and the rest is parsed as before. *)
Lemma hp_run_blank_close p tail req :
  hp_state p = kHeaderName -> outcome (hp_run p (CRLF ++ tail)) = Some (kOk, kDone, req) ->
  outcome (hp_run p (close_line ++ CRLF ++ CRLF ++ tail)) = Some (kOk, kDone, add_close_header req).
Proof.
  intros Hs. assert (forall q, hp_state q = kHeaderName -> hp_run q (CRLF ++ tail) =
    '(q', ret) ← header_line q []; match ret with Some r => Some (r, q') | None => hp_run q' tail end) as Hblank.
  { intros q Hq. rewrite (hp_run_line q (CRLF ++ tail) 0) by (try congruence; reflexivity). unfold hp_line. by rewrite Hq. }
  assert (close_line ++ CRLF ++ CRLF ++ tail = print_header (bs "Connection", bs "close") ++ CRLF ++ tail) as -> by reflexivity.
  rewrite hp_run_header by (try done; repeat split; by apply (bool_decide_unpack _)). rewrite bool_decide_eq_false_2 by discriminate.
  rewrite !Hblank by done. cbn [header_line]. change (hp_content_length (add_header p _)) with (hp_content_length p).
  change (hp_chunked (add_header p _)) with (hp_chunked p). destruct (_ || _); cbn [mbind option_bind].
  - unfold hp_run. cbn [hp_loop]. destruct tail as [|c tail]; [done|]. cbn [hp_state with_state hp_content_length].
    change (hp_content_length (add_header p _)) with (hp_content_length p). destruct (_ >=? _); [|done].
    cbn. intros [= <-]. reflexivity.
  - cbn. intros [= <-]. reflexivity.
Qed.

Lemma insertion_starts rest he (x : bytes) : find_sub (CRLF ++ CRLF) (CRLF ++ rest) = Some he ->
  let s := take he (CRLF ++ rest) ++ CRLF ++ x in s = CRLF ++ drop 2 s.
Proof.
  intros Hf. destruct he as [|[|he]]; [done| |done]. exfalso. change (CRLF ++ rest) with (z2b 13 :: z2b 10 :: rest) in Hf.
  cbn [find_sub] in Hf. case_bool_decide; [done|]. rewrite bool_decide_eq_false_2 in Hf by discriminate.
  by destruct (find_sub (CRLF ++ CRLF) rest).
Qed.

(** Inserting the header before the blank line, in the state that reads headers. *)
Lemma hp_run_close n : forall rest p req,
  (length rest < n)%nat -> hp_state p = kHeaderName -> outcome (hp_run p rest) = Some (kOk, kDone, req) ->
  exists he, find_sub (CRLF ++ CRLF) (CRLF ++ rest) = Some he /\
    outcome (hp_run p (drop 2 (take he (CRLF ++ rest) ++ CRLF ++ close_line ++ drop he (CRLF ++ rest)))) = Some (kOk, kDone, add_close_header req).
Proof.
  induction n as [|n IH]; intros rest p req Hn Hs Ho; [lia|].
  destruct (find_sub CRLF rest) as [le|] eqn:El; [|rewrite hp_run_short in Ho by congruence; done].
  destruct (crlf_split rest le El) as (line & tail & -> & <-). destruct (decide (line = [])) as [->|Hne].
  { exists 0%nat. split; [done|]. by apply hp_run_blank_close. }
  assert (forall t, find_sub CRLF (line ++ CRLF ++ t) = Some (length line)) as Hline.
  { intros t. rewrite app_assoc. apply find_sub_app. apply (find_sub_prefix _ _ tail); [by rewrite <- app_assoc|]. by rewrite length_app. }
  assert (forall q t, hp_state q = kHeaderName -> hp_run q (line ++ CRLF ++ t) =
    '(q', ret) ← header_line q line; match ret with Some r => Some (r, q') | None => hp_run q' t end) as Hstep.
  { intros q t Hq. rewrite (hp_run_line q _ _ ltac:(congruence) (Hline t)), take_app_length, app_assoc, drop_app_length' by by rewrite length_app.
    unfold hp_line. by rewrite Hq. }
  rewrite Hstep in Ho by done. destruct (header_line p line) as [[p' ret]|] eqn:Eh; [|done]. cbn [mbind option_bind] in Ho.
  assert (ret = None \/ ret = Some kError) as Hret.
  { revert Eh. unfold header_line. destruct line as [|c line]; [done|]. clear. split_options; intros E; simplify_eq/=; auto. }
  destruct Hret as [Hret|Hret]; subst ret; [|done].
  assert (hp_state p' = kHeaderName) as Hs'.
  { revert Eh. unfold header_line. destruct line as [|c line]; [done|]. clear -Hs. split_options; intros E; by simplify_eq/=. }
  destruct (IH tail p' req) as (he & Hf & Ho'); [rewrite !length_app in Hn; simpl in Hn; lia|done|done|].
  exists (2 + length line + he)%nat. split; [by apply find_blank_next|].
  assert (take (2 + length line + he) (CRLF ++ line ++ CRLF ++ tail) = CRLF ++ line ++ take he (CRLF ++ tail)) as ->.
  { change (CRLF ++ line ++ CRLF ++ tail) with (z2b 13 :: z2b 10 :: line ++ CRLF ++ tail). cbn [Nat.add take]. by rewrite take_app_add. }
  assert (drop (2 + length line + he) (CRLF ++ line ++ CRLF ++ tail) = drop he (CRLF ++ tail)) as ->.
  { change (CRLF ++ line ++ CRLF ++ tail) with (z2b 13 :: z2b 10 :: line ++ CRLF ++ tail). cbn [Nat.add drop]. by rewrite drop_app_add. }
  rewrite <- !app_assoc. rewrite (app_assoc line). change (drop 2 (CRLF ++ ?x)) with x.
  rewrite <- app_assoc. rewrite (insertion_starts tail he (close_line ++ drop he (CRLF ++ tail)) Hf), Hstep, Eh by done. exact Ho'.
Qed.

(** The request the backend reads: the client's, with the header added unless the head mentions
    one. *)
Definition mentions_connection (raw : bytes) : bool :=
  match find_sub (CRLF ++ CRLF) raw with
  | Some he => headerHas (toLowerCopy (take he raw)) (bs "connection:")
  | None => false
  end.

Lemma add_close_parse raw req :
  outcome (hp_feed HttpParser_new raw) = Some (kOk, kDone, req) ->
  outcome (hp_feed HttpParser_new (add_close raw)) = Some (kOk, kDone, if mentions_connection raw then req else add_close_header req).
Proof.
  intros Ho. pose proof Ho as Ho0. rewrite hp_feed_run in Ho. cbn [hp_buffer HttpParser_new app] in Ho.
  destruct (find_sub CRLF raw) as [le|] eqn:El; [|by rewrite hp_run_short in Ho].
  destruct (crlf_split raw le El) as (line & tail & -> & <-).
  assert (forall t, find_sub CRLF (line ++ CRLF ++ t) = Some (length line)) as Hline.
  { intros t. rewrite app_assoc. apply find_sub_app. apply (find_sub_prefix _ _ tail); [by rewrite <- app_assoc|]. by rewrite length_app. }
  assert (forall t, hp_run HttpParser_new (line ++ CRLF ++ t) = p ← request_line HttpParser_new line; hp_run p t) as Hstep.
  { intros t. rewrite (hp_run_line HttpParser_new _ _ ltac:(done) (Hline t)), take_app_length, app_assoc, drop_app_length' by by rewrite length_app.
    unfold hp_line. cbn [hp_state HttpParser_new]. by destruct (request_line HttpParser_new line). }
  rewrite Hstep in Ho. destruct (request_line HttpParser_new line) as [p|] eqn:Er; [|done]. cbn [mbind option_bind] in Ho.
  assert (hp_state p = kHeaderName) as Hs by (revert Er; unfold request_line; clear; cbn; split_options; intros E; by simplify_eq/=).
  destruct (hp_run_close (S (length tail)) tail p req ltac:(lia) Hs Ho) as (he & Hf & Hc).
  pose proof (find_blank line tail he El Hf) as Hb. unfold add_close, mentions_connection, headerHas. rewrite Hb.
  destruct (find_sub (bs "connection:") _) as [k|]; [by rewrite bool_decide_eq_true_2|].
  rewrite bool_decide_eq_false_2 by (by intros [? ?]). rewrite take_app_add, drop_app_add, <- app_assoc, hp_feed_run. cbn [hp_buffer HttpParser_new app].
  fold close_line. rewrite (insertion_starts tail he (close_line ++ drop he (CRLF ++ tail)) Hf), Hstep. exact Hc.
Qed.

(** C26: a request that arrives in any pieces is forwarded whole, and the answer comes back.  Let
    the pieces of a well-formed request (less than 1 MiB with what follows it) arrive, let an
    upstream be selected, be reachable and take the request, and let it answer with a
    response of announced length (headers of at most 64 KiB, neither chunked nor an event
    stream) in any pieces that the client takes.  Then the bytes the upstream receives are
    parsed as the same request, with a header [Connection: close] added unless the head of
    the request mentions a connection header; the client receives exactly the bytes of the
    response; and both are closed, with all counts as before. *)
Theorem gateway_forwards_request (r : HttpRequest) (extra : bytes) (chunks : list bytes) (m : UpstreamManager) (g : Gate) (p : nat) (cw : list Z)
  (head body : bytes) (answer : list bytes) (reply : wr) :
  request_ok r -> concat chunks = print_request (with_content_length r) ++ extra -> zlen (concat chunks) < kMaxRequestBytes ->
  wrr_select (gt_heap g) m (gt_weights g) = (Some p, cw) ->
  announced head body -> concat answer = resp head body -> Forall (fun c => c <> []) answer ->
  exists raw fwd, raw `prefix_of` concat chunks /\
    outcome (hp_feed HttpParser_new fwd) =
      Some (kOk, kDone, if mentions_connection raw then with_content_length r else add_close_header (with_content_length r)) /\
    handleClient m (RdData <$> chunks) true WrAll (map (fun c => (true, RdData c, WrAll)) answer) reply g =
      HDone [EForward p fwd; EClient (resp head body); ECloseBackend; ECloseClient] (mkGate (gt_heap g) cw (gt_inflight g)).
Proof.
  intros Hr Hc Hz Hs Ha Hans Hne. pose proof (parse_print_ok r extra Hr) as Hp. rewrite <- Hc, <- feed_chunks_concat in Hp by done.
  destruct (readFull_chunks chunks HttpParser_new [] _ _ waiting_new Hz Hp) as (pre & Hpre & Hf & Hread). cbn [app] in Hread.
  exists (concat pre), (add_close (concat pre)). split; [destruct Hpre as [post ->]; rewrite concat_app; by apply prefix_app_r|].
  rewrite feed_chunks_concat in Hf by done. split; [by apply add_close_parse|].
  destruct (relay_whole head body answer Ha Hans Hne) as (rl & Hrl & Hout).
  unfold handleClient. rewrite Hread. cbn [gt_heap gt_weights gt_inflight]. rewrite Hs. cbn [negb gt_heap gt_weights gt_inflight].
  rewrite Hrl, alter_active, Hout. do 2 f_equal. lia.
Qed.

Lemma gateway_forwards_request_witness :
  let raw := print_request (with_content_length demo_request) in
  exists fwd g', handleClient demo_manager (RdData <$> [take 10 raw; drop 10 raw]) true WrAll
      (map (fun c => (true, RdData c, WrAll)) demo_reply) WrAll (mkGate demo_heap [0; 0; 0; 0] 0) =
    HDone [EForward 0 fwd; EClient (concat demo_reply); ECloseBackend; ECloseClient] g' /\
    outcome (hp_feed HttpParser_new fwd) = Some (kOk, kDone, add_close_header (with_content_length demo_request)).
Proof.
  intros raw. destruct (gateway_forwards_request demo_request [] [take 10 raw; drop 10 raw] demo_manager (mkGate demo_heap [0; 0; 0; 0] 0) 0 [-3; 0; 1; 2]
    (bs "HTTP/1.1 200 OK" ++ CRLF ++ bs "Content-Length: 5") (bs "hello") demo_reply WrAll) as (raw' & fwd & Hraw & Hf & Hh).
  - split.
    + split; repeat split; by apply (bool_decide_unpack _).
    + repeat constructor; by apply (bool_decide_unpack _).
    + repeat constructor; by apply (bool_decide_unpack _).
    + by exists [(bs "Host", bs "kv"); (bs "X-Id", bs "a: b")].
    + by apply (bool_decide_unpack _).
  - by vm_compute.
  - by vm_compute.
  - by vm_compute.
  - split; try (vm_compute; congruence).
  - vm_compute. reflexivity.
  - repeat constructor; discriminate.
  - pose proof Hh as Hh'. vm_compute in Hh. injection Hh as Efwd. exists fwd. eexists. split; [exact Hh'|]. rewrite <- Efwd. vm_compute. reflexivity.
Defined.
