(* ===== verification/GatewayConfig.v ===== *)
(** * The configuration file of the gateway

    [config/config.cpp] of skynet: a line-oriented reader for a small subset of YAML.  The
    lines are the ones [std::getline] gives; [None] is an exception of [std::stoi]. *)

From Stdlib Require Import ZArith Lia.
From stdpp Require Import base numbers strings list.
From S2P Require Import Prelude CppString LoadBalance Http HttpProofs Gateway.
Local Open Scope Z_scope.

Record UpstreamConfig := mkUC { uc_host : bytes; uc_port : Z; uc_weight : Z }.

Record Config := mkConfig {
  cf_listen_port : Z;
  cf_worker_threads : Z;
  cf_upstreams : list UpstreamConfig;
  cf_interval : Z;
  cf_timeout : Z;
  cf_path : bytes;
  cf_max_connections : Z;
  cf_per_ip_max : Z;
}.

Definition default_config : Config := mkConfig 8080 4 [] 5 200 (bs "/health") 10000 100.

Definition is_blank (c : byte) : bool := (b2z c =? 32) || (b2z c =? 9).

(** Trailing white space, then leading blanks and tabs. *)
Definition trim_end (s : bytes) : bytes := reverse (skip_space (reverse s)).
Definition trim (s : bytes) : bytes := skip_blank (trim_end s).

(** The state of the reading loop: [ls_current] is [current_up], which points at the last
    upstream when it is not null. *)
Record Load := mkLoad { ls_cfg : Config; ls_section : bytes; ls_current : bool }.

Definition set_upstreams (c : Config) (us : list UpstreamConfig) : Config :=
  mkConfig (cf_listen_port c) (cf_worker_threads c) us (cf_interval c) (cf_timeout c) (cf_path c) (cf_max_connections c) (cf_per_ip_max c).

Definition is_key (key : bytes) (name : string) : bool := bool_decide (key = bs name).

(** The fields of an upstream. *)
Definition set_field (u : UpstreamConfig) (key val : bytes) : option UpstreamConfig :=
  if is_key key "host" then Some (mkUC val (uc_port u) (uc_weight u))
  else if is_key key "port" then n ← stoi val; Some (mkUC (uc_host u) n (uc_weight u))
  else if is_key key "weight" then n ← stoi val; Some (mkUC (uc_host u) (uc_port u) n)
  else Some u.

Definition set_last (us : list UpstreamConfig) (key val : bytes) : option (list UpstreamConfig) :=
  match last us with
  | Some u => u' ← set_field u key val; Some (take (length us - 1) us ++ [u'])
  | None => Some us
  end.

(** The fields of the other sections. *)
Definition set_config (c : Config) (section key val : bytes) : option Config :=
  if is_key section "listen" then
    if is_key key "port" then n ← stoi val; Some (mkConfig n (cf_worker_threads c) (cf_upstreams c) (cf_interval c) (cf_timeout c) (cf_path c) (cf_max_connections c) (cf_per_ip_max c))
    else if is_key key "threads" then n ← stoi val; Some (mkConfig (cf_listen_port c) n (cf_upstreams c) (cf_interval c) (cf_timeout c) (cf_path c) (cf_max_connections c) (cf_per_ip_max c))
    else Some c
  else if is_key section "health_check" then
    if is_key key "interval" then n ← stoi val; Some (mkConfig (cf_listen_port c) (cf_worker_threads c) (cf_upstreams c) n (cf_timeout c) (cf_path c) (cf_max_connections c) (cf_per_ip_max c))
    else if is_key key "timeout" then n ← stoi val; Some (mkConfig (cf_listen_port c) (cf_worker_threads c) (cf_upstreams c) (cf_interval c) n (cf_path c) (cf_max_connections c) (cf_per_ip_max c))
    else if is_key key "path" then Some (mkConfig (cf_listen_port c) (cf_worker_threads c) (cf_upstreams c) (cf_interval c) (cf_timeout c) val (cf_max_connections c) (cf_per_ip_max c))
    else Some c
  else if is_key section "limits" then
    if is_key key "max_connections" then n ← stoi val; Some (mkConfig (cf_listen_port c) (cf_worker_threads c) (cf_upstreams c) (cf_interval c) (cf_timeout c) (cf_path c) n (cf_per_ip_max c))
    else if is_key key "per_ip_max" then n ← stoi val; Some (mkConfig (cf_listen_port c) (cf_worker_threads c) (cf_upstreams c) (cf_interval c) (cf_timeout c) (cf_path c) (cf_max_connections c) n)
    else Some c
  else Some c.

(** [key: value] split at the first colon. *)
Definition key_value (s : bytes) : option (bytes * bytes) :=
  match find_index (fun c => bool_decide (c = chr ":")) s with
  | Some i => Some (trim (take i s), trim (drop (S i) s))
  | None => None
  end.

(** The only colon of the line is its last character. *)
Definition is_header (line : bytes) : bool :=
  match find_index (fun c => bool_decide (c = chr ":")) line with Some i => (i =? length line - 1)%nat | None => false end.

Definition load_line (s : Load) (raw : bytes) : option Load :=
  let line := trim raw in
  match line with
  | [] => Some s
  | c :: rest =>
      if bool_decide (c = chr "#") then Some s
      else if is_header line then Some (mkLoad (ls_cfg s) (take (length line - 1) line) false)
      else if bool_decide (c = chr "-") then
        let us := cf_upstreams (ls_cfg s) ++ [mkUC [] 0 1] in
        let s := mkLoad (set_upstreams (ls_cfg s) us) (bs "upstreams") true in
        match key_value (trim rest) with
        | Some (key, val) => us ← set_last us key val; Some (mkLoad (set_upstreams (ls_cfg s) us) (bs "upstreams") true)
        | None => Some s
        end
      else
        match key_value line with
        | None => Some s
        | Some (key, val) =>
            if is_key (ls_section s) "upstreams" then
              if ls_current s then us ← set_last (cf_upstreams (ls_cfg s)) key val; Some (mkLoad (set_upstreams (ls_cfg s) us) (ls_section s) true)
              else Some s
            else cfg ← set_config (ls_cfg s) (ls_section s) key val; Some (mkLoad cfg (ls_section s) (ls_current s))
        end
  end.

Fixpoint load_lines (s : Load) (lines : list bytes) : option Load :=
  match lines with [] => Some s | l :: ls => s ← load_line s l; load_lines s ls end.

Definition config_load (lines : list bytes) : option Config := ls_cfg <$> load_lines (mkLoad default_config [] false) lines.

(** The upstreams [main] hands to the manager. *)
Definition config_upstreams (c : Config) : list Upstream :=
  map (fun u => mkUp (uc_host u) (uc_port u) (uc_weight u) 0 true) (cf_upstreams c).
Definition config_threads (c : Config) : Z := if cf_worker_threads c >? 0 then cf_worker_threads c else 1.

(** ** Printing and reading *)

(** No white space at either end. *)
Definition neat (s : bytes) : Prop :=
  (exists c t, s = c :: t /\ is_space c = false) /\ (exists t c, s = t ++ [c] /\ is_space c = false).

Definition blanks (s : bytes) : Prop := Forall (fun c => is_blank c = true) s.

Lemma skip_blank_app ind c t : blanks ind -> is_space c = false -> skip_blank (ind ++ c :: t) = c :: t.
Proof.
  intros Hi Hc. induction Hi as [|x ind Hx _ IH]; simpl.
  - unfold is_space in Hc. destruct (Z.eqb_spec (b2z c) 32) as [E|_]; [by rewrite E in Hc|]. destruct (Z.eqb_spec (b2z c) 9) as [E|_]; [|done].
    by rewrite E in Hc.
  - unfold is_blank in Hx. by rewrite Hx.
Qed.

Lemma trim_end_neat s t c : is_space c = false -> trim_end (s ++ t ++ [c]) = s ++ t ++ [c].
Proof. intros Hc. unfold trim_end. rewrite app_assoc, reverse_snoc. simpl. rewrite Hc, reverse_cons, reverse_involutive. done. Qed.

Lemma trim_neat ind s : blanks ind -> neat s -> trim (ind ++ s) = s.
Proof.
  intros Hi [(c & t & E1 & Hc) (t' & c' & E2 & Hc')]. unfold trim. rewrite E2 at 1. rewrite trim_end_neat, <- E2, E1 by done. by apply skip_blank_app.
Qed.

Lemma trim_id s : neat s -> trim s = s.
Proof. apply (trim_neat []). constructor. Qed.

Lemma neat_app a b : neat a -> neat b -> forall m, neat (a ++ m ++ b).
Proof.
  intros [(c & t & -> & Hc) _] [_ (t' & c' & -> & Hc')] m. split; [exists c, (t ++ m ++ t' ++ [c'])|exists ((c :: t) ++ m ++ t'), c'; rewrite <- !app_assoc]; done.
Qed.

Lemma to_string_neat n : neat (to_string n).
Proof.
  assert (forall c, is_digit c = true -> is_space c = false) as Hd.
  { intros c. unfold is_digit, is_space. intros H. destruct (Z.eqb_spec (b2z c) 32); [lia|]. replace (b2z c <=? 13) with false by lia. by rewrite andb_false_r. }
  pose proof (to_string_digits n) as Hall. pose proof (to_string_nonempty n) as Hn. rewrite Forall_forall in Hall. split.
  - destruct (to_string n) as [|c t]; [simpl in Hn; lia|]. exists c, t. split; [done|]. apply Hd, Hall. left.
  - destruct (exists_last (l := to_string n)) as (t & c & E); [by intros E; rewrite E in Hn; simpl in Hn; lia|].
    exists t, c. split; [done|]. apply Hd, Hall. rewrite E. apply elem_of_app. right. left.
Qed.

Lemma stoi_to_string n : 0 <= n < 2 ^ 31 -> stoi (to_string n) = Some n.
Proof.
  intros Hn. pose proof (atoi_to_string n ltac:(lia)) as Ha. pose proof (to_string_digits n) as Hd. pose proof (to_string_nonempty n) as Hl.
  destruct (proj1 (to_string_neat n)) as (c & t & E & Hc). unfold stoi, atoi in *. rewrite E in *. cbn [skip_space] in *. rewrite Hc in *.
  apply Forall_cons in Hd as [Hdig _]. pose proof Hdig as Hr. unfold is_digit in Hr.
  destruct (Z.eqb_spec (b2z c) 45) as [|_]; [lia|]. destruct (Z.eqb_spec (b2z c) 43) as [|_]; [lia|].
  unfold stoi_digits. rewrite Hdig, Ha. destruct (Z.leb_spec (- 2 ^ 31) n); [|lia]. by destruct (Z.ltb_spec n (2 ^ 31)); [|lia].
Qed.

(** A key of a line. *)
Definition key_ok (k : bytes) : Prop := neat k /\ chr ":" ∉ k /\ head k <> Some (chr "#") /\ head k <> Some (chr "-").

Definition kv (k v : bytes) : bytes := k ++ bs ": " ++ v.

Lemma colon_at k v : chr ":" ∉ k -> find_index (fun c => bool_decide (c = chr ":")) (kv k v) = Some (length k).
Proof. intros Hk. apply (find_index_app _ k (chr ":") (bs " " ++ v)); [by apply no_char|by apply bool_decide_eq_true_2]. Qed.

Lemma key_value_kv k v : neat k -> chr ":" ∉ k -> neat v -> key_value (kv k v) = Some (k, v).
Proof.
  intros Hn Hk Hv. unfold key_value. rewrite colon_at by done. unfold kv. rewrite take_app_length.
  replace (drop (S (length k)) (k ++ bs ": " ++ v)) with (bs " " ++ v).
  2: { replace (S (length k)) with (length (k ++ bs ":")) by (rewrite length_app; simpl; lia).
       replace (k ++ bs ": " ++ v) with ((k ++ bs ":") ++ bs " " ++ v) by (by rewrite <- app_assoc). by rewrite drop_app_length. }
  rewrite trim_id, trim_neat by (try done; repeat constructor; done). done.
Qed.

Lemma is_header_kv p k v : chr ":" ∉ p ++ k -> neat v -> is_header (p ++ kv k v) = false.
Proof.
  intros Hk [(c & t & -> & _) _]. unfold is_header. replace (p ++ kv k (c :: t)) with (kv (p ++ k) (c :: t)) by (unfold kv; by rewrite <- app_assoc).
  rewrite colon_at by done. apply Nat.eqb_neq. unfold kv. rewrite !length_app. simpl. lia.
Qed.

(** A line of a section, and of the current upstream. *)
Lemma load_kv s ind k v : blanks ind -> key_ok k -> neat v ->
  load_line s (ind ++ kv k v) =
  if is_key (ls_section s) "upstreams" then
    if ls_current s then us ← set_last (cf_upstreams (ls_cfg s)) k v; Some (mkLoad (set_upstreams (ls_cfg s) us) (ls_section s) true) else Some s
  else cfg ← set_config (ls_cfg s) (ls_section s) k v; Some (mkLoad cfg (ls_section s) (ls_current s)).
Proof.
  intros Hi (Hn & Hk & Hh & Hd) Hv. unfold load_line. rewrite trim_neat by (try done; apply (neat_app k v Hn Hv)).
  pose proof (is_header_kv [] k v Hk Hv) as Eh. cbn [app] in Eh. rewrite Eh, key_value_kv by done. clear Eh. unfold kv. destruct k as [|c k]; [by destruct Hn as [(? & ? & ? & _) _]|].
  cbn [app head] in *. rewrite (bool_decide_eq_false_2 (c = chr "#")), (bool_decide_eq_false_2 (c = chr "-")) by congruence. done.
Qed.

Lemma load_header s name : neat name -> chr ":" ∉ name -> head name <> Some (chr "#") ->
  load_line s (name ++ bs ":") = Some (mkLoad (ls_cfg s) name false).
Proof.
  intros Hn Hk Hh. unfold load_line. rewrite (trim_id (name ++ bs ":")).
  2: { split; [destruct Hn as [(c & t & -> & Hc) _]; by exists c, (t ++ bs ":")|by exists name, (chr ":")]. }
  assert (is_header (name ++ bs ":") = true) as ->.
  { unfold is_header. rewrite (find_index_app _ name (chr ":") []); [|by apply no_char|by apply bool_decide_eq_true_2].
    apply Nat.eqb_eq. rewrite length_app. simpl. lia. }
  replace (take (length (name ++ bs ":") - 1) (name ++ bs ":")) with name by (rewrite length_app; simpl; rewrite Nat.add_sub; by rewrite take_app_length).
  destruct name as [|c name]; [by destruct Hn as [(? & ? & ? & _) _]|]. cbn [app head] in *. by rewrite bool_decide_eq_false_2 by congruence.
Qed.

(** A list item with its host. *)
Lemma load_item s ind host : blanks ind -> neat host ->
  load_line s (ind ++ bs "- " ++ kv (bs "host") host) =
  Some (mkLoad (set_upstreams (ls_cfg s) (cf_upstreams (ls_cfg s) ++ [mkUC host 0 1])) (bs "upstreams") true).
Proof.
  intros Hi Hv. unfold load_line. assert (neat (bs "host") /\ chr ":" ∉ bs "- " ++ bs "host") as [Hn Hc].
  { split; [|by apply (bool_decide_unpack _)]. split; [by exists (chr "h"), (bs "ost")|by exists (bs "hos"), (chr "t")]. }
  rewrite trim_neat; [|done|].
  2: { apply (neat_app (bs "- host") host) with (m := bs ": "); [|done]. split; [by exists (chr "-"), (bs " host")|by exists (bs "- hos"), (chr "t")]. }
  rewrite is_header_kv by done. cbn [app]. change (bs "- ") with [chr "-"; chr " "]. cbn [app].
  rewrite (bool_decide_eq_false_2 (chr "-" = chr "#")), (bool_decide_eq_true_2 (chr "-" = chr "-")) by done.
  change (chr " " :: kv (bs "host") host) with ([chr " "] ++ kv (bs "host") host).
  rewrite trim_neat; [|by repeat constructor|by apply neat_app].
  rewrite key_value_kv by (try done; by apply (bool_decide_unpack _)). unfold set_last. rewrite last_snoc. cbn [set_field].
  replace (take (length (cf_upstreams (ls_cfg s) ++ [mkUC [] 0 1]) - 1) (cf_upstreams (ls_cfg s) ++ [mkUC [] 0 1])) with (cf_upstreams (ls_cfg s)).
  2: { rewrite length_app. simpl. rewrite Nat.add_sub. by rewrite take_app_length. }
  done.
Qed.

Definition ind2 : bytes := bs "  ".
Definition ind4 : bytes := bs "    ".

Definition print_upstream (u : UpstreamConfig) : list bytes :=
  [ind2 ++ bs "- " ++ kv (bs "host") (uc_host u); ind4 ++ kv (bs "port") (to_string (uc_port u)); ind4 ++ kv (bs "weight") (to_string (uc_weight u))].

Definition print_listen (c : Config) : list bytes :=
  [bs "listen" ++ bs ":"; ind2 ++ kv (bs "port") (to_string (cf_listen_port c)); ind2 ++ kv (bs "threads") (to_string (cf_worker_threads c))].
Definition print_health (c : Config) : list bytes :=
  [bs "health_check" ++ bs ":"; ind2 ++ kv (bs "interval") (to_string (cf_interval c)); ind2 ++ kv (bs "timeout") (to_string (cf_timeout c));
   ind2 ++ kv (bs "path") (cf_path c)].
Definition print_limits (c : Config) : list bytes :=
  [bs "limits" ++ bs ":"; ind2 ++ kv (bs "max_connections") (to_string (cf_max_connections c)); ind2 ++ kv (bs "per_ip_max") (to_string (cf_per_ip_max c))].

(** A configuration in the layout of [gateway.yaml]. *)
Definition print_config (c : Config) : list bytes :=
  print_listen c ++ [] :: (bs "upstreams" ++ bs ":") :: (cf_upstreams c ≫= print_upstream) ++ [] :: print_health c ++ [] :: print_limits c.

Definition int_ok (n : Z) : Prop := 0 <= n < 2 ^ 31.
Record config_ok (c : Config) : Prop := {
  co_ints : Forall int_ok [cf_listen_port c; cf_worker_threads c; cf_interval c; cf_timeout c; cf_max_connections c; cf_per_ip_max c];
  co_path : neat (cf_path c);
  co_upstreams : Forall (fun u => neat (uc_host u) /\ int_ok (uc_port u) /\ int_ok (uc_weight u)) (cf_upstreams c);
}.

Lemma word_neat s : match s with c :: t => is_space c = false | [] => False end -> (match last s with Some c => is_space c = false | None => False end) -> neat s.
Proof.
  intros H1 H2. split.
  - destruct s as [|c t]; [done|]. by exists c, t.
  - destruct (last s) as [c|] eqn:E; [|done]. apply last_Some in E as [t ->]. by exists t, c.
Qed.

(** Words written out in the reader's source are keys. *)
Ltac solve_word := first [apply word_neat; reflexivity|by apply (bool_decide_unpack _)|done].
Ltac solve_key := refine (conj _ (conj _ (conj _ _))); solve_word.

Lemma blanks_ind : blanks ind2 /\ blanks ind4.
Proof. split; repeat constructor. Qed.

(** A number of a section other than the upstreams. *)
Lemma load_section_line s ind k v cfg : blanks ind -> key_ok k -> neat v -> is_key (ls_section s) "upstreams" = false ->
  set_config (ls_cfg s) (ls_section s) k v = Some cfg -> load_line s (ind ++ kv k v) = Some (mkLoad cfg (ls_section s) (ls_current s)).
Proof. intros Hi Hk Hv Hs Hc. rewrite load_kv by done. by rewrite Hs, Hc. Qed.

Lemma load_upstream_line s us u u' k v : key_ok k -> neat v -> ls_section s = bs "upstreams" -> ls_current s = true ->
  cf_upstreams (ls_cfg s) = us ++ [u] -> set_field u k v = Some u' ->
  load_line s (ind4 ++ kv k v) = Some (mkLoad (set_upstreams (ls_cfg s) (us ++ [u'])) (bs "upstreams") true).
Proof.
  intros Hk Hv Hs Hc Hu Hf. rewrite load_kv by (try done; apply blanks_ind). rewrite Hs, Hc. change (is_key (bs "upstreams") "upstreams") with true. cbn.
  unfold set_last. rewrite Hu, last_snoc, Hf. cbn. rewrite length_app. cbn. by rewrite Nat.add_sub, take_app_length.
Qed.

Lemma load_lines_step s s1 l ls : load_line s l = Some s1 -> load_lines s (l :: ls) = load_lines s1 ls.
Proof. intros H. cbn [load_lines]. by rewrite H. Qed.

Lemma set_field_names u v :
  set_field u (bs "port") v = (n ← stoi v; Some (mkUC (uc_host u) n (uc_weight u))) /\
  set_field u (bs "weight") v = (n ← stoi v; Some (mkUC (uc_host u) (uc_port u) n)).
Proof. split; reflexivity. Qed.

Lemma load_print_upstream s u rest : neat (uc_host u) -> int_ok (uc_port u) -> int_ok (uc_weight u) ->
  load_lines s (print_upstream u ++ rest) =
  load_lines (mkLoad (set_upstreams (ls_cfg s) (cf_upstreams (ls_cfg s) ++ [u])) (bs "upstreams") true) rest.
Proof.
  intros Hh Hp Hw. unfold print_upstream. cbn [app].
  rewrite (load_lines_step _ _ _ _ (load_item s ind2 (uc_host u) (proj1 blanks_ind) Hh)).
  assert (key_ok (bs "port") /\ key_ok (bs "weight")) as [K1 K2] by (split; solve_key).
  erewrite load_lines_step; [|eapply (load_upstream_line _ (cf_upstreams (ls_cfg s)) (mkUC (uc_host u) 0 1) (mkUC (uc_host u) (uc_port u) 1));
    [exact K1|apply to_string_neat|done|done|done|rewrite (proj1 (set_field_names _ _)); by rewrite stoi_to_string]].
  erewrite load_lines_step; [|eapply (load_upstream_line _ (cf_upstreams (ls_cfg s)) (mkUC (uc_host u) (uc_port u) 1) u);
    [exact K2|apply to_string_neat|done|done|done|rewrite (proj2 (set_field_names _ _)), stoi_to_string by done; by destruct u]].
  done.
Qed.

Lemma load_print_upstreams us : forall s rest,
  Forall (fun u => neat (uc_host u) /\ int_ok (uc_port u) /\ int_ok (uc_weight u)) us -> ls_section s = bs "upstreams" ->
  exists cur, load_lines s ((us ≫= print_upstream) ++ rest) =
    load_lines (mkLoad (set_upstreams (ls_cfg s) (cf_upstreams (ls_cfg s) ++ us)) (bs "upstreams") cur) rest.
Proof.
  induction us as [|u us IH]; intros s rest Hok Hs.
  { exists (ls_current s). cbn [mbind list_bind app]. rewrite app_nil_r. destruct s as [[] sec cur]. simpl in *. by subst. }
  apply Forall_cons in Hok as [(H1 & H2 & H3) Hok]. rewrite bind_cons, <- app_assoc, load_print_upstream by done.
  destruct (IH (mkLoad (set_upstreams (ls_cfg s) (cf_upstreams (ls_cfg s) ++ [u])) (bs "upstreams") true) rest Hok eq_refl) as [cur ->].
  exists cur. cbn. by rewrite <- app_assoc.
Qed.

Lemma load_blank s ls : load_lines s ([] :: ls) = load_lines s ls.
Proof. done. Qed.

Lemma load_section s name ls : neat name -> chr ":" ∉ name -> head name <> Some (chr "#") ->
  load_lines s ((name ++ bs ":") :: ls) = load_lines (mkLoad (ls_cfg s) name false) ls.
Proof. intros H1 H2 H3. by rewrite (load_lines_step _ _ _ _ (load_header s name H1 H2 H3)). Qed.

Lemma set_config_names c v n : stoi v = Some n ->
  set_config c (bs "listen") (bs "port") v = Some (mkConfig n (cf_worker_threads c) (cf_upstreams c) (cf_interval c) (cf_timeout c) (cf_path c) (cf_max_connections c) (cf_per_ip_max c)) /\
  set_config c (bs "listen") (bs "threads") v = Some (mkConfig (cf_listen_port c) n (cf_upstreams c) (cf_interval c) (cf_timeout c) (cf_path c) (cf_max_connections c) (cf_per_ip_max c)) /\
  set_config c (bs "health_check") (bs "interval") v = Some (mkConfig (cf_listen_port c) (cf_worker_threads c) (cf_upstreams c) n (cf_timeout c) (cf_path c) (cf_max_connections c) (cf_per_ip_max c)) /\
  set_config c (bs "health_check") (bs "timeout") v = Some (mkConfig (cf_listen_port c) (cf_worker_threads c) (cf_upstreams c) (cf_interval c) n (cf_path c) (cf_max_connections c) (cf_per_ip_max c)) /\
  set_config c (bs "limits") (bs "max_connections") v = Some (mkConfig (cf_listen_port c) (cf_worker_threads c) (cf_upstreams c) (cf_interval c) (cf_timeout c) (cf_path c) n (cf_per_ip_max c)) /\
  set_config c (bs "limits") (bs "per_ip_max") v = Some (mkConfig (cf_listen_port c) (cf_worker_threads c) (cf_upstreams c) (cf_interval c) (cf_timeout c) (cf_path c) (cf_max_connections c) n).
Proof. intros H. repeat split; unfold set_config; cbn; by rewrite H. Qed.

Lemma set_config_path c v : set_config c (bs "health_check") (bs "path") v = Some (mkConfig (cf_listen_port c) (cf_worker_threads c) (cf_upstreams c) (cf_interval c) (cf_timeout c) v (cf_max_connections c) (cf_per_ip_max c)).
Proof. reflexivity. Qed.

(** One number, one more field set. *)
Lemma load_int c sec cur k n ls cfg :
  key_ok k -> int_ok n -> is_key sec "upstreams" = false -> set_config c sec k (to_string n) = Some cfg ->
  load_lines (mkLoad c sec cur) ((ind2 ++ kv k (to_string n)) :: ls) = load_lines (mkLoad cfg sec cur) ls.
Proof.
  intros Hk Hn Hs Hc. erewrite load_lines_step; [done|].
  by apply (load_section_line (mkLoad c sec cur)); [apply blanks_ind|done|apply to_string_neat|done|].
Qed.

Ltac load_field := erewrite load_int; [|solve_key|eassumption|reflexivity|apply set_config_names; by apply stoi_to_string].

(** Reading is a left inverse of printing: every configuration whose numbers are non-negative
    [int]s and whose hosts and path have no white space at their ends, written in the layout
    of the shipped [gateway.yaml], is read back exactly, whatever the number of upstreams. *)
Theorem config_roundtrip (c : Config) : config_ok c -> config_load (print_config c) = Some c.
Proof.
  intros [Hi Hp Hu]. repeat (apply Forall_cons in Hi as [? Hi]).
  unfold config_load, print_config, print_listen, print_health, print_limits. cbn [app].
  rewrite load_section by solve_word. cbn [ls_cfg]. do 2 load_field. rewrite load_blank.
  rewrite load_section by solve_word. cbn [ls_cfg].
  edestruct (load_print_upstreams (cf_upstreams c)) as [cur E]; [exact Hu| |rewrite E; clear E]; [done|].
  rewrite load_blank. cbn [app]. rewrite load_section by solve_word. cbn [ls_cfg]. do 2 load_field.
  erewrite load_lines_step; [|apply load_section_line; [apply blanks_ind|solve_key|exact Hp|reflexivity|apply set_config_path]].
  rewrite load_blank. rewrite load_section by solve_word. cbn [ls_cfg]. do 2 load_field.
  cbn [load_lines fmap option_fmap option_map ls_cfg cf_listen_port cf_worker_threads cf_upstreams cf_interval cf_timeout cf_path cf_max_connections cf_per_ip_max set_upstreams default_config app].
  destruct c. reflexivity.
Qed.

Lemma config_roundtrip_witness :
  config_load (print_config (mkConfig 8080 4 [mkUC (bs "127.0.0.1") 18080 1; mkUC (bs "10.0.0.2") 80 3] 5 200 (bs "/healthz") 10000 100)) =
  Some (mkConfig 8080 4 [mkUC (bs "127.0.0.1") 18080 1; mkUC (bs "10.0.0.2") 80 3] 5 200 (bs "/healthz") 10000 100).
Proof.
  apply config_roundtrip. split.
  - repeat constructor; by apply (bool_decide_unpack _).
  - solve_word.
  - repeat constructor; try solve_word; by apply (bool_decide_unpack _).
Defined.
