(* ===== verification/Ownership.v ===== *)
(** * Unique ownership

    Unique pointers and coroutine handles: [practice/handwrite/test_unique_ptr_handwrite.cpp]
    (a unique pointer with a deleter), the pointer of [practice/module03_modern_cpp/main.cpp]
    (the same without a deleter), and the owners of coroutine frames, [core::Task] of skynet
    and the [Task] of [practice/module09_epoll_coro/main.cpp].  All are variables that hold at
    most one object and give it away by moving. *)

From Stdlib Require Import Lia.
From stdpp Require Import base numbers strings list gmap.
From S2P Require Import Prelude.

(** ** Unique pointers

    Variables hold a pointer and a deleter; [alive] are the objects that exist, [raw] those
    whose pointer [release] has given away, [gone] the calls of deleters. *)

Section UniquePtr.
Context {D : Type}.

Record UniquePtr := mkUP { up_ptr : option nat; up_deleter : D }.

Record World := mkW {
  w_vars : gmap nat UniquePtr;
  w_alive : gset nat;
  w_raw : gset nat;
  w_gone : list (D * nat);
  w_next : nat;
}.

Definition World_new : World := mkW ∅ ∅ ∅ [] 0.

Definition set_var (w : World) (v : nat) (p : UniquePtr) : World :=
  mkW (<[v := p]> (w_vars w)) (w_alive w) (w_raw w) (w_gone w) (w_next w).

(** [new T(...)] *)
Definition w_new (w : World) : World * nat :=
  (mkW (w_vars w) ({[w_next w]} ∪ w_alive w) (w_raw w) (w_gone w) (S (w_next w)), w_next w).

(** Calling a deleter; deleting an object that is gone is undefined. *)
Definition w_delete (w : World) (d : D) (o : nat) : option World :=
  if decide (o ∈ w_alive w) then Some (mkW (w_vars w) (w_alive w ∖ {[o]}) (w_raw w) (w_gone w ++ [(d, o)]) (w_next w))
  else None.

(** [T* release()]: the pointer is returned and forgotten. *)
Definition up_release (w : World) (v : nat) : option (World * option nat) :=
  p ← w_vars w !! v;
  Some (set_var w v (mkUP None (up_deleter p)), up_ptr p).

(** [void reset(T* p)] *)
Definition up_reset (w : World) (v : nat) (np : option nat) : option World :=
  p ← w_vars w !! v;
  w ← match up_ptr p with Some o => w_delete w (up_deleter p) o | None => Some w end;
  Some (set_var w v (mkUP np (up_deleter p))).

(** [MyUniquePtr(T* p, Deleter d)] for a new object, and the empty pointer. *)
Definition up_make (w : World) (v : nat) (d : D) : World :=
  let '(w, o) := w_new w in set_var w v (mkUP (Some o) d).
Definition up_null (w : World) (v : nat) (d : D) : World := set_var w v (mkUP None d).

(** [ptr_(other.release()), deleter_(std::move(other.deleter_))]; a moved-from deleter keeps
    its value. *)
Definition up_move_ctor (w : World) (dst src : nat) : option World :=
  '(w, p) ← up_release w src;
  s ← w_vars w !! src;
  Some (set_var w dst (mkUP p (up_deleter s))).

Definition up_move_assign (w : World) (dst src : nat) : option World :=
  if decide (dst = src) then Some w
  else
    '(w, p) ← up_release w src;
    w ← up_reset w dst p;
    d ← w_vars w !! dst;
    s ← w_vars w !! src;
    Some (set_var w dst (mkUP (up_ptr d) (up_deleter s))).

(** The end of the variable's scope. *)
Definition up_destroy (w : World) (v : nat) : option World :=
  w ← up_reset w v None;
  Some (mkW (delete v (w_vars w)) (w_alive w) (w_raw w) (w_gone w) (w_next w)).

(** Module 3 has no deleter and moves in another order: [reset(); ptr_ = other.ptr_;
    other.ptr_ = nullptr]. *)
Definition m03_move_ctor (w : World) (dst src : nat) : option World :=
  s ← w_vars w !! src;
  Some (set_var (set_var w dst s) src (mkUP None (up_deleter s))).

Definition m03_move_assign (w : World) (dst src : nat) : option World :=
  if decide (dst = src) then Some w
  else
    w ← up_reset w dst None;
    d ← w_vars w !! dst;
    s ← w_vars w !! src;
    Some (set_var (set_var w dst (mkUP (up_ptr s) (up_deleter d))) src (mkUP None (up_deleter s))).

(** What a program does; [PRelease] keeps the pointer it gets, [PReset] gives a new object or
    none. *)
Inductive ptr_op :=
| PMake (v : nat) (d : D) | PNull (v : nat) (d : D) | PMoveCtor (dst src : nat) | PMoveAssign (dst src : nat)
| PReset (v : nat) (fresh : bool) | PRelease (v : nat) | PDestroy (v : nat)
| PMoveCtor3 (dst src : nat) | PMoveAssign3 (dst src : nat).

Definition ptr_step (w : World) (o : ptr_op) : option World :=
  match o with
  | PMake v d => Some (up_make w v d)
  | PNull v d => Some (up_null w v d)
  | PMoveCtor dst src => up_move_ctor w dst src
  | PMoveAssign dst src => up_move_assign w dst src
  | PReset v fresh => let '(w, p) := if fresh then (fun r => (r.1, Some r.2)) (w_new w) else (w, None) in up_reset w v p
  | PRelease v =>
      '(w, p) ← up_release w v;
      Some (match p with
            | Some o => mkW (w_vars w) (w_alive w) ({[o]} ∪ w_raw w) (w_gone w) (w_next w)
            | None => w
            end)
  | PDestroy v => up_destroy w v
  | PMoveCtor3 dst src => m03_move_ctor w dst src
  | PMoveAssign3 dst src => m03_move_assign w dst src
  end.

(** The compiler's rule: a variable is constructed once and used while it exists. *)
Definition scoped (w : World) (o : ptr_op) : Prop :=
  match o with
  | PMake v _ | PNull v _ => w_vars w !! v = None
  | PMoveCtor dst src | PMoveCtor3 dst src => w_vars w !! dst = None /\ is_Some (w_vars w !! src)
  | PMoveAssign dst src | PMoveAssign3 dst src => is_Some (w_vars w !! dst) /\ is_Some (w_vars w !! src)
  | PReset v _ | PRelease v | PDestroy v => is_Some (w_vars w !! v)
  end.

(** ** Ownership *)

Definition owns (w : World) (v o : nat) : Prop := up_ptr <$> w_vars w !! v = Some (Some o).

(** The objects of [X] are held by someone who is not a variable; every other object that is
    alive has exactly one owner, and every object made is alive or has been deleted once. *)
Record own (X : gset nat) (w : World) : Prop := {
  ow_unique v1 v2 o : owns w v1 o -> owns w v2 o -> v1 = v2;
  ow_alive o : o ∈ w_alive w <-> o ∈ X \/ exists v, owns w v o;
  ow_held v o : o ∈ X -> ~ owns w v o;
  ow_gone : NoDup (w_gone w).*2;
  ow_all o : (o < w_next w)%nat <-> o ∈ w_alive w \/ o ∈ (w_gone w).*2;
  ow_dead o : o ∈ w_alive w -> o ∉ (w_gone w).*2;
}.

Definition ptr_set (p : option nat) : gset nat := match p with Some o => {[o]} | None => ∅ end.

Lemma owns_set w v p v' o : owns (set_var w v p) v' o <-> if decide (v' = v) then up_ptr p = Some o else owns w v' o.
Proof.
  unfold owns, set_var. cbn. case_decide as E; [subst; rewrite lookup_insert_eq; cbn; split; congruence|by rewrite lookup_insert_ne].
Qed.

(** A variable gives its pointer to [X]. *)
Lemma own_release X w v p d :
  own X w -> w_vars w !! v = Some p -> own (ptr_set (up_ptr p) ∪ X) (set_var w v (mkUP None d)) /\ ptr_set (up_ptr p) ## X.
Proof.
  intros [Hu Ha Hh Hg Hn Hd] Hv. assert (forall o, owns w v o <-> o ∈ ptr_set (up_ptr p)) as Ho.
  { intros o. unfold owns. rewrite Hv. cbn. destruct (up_ptr p); cbn; [rewrite elem_of_singleton; split; congruence|split; [done|set_solver]]. }
  split; [|intros o Hp HX; by apply (Hh v o HX), Ho]. split; [..|done|done|done].
  - intros v1 v2 o. rewrite !owns_set. repeat case_decide; try done. apply Hu.
  - intros o. cbn. rewrite Ha, elem_of_union, <- Ho. split.
    + intros [HX|[v' Hv']]; [by left; right|]. destruct (decide (v' = v)) as [->|Hne]; [by left; left|].
      right. exists v'. rewrite owns_set. by rewrite decide_False.
    + intros [[Hp|HX]|[v' Hv']]; [by right; exists v|by left|]. rewrite owns_set in Hv'. case_decide; [done|]. right. by exists v'.
  - intros v' o. rewrite elem_of_union, <- Ho, owns_set. intros Hx. case_decide; [done|]. intros Hv'.
    destruct Hx as [Hx|Hx]; [|by apply (Hh v' o)]. by specialize (Hu _ _ _ Hx Hv').
Qed.

(** A variable without an object takes a pointer from [X]. *)
Lemma own_acquire X w v p :
  own (ptr_set (up_ptr p) ∪ X) w -> ptr_set (up_ptr p) ## X -> (forall o, ~ owns w v o) -> own X (set_var w v p).
Proof.
  intros [Hu Ha Hh Hg Hn Hd] Hdis Hno. assert (forall o, up_ptr p = Some o <-> o ∈ ptr_set (up_ptr p)) as Ho.
  { intros o. destruct (up_ptr p); cbn; [rewrite elem_of_singleton; split; congruence|split; [done|set_solver]]. }
  split; [..|done|done|done].
  - intros v1 v2 o. rewrite !owns_set. repeat case_decide; subst; try done; [|intros H1 H2|apply Hu].
    + intros H1%Ho H2. exfalso. apply (Hh v2 o); [set_solver|done].
    + apply Ho in H2. exfalso. apply (Hh v1 o); [set_solver|done].
  - intros o. cbn. rewrite Ha, elem_of_union, <- Ho. split.
    + intros [[Hp|HX]|[v' Hv']]; [|by left|].
      * right. exists v. rewrite owns_set. by rewrite decide_True.
      * right. exists v'. rewrite owns_set. rewrite decide_False; [done|]. intros ->. by apply (Hno o).
    + intros [HX|[v' Hv']]; [by left; right|]. rewrite owns_set in Hv'. case_decide; [by left; left|]. right. by exists v'.
  - intros v' o HX. rewrite owns_set. case_decide; [|apply Hh; set_solver]. rewrite Ho. intros Hp. by apply (Hdis o).
Qed.

Lemma own_delete X w d o :
  own ({[o]} ∪ X) w -> o ∉ X ->
  exists w', w_delete w d o = Some w' /\ own X w' /\ w_vars w' = w_vars w /\ w_raw w' = w_raw w /\ w_next w' = w_next w.
Proof.
  intros [Hu Ha Hh Hg Hn Hd] HoX. unfold w_delete. rewrite decide_True by (apply Ha; set_solver). eexists. split; [done|]. split; [|done].
  assert (o ∈ w_alive w) as Halive by (apply Ha; set_solver).
  split; unfold owns in *; cbn -[fmap list_fmap] in *.
  - done.
  - intros o'. rewrite elem_of_difference, Ha, not_elem_of_singleton. split.
    + intros [[Hx|Hx] Hne]; [left; set_solver|by right].
    + intros [Hx|[v Hv]]; [split; [left; set_solver|set_solver]|]. split; [right; by exists v|]. intros ->. apply (Hh v o); [set_solver|done].
  - intros v o' HX. apply Hh. set_solver.
  - rewrite fmap_app. apply NoDup_app. split_and!; [done| |apply NoDup_singleton]. intros x Hx. cbn. rewrite list_elem_of_singleton. intros ->. by apply (Hd o).
  - intros o'. rewrite Hn, elem_of_difference, not_elem_of_singleton, fmap_app, elem_of_app. cbn. rewrite list_elem_of_singleton.
    destruct (decide (o' = o)) as [->|Hne]; naive_solver.
  - intros o' [Hx Hne]%elem_of_difference. rewrite fmap_app, elem_of_app. cbn. rewrite list_elem_of_singleton. specialize (Hd o' Hx). set_solver.
Qed.

Lemma own_new X w : own X w -> own ({[w_next w]} ∪ X) (w_new w).1 /\ w_next w ∉ X.
Proof.
  intros [Hu Ha Hh Hg Hn Hd]. assert (w_next w ∉ w_alive w) as Hfresh.
  { intros Hin. assert (w_next w < w_next w)%nat by (apply Hn; by left). lia. }
  split; [|intros HX; apply Hfresh, Ha; by left]. split; unfold owns in *; cbn -[fmap list_fmap] in *.
  - done.
  - intros o. rewrite !elem_of_union, Ha. tauto.
  - intros v o [->%elem_of_singleton|HX]%elem_of_union; [|by apply Hh]. intros Ho. apply Hfresh, Ha. right. by exists v.
  - done.
  - intros o. rewrite elem_of_union, elem_of_singleton. rewrite <- (or_assoc (o = _)), <- Hn. lia.
  - intros o [->%elem_of_singleton|Ho]%elem_of_union; [|by apply Hd]. intros Hin. assert (w_next w < w_next w)%nat by (apply Hn; by right). lia.
Qed.

(** [reset]: the old object is deleted, the new one is taken from [X]. *)
Lemma up_reset_ok X w v np p :
  own (ptr_set np ∪ X) w -> ptr_set np ## X -> w_vars w !! v = Some p ->
  exists w', up_reset w v np = Some w' /\ own X w' /\ w_vars w' = <[v := mkUP np (up_deleter p)]> (w_vars w) /\ w_raw w' = w_raw w.
Proof.
  intros Ho Hdis Hv. unfold up_reset. rewrite Hv. cbn [mbind option_bind].
  destruct (own_release _ _ _ _ (up_deleter p) Ho Hv) as [Hr Hd2].
  destruct (up_ptr p) as [o|] eqn:Ep; cbn [ptr_set] in *.
  - destruct (own_delete (ptr_set np ∪ X) _ (up_deleter p) o Hr ltac:(set_solver)) as (w1 & E1 & Ho1 & Ev1 & Er1 & En1).
    unfold w_delete in *. cbn [w_alive set_var] in E1. destruct (decide (o ∈ w_alive w)) as [Hin|]; [|done].
    injection E1 as <-. cbn [mbind option_bind]. eexists. split; [done|]. split; [|done].
    match goal with H : own (ptr_set np ∪ X) ?w1 |- _ => pose proof (own_acquire X w1 v (mkUP np (up_deleter p)) H Hdis) as Hq end.
    unfold set_var in *. cbn in *. rewrite insert_insert_eq in Hq. apply Hq. intros o'. unfold owns. cbn. by rewrite lookup_insert_eq.
  - cbn [mbind option_bind]. eexists. split; [done|]. split; [|done]. rewrite union_empty_l_L in Hr.
    pose proof (own_acquire X _ v (mkUP np (up_deleter p)) Hr Hdis) as Hq. unfold set_var in *. cbn in *. rewrite insert_insert_eq in Hq.
    apply Hq. intros o'. unfold owns. cbn. by rewrite lookup_insert_eq.
Qed.

Lemma own_ext X w w' :
  own X w -> (forall v o, owns w' v o <-> owns w v o) -> w_alive w' = w_alive w -> w_gone w' = w_gone w -> w_next w' = w_next w -> own X w'.
Proof.
  intros [Hu Ha Hh Hg Hn Hd] He Ea Eg En. split; rewrite ?Ea, ?Eg, ?En; try done.
  - intros v1 v2 o. rewrite !He. apply Hu.
  - intros o. rewrite Ha. by setoid_rewrite He.
  - intros v o. rewrite He. apply Hh.
Qed.

Lemma owns_none w v o : w_vars w !! v = None -> ~ owns w v o.
Proof. intros E. unfold owns. by rewrite E. Qed.

Lemma owns_null w v d o : w_vars w !! v = Some (mkUP None d) -> ~ owns w v o.
Proof. intros E. unfold owns. by rewrite E. Qed.

(** Moving the pointer of one variable into another that holds none. *)
Lemma own_move X w dst src s d1 d2 :
  own X w -> w_vars w !! src = Some s -> dst <> src -> (forall o, ~ owns w dst o) ->
  own X (set_var (set_var w src (mkUP None d1)) dst (mkUP (up_ptr s) d2)).
Proof.
  intros Ho Hs Hne Hno. destruct (own_release _ _ _ _ d1 Ho Hs) as [Hr Hd].
  apply (own_acquire X _ dst (mkUP (up_ptr s) d2) Hr Hd). intros o. rewrite owns_set, decide_False by done. apply Hno.
Qed.

Lemma set_var_comm w v1 v2 p1 p2 : v1 <> v2 -> set_var (set_var w v1 p1) v2 p2 = set_var (set_var w v2 p2) v1 p1.
Proof. intros Hne. unfold set_var. cbn. by rewrite insert_insert_ne. Qed.

Lemma ptr_step_ok w o : own (w_raw w) w -> scoped w o -> exists w', ptr_step w o = Some w' /\ own (w_raw w') w'.
Proof.
  intros Ho Hsc. destruct o as [v d|v d|dst src|dst src|v fresh|v|v|dst src|dst src]; cbn [ptr_step scoped] in *.
  - eexists. split; [done|]. destruct (own_new _ _ Ho) as [Hn Hf]. unfold up_make, w_new in *. cbn in *.
    apply (own_acquire (w_raw w) _ v (mkUP (Some (w_next w)) d)); cbn; [done|set_solver|]. intros o. by apply owns_none.
  - eexists. split; [done|]. apply (own_acquire (w_raw w) w v (mkUP None d)); cbn; [by rewrite union_empty_l_L|set_solver|]. intros o. by apply owns_none.
  - destruct Hsc as [Hd [s Hs]]. assert (dst <> src) by congruence. unfold up_move_ctor, up_release. rewrite Hs. cbn [mbind option_bind].
    cbn [set_var w_vars]. rewrite lookup_insert_eq. cbn [mbind option_bind up_deleter]. eexists. split; [done|].
    apply (own_move (w_raw w) w dst src s); [done..|]. intros o. by apply owns_none.
  - destruct Hsc as [[d Hd] [s Hs]]. unfold up_move_assign. case_decide as Hne; [by eexists|]. unfold up_release. rewrite Hs. cbn [mbind option_bind].
    destruct (own_release _ _ _ _ (up_deleter s) Ho Hs) as [Hr Hdis].
    destruct (up_reset_ok (w_raw w) (set_var w src (mkUP None (up_deleter s))) dst (up_ptr s) d Hr Hdis) as (w1 & -> & Ho1 & Ev & Er).
    { cbn. by rewrite lookup_insert_ne. }
    cbn [mbind option_bind]. rewrite Ev. cbn. rewrite lookup_insert_eq, lookup_insert_ne, lookup_insert_eq by done. cbn [mbind option_bind].
    eexists. split; [done|]. cbn. rewrite Er. cbn. apply (own_ext (w_raw w) w1); [done| |done..]. intros v o. rewrite owns_set. case_decide as E; [|done].
    subst v. unfold owns. rewrite Ev, lookup_insert_eq. cbn. split; congruence.
  - destruct Hsc as [p Hp]. destruct fresh.
    + destruct (own_new _ _ Ho) as [Hn Hf]. destruct (up_reset_ok (w_raw w) (w_new w).1 v (Some (w_next w)) p) as (w' & E & Ho' & _ & Er); [done|set_solver|done|].
      exists w'. split; [exact E|]. by rewrite Er.
    + destruct (up_reset_ok (w_raw w) w v None p) as (w' & E & Ho' & _ & Er); [cbn; by rewrite union_empty_l_L|cbn; set_solver|done|].
      exists w'. split; [exact E|]. by rewrite Er.
  - destruct Hsc as [p Hp]. unfold up_release. rewrite Hp. cbn [mbind option_bind]. eexists. split; [done|].
    destruct (own_release _ _ _ _ (up_deleter p) Ho Hp) as [Hr _]. destruct (up_ptr p) as [o|]; cbn [ptr_set] in Hr.
    + by apply (own_ext _ (set_var w v (mkUP None (up_deleter p)))).
    + by rewrite union_empty_l_L in Hr.
  - destruct Hsc as [p Hp]. unfold up_destroy. destruct (up_reset_ok (w_raw w) w v None p) as (w1 & -> & Ho' & Ev & Er); [cbn; by rewrite union_empty_l_L|cbn; set_solver|done|].
    cbn [mbind option_bind]. eexists. split; [done|]. cbn. rewrite Er. apply (own_ext _ w1); [done| |done..]. intros v' o. unfold owns. cbn.
    destruct (decide (v' = v)) as [->|Hne]; [|by rewrite lookup_delete_ne]. rewrite lookup_delete_eq, Ev, lookup_insert_eq. done.
  - destruct Hsc as [Hd [s Hs]]. assert (dst <> src) by congruence. unfold m03_move_ctor. rewrite Hs. cbn [mbind option_bind]. eexists. split; [done|].
    rewrite set_var_comm by done. cbn. destruct s as [ptr del]. apply (own_move (w_raw w) w dst src (mkUP ptr del)); [done..|]. intros o. by apply owns_none.
  - destruct Hsc as [[d Hd] [s Hs]]. unfold m03_move_assign. case_decide as Hne; [by eexists|].
    destruct (up_reset_ok (w_raw w) w dst None d) as (w1 & -> & Ho1 & Ev & Er); [cbn; by rewrite union_empty_l_L|cbn; set_solver|done|].
    cbn [mbind option_bind]. assert (w_vars w1 !! dst = Some (mkUP None (up_deleter d))) as E1 by (by rewrite Ev, lookup_insert_eq).
    assert (w_vars w1 !! src = Some s) as E2 by (rewrite Ev, lookup_insert_ne by congruence; done). rewrite E1, E2. cbn [mbind option_bind].
    eexists. split; [done|]. rewrite set_var_comm by done. cbn. rewrite Er. apply (own_move (w_raw w) w1 dst src s); [done..|]. intros o. by eapply owns_null.
Qed.

Inductive ptr_run : World -> World -> Prop :=
| ptr_nil w : ptr_run w w
| ptr_cons w o w1 w2 : scoped w o -> ptr_step w o = Some w1 -> ptr_run w1 w2 -> ptr_run w w2.

Lemma ptr_run_own w w' : ptr_run w w' -> own (w_raw w) w -> own (w_raw w') w'.
Proof. induction 1 as [|w o w1 w2 Hs E _ IH]; [done|]. intros Ho. destruct (ptr_step_ok w o Ho Hs) as (w1' & E' & Ho'). simplify_eq. by apply IH. Qed.

Lemma World_new_own : own ∅ World_new.
Proof.
  split; unfold owns; cbn.
  - intros v1 v2 o. by rewrite lookup_empty.
  - intros o. split; [set_solver|]. intros [?|[v Hv]]; [set_solver|]. by rewrite lookup_empty in Hv.
  - set_solver.
  - constructor.
  - intros o. split; [lia|set_solver].
  - set_solver.
Qed.

(** In every program that respects scopes no operation deletes an object twice, no object has
    two owners, every deleter call is the only one for its object, and when all variables are
    gone the objects that are still alive are exactly those that were released. *)
Theorem unique_ptr_owns (w : World) :
  ptr_run World_new w ->
  (forall o, scoped w o -> is_Some (ptr_step w o)) /\
  (forall v1 v2 o, owns w v1 o -> owns w v2 o -> v1 = v2) /\
  NoDup (w_gone w).*2 /\ (w_vars w = ∅ -> w_alive w = w_raw w).
Proof.
  intros Hr. pose proof (ptr_run_own _ _ Hr World_new_own) as Ho. split_and!.
  - intros o Hs. destruct (ptr_step_ok w o Ho Hs) as (w' & -> & _). by eexists.
  - apply (ow_unique _ _ Ho).
  - apply (ow_gone _ _ Ho).
  - intros E. apply set_eq. intros o. rewrite (ow_alive _ _ Ho). split; [|by left]. intros [?|[v Hv]]; [done|].
    unfold owns in Hv. rewrite E, lookup_empty in Hv. done.
Qed.
End UniquePtr.
Arguments UniquePtr : clear implicits.
Arguments World : clear implicits.
Arguments ptr_op : clear implicits.

(** ** Coroutine handles

    A [Task] of skynet owns the frame of its coroutine: [handle_] is the pointer, [destroy]
    the deletion, and there is no deleter to move along.  The specialisation for [void] has the
    same members.  The [Task] of module 9 has no assignment. *)

Abbreviation TaskWorld := (World unit).

(** [Task()] and [explicit Task(handle_type h)], which the promise calls for a new frame. *)
Definition task_default (w : TaskWorld) (v : nat) : TaskWorld := up_null w v tt.
Definition task_of_promise (w : TaskWorld) (v : nat) : TaskWorld := up_make w v tt.

(** [~Task() { if (handle_) handle_.destroy(); }] *)
Definition task_drop (w : TaskWorld) (v : nat) : option TaskWorld :=
  t ← w_vars w !! v;
  w ← match up_ptr t with Some fr => w_delete w tt fr | None => Some w end;
  Some (mkW (delete v (w_vars w)) (w_alive w) (w_raw w) (w_gone w) (w_next w)).

(** [Task(Task&& other) : handle_(other.handle_) { other.handle_ = nullptr; }] *)
Definition task_move (w : TaskWorld) (dst src : nat) : option TaskWorld :=
  t ← w_vars w !! src;
  Some (set_var (set_var w dst (mkUP (up_ptr t) tt)) src (mkUP None tt)).

(** The move assignment: the own frame is destroyed first, then the other's is taken. *)
Definition task_assign (w : TaskWorld) (dst src : nat) : option TaskWorld :=
  if decide (dst = src) then Some w
  else
    d ← w_vars w !! dst;
    w ← match up_ptr d with Some fr => w_delete w tt fr | None => Some w end;
    t ← w_vars w !! src;
    Some (set_var (set_var w dst (mkUP (up_ptr t) tt)) src (mkUP None tt)).

(** The [Task] of module 9 moves with [std::exchange(o.h, {})]. *)
Definition m09_task_move (w : TaskWorld) (dst src : nat) : option TaskWorld :=
  t ← w_vars w !! src;
  Some (set_var (set_var w src (mkUP None tt)) dst (mkUP (up_ptr t) tt)).

Inductive task_op :=
| TDefault (v : nat) | TCall (v : nat) | TMove (dst src : nat) | TAssign (dst src : nat) | TDrop (v : nat) | TMove9 (dst src : nat).

Definition task_step (w : TaskWorld) (o : task_op) : option TaskWorld :=
  match o with
  | TDefault v => Some (task_default w v)
  | TCall v => Some (task_of_promise w v)
  | TMove dst src => task_move w dst src
  | TAssign dst src => task_assign w dst src
  | TDrop v => task_drop w v
  | TMove9 dst src => m09_task_move w dst src
  end.

(** The operations of pointers they are. *)
Definition task_ptr_op (o : task_op) : ptr_op unit :=
  match o with
  | TDefault v => PNull v tt
  | TCall v => PMake v tt
  | TMove dst src => PMoveCtor3 dst src
  | TAssign dst src => PMoveAssign3 dst src
  | TDrop v => PDestroy v
  | TMove9 dst src => PMoveCtor dst src
  end.

Lemma set_var_twice {D} (w : World D) v p q : set_var (set_var w v p) v q = set_var w v q.
Proof. unfold set_var. cbn. by rewrite insert_insert_eq. Qed.

Lemma up_unit (p : UniquePtr unit) : p = mkUP (up_ptr p) tt.
Proof. by destruct p as [? []]. Qed.

(** The deletion leaves the variables as they are. *)
Lemma drop_old {D} (w w' : World D) (p : option nat) d :
  match p with Some o => w_delete w d o | None => Some w end = Some w' -> w_vars w' = w_vars w /\ w_raw w' = w_raw w.
Proof. destruct p as [o|]; [|by intros [= <-]]. unfold w_delete. case_decide; [|done]. by intros [= <-]. Qed.

Lemma task_step_ptr w o : scoped w (task_ptr_op o) -> task_step w o = ptr_step w (task_ptr_op o).
Proof.
  destruct o as [v|v|dst src|dst src|v|dst src]; cbn; intros Hs; try done.
  - destruct Hs as [_ [s Hs]]. unfold task_move, m03_move_ctor. rewrite Hs. cbn. by rewrite (up_unit s).
  - destruct Hs as [[d Hd] [s Hs]]. unfold task_assign, m03_move_assign, up_reset. case_decide as Hne; [done|].
    rewrite Hd, (up_unit d). cbn [mbind option_bind up_deleter up_ptr].
    destruct (match up_ptr d with Some o => w_delete w tt o | None => Some w end) as [w1|] eqn:E; [|done].
    destruct (drop_old _ _ _ _ E) as [Ev _]. cbn. rewrite lookup_insert_eq, lookup_insert_ne, Ev, Hs by done. cbn.
    rewrite set_var_twice. by rewrite (up_unit s).
  - destruct Hs as [t Ht]. unfold task_drop, up_destroy, up_reset. rewrite Ht, (up_unit t). cbn [mbind option_bind up_deleter up_ptr].
    destruct (match up_ptr t with Some o => w_delete w tt o | None => Some w end) as [w1|]; [|done]. cbn. by rewrite delete_insert_eq.
  - destruct Hs as [Hd [s Hs]]. unfold m09_task_move, up_move_ctor, up_release. rewrite Hs. cbn. rewrite lookup_insert_eq. cbn. by rewrite (up_unit s).
Qed.

Lemma task_step_raw w o w' : task_step w o = Some w' -> w_raw w' = w_raw w.
Proof.
  destruct o as [v|v|dst src|dst src|v|dst src]; cbn; try by intros [= <-].
  - unfold task_move. destruct (w_vars w !! src); [|done]. by intros [= <-].
  - unfold task_assign. case_decide; [by intros [= <-]|]. destruct (w_vars w !! dst) as [d|]; [|done]. cbn.
    destruct (match up_ptr d with Some o => w_delete w tt o | None => Some w end) as [w1|] eqn:E; [|done]. cbn.
    destruct (w_vars w1 !! src); [|done]. intros [= <-]. by apply drop_old in E as [_ ?].
  - unfold task_drop. destruct (w_vars w !! v) as [d|]; [|done]. cbn.
    destruct (match up_ptr d with Some o => w_delete w tt o | None => Some w end) as [w1|] eqn:E; [|done]. intros [= <-]. by apply drop_old in E as [_ ?].
  - unfold m09_task_move. destruct (w_vars w !! src); [|done]. by intros [= <-].
Qed.

Inductive task_run : TaskWorld -> TaskWorld -> Prop :=
| task_nil w : task_run w w
| task_cons w o w1 w2 : scoped w (task_ptr_op o) -> task_step w o = Some w1 -> task_run w1 w2 -> task_run w w2.

Lemma task_run_ptr w w' : task_run w w' -> ptr_run w w' /\ w_raw w' = w_raw w.
Proof.
  induction 1 as [|w o w1 w2 Hs E _ [IH Hr]]; [by split; [constructor|]|]. pose proof (task_step_raw _ _ _ E) as Hr'.
  rewrite (task_step_ptr w o Hs) in E. split; [by eapply ptr_cons|congruence].
Qed.

(** Tasks own their frames: in every program that respects scopes no frame is destroyed twice,
    no two tasks own the same frame, and when all tasks are gone so are all frames. *)
Theorem tasks_own_frames (w : TaskWorld) :
  task_run World_new w ->
  (forall o, scoped w (task_ptr_op o) -> is_Some (task_step w o)) /\
  (forall v1 v2 fr, owns w v1 fr -> owns w v2 fr -> v1 = v2) /\
  NoDup (w_gone w).*2 /\ (w_vars w = ∅ -> w_alive w = ∅).
Proof.
  intros [Hp Hr]%task_run_ptr. destruct (unique_ptr_owns w Hp) as (H1 & H2 & H3 & H4). split_and!; try done.
  - intros o Hs. rewrite task_step_ptr by done. by apply H1.
  - intros Hv. rewrite H4 by done. done.
Qed.

(** The test of move assignment: the old object of [b] goes, the one of [a] survives. *)
Example unique_ptr_demo :
  (w ← ptr_step (D:=unit) World_new (PMake 1 tt); w ← ptr_step w (PMake 2 tt); w ← ptr_step w (PMoveAssign 2 1);
   w ← ptr_step w (PDestroy 1); w' ← ptr_step w (PDestroy 2); Some ((w_gone w).*2, (w_gone w').*2)) = Some ([1], [1; 0]).
Proof. vm_compute. reflexivity. Qed.

