(* ===== verification/SpscQueue.v ===== *)
(** * The single-producer single-consumer queue

    [practice/handwrite/test_spsc_queue_handwrite.cpp]: a ring buffer with two atomic
    positions, no locks.  Each atomic load or store and each access to the buffer is one step
    of its thread, so [try_push] and [try_pop] interleave freely.  The theorem is
    linearizability: whatever the interleaving, the results are those of a bounded FIFO queue
    of [Capacity - 1] elements, and the two threads never touch the same slot at a time (so
    that the accesses to the plain array are free of data races and an interleaving semantics
    is adequate for its acquire and release operations). *)

From Stdlib Require Import Lia.
From stdpp Require Import base numbers list.
From S2P Require Import Prelude.

(** ** The specification: a bounded FIFO queue *)

Section Spsc.
Context {T : Type} (Capacity : nat).

(** What a call answers, at the step that decides it. *)
Inductive event := EPush (v : T) (ok : bool) | EPop (r : option T).

Inductive fifo_step : list T -> event -> list T -> Prop :=
| fifo_push q v : S (length q) < Capacity -> fifo_step q (EPush v true) (q ++ [v])
| fifo_full q v : S (length q) = Capacity -> fifo_step q (EPush v false) q
| fifo_pop v q : fifo_step (v :: q) (EPop (Some v)) q
| fifo_empty : fifo_step [] (EPop None) [].

Inductive fifo_run : list T -> list event -> list T -> Prop :=
| fifo_nil q : fifo_run q [] q
| fifo_cons q e q' es q'' : fifo_step q e q' -> fifo_run q' es q'' -> fifo_run q (e :: es) q''.

(** ** The queue *)

(** Where the producer is in [try_push(value)]: outside, past the load of [write_pos_], past
    the test, past the write of the slot. *)
Inductive ppc := PIdle | PLoaded (v : T) (w : nat) | PTested (v : T) (w next : nat) | PWrote (v : T) (w next : nat).
(** Where the consumer is in [try_pop]: outside, past the load of [read_pos_], past the test,
    past the read of the slot. *)
Inductive cpc := CIdle | CLoaded (r : nat) | CTested (r : nat) | CRead (r : nat) (out : T).

Record SPSCQueue := mkQ {
  write_pos : nat;
  read_pos : nat;
  buffer : list T;
  producer : ppc;
  consumer : cpc;
}.

(** [buffer_{}] holds value-initialised elements. *)
Definition SPSCQueue_new (zero : T) : SPSCQueue := mkQ 0 0 (replicate Capacity zero) PIdle CIdle.

Inductive push_step : SPSCQueue -> option event -> SPSCQueue -> Prop :=
| push_load s v : producer s = PIdle ->
    push_step s None (mkQ (write_pos s) (read_pos s) (buffer s) (PLoaded v (write_pos s)) (consumer s))
| push_full s v w : producer s = PLoaded v w -> (w + 1) mod Capacity = read_pos s ->
    push_step s (Some (EPush v false)) (mkQ (write_pos s) (read_pos s) (buffer s) PIdle (consumer s))
| push_test s v w : producer s = PLoaded v w -> (w + 1) mod Capacity <> read_pos s ->
    push_step s None (mkQ (write_pos s) (read_pos s) (buffer s) (PTested v w ((w + 1) mod Capacity)) (consumer s))
| push_write s v w next : producer s = PTested v w next -> w < length (buffer s) ->
    push_step s None (mkQ (write_pos s) (read_pos s) (<[w := v]> (buffer s)) (PWrote v w next) (consumer s))
| push_store s v w next : producer s = PWrote v w next ->
    push_step s (Some (EPush v true)) (mkQ next (read_pos s) (buffer s) PIdle (consumer s)).

Inductive pop_step : SPSCQueue -> option event -> SPSCQueue -> Prop :=
| pop_load s : consumer s = CIdle ->
    pop_step s None (mkQ (write_pos s) (read_pos s) (buffer s) (producer s) (CLoaded (read_pos s)))
| pop_empty s r : consumer s = CLoaded r -> r = write_pos s ->
    pop_step s (Some (EPop None)) (mkQ (write_pos s) (read_pos s) (buffer s) (producer s) CIdle)
| pop_test s r : consumer s = CLoaded r -> r <> write_pos s ->
    pop_step s None (mkQ (write_pos s) (read_pos s) (buffer s) (producer s) (CTested r))
| pop_read s r v : consumer s = CTested r -> buffer s !! r = Some v ->
    pop_step s None (mkQ (write_pos s) (read_pos s) (buffer s) (producer s) (CRead r v))
| pop_store s r v : consumer s = CRead r v ->
    pop_step s (Some (EPop (Some v))) (mkQ (write_pos s) ((r + 1) mod Capacity) (buffer s) (producer s) CIdle).

Inductive spsc_step (s : SPSCQueue) (e : option event) (s' : SPSCQueue) : Prop :=
| step_push : push_step s e s' -> spsc_step s e s'
| step_pop : pop_step s e s' -> spsc_step s e s'.

(** A run and the answers given in it. *)
Inductive spsc_run : SPSCQueue -> list event -> SPSCQueue -> Prop :=
| run_nil s : spsc_run s [] s
| run_snoc s es s1 e s2 : spsc_run s es s1 -> spsc_step s1 e s2 -> spsc_run s (es ++ option_list e) s2.

(** The two threads are about to access the same slot, one of them to write it. *)
Definition races (s : SPSCQueue) : Prop :=
  exists v w next r, producer s = PTested v w next /\ consumer s = CTested r /\ w = r.

(** A thread about to access the array is inside it. *)
Definition slots_valid (s : SPSCQueue) : Prop :=
  (forall v w next, producer s = PTested v w next -> w < length (buffer s)) /\
  (forall r, consumer s = CTested r -> r < length (buffer s)).

(** ** The simulation *)

Context (HC : 0 < Capacity).

Definition slot (s : SPSCQueue) (i : nat) : nat := (read_pos s + i) mod Capacity.

Record sim (s : SPSCQueue) (q : list T) : Prop := {
  sim_read : read_pos s < Capacity;
  sim_len : S (length q) <= Capacity;
  sim_write : write_pos s = slot s (length q);
  sim_size : length (buffer s) = Capacity;
  sim_cells : forall i, i < length q -> buffer s !! slot s i = q !! i;
  sim_producer :
    match producer s with
    | PIdle => True
    | PLoaded _ w => w = write_pos s
    | PTested _ w next => w = write_pos s /\ next = (w + 1) mod Capacity /\ S (length q) < Capacity
    | PWrote v w next => w = write_pos s /\ next = (w + 1) mod Capacity /\ S (length q) < Capacity /\ buffer s !! w = Some v
    end;
  sim_consumer :
    match consumer s with
    | CIdle => True
    | CLoaded r => r = read_pos s
    | CTested r => r = read_pos s /\ q <> []
    | CRead r v => r = read_pos s /\ head q = Some v
    end;
}.

(** Slots of the ring as offsets from the read position. *)
Lemma mod_shift a i : (a mod Capacity + i) mod Capacity = (a + i) mod Capacity.
Proof. by rewrite Nat.Div0.add_mod_idemp_l. Qed.

Lemma mod_window r i j : i < Capacity -> j < Capacity -> (r + i) mod Capacity = (r + j) mod Capacity -> i = j.
Proof.
  intros Hi Hj H. pose proof (Nat.div_mod_eq (r + i) Capacity) as E1. pose proof (Nat.div_mod_eq (r + j) Capacity) as E2.
  rewrite H in E1. destruct (Nat.lt_trichotomy ((r + i) / Capacity) ((r + j) / Capacity)) as [Hl|[Hl|Hl]]; nia.
Qed.

Lemma slot_bound s i : slot s i < Capacity.
Proof. apply Nat.mod_upper_bound. lia. Qed.

Lemma slot_0 s q : sim s q -> slot s 0 = read_pos s.
Proof. intros H. unfold slot. rewrite Nat.add_0_r. apply Nat.mod_small, (sim_read _ _ H). Qed.

Lemma write_next s q : sim s q -> (write_pos s + 1) mod Capacity = slot s (S (length q)).
Proof. intros H. rewrite (sim_write _ _ H). unfold slot. rewrite mod_shift. f_equal. lia. Qed.

(** The tests of the two calls, in terms of the queue. *)
Lemma full_iff s q : sim s q -> (write_pos s + 1) mod Capacity = read_pos s <-> S (length q) = Capacity.
Proof.
  intros H. rewrite (write_next _ _ H). pose proof (sim_len _ _ H). rewrite <- (slot_0 _ _ H) at 1. split.
  - intros E. destruct (decide (S (length q) = Capacity)) as [|Hn]; [done|].
    apply mod_window in E; lia.
  - intros E. unfold slot. rewrite E. rewrite Nat.add_0_r. rewrite <- (Nat.mul_1_l Capacity) at 1. by rewrite Nat.Div0.mod_add.
Qed.

Lemma empty_iff s q : sim s q -> read_pos s = write_pos s <-> q = [].
Proof.
  intros H. rewrite (sim_write _ _ H), <- (slot_0 _ _ H) at 1. pose proof (sim_len _ _ H). split.
  - intros E. apply mod_window in E; [by destruct q|lia|lia].
  - by intros ->.
Qed.

Lemma spsc_new_sim zero : sim (SPSCQueue_new zero) [].
Proof.
  split; simpl; try done; try lia.
  - unfold slot; simpl. by rewrite Nat.mod_small by lia.
  - apply length_replicate.
Qed.

(** The event of a step as a step of the specification. *)
Definition fifo_opt (q : list T) (e : option event) (q' : list T) : Prop :=
  match e with None => q' = q | Some e => fifo_step q e q' end.

Lemma push_step_sim s q e s' : sim s q -> push_step s e s' -> exists q', fifo_opt q e q' /\ sim s' q'.
Proof.
  intros H Hs. pose proof (sim_producer _ _ H) as HP. destruct Hs as [s v E|s v w E E'|s v w E E'|s v w next E Hw|s v w next E]; rewrite E in HP.
  - exists q. split; [done|]. by destruct H; split.
  - exists q. subst w. split; [constructor; by apply (full_iff _ _ H)|]. by destruct H; split.
  - exists q. subst w. rewrite (full_iff _ _ H) in E'. split; [done|]. pose proof (sim_len _ _ H). destruct H; split; simpl in *; try done. split_and!; [done..|lia].
  - exists q. destruct HP as (-> & -> & HL). split; [done|]. pose proof (sim_write _ _ H) as Ew. destruct H as [H1 H2 H3 H4 H5 H6 H7]. split; simpl; try done.
    + by rewrite length_insert.
    + intros i Hi. rewrite list_lookup_insert_ne; [by apply H5|]. rewrite Ew. intros E'. apply mod_window in E'; lia.
    + split_and!; try done. by apply list_lookup_insert_eq.
  - exists (q ++ [v]). destruct HP as (-> & -> & HL & Hv). split; [by constructor|]. rewrite (write_next _ _ H).
    pose proof (sim_write _ _ H) as Ew. destruct H as [H1 H2 H3 H4 H5 H6 H7]. split; simpl; rewrite ?length_app; simpl; try done; try lia.
    + unfold slot; simpl. f_equal. lia.
    + intros i Hi. destruct (decide (i = length q)) as [->|]; [|rewrite lookup_app_l by lia; apply H5; lia].
      rewrite list_lookup_middle by done. rewrite Ew in Hv. exact Hv.
    + destruct (consumer s); [done..| |]; destruct H7 as [-> H7]; split; try done; destruct q; done.
Qed.

Lemma pop_step_sim s q e s' : sim s q -> pop_step s e s' -> exists q', fifo_opt q e q' /\ sim s' q'.
Proof.
  intros H Hs. pose proof (sim_consumer _ _ H) as HP. destruct Hs as [s E|s r E E'|s r E E'|s r v E Ev|s r v E]; rewrite E in HP.
  - exists q. split; [done|]. by destruct H; split.
  - exists q. rewrite HP in E'. apply (empty_iff _ _ H) in E' as ->. split; [constructor|]. by destruct H; split.
  - exists q. rewrite HP in E' |- *. rewrite (empty_iff _ _ H) in E'. split; [done|]. by destruct H; split.
  - exists q. destruct HP as [-> Hq]. split; [done|]. destruct q as [|x q]; [done|].
    assert (buffer s !! read_pos s = Some x) as Ex.
    { rewrite <- (slot_0 _ _ H). apply (sim_cells _ _ H 0). simpl. lia. }
    rewrite Ex in Ev. injection Ev as ->. by destruct H; split.
  - destruct HP as [-> Hq]. destruct q as [|x q]; [done|]. injection Hq as ->. exists q. split; [constructor|].
    assert (forall i, slot (mkQ (write_pos s) ((read_pos s + 1) mod Capacity) (buffer s) (producer s) CIdle) i = slot s (S i)) as Es.
    { intros i. unfold slot; simpl. rewrite mod_shift. f_equal. lia. }
    destruct H as [H1 H2 H3 H4 H5 H6 H7]. simpl in *. split; simpl; try done; try lia.
    + apply Nat.mod_upper_bound. lia.
    + by rewrite Es.
    + intros i Hi. rewrite Es. apply (H5 (S i)). lia.
    + destruct (producer s); try done; destruct H6 as (-> & -> & ?); [split_and!; lia || done|]. destruct H as [? ?]. split_and!; lia || done.
Qed.

Lemma fifo_run_snoc q es q1 e q2 : fifo_run q es q1 -> fifo_opt q1 e q2 -> fifo_run q (es ++ option_list e) q2.
Proof.
  induction 1 as [q|q x q' es q'' Hx Hr IH]; intros He.
  - destruct e as [e|]; simpl in *; [|subst; constructor]. by eapply fifo_cons; [|constructor].
  - simpl. eapply fifo_cons; [done|]. by apply IH.
Qed.

Lemma spsc_run_sim zero es s : spsc_run (SPSCQueue_new zero) es s -> exists q, fifo_run [] es q /\ sim s q.
Proof.
  intros H. remember (SPSCQueue_new zero) as s0 eqn:E0. induction H as [s|s es s1 e s2 Hr IH Hs]; subst.
  - exists []. split; [constructor|apply spsc_new_sim].
  - destruct (IH eq_refl) as (q & Hq & Hsim).
    assert (exists q', fifo_opt q e q' /\ sim s2 q') as (q' & He & Hsim') by (destruct Hs; eauto using push_step_sim, pop_step_sim).
    exists q'. split; [by eapply fifo_run_snoc|done].
Qed.

(** No slot is accessed by both threads: the producer's is the first free one, the consumer's
    the first used one. *)
Lemma sim_no_race s q : sim s q -> ~ races s.
Proof.
  intros H (v & w & next & r & Ep & Ec & ->). pose proof (sim_producer _ _ H) as HP. pose proof (sim_consumer _ _ H) as HK.
  rewrite Ep in HP. rewrite Ec in HK. destruct HP as (Ew & _). destruct HK as [-> Hq]. by apply (empty_iff _ _ H) in Ew.
Qed.

Lemma sim_slots_valid s q : sim s q -> slots_valid s.
Proof.
  intros H. unfold slots_valid. rewrite (sim_size _ _ H). pose proof (sim_producer _ _ H) as HP. pose proof (sim_consumer _ _ H) as HK. split.
  - intros v w next E. rewrite E in HP. destruct HP as (-> & _). rewrite (sim_write _ _ H). apply slot_bound.
  - intros r E. rewrite E in HK. destruct HK as [-> _]. apply (sim_read _ _ H).
Qed.

(** C38: linearizability: in every interleaving of the producer's and the consumer's steps the
    answers given so far are those of a bounded FIFO queue of [Capacity - 1] elements, in the
    order of the deciding steps; no slot is accessed by both threads at a time, and none
    outside the array. *)
Theorem spsc_linearizable zero es s :
  spsc_run (SPSCQueue_new zero) es s -> (exists q, fifo_run [] es q) /\ ~ races s /\ slots_valid s.
Proof.
  intros H. destruct (spsc_run_sim _ _ _ H) as (q & Hq & Hs). split_and!; [by exists q|by eapply sim_no_race|by eapply sim_slots_valid].
Qed.

(** What the consumer got is, in order, a prefix of what the producer put. *)
Definition pushed (es : list event) : list T := omap (fun e => match e with EPush v true => Some v | _ => None end) es.
Definition popped (es : list event) : list T := omap (fun e => match e with EPop r => r | _ => None end) es.

Lemma fifo_run_balance q es q' : fifo_run q es q' -> popped es ++ q' = q ++ pushed es.
Proof.
  induction 1 as [q|q e q' es q'' He Hr IH]; [by rewrite app_nil_r|].
  destruct He; simpl in *; rewrite ?IH; try done. by rewrite <- app_assoc.
Qed.

Corollary spsc_in_order zero es s : spsc_run (SPSCQueue_new zero) es s -> popped es `prefix_of` pushed es.
Proof. intros H. destruct (spsc_run_sim _ _ _ H) as (q & Hq & _). exists q. symmetry. exact (fifo_run_balance _ _ _ Hq). Qed.

(** Runs in the order they are built. *)
Lemma run_cons s e s1 es s2 : spsc_step s e s1 -> spsc_run s1 es s2 -> spsc_run s (option_list e ++ es) s2.
Proof.
  intros He Hr. induction Hr as [s1|s1 es s2 e' s3 Hr IH Hs].
  - rewrite app_nil_r. apply (run_snoc s [] s e s1); [constructor|done].
  - rewrite app_assoc. by eapply run_snoc; [apply IH|].
Qed.

End Spsc.

(** The producer fills a queue of one slot, is refused, and the consumer takes the element. *)
Lemma spsc_demo_run : exists s, spsc_run 2 (SPSCQueue_new 2 0) [EPush 7 true; EPush 8 false; EPop (Some 7)] s.
Proof.
  eexists.
  eapply (run_cons 2 _ None); [by apply step_push, (push_load _ _ 7)|]; cbn.
  eapply (run_cons 2 _ None); [by apply step_push, (push_test _ _ 7 0)|]; cbn.
  eapply (run_cons 2 _ None); [apply step_push, (push_write _ _ 7 0 1); [done|simpl; lia]|]; cbn.
  eapply (run_cons 2 _ (Some (EPush 7 true))); [by apply step_push, (push_store _ _ 7 0 1)|]; cbn.
  eapply (run_cons 2 _ None); [by apply step_pop, pop_load|]; cbn.
  eapply (run_cons 2 _ None); [by apply step_push, (push_load _ _ 8)|]; cbn.
  eapply (run_cons 2 _ None); [by apply step_pop, (pop_test _ _ 0)|]; cbn.
  eapply (run_cons 2 _ (Some (EPush 8 false))); [by apply step_push, (push_full _ _ 8 1)|]; cbn.
  eapply (run_cons 2 _ None); [by apply step_pop, (pop_read _ _ 0 7)|]; cbn.
  eapply (run_cons 2 _ (Some (EPop (Some 7)))); [by apply step_pop, (pop_store _ _ 0 7)|]; cbn. constructor.
Qed.

Lemma spsc_linearizable_witness :
  exists s, spsc_run 2 (SPSCQueue_new 2 0) [EPush 7 true; EPush 8 false; EPop (Some 7)] s /\
    ((exists q, fifo_run 2 [] [EPush 7 true; EPush 8 false; EPop (Some 7)] q) /\ ~ races s /\ slots_valid s).
Proof.
  destruct spsc_demo_run as [s H]. exists s. split; [exact H|]. exact (spsc_linearizable 2 ltac:(lia) 0 _ s H).
Defined.
