(* ===== verification/Mvcc.v ===== *)
(** * Snapshot reads and version collection (course module 8)

    [practice/module08_compaction_mvcc/main.cpp]: an internal key whose bytes hold the
    inverted sequence number, a store that keeps every version of a key and answers reads at
    a snapshot, and a merge of two sorted runs that drops the versions no snapshot can see.
    The main theorem is that the merge is invisible to every snapshot not older than the
    bound it is given. *)

From Stdlib Require Import ZArith Lia.
From stdpp Require Import base numbers strings list gmap sorting.
From S2P Require Import Prelude CppString Coding Slice.
Local Open Scope Z_scope.

(** ** Internal keys *)

Definition mv_kDeletion : Z := 0.
Definition mv_kValue : Z := 1.

Record MvKey := mkMvKey { mk_user_key : bytes; mk_sequence : Z; mk_type : Z }.

(** [buf[7 - i] = (inv >> (i * 8)) & 0xff], [i] from 7 down to 0. *)
Definition be_bytes (inv : Z) : bytes := (fun i => z2b (Z.land (Z.shiftr inv (i * 8)) 255)) <$> [7; 6; 5; 4; 3; 2; 1; 0].

Definition mv_Encode (k : MvKey) : bytes :=
  let inv := u64 (Z.lnot (mk_sequence k)) in
  mk_user_key k ++ be_bytes inv ++ [z2b (mk_type k)].

Definition be_step (inv : Z) (c : byte) : Z := Z.lor (u64 (Z.shiftl inv 8)) (b2z c).

(** [None] when the assertion on the size fails. *)
Definition mv_Decode (enc : bytes) : option MvKey :=
  if zlen enc >=? 9 then
    let n := (length enc - 9)%nat in
    t ← last enc;
    Some (mkMvKey (take n enc) (u64 (Z.lnot (foldl be_step 0 (take 8 (drop n enc))))) (b2z t))
  else None.

Definition mv_Compare (a b : bytes) : option Z :=
  ka ← mv_Decode a; kb ← mv_Decode b;
  Some (match lex (mk_user_key ka) (mk_user_key kb) with
        | Lt => -1
        | Gt => 1
        | Eq =>
            if mk_sequence ka >? mk_sequence kb then -1
            else if mk_sequence ka <? mk_sequence kb then 1
            else if mk_type ka <? mk_type kb then -1
            else if mk_type ka >? mk_type kb then 1
            else 0
        end).

(** ** The store of versions *)

Record MvVersion := mkMvVersion { vs_seq : Z; vs_value : bytes; vs_deleted : bool }.

Abbreviation MvccStore := (gmap bytes (list MvVersion)).

Definition mv_push (s : MvccStore) (key : bytes) (v : MvVersion) : MvccStore :=
  <[key := default [] (s !! key) ++ [v]]> s.
Definition mv_Put (s : MvccStore) (key : bytes) (seq : Z) (value : bytes) : MvccStore :=
  mv_push s key (mkMvVersion seq value false).
Definition mv_Delete (s : MvccStore) (key : bytes) (seq : Z) : MvccStore :=
  mv_push s key (mkMvVersion seq [] true).

(** One round of the loop in [Get]. *)
Definition mv_better (snapshot_seq : Z) (best : option MvVersion) (v : MvVersion) : option MvVersion :=
  if vs_seq v <=? snapshot_seq then
    match best with
    | None => Some v
    | Some b => if vs_seq v >? vs_seq b then Some v else best
    end
  else best.

Definition mv_best (snapshot_seq : Z) (vs : list MvVersion) : option MvVersion := foldl (mv_better snapshot_seq) None vs.

Definition mv_Get (s : MvccStore) (key : bytes) (snapshot_seq : Z) : option bytes :=
  match s !! key with
  | None => None
  | Some vs =>
      match mv_best snapshot_seq vs with
      | None => None
      | Some b => if vs_deleted b then None else Some (vs_value b)
      end
  end.

(** ** Merging two runs *)

Record KvEntry := mkKv { kv_user_key : bytes; kv_seq : Z; kv_type : Z; kv_value : bytes }.

Definition EncodeKey (e : KvEntry) : bytes := mv_Encode (mkMvKey (kv_user_key e) (kv_seq e) (kv_type e)).

(** The lambda [less] of [CompactMerge]; the keys it compares are encoded, so the assertion of
    [Decode] holds ([mv_less_spec]). *)
Definition mv_less (x y : KvEntry) : bool :=
  match mv_Compare (EncodeKey x) (EncodeKey y) with Some c => c <? 0 | None => false end.

Fixpoint merge_runs (a b : list KvEntry) : list KvEntry :=
  let fix go (b : list KvEntry) : list KvEntry :=
    match a, b with
    | [], [] => []
    | x :: a', [] => x :: merge_runs a' []
    | [], y :: b' => y :: go b'
    | x :: a', y :: b' => if mv_less x y then x :: merge_runs a' b else y :: go b'
    end in
  go b.

(** The inner loop over the entries of one user key. *)
Fixpoint keep_loop (min_snapshot : Z) (kept_below : bool) (g : list KvEntry) : list KvEntry :=
  match g with
  | [] => []
  | e :: g =>
      if kv_seq e >=? min_snapshot then e :: keep_loop min_snapshot kept_below g
      else if negb kept_below then e :: keep_loop min_snapshot true g
      else keep_loop min_snapshot kept_below g
  end.

Definition out_group (min_snapshot : Z) (g : list KvEntry) : list KvEntry :=
  let keep := keep_loop min_snapshot false g in
  match keep with
  | [e] => if (kv_type e =? mv_kDeletion) && (kv_seq e <? min_snapshot) then [] else keep
  | _ => keep
  end.

(** [while (idx < n && merged[idx].user_key == uk) ++idx]: the group and the rest. *)
Fixpoint span_key (uk : bytes) (l : list KvEntry) : list KvEntry * list KvEntry :=
  match l with
  | e :: l' => if decide (kv_user_key e = uk) then let '(g, r) := span_key uk l' in (e :: g, r) else ([], l)
  | [] => ([], [])
  end.

(** The outer loop; every round takes at least one entry, so the length is fuel enough. *)
Fixpoint group_loop (fuel : nat) (min_snapshot : Z) (l : list KvEntry) : list KvEntry :=
  match fuel, l with
  | S fuel, e :: _ =>
      let '(g, r) := span_key (kv_user_key e) l in out_group min_snapshot g ++ group_loop fuel min_snapshot r
  | _, _ => []
  end.

Definition CompactMerge (a b : list KvEntry) (min_snapshot : Z) : list KvEntry :=
  let merged := merge_runs a b in
  group_loop (length merged) min_snapshot merged.

(** The runs of the program's own check. *)
Definition run_a : list KvEntry :=
  [mkKv (bs "apple") 10 1 (bs "a10"); mkKv (bs "apple") 2 1 (bs "a2"); mkKv (bs "zebra") 1 1 (bs "z1")].
Definition run_b : list KvEntry :=
  [mkKv (bs "apple") 8 1 (bs "a8"); mkKv (bs "apple") 1 0 []; mkKv (bs "mango") 3 1 (bs "m3")].

Example compact_merge_demo :
  (fun e => (kv_seq e, kv_value e)) <$> CompactMerge run_a run_b 4 =
  [(10, bs "a10"); (8, bs "a8"); (2, bs "a2"); (3, bs "m3"); (1, bs "z1")] /\
  CompactMerge [mkKv (bs "gone") 1 0 []] [] 10 = [].
Proof. vm_compute. done. Qed.

(** ** The encoding *)

Lemma be_bytes_rev inv : be_bytes inv = reverse (le_split 8 inv).
Proof.
  unfold be_bytes. cbn [le_split reverse rev_append fmap list_fmap].
  rewrite !Z.shiftr_shiftr, !land_255, !z2b_mod by lia. reflexivity.
Qed.

Lemma be_decode l : (length l <= 8)%nat -> foldl be_step 0 (reverse l) = le_combine l.
Proof.
  induction l as [|c l IH]; intros Hl; [done|]. simpl in Hl. rewrite reverse_cons, foldl_app, IH by lia. cbn [foldl le_combine].
  unfold be_step. pose proof (le_combine_range l) as Hr. pose proof (b2z_range c).
  assert (2 ^ (8 * zlen l) <= 2 ^ 56) by (apply Z.pow_le_mono_r; unfold zlen; lia).
  rewrite Z.shiftl_mul_pow2 by lia. rewrite u64_small by lia. rewrite <- Z.shiftl_mul_pow2 by lia.
  rewrite Z.lor_comm, lor_shiftl_add by lia. lia.
Qed.

(** Whatever the user key holds, an encoded key decodes to its parts. *)
Theorem mv_key_roundtrip (uk : bytes) (seq type : Z) :
  0 <= seq < 2 ^ 64 -> 0 <= type < 256 -> mv_Decode (mv_Encode (mkMvKey uk seq type)) = Some (mkMvKey uk seq type).
Proof.
  intros Hs Ht. unfold mv_Decode, mv_Encode. simpl mk_user_key. simpl mk_sequence. simpl mk_type.
  rewrite be_bytes_rev. set (inv := u64 (Z.lnot seq)). assert (length (reverse (le_split 8 inv)) = 8%nat) as E8 by by rewrite length_reverse, length_le_split.
  assert (zlen (uk ++ reverse (le_split 8 inv) ++ [z2b type]) >=? 9 = true) as ->.
  { apply Z.geb_le. unfold zlen. rewrite !length_app, E8. cbn [length]. lia. }
  rewrite app_assoc, last_snoc. cbn [mbind option_bind]. rewrite <- app_assoc, !length_app, E8. cbn [length].
  replace (length uk + (8 + 1) - 9)%nat with (length uk) by lia. rewrite take_app_length, drop_app_length.
  rewrite take_app_exact by done. rewrite be_decode by (by rewrite length_le_split). rewrite le_combine_split.
  rewrite b2z_z2b, (Z.mod_small type) by lia. do 2 f_equal. change (2 ^ (8 * Z.of_nat 8)) with (2 ^ 64).
  unfold inv, u64, Z.lnot. rewrite Z.mod_mod by lia.
  assert (Z.pred (- seq) mod 2 ^ 64 = 2 ^ 64 - 1 - seq) as ->.
  { symmetry. apply (Z.mod_unique _ _ (-1)); lia. }
  symmetry. apply (Z.mod_unique _ _ (-1)); lia.
Qed.

(** The comparison is the order the comment describes... *)
Definition wf_kv (e : KvEntry) : Prop := 0 <= kv_seq e < 2 ^ 64 /\ 0 <= kv_type e < 256.

Definition mv_lt (x y : KvEntry) : Prop :=
  match lex (kv_user_key x) (kv_user_key y) with
  | Lt => True
  | Gt => False
  | Eq => kv_seq y < kv_seq x \/ (kv_seq x = kv_seq y /\ kv_type x < kv_type y)
  end.

Definition mv_le (x y : KvEntry) : Prop := ~ mv_lt y x.

Lemma mv_less_spec x y : wf_kv x -> wf_kv y -> mv_less x y = true <-> mv_lt x y.
Proof.
  intros [? ?] [? ?]. unfold mv_less, mv_Compare, EncodeKey. rewrite !mv_key_roundtrip by done. simpl.
  unfold mv_lt. destruct (lex _ _); [|done|by split].
  repeat (case_match; simpl); split; try done; lia.
Qed.

(** ... but the encoded bytes do not have that order when one user key extends another. *)
Theorem mv_encoding_not_ordered :
  exists x y, mv_lt x y /\ lex (EncodeKey x) (EncodeKey y) = Gt.
Proof. exists (mkKv (bs "a") 1 1 []), (mkKv (bs "ab") 1 1 []). vm_compute. done. Qed.

Lemma mv_le_iff x y :
  mv_le x y <-> lex (kv_user_key x) (kv_user_key y) = Lt \/
    (kv_user_key x = kv_user_key y /\ (kv_seq y < kv_seq x \/ (kv_seq x = kv_seq y /\ kv_type x <= kv_type y))).
Proof.
  unfold mv_le, mv_lt. rewrite lex_opp. destruct (lex (kv_user_key x) (kv_user_key y)) eqn:E; simpl.
  - apply lex_eq_iff in E. rewrite E. split; [intros H; right; split; [done|lia]|intros [|[_ H]]; [done|lia]].
  - split; [by left|tauto].
  - split; [tauto|]. intros [|[E' _]]; [done|]. rewrite E', lex_refl in E. done.
Qed.

Lemma mv_lt_le x y : mv_lt x y -> mv_le x y.
Proof.
  rewrite mv_le_iff. unfold mv_lt. destruct (lex _ _) eqn:E; [|by left|done]. apply lex_eq_iff in E. right. split; [done|lia].
Qed.

Lemma mv_le_trans x y z : mv_le x y -> mv_le y z -> mv_le x z.
Proof.
  rewrite !mv_le_iff. intros [H1|[E1 H1]] [H2|[E2 H2]].
  - left. by eapply lex_trans.
  - left. by rewrite <- E2.
  - left. by rewrite E1.
  - right. rewrite E1, E2. split; [done|lia].
Qed.

(** ** The merge *)

Lemma merge_runs_nil_r a : merge_runs a [] = a.
Proof. induction a as [|x a IH]; simpl; [done|]. by rewrite IH. Qed.

Lemma merge_runs_nil_l b : merge_runs [] b = b.
Proof. induction b as [|y b IH]; [done|]. change (y :: merge_runs [] b = y :: b). by rewrite IH. Qed.

Lemma merge_runs_cons x a y b :
  merge_runs (x :: a) (y :: b) = if mv_less x y then x :: merge_runs a (y :: b) else y :: merge_runs (x :: a) b.
Proof. done. Qed.

Lemma merge_runs_perm a b : merge_runs a b ≡ₚ a ++ b.
Proof.
  revert b. induction a as [|x a IHa]; intros b; [by rewrite merge_runs_nil_l|].
  induction b as [|y b IHb]; [by rewrite merge_runs_nil_r, app_nil_r|].
  rewrite merge_runs_cons. destruct (mv_less x y); [by rewrite IHa|]. rewrite IHb. by rewrite <- Permutation_middle.
Qed.

Lemma merge_runs_sorted a b :
  Forall wf_kv a -> Forall wf_kv b -> StronglySorted mv_le a -> StronglySorted mv_le b -> StronglySorted mv_le (merge_runs a b).
Proof.
  intros Wa. revert b. induction a as [|x a IHa]; intros b Wb Ha; [by rewrite merge_runs_nil_l|].
  apply Forall_cons in Wa as [Wx Wa]. pose proof Ha as Ha0. inversion_clear Ha as [|?? Ha' Hx].
  induction b as [|y b IHb]; intros Hb; [by rewrite merge_runs_nil_r|].
  apply Forall_cons in Wb as [Wy Wb]. pose proof Hb as Hb0. inversion_clear Hb as [|?? Hb' Hy]. rewrite merge_runs_cons.
  destruct (mv_less x y) eqn:E.
  - apply mv_less_spec in E; [|done..]. apply mv_lt_le in E. constructor; [apply IHa; [done|by constructor|done..]|].
    rewrite merge_runs_perm. apply Forall_app. split; [done|]. constructor; [done|].
    eapply Forall_impl; [exact Hy|]. intros z. by apply mv_le_trans.
  - assert (mv_le y x) as E' by (intros H; apply mv_less_spec in H; [congruence|done..]).
    constructor; [by apply IHb|]. rewrite merge_runs_perm. apply Forall_app. split; [|done]. constructor; [done|].
    eapply Forall_impl; [exact Hx|]. intros z. by apply mv_le_trans.
Qed.

(** ** Grouping by user key *)

Definition of_key (k : bytes) (l : list KvEntry) : list KvEntry := filter (fun e => kv_user_key e = k) l.

Lemma of_key_app k l1 l2 : of_key k (l1 ++ l2) = of_key k l1 ++ of_key k l2.
Proof. apply filter_app. Qed.

Lemma keep_loop_sublist m b g : keep_loop m b g `sublist_of` g.
Proof.
  revert b. induction g as [|e g IH]; intros b; simpl; [done|].
  destruct (_ >=? _); [by apply sublist_skip|]. destruct (negb b); [by apply sublist_skip|by apply sublist_cons].
Qed.

Lemma out_group_sublist m g : out_group m g `sublist_of` g.
Proof.
  unfold out_group. pose proof (keep_loop_sublist m false g) as H.
  destruct (keep_loop m false g) as [|e [|]]; try done. destruct (_ && _); [apply sublist_nil_l|done].
Qed.

Lemma span_key_app uk l g r : span_key uk l = (g, r) -> l = g ++ r /\ Forall (fun e => kv_user_key e = uk) g.
Proof.
  revert g r. induction l as [|e l IH]; intros g r; simpl; [by intros [= <- <-]|].
  destruct (decide _) as [E|E]; [|by intros [= <- <-]].
  destruct (span_key uk l) as [g' r'] eqn:Es. intros [= <- <-]. destruct (IH _ _ eq_refl) as [-> H]. split; [done|by constructor].
Qed.

Lemma span_key_rest uk l g r : StronglySorted mv_le l -> (forall e, e ∈ l -> lex uk (kv_user_key e) <> Gt) ->
  span_key uk l = (g, r) -> of_key uk r = [].
Proof.
  revert g r. induction l as [|e l IH]; intros g r Hs Hl; simpl; [by intros [= <- <-]|]. inversion_clear Hs as [|?? Hs' He].
  destruct (decide _) as [E|E].
  - destruct (span_key uk l) as [g' r'] eqn:Es. intros [= <- <-]. eapply IH; [done| |done]. intros x Hx. apply Hl. by right.
  - intros [= <- <-]. apply filter_none. rewrite Forall_forall in He. intros x Hx Ex.
    assert (lex uk (kv_user_key e) = Lt) as Hlt.
    { destruct (lex uk (kv_user_key e)) eqn:El; [|done|].
      - apply lex_eq_iff in El. by rewrite El in E.
      - by apply (Hl e) in El; [|left]. }
    apply elem_of_cons in Hx as [->|Hx]; [done|]. specialize (He x Hx). apply mv_le_iff in He as [He|[He _]].
    + rewrite Ex in He. pose proof (lex_trans _ _ _ Hlt He) as Hc. by rewrite lex_refl in Hc.
    + by rewrite He in E.
Qed.

Lemma of_key_sublist k l1 l2 : l1 `sublist_of` l2 -> of_key k l1 `sublist_of` of_key k l2.
Proof.
  induction 1 as [|x l1 l2 _ IH|x l1 l2 _ IH]; [done| |]; unfold of_key in *; rewrite ?filter_cons; destruct (decide _).
  - by apply sublist_skip.
  - done.
  - by apply sublist_cons.
  - done.
Qed.

Lemma group_loop_sublist fuel m l : group_loop fuel m l `sublist_of` l.
Proof.
  revert l. induction fuel as [|fuel IH]; intros l; [apply sublist_nil_l|]. destruct l as [|e l]; [done|]. cbn [group_loop].
  destruct (span_key (kv_user_key e) (e :: l)) as [g r] eqn:Es. destruct (span_key_app _ _ _ _ Es) as [-> _].
  by apply sublist_app; [apply out_group_sublist|].
Qed.

(** The outer loop treats each user key's entries on their own; the fuel is enough. *)
Lemma group_loop_of_key k fuel m l : (length l <= fuel)%nat -> StronglySorted mv_le l ->
  of_key k (group_loop fuel m l) = out_group m (of_key k l).
Proof.
  revert l. induction fuel as [|fuel IH]; intros l Hf Hs; [by destruct l; [|simpl in Hf; lia]|].
  destruct l as [|e l]; [done|]. cbn [group_loop]. destruct (span_key (kv_user_key e) (e :: l)) as [g r] eqn:Es.
  assert (of_key (kv_user_key e) r = []) as Hr.
  { eapply span_key_rest; [exact Hs| |exact Es]. inversion_clear Hs as [|?? _ He]. rewrite Forall_forall in He.
    intros x Hx. apply elem_of_cons in Hx as [->|Hx]; [by rewrite lex_refl|].
    apply He, mv_le_iff in Hx as [H|[H _]]; [by rewrite H|by rewrite H, lex_refl]. }
  assert (g <> []) as Hg. { simpl in Es. rewrite decide_True in Es by done. destruct (span_key _ l). by injection Es as <- <-. }
  destruct (span_key_app _ _ _ _ Es) as [El Hu]. rewrite El in Hf, Hs |- *. rewrite !of_key_app.
  assert (StronglySorted mv_le r) as Hsr by (by apply StronglySorted_app in Hs as (_ & _ & ?)).
  assert (length r <= fuel)%nat as Hfr by (rewrite length_app in Hf; destruct g; [done|simpl in Hf; lia]).
  rewrite IH by done. destruct (decide (kv_user_key e = k)) as [<-|Hk].
  - rewrite Hr. change (out_group m []) with (@nil KvEntry). rewrite !app_nil_r.
    rewrite Forall_forall in Hu. assert (of_key (kv_user_key e) g = g) as -> by by apply filter_all.
    apply filter_all. intros x Hx. apply Hu. eapply elem_of_sublist; [exact Hx|apply out_group_sublist].
  - rewrite Forall_forall in Hu. assert (of_key k g = []) as ->.
    { apply filter_none. intros x Hx Ex. apply Hk. by rewrite <- Ex, (Hu x Hx). }
    assert (of_key k (out_group m g) = []) as ->; [|done].
    apply filter_none. intros x Hx Ex. apply Hk. rewrite <- Ex. symmetry. apply Hu.
    eapply elem_of_sublist; [exact Hx|apply out_group_sublist].
Qed.

(** ** Reads *)

(** The store that holds the versions of a run. *)
Definition store_of (l : list KvEntry) : MvccStore :=
  foldl (fun s e => if kv_type e =? mv_kDeletion then mv_Delete s (kv_user_key e) (kv_seq e)
                    else mv_Put s (kv_user_key e) (kv_seq e) (kv_value e)) ∅ l.

Definition version_of (e : KvEntry) : MvVersion :=
  if kv_type e =? mv_kDeletion then mkMvVersion (kv_seq e) [] true else mkMvVersion (kv_seq e) (kv_value e) false.

Lemma version_of_seq e : vs_seq (version_of e) = kv_seq e.
Proof. unfold version_of. by destruct (_ =? _). Qed.

Lemma store_of_snoc l e : store_of (l ++ [e]) = mv_push (store_of l) (kv_user_key e) (version_of e).
Proof. unfold store_of. rewrite foldl_snoc. unfold version_of. by destruct (_ =? _). Qed.

Lemma store_of_lookup l k : default [] (store_of l !! k) = version_of <$> of_key k l.
Proof.
  induction l as [|e l IH] using rev_ind; [done|]. rewrite store_of_snoc, of_key_app, fmap_app. unfold mv_push.
  unfold of_key at 2. rewrite filter_cons. destruct (decide (kv_user_key e = k)) as [<-|Hne].
  - rewrite lookup_insert_eq. simpl. by rewrite IH.
  - rewrite lookup_insert_ne by done. rewrite IH. simpl. by rewrite app_nil_r.
Qed.

Definition read_version (b : option MvVersion) : option bytes :=
  match b with None => None | Some b => if vs_deleted b then None else Some (vs_value b) end.

Lemma mv_Get_store l k s : mv_Get (store_of l) k s = read_version (mv_best s (version_of <$> of_key k l)).
Proof. rewrite <- store_of_lookup. unfold mv_Get. by destruct (store_of l !! k). Qed.

(** The loop of [Get] finds a newest version at or below the snapshot. *)
Lemma mv_best_spec s vs :
  match mv_best s vs with
  | None => forall w, w ∈ vs -> s < vs_seq w
  | Some v => v ∈ vs /\ vs_seq v <= s /\ forall w, w ∈ vs -> vs_seq w <= s -> vs_seq w <= vs_seq v
  end.
Proof.
  induction vs as [|x vs IH] using rev_ind; [by simpl; intros ? ?%elem_of_nil|].
  unfold mv_best in *. rewrite foldl_snoc. unfold mv_better at 1. destruct (Z.leb_spec (vs_seq x) s) as [Hx|Hx].
  - destruct (foldl _ None vs) as [b|] eqn:Eb.
    + destruct IH as (Hb & Hbs & Hmax). destruct (Z.gtb_spec (vs_seq x) (vs_seq b)) as [Hg|Hg]; (split_and!; [set_solver|done|]);
        intros w [Hw|Hw%list_elem_of_singleton]%elem_of_app Hws; subst; try lia; specialize (Hmax w Hw Hws); lia.
    + split_and!; [set_solver|done|]. intros w [Hw|Hw%list_elem_of_singleton]%elem_of_app Hws; subst; [|lia]. specialize (IH w Hw). lia.
  - destruct (foldl _ None vs) as [b|] eqn:Eb.
    + destruct IH as (Hb & Hbs & Hmax). split_and!; [set_solver|done|].
      intros w [Hw|Hw%list_elem_of_singleton]%elem_of_app Hws; subst; [by apply Hmax|lia].
    + intros w [Hw|Hw%list_elem_of_singleton]%elem_of_app; subst; [by apply IH|lia].
Qed.

Lemma seq_unique vs (v w : MvVersion) : NoDup (vs_seq <$> vs) -> v ∈ vs -> w ∈ vs -> vs_seq v = vs_seq w -> v = w.
Proof.
  intros Hnd Hv Hw E. apply list_elem_of_lookup in Hv as [i Hi]. apply list_elem_of_lookup in Hw as [j Hj].
  assert (i = j) as <-; [|congruence]. apply (NoDup_lookup _ _ _ (vs_seq v) Hnd); [by rewrite list_lookup_fmap, Hi|by rewrite list_lookup_fmap, Hj, E].
Qed.

(** With distinct sequence numbers the order of the versions does not matter. *)
Lemma mv_best_perm s vs ws : NoDup (vs_seq <$> vs) -> vs ≡ₚ ws -> mv_best s vs = mv_best s ws.
Proof.
  intros Hnd Hp. pose proof (mv_best_spec s vs) as Hv. pose proof (mv_best_spec s ws) as Hw.
  destruct (mv_best s vs) as [v|], (mv_best s ws) as [w|]; [|..|done].
  - destruct Hv as (Hv & Hvs & Hvm), Hw as (Hw & Hws & Hwm). rewrite <- Hp in Hw. f_equal. eapply seq_unique; [exact Hnd|done..|].
    rewrite Hp in Hv. specialize (Hvm w Hw Hws). specialize (Hwm v Hv Hvs). lia.
  - destruct Hv as (Hv & Hvs & _). rewrite Hp in Hv. specialize (Hw v Hv). lia.
  - destruct Hw as (Hw & Hws & _). rewrite <- Hp in Hw. specialize (Hv w Hw). lia.
Qed.

(** On versions from new to old it is the first one the snapshot sees. *)
Definition first_seen (s : Z) (g : list KvEntry) : option KvEntry := head (filter (fun e => kv_seq e <= s) g).

Definition newest_first (g : list KvEntry) : Prop := StronglySorted (fun x y => kv_seq y <= kv_seq x) g.

Lemma mv_better_old s b l : (forall x, x ∈ l -> vs_seq x <= vs_seq b) -> foldl (mv_better s) (Some b) l = Some b.
Proof.
  induction l as [|x l IH]; intros H; [done|]. simpl. unfold mv_better at 2. specialize (IH ltac:(set_solver)).
  destruct (_ <=? s); [|done]. destruct (Z.gtb_spec (vs_seq x) (vs_seq b)); [|done]. specialize (H x ltac:(left)). lia.
Qed.

Lemma mv_best_sorted s g : newest_first g -> mv_best s (version_of <$> g) = version_of <$> first_seen s g.
Proof.
  induction 1 as [|e g Hs IH He]; [done|]. unfold mv_best, first_seen. rewrite filter_cons. cbn [fmap list_fmap foldl].
  unfold mv_better at 2. rewrite version_of_seq. destruct (Z.leb_spec (kv_seq e) s) as [Hle|Hgt].
  - rewrite decide_True by done. simpl. apply mv_better_old. rewrite Forall_forall in He.
    intros x (y & -> & Hy)%list_elem_of_fmap. rewrite !version_of_seq. by apply He.
  - rewrite decide_False by lia. apply IH.
Qed.

(** ** The versions that are kept are those a snapshot can see *)

Lemma keep_loop_seen m s g : m <= s + 1 -> first_seen s (keep_loop m false g) = first_seen s g.
Proof.
  intros Hm. unfold first_seen. induction g as [|e g IH]; [done|]. cbn [keep_loop]. rewrite Z.geb_leb.
  destruct (Z.leb_spec m (kv_seq e)) as [Hle|Hgt]; simpl; rewrite !filter_cons.
  - destruct (decide (kv_seq e <= s)); [done|apply IH].
  - by rewrite !decide_True by lia.
Qed.

Lemma out_group_reads m s g : m <= s + 1 -> newest_first g ->
  read_version (mv_best s (version_of <$> out_group m g)) = read_version (mv_best s (version_of <$> g)).
Proof.
  intros Hm Hn. rewrite !mv_best_sorted; [|done|eapply StronglySorted_sublist; [apply out_group_sublist|done]].
  rewrite <- (keep_loop_seen m s g Hm). unfold out_group. destruct (keep_loop m false g) as [|e [|]]; [done| |done].
  destruct (Z.eqb_spec (kv_type e) mv_kDeletion) as [Ed|]; [|done]. destruct (Z.ltb_spec (kv_seq e) m); [|done]. simpl.
  unfold first_seen. rewrite filter_cons, decide_True by lia. simpl. unfold version_of. by rewrite Ed.
Qed.

Lemma of_key_newest_first k l : StronglySorted mv_le l -> newest_first (of_key k l).
Proof.
  unfold newest_first, of_key. induction 1 as [|e l Hs IH He]; [constructor|]. rewrite filter_cons. destruct (decide _) as [Ek|]; [|done].
  constructor; [done|]. rewrite Forall_forall in *. intros x [Hk Hx]%list_elem_of_filter. apply He, mv_le_iff in Hx as [Hx|[_ Hx]]; [|lia].
  rewrite Ek, Hk, lex_refl in Hx. done.
Qed.

(** The result of the merge is sorted and made of entries of the runs. *)
Lemma compact_merge_sublist a b m : CompactMerge a b m `sublist_of` merge_runs a b.
Proof. apply group_loop_sublist. Qed.

Section Merge.
Context (a b : list KvEntry) (Wa : Forall wf_kv a) (Wb : Forall wf_kv b).
Context (Sa : StronglySorted mv_le a) (Sb : StronglySorted mv_le b).
Context (Hu : NoDup ((fun e => (kv_user_key e, kv_seq e)) <$> a ++ b)).

Lemma of_key_seqs_NoDup k : NoDup (vs_seq <$> (version_of <$> of_key k (a ++ b))).
Proof.
  clear Wa Wb Sa Sb. induction (a ++ b) as [|e l IH]; [constructor|]. rewrite fmap_cons in Hu. apply NoDup_cons in Hu as [He Hl].
  unfold of_key in *. rewrite filter_cons. destruct (decide _) as [Ek|]; [|by apply IH]. cbn [fmap list_fmap]. constructor; [|by apply IH].
  rewrite version_of_seq. intros (v & E & (x & -> & [Hk Hx]%list_elem_of_filter)%list_elem_of_fmap)%list_elem_of_fmap.
  rewrite version_of_seq in E. apply He. apply list_elem_of_fmap. exists x. split; [|done]. congruence.
Qed.

(** Collecting versions is invisible: for two sorted runs of distinct versions, a store of the
    merged run answers every read at a snapshot not below [min_snapshot - 1] as a store of all
    the versions does; the result is sorted and holds only entries of the runs. *)
Theorem compact_merge_preserves_snapshots min_snapshot key snapshot :
  min_snapshot <= snapshot + 1 ->
  mv_Get (store_of (CompactMerge a b min_snapshot)) key snapshot = mv_Get (store_of (a ++ b)) key snapshot /\
  StronglySorted mv_le (CompactMerge a b min_snapshot) /\ (forall e, e ∈ CompactMerge a b min_snapshot -> e ∈ a ++ b).
Proof.
  intros Hm. pose proof (merge_runs_sorted a b Wa Wb Sa Sb) as Hs. split_and!.
  - rewrite !mv_Get_store. unfold CompactMerge. rewrite group_loop_of_key by done.
    rewrite out_group_reads by (done || by apply of_key_newest_first). f_equal. symmetry. apply mv_best_perm; [apply of_key_seqs_NoDup|].
    unfold of_key. by rewrite (merge_runs_perm a b).
  - eapply StronglySorted_sublist; [exact (compact_merge_sublist a b min_snapshot)|done].
  - intros e He. rewrite <- (merge_runs_perm a b). eapply elem_of_sublist; [exact He|apply compact_merge_sublist].
Qed.

End Merge.

Lemma compact_merge_preserves_snapshots_witness :
  mv_Get (store_of (CompactMerge run_a run_b 4)) (bs "apple") 9 = Some (bs "a8").
Proof.
  assert (StronglySorted mv_le run_a) as Sa by (unfold run_a; repeat (apply SSorted_cons || apply SSorted_nil || apply Forall_nil_2 || apply Forall_cons_2); vm_compute; naive_solver).
  assert (StronglySorted mv_le run_b) as Sb by (unfold run_b; repeat (apply SSorted_cons || apply SSorted_nil || apply Forall_nil_2 || apply Forall_cons_2); vm_compute; naive_solver).
  assert (Forall wf_kv (run_a ++ run_b)) as [Wa Wb]%Forall_app by (repeat constructor; vm_compute; done).
  assert (NoDup ((fun e => (kv_user_key e, kv_seq e)) <$> run_a ++ run_b)) as Hu by (apply (bool_decide_unpack _); vm_compute; done).
  destruct (compact_merge_preserves_snapshots run_a run_b Wa Wb Sa Sb Hu 4 (bs "apple") 9 ltac:(lia)) as [-> _]. vm_compute. done.
Defined.
