(* ===== verification/CourseSkip.v ===== *)
(** * The skip lists of the course

    [practice/module05_skiplist/main.cpp] (a set, over any type of keys),
    [practice/handwrite/test_skiplist_handwrite.cpp] (a map from [int] to [int]) and
    [practice/module14_reproduce/main.cpp] (strings, levels from a linear congruential
    generator, under a small versioned store with a Bloom filter).  All three are on the
    heaps of [SkipHeap]; [level_] counts the levels in use, from 1.  Each refines the
    finite set or map it stands for over every sequence of operations, and its destructor
    leaves no node behind. *)

From Stdlib Require Import ZArith Lia.
From stdpp Require Import base numbers strings list gmap.
From S2P Require Import Prelude CppString Coding Slice SkipHeap Mvcc.
Local Open Scope Z_scope.

(** ** What the three share *)

Record CourseList (K V : Type) := mkCourse {
  cl_heap : gmap loc (SkipNode K V);
  cl_head : loc;
  cl_level : nat;
  cl_next : loc;
}.
Arguments mkCourse {K V}.
Arguments cl_heap {K V}.
Arguments cl_head {K V}.
Arguments cl_level {K V}.
Arguments cl_next {K V}.

Section Shared.
Context {K V : Type} `{!EqDecision K, !Inhabited K, !Inhabited V} (cmp : K -> K -> comparison).

(** The search of every operation: the node at level 0, [update], and the node after. *)
Definition cl_search (s : CourseList K V) (key : K) : option (list loc * option loc) :=
  '(x, update) ← search cmp (size (cl_heap s)) (cl_heap s) key (cl_level s - 1) (cl_head s);
  nx ← fwd (cl_heap s) x 0;
  Some (update, nx).

(** Linking a new node of [lvl] levels; the levels above [level_] start at the head. *)
Definition cl_link (s : CourseList K V) (update : list loc) (key : K) (value : V) (lvl : nat) : option (CourseList K V) :=
  let node := cl_next s in
  h ← link (<[node := mkNode key value (replicate lvl None)]> (cl_heap s)) node
        (update ++ replicate (lvl - cl_level s) (cl_head s)) 0 lvl;
  Some (mkCourse h (cl_head s) (Nat.max (cl_level s) lvl) (S node)).

(** Unlinking and deleting a node, then lowering [level_]. *)
Definition cl_unlink (s : CourseList K V) (update : list loc) (y : loc) : option (CourseList K V) :=
  h ← unlink (cl_heap s) y update 0 (cl_level s);
  let h := delete y h in
  level ← shrink_level h (cl_head s) (cl_level s - 1);
  Some (mkCourse h (cl_head s) (S level) (cl_next s)).

(** The nodes are freed from the first one on, the head last. *)
Definition cl_free (s : CourseList K V) : option (gmap loc (SkipNode K V)) :=
  x ← fwd (cl_heap s) (cl_head s) 0;
  h ← free_from (size (cl_heap s)) (cl_heap s) x;
  Some (delete (cl_head s) h).

(** [while (coin && lvl < max) ++lvl], from [lvl = 1]. *)
Fixpoint coin_levels (max : nat) (flips : list bool) (lvl : nat) : nat :=
  match flips with
  | true :: flips => if (lvl <? max)%nat then coin_levels max flips (S lvl) else lvl
  | _ => lvl
  end.

Lemma coin_levels_range max flips lvl : (1 <= lvl <= max)%nat -> (1 <= coin_levels max flips lvl <= max)%nat.
Proof.
  revert lvl. induction flips as [|[] flips IH]; intros lvl Hl; simpl; [done| |done].
  destruct (Nat.ltb_spec lvl max); [apply IH|]; lia.
Qed.

Context (P : K -> Prop) `{HO : !OrdOn P cmp} (top : nat).

Definition cl_rep (s : CourseList K V) (l : list (K * V)) : Prop :=
  heap_rep cmp P top (cl_heap s) (cl_head s) (cl_level s) (cl_next s) l.

(** The search finds the entry of the key, or the place where it goes. *)
Lemma cl_search_ok s l key :
  cl_rep s l -> P key ->
  exists update nx, cl_search s key = Some (update, nx) /\
    (nx = None -> sl_lookup key l = None) /\
    (forall y, nx = Some y -> exists n, cl_heap s !! y = Some n /\
       sl_lookup key l = (if decide (sk_key n = key) then Some (sk_value n) else None) /\
       (sk_key n = key ->
         (forall value, cl_rep (mkCourse (<[y := mkNode (sk_key n) value (sk_forward n)]> (cl_heap s)) (cl_head s) (cl_level s) (cl_next s))
                          (sl_insert cmp key value l)) /\
         exists s', cl_unlink s update y = Some s' /\ cl_rep s' (sl_delete key l))) /\
    (forall value lvl, sl_lookup key l = None -> (1 <= lvl <= top)%nat ->
       exists s', cl_link s update key value lvl = Some s' /\ cl_rep s' (sl_insert cmp key value l)).
Proof.
  intros Hr Hk. destruct (heap_locate _ _ _ _ _ _ _ _ _ Hr Hk) as (x & update & nx & Hl). exists update, nx.
  destruct Hl as [Hs Hf Hn Hy Hi Ho Hd]. split; [unfold cl_search; by rewrite Hs; cbn [mbind option_bind]; rewrite Hf|].
  split; [done|]. split.
  - intros y Ey. destruct (Hy y Ey) as (n & En & Hlk). exists n. split; [done|]. split; [done|]. intros Heq.
    split; [intros value; by apply Ho|]. destruct (Hd y n Ey En Heq) as (h1 & lv & E1 & E2 & Hr').
    unfold cl_unlink. rewrite E1. cbn [mbind option_bind]. rewrite E2. cbn [mbind option_bind]. by eexists.
  - intros value lvl Hno Hlvl. destruct (Hi value lvl Hno Hlvl) as (h' & E & Hr'). unfold cl_link. rewrite E. by eexists.
Qed.

Lemma cl_rep_wf s l : cl_rep s l -> sl_wf cmp P l.
Proof. intros Hr. by eapply heap_rep_wf. Qed.

Lemma cl_free_ok s l : cl_rep s l -> cl_free s = Some ∅.
Proof.
  intros Hr. destruct (heap_rep_free_nodes _ _ _ _ _ _ _ _ Hr) as (x & h' & E1 & E2 & E3). unfold cl_free. rewrite E1. cbn [mbind option_bind].
  rewrite E2. cbn [mbind option_bind]. by rewrite E3.
Qed.

Lemma cl_rep_new k v : (1 <= top)%nat -> cl_rep (mkCourse {[ 0%nat := mkNode k v (replicate top None) ]} 0 1 1) [].
Proof. apply heap_rep_new. Qed.
End Shared.

(** ** Module 5: a set *)

Definition m05_kMaxLevel : nat := 16.

Inductive set_op (K : Type) := SSearch (key : K) | SInsert (key : K) (flips : list bool) | SErase (key : K).
Arguments SSearch {K}.
Arguments SInsert {K}.
Arguments SErase {K}.

Section Module05.
Context {K : Type} `{Countable K} (cmp : K -> K -> comparison) (key0 : K).

Abbreviation Set05 := (CourseList K unit).

Definition m05_new : Set05 := mkCourse {[ 0%nat := mkNode key0 tt (replicate m05_kMaxLevel None) ]} 0 1 1.

Definition m05_search (s : Set05) (key : K) : option bool :=
  '(_, x) ← cl_search cmp s key;
  match x with
  | None => Some false
  | Some x => n ← cl_heap s !! x; Some (bool_decide (sk_key n = key))
  end.

(** The coin flips are the outcomes of [std::rand() / RAND_MAX < kP]. *)
Definition m05_randomLevel (flips : list bool) : nat := coin_levels m05_kMaxLevel flips 1.

Definition m05_insert (s : Set05) (key : K) (flips : list bool) : option (Set05 * bool) :=
  '(update, x) ← cl_search cmp s key;
  let insert := s ← cl_link s update key tt (m05_randomLevel flips); Some (s, true) in
  match x with
  | None => insert
  | Some x => n ← cl_heap s !! x; if decide (sk_key n = key) then Some (s, false) else insert
  end.

Definition m05_erase (s : Set05) (key : K) : option (Set05 * bool) :=
  '(update, x) ← cl_search cmp s key;
  match x with
  | None => Some (s, false)
  | Some x =>
      n ← cl_heap s !! x;
      if decide (sk_key n = key) then s ← cl_unlink s update x; Some (s, true) else Some (s, false)
  end.

Definition m05_destroy (s : Set05) : option (gmap loc (SkipNode K unit)) := cl_free s.

Definition m05_step (s : Set05) (o : set_op K) : option (Set05 * bool) :=
  match o with
  | SSearch key => b ← m05_search s key; Some (s, b)
  | SInsert key flips => m05_insert s key flips
  | SErase key => m05_erase s key
  end.

Fixpoint m05_run (s : Set05) (ops : list (set_op K)) : option (Set05 * list bool) :=
  match ops with
  | [] => Some (s, [])
  | o :: ops => '(s, b) ← m05_step s o; '(s, bs) ← m05_run s ops; Some (s, b :: bs)
  end.

(** The set of the keys: insertion tells whether the key was new, erasure whether it was
    there. *)
Definition set_step (X : gset K) (o : set_op K) : gset K * bool :=
  match o with
  | SSearch key => (X, bool_decide (key ∈ X))
  | SInsert key _ => ({[key]} ∪ X, bool_decide (key ∉ X))
  | SErase key => (X ∖ {[key]}, bool_decide (key ∈ X))
  end.

Fixpoint set_run (X : gset K) (ops : list (set_op K)) : gset K * list bool :=
  match ops with
  | [] => (X, [])
  | o :: ops => let '(X, b) := set_step X o in let '(X, bs) := set_run X ops in (X, b :: bs)
  end.

Context `{HO : !OrdOn (fun _ => True) cmp}.
Local Instance K_inhabited : Inhabited K := populate key0.

Local Abbreviation rep := (cl_rep (V:=unit) cmp (fun _ => True) m05_kMaxLevel).

Definition set_of (l : list (K * unit)) (X : gset K) : Prop := forall k, k ∈ X <-> is_Some (sl_lookup k l).

Lemma set_of_insert l X key :
  sl_wf cmp (fun _ => True) l -> set_of l X -> set_of (sl_insert cmp key tt l) ({[key]} ∪ X).
Proof.
  intros Hwf Hs k. rewrite (sl_lookup_insert cmp (fun _ => True)) by done. rewrite elem_of_union, elem_of_singleton, (Hs k).
  case_decide; naive_solver.
Qed.

Lemma set_of_delete l X key : set_of l X -> set_of (sl_delete key l) (X ∖ {[key]}).
Proof.
  intros Hs k. rewrite sl_lookup_delete, elem_of_difference, not_elem_of_singleton, (Hs k). case_decide; [|tauto].
  split; [tauto|]. by intros [? ?].
Qed.

Lemma set_of_absent l X key : set_of l X -> sl_lookup key l = None -> key ∉ X.
Proof. intros Hs Hl. rewrite (Hs key), Hl. by intros [? ?]. Qed.

Lemma set_of_present l X key v : set_of l X -> sl_lookup key l = Some v -> key ∈ X.
Proof. intros Hs Hl. rewrite (Hs key), Hl. by eexists. Qed.

Lemma m05_step_ok s l X o :
  rep s l -> set_of l X ->
  exists s' l', m05_step s o = Some (s', (set_step X o).2) /\ rep s' l' /\ set_of l' (set_step X o).1.
Proof.
  intros Hr Hs. pose proof (cl_rep_wf _ _ _ _ _ Hr) as Hwf.
  destruct o as [key|key flips|key]; cbn [m05_step set_step fst snd];
    destruct (cl_search_ok cmp (fun _ => True) m05_kMaxLevel s l key Hr I) as (update & nx & E & Hn & Hy & Hi);
    unfold m05_search, m05_insert, m05_erase; rewrite E; cbn [mbind option_bind].
  - exists s, l. split; [|done]. destruct nx as [y|]; cbn [mbind option_bind].
    + destruct (Hy y eq_refl) as (n & -> & Hlk & _). cbn [mbind option_bind]. do 2 f_equal. apply bool_decide_ext.
      rewrite (Hs key), Hlk. case_decide; [naive_solver|]. split; [done|]. by intros [? ?].
    + do 2 f_equal. symmetry. apply bool_decide_eq_false. by eapply set_of_absent, Hn.
  - assert (sl_lookup key l = None -> exists s' l',
      (s ← cl_link s update key tt (m05_randomLevel flips); Some (s, true)) = Some (s', bool_decide (key ∉ X)) /\ rep s' l' /\ set_of l' ({[key]} ∪ X)) as Hins.
    { intros Hno. destruct (Hi tt (m05_randomLevel flips) Hno) as (s' & -> & Hr').
      { apply coin_levels_range. unfold m05_kMaxLevel. lia. }
      exists s', (sl_insert cmp key tt l). rewrite bool_decide_true by by eapply set_of_absent. split; [done|]. split; [done|]. by apply set_of_insert. }
    destruct nx as [y|]; [|by apply Hins, Hn]. destruct (Hy y eq_refl) as (n & -> & Hlk & _). cbn [mbind option_bind].
    case_decide; [|by apply Hins]. assert (key ∈ X) as Hin by by eapply set_of_present.
    exists s, l. rewrite bool_decide_false by tauto. split; [done|]. split; [done|]. by replace ({[key]} ∪ X) with X by set_solver.
  - destruct nx as [y|].
    + destruct (Hy y eq_refl) as (n & -> & Hlk & Hk). cbn [mbind option_bind]. case_decide as Heq.
      * destruct (Hk Heq) as [_ (s' & -> & Hr')]. exists s', (sl_delete key l).
        rewrite bool_decide_true by by eapply set_of_present. split; [done|]. split; [done|]. by apply set_of_delete.
      * pose proof (set_of_absent _ _ _ Hs Hlk). exists s, l. rewrite bool_decide_false by done. split; [done|]. split; [done|].
        by replace (X ∖ {[key]}) with X by set_solver.
    + pose proof (set_of_absent _ _ _ Hs (Hn eq_refl)). exists s, l. rewrite bool_decide_false by done. split; [done|]. split; [done|].
      by replace (X ∖ {[key]}) with X by set_solver.
Qed.

Lemma m05_run_ok ops : forall s l X,
  rep s l -> set_of l X -> exists s' l', m05_run s ops = Some (s', (set_run X ops).2) /\ rep s' l' /\ set_of l' (set_run X ops).1.
Proof.
  induction ops as [|o ops IH]; intros s l X Hr Hs; [by exists s, l|]. cbn [m05_run set_run].
  destruct (m05_step_ok s l X o Hr Hs) as (s1 & l1 & -> & Hr1 & Hs1). cbn [mbind option_bind].
  destruct (set_step X o) as [X1 b]. cbn [fst snd] in *. destruct (IH s1 l1 X1 Hr1 Hs1) as (s2 & l2 & -> & Hr2 & Hs2).
  cbn [mbind option_bind]. destruct (set_run X1 ops) as [X2 bs]. by exists s2, l2.
Qed.

(** The skip list of module 5 is a set: for every sequence of operations and whatever levels
    the coins choose, no bad pointer is followed, the answers are those of the set, and the
    destructor frees every node. *)
Theorem m05_refines_set (ops : list (set_op K)) :
  exists s, m05_run m05_new ops = Some (s, (set_run ∅ ops).2) /\ m05_destroy s = Some ∅.
Proof.
  destruct (m05_run_ok ops m05_new [] ∅) as (s & l & E & Hr & _).
  - apply cl_rep_new. unfold m05_kMaxLevel. lia.
  - intros k. split; [set_solver|]. by intros [? ?].
  - exists s. split; [done|]. by eapply cl_free_ok.
Qed.
End Module05.

(** The self-test of [main]: twenty insertions, a repeated one, erasures and lookups. *)
Example m05_main :
  let ops := ((fun i => SInsert (Z.of_nat i) [true; false]) <$> seq 1 20) ++
             [SInsert 10 []; SSearch 0; SSearch 21; SErase 1; SErase 10; SErase 20; SErase 10; SSearch 10; SSearch 19] in
  snd <$> m05_run Z.compare (m05_new 0) ops =
  Some (replicate 20 true ++ [false; false; false; true; true; true; false; false; true]).
Proof. vm_compute. reflexivity. Qed.

(** ** The handwritten map *)

Definition hand_kMaxLevel : nat := 16.
Abbreviation Map05 := (CourseList Z Z).

Definition hand_new : Map05 := mkCourse {[ 0%nat := mkNode 0 0 (replicate hand_kMaxLevel None) ]} 0 1 1.

(** The value written through [out] when the key is found. *)
Definition hand_search (s : Map05) (key : Z) : option (option Z) :=
  '(_, cur) ← cl_search Z.compare s key;
  match cur with
  | None => Some None
  | Some cur => n ← cl_heap s !! cur; Some (if decide (sk_key n = key) then Some (sk_value n) else None)
  end.

Definition hand_randomLevel (flips : list bool) : nat := coin_levels hand_kMaxLevel flips 1.

Definition hand_insert (s : Map05) (key value : Z) (flips : list bool) : option Map05 :=
  '(update, cur) ← cl_search Z.compare s key;
  match cur with
  | None => cl_link s update key value (hand_randomLevel flips)
  | Some cur =>
      n ← cl_heap s !! cur;
      if decide (sk_key n = key) then
        Some (mkCourse (<[cur := mkNode (sk_key n) value (sk_forward n)]> (cl_heap s)) (cl_head s) (cl_level s) (cl_next s))
      else cl_link s update key value (hand_randomLevel flips)
  end.

Definition hand_erase (s : Map05) (key : Z) : option (Map05 * bool) :=
  '(update, cur) ← cl_search Z.compare s key;
  match cur with
  | None => Some (s, false)
  | Some cur =>
      n ← cl_heap s !! cur;
      if decide (sk_key n = key) then s ← cl_unlink s update cur; Some (s, true) else Some (s, false)
  end.

Definition hand_destroy (s : Map05) : option (gmap loc (SkipNode Z Z)) := cl_free s.

Inductive map_op := MSearch (key : Z) | MInsert (key value : Z) (flips : list bool) | MErase (key : Z).
Inductive map_answer := AFound (out : option Z) | ADone | AErased (b : bool).

Definition hmap_step (s : Map05) (o : map_op) : option (Map05 * map_answer) :=
  match o with
  | MSearch key => out ← hand_search s key; Some (s, AFound out)
  | MInsert key value flips => s ← hand_insert s key value flips; Some (s, ADone)
  | MErase key => '(s, b) ← hand_erase s key; Some (s, AErased b)
  end.

Fixpoint hmap_run (s : Map05) (ops : list map_op) : option (Map05 * list map_answer) :=
  match ops with
  | [] => Some (s, [])
  | o :: ops => '(s, a) ← hmap_step s o; '(s, ans) ← hmap_run s ops; Some (s, a :: ans)
  end.

Definition map_step (m : gmap Z Z) (o : map_op) : gmap Z Z * map_answer :=
  match o with
  | MSearch key => (m, AFound (m !! key))
  | MInsert key value _ => (<[key := value]> m, ADone)
  | MErase key => (delete key m, AErased (bool_decide (is_Some (m !! key))))
  end.

Fixpoint map_run (m : gmap Z Z) (ops : list map_op) : gmap Z Z * list map_answer :=
  match ops with
  | [] => (m, [])
  | o :: ops => let '(m, a) := map_step m o in let '(m, ans) := map_run m ops in (m, a :: ans)
  end.

Local Abbreviation hand_rep := (cl_rep (K:=Z) (V:=Z) Z.compare (fun _ => True) hand_kMaxLevel).

Definition map_of {K V} `{Countable K} (l : list (K * V)) (m : gmap K V) : Prop := forall k, m !! k = sl_lookup k l.

Lemma map_of_insert {K V} `{Countable K} (cmp : K -> K -> comparison) `{!OrdOn (fun _ => True) cmp} (l : list (K * V)) m key value :
  sl_wf cmp (fun _ => True) l -> map_of l m -> map_of (sl_insert cmp key value l) (<[key := value]> m).
Proof.
  intros Hwf Hm k. rewrite (sl_lookup_insert cmp (fun _ => True)) by done.
  case_decide as Hk; [subst; apply lookup_insert_eq|]. rewrite lookup_insert_ne by done. apply Hm.
Qed.

Lemma map_of_delete {K V} `{Countable K} (l : list (K * V)) m key : map_of l m -> map_of (sl_delete key l) (delete key m).
Proof.
  intros Hm k. rewrite sl_lookup_delete. case_decide as Hk; [subst; apply lookup_delete_eq|]. rewrite lookup_delete_ne by congruence. apply Hm.
Qed.

Lemma hmap_step_ok s l m o :
  hand_rep s l -> map_of l m ->
  exists s' l', hmap_step s o = Some (s', (map_step m o).2) /\ hand_rep s' l' /\ map_of l' (map_step m o).1.
Proof.
  intros Hr Hm. pose proof (cl_rep_wf _ _ _ _ _ Hr) as Hwf.
  destruct o as [key|key value flips|key]; cbn [hmap_step map_step fst snd];
    destruct (cl_search_ok Z.compare (fun _ => True) hand_kMaxLevel s l key Hr I) as (update & nx & E & Hn & Hy & Hi);
    unfold hand_search, hand_insert, hand_erase; rewrite E; cbn [mbind option_bind].
  - exists s, l. split; [|done]. rewrite (Hm key). destruct nx as [y|].
    + destruct (Hy y eq_refl) as (n & -> & -> & _). done.
    + by rewrite (Hn eq_refl).
  - assert (sl_lookup key l = None -> exists s' l',
      (s ← cl_link s update key value (hand_randomLevel flips); Some (s, ADone)) = Some (s', ADone) /\ hand_rep s' l' /\ map_of l' (<[key := value]> m)) as Hins.
    { intros Hno. destruct (Hi value (hand_randomLevel flips) Hno) as (s' & -> & Hr').
      { apply coin_levels_range. unfold hand_kMaxLevel. lia. }
      exists s', (sl_insert Z.compare key value l). split; [done|]. split; [done|]. by apply (map_of_insert Z.compare). }
    destruct nx as [y|]; [|by apply Hins, Hn]. destruct (Hy y eq_refl) as (n & -> & Hlk & Hk). cbn [mbind option_bind].
    case_decide as Heq; [|by apply Hins]. destruct (Hk Heq) as [Ho _]. cbn [mbind option_bind].
    eexists _, (sl_insert Z.compare key value l). split; [done|]. split; [apply Ho|by apply (map_of_insert Z.compare)].
  - rewrite (Hm key). destruct nx as [y|].
    + destruct (Hy y eq_refl) as (n & -> & Hlk & Hk). cbn [mbind option_bind]. rewrite Hlk. case_decide as Heq.
      * destruct (Hk Heq) as [_ (s' & -> & Hr')]. exists s', (sl_delete key l). split; [done|]. split; [done|]. by apply map_of_delete.
      * exists s, l. split; [done|]. split; [done|]. rewrite delete_id; [done|]. by rewrite (Hm key).
    + rewrite (Hn eq_refl). exists s, l. split; [done|]. split; [done|]. rewrite delete_id; [done|]. by rewrite (Hm key), Hn.
Qed.

Lemma hmap_run_ok ops : forall s l m,
  hand_rep s l -> map_of l m -> exists s' l', hmap_run s ops = Some (s', (map_run m ops).2) /\ hand_rep s' l' /\ map_of l' (map_run m ops).1.
Proof.
  induction ops as [|o ops IH]; intros s l m Hr Hm; [by exists s, l|]. cbn [hmap_run map_run].
  destruct (hmap_step_ok s l m o Hr Hm) as (s1 & l1 & -> & Hr1 & Hm1). cbn [mbind option_bind].
  destruct (map_step m o) as [m1 b]. cbn [fst snd] in *. destruct (IH s1 l1 m1 Hr1 Hm1) as (s2 & l2 & -> & Hr2 & Hm2).
  cbn [mbind option_bind]. destruct (map_run m1 ops) as [m2 bs]. by exists s2, l2.
Qed.

(** The handwritten skip list is a finite map, over every sequence of operations and every
    outcome of the coins, and its destructor frees every node. *)
Theorem hand_skip_refines_map (ops : list map_op) :
  exists s, hmap_run hand_new ops = Some (s, (map_run ∅ ops).2) /\ hand_destroy s = Some ∅.
Proof.
  destruct (hmap_run_ok ops hand_new [] ∅) as (s & l & E & Hr & _).
  - apply cl_rep_new. unfold hand_kMaxLevel. lia.
  - done.
  - exists s. split; [done|]. exact (cl_free_ok Z.compare (fun _ => True) hand_kMaxLevel s l Hr).
Qed.

Example hand_skip_demo :
  snd <$> hmap_run hand_new [MInsert 3 30 [true]; MInsert 1 10 []; MInsert 3 33 []; MSearch 3; MErase 1; MSearch 1; MErase 1] =
  Some [ADone; ADone; ADone; AFound (Some 33); AErased true; AFound None; AErased false].
Proof. vm_compute. reflexivity. Qed.

(** ** Module 14: the list of strings *)

Record SkipList14 := mkS14 { s14_list : CourseList bytes bytes; s14_max_level : nat; s14_rng : Z }.

Definition S14_new (max_level : nat) : SkipList14 :=
  mkS14 (mkCourse {[ 0%nat := mkNode [] [] (replicate max_level None) ]} 0 1 1) max_level 1.

(** [while (lvl < max_level_ && (rng_ = rng_ * 1103515245u + 12345u) % 4 == 0) ++lvl;], for
    [k] more levels at most. *)
Fixpoint RandomLevel14_from (k : nat) (rng : Z) (lvl : nat) : Z * nat :=
  match k with
  | O => (rng, lvl)
  | S k =>
      let rng := u32 (u32 (rng * 1103515245) + 12345) in
      if rng mod 4 =? 0 then RandomLevel14_from k rng (S lvl) else (rng, lvl)
  end.

Definition RandomLevel14 (s : SkipList14) : Z * nat := RandomLevel14_from (s14_max_level s - 1) (s14_rng s) 1.

Definition Put14 (s : SkipList14) (key value : bytes) : option SkipList14 :=
  let list := s14_list s in
  '(update, x) ← cl_search lex list key;
  let insert :=
    let '(rng, lvl) := RandomLevel14 s in
    list ← cl_link list update key value lvl; Some (mkS14 list (s14_max_level s) rng) in
  match x with
  | None => insert
  | Some x =>
      n ← cl_heap list !! x;
      if decide (sk_key n = key) then
        Some (mkS14 (mkCourse (<[x := mkNode (sk_key n) value (sk_forward n)]> (cl_heap list)) (cl_head list) (cl_level list) (cl_next list))
                (s14_max_level s) (s14_rng s))
      else insert
  end.

Definition Get14 (s : SkipList14) (key : bytes) : option (option bytes) :=
  '(_, x) ← cl_search lex (s14_list s) key;
  match x with
  | None => Some None
  | Some x => n ← cl_heap (s14_list s) !! x; Some (if decide (sk_key n = key) then Some (sk_value n) else None)
  end.

Definition S14_destroy (s : SkipList14) : option (gmap loc (SkipNode bytes bytes)) :=
  free_from (size (cl_heap (s14_list s))) (cl_heap (s14_list s)) (Some (cl_head (s14_list s))).

(** ** Module 14: the filter *)

Record Bloom14 := mkB14 { b14_bits : list bool; b14_k : nat }.

Definition Bloom14_new (bits : nat) (hashes : nat) : Bloom14 := mkB14 (replicate bits false) hashes.

Definition Hash14 (s : bytes) (seed : Z) : Z :=
  foldl (fun h c => u64 (Z.lxor h (b2z c) * 1099511628211)) (Z.lxor 14695981039346656037 seed) s.

(** [Hash(s, i) % bits_.size()]; a remainder by zero is undefined. *)
Definition slot14 (bits : list bool) (s : bytes) (i : nat) : option nat :=
  if bool_decide (bits = []) then None else Some (Z.to_nat (Hash14 s (Z.of_nat i) mod zlen bits)).

Fixpoint add14_loop (bits : list bool) (s : bytes) (i k : nat) : option (list bool) :=
  match k with
  | O => Some bits
  | S k => j ← slot14 bits s i; add14_loop (<[j := true]> bits) s (S i) k
  end.

Definition Add14 (f : Bloom14) (s : bytes) : option Bloom14 :=
  bits ← add14_loop (b14_bits f) s 0 (b14_k f); Some (mkB14 bits (b14_k f)).

Fixpoint contains14_loop (bits : list bool) (s : bytes) (i k : nat) : option bool :=
  match k with
  | O => Some true
  | S k =>
      j ← slot14 bits s i; b ← bits !! j;
      if (b : bool) then contains14_loop bits s (S i) k else Some false
  end.

Definition MaybeContains14 (f : Bloom14) (s : bytes) : option bool := contains14_loop (b14_bits f) s 0 (b14_k f).

(** ** Module 14: the store *)

Inductive ValueType14 := kDeletion14 | kValue14.
Definition type_byte14 (t : ValueType14) : Z := match t with kDeletion14 => 0 | kValue14 => 1 end.

Definition EncodeInternalKey14 (user_key : bytes) (seq : Z) (type : ValueType14) : bytes :=
  let inv := u64 (Z.lnot seq) in
  user_key ++ ((fun i => z2b (Z.land (Z.shiftr inv (i * 8)) 255)) <$> [7; 6; 5; 4; 3; 2; 1; 0]) ++ [z2b (type_byte14 type)].

Record Entry14 := mkE14 { e14_value : bytes; e14_deleted : bool; e14_seq : Z }.

Record MiniKV14 := mkKV14 { kv14_mem : SkipList14; kv14_bloom : Bloom14; kv14_seq : Z; kv14_latest : gmap bytes Entry14 }.

Definition MiniKV14_new : MiniKV14 := mkKV14 (S14_new 8) (Bloom14_new 2048 4) 0 ∅.

Definition kv14_Put (kv : MiniKV14) (key value : bytes) : option MiniKV14 :=
  let seq := u64 (kv14_seq kv + 1) in
  mem ← Put14 (kv14_mem kv) (EncodeInternalKey14 key seq kValue14) value;
  bloom ← Add14 (kv14_bloom kv) key;
  Some (mkKV14 mem bloom seq (<[key := mkE14 value false seq]> (kv14_latest kv))).

Definition kv14_Delete (kv : MiniKV14) (key : bytes) : option MiniKV14 :=
  let seq := u64 (kv14_seq kv + 1) in
  mem ← Put14 (kv14_mem kv) (EncodeInternalKey14 key seq kDeletion14) [];
  bloom ← Add14 (kv14_bloom kv) key;
  Some (mkKV14 mem bloom seq (<[key := mkE14 [] true seq]> (kv14_latest kv))).

(** [None] when the assertion fails. *)
Definition kv14_Get (kv : MiniKV14) (key : bytes) : option (option bytes) :=
  maybe ← MaybeContains14 (kv14_bloom kv) key;
  if negb maybe then Some None
  else
    match kv14_latest kv !! key with
    | None => Some None
    | Some e =>
        if e14_deleted e then Some None
        else
          stored ← Get14 (kv14_mem kv) (EncodeInternalKey14 key (e14_seq e) kValue14);
          if bool_decide (stored = Some (e14_value e)) then Some (Some (e14_value e)) else None
    end.

(** The checks of [RunSmokeTests] on the store. *)
Example kv14_smoke :
  (kv ← kv14_Put MiniKV14_new (bs "a") (bs "1"); kv ← kv14_Put kv (bs "b") (bs "2");
   a ← kv14_Get kv (bs "a"); kv ← kv14_Put kv (bs "a") (bs "1b"); a' ← kv14_Get kv (bs "a");
   kv ← kv14_Delete kv (bs "b"); b ← kv14_Get kv (bs "b"); m ← kv14_Get kv (bs "missing");
   Some [a; a'; b; m]) = Some [Some (bs "1"); Some (bs "1b"); None; None].
Proof. vm_compute. reflexivity. Qed.

(** ** The levels of module 14 *)

Lemma RandomLevel14_range k rng lvl : (lvl <= (RandomLevel14_from k rng lvl).2 <= lvl + k)%nat.
Proof.
  revert rng lvl. induction k as [|k IH]; intros rng lvl; cbn [RandomLevel14_from]; [simpl; lia|].
  case_match; [|simpl; lia]. specialize (IH (u32 (u32 (rng * 1103515245) + 12345)) (S lvl)). lia.
Qed.

(** The two low bits of the generator count up by one. *)
Lemma lcg14_mod4 rng : u32 (u32 (rng * 1103515245) + 12345) mod 4 = (rng mod 4 + 1) mod 4.
Proof.
  unfold u32. rewrite Z.add_mod_idemp_l by lia.
  assert (forall z, (z mod 2 ^ 32) mod 4 = z mod 4) as Hm.
  { intros z. change (2 ^ 32) with (4 * 2 ^ 30). rewrite Z.mul_comm, Z.rem_mul_r by lia. Z.div_mod_to_equations. lia. }
  rewrite Hm. Z.div_mod_to_equations. lia.
Qed.

(** So the multiplier's low bits defeat the levels: no node is ever higher than two, whatever
    [max_level] allows, and a search is linear in the number of keys. *)
Theorem RandomLevel14_at_most_two (s : SkipList14) : ((RandomLevel14 s).2 <= 2)%nat.
Proof.
  unfold RandomLevel14. destruct (s14_max_level s - 1)%nat as [|k]; cbn [RandomLevel14_from]; [simpl; lia|].
  set (rng := u32 (u32 (s14_rng s * 1103515245) + 12345)). destruct (Z.eqb_spec (rng mod 4) 0) as [E|E]; [|simpl; lia].
  destruct k as [|k]; cbn [RandomLevel14_from]; [simpl; lia|].
  destruct (Z.eqb_spec (u32 (u32 (rng * 1103515245) + 12345) mod 4) 0) as [E2|E2]; [|simpl; lia].
  rewrite lcg14_mod4, E in E2. done.
Qed.

(** ** The list and the filter *)

Definition s14_rep (s : SkipList14) (l : list (bytes * bytes)) : Prop :=
  (1 <= s14_max_level s)%nat /\ cl_rep lex (fun _ => True) (s14_max_level s) (s14_list s) l.

Lemma S14_new_rep n : (1 <= n)%nat -> s14_rep (S14_new n) [].
Proof. intros Hn. split; [done|]. by apply cl_rep_new. Qed.

Lemma Get14_ok s l key : s14_rep s l -> Get14 s key = Some (sl_lookup key l).
Proof.
  intros [_ Hr]. destruct (cl_search_ok lex (fun _ => True) _ _ l key Hr I) as (update & nx & E & Hn & Hy & _).
  unfold Get14. rewrite E. cbn [mbind option_bind]. destruct nx as [y|].
  - by destruct (Hy y eq_refl) as (n & -> & -> & _).
  - by rewrite (Hn eq_refl).
Qed.

Lemma Put14_ok s l key value : s14_rep s l -> exists s', Put14 s key value = Some s' /\ s14_rep s' (sl_insert lex key value l).
Proof.
  intros [Hm Hr]. destruct (cl_search_ok lex (fun _ => True) _ _ l key Hr I) as (update & nx & E & Hn & Hy & Hi).
  unfold Put14. rewrite E. cbn [mbind option_bind].
  pose proof (RandomLevel14_range (s14_max_level s - 1) (s14_rng s) 1) as Hl. fold (RandomLevel14 s) in Hl.
  destruct (RandomLevel14 s) as [rng lvl]. cbn [snd] in Hl.
  assert (sl_lookup key l = None -> exists s',
    (list ← cl_link (s14_list s) update key value lvl; Some (mkS14 list (s14_max_level s) rng)) = Some s' /\ s14_rep s' (sl_insert lex key value l)) as Hins.
  { intros Hno. destruct (Hi value lvl Hno ltac:(lia)) as (s' & -> & Hr'). by eexists. }
  destruct nx as [y|]; [|by apply Hins, Hn]. destruct (Hy y eq_refl) as (n & -> & Hlk & Hk). cbn [mbind option_bind].
  case_decide as Heq; [|by apply Hins]. destruct (Hk Heq) as [Ho _]. eexists. split; [done|]. split; [done|apply Ho].
Qed.

Lemma S14_destroy_ok s l : s14_rep s l -> S14_destroy s = Some ∅.
Proof. intros [_ Hr]. exact (heap_rep_free lex _ _ _ _ _ _ _ Hr). Qed.

(** [bits'] has every bit of [bits]. *)
Definition more_bits (bits bits' : list bool) : Prop :=
  length bits' = length bits /\ forall j, bits !! j = Some true -> bits' !! j = Some true.

#[export] Instance more_bits_preorder : PreOrder more_bits.
Proof.
  split; [by split|]. intros b1 b2 b3 [L1 H1] [L2 H2]. split; [congruence|]. intros j Hj. by apply H2, H1.
Qed.

Lemma more_bits_set bits j : more_bits bits (<[j := true]> bits).
Proof.
  split; [apply length_insert|]. intros i Hi. destruct (decide (i = j)) as [->|Hne]; [|by rewrite list_lookup_insert_ne].
  apply list_lookup_insert_eq. by eapply lookup_lt_Some.
Qed.

Lemma slot14_more bits bits' s i : more_bits bits bits' -> slot14 bits' s i = slot14 bits s i.
Proof. intros [Hl _]. unfold slot14, zlen. rewrite Hl. by destruct bits, bits'. Qed.

Lemma slot14_range bits s i : bits <> [] -> exists j, slot14 bits s i = Some j /\ (j < length bits)%nat.
Proof.
  intros Hb. unfold slot14. rewrite bool_decide_false by done. eexists. split; [done|].
  assert (0 < zlen bits) by (destruct bits; [done|rewrite zlen_cons; pose proof (zlen_nonneg bits); lia]).
  pose proof (Z.mod_pos_bound (Hash14 s (Z.of_nat i)) (zlen bits)). unfold zlen in *. lia.
Qed.

Lemma more_bits_nonempty bits bits' : more_bits bits bits' -> bits <> [] -> bits' <> [].
Proof. intros [Hl _] Hb ->. by destruct bits. Qed.

Lemma contains14_more k : forall bits bits' s i,
  more_bits bits bits' -> contains14_loop bits s i k = Some true -> contains14_loop bits' s i k = Some true.
Proof.
  induction k as [|k IH]; intros bits bits' s i Hm; [done|]. cbn [contains14_loop]. rewrite (slot14_more bits bits') by done.
  destruct (slot14 bits s i) as [j|]; [|done]. cbn [mbind option_bind]. destruct (bits !! j) as [[]|] eqn:E; [|done..].
  cbn [mbind option_bind]. rewrite (proj2 Hm j E). cbn [mbind option_bind]. by apply IH.
Qed.

Lemma contains14_defined bits s k : forall i, bits <> [] -> exists b, contains14_loop bits s i k = Some b.
Proof.
  induction k as [|k IH]; intros i Hb; [by eexists|]. cbn [contains14_loop]. destruct (slot14_range bits s i Hb) as (j & -> & Hj).
  cbn [mbind option_bind]. apply lookup_lt_is_Some in Hj as [[] ->]; cbn [mbind option_bind]; [by apply IH|by eexists].
Qed.

Lemma add14_ok k : forall bits s i, bits <> [] ->
  exists bits', add14_loop bits s i k = Some bits' /\ more_bits bits bits' /\ contains14_loop bits' s i k = Some true.
Proof.
  induction k as [|k IH]; intros bits s i Hb; [by exists bits|]. cbn [add14_loop contains14_loop].
  destruct (slot14_range bits s i Hb) as (j & Ej & Hj). rewrite Ej. cbn [mbind option_bind].
  pose proof (more_bits_set bits j) as Hm. destruct (IH (<[j := true]> bits) s (S i)) as (bits' & -> & Hm' & Hc).
  { by eapply more_bits_nonempty. }
  exists bits'. split; [done|]. split; [by etransitivity|].
  rewrite (slot14_more bits), Ej by by etransitivity. cbn [mbind option_bind].
  by rewrite (proj2 Hm' j) by by apply list_lookup_insert_eq.
Qed.

(** A key that was added is never denied. *)
Lemma Add14_ok f s :
  b14_bits f <> [] -> exists f', Add14 f s = Some f' /\ b14_bits f' <> [] /\ MaybeContains14 f' s = Some true /\
    forall t, MaybeContains14 f t = Some true -> MaybeContains14 f' t = Some true.
Proof.
  intros Hb. destruct (add14_ok (b14_k f) (b14_bits f) s 0 Hb) as (bits' & E & Hm & Hc). unfold Add14. rewrite E. cbn [mbind option_bind].
  eexists. split; [done|]. split; [by eapply more_bits_nonempty|]. split; [done|]. intros t. by apply contains14_more.
Qed.

(** ** The store of module 14 *)

Lemma EncodeInternalKey14_mv k n t : EncodeInternalKey14 k n t = mv_Encode (mkMvKey k n (type_byte14 t)).
Proof. done. Qed.

Lemma EncodeInternalKey14_inj k1 n1 t1 k2 n2 t2 :
  0 <= n1 < 2 ^ 64 -> 0 <= n2 < 2 ^ 64 -> EncodeInternalKey14 k1 n1 t1 = EncodeInternalKey14 k2 n2 t2 -> k1 = k2 /\ n1 = n2.
Proof.
  intros H1 H2 E. rewrite !EncodeInternalKey14_mv in E. apply (f_equal mv_Decode) in E.
  rewrite !mv_key_roundtrip in E by (done || destruct t1, t2; simpl; lia). by injection E.
Qed.

Record kv14_inv (kv : MiniKV14) (m : gmap bytes bytes) (n : Z) : Prop := {
  k14_list : exists l, s14_rep (kv14_mem kv) l /\
    forall k e, kv14_latest kv !! k = Some e -> 0 <= e14_seq e <= n /\
      (e14_deleted e = false -> sl_lookup (EncodeInternalKey14 k (e14_seq e) kValue14) l = Some (e14_value e));
  k14_bits : b14_bits (kv14_bloom kv) <> [];
  k14_seq : kv14_seq kv = n /\ 0 <= n;
  k14_bloom k : is_Some (kv14_latest kv !! k) -> MaybeContains14 (kv14_bloom kv) k = Some true;
  k14_map k : m !! k = (e ← kv14_latest kv !! k; if e14_deleted e then None else Some (e14_value e));
}.

(** Both kinds of write add a version with a number that no other has. *)
Lemma kv14_write_ok kv m n key value (t : ValueType14) (deleted := match t with kDeletion14 => true | kValue14 => false end) :
  kv14_inv kv m n -> n + 1 < 2 ^ 64 ->
  exists mem bloom, Put14 (kv14_mem kv) (EncodeInternalKey14 key (u64 (kv14_seq kv + 1)) t) value = Some mem /\
    Add14 (kv14_bloom kv) key = Some bloom /\
    kv14_inv (mkKV14 mem bloom (u64 (kv14_seq kv + 1)) (<[key := mkE14 value deleted (u64 (kv14_seq kv + 1))]> (kv14_latest kv)))
             (match t with kValue14 => <[key := value]> m | kDeletion14 => delete key m end) (n + 1).
Proof.
  intros [(l & Hr & Hl) Hb [Hs Hn] Hbl Hm] Hlt. rewrite Hs, u64_small by lia.
  destruct (Put14_ok _ l (EncodeInternalKey14 key (n + 1) t) value Hr) as (mem & -> & Hr').
  destruct (Add14_ok _ key Hb) as (bloom & -> & Hb' & Hc & Hmono). exists mem, bloom. split; [done|]. split; [done|]. split; [|done|simpl; lia| |].
  - eexists. split; [exact Hr'|]. intros k e. cbn [kv14_latest]. destruct (decide (k = key)) as [->|Hne].
    + rewrite lookup_insert_eq. intros [= <-]. cbn. split; [lia|]. intros Hd. unfold deleted in Hd. destruct t; [done|].
      destruct Hr as [_ Hr]. rewrite (sl_lookup_insert lex (fun _ => True)), decide_True by (done || by eapply cl_rep_wf). done.
    + rewrite lookup_insert_ne by done. intros He. destruct (Hl k e He) as [Hseq Hv]. split; [lia|]. intros Hd.
      destruct Hr as [_ Hr]. rewrite (sl_lookup_insert lex (fun _ => True)), decide_False; [by apply Hv| |done|done|by eapply cl_rep_wf].
      intros [? _]%EncodeInternalKey14_inj; [done|lia..].
  - intros k. cbn [kv14_latest kv14_bloom]. destruct (decide (k = key)) as [->|Hne]; [done|].
    rewrite lookup_insert_ne by done. intros Hk. by apply Hmono, Hbl.
  - intros k. cbn [kv14_latest]. unfold deleted. destruct (decide (k = key)) as [->|Hne].
    + rewrite lookup_insert_eq. destruct t; [apply lookup_delete_eq|apply lookup_insert_eq].
    + rewrite lookup_insert_ne by done. rewrite <- (Hm k). destruct t; [by apply lookup_delete_ne|by apply lookup_insert_ne].
Qed.

Lemma kv14_get_ok kv m n key : kv14_inv kv m n -> n < 2 ^ 64 -> kv14_Get kv key = Some (m !! key).
Proof.
  intros [(l & Hr & Hl) Hb _ Hbl Hm] _. unfold kv14_Get. rewrite (Hm key).
  destruct (contains14_defined (b14_bits (kv14_bloom kv)) key (b14_k (kv14_bloom kv)) 0 Hb) as [b Eb].
  change (contains14_loop _ key 0 _) with (MaybeContains14 (kv14_bloom kv) key) in Eb. rewrite Eb. cbn [mbind option_bind].
  destruct (kv14_latest kv !! key) as [e|] eqn:E.
  - rewrite (Hbl key) in Eb by by eexists. injection Eb as <-. cbn [negb mbind option_bind]. destruct (e14_deleted e) eqn:Ed; [done|].
    destruct (Hl key e E) as [_ Hv]. rewrite (Get14_ok _ l) by done. cbn [mbind option_bind]. rewrite Hv by done. by rewrite bool_decide_true.
  - by destruct b.
Qed.

Inductive kv14_op := KPut (key value : bytes) | KDelete (key : bytes) | KGet (key : bytes).

Definition kv14_step (kv : MiniKV14) (o : kv14_op) : option (MiniKV14 * option bytes) :=
  match o with
  | KPut key value => kv ← kv14_Put kv key value; Some (kv, None)
  | KDelete key => kv ← kv14_Delete kv key; Some (kv, None)
  | KGet key => v ← kv14_Get kv key; Some (kv, v)
  end.

Fixpoint kv14_run (kv : MiniKV14) (ops : list kv14_op) : option (MiniKV14 * list (option bytes)) :=
  match ops with
  | [] => Some (kv, [])
  | o :: ops => '(kv, a) ← kv14_step kv o; '(kv, ans) ← kv14_run kv ops; Some (kv, a :: ans)
  end.

Fixpoint kv14_spec (m : gmap bytes bytes) (ops : list kv14_op) : list (option bytes) :=
  match ops with
  | [] => []
  | KPut key value :: ops => None :: kv14_spec (<[key := value]> m) ops
  | KDelete key :: ops => None :: kv14_spec (delete key m) ops
  | KGet key :: ops => m !! key :: kv14_spec m ops
  end.

Lemma kv14_run_ok ops : forall kv m n,
  kv14_inv kv m n -> n + zlen ops < 2 ^ 64 -> exists kv' m' n', kv14_run kv ops = Some (kv', kv14_spec m ops) /\ kv14_inv kv' m' n'.
Proof.
  induction ops as [|o ops IH]; intros kv m n Hi Hb; [by exists kv, m, n|]. rewrite zlen_cons in Hb. pose proof (zlen_nonneg ops).
  cbn [kv14_run kv14_step]. destruct o as [key value|key|key]; cbn [kv14_step kv14_spec].
  - destruct (kv14_write_ok kv m n key value kValue14 Hi ltac:(lia)) as (mem & bloom & E1 & E2 & Hi').
    unfold kv14_Put. rewrite E1. cbn [mbind option_bind]. rewrite E2. cbn [mbind option_bind].
    destruct (IH _ _ _ Hi') as (kv' & m' & n' & -> & H'); [lia|]. cbn [mbind option_bind]. by exists kv', m', n'.
  - destruct (kv14_write_ok kv m n key [] kDeletion14 Hi ltac:(lia)) as (mem & bloom & E1 & E2 & Hi').
    unfold kv14_Delete. rewrite E1. cbn [mbind option_bind]. rewrite E2. cbn [mbind option_bind].
    destruct (IH _ _ _ Hi') as (kv' & m' & n' & -> & H'); [lia|]. cbn [mbind option_bind]. by exists kv', m', n'.
  - rewrite (kv14_get_ok kv m n) by (done || lia). cbn [mbind option_bind].
    destruct (IH _ _ _ Hi) as (kv' & m' & n' & -> & H'); [lia|]. cbn [mbind option_bind]. by exists kv', m', n'.
Qed.

(** The store of module 14 is a map: over every history its assertion never fires and every
    read returns what was last written. *)
Theorem kv14_refines_map (ops : list kv14_op) :
  zlen ops < 2 ^ 64 -> exists kv, kv14_run MiniKV14_new ops = Some (kv, kv14_spec ∅ ops) /\ S14_destroy (kv14_mem kv) = Some ∅.
Proof.
  intros Hb. destruct (kv14_run_ok ops MiniKV14_new ∅ 0) as (kv & m & n & E & [(l & Hr & _) _ _ _ _]); [|lia|].
  - split; [|done|done| |done].
    + exists []. split; [apply S14_new_rep; lia|]. intros k e. cbn. by rewrite lookup_empty.
    + intros k. cbn. rewrite lookup_empty. by intros [? ?].
  - exists kv. split; [done|]. by eapply S14_destroy_ok.
Qed.

Lemma kv14_refines_map_witness :
  exists kv, kv14_run MiniKV14_new [KPut (bs "a") (bs "1"); KDelete (bs "a"); KGet (bs "a"); KPut (bs "a") (bs "2"); KGet (bs "a")] =
    Some (kv, [None; None; None; None; Some (bs "2")]).
Proof.
  destruct (kv14_refines_map [KPut (bs "a") (bs "1"); KDelete (bs "a"); KGet (bs "a"); KPut (bs "a") (bs "2"); KGet (bs "a")])
    as (kv & E & _); [by vm_compute|]. exists kv. exact E.
Defined.
