(* ===== verification/CourseBasics.v ===== *)
(** * Small programs of the course: modules 1, 2 and 12

    [practice/module01_overview/main.cpp]: a memory table that is turned into a table of a
    list when it has three entries.  [practice/module02_cpp_core/main.cpp]: views, status
    values and 64-bit variable-length integers.
    [practice/module12_microservices_concepts/main.cpp]: base64, a toy token and a chain of
    middleware.  The token bucket of module 12 computes with floating-point numbers and is a
    parameter of the chain. *)

From Stdlib Require Import ZArith Lia.
From stdpp Require Import base numbers strings list gmap.
From S2P Require Import Prelude CppString Coding Slice.
Local Open Scope Z_scope.

(** ** Module 1: a minimal store *)

Record MiniDB1 := mkDB1 { d1_mem : gmap bytes bytes; d1_sstables : list (gmap bytes bytes) }.

Definition MiniDB1_new : MiniDB1 := mkDB1 ∅ [].
Definition flush_threshold1 : nat := 3.

Definition flushMemTable1 (db : MiniDB1) : MiniDB1 := mkDB1 ∅ (d1_sstables db ++ [d1_mem db]).

Definition d1_Put (db : MiniDB1) (key value : bytes) : MiniDB1 :=
  let db := mkDB1 (<[key := value]> (d1_mem db)) (d1_sstables db) in
  if (flush_threshold1 <=? size (d1_mem db))%nat then flushMemTable1 db else db.

(** The loop over the tables, from the newest to the oldest. *)
Fixpoint d1_find (tables : list (gmap bytes bytes)) (key : bytes) : option bytes :=
  match tables with
  | [] => None
  | t :: tables => match t !! key with Some v => Some v | None => d1_find tables key end
  end.

Definition d1_Get (db : MiniDB1) (key : bytes) : option bytes :=
  match d1_mem db !! key with Some v => Some v | None => d1_find (reverse (d1_sstables db)) key end.

Lemma d1_Get_flush db key : d1_Get (flushMemTable1 db) key = d1_Get db key.
Proof. unfold d1_Get, flushMemTable1. cbn [d1_mem d1_sstables]. by rewrite lookup_empty, reverse_snoc. Qed.

(** Whatever is put and whenever the table fills, a read returns the value put last, and the
    memory table stays below its threshold. *)
Theorem d1_refines_map (puts : list (bytes * bytes)) (key : bytes)
    (db := foldl (fun db p => d1_Put db p.1 p.2) MiniDB1_new puts) :
  d1_Get db key = foldl (fun m p => <[p.1 := p.2]> m) (∅ : gmap bytes bytes) puts !! key /\
  (size (d1_mem db) < flush_threshold1)%nat.
Proof.
  subst db. induction puts as [|[k v] puts IH] using rev_ind; [split; [done|cbn; rewrite map_size_empty; unfold flush_threshold1; lia]|]. rewrite !foldl_snoc. cbn [fst snd].
  destruct IH as [IH _]. set (db := foldl _ _ puts) in *. set (m := foldl _ ∅ puts) in *.
  assert (d1_Get (mkDB1 (<[k := v]> (d1_mem db)) (d1_sstables db)) key = <[k := v]> m !! key) as Hput.
  { unfold d1_Get in *. cbn. destruct (decide (key = k)) as [->|Hne]; [by rewrite !lookup_insert_eq|by rewrite !lookup_insert_ne]. }
  unfold d1_Put. cbv zeta. cbn [d1_mem]. destruct (Nat.leb_spec flush_threshold1 (size (<[k := v]> (d1_mem db)))) as [Hf|Hf].
  - rewrite d1_Get_flush. split; [done|]. cbn [flushMemTable1 d1_mem]. rewrite map_size_empty. unfold flush_threshold1. lia.
  - done.
Qed.

(** ** Module 2: views *)

Definition Slice2_eq (a b : bytes) : bool :=
  (zlen a =? zlen b) && ((zlen a =? 0) || is_eq (memcmp a b (length a))).

Definition Slice2_starts_with (s prefix : bytes) : bool :=
  (zlen s >=? zlen prefix) && ((zlen prefix =? 0) || is_eq (memcmp s prefix (length prefix))).

Lemma memcmp_take a : forall b, (length a <= length b)%nat -> is_eq (memcmp b a (length a)) = bool_decide (take (length a) b = a).
Proof.
  induction a as [|x a IH]; intros [|y b] Hl; [done..|simpl in Hl; lia|]. cbn [length memcmp take].
  destruct (b2z y ?= b2z x) eqn:E; cbn [is_eq].
  - apply Z.compare_eq, b2z_inj in E as ->. rewrite IH by (simpl in Hl; lia). apply bool_decide_ext. split; [by intros ->|by intros [=]].
  - symmetry. apply bool_decide_eq_false. intros [= ->]. by rewrite Z.compare_refl in E.
  - symmetry. apply bool_decide_eq_false. intros [= ->]. by rewrite Z.compare_refl in E.
Qed.

(** Equality and the prefix test of views are those of byte strings. *)
Theorem Slice2_spec (a b : bytes) :
  Slice2_eq a b = bool_decide (a = b) /\ Slice2_starts_with a b = bool_decide (b `prefix_of` a).
Proof.
  unfold Slice2_eq, Slice2_starts_with. split.
  - destruct (Z.eqb_spec (zlen a) (zlen b)) as [E|E].
    + assert (length a = length b) as El by (unfold zlen in E; lia). cbn [andb]. rewrite El, memcmp_take by lia.
      rewrite <- El, take_ge by lia. destruct (Z.eqb_spec (zlen a) 0) as [Z0|]; [|done].
      destruct a as [|c a]; [|rewrite zlen_cons in Z0; pose proof (zlen_nonneg a); lia]. by destruct b.
    + symmetry. apply bool_decide_eq_false. by intros ->.
  - rewrite Z.geb_leb. destruct (Z.leb_spec (zlen b) (zlen a)) as [E|E].
    + cbn [andb]. rewrite memcmp_take by (unfold zlen in E; lia).
      destruct (Z.eqb_spec (zlen b) 0) as [Z0|]; cbn [orb].
      * symmetry. apply bool_decide_eq_true. destruct b as [|c b]; [by exists a|rewrite zlen_cons in Z0; pose proof (zlen_nonneg b); lia].
      * apply bool_decide_ext. split; [intros <-; exists (drop (length b) a); by rewrite take_drop|].
        intros [c ->]. apply take_app_length.
    + symmetry. apply bool_decide_eq_false. intros [c ->]. rewrite zlen_app in E. pose proof (zlen_nonneg c). lia.
Qed.

(** ** Module 2: variable-length integers *)

(** [while (v >= 0x80)]: ten bytes hold 64 bits. *)
Fixpoint encodeVarint64_loop (fuel : nat) (v : Z) : bytes :=
  match fuel with
  | O => [z2b v]
  | S fuel =>
      if v >=? 128 then z2b (Z.lor v 128) :: encodeVarint64_loop fuel (Z.shiftr v 7) else [z2b v]
  end.

Definition encodeVarint64 (v : Z) : bytes := encodeVarint64_loop 9 v.

(** From index [i] for at most [k] more bytes: the value and the number of bytes consumed,
    [None] for the return value 0. *)
Fixpoint decodeVarint64_loop (k : nat) (i : Z) (input : bytes) (result : Z) : option (Z * Z) :=
  match k, input with
  | S k, byte :: input =>
      let result := Z.lor result (u64 (Z.shiftl (Z.land (b2z byte) 127) (7 * i))) in
      if Z.land (b2z byte) 128 =? 0 then Some (result, i + 1) else decodeVarint64_loop k (i + 1) input result
  | _, _ => None
  end.

Definition decodeVarint64 (input : bytes) : option (Z * Z) := decodeVarint64_loop 10 0 input 0.

Lemma decodeVarint64_step result i chunk :
  0 <= i -> 0 <= result < 2 ^ (7 * i) -> 0 <= chunk * 2 ^ (7 * i) < 2 ^ 64 ->
  Z.lor result (u64 (Z.shiftl chunk (7 * i))) = result + chunk * 2 ^ (7 * i).
Proof.
  intros Hi Hr Hc. rewrite u64_small by (rewrite Z.shiftl_mul_pow2; lia). apply lor_shiftl_add; lia.
Qed.

Lemma decodeVarint64_loop_encode fuel : forall v rest k i result,
  (fuel < k)%nat -> 0 <= v < 128 ^ (Z.of_nat fuel + 1) -> v * 2 ^ (7 * i) < 2 ^ 64 -> 0 <= i -> 0 <= result < 2 ^ (7 * i) ->
  decodeVarint64_loop k i (encodeVarint64_loop fuel v ++ rest) result = Some (result + v * 2 ^ (7 * i), i + zlen (encodeVarint64_loop fuel v)).
Proof.
  induction fuel as [|fuel IH]; intros v rest k i result Hk Hv Hfit Hi Hr; (destruct k as [|k]; [lia|]).
  - cbn [encodeVarint64_loop app decodeVarint64_loop]. destruct (variant_last_bits v) as [-> ->]; [simpl in Hv; lia|].
    cbn [Z.eqb]. rewrite decodeVarint64_step by nia. done.
  - cbn [encodeVarint64_loop]. destruct (v >=? 128) eqn:Hge.
    2:{ cbn [app decodeVarint64_loop]. destruct (variant_last_bits v) as [-> ->]; [lia|]. cbn [Z.eqb]. by rewrite decodeVarint64_step by nia. }
    cbn [app decodeVarint64_loop]. destruct (variant_more_bits v) as [-> ->]. change (128 =? 0) with false. cbv iota.
    pose proof (Z.mod_pos_bound v 128 eq_refl) as Hm. pose proof (Z.div_mod v 128) as Hdm.
    rewrite decodeVarint64_step by nia. rewrite (Z.shiftr_div_pow2 v 7) by lia. change (2 ^ 7) with 128.
    assert (2 ^ (7 * (i + 1)) = 128 * 2 ^ (7 * i)) as Hp by (replace (7 * (i + 1)) with (7 * i + 7) by lia; rewrite Z.pow_add_r by lia; lia).
    rewrite IH; [|lia|split|rewrite Hp; nia|lia|rewrite Hp; nia].
    + f_equal. rewrite Hp, zlen_cons. f_equal; nia.
    + apply Z.div_pos; lia.
    + apply Z.div_lt_upper_bound; [lia|]. destruct Hv as [_ Hv]. rewrite Nat2Z.inj_succ, <- Z.add_1_r, Z.pow_add_r in Hv by lia. lia.
Qed.

Lemma encodeVarint64_loop_length fuel : forall v, (1 <= length (encodeVarint64_loop fuel v) <= S fuel)%nat.
Proof.
  induction fuel as [|fuel IH]; intros v; cbn [encodeVarint64_loop]; [simpl; lia|]. destruct (v >=? 128); simpl; [|lia].
  specialize (IH (Z.shiftr v 7)). lia.
Qed.

(** Every byte of an encoding but the last has its top bit set. *)
Lemma decodeVarint64_truncated fuel : forall v k i result n,
  (n < length (encodeVarint64_loop fuel v))%nat -> decodeVarint64_loop k i (take n (encodeVarint64_loop fuel v)) result = None.
Proof.
  induction fuel as [|fuel IH]; intros v k i result n Hn; cbn [encodeVarint64_loop] in *.
  - simpl in Hn. replace n with 0%nat by lia. by destruct k.
  - destruct (v >=? 128) eqn:Hge; [|simpl in Hn; replace n with 0%nat by lia; by destruct k].
    destruct n as [|n]; [by destruct k|]. destruct k as [|k]; [done|]. cbn [take decodeVarint64_loop].
    destruct (variant_more_bits v) as [_ ->]. change (128 =? 0) with false. cbv iota. apply IH. simpl in Hn. lia.
Qed.

(** An encoded integer takes one to ten bytes, is decoded back whatever follows it, and no
    proper prefix of it decodes. *)
Theorem varint64_roundtrip (v : Z) (rest : bytes) :
  0 <= v < 2 ^ 64 ->
  decodeVarint64 (encodeVarint64 v ++ rest) = Some (v, zlen (encodeVarint64 v)) /\ 1 <= zlen (encodeVarint64 v) <= 10 /\
  forall n, (n < length (encodeVarint64 v))%nat -> decodeVarint64 (take n (encodeVarint64 v)) = None.
Proof.
  intros Hv. unfold encodeVarint64, decodeVarint64. split; [|split].
  - rewrite decodeVarint64_loop_encode; [..|lia|lia]; [f_equal; f_equal; lia|lia| |lia].
    change (128 ^ (Z.of_nat 9 + 1)) with (2 ^ 70). lia.
  - pose proof (encodeVarint64_loop_length 9 v). unfold zlen. lia.
  - intros n Hn. by apply decodeVarint64_truncated.
Qed.

(** The decoder also accepts ten bytes whose last one holds more than the one bit that is
    left, and drops the rest of it. *)
Theorem varint64_accepts_overflow :
  decodeVarint64 (replicate 9 (z2b 255) ++ [z2b 127]) = decodeVarint64 (replicate 9 (z2b 255) ++ [z2b 1]) /\
  is_Some (decodeVarint64 (replicate 9 (z2b 255) ++ [z2b 127])).
Proof. split; vm_compute; [reflexivity|by eexists]. Qed.

(** ** Module 12: base64 *)

Definition B64 : bytes := bs "ABCDEFGHIJKLMNOPQRSTUVWXYZabcdefghijklmnopqrstuvwxyz0123456789+/".

Definition b64_char (i : Z) : byte := default (z2b 0) (B64 !! Z.to_nat i).

(** [while (valb >= 0) { out.push_back(B64[(val >> valb) & 63]); valb -= 6; }] *)
Fixpoint b64_emit (fuel : nat) (val valb : Z) : bytes * Z :=
  match fuel with
  | O => ([], valb)
  | S fuel =>
      if valb >=? 0 then
        let '(out, v) := b64_emit fuel val (valb - 6) in (b64_char (Z.land (Z.shiftr val valb) 63) :: out, v)
      else ([], valb)
  end.

(** [val] is an [int] that takes in every byte; its shift drops the bits above 32. *)
Definition b64_step (st : bytes * Z * Z) (c : byte) : bytes * Z * Z :=
  let '(out, val, valb) := st in
  let val := s32 (Z.shiftl val 8) + b2z c in
  let valb := valb + 8 in
  let '(more, valb) := b64_emit (S (Z.to_nat valb)) val valb in
  (out ++ more, val, valb).

Definition b64_pad (out : bytes) : bytes := out ++ replicate (Z.to_nat ((- zlen out) mod 4)) (z2b 61).

Definition b64encode (input : bytes) : bytes :=
  let '(out, val, valb) := foldl b64_step ([], 0, -6) input in
  let out := if valb >? -6 then out ++ [b64_char (Z.land (Z.shiftr (s32 (Z.shiftl val 8)) (valb + 8)) 63)] else out in
  b64_pad out.

Example b64_demo : b64encode (bs "Man") = bs "TWFu" /\ b64encode (bs "Ma") = bs "TWE=" /\ b64encode (bs "titankv") = bs "dGl0YW5rdg==".
Proof. vm_compute. done. Qed.

(** The definition of base64, three bytes at a time. *)
Fixpoint b64_ref (input : bytes) : bytes :=
  match input with
  | a :: b :: c :: input =>
      let n := b2z a * 2 ^ 16 + b2z b * 2 ^ 8 + b2z c in
      b64_char (n / 2 ^ 18 mod 64) :: b64_char (n / 2 ^ 12 mod 64) :: b64_char (n / 2 ^ 6 mod 64) :: b64_char (n mod 64) :: b64_ref input
  | [a; b] =>
      let n := b2z a * 2 ^ 16 + b2z b * 2 ^ 8 in
      [b64_char (n / 2 ^ 18 mod 64); b64_char (n / 2 ^ 12 mod 64); b64_char (n / 2 ^ 6 mod 64); z2b 61]
  | [a] => let n := b2z a * 2 ^ 16 in [b64_char (n / 2 ^ 18 mod 64); b64_char (n / 2 ^ 12 mod 64); z2b 61; z2b 61]
  | [] => []
  end.

(** Six bits of [val] depend only on the bits below them and themselves. *)
Lemma b64_bits val k n : 0 <= k -> k + 6 <= n -> Z.land (Z.shiftr val k) 63 = val mod 2 ^ n / 2 ^ k mod 64.
Proof.
  intros Hk Hn. change 63 with (Z.ones 6). rewrite Z.land_ones, Z.shiftr_div_pow2 by lia. change (2 ^ 6) with 64.
  assert (2 ^ n = 2 ^ k * (64 * 2 ^ (n - k - 6))) as E.
  { change 64 with (2 ^ 6). rewrite <- !Z.pow_add_r by lia. f_equal. lia. }
  assert (0 < 2 ^ k) by (apply Z.pow_pos_nonneg; lia). assert (0 < 2 ^ (n - k - 6)) by (apply Z.pow_pos_nonneg; lia).
  rewrite E, Z.rem_mul_r by lia.
  rewrite (Z.mul_comm (2 ^ k) (_ mod _)), Z.div_add by lia. rewrite (Z.div_small (val mod 2 ^ k)) by (apply Z.mod_pos_bound; lia).
  rewrite Z.add_0_l, Z.rem_mul_r by lia. rewrite (Z.mul_comm 64), Z.mod_add, Z.mod_mod by lia. done.
Qed.

Lemma s32_congruent z : exists t, s32 z = z + 2 ^ 32 * t.
Proof.
  unfold s32, u32. pose proof (Z.div_mod z (2 ^ 32)). destruct (Z.ltb_spec (z mod 2 ^ 32) (2 ^ 31)).
  - exists (- (z / 2 ^ 32)). lia.
  - exists (- (z / 2 ^ 32) - 1). lia.
Qed.

(** The low bits of the accumulator are the last bytes. *)
Lemma b64_next val c n : 0 <= n <= 24 -> (s32 (Z.shiftl val 8) + b2z c) mod 2 ^ (n + 8) = (val mod 2 ^ n) * 256 + b2z c.
Proof.
  intros Hn. destruct (s32_congruent (Z.shiftl val 8)) as [t ->]. rewrite Z.shiftl_mul_pow2 by lia. pose proof (b2z_range c).
  assert (0 < 2 ^ n) by (apply Z.pow_pos_nonneg; lia). pose proof (Z.mod_pos_bound val (2 ^ n)). pose proof (Z.div_mod val (2 ^ n)).
  assert (2 ^ 32 = 2 ^ (n + 8) * 2 ^ (24 - n)) as E by (rewrite <- Z.pow_add_r by lia; f_equal; lia).
  assert (2 ^ (n + 8) = 256 * 2 ^ n) as E8 by (rewrite Z.pow_add_r by lia; lia).
  symmetry. apply (Z.mod_unique _ _ (val / 2 ^ n + 2 ^ (24 - n) * t)); [nia|].
  rewrite E, E8. change (2 ^ 8) with 256. nia.
Qed.

Lemma foldl_b64_out input : forall val valb out,
  foldl b64_step (out, val, valb) input =
  let '(more, val, valb) := foldl b64_step ([], val, valb) input in (out ++ more, val, valb).
Proof.
  induction input as [|c input IH]; intros val valb out; cbn [foldl].
  { by rewrite app_nil_r. }
  unfold b64_step at 2 4. destruct (b64_emit _ _ _) as [more v]. rewrite IH, (IH _ _ ([] ++ more)).
  destruct (foldl b64_step ([], _, v) input) as [[m2 v2] v3]. by rewrite app_assoc.
Qed.

Lemma b64_fold_cons st c input : foldl b64_step st (c :: input) = foldl b64_step (b64_step st c) input.
Proof. reflexivity. Qed.
Lemma b64_step_2 val a : b64_step ([], val, -6) a =
  ([b64_char (Z.land (Z.shiftr (s32 (Z.shiftl val 8) + b2z a) 2) 63)], s32 (Z.shiftl val 8) + b2z a, -4).
Proof. reflexivity. Qed.
Lemma b64_step_4 val b : b64_step ([], val, -4) b =
  ([b64_char (Z.land (Z.shiftr (s32 (Z.shiftl val 8) + b2z b) 4) 63)], s32 (Z.shiftl val 8) + b2z b, -2).
Proof. reflexivity. Qed.
Lemma b64_step_6 val c : b64_step ([], val, -2) c =
  ([b64_char (Z.land (Z.shiftr (s32 (Z.shiftl val 8) + b2z c) 6) 63); b64_char (Z.land (Z.shiftr (s32 (Z.shiftl val 8) + b2z c) 0) 63)],
   s32 (Z.shiftl val 8) + b2z c, -6).
Proof. reflexivity. Qed.

(** The code after the loop. *)
Definition b64_finish (st : bytes * Z * Z) : bytes :=
  let '(out, val, valb) := st in
  b64_pad (if valb >? -6 then out ++ [b64_char (Z.land (Z.shiftr (s32 (Z.shiftl val 8)) (valb + 8)) 63)] else out).

Lemma b64_pad_four out rest : zlen out = 4 -> b64_pad (out ++ rest) = out ++ b64_pad rest.
Proof.
  intros H4. unfold b64_pad. rewrite zlen_app, H4, <- app_assoc. do 3 f_equal.
  replace (- (4 + zlen rest)) with (- zlen rest + (-1) * 4) by lia. by rewrite Z.mod_add.
Qed.

Lemma b64_finish_four out more val valb : zlen out = 4 -> b64_finish (out ++ more, val, valb) = out ++ b64_finish (more, val, valb).
Proof. intros H4. unfold b64_finish. destruct (valb >? -6); rewrite <- ?app_assoc; by apply b64_pad_four. Qed.

(** The bits of the three bytes of a group, from the accumulator. *)
Lemma b64_group val a b c
    (v1 := s32 (Z.shiftl val 8) + b2z a) (v2 := s32 (Z.shiftl v1 8) + b2z b) (v3 := s32 (Z.shiftl v2 8) + b2z c) :
  v1 mod 2 ^ 8 = b2z a /\ v2 mod 2 ^ 16 = b2z a * 256 + b2z b /\ v3 mod 2 ^ 24 = (b2z a * 256 + b2z b) * 256 + b2z c.
Proof.
  assert (v1 mod 2 ^ 8 = b2z a) as E1.
  { subst v1. change 8 with (0 + 8). rewrite b64_next by lia. rewrite Z.mod_1_r. lia. }
  assert (v2 mod 2 ^ 16 = b2z a * 256 + b2z b) as E2.
  { subst v2. change 16 with (8 + 8). rewrite b64_next, E1 by lia. done. }
  split; [done|]. split; [done|]. subst v3. change 24 with (16 + 8). by rewrite b64_next, E2 by lia.
Qed.

(** Arithmetic of one group. *)
Lemma b64_digits a b c :
  0 <= a < 256 -> 0 <= b < 256 -> 0 <= c < 256 ->
  let n := a * 2 ^ 16 + b * 2 ^ 8 + c in
  n / 2 ^ 18 mod 64 = a / 2 ^ 2 mod 64 /\ n / 2 ^ 12 mod 64 = (a * 256 + b) / 2 ^ 4 mod 64 /\
  n / 2 ^ 6 mod 64 = ((a * 256 + b) * 256 + c) / 2 ^ 6 mod 64 /\ n mod 64 = ((a * 256 + b) * 256 + c) / 2 ^ 0 mod 64.
Proof.
  intros Ha Hb Hc. cbv zeta. change (2 ^ 16) with 65536. change (2 ^ 8) with 256. change (2 ^ 18) with 262144.
  change (2 ^ 12) with 4096. change (2 ^ 6) with 64. change (2 ^ 4) with 16. change (2 ^ 2) with 4. change (2 ^ 0) with 1.
  split_and!; Z.div_mod_to_equations; lia.
Qed.

Lemma b64_three val a b c input :
  b64_finish (foldl b64_step ([], val, -6) (a :: b :: c :: input)) =
  take 4 (b64_ref [a; b; c]) ++ b64_finish (foldl b64_step ([], s32 (Z.shiftl (s32 (Z.shiftl (s32 (Z.shiftl val 8) + b2z a) 8) + b2z b) 8) + b2z c, -6) input).
Proof.
  destruct (b64_group val a b c) as (E1 & E2 & E3). rewrite b64_fold_cons, b64_step_2.
  set (v1 := s32 (Z.shiftl val 8) + b2z a) in *. rewrite (foldl_b64_out _ v1 (-4) [_]). rewrite b64_fold_cons, b64_step_4.
  set (v2 := s32 (Z.shiftl v1 8) + b2z b) in *. rewrite (foldl_b64_out _ v2 (-2) [_]). rewrite b64_fold_cons, b64_step_6.
  set (v3 := s32 (Z.shiftl v2 8) + b2z c) in *. rewrite (foldl_b64_out _ v3 (-6) [_; _]).
  destruct (foldl b64_step ([], v3, -6) input) as [[out val'] valb'].
  rewrite !app_assoc, b64_finish_four by done. f_equal. cbn [b64_ref take app].
  rewrite (b64_bits v1 2 8), (b64_bits v2 4 16), (b64_bits v3 6 24), (b64_bits v3 0 24) by lia. rewrite E1, E2, E3.
  pose proof (b2z_range a). pose proof (b2z_range b). pose proof (b2z_range c).
  destruct (b64_digits (b2z a) (b2z b) (b2z c)) as (D1 & D2 & D3 & D4); [done..|]. by rewrite D1, D2, D3, D4.
Qed.

Lemma b64_shift val n : 0 <= n <= 24 -> s32 (Z.shiftl val 8) mod 2 ^ (n + 8) = (val mod 2 ^ n) * 256.
Proof. intros Hn. pose proof (b64_next val (z2b 0) n Hn) as H. by rewrite b2z_z2b, !Z.add_0_r in H. Qed.

Lemma b64_rest val input : (length input < 3)%nat -> b64_finish (foldl b64_step ([], val, -6) input) = b64_ref input.
Proof.
  intros Hl. destruct input as [|a [|b [|c input]]]; [done|..|simpl in Hl; lia].
  - destruct (b64_group val a a a) as (E1 & _). pose proof (b2z_range a). rewrite b64_fold_cons, b64_step_2. cbn [foldl].
    set (v1 := s32 (Z.shiftl val 8) + b2z a) in *. pose proof (b64_shift v1 8 ltac:(lia)) as E2. rewrite E1 in E2.
    destruct (b64_digits (b2z a) 0 0) as (D1 & D2 & _); [lia..|]. rewrite !Z.add_0_r in D1, D2. rewrite (Z.add_0_r (b2z a * 256)) in D2.
    unfold b64_finish. change (-4 >? -6) with true. cbv iota. change (-4 + 8) with 4.
    rewrite (b64_bits v1 2 8), (b64_bits _ 4 (8 + 8)), E1, E2 by lia. cbn [b64_ref]. rewrite D1, D2. reflexivity.
  - destruct (b64_group val a b a) as (E1 & E2 & _). pose proof (b2z_range a). pose proof (b2z_range b).
    rewrite b64_fold_cons, b64_step_2. set (v1 := s32 (Z.shiftl val 8) + b2z a) in *. rewrite (foldl_b64_out _ v1 (-4) [_]).
    rewrite b64_fold_cons, b64_step_4. cbn [foldl app]. set (v2 := s32 (Z.shiftl v1 8) + b2z b) in *.
    pose proof (b64_shift v2 16 ltac:(lia)) as E3. rewrite E2 in E3.
    destruct (b64_digits (b2z a) (b2z b) 0) as (D1 & D2 & D3 & _); [lia..|]. rewrite !Z.add_0_r in D1, D2, D3. rewrite (Z.add_0_r (_ * 256)) in D3.
    unfold b64_finish. change (-2 >? -6) with true. cbv iota. change (-2 + 8) with 6.
    rewrite (b64_bits v1 2 8), (b64_bits v2 4 16), (b64_bits _ 6 (16 + 8)), E1, E2, E3 by lia. cbn [b64_ref]. rewrite D1, D2, D3. reflexivity.
Qed.

(** The encoder is base64, for inputs of any length, although its accumulator overflows. *)
Theorem b64encode_ref (input : bytes) : b64encode input = b64_ref input.
Proof.
  change (b64encode input) with (b64_finish (foldl b64_step ([], 0, -6) input)). generalize 0 as val.
  revert input. fix IH 1. intros [|a [|b [|c input]]] val; [by apply b64_rest; simpl; lia..|].
  rewrite b64_three, IH. reflexivity.
Qed.

(** ** Module 12: tokens *)

(** [h = h * 131u + (uint8_t)data[i] + (uint8_t)secret[i % secret.size()]]; a remainder by
    zero is undefined. *)
Fixpoint toy_hash (i : Z) (h : Z) (data secret : bytes) : option Z :=
  match data with
  | [] => Some h
  | c :: data =>
      if bool_decide (secret = []) then None
      else
        k ← secret !! Z.to_nat (i mod zlen secret);
        toy_hash (i + 1) (u32 (h * 131 + b2z c + b2z k)) data secret
  end.

Definition toy_sign (data secret : bytes) : option bytes := h ← toy_hash 0 0 data secret; Some (b64encode (to_string h)).

Definition quote : bytes := [z2b 34].

Definition IssueToken (sub secret : bytes) : option bytes :=
  let body := b64encode (bs "{" ++ quote ++ bs "alg" ++ quote ++ bs ":" ++ quote ++ bs "TOY" ++ quote ++ bs "}") ++ bs "." ++
              b64encode (bs "{" ++ quote ++ bs "sub" ++ quote ++ bs ":" ++ quote ++ sub ++ quote ++ bs "}") in
  sig ← toy_sign body secret;
  Some (body ++ bs "." ++ sig).

(** [token.rfind('.')] *)
Definition VerifyToken (token secret : bytes) : option bool :=
  let p2 := str_find_last_char token (z2b 46) 0 in
  if p2 =? npos then Some false
  else
    sig ← str_substr token (p2 + 1) npos;
    body ← str_substr token 0 p2;
    expected ← toy_sign body secret;
    Some (bool_decide (sig = expected)).

Lemma toy_hash_defined secret data : forall i h, secret <> [] -> 0 <= i -> is_Some (toy_hash i h data secret).
Proof.
  induction data as [|c data IH]; intros i h Hs Hi; [by eexists|]. cbn [toy_hash]. rewrite bool_decide_false by done.
  assert (0 < zlen secret) by (destruct secret; [done|rewrite zlen_cons; pose proof (zlen_nonneg secret); lia]).
  destruct (lookup_lt_is_Some_2 secret (Z.to_nat (i mod zlen secret))) as [k ->].
  { pose proof (Z.mod_pos_bound i (zlen secret)). unfold zlen in *. lia. }
  cbn [mbind option_bind]. apply IH; [done|lia].
Qed.

Lemma toy_sign_defined data secret : secret <> [] -> is_Some (toy_sign data secret).
Proof. intros Hs. unfold toy_sign. destruct (toy_hash_defined secret data 0 0 Hs) as [h ->]; [lia|]. by eexists. Qed.

(** No base64 text contains a dot. *)
Lemma b64_char_no_dot i : 0 <= i < 64 -> b64_char i <> z2b 46.
Proof.
  intros Hi. assert (Forall (fun i => b64_char (Z.of_nat i) <> z2b 46) (seq 0 64)) as Hall by (apply (bool_decide_unpack _); by vm_compute).
  rewrite Forall_forall in Hall. specialize (Hall (Z.to_nat i)). rewrite Z2Nat.id in Hall by lia. apply Hall, elem_of_seq. lia.
Qed.

Lemma b64_ref_no_dot : forall input, Forall (fun c => c <> z2b 46) (b64_ref input).
Proof.
  fix IH 1. intros [|a [|b [|c input]]]; cbn [b64_ref].
  - constructor.
  - repeat constructor; try (apply b64_char_no_dot, Z.mod_pos_bound; lia); done.
  - repeat constructor; try (apply b64_char_no_dot, Z.mod_pos_bound; lia); done.
  - do 4 (constructor; [apply b64_char_no_dot, Z.mod_pos_bound; lia|]). apply IH.
Qed.

Lemma toy_sign_no_dot data secret sig : toy_sign data secret = Some sig -> z2b 46 ∉ sig.
Proof.
  unfold toy_sign. destruct (toy_hash _ _ _ _) as [h|]; [|done]. intros [= <-] Hin. rewrite b64encode_ref in Hin.
  pose proof (b64_ref_no_dot (to_string h)) as H. rewrite Forall_forall in H. by apply (H (z2b 46)).
Qed.

(** A token that verifies is a body, a dot and the signature of that body, and every such
    token verifies. *)
Theorem VerifyToken_iff (token secret : bytes) :
  secret <> [] -> zlen token < npos ->
  VerifyToken token secret = Some true <-> exists body sig, token = body ++ bs "." ++ sig /\ toy_sign body secret = Some sig.
Proof.
  intros Hs Hl. change (bs ".") with [z2b 46].
  assert (forall a b, token = a ++ z2b 46 :: b -> z2b 46 ∉ b ->
    VerifyToken token secret = (expected ← toy_sign a secret; Some (bool_decide (b = expected)))) as Hgo.
  { intros a b E Hb. unfold VerifyToken. rewrite E in *. rewrite zlen_app, zlen_cons in Hl. pose proof (zlen_nonneg a). pose proof (zlen_nonneg b).
    rewrite find_last_char_at by (done || lia). rewrite Z.add_0_l. replace (zlen a =? npos) with false by lia. unfold str_substr.
    rewrite zlen_app, zlen_cons. replace (zlen a + 1 >? zlen a + (1 + zlen b)) with false by lia. cbn [mbind option_bind].
    replace (0 >? zlen a + (1 + zlen b)) with false by lia. cbn [mbind option_bind].
    replace (Z.to_nat (zlen a + 1)) with (S (length a)) by (unfold zlen; lia).
    replace (Z.to_nat (Z.min (zlen a) _)) with (length a) by (unfold zlen; lia). rewrite drop_0, take_app_length.
    change (a ++ z2b 46 :: b) with (a ++ [z2b 46] ++ b). rewrite app_assoc, drop_app_length' by (rewrite length_app; simpl; lia).
    rewrite take_ge by (unfold npos, zlen in *; lia). done. }
  split.
  - intros Hv. destruct (decide (z2b 46 ∈ token)) as [Hin|Hno].
    + apply list_elem_of_split_r in Hin as (a & b & E & Hb). rewrite (Hgo a b E Hb) in Hv.
      destruct (toy_sign a secret) as [sig|] eqn:Es; [|done]. injection Hv as Hv%bool_decide_eq_true. subst. by exists a, sig.
    + unfold VerifyToken in Hv. by rewrite find_last_char_none in Hv by done.
  - intros (body & sig & E & Es). rewrite (Hgo body sig E) by by eapply toy_sign_no_dot. rewrite Es. cbn [mbind option_bind]. by rewrite bool_decide_true.
Qed.

(** What [IssueToken] issues verifies with the same secret. *)
Theorem IssueToken_verifies (sub secret : bytes) :
  secret <> [] -> exists token, IssueToken sub secret = Some token /\ (zlen token < npos -> VerifyToken token secret = Some true).
Proof.
  intros Hs. unfold IssueToken. set (body := _ ++ bs "." ++ _). destruct (toy_sign_defined body secret Hs) as [sig E]. rewrite E.
  cbn [mbind option_bind]. eexists. split; [done|]. intros Hl. apply VerifyToken_iff; [done..|]. by exists body, sig.
Qed.

(** ** Module 12: the chain of middleware *)

Record Context12 := mkCtx { cx_path : bytes; cx_token : bytes; cx_body : bytes; cx_status : Z; cx_aborted : bool }.

Definition abort_with (c : Context12) (code : Z) (m : bytes) : Context12 := mkCtx (cx_path c) (cx_token c) m code true.

Section Chain.
(** What the handlers capture by reference, and [TokenBucket::allow] on it. *)
Context {S : Type} (allow : S -> S * bool).

Abbreviation Handler := (S -> Context12 -> option (S * Context12)).
Abbreviation Middleware := (S -> Context12 -> Handler -> option (S * Context12)).

(** The loop runs over the middleware backwards. *)
Definition Chain (mws : list Middleware) (final_handler : Handler) : Handler :=
  foldl (fun next (mw : Middleware) s ctx => if cx_aborted ctx then Some (s, ctx) else mw s ctx next) final_handler (reverse mws).

Definition Auth (secret : bytes) : Middleware := fun s ctx next =>
  v ← VerifyToken (cx_token ctx) secret;
  if negb v then Some (s, abort_with ctx 401 (bs "unauthorized")) else next s ctx.

Definition RateLimit : Middleware := fun s ctx next =>
  let '(s, ok) := allow s in
  if negb ok then Some (s, abort_with ctx 429 (bs "too many requests")) else next s ctx.

Definition app_handler : Handler := fun s ctx =>
  Some (s, mkCtx (cx_path ctx) (cx_token ctx) (bs "ok:" ++ cx_path ctx) (cx_status ctx) (cx_aborted ctx)).

Definition app12 (secret : bytes) : Handler := Chain [Auth secret; RateLimit] app_handler.

(** The chain nests the middleware in the order of the list. *)
Lemma Chain_cons mw mws h s ctx :
  Chain (mw :: mws) h s ctx = if cx_aborted ctx then Some (s, ctx) else mw s ctx (Chain mws h).
Proof. unfold Chain. rewrite reverse_cons, foldl_app. done. Qed.

(** A request is answered by the handler only with a valid token and with room in the
    bucket; without a valid token the bucket is not touched. *)
Theorem app12_guards (secret : bytes) (s : S) (ctx : Context12) (valid : bool) :
  cx_aborted ctx = false -> VerifyToken (cx_token ctx) secret = Some valid ->
  app12 secret s ctx = Some (
    if valid then
      let '(s, ok) := allow s in
      (s, if ok then mkCtx (cx_path ctx) (cx_token ctx) (bs "ok:" ++ cx_path ctx) (cx_status ctx) false
          else abort_with ctx 429 (bs "too many requests"))
    else (s, abort_with ctx 401 (bs "unauthorized"))).
Proof.
  intros Ha Hv. unfold app12. rewrite Chain_cons, Ha. unfold Auth. rewrite Hv. cbn [mbind option_bind]. destruct valid; [|done].
  cbn [negb]. rewrite Chain_cons, Ha. unfold RateLimit. destruct (allow s) as [s' []]; cbn [negb]; [|done].
  unfold Chain, app_handler. cbn. by rewrite Ha.
Qed.
End Chain.
