(* ===== verification/Sharding.v ===== *)
(** * Elections, consistent hashing and filters (course modules 6 and 11)

    [practice/module11_raft_sharding/main.cpp]: a leader election run to completion on a
    vector of nodes, and a hash ring over FNV-1a.  [practice/module06_bloom_hash/main.cpp]:
    MurmurHash2 over an [int] length, a Bloom filter with double hashing, and a ring whose
    nodes can be removed.  An [std::map] is the list of its pairs in key order. *)

From Stdlib Require Import ZArith Lia.
From stdpp Require Import base numbers strings list sets sorting.
From S2P Require Import Prelude CppString Coding Bloom.
Local Open Scope Z_scope.

(** ** The election *)

Inductive RaftRole := Follower | Candidate | Leader.
#[export] Instance RaftRole_eq : EqDecision RaftRole.
Proof. solve_decision. Defined.

Record RaftNode := mkNode {
  rn_id : Z;
  rn_role : RaftRole;
  rn_current_term : Z;
  rn_voted_for : Z;
  rn_leader_id : Z;
}.

Definition RaftNode_new : RaftNode := mkNode 0 Follower 0 (-1) (-1).

(** The loop body for a node other than the candidate: the node and whether it votes. *)
Definition ask_vote (candidate_id term : Z) (n : RaftNode) : RaftNode * bool :=
  if rn_current_term n >? term then (n, false)
  else
    let n := if rn_current_term n <? term then mkNode (rn_id n) Follower term (-1) (rn_leader_id n) else n in
    if (rn_voted_for n =? -1) || (rn_voted_for n =? candidate_id)
    then (mkNode (rn_id n) (rn_role n) (rn_current_term n) candidate_id (rn_leader_id n), true)
    else (n, false).

Fixpoint vote_loop (candidate_id term : Z) (i : Z) (nodes : list RaftNode) (votes : Z) : list RaftNode * Z :=
  match nodes with
  | [] => ([], votes)
  | n :: nodes =>
      if i =? candidate_id then let '(ns, v) := vote_loop candidate_id term (i + 1) nodes votes in (n :: ns, v)
      else
        let '(n, yes) := ask_vote candidate_id term n in
        let '(ns, v) := vote_loop candidate_id term (i + 1) nodes (if (yes : bool) then votes + 1 else votes) in (n :: ns, v)
  end.

(** What the winner does to every node. *)
Definition follow (candidate_id term : Z) (n : RaftNode) : RaftNode :=
  mkNode (rn_id n) (if rn_id n =? candidate_id then rn_role n else Follower) term (rn_voted_for n) candidate_id.

Definition set_role (r : RaftRole) (n : RaftNode) : RaftNode :=
  mkNode (rn_id n) r (rn_current_term n) (rn_voted_for n) (rn_leader_id n).

(** [None]: no such node, or the increment of the term overflows. *)
Definition TryElect (nodes : list RaftNode) (candidate_id : nat) : option (list RaftNode * bool) :=
  let cid := Z.of_nat candidate_id in
  c ← nodes !! candidate_id;
  if rn_current_term c =? 2 ^ 31 - 1 then None
  else
    let term := rn_current_term c + 1 in
    let nodes := <[candidate_id := mkNode (rn_id c) Candidate term cid (rn_leader_id c)]> nodes in
    let '(nodes, votes) := vote_loop cid term 0 nodes 1 in
    let majority := zlen nodes / 2 + 1 in
    if votes >=? majority
    then Some (follow cid term <$> alter (set_role Leader) candidate_id nodes, true)
    else Some (nodes, false).

(** ** Hash functions *)

(** [ConsistentHash::Hash] of module 11: FNV-1a. *)
Definition fnv_step (h : Z) (c : byte) : Z := u32 (Z.lxor h (b2z c) * 16777619).
Definition fnv_Hash (s : bytes) : Z := foldl fnv_step 2166136261 s.

(** [MurmurHash2] of module 6: the block is read with [memcpy] on a little-endian machine and
    the length is an [int]. *)
Fixpoint mm6_loop (fuel : nat) (h : Z) (data : bytes) : Z :=
  match fuel with
  | O => h
  | S fuel =>
      if zlen data >=? 4 then mm6_loop fuel (mm_mix h (le_combine (take 4 data))) (drop 4 data)
      else mm_tail h data
  end.

Definition MurmurHash2 (key : bytes) (seed : Z) : Z :=
  let h := mm6_loop (S (length key)) (Z.lxor seed (u32 (s32 (zlen key)))) key in
  let h := Z.lxor h (Z.shiftr h 13) in
  let h := u32 (h * mm_m) in
  Z.lxor h (Z.shiftr h 15).

Definition HashKey (s : bytes) (seed : Z) : Z := MurmurHash2 s seed.
Definition kHashSeed : Z := 0x9747b28c.

(** ** The rings *)

Abbreviation ring := (list (Z * bytes)).

(** [ring_[h] = node] *)
Fixpoint ring_put (h : Z) (node : bytes) (r : ring) : ring :=
  match r with
  | [] => [(h, node)]
  | (h', n') :: r' =>
      if h <? h' then (h, node) :: r else if h =? h' then (h, node) :: r' else (h', n') :: ring_put h node r'
  end.

(** [ring_.erase(h)] *)
Definition ring_erase (h : Z) (r : ring) : ring := filter (fun p => p.1 <> h) r.

(** [lower_bound], then the first point when there is none; [None] for an empty ring. *)
Definition ring_find (r : ring) (h : Z) : option bytes :=
  match filter (fun p => h <= p.1) r with
  | p :: _ => Some p.2
  | [] => snd <$> head r
  end.

(** [node + "#" + std::to_string(i)] *)
Definition vnode (node : bytes) (i : nat) : bytes := node ++ bs "#" ++ to_string (Z.of_nat i).

(** Module 6. *)
Definition AddNode (vnode_count : nat) (node : bytes) (r : ring) : ring :=
  foldl (fun r i => ring_put (HashKey (vnode node i) kHashSeed) node r) r (seq 0 vnode_count).
Definition RemoveNode (vnode_count : nat) (node : bytes) (r : ring) : ring :=
  foldl (fun r i => ring_erase (HashKey (vnode node i) kHashSeed) r) r (seq 0 vnode_count).
Definition GetNode (r : ring) (key : bytes) : option bytes := ring_find r (HashKey key kHashSeed).

(** Module 11. *)
Definition ConsistentHash_new (nodes : list bytes) (vnodes : nat) : ring :=
  foldl (fun r node => foldl (fun r i => ring_put (fnv_Hash (vnode node i)) node r) r (seq 0 vnodes)) [] nodes.
Definition ch_Locate (r : ring) (key : bytes) : option bytes := ring_find r (fnv_Hash key).

(** ** The filter of module 6

    The number of bits and of hashes come out of floating-point formulas and are parameters. *)

Record BloomFilter6 := mkBloom6 { b6_bits : Z; b6_k : nat; b6_storage : bytes }.

Definition Bloom6_new (bits k : Z) : BloomFilter6 :=
  let bits := if bits <? 64 then 64 else bits in
  let k := if k <? 1 then 1 else k in
  mkBloom6 bits (Z.to_nat k) (replicate (Z.to_nat ((bits + 7) / 8)) (z2b 0)).

Definition step6 (key : bytes) : Z :=
  let h2 := HashKey key 0x5bd1e995 in if h2 =? 0 then 0x27d4eb2d else h2.

Definition index6 (bits : Z) (key : bytes) (i : nat) : Z :=
  u64 (HashKey key kHashSeed + u64 (Z.of_nat i * step6 key)) mod bits.

(** The bits are set and tested as in the store's filter ([bf_set], [bf_test]). *)
Fixpoint add6_loop (bits : Z) (key : bytes) (i n : nat) (storage : bytes) : option bytes :=
  match n with
  | O => Some storage
  | S n => storage ← bf_set storage (index6 bits key i); add6_loop bits key (S i) n storage
  end.
Definition Add6 (f : BloomFilter6) (key : bytes) : option BloomFilter6 :=
  storage ← add6_loop (b6_bits f) key 0 (b6_k f) (b6_storage f); Some (mkBloom6 (b6_bits f) (b6_k f) storage).

Fixpoint contain6_loop (bits : Z) (key : bytes) (i n : nat) (storage : bytes) : option bool :=
  match n with
  | O => Some true
  | S n =>
      b ← bf_test storage (index6 bits key i);
      if (b : bool) then contain6_loop bits key (S i) n storage else Some false
  end.
Definition MightContain6 (f : BloomFilter6) (key : bytes) : option bool :=
  contain6_loop (b6_bits f) key 0 (b6_k f) (b6_storage f).

(** The programs' own checks. *)
Definition cluster3 : list RaftNode := (fun i => mkNode i Follower 0 (-1) (-1)) <$> [0; 1; 2].

Example elect_demo :
  match TryElect cluster3 1 with
  | Some (ns, ok) => map rn_role ns = [Follower; Leader; Follower] /\ map rn_leader_id ns = [1; 1; 1] /\ ok = true
  | None => False
  end.
Proof. vm_compute. done. Qed.

(** The spread of the 300 keys that [main] counts. *)
Example ring_demo :
  let r := ConsistentHash_new [bs "nodeA"; bs "nodeB"; bs "nodeC"] 32 in
  let at_node n := length (filter (fun i => ch_Locate r (bs "key-" ++ to_string (Z.of_nat i)) = Some n) (seq 0 300)) in
  (at_node (bs "nodeA"), at_node (bs "nodeB"), at_node (bs "nodeC")) = (50, 114, 136)%nat.
Proof. vm_compute. reflexivity. Qed.

(** ** Elections *)

(** Node [i] of the vector has [id] [i]. *)
Definition ids_ok (ns : list RaftNode) : Prop := forall i n, ns !! i = Some n -> rn_id n = Z.of_nat i.

Lemma ask_vote_spec cid term n n' yes : ask_vote cid term n = (n', yes) ->
  rn_id n' = rn_id n /\ (yes = true -> rn_voted_for n' = cid) /\
  (rn_role n' = Leader -> rn_role n = Leader /\ rn_current_term n' = rn_current_term n).
Proof.
  unfold ask_vote. destruct (_ >? _); [by intros [= <- <-]|]. destruct (_ <? _); simpl.
  - intros [= <- <-]. done.
  - destruct (_ || _); intros [= <- <-]; done.
Qed.

Lemma vote_loop_lookup cid term ns : forall i votes ns' v, vote_loop cid term i ns votes = (ns', v) ->
  length ns' = length ns /\
  forall j n, ns !! j = Some n -> ns' !! j = Some (if i + Z.of_nat j =? cid then n else (ask_vote cid term n).1).
Proof.
  induction ns as [|m ns IH]; intros i votes ns' v; simpl; [by intros [= <- <-]|].
  assert (forall vt ns1 v1 m', vote_loop cid term (i + 1) ns vt = (ns1, v1) -> ns' = m' :: ns1 ->
    m' = (if i =? cid then m else (ask_vote cid term m).1) ->
    length ns' = S (length ns) /\ forall j n, (m :: ns) !! j = Some n ->
      ns' !! j = Some (if i + Z.of_nat j =? cid then n else (ask_vote cid term n).1)) as Hcons.
  { intros vt ns1 v1 m' E -> ->. destruct (IH _ _ _ _ E) as [Hl Hn]. split; [simpl; by rewrite Hl|].
    intros [|j] n Hj; simpl in *; [injection Hj as ->; by rewrite Z.add_0_r|].
    rewrite (Hn _ _ Hj). replace (i + 1 + Z.of_nat j) with (i + Z.of_nat (S j)) by lia. done. }
  destruct (i =? cid) eqn:Ei.
  - destruct (vote_loop _ _ _ ns votes) as [ns1 v1] eqn:E. intros [= <- <-]. by eapply Hcons.
  - destruct (ask_vote cid term m) as [m' yes] eqn:Em. destruct (vote_loop _ _ _ ns _) as [ns1 v1] eqn:E. intros [= <- <-].
    eapply Hcons; [exact E|done|done].
Qed.

Definition voters (cid : Z) (ns : list RaftNode) : Z := zlen (filter (fun n => rn_voted_for n = cid) ns).

Lemma voters_cons cid n ns : voters cid (n :: ns) = (if decide (rn_voted_for n = cid) then 1 else 0) + voters cid ns.
Proof. unfold voters. rewrite filter_cons. destruct (decide _); [by rewrite zlen_cons|lia]. Qed.

(** Every vote counted is a node that has voted for the candidate. *)
Lemma vote_loop_votes cid term ns : forall i votes ns' v,
  (forall j n, ns !! j = Some n -> i + Z.of_nat j = cid -> rn_voted_for n = cid) ->
  vote_loop cid term i ns votes = (ns', v) ->
  v + (if (i <=? cid) && (cid <? i + zlen ns) then 1 else 0) <= votes + voters cid ns'.
Proof.
  induction ns as [|m ns IH]; intros i votes ns' v Hc; simpl.
  { intros [= <- <-]. change (voters cid []) with 0. rewrite zlen_nil. destruct (Z.leb_spec i cid), (Z.ltb_spec cid (i + 0)); simpl; lia. }
  assert (forall j n, ns !! j = Some n -> i + 1 + Z.of_nat j = cid -> rn_voted_for n = cid) as Hc'.
  { intros j n Hj E. apply (Hc (S j)); [done|lia]. }
  rewrite zlen_cons. destruct (Z.eqb_spec i cid) as [Ei|Ei].
  - destruct (vote_loop _ _ _ ns votes) as [ns1 v1] eqn:E. intros [= <- <-]. specialize (IH _ _ _ _ Hc' E). rewrite voters_cons.
    rewrite decide_True by (apply (Hc 0%nat); [done|lia]).
    destruct (Z.leb_spec i cid), (Z.leb_spec (i + 1) cid); simpl in *; try lia. destruct (_ <? _); lia.
  - destruct (ask_vote cid term m) as [m' yes] eqn:Em. destruct (vote_loop _ _ _ ns _) as [ns1 v1] eqn:E. intros [= <- <-].
    specialize (IH _ _ _ _ Hc' E). rewrite voters_cons. apply ask_vote_spec in Em as (_ & Hy & _).
    replace (i + (1 + zlen ns)) with (i + 1 + zlen ns) by lia.
    assert ((i <=? cid) = (i + 1 <=? cid)) as -> by (destruct (Z.leb_spec i cid), (Z.leb_spec (i + 1) cid); lia).
    destruct yes; [rewrite decide_True by auto; lia|]. destruct (decide _); lia.
Qed.

(** The candidate as it asks for votes. *)
Definition campaigning (c : nat) (cn : RaftNode) : RaftNode :=
  mkNode (rn_id cn) Candidate (rn_current_term cn + 1) (Z.of_nat c) (rn_leader_id cn).

(** The cluster after the votes: the candidate is unchanged, nobody became a leader. *)
Lemma campaign_spec ns c cn ns1 v : ns !! c = Some cn ->
  vote_loop (Z.of_nat c) (rn_current_term cn + 1) 0 (<[c := campaigning c cn]> ns) 1 = (ns1, v) ->
  length ns1 = length ns /\ v <= voters (Z.of_nat c) ns1 /\
  forall i n1, ns1 !! i = Some n1 -> exists n, ns !! i = Some n /\ rn_id n1 = rn_id n /\
    (rn_role n1 = Leader -> i <> c /\ rn_role n = Leader /\ rn_current_term n1 = rn_current_term n).
Proof.
  intros Ec Ev. pose proof (lookup_lt_Some _ _ _ Ec) as Hlt.
  pose proof (vote_loop_lookup _ _ _ _ _ _ _ Ev) as [Hl Hlk]. rewrite length_insert in Hl. split_and!; [done| |].
  - apply vote_loop_votes in Ev.
    + unfold zlen in Ev. rewrite length_insert in Ev.
      destruct (Z.ltb_spec (Z.of_nat c) (0 + Z.of_nat (length ns))); [|lia]. destruct (Z.leb_spec 0 (Z.of_nat c)); simpl in Ev; lia.
    + intros j n Hj Ej. assert (j = c) as -> by lia. rewrite list_lookup_insert_eq in Hj by done. by injection Hj as <-.
  - intros i n1 Hi. assert (i < length ns)%nat as Hli by (rewrite <- Hl; by eapply lookup_lt_Some).
    destruct (lookup_lt_is_Some_2 _ _ Hli) as [n Hn]. exists n. destruct (decide (i = c)) as [->|Hne].
    + rewrite (Hlk c (campaigning c cn)) in Hi by by rewrite list_lookup_insert_eq.
      rewrite Z.add_0_l, Z.eqb_refl in Hi. injection Hi as <-. assert (n = cn) as -> by congruence. done.
    + rewrite (Hlk i n) in Hi by by rewrite list_lookup_insert_ne. destruct (Z.eqb_spec (0 + Z.of_nat i) (Z.of_nat c)); [lia|].
      injection Hi as <-. destruct (ask_vote (Z.of_nat c) _ n) as [n2 yes] eqn:Ea. apply ask_vote_spec in Ea as (E1 & _ & E2).
      split_and!; [done|done|]. intros H. by destruct (E2 H).
Qed.

(** What the winner does keeps ids and votes and makes it the leader of all. *)
Lemma win_voters cid c term ns : voters cid (follow cid term <$> alter (set_role Leader) c ns) = voters cid ns.
Proof.
  revert c. induction ns as [|n ns IH]; intros [|c]; [done..| |]; cbn [alter list_alter fmap list_fmap]; rewrite !voters_cons; simpl.
  - f_equal. clear IH. induction ns as [|m ns IH]; [done|]. cbn [fmap list_fmap]. rewrite !voters_cons. simpl. by rewrite IH.
  - f_equal. apply IH.
Qed.

Lemma win_lookup c term ns i n : ids_ok ns ->
  (follow (Z.of_nat c) term <$> alter (set_role Leader) c ns) !! i = Some n ->
  rn_id n = Z.of_nat i /\ (rn_role n = Leader <-> i = c) /\ rn_current_term n = term /\ rn_leader_id n = Z.of_nat c.
Proof.
  intros Hid Hi. rewrite list_lookup_fmap in Hi. destruct (decide (i = c)) as [->|Hne].
  - rewrite list_lookup_alter_eq in Hi. destruct (ns !! c) as [n1|] eqn:E1; [|done]. injection Hi as <-. simpl.
    by rewrite (Hid _ _ E1), Z.eqb_refl.
  - rewrite list_lookup_alter_ne in Hi by done. destruct (ns !! i) as [n1|] eqn:E1; [|done]. injection Hi as <-. simpl.
    rewrite (Hid _ _ E1). by destruct (Z.eqb_spec (Z.of_nat i) (Z.of_nat c)); [lia|].
Qed.

(** The outcome of an election on any cluster: a winner has the votes of a majority, is the
    only leader and the leader of every node, all in its term; after a lost election the
    candidate is no leader and nobody became one. *)
Theorem election_outcome ns c ns' ok : ids_ok ns -> TryElect ns c = Some (ns', ok) ->
  ids_ok ns' /\ length ns' = length ns /\
  (ok = true -> zlen ns < 2 * voters (Z.of_nat c) ns' /\
     exists term, forall i n, ns' !! i = Some n ->
       (rn_role n = Leader <-> i = c) /\ rn_current_term n = term /\ rn_leader_id n = Z.of_nat c) /\
  (ok = false -> forall i n', ns' !! i = Some n' -> rn_role n' = Leader ->
     i <> c /\ exists n, ns !! i = Some n /\ rn_role n = Leader /\ rn_current_term n' = rn_current_term n).
Proof.
  intros Hid. unfold TryElect. destruct (ns !! c) as [cn|] eqn:Ec; [|done]. cbn [mbind option_bind]. destruct (_ =? _); [done|].
  fold (campaigning c cn). destruct (vote_loop _ _ 0 _ 1) as [ns1 v] eqn:Ev.
  destruct (campaign_spec _ _ _ _ _ Ec Ev) as (Hl & Hv & Hn1).
  assert (ids_ok ns1) as Hid1. { intros i n1 Hi. destruct (Hn1 _ _ Hi) as (n & Hn & -> & _). by apply Hid. }
  rewrite Z.geb_leb. destruct (Z.leb_spec (zlen ns1 / 2 + 1) v) as [Hmaj|Hmin]; intros [= <- <-].
  - split_and!; [intros i n Hi; by apply (win_lookup _ _ _ _ _ Hid1 Hi)|by rewrite length_fmap, length_alter| |done].
    intros _. rewrite win_voters. split; [|eexists; intros i n Hi; by apply (win_lookup _ _ _ _ _ Hid1 Hi)].
    unfold zlen in *. rewrite Hl in Hmaj. pose proof (Z.mul_succ_div_gt (Z.of_nat (length ns)) 2). lia.
  - split_and!; [done|done|done|]. intros _ i n' Hi Hr. destruct (Hn1 _ _ Hi) as (n & Hn & _ & Hrole).
    destruct (Hrole Hr) as (? & ? & ?). split; [done|]. by exists n.
Qed.

(** Any sequence of elections. *)
Fixpoint elections (ns : list RaftNode) (cs : list nat) : option (list RaftNode) :=
  match cs with
  | [] => Some ns
  | c :: cs => '(ns, _) ← TryElect ns c; elections ns cs
  end.

Definition one_leader (ns : list RaftNode) : Prop :=
  forall i j ni nj, ns !! i = Some ni -> ns !! j = Some nj -> rn_role ni = Leader -> rn_role nj = Leader -> i = j.

Theorem elections_one_leader ns cs ns' : ids_ok ns -> one_leader ns -> elections ns cs = Some ns' -> ids_ok ns' /\ one_leader ns'.
Proof.
  revert ns. induction cs as [|c cs IH]; intros ns Hid Hone; cbn [elections]; [by intros [= <-]|].
  destruct (TryElect ns c) as [[ns1 ok]|] eqn:E; [|done]. cbn [mbind option_bind]. destruct (election_outcome _ _ _ _ Hid E) as (Hid1 & _ & Hok & Hko).
  apply IH; [done|]. intros i j ni nj Hi Hj Ri Rj. destruct ok.
  - destruct (Hok eq_refl) as (_ & term & H). apply (H i) in Hi as [Hi _]. apply (H j) in Hj as [Hj _]. apply Hi in Ri. apply Hj in Rj. congruence.
  - destruct (Hko eq_refl i ni Hi Ri) as (_ & n & Hn & Rn & _), (Hko eq_refl j nj Hj Rj) as (_ & m & Hm & Rm & _). by eapply Hone.
Qed.

(** In a cluster whose nodes agree on the term every candidate wins. *)
Lemma vote_loop_all cid term ns : forall i votes, Forall (fun n => rn_current_term n < term) ns -> cid < i ->
  (vote_loop cid term i ns votes).2 = votes + zlen ns.
Proof.
  induction ns as [|n ns IH]; intros i votes Hall Hi; cbn [vote_loop]; [rewrite zlen_nil; simpl; lia|].
  apply Forall_cons in Hall as [Hn Hall]. destruct (Z.eqb_spec i cid); [lia|]. unfold ask_vote.
  destruct (Z.gtb_spec (rn_current_term n) term); [lia|]. destruct (Z.ltb_spec (rn_current_term n) term); [|lia]. simpl.
  specialize (IH (i + 1) (votes + 1) Hall ltac:(lia)). destruct (vote_loop _ _ (i + 1) ns _). simpl in *. rewrite zlen_cons. lia.
Qed.

Lemma vote_loop_win cid term ns : forall i votes c n, i + Z.of_nat c = cid -> ns !! c = Some n ->
  (forall j m, j <> c -> ns !! j = Some m -> rn_current_term m < term) ->
  (vote_loop cid term i ns votes).2 = votes + zlen ns - 1.
Proof.
  induction ns as [|m ns IH]; intros i votes c n Hi Hc Hall; [done|]. cbn [vote_loop]. rewrite zlen_cons. destruct c as [|c].
  - destruct (Z.eqb_spec i cid); [|lia]. assert (Forall (fun n => rn_current_term n < term) ns) as Hf.
    { apply Forall_lookup. intros j x Hj. by apply (Hall (S j)). }
    pose proof (vote_loop_all cid term ns (i + 1) votes Hf ltac:(lia)). destruct (vote_loop _ _ (i + 1) ns _). simpl in *. lia.
  - destruct (Z.eqb_spec i cid); [lia|]. pose proof (Hall 0%nat m ltac:(lia) eq_refl) as Hm. unfold ask_vote.
    destruct (Z.gtb_spec (rn_current_term m) term); [lia|]. destruct (Z.ltb_spec (rn_current_term m) term); [|lia]. simpl.
    specialize (IH (i + 1) (votes + 1) c n ltac:(lia) Hc). destruct (vote_loop _ _ (i + 1) ns _). simpl in *.
    rewrite IH; [lia|]. intros j x Hj Hx. apply (Hall (S j)); [lia|done].
Qed.

Theorem election_succeeds ns c t : (c < length ns)%nat -> (forall i n, ns !! i = Some n -> rn_current_term n = t) -> t < 2 ^ 31 - 1 ->
  exists ns', TryElect ns c = Some (ns', true).
Proof.
  intros Hc Ht Hmax. destruct (lookup_lt_is_Some_2 _ _ Hc) as [cn Ec]. unfold TryElect. rewrite Ec. cbn [mbind option_bind].
  rewrite (Ht _ _ Ec). destruct (Z.eqb_spec t (2 ^ 31 - 1)); [lia|].
  match goal with |- context [vote_loop ?cid ?term 0 ?l 1] => assert ((vote_loop cid term 0 l 1).2 = zlen ns) as Hv;
    [|destruct (vote_loop cid term 0 l 1) as [ns1 v] eqn:Ev] end.
  - rewrite (vote_loop_win _ _ _ 0 1 c (mkNode (rn_id cn) Candidate (t + 1) (Z.of_nat c) (rn_leader_id cn))).
    + unfold zlen. rewrite length_insert. lia.
    + lia.
    + by rewrite list_lookup_insert_eq.
    + intros j m Hj Hm. rewrite list_lookup_insert_ne in Hm by done. rewrite (Ht _ _ Hm). lia.
  - simpl in Hv. subst v. apply vote_loop_lookup in Ev as [Hl _]. rewrite length_insert in Hl. unfold zlen in *. rewrite Hl.
    rewrite Z.geb_leb. destruct (Z.leb_spec (Z.of_nat (length ns) / 2 + 1) (Z.of_nat (length ns))) as [|Hd]; [by eexists|].
    pose proof (Z.div_lt (Z.of_nat (length ns)) 2). lia.
Qed.

(** A candidate with a stale term can win, and then takes nodes with a newer term back to it. *)
Theorem election_lowers_term :
  exists ns ns', ids_ok ns /\ TryElect ns 1 = Some (ns', true) /\
    rn_current_term <$> ns !! 0%nat = Some 5 /\ rn_current_term <$> ns' !! 0%nat = Some 1.
Proof.
  exists [mkNode 0 Follower 5 (-1) (-1); mkNode 1 Follower 0 (-1) (-1); mkNode 2 Follower 0 (-1) (-1)]. eexists. split_and!; [|reflexivity..].
  intros [|[|[|i]]] n [= <-]; reflexivity.
Qed.

(** ** Hashes *)

Lemma block_bytes b0 b1 b2 b3 :
  Z.lor (Z.lor (Z.lor (b2z b0) (Z.shiftl (b2z b1) 8)) (Z.shiftl (b2z b2) 16)) (Z.shiftl (b2z b3) 24) = le_combine [b0; b1; b2; b3].
Proof.
  pose proof (b2z_range b0). pose proof (b2z_range b1). pose proof (b2z_range b2). pose proof (b2z_range b3). cbn [le_combine].
  rewrite (lor_shiftl_add (b2z b0)) by lia. rewrite (lor_shiftl_add (b2z b0 + _)) by lia. rewrite lor_shiftl_add by lia. lia.
Qed.

Lemma mm6_loop_eq n : forall h data, (length data <= n)%nat -> mm6_loop (S n) h data = mm_loop n h data.
Proof.
  induction n as [n IH] using lt_wf_ind. intros h data Hl. destruct data as [|b0 [|b1 [|b2 [|b3 data]]]]; try (by destruct n).
  simpl in Hl. destruct n as [|n]; [lia|]. cbn [mm_loop]. rewrite block_bytes. rewrite <- IH by lia.
  cbn [mm6_loop]. rewrite Z.geb_leb. rewrite !zlen_cons. pose proof (zlen_nonneg data).
  destruct (Z.leb_spec 4 (1 + (1 + (1 + (1 + zlen data))))); [|lia]. done.
Qed.

(** On strings shorter than 2 GiB the hash of module 6 is the one the store uses. *)
Theorem MurmurHash2_same key seed : zlen key < 2 ^ 31 -> MurmurHash2 key seed = murmurHash2 key seed.
Proof.
  intros Hl. unfold MurmurHash2, murmurHash2. rewrite mm6_loop_eq by done.
  replace (s32 (zlen key)) with (zlen key); [done|]. unfold s32. rewrite u32_small by (pose proof (zlen_nonneg key); lia).
  by destruct (Z.ltb_spec (zlen key) (2 ^ 31)); [|lia].
Qed.

(** ** Rings *)

(** The point a hash value is served by. *)
Definition chosen (r : ring) (v : Z) : option (Z * bytes) :=
  match head (filter (fun p => v <= p.1) r) with Some p => Some p | None => head r end.

Lemma ring_find_chosen r v : ring_find r v = snd <$> chosen r v.
Proof. unfold ring_find, chosen. by destruct (filter _ r). Qed.

Lemma ring_put_head (P : Z -> Prop) `{!forall z, Decision (P z)} h n r :
  head (filter (fun p => P p.1) (ring_put h n r)) = head (filter (fun p => P p.1) r) \/
  head (filter (fun p => P p.1) (ring_put h n r)) = Some (h, n).
Proof.
  induction r as [|[h' n'] r IH]; cbn [ring_put].
  - rewrite filter_cons. destruct (decide _); [by right|by left].
  - destruct (Z.ltb_spec h h') as [Hl|Hl]; [rewrite filter_cons; destruct (decide _); [by right|by left]|].
    destruct (Z.eqb_spec h h') as [<-|Hn]; rewrite !filter_cons; simpl; destruct (decide (P _)); [by right|by left|by left|done].
Qed.

Lemma ring_put_moves h n r v : ring_find (ring_put h n r) v = ring_find r v \/ ring_find (ring_put h n r) v = Some n.
Proof.
  rewrite !ring_find_chosen. unfold chosen. destruct (ring_put_head (fun z => v <= z) h n r) as [->| ->]; [|by right].
  destruct (head (filter _ r)); [by left|]. pose proof (ring_put_head (fun _ => True) h n r) as H.
  rewrite !filter_all in H by done. destruct H as [->| ->]; [by left|by right].
Qed.

(** Adding a node moves keys only to that node. *)
Theorem ring_add_moves_to_new count node r key :
  GetNode (AddNode count node r) key = GetNode r key \/ GetNode (AddNode count node r) key = Some node.
Proof.
  unfold GetNode, AddNode. generalize (HashKey key kHashSeed) as v. intros v. revert r.
  induction (seq 0 count) as [|i l IH]; intros r; cbn [foldl]; [by left|].
  destruct (IH (ring_put (HashKey (vnode node i) kHashSeed) node r)) as [->| ->]; [apply ring_put_moves|by right].
Qed.

Definition vnode_hashes (count : nat) (node : bytes) : list Z := (fun i => HashKey (vnode node i) kHashSeed) <$> seq 0 count.

Lemma RemoveNode_filter count node r : RemoveNode count node r = filter (fun p => p.1 ∉ vnode_hashes count node) r.
Proof.
  unfold RemoveNode, vnode_hashes. generalize (seq 0 count) as l. intros l. revert r. induction l as [|i l IH]; intros r; cbn [foldl fmap list_fmap].
  - symmetry. apply filter_all. intros p _. apply not_elem_of_nil.
  - rewrite IH. unfold ring_erase. rewrite list_filter_filter. apply list_filter_iff. intros p. rewrite not_elem_of_cons. tauto.
Qed.

Lemma head_filter_keep {A} (Q : A -> Prop) `{!forall x, Decision (Q x)} (l : list A) x :
  head l = Some x -> Q x -> head (filter Q l) = Some x.
Proof. destruct l as [|y l]; [done|]. intros [= ->] Hq. by rewrite filter_cons, decide_True. Qed.

Lemma list_filter_comm {A} (P Q : A -> Prop) `{!forall x, Decision (P x)} `{!forall x, Decision (Q x)} (l : list A) :
  filter P (filter Q l) = filter Q (filter P l).
Proof. rewrite !list_filter_filter. apply list_filter_iff. tauto. Qed.

(** Removing a node leaves the keys of the other nodes where they are, if no other node has a
    point at the hash of one of its virtual nodes. *)
Theorem ring_remove_moves_own count node r key q :
  (forall p, p ∈ r -> p.1 ∈ vnode_hashes count node -> p.2 = node) ->
  GetNode r key = Some q -> q <> node -> GetNode (RemoveNode count node r) key = Some q.
Proof.
  intros Hown. unfold GetNode. generalize (HashKey key kHashSeed) as v. intros v. rewrite RemoveNode_filter, !ring_find_chosen.
  destruct (chosen r v) as [p|] eqn:E; [|done]. intros [= <-] Hne.
  assert (p ∈ r) as Hp. { unfold chosen in E. destruct (filter _ r) as [|p' l] eqn:Ef; simpl in E.
    - destruct r; [done|]. injection E as ->. left.
    - injection E as ->. assert (p ∈ filter (fun p => v <= p.1) r) as [_ ?]%list_elem_of_filter by (rewrite Ef; left). done. }
  assert (p.1 ∉ vnode_hashes count node) as Hk by (intros H; by apply Hne, Hown).
  unfold chosen in *. rewrite list_filter_comm. destruct (filter (fun p => v <= p.1) r) as [|p' l] eqn:Ef; simpl in E.
  - by rewrite (head_filter_keep _ r p).
  - injection E as ->. by rewrite (head_filter_keep _ (p :: l) p).
Qed.

Lemma ring_put_filter (Q : Z * bytes -> Prop) `{!forall p, Decision (Q p)} h n r : (forall n', ~ Q (h, n')) ->
  filter Q (ring_put h n r) = filter Q r.
Proof.
  intros Hq. induction r as [|[h' n'] r IH]; cbn [ring_put]; [by rewrite filter_cons, decide_False|].
  destruct (Z.ltb_spec h h'); [by rewrite filter_cons, decide_False|].
  destruct (Z.eqb_spec h h') as [<-|]; rewrite !filter_cons; [by rewrite !decide_False|by rewrite IH].
Qed.

(** Adding and removing a node restores a ring that has none of its points. *)
Theorem ring_add_remove count node r :
  (forall p, p ∈ r -> p.1 ∉ vnode_hashes count node) -> RemoveNode count node (AddNode count node r) = r.
Proof.
  intros Hr. rewrite RemoveNode_filter. unfold AddNode.
  assert (forall l, (forall i, i ∈ l -> i ∈ seq 0 count) ->
    filter (fun p => p.1 ∉ vnode_hashes count node) (foldl (fun r i => ring_put (HashKey (vnode node i) kHashSeed) node r) r l) =
    filter (fun p => p.1 ∉ vnode_hashes count node) r) as H.
  { intros l. induction l as [|i l IH] using rev_ind; intros Hl; [done|]. rewrite foldl_snoc.
    rewrite ring_put_filter; [apply IH; intros j Hj; apply Hl; set_solver|].
    intros n' Hn. apply Hn. apply list_elem_of_fmap. exists i. split; [done|]. apply Hl. set_solver. }
  rewrite H by done. by apply filter_all.
Qed.

(** The map stays in key order, so the point chosen is the first at or after the hash value,
    or the first of all. *)
Definition points_sorted (r : ring) : Prop := StronglySorted (fun p q => p.1 < q.1) r.

Lemma ring_put_elem h n r p : p ∈ ring_put h n r -> p = (h, n) \/ p ∈ r.
Proof.
  induction r as [|[h' n'] r IH]; cbn [ring_put]; [set_solver|].
  destruct (_ <? _); [set_solver|]. destruct (_ =? _); [set_solver|]. rewrite !elem_of_cons. tauto.
Qed.

Lemma ring_put_sorted h n r : points_sorted r -> points_sorted (ring_put h n r).
Proof.
  induction 1 as [|[h' n'] r Hs IH Hall]; cbn [ring_put]; [repeat constructor|]. pose proof Hall as Hall'. rewrite Forall_forall in Hall'.
  destruct (Z.ltb_spec h h').
  - constructor; [by constructor|]. constructor; [done|]. apply Forall_forall. intros p Hp. apply Hall' in Hp. simpl in *. lia.
  - destruct (Z.eqb_spec h h') as [<-|]; [by constructor|]. constructor; [done|]. apply Forall_forall.
    intros p [->|Hp]%ring_put_elem; [simpl; lia|by apply Hall'].
Qed.

Lemma ConsistentHash_sorted nodes vnodes : points_sorted (ConsistentHash_new nodes vnodes).
Proof.
  unfold ConsistentHash_new. assert (points_sorted []) as H by constructor. revert H. generalize (@nil (Z * bytes)) as r.
  induction nodes as [|node nodes IH]; intros r Hr; [done|]. cbn [foldl]. apply IH. clear IH. revert r Hr.
  induction (seq 0 vnodes) as [|i l IHl]; intros r Hr; [done|]. cbn [foldl]. by apply IHl, ring_put_sorted.
Qed.

Theorem ring_locate_first nodes vnodes key :
  let r := ConsistentHash_new nodes vnodes in
  match chosen r (fnv_Hash key) with
  | None => r = []
  | Some p => ch_Locate r key = Some p.2 /\ p ∈ r /\
      ((fnv_Hash key <= p.1 /\ forall q, q ∈ r -> fnv_Hash key <= q.1 -> p.1 <= q.1) \/
       ((forall q, q ∈ r -> q.1 < fnv_Hash key) /\ forall q, q ∈ r -> p.1 <= q.1))
  end.
Proof.
  intros r. pose proof (ConsistentHash_sorted nodes vnodes) as Hs. fold r in Hs. unfold ch_Locate. rewrite ring_find_chosen.
  generalize (fnv_Hash key) as v. intros v. destruct (chosen r v) as [p|] eqn:E; unfold chosen in E.
  - split; [done|]. destruct (filter (fun p => v <= p.1) r) as [|p' l] eqn:Ef; simpl in E.
    + destruct r as [|p0 r0]; [done|]. injection E as ->. split; [left|]. right. split.
      * intros q Hq. destruct (decide (v <= q.1)); [|lia].
        assert (q ∈ filter (fun p => v <= p.1) (p :: r0)) as Hin by by apply list_elem_of_filter. rewrite Ef in Hin. by apply elem_of_nil in Hin.
      * inversion_clear Hs as [|?? _ Hall]. rewrite Forall_forall in Hall. intros q [->|Hq]%elem_of_cons; [lia|]. apply Hall in Hq. lia.
    + injection E as ->. assert (p ∈ filter (fun p => v <= p.1) r) as [Hv Hp]%list_elem_of_filter by (rewrite Ef; left).
      split; [done|]. left. split; [done|]. intros q Hq Hvq.
      assert (q ∈ p :: l) as Hin by (rewrite <- Ef; by apply list_elem_of_filter).
      assert (points_sorted (p :: l)) as Hs' by (rewrite <- Ef; by eapply StronglySorted_sublist; [apply sublist_filter|]).
      inversion_clear Hs' as [|?? _ Hall]. rewrite Forall_forall in Hall. apply elem_of_cons in Hin as [->|Hin]; [lia|]. apply Hall in Hin. lia.
  - destruct (filter _ r); [|done]. simpl in E. by destruct r.
Qed.

(** ** The filter of module 6 has no false negatives *)

Definition wf6 (f : BloomFilter6) : Prop := 0 < b6_bits f <= zlen (b6_storage f) * 8.

Lemma Bloom6_new_wf bits k : wf6 (Bloom6_new bits k).
Proof.
  unfold wf6, Bloom6_new. simpl. unfold zlen. rewrite length_replicate.
  assert (0 < (if bits <? 64 then 64 else bits)) by (destruct (Z.ltb_spec bits 64); lia).
  generalize dependent (if bits <? 64 then 64 else bits). intros b Hb. rewrite Z2Nat.id by (apply Z.div_pos; lia).
  pose proof (Z.div_mod (b + 7) 8). pose proof (Z.mod_pos_bound (b + 7) 8). lia.
Qed.

Lemma contain6_mono bits key n : forall i a b, bits_le a b -> contain6_loop bits key i n a = Some true -> contain6_loop bits key i n b = Some true.
Proof.
  induction n as [|n IH]; intros i a b Hle; cbn [contain6_loop]; [done|].
  destruct (bf_test a (index6 bits key i)) as [[]|] eqn:E; [|done..]. cbn [mbind option_bind]. rewrite (bf_test_mono _ _ _ Hle E).
  cbn [mbind option_bind]. by apply IH.
Qed.

Lemma add6_loop_spec bits key n : forall i a, 0 < bits <= zlen a * 8 ->
  exists b, add6_loop bits key i n a = Some b /\ bits_le a b /\ contain6_loop bits key i n b = Some true.
Proof.
  induction n as [|n IH]; intros i a Hb; [by exists a|]. cbn [add6_loop contain6_loop].
  assert (0 <= index6 bits key i < bits) as Hi by (apply Z.mod_pos_bound; lia).
  destruct (bf_set_spec a (index6 bits key i)) as (a1 & -> & Hle1 & Ht1); [lia|]. cbn [mbind option_bind].
  destruct (IH (S i) a1) as (b & -> & Hle2 & Hc); [unfold zlen; by rewrite <- (proj1 Hle1)|].
  exists b. split_and!; [done|by transitivity a1|]. rewrite (bf_test_mono _ _ _ Hle2 Ht1). done.
Qed.

Definition add6_all (f : BloomFilter6) (keys : list bytes) : option BloomFilter6 :=
  foldl (fun acc k => f ← acc; Add6 f k) (Some f) keys.

(** A filter of any size: every insertion succeeds (no access outside the storage) and every
    inserted key is reported, whatever was inserted before and after. *)
Theorem bloom6_no_false_negative bits k keys :
  exists f, add6_all (Bloom6_new bits k) keys = Some f /\ forall key, key ∈ keys -> MightContain6 f key = Some true.
Proof.
  assert (exists f, add6_all (Bloom6_new bits k) keys = Some f /\ wf6 f /\ forall key, key ∈ keys -> MightContain6 f key = Some true) as (f & ? & _ & ?);
    [|by exists f]. unfold add6_all.
  induction keys as [|key keys (f & E & Hw & Hin)] using rev_ind.
  { eexists. split_and!; [done|apply Bloom6_new_wf|]. by intros key ?%elem_of_nil. }
  rewrite foldl_snoc, E. cbn [mbind option_bind]. unfold Add6.
  destruct (add6_loop_spec (b6_bits f) key (b6_k f) 0 (b6_storage f) Hw) as (st & -> & Hle & Hc). cbn [mbind option_bind].
  eexists. split_and!; [done| |].
  - unfold wf6, zlen in *. simpl. by rewrite <- (proj1 Hle).
  - intros x [Hx|Hx%list_elem_of_singleton]%elem_of_app; [|by subst]. apply Hin in Hx. by eapply contain6_mono.
Qed.
