(* ===== verification/MiniLsm.v ===== *)
(** * The text-file store of course module 7

    [practice/module07_lsm_engine/main.cpp]: a map in memory, a log of lines [PUT\tkey\tvalue]
    and one table of lines [key\tvalue].  A directory is its two files; closing the store
    leaves them as they are, so reopening is [MiniDB_open] on them.  An [std::map] is the list
    of its pairs in key order. *)

From Stdlib Require Import ZArith Lia.
From stdpp Require Import base numbers strings list sets sorting.
From S2P Require Import Prelude CppString Slice.
Local Open Scope Z_scope.

Definition TAB : byte := z2b 9.
Definition NL : byte := z2b 10.

(** ** Streams *)

(** The lines [std::getline] delivers until it fails: a last line without newline counts when
    it is not empty. *)
Fixpoint getlines (line : bytes) (s : bytes) : list bytes :=
  match s with
  | [] => match line with [] => [] | _ => [line] end
  | c :: s => if decide (c = NL) then line :: getlines [] s else getlines (line ++ [c]) s
  end.

(** One [getline(iss, x, delim)]: fails on an exhausted stream. *)
Fixpoint until (delim : byte) (s : bytes) : bytes * bytes :=
  match s with
  | [] => ([], [])
  | c :: s => if decide (c = delim) then ([], s) else let '(x, rest) := until delim s in (c :: x, rest)
  end.
Definition getline_to (delim : byte) (s : bytes) : option (bytes * bytes) :=
  match s with [] => None | _ => Some (until delim s) end.

(** ** [std::map<std::string, std::string>] *)

Abbreviation smap := (list (bytes * bytes)).

Fixpoint sm_put (k v : bytes) (m : smap) : smap :=
  match m with
  | [] => [(k, v)]
  | (k', v') :: m' =>
      match lex k k' with Lt => (k, v) :: m | Eq => (k', v) :: m' | Gt => (k', v') :: sm_put k v m' end
  end.

Fixpoint sm_find (k : bytes) (m : smap) : option bytes :=
  match m with [] => None | (k', v) :: m => if decide (k' = k) then Some v else sm_find k m end.

(** ** The log *)

Definition put_line (key value : bytes) : bytes := bs "PUT" ++ [TAB] ++ key ++ [TAB] ++ value ++ [NL].
Definition AppendPut (file key value : bytes) : bytes := file ++ put_line key value.

Definition recover_line (mem : smap) (line : bytes) : smap :=
  match line with
  | [] => mem
  | _ =>
      match getline_to TAB line with
      | None => mem
      | Some (op, rest) =>
          match getline_to TAB rest with
          | None => mem
          | Some (key, rest) =>
              match getline_to NL rest with
              | None => mem
              | Some (value, _) => if decide (op = bs "PUT") then sm_put key value mem else mem
              end
          end
      end
  end.

Definition wal_Recover (file : option bytes) (mem : smap) : smap :=
  match file with None => mem | Some f => foldl recover_line mem (getlines [] f) end.

(** ** The table *)

Definition sst_line (p : bytes * bytes) : bytes := p.1 ++ [TAB] ++ p.2 ++ [NL].
Definition sst_Write (data : smap) : bytes := data ≫= sst_line.

(** [line.find('\t')], [substr(0, tab)] and [substr(tab + 1)]. *)
Definition sst_split (line : bytes) : option (bytes * bytes) :=
  i ← find_index (fun c => bool_decide (c = TAB)) line;
  Some (take i line, drop (S i) line).

Fixpoint sst_scan (lines : list bytes) (key : bytes) : option bytes :=
  match lines with
  | [] => None
  | line :: lines =>
      match sst_split line with
      | None => sst_scan lines key
      | Some (k, v) => if decide (k = key) then Some v else sst_scan lines key
      end
  end.
Definition sst_Get (file : option bytes) (key : bytes) : option bytes :=
  match file with None => None | Some f => sst_scan (getlines [] f) key end.

Definition sst_load_line (mem : smap) (line : bytes) : smap :=
  match sst_split line with None => mem | Some (k, v) => sm_put k v mem end.
Definition LoadSSTIntoMem (file : option bytes) (mem : smap) : smap :=
  match file with None => mem | Some f => foldl sst_load_line mem (getlines [] f) end.

(** ** The store *)

Record Dir := mkDir { d_wal : option bytes; d_sst : option bytes }.
Record MiniDB := mkMini { md_dir : Dir; md_mem : smap }.

(** Recovery, then the log is opened for appending, which creates it. *)
Definition MiniDB_open (d : Dir) : MiniDB :=
  let mem := wal_Recover (d_wal d) (LoadSSTIntoMem (d_sst d) []) in
  mkMini (mkDir (Some (default [] (d_wal d))) (d_sst d)) mem.

Definition md_Put (db : MiniDB) (key value : bytes) : MiniDB :=
  let wal := AppendPut (default [] (d_wal (md_dir db))) key value in
  mkMini (mkDir (Some wal) (d_sst (md_dir db))) (sm_put key value (md_mem db)).

Definition md_Get (db : MiniDB) (key : bytes) : option bytes :=
  match sm_find key (md_mem db) with
  | Some v => Some v
  | None => sst_Get (d_sst (md_dir db)) key
  end.

Definition md_Flush (db : MiniDB) : MiniDB :=
  mkMini (mkDir (Some []) (Some (sst_Write (md_mem db)))) (md_mem db).

(** The operations of a session, reopening included. *)
Inductive mop := MPut (k v : bytes) | MFlush | MReopen.

Definition mrun (db : MiniDB) (op : mop) : MiniDB :=
  match op with
  | MPut k v => md_Put db k v
  | MFlush => md_Flush db
  | MReopen => MiniDB_open (md_dir db)
  end.

Example mini_demo :
  let db := foldl mrun (MiniDB_open (mkDir None None))
              [MPut (bs "a") (bs "1"); MPut (bs "b") (bs "2"); MFlush; MReopen; MPut (bs "d") (bs "4"); MReopen] in
  md_Get db <$> [bs "a"; bs "b"; bs "d"; bs "e"] = [Some (bs "1"); Some (bs "2"); Some (bs "4"); None].
Proof. vm_compute. reflexivity. Qed.

(** ** Maps *)

Definition sm_sorted (m : smap) : Prop := StronglySorted (fun p q => lex p.1 q.1 = Lt) m.

Lemma sm_find_put k v m j : sm_sorted m -> sm_find j (sm_put k v m) = if decide (k = j) then Some v else sm_find j m.
Proof.
  induction 1 as [|[k' v'] m Hs IH Hall]; cbn [sm_put]; [done|]. destruct (lex k k') eqn:E; cbn [sm_find].
  - apply lex_eq_iff in E as ->. by destruct (decide _).
  - done.
  - rewrite IH. destruct (decide (k' = j)) as [->|]; [|done]. destruct (decide (k = j)) as [->|]; [|done]. by rewrite lex_refl in E.
Qed.

Lemma sm_put_elem k v m p : p ∈ sm_put k v m -> p = (k, v) \/ p ∈ m.
Proof.
  induction m as [|[k' v'] m IH]; cbn [sm_put]; [set_solver|]. destruct (lex k k') eqn:E; rewrite ?elem_of_cons; try tauto.
  apply lex_eq_iff in E as ->. tauto.
Qed.

Lemma sm_put_sorted k v m : sm_sorted m -> sm_sorted (sm_put k v m).
Proof.
  induction 1 as [|[k' v'] m Hs IH Hall]; cbn [sm_put]; [repeat constructor|]. pose proof Hall as Hall'. rewrite Forall_forall in Hall'.
  destruct (lex k k') eqn:E.
  - constructor; [done|]. exact Hall.
  - constructor; [by constructor|]. constructor; [done|]. apply Forall_forall. intros p Hp. apply Hall' in Hp. simpl in *. by eapply lex_trans.
  - constructor; [done|]. apply Forall_forall. intros p [->|Hp]%sm_put_elem; [by apply lex_gt_lt|by apply Hall'].
Qed.

(** Reading a map back pair by pair gives its entries. *)
Definition put_pair (m : smap) (p : bytes * bytes) : smap := sm_put p.1 p.2 m.

Lemma put_pairs_sorted l m : sm_sorted m -> sm_sorted (foldl put_pair m l).
Proof. revert m. induction l as [|p l IH]; intros m Hm; [done|]. cbn [foldl]. by apply IH, sm_put_sorted. Qed.

Lemma put_pairs_find l m k : sm_sorted m -> sm_sorted l ->
  sm_find k (foldl put_pair m l) = match sm_find k l with Some v => Some v | None => sm_find k m end.
Proof.
  revert m. induction l as [|[k' v'] l IH]; intros m Hm Hl; [done|]. inversion_clear Hl as [|?? Hl' Hall]. cbn [foldl sm_find].
  rewrite IH by (done || by apply sm_put_sorted). unfold put_pair. simpl. rewrite sm_find_put by done.
  destruct (decide (k' = k)) as [->|]; [|done]. replace (sm_find k l) with (@None bytes); [done|].
  clear IH Hl'. induction Hall as [|[k2 v2] l Hlt _ IHl]; [done|]. cbn [sm_find]. destruct (decide (k2 = k)) as [->|]; [|done].
  by rewrite lex_refl in Hlt.
Qed.

(** ** Files *)

(** What the text format can hold: keys without separators, values of one non-empty line. *)
Definition wf_pair (p : bytes * bytes) : Prop := TAB ∉ p.1 /\ NL ∉ p.1 /\ NL ∉ p.2 /\ p.2 <> [].

Lemma getlines_line acc l s : NL ∉ l -> getlines acc (l ++ NL :: s) = (acc ++ l) :: getlines [] s.
Proof.
  revert acc. induction l as [|c l IH]; intros acc Hl; cbn [app getlines]; [by rewrite decide_True, app_nil_r|].
  apply not_elem_of_cons in Hl as [Hc Hl]. rewrite decide_False by done. rewrite IH by done. by rewrite <- app_assoc.
Qed.

Lemma getlines_concat {A} (line : A -> bytes) l : Forall (fun x => NL ∉ line x) l ->
  getlines [] (l ≫= fun x => line x ++ [NL]) = line <$> l.
Proof.
  induction 1 as [|x l Hx _ IH]; [done|]. cbn [mbind list_bind]. rewrite <- app_assoc. cbn [app]. rewrite getlines_line by done.
  cbn [fmap list_fmap]. f_equal. exact IH.
Qed.

Lemma until_app d l s : d ∉ l -> until d (l ++ d :: s) = (l, s).
Proof.
  induction l as [|c l IH]; intros Hl; cbn [app until]; [by rewrite decide_True|].
  apply not_elem_of_cons in Hl as [Hc Hl]. rewrite decide_False by done. by rewrite IH.
Qed.

Lemma until_all d l : d ∉ l -> until d l = (l, []).
Proof.
  induction l as [|c l IH]; intros Hl; cbn [until]; [done|].
  apply not_elem_of_cons in Hl as [Hc Hl]. rewrite decide_False by done. by rewrite IH.
Qed.

Lemma getline_to_app d l s : d ∉ l -> getline_to d (l ++ d :: s) = Some (l, s).
Proof. intros Hl. unfold getline_to. rewrite until_app by done. by destruct l. Qed.

Lemma recover_put_line m p : wf_pair p -> recover_line m (bs "PUT" ++ [TAB] ++ p.1 ++ [TAB] ++ p.2) = put_pair m p.
Proof.
  intros (Ht & _ & Hn & Hne). unfold recover_line. cbn [app].
  assert (getline_to TAB (bs "PUT" ++ TAB :: p.1 ++ TAB :: p.2) = Some (bs "PUT", p.1 ++ TAB :: p.2)) as ->.
  { apply getline_to_app. apply (bool_decide_unpack _). vm_compute. done. }
  rewrite getline_to_app by done. unfold getline_to. rewrite until_all by done. destruct p as [k v]. simpl in *. by destruct v.
Qed.

Lemma not_in_app3 (x : byte) l1 l2 l3 : x ∉ l1 -> x ∉ l2 -> x ∉ l3 -> x ∉ l1 ++ l2 ++ l3.
Proof. rewrite !elem_of_app. tauto. Qed.

Lemma wal_recover_lines m es : Forall wf_pair es -> wal_Recover (Some (es ≫= fun p => put_line p.1 p.2)) m = foldl put_pair m es.
Proof.
  intros Hes. unfold wal_Recover.
  replace (es ≫= fun p => put_line p.1 p.2) with (es ≫= fun p => (bs "PUT" ++ [TAB] ++ p.1 ++ [TAB] ++ p.2) ++ [NL]).
  2:{ apply list_bind_ext; [|done]. intros p. unfold put_line. by rewrite <- !app_assoc. }
  rewrite getlines_concat.
  - revert m. induction Hes as [|p es Hp _ IH]; intros m; [done|]. cbn [fmap list_fmap foldl]. by rewrite recover_put_line, IH.
  - eapply Forall_impl; [exact Hes|]. intros p (_ & Hk & Hv & _).
    assert (NL ∉ [TAB]) as Ht by (apply (bool_decide_unpack _); vm_compute; done).
    assert (NL ∉ bs "PUT") as Hp by (apply (bool_decide_unpack _); vm_compute; done).
    apply not_in_app3; [done..|]. apply not_in_app3; done.
Qed.

Lemma sst_split_line p : wf_pair p -> sst_split (p.1 ++ [TAB] ++ p.2) = Some p.
Proof.
  intros (Ht & _). unfold sst_split. assert (find_index (fun c => bool_decide (c = TAB)) (p.1 ++ [TAB] ++ p.2) = Some (length p.1)) as ->.
  { destruct p as [k v]. simpl in *. induction k as [|c k IH]; cbn [app find_index length].
    - by rewrite bool_decide_eq_true_2.
    - apply not_elem_of_cons in Ht as [Hc Ht]. rewrite bool_decide_eq_false_2 by congruence. by rewrite IH. }
  cbn [mbind option_bind]. rewrite take_app_length. rewrite drop_app_ge by lia.
  replace (S (length p.1) - length p.1)%nat with 1%nat by lia. by destruct p.
Qed.

Lemma sst_lines m : Forall wf_pair m -> getlines [] (sst_Write m) = (fun p => p.1 ++ [TAB] ++ p.2) <$> m.
Proof.
  intros Hm. unfold sst_Write. replace (m ≫= sst_line) with (m ≫= fun p => (p.1 ++ [TAB] ++ p.2) ++ [NL]).
  2:{ apply list_bind_ext; [|done]. intros p. unfold sst_line. by rewrite <- !app_assoc. }
  apply getlines_concat. eapply Forall_impl; [exact Hm|]. intros p (_ & Hk & Hv & _). apply not_in_app3; [done| |done].
  apply (bool_decide_unpack _); vm_compute; done.
Qed.

Lemma sst_load m base : Forall wf_pair base -> LoadSSTIntoMem (Some (sst_Write base)) m = foldl put_pair m base.
Proof.
  intros Hb. unfold LoadSSTIntoMem. rewrite sst_lines by done. revert m. induction Hb as [|p l Hp _ IH]; intros m; [done|].
  cbn [fmap list_fmap foldl]. rewrite <- IH. f_equal. unfold sst_load_line. rewrite sst_split_line by done. by destruct p.
Qed.

Lemma sst_get base k : Forall wf_pair base -> sst_Get (Some (sst_Write base)) k = sm_find k base.
Proof.
  intros Hb. unfold sst_Get. rewrite sst_lines by done. induction Hb as [|p l Hp _ IH]; [done|].
  cbn [fmap list_fmap sst_scan]. rewrite sst_split_line by done. destruct p. cbn [sm_find]. by rewrite IH.
Qed.

(** Entries in order are read back to the same list. *)
Lemma sm_put_last m k v : Forall (fun p => lex p.1 k = Lt) m -> sm_put k v m = m ++ [(k, v)].
Proof.
  induction 1 as [|[k' v'] m Hp _ IH]; [done|]. cbn [sm_put]. simpl in Hp. rewrite lex_opp, Hp. simpl. by rewrite IH.
Qed.

Lemma put_pairs_rebuild m l : sm_sorted (m ++ l) -> foldl put_pair m l = m ++ l.
Proof.
  revert m. induction l as [|[k v] l IH]; intros m Hs; [by rewrite app_nil_r|]. cbn [foldl]. unfold put_pair at 2. simpl.
  rewrite sm_put_last.
  - rewrite IH; by rewrite <- app_assoc.
  - apply StronglySorted_app in Hs as (H & _ & _). apply Forall_forall. intros p Hp. apply (H p (k, v)); [done|left].
Qed.

(** ** The store on disk is the store in memory *)

Record mini_ok (db : MiniDB) (base es : smap) : Prop := {
  mo_wal : d_wal (md_dir db) = Some (es ≫= fun p => put_line p.1 p.2);
  mo_sst : d_sst (md_dir db) = Some (sst_Write base) \/ (d_sst (md_dir db) = None /\ base = []);
  mo_mem : md_mem db = foldl put_pair base es;
  mo_sorted : sm_sorted base;
  mo_base : Forall wf_pair base;
  mo_es : Forall wf_pair es;
}.

Lemma mini_open_id db base es : mini_ok db base es -> MiniDB_open (md_dir db) = db.
Proof.
  intros []. destruct db as [[wal sst] mem]. cbn [md_dir md_mem d_wal d_sst] in *. subst.
  unfold MiniDB_open. cbn [d_wal d_sst default]. f_equal.
  rewrite wal_recover_lines by done. destruct mo_sst0 as [-> | [-> ->]]; [|done].
  by rewrite sst_load, (put_pairs_rebuild []).
Qed.

Lemma put_pairs_wf base es : Forall wf_pair base -> Forall wf_pair es -> Forall wf_pair (foldl put_pair base es).
Proof.
  intros Hb He. revert base Hb. induction He as [|p es Hp _ IH]; intros base Hb; [done|]. cbn [foldl]. apply IH.
  apply Forall_forall. intros q [->|Hq]%sm_put_elem; [by destruct p|]. rewrite Forall_forall in Hb. by apply Hb.
Qed.

Definition mop_wf (op : mop) : Prop := match op with MPut k v => wf_pair (k, v) | _ => True end.

Lemma mini_step db base es op : mini_ok db base es -> mop_wf op -> exists base' es', mini_ok (mrun db op) base' es'.
Proof.
  intros H Hop. destruct op as [k v| |].
  - exists base, (es ++ [(k, v)]). destruct H as [Hw Hs Hm Ho Hb He]. split; simpl; [|done| |done|done|apply Forall_app; split; [done|by apply Forall_singleton]].
    + rewrite Hw. unfold AppendPut. rewrite bind_app. simpl. by rewrite app_nil_r.
    + by rewrite foldl_snoc, Hm.
  - exists (md_mem db), []. destruct H as [Hw Hs Hm Ho Hb He]. split; simpl; [done|by left|done| | |constructor].
    + rewrite Hm. by apply put_pairs_sorted.
    + rewrite Hm. by apply put_pairs_wf.
  - exists base, es. cbn [mrun]. by rewrite (mini_open_id _ _ _ H).
Qed.

Lemma mini_run ops : Forall mop_wf ops -> exists base es, mini_ok (foldl mrun (MiniDB_open (mkDir None None)) ops) base es.
Proof.
  induction ops as [|op ops IH] using rev_ind; intros Hops.
  - exists [], []. split; [done|by right|done|constructor..].
  - apply Forall_app in Hops as [Hops Hop]. rewrite Forall_singleton in Hop. destruct (IH Hops) as (base & es & H).
    rewrite foldl_snoc. exact (mini_step _ _ _ _ H Hop).
Qed.

(** The last value put under a key. *)
Definition last_put (ops : list mop) (k : bytes) : option bytes :=
  foldl (fun acc op => match op with MPut k' v => if decide (k' = k) then Some v else acc | _ => acc end) None ops.

Lemma put_pairs_keep es : forall m k, sm_sorted m -> sm_find k (foldl put_pair m es) = None -> sm_find k m = None.
Proof.
  induction es as [|p es IH]; intros m k Hm; [done|]. cbn [foldl]. intros H. apply IH in H; [|by apply sm_put_sorted].
  unfold put_pair in H. rewrite sm_find_put in H by done. by destruct (decide _).
Qed.

(** A read finds what the map in memory says: the table holds nothing more. *)
Lemma mini_get db base es k : mini_ok db base es -> md_Get db k = sm_find k (md_mem db).
Proof.
  intros []. unfold md_Get. destruct (sm_find k (md_mem db)) eqn:E; [done|]. rewrite mo_mem0 in E. apply put_pairs_keep in E; [|done].
  destruct mo_sst0 as [-> | [-> ->]]; [|done]. by rewrite sst_get.
Qed.

Lemma mini_mem ops k : Forall mop_wf ops ->
  sm_sorted (md_mem (foldl mrun (MiniDB_open (mkDir None None)) ops)) /\
  sm_find k (md_mem (foldl mrun (MiniDB_open (mkDir None None)) ops)) = last_put ops k.
Proof.
  induction ops as [|op ops IH] using rev_ind; intros Hops; [split; [constructor|done]|].
  apply Forall_app in Hops as [Hops _]. destruct (IH Hops) as [Hs Hk]. destruct (mini_run ops Hops) as (base & es & H).
  unfold last_put. rewrite !foldl_snoc. fold (last_put ops k). destruct op as [k' v| |]; cbn [mrun md_Put md_Flush md_mem].
  - split; [by apply sm_put_sorted|]. by rewrite sm_find_put, Hk.
  - done.
  - by rewrite (mini_open_id _ _ _ H).
Qed.

(** Whatever is put, flushed and reopened (keys without separators, values of one non-empty
    line), a read returns the last value put under the key, and reopening restores exactly
    the store. *)
Theorem mini_durable ops key : Forall mop_wf ops ->
  let db := foldl mrun (MiniDB_open (mkDir None None)) ops in
  md_Get db key = last_put ops key /\ MiniDB_open (md_dir db) = db.
Proof.
  intros Hops db. destruct (mini_run ops Hops) as (base & es & H). split; [|by eapply mini_open_id].
  rewrite (mini_get _ _ _ _ H). by apply mini_mem.
Qed.

(** The log cannot hold an empty value: it is gone after a reopen. *)
Theorem mini_loses_empty_value :
  exists k, md_Get (foldl mrun (MiniDB_open (mkDir None None)) [MPut k []]) k = Some [] /\
            md_Get (foldl mrun (MiniDB_open (mkDir None None)) [MPut k []; MReopen]) k = None.
Proof. exists (bs "k"). vm_compute. done. Qed.

Lemma mini_durable_witness :
  md_Get (foldl mrun (MiniDB_open (mkDir None None)) [MPut (bs "a") (bs "1"); MFlush; MPut (bs "a") (bs "2"); MReopen]) (bs "a") = Some (bs "2").
Proof.
  destruct (mini_durable [MPut (bs "a") (bs "1"); MFlush; MPut (bs "a") (bs "2"); MReopen] (bs "a")) as [-> _]; [|vm_compute; done].
  repeat constructor; simpl; (done || (apply (bool_decide_unpack _); vm_compute; done)).
Defined.
