(* ===== verification/ProxyCourse.v ===== *)
(** * The proxy parts of course module 10

    [practice/module10_http_proxy/main.cpp]: a request parser that is fed pieces, the smooth
    weighted round robin of nginx, and a bounded connection pool. *)

From Stdlib Require Import ZArith Lia.
From stdpp Require Import base numbers strings list gmap.
From S2P Require Import Prelude CppString Http BalanceProofs.
Local Open Scope Z_scope.

(** ** The parser *)

Inductive ParseState := kRequestLine10 | kHeaders10 | kBody10 | kDone10 | kError10.
#[export] Instance ParseState_eq : EqDecision ParseState.
Proof. solve_decision. Defined.

Record Request10 := mkReq10 {
  r10_method : bytes; r10_path : bytes; r10_version : bytes; r10_headers : gmap bytes bytes; r10_body : bytes }.

Record Parser10 := mkP10 { p10_state : ParseState; p10_req : Request10; p10_buf : bytes; p10_body_remain : Z }.

Definition Parser10_new : Parser10 := mkP10 kRequestLine10 (mkReq10 [] [] [] ∅ []) [] 0.

(** [line.rfind(' ')] *)
Definition rfind_char (c : byte) (s : bytes) : option nat :=
  i ← find_index (fun x => bool_decide (x = c)) (reverse s); Some (length s - 1 - i)%nat.

(** [METHOD SP PATH SP VERSION]; [None] is the error state. *)
Definition request_line10 (r : Request10) (line : bytes) : option Request10 :=
  s1 ← find_index (fun x => bool_decide (x = chr " ")) line;
  s2 ← rfind_char (chr " ") line;
  if (s2 =? s1)%nat then None
  else Some (mkReq10 (take s1 line) (take (s2 - s1 - 1) (drop (s1 + 1) line)) (drop (s2 + 1) line) (r10_headers r) (r10_body r)).

Fixpoint trim10 (s : bytes) : bytes :=
  match s with c :: s' => if decide (c = chr " ") then trim10 s' else s | [] => [] end.

Definition header_line10 (r : Request10) (line : bytes) : option Request10 :=
  colon ← find_index (fun x => bool_decide (x = chr ":")) line;
  Some (mkReq10 (r10_method r) (r10_path r) (r10_version r)
          (<[take colon line := trim10 (drop (colon + 1) line)]> (r10_headers r)) (r10_body r)).

(** One round of the loop in [feed]: continue with a parser, or return with one; [None] when
    [std::stoul] throws. *)
Inductive round10 := Continue10 (p : Parser10) | Return10 (p : Parser10).

Definition p10_round (p : Parser10) : option round10 :=
  match p10_state p with
  | kRequestLine10 =>
      match find_sub CRLF (p10_buf p) with
      | None => Some (Return10 p)
      | Some pos =>
          let rest := drop (pos + 2) (p10_buf p) in
          match request_line10 (p10_req p) (take pos (p10_buf p)) with
          | None => Some (Return10 (mkP10 kError10 (p10_req p) rest (p10_body_remain p)))
          | Some r => Some (Continue10 (mkP10 kHeaders10 r rest (p10_body_remain p)))
          end
      end
  | kHeaders10 =>
      match find_sub CRLF (p10_buf p) with
      | None => Some (Return10 p)
      | Some pos =>
          let rest := drop (pos + 2) (p10_buf p) in
          if (pos =? 0)%nat then
            match r10_headers (p10_req p) !! bs "Content-Length" with
            | Some v => n ← stoul v; Some (Continue10 (mkP10 (if n >? 0 then kBody10 else kDone10) (p10_req p) rest n))
            | None => Some (Continue10 (mkP10 kDone10 (p10_req p) rest (p10_body_remain p)))
            end
          else
            match header_line10 (p10_req p) (take pos (p10_buf p)) with
            | None => Some (Return10 (mkP10 kError10 (p10_req p) rest (p10_body_remain p)))
            | Some r => Some (Continue10 (mkP10 kHeaders10 r rest (p10_body_remain p)))
            end
      end
  | kBody10 =>
      if zlen (p10_buf p) <? p10_body_remain p then Some (Return10 p)
      else
        let n := Z.to_nat (p10_body_remain p) in
        let r := p10_req p in
        Some (Continue10 (mkP10 kDone10 (mkReq10 (r10_method r) (r10_path r) (r10_version r) (r10_headers r) (take n (p10_buf p)))
                                (drop n (p10_buf p)) 0))
  | kDone10 | kError10 => Some (Return10 p)
  end.

Fixpoint p10_loop (fuel : nat) (p : Parser10) : option Parser10 :=
  match fuel with
  | O => Some p
  | S fuel =>
      match p10_round p with
      | None => None
      | Some (Continue10 p) => p10_loop fuel p
      | Some (Return10 p) => Some p
      end
  end.

Definition p10_append (p : Parser10) (data : bytes) : Parser10 :=
  mkP10 (p10_state p) (p10_req p) (p10_buf p ++ data) (p10_body_remain p).

(** Rounds that continue take two bytes off the buffer or end in [kDone]. *)
Definition p10_run (p : Parser10) : option Parser10 := p10_loop (length (p10_buf p) + 2) p.

(** The parser and the answer of [feed]. *)
Definition p10_feed (p : Parser10) (data : bytes) : option (Parser10 * bool) :=
  p ← p10_run (p10_append p data); Some (p, bool_decide (p10_state p = kDone10)).

(** ** Smooth weighted round robin *)

Record Upstream10 := mkUp10 { u10_name : bytes; u10_weight : Z; u10_current : Z; u10_effective : Z }.
Definition Upstream10_new (n : bytes) (w : Z) : Upstream10 := mkUp10 n w 0 w.

Record SmoothWRR := mkSwrr { sw_ups : list Upstream10; sw_total : Z }.
Definition SmoothWRR_new (ups : list Upstream10) : SmoothWRR :=
  mkSwrr ups (foldl (fun t u => t + u10_effective u) 0 ups).

Definition set_current (u : Upstream10) (c : Z) : Upstream10 := mkUp10 (u10_name u) (u10_weight u) c (u10_effective u).

(** The loop: raise every weight, remember the first greatest. *)
Fixpoint swrr_scan (i : nat) (best : option (nat * Z)) (ups : list Upstream10) : list Upstream10 * option (nat * Z) :=
  match ups with
  | [] => ([], best)
  | u :: ups =>
      let c := u10_current u + u10_effective u in
      let best := match best with
                  | None => Some (i, c)
                  | Some (_, b) => if c >? b then Some (i, c) else best
                  end in
      let '(us, best) := swrr_scan (S i) best ups in (set_current u c :: us, best)
  end.

(** The index picked and the state after; [None] when the assertion fails. *)
Definition swrr_pick (s : SmoothWRR) : option (nat * SmoothWRR) :=
  let '(us, best) := swrr_scan 0 None (sw_ups s) in
  match best with
  | None => None
  | Some (b, c) => Some (b, mkSwrr (alter (fun u => set_current u (u10_current u - sw_total s)) b us) (sw_total s))
  end.

Definition swrr_next (s : SmoothWRR) : option (bytes * SmoothWRR) :=
  '(b, s') ← swrr_pick s; u ← sw_ups s' !! b; Some (u10_name u, s').

(** ** The pool *)

Record ConnPool10 := mkPool10 { cp10_max : Z; cp10_created : Z; cp10_in_use : Z; cp10_idle : list Z }.
Definition ConnPool10_new (max_size : Z) : ConnPool10 := mkPool10 max_size 0 0 [].

(** [idle_.back()] is the last of the list. *)
Definition cp10_acquire (p : ConnPool10) : option Z * ConnPool10 :=
  match last (cp10_idle p) with
  | Some id => (Some id, mkPool10 (cp10_max p) (cp10_created p) (cp10_in_use p + 1) (take (length (cp10_idle p) - 1) (cp10_idle p)))
  | None =>
      if cp10_created p >=? cp10_max p then (None, p)
      else let c := cp10_created p + 1 in (Some c, mkPool10 (cp10_max p) c (cp10_in_use p + 1) [])
  end.

(** [None] when the assertion fails. *)
Definition cp10_release (p : ConnPool10) (id : Z) : option ConnPool10 :=
  if cp10_in_use p >? 0 then Some (mkPool10 (cp10_max p) (cp10_created p) (cp10_in_use p - 1) (cp10_idle p ++ [id])) else None.

Example proxy_demo :
  (fst <$> (p10_feed Parser10_new (bs "GET /x HTTP/1.1" ++ CRLF ++ bs "Content-Length:   2" ++ CRLF ++ CRLF ++ bs "hi!"))) =
  Some (mkP10 kDone10 (mkReq10 (bs "GET") (bs "/x") (bs "HTTP/1.1") {[ bs "Content-Length" := bs "2" ]} (bs "hi")) (bs "!") 0).
Proof. vm_compute. reflexivity. Qed.

(** ** Feeding in pieces *)

Definition p10_measure (p : Parser10) : nat := length (p10_buf p) + (if decide (p10_state p = kDone10) then 0 else 1).

(** A round that continues makes progress. *)
Lemma p10_round_measure p p' : p10_round p = Some (Continue10 p') -> (p10_measure p' < p10_measure p)%nat.
Proof.
  unfold p10_round, p10_measure. destruct (p10_state p) eqn:Es; [| |cbn [decide]|done..].
  3:{ destruct (_ <? _); [done|]. intros [= <-]. simpl. rewrite length_drop. repeat case_decide; simplify_eq; lia. }
  all: destruct (find_sub CRLF (p10_buf p)) as [pos|] eqn:Ef; [|done]; apply find_sub_bound in Ef; change (length CRLF) with 2%nat in Ef.
  - destruct (request_line10 _ _); [|done]. intros [= <-]. simpl. rewrite length_drop. repeat case_decide; simplify_eq; lia.
  - destruct (pos =? 0)%nat.
    + destruct (_ !! _) as [v|]; [destruct (stoul v) as [n|]; [|done]|]; intros [= <-]; simpl; rewrite length_drop;
        repeat case_decide; simplify_eq; lia.
    + destruct (header_line10 _ _); [|done]. intros [= <-]. simpl. rewrite length_drop. repeat case_decide; simplify_eq; lia.
Qed.

(** Enough fuel is enough. *)
Lemma p10_loop_fuel n : forall m p, (p10_measure p < n)%nat -> (p10_measure p < m)%nat -> p10_loop n p = p10_loop m p.
Proof.
  induction n as [|n IH]; intros [|m] p Hn Hm; [lia..|]. cbn [p10_loop].
  destruct (p10_round p) as [[p'|p']|] eqn:Er; [|done..]. apply p10_round_measure in Er. apply IH; lia.
Qed.

Lemma p10_measure_run p : (p10_measure p < length (p10_buf p) + 2)%nat.
Proof. unfold p10_measure. destruct (decide _); lia. Qed.

Lemma p10_run_round p : p10_run p =
  match p10_round p with None => None | Some (Continue10 p') => p10_run p' | Some (Return10 p') => Some p' end.
Proof.
  pose proof (p10_measure_run p) as Hn. unfold p10_run at 1.
  replace (length (p10_buf p) + 2)%nat with (S (length (p10_buf p) + 1)) in * by lia.
  generalize dependent (length (p10_buf p) + 1)%nat. intros n Hn. cbn [p10_loop]. destruct (p10_round p) as [[p'|p']|] eqn:Er; [|done..].
  apply p10_round_measure in Er. unfold p10_run. apply p10_loop_fuel; [lia|apply p10_measure_run].
Qed.

(** More input changes nothing about a round that has what it needs. *)
Definition on_round (f : Parser10 -> Parser10) (r : round10) : round10 :=
  match r with Continue10 p => Continue10 (f p) | Return10 p => Return10 (f p) end.

Lemma p10_round_append p b :
  p10_round p = Some (Return10 p) \/ p10_round (p10_append p b) = on_round (fun q => p10_append q b) <$> p10_round p.
Proof.
  unfold p10_round. cbn [p10_append p10_state p10_req p10_buf p10_body_remain]. destruct (p10_state p) eqn:Es; [| | |by left..].
  3:{ destruct (Z.ltb_spec (zlen (p10_buf p)) (p10_body_remain p)) as [Hl|Hl]; [by left|]. right. rewrite zlen_app.
      pose proof (zlen_nonneg b). destruct (Z.ltb_spec (zlen (p10_buf p) + zlen b) (p10_body_remain p)); [lia|].
      unfold zlen in Hl. cbn. unfold p10_append. simpl. rewrite take_app_le by lia. by rewrite drop_app_le by lia. }
  all: destruct (find_sub CRLF (p10_buf p)) as [pos|] eqn:Ef; [|by left]; right; rewrite (find_sub_app _ _ b _ Ef);
    apply find_sub_bound in Ef; change (length CRLF) with 2%nat in Ef; rewrite take_app_le, drop_app_le by lia.
  - by destruct (request_line10 _ _).
  - destruct (pos =? 0)%nat; [|by destruct (header_line10 _ _)]. destruct (_ !! _) as [v|]; [|done]. by destruct (stoul v).
Qed.

Lemma p10_run_append n : forall p b, (p10_measure p < n)%nat -> p10_run (p10_append p b) = (q ← p10_run p; p10_run (p10_append q b)).
Proof.
  induction n as [|n IH]; intros p b Hn; [lia|]. rewrite (p10_run_round p). destruct (p10_round_append p b) as [E|E].
  { rewrite E. done. }
  rewrite (p10_run_round (p10_append p b)), E. destruct (p10_round p) as [[p'|p']|] eqn:Er; [|..|done]; cbn [mbind option_bind on_round fmap option_fmap option_map].
  - apply p10_round_measure in Er. apply IH. lia.
  - (* the error state keeps the rest of the input *)
    assert (p' = p \/ p10_state p' = kError10) as [->|He].
    { unfold p10_round in Er. repeat case_match; simplify_eq; auto; destruct (stoul _); simplify_eq. }
    + rewrite p10_run_round, E. done.
    + rewrite p10_run_round. unfold p10_round. cbn [p10_append p10_state]. by rewrite He.
Qed.

(** However the input is cut, the parser and its last answer are those of feeding it at once;
    an exception is thrown in one case exactly when it is in the other. *)
Theorem parser10_chunking p a b :
  p10_feed p (a ++ b) = ('(q, _) ← p10_feed p a; p10_feed q b).
Proof.
  unfold p10_feed. assert (p10_append p (a ++ b) = p10_append (p10_append p a) b) as ->.
  { unfold p10_append. simpl. by rewrite app_assoc. }
  rewrite (p10_run_append _ _ _ (Nat.lt_succ_diag_r _)). by destruct (p10_run (p10_append p a)).
Qed.

(** ** Fairness of the round robin *)

Definition cur10 (s : SmoothWRR) (i : nat) : Z := match sw_ups s !! i with Some u => u10_current u | None => 0 end.
Definition wt10 (s : SmoothWRR) (i : nat) : Z := match sw_ups s !! i with Some u => u10_effective u | None => 0 end.

Definition raise10 (u : Upstream10) : Upstream10 := set_current u (u10_current u + u10_effective u).

Lemma swrr_scan_spec ups : forall i best us r, swrr_scan i best ups = (us, r) ->
  us = raise10 <$> ups /\
  match r with
  | None => best = None /\ ups = []
  | Some (b, c) =>
      (best = Some (b, c) \/ exists j u, ups !! j = Some u /\ b = (i + j)%nat /\ c = u10_current u + u10_effective u) /\
      (forall j u, ups !! j = Some u -> u10_current u + u10_effective u <= c) /\
      (forall b0 c0, best = Some (b0, c0) -> c0 <= c)
  end.
Proof.
  induction ups as [|u ups IH]; intros i best us r; cbn [swrr_scan].
  { intros [= <- <-]. split; [done|]. destruct best as [[b c]|]; [|done]. split_and!; [by left|done|]. intros ? ? [= <- <-]. lia. }
  set (best' := match best with None => _ | Some _ => _ end). destruct (swrr_scan (S i) best' ups) as [us' r'] eqn:E. intros [= <- <-].
  destruct (IH _ _ _ _ E) as [-> Hr]. split; [done|].
  assert (exists b1 c1, best' = Some (b1, c1) /\ u10_current u + u10_effective u <= c1 /\
    (best = Some (b1, c1) \/ (b1 = i /\ c1 = u10_current u + u10_effective u)) /\ (forall b0 c0, best = Some (b0, c0) -> c0 <= c1)) as (b1 & c1 & Hb & Hu & Ho & Hm).
  { unfold best'. destruct best as [[b0 c0]|]; [|by eexists _, _; split_and!; [done|lia|by right|done]].
    destruct (Z.gtb_spec (u10_current u + u10_effective u) c0); eexists _, _; (split_and!; [done|lia|by auto|]); intros ? ? [= <- <-]; lia. }
  rewrite Hb in Hr. destruct r' as [[b c]|]; [|by destruct Hr]. destruct Hr as (Hfrom & Hall & Hmax). specialize (Hmax _ _ eq_refl). split_and!.
  - destruct Hfrom as [[= <- <-]|(j & x & Hj & -> & ->)].
    + destruct Ho as [Ho|[-> ->]]; [by left|]. right. exists 0%nat, u. split_and!; [done|lia|done].
    + right. exists (S j), x. split_and!; [done|lia|done].
  - intros [|j] x Hx; simpl in Hx; [injection Hx as <-; lia|by eapply Hall].
  - intros b0 c0 Hb0. specialize (Hm _ _ Hb0). lia.
Qed.

(** One pick: all weights rise, a greatest one pays the total. *)
Lemma swrr_pick_spec s : sw_ups s <> [] -> exists b s', swrr_pick s = Some (b, s') /\ sw_total s' = sw_total s /\
  length (sw_ups s') = length (sw_ups s) /\ (b < length (sw_ups s))%nat /\
  (forall j, (j < length (sw_ups s))%nat -> wt10 s' j = wt10 s j /\
     cur10 s' j = cur10 s j + wt10 s j - (if decide (j = b) then sw_total s else 0) /\ cur10 s j + wt10 s j <= cur10 s b + wt10 s b).
Proof.
  intros Hne. unfold swrr_pick. destruct (swrr_scan 0 None (sw_ups s)) as [us r] eqn:E. apply swrr_scan_spec in E as [-> Hr].
  destruct r as [[b c]|]; [|by destruct Hr]. destruct Hr as ([?|(j0 & ub & Hb & -> & ->)] & Hall & _); [done|]. rewrite Nat.add_0_l.
  eexists _, _. split; [done|]. cbn [sw_ups sw_total]. rewrite length_alter, length_fmap. split_and!; [done|done|by eapply lookup_lt_Some|].
  intros j Hj. destruct (lookup_lt_is_Some_2 _ _ Hj) as [u Hu]. unfold wt10, cur10. cbn [sw_ups]. rewrite Hu, Hb.
  specialize (Hall _ _ Hu). destruct (decide (j = j0)) as [->|Hn].
  - assert (u = ub) as -> by congruence. rewrite list_lookup_alter_eq, list_lookup_fmap, Hb. simpl. lia.
  - rewrite list_lookup_alter_ne, list_lookup_fmap, Hu by done. simpl. lia.
Qed.

Fixpoint swrr_run (n : nat) (s : SmoothWRR) : option (list nat * SmoothWRR) :=
  match n with
  | O => Some ([], s)
  | S n => '(rs, s) ← swrr_run n s; '(b, s) ← swrr_pick s; Some (rs ++ [b], s)
  end.

Definition times10 (rs : list nat) (i : nat) : Z := zlen (filter (fun b => b = i) rs).

Lemma times10_snoc rs b i : times10 (rs ++ [b]) i = times10 rs i + (if decide (i = b) then 1 else 0).
Proof.
  unfold times10. rewrite filter_app, zlen_app. f_equal. rewrite filter_cons. repeat case_decide; subst; done.
Qed.

Section Fair.
Context (ups : list Upstream10) (Hnew : Forall (fun u => u10_current u = 0 /\ 0 <= u10_effective u) ups).
Let s0 := SmoothWRR_new ups.
Let W := sw_total s0.
Context (HW : 0 < W).

Lemma total10 : W = zsum (wt10 s0) (length ups).
Proof.
  unfold W, s0, SmoothWRR_new, wt10. cbn [sw_ups sw_total]. clear. induction ups as [|u l IH] using rev_ind; [done|].
  rewrite foldl_snoc, length_app, Nat.add_comm. cbn [length Nat.add zsum]. rewrite IH, list_lookup_middle by done. f_equal.
  apply zsum_ext. intros i Hi. by rewrite lookup_app_l.
Qed.

(** After [t] picks. *)
Record fair_inv (t : Z) (rs : list nat) (s : SmoothWRR) : Prop := {
  fi_len : length (sw_ups s) = length ups;
  fi_total : sw_total s = W;
  fi_wt : forall i, (i < length ups)%nat -> wt10 s i = wt10 s0 i;
  fi_cur : forall i, (i < length ups)%nat -> cur10 s i = t * wt10 s0 i - W * times10 rs i;
  fi_low : forall i, (i < length ups)%nat -> - W < cur10 s i;
  fi_sum : zsum (cur10 s) (length ups) = 0;
}.

Lemma fair_start : fair_inv 0 [] s0.
Proof.
  assert (forall i, cur10 s0 i = 0) as H0.
  { intros i. unfold cur10, s0. cbn [sw_ups SmoothWRR_new]. destruct (ups !! i) as [u|] eqn:E; [|done].
    by apply (Forall_lookup_1 _ _ _ _ Hnew) in E as [? _]. }
  split; [done|done|done|intros i _; rewrite H0; change (times10 [] i) with 0; lia|intros i _; rewrite H0; lia|].
  rewrite (zsum_ext _ (fun _ => 0)) by (intros; apply H0). clear. induction (length ups) as [|n IH]; [done|]. cbn [zsum]. lia.
Qed.

Lemma fair_step t rs s : fair_inv t rs s -> exists b s', swrr_pick s = Some (b, s') /\ fair_inv (t + 1) (rs ++ [b]) s'.
Proof.
  intros [Hl Ht Hw Hc Hlow Hs]. destruct (swrr_pick_spec s) as (b & s' & Hp & Ht' & Hl' & Hb & Hj).
  { intros E. rewrite E in Hl. assert (ups = []) as Eu by (by destruct ups). unfold W, s0 in HW. rewrite Eu in HW. done. }
  exists b, s'. split; [done|]. rewrite Hl in *. rewrite Ht in *.
  assert (zsum (fun j => cur10 s j + wt10 s j) (length ups) = W) as Hsum.
  { rewrite (zsum_ext _ (fun j => 1 * cur10 s j + 1 * wt10 s j)) by (intros; lia). rewrite zsum_lin, Hs, total10.
    rewrite (zsum_ext (wt10 s) (wt10 s0)) by done. lia. }
  assert (0 < cur10 s b + wt10 s b) as Hpos.
  { destruct (zsum_pos (fun j => cur10 s j + wt10 s j) (length ups)) as (i & Hi & Hi0); [lia|]. destruct (Hj i Hi) as (_ & _ & ?). lia. }
  assert (forall i, (i < length ups)%nat -> 0 <= wt10 s i) as Hnn.
  { intros i Hi. rewrite Hw by done. unfold wt10, s0. cbn [sw_ups SmoothWRR_new]. destruct (ups !! i) eqn:E; [|lia].
    by apply (Forall_lookup_1 _ _ _ _ Hnew) in E as [_ ?]. }
  split; [lia|lia|intros i Hi; by rewrite (proj1 (Hj i Hi)), Hw|..].
  - intros i Hi. destruct (Hj i Hi) as (_ & -> & _). rewrite times10_snoc, Hc, Hw by done. destruct (decide _); lia.
  - intros i Hi. destruct (Hj i Hi) as (_ & -> & _). specialize (Hlow i Hi). specialize (Hnn i Hi). destruct (decide _) as [->|]; lia.
  - rewrite (zsum_upd (fun j => cur10 s j + wt10 s j) _ _ b Hb).
    + destruct (Hj b Hb) as (_ & -> & _). rewrite decide_True by done. lia.
    + intros i Hi Hne. destruct (Hj i Hi) as (_ & -> & _). rewrite decide_False by done. lia.
Qed.

Lemma fair_run n : exists rs s, swrr_run n s0 = Some (rs, s) /\ fair_inv (Z.of_nat n) rs s.
Proof.
  induction n as [|n (rs & s & E & H)]; [eexists _, _; split; [done|apply fair_start]|].
  destruct (fair_step _ _ _ H) as (b & s' & Hp & H'). exists (rs ++ [b]), s'. cbn [swrr_run]. rewrite E. cbn [mbind option_bind]. rewrite Hp.
  split; [done|]. by rewrite Nat2Z.inj_succ.
Qed.

(** A period of total-weight many picks selects every upstream as often as its weight says and
    brings all current weights back to zero; at every moment they stay within the number of
    upstreams times the total, so the [int]s do not overflow for reasonable weights. *)
Theorem swrr_course_fair :
  (exists rs s, swrr_run (Z.to_nat W) s0 = Some (rs, s) /\
     forall i u, ups !! i = Some u -> times10 rs i = u10_effective u /\ cur10 s i = 0) /\
  (forall n rs s i, swrr_run n s0 = Some (rs, s) -> (i < length ups)%nat -> - W < cur10 s i <= zlen ups * W).
Proof.
  split.
  - destruct (fair_run (Z.to_nat W)) as (rs & s & E & [Hl Ht Hw Hc Hlow Hs]). exists rs, s. split; [done|]. rewrite Z2Nat.id in Hc by lia.
    assert (forall i, (i < length ups)%nat -> times10 rs i = wt10 s0 i) as Heq.
    { apply zsum_eq.
      - intros i Hi. specialize (Hlow i Hi). rewrite Hc in Hlow by done. nia.
      - rewrite (zsum_ext _ (fun i => W * wt10 s0 i + - W * times10 rs i)) in Hs by (intros; rewrite Hc by done; lia).
        rewrite zsum_lin in Hs. nia. }
    intros i u Hu. pose proof (lookup_lt_Some _ _ _ Hu) as Hi. rewrite Hc, Heq by done. split; [|lia].
    unfold wt10, s0. cbn [sw_ups SmoothWRR_new]. by rewrite Hu.
  - intros n rs s i E Hi. destruct (fair_run n) as (rs' & s' & E' & [Hl Ht Hw Hc Hlow Hs]). rewrite E in E'. injection E' as <- <-.
    split; [by apply Hlow|]. pose proof (zsum_single (cur10 s) (length ups) i W ltac:(lia) Hi) as H. unfold zlen. rewrite Hs in H.
    assert (forall j, (j < length ups)%nat -> - W <= cur10 s j) as Hj by (intros j Hj; specialize (Hlow j Hj); lia). specialize (H Hj). lia.
Qed.
End Fair.

(** ** The pool lends each connection to one client at a time *)

(** The ids lent out, next to the pool. *)
Record pool10_ok (p : ConnPool10) (out : list Z) : Prop := {
  po_distinct : NoDup (cp10_idle p ++ out);
  po_ids : forall id, id ∈ cp10_idle p ++ out -> 1 <= id <= cp10_created p;
  po_count : zlen (cp10_idle p) + zlen out = cp10_created p;
  po_use : cp10_in_use p = zlen out;
  po_max : cp10_created p <= cp10_max p;
}.

Lemma pool10_new_ok max : 0 <= max -> pool10_ok (ConnPool10_new max) [].
Proof. intros Hm. split; [constructor|by intros id ?%elem_of_nil|done|done|done]. Qed.

(** Acquiring gives an id nobody holds, and fails only when all [max] are lent. *)
Theorem pool10_acquire p out : pool10_ok p out ->
  match cp10_acquire p with
  | (Some id, p') => id ∉ out /\ pool10_ok p' (id :: out)
  | (None, p') => p' = p /\ zlen out = cp10_max p
  end.
Proof.
  intros [Hd Hi Hc Hu Hm]. unfold cp10_acquire. destruct (last (cp10_idle p)) as [id|] eqn:El.
  - apply last_Some in El as [l El]. rewrite El in *. rewrite length_app. cbn [length].
    replace (length l + 1 - 1)%nat with (length l) by lia. rewrite take_app_length. rewrite <- app_assoc in *. cbn [app] in *.
    assert (id ∉ out) as Hn. { apply NoDup_app in Hd as (_ & _ & Hd). by apply NoDup_cons in Hd as [? _]. }
    split; [done|]. rewrite zlen_app, zlen_cons, zlen_nil in Hc. split; cbn [cp10_idle cp10_created cp10_in_use cp10_max]; rewrite ?zlen_cons; [done|done|lia|lia|done].
  - apply last_None in El. rewrite El in *. rewrite zlen_nil in Hc. cbn [app] in *. rewrite Z.geb_leb.
    destruct (Z.leb_spec (cp10_max p) (cp10_created p)); [split; [done|lia]|].
    assert (cp10_created p + 1 ∉ out) as Hn by (intros Hin%Hi; lia).
    split; [done|]. split; cbn [cp10_idle cp10_created cp10_in_use cp10_max app]; rewrite ?zlen_cons, ?zlen_nil; [by constructor| |lia|lia|lia].
    intros id [->|Hin]%elem_of_cons; [pose proof (zlen_nonneg out); lia|]. specialize (Hi id Hin). lia.
Qed.

(** Releasing an id that is held always succeeds. *)
Theorem pool10_release p out1 id out2 : pool10_ok p (out1 ++ id :: out2) ->
  exists p', cp10_release p id = Some p' /\ pool10_ok p' (out1 ++ out2).
Proof.
  intros [Hd Hi Hc Hu Hm]. unfold cp10_release. rewrite zlen_app, zlen_cons in *. pose proof (zlen_nonneg out1). pose proof (zlen_nonneg out2).
  destruct (Z.gtb_spec (cp10_in_use p) 0); [|lia]. eexists. split; [done|].
  assert ((cp10_idle p ++ [id]) ++ out1 ++ out2 ≡ₚ cp10_idle p ++ out1 ++ id :: out2) as Hp.
  { rewrite <- app_assoc. cbn [app]. by rewrite Permutation_middle. }
  split; cbn [cp10_idle cp10_created cp10_in_use cp10_max].
  - by rewrite Hp.
  - intros x. rewrite Hp. apply Hi.
  - rewrite !zlen_app, zlen_cons, zlen_nil. lia.
  - rewrite zlen_app. lia.
  - done.
Qed.
