(* ===== verification/HandLru.v ===== *)
(** * The handwritten LRU cache of the course

    [practice/handwrite/test_lru_handwrite.cpp]: the cache of [utils/lru_cache.h] written
    another way: an update keeps its list node and moves it, and room is made before the
    insertion instead of after it.  Both implement the same bounded recency list. *)

From Stdlib Require Import ZArith Lia.
From stdpp Require Import base numbers strings list gmap.
From S2P Require Import Prelude Slice Caches.
Local Open Scope Z_scope.

Import LRU.

Section HandLru.
Context {K : Type} `{Countable K} {V : Type}.
Implicit Types (c : LRUCache K V) (l : list (nat * (K * V))).

Definition hl_get c (key : K) : LRUCache K V * option V :=
  match map_ c !! key with
  | None => (c, None)
  | Some it =>
      let l := splice_front it (list_ c) in
      (mkLRU (capacity c) l (map_ c) (next_node c), snd <$> node_at it l)
  end.

(** [it->second->second = value] *)
Definition set_value (it : nat) (value : V) l : list (nat * (K * V)) :=
  (fun n => if decide (n.1 = it) then (n.1, (n.2.1, value)) else n) <$> l.

(** [None]: [back()] of an empty list. *)
Definition hl_put c (key : K) (value : V) : option (LRUCache K V) :=
  match map_ c !! key with
  | Some it => Some (mkLRU (capacity c) (splice_front it (set_value it value (list_ c))) (map_ c) (next_node c))
  | None =>
      '(l, m) ← (if zlen (list_ c) >=? capacity c
                 then back ← last (list_ c); Some (removelast (list_ c), delete back.2.1 (map_ c))
                 else Some (list_ c, map_ c));
      Some (mkLRU (capacity c) ((next_node c, (key, value)) :: l) (<[key := next_node c]> m) (S (next_node c)))
  end.

Definition hl_size c : Z := zlen (list_ c).

(** ** It implements the recency list *)

Lemma set_value_ids it v l : (set_value it v l).*1 = l.*1.
Proof. unfold set_value. rewrite <- list_fmap_compose. apply list_fmap_ext. intros i n _. simpl. by destruct (decide _). Qed.

Lemma set_value_elem it v l i k : (exists x, (i, (k, x)) ∈ set_value it v l) <-> (exists x, (i, (k, x)) ∈ l).
Proof.
  unfold set_value. split.
  - intros (x & ([j [k' y]] & E & Hin)%list_elem_of_fmap). simpl in E. exists y. destruct (decide (j = it)); by simplify_eq.
  - intros (x & Hin). destruct (decide (i = it)) as [->|Hne].
    + exists v. apply list_elem_of_fmap. exists (it, (k, x)). simpl. by rewrite decide_True.
    + exists x. apply list_elem_of_fmap. exists (i, (k, x)). simpl. by rewrite decide_False.
Qed.

Lemma coherent_set_value it v l m next : coherent l m next -> coherent (set_value it v l) m next.
Proof.
  intros Hc. split.
  - rewrite set_value_ids. apply (co_ids _ _ _ Hc).
  - intros [i [k x]] Hin. simpl. assert (exists x, (i, (k, x)) ∈ l) as [y Hy] by (apply (set_value_elem it v); by exists x).
    by apply (co_next _ _ _ Hc) in Hy.
  - intros k i. rewrite set_value_elem. apply (co_map _ _ _ Hc).
Qed.

Lemma set_value_erase it v l : erase_node it (set_value it v l) = erase_node it l.
Proof.
  unfold set_value, erase_node. induction l as [|n l IH]; [done|]. cbn [fmap list_fmap]. rewrite !filter_cons, <- IH.
  destruct (decide (n.1 = it)) as [E|E]; simpl; repeat case_decide; (done || by (exfalso; auto)).
Qed.

Lemma set_value_node it k x v l m next : coherent l m next -> node_at it l = Some (k, x) -> node_at it (set_value it v l) = Some (k, v).
Proof.
  intros Hc. unfold node_at. destruct (filter (fun n => n.1 = it) l) as [|[i y] r] eqn:E; [done|]. simpl. intros [= ->].
  assert ((i, (k, x)) ∈ filter (fun n => n.1 = it) l) as [Ei Hin]%list_elem_of_filter by (rewrite E; left). simpl in Ei. subst i.
  apply node_at_Some; [rewrite set_value_ids; apply (co_ids _ _ _ Hc)|]. apply list_elem_of_fmap. exists (it, (k, x)). simpl. by rewrite decide_True.
Qed.

Lemma hl_put_refines cap c e k v : 0 < cap -> rep cap c e -> exists c', hl_put c k v = Some c' /\ rep cap c' (spec_put cap e k v).
Proof.
  intros Hpos [Hcap Hc He Hb]. unfold hl_put, spec_put. pose proof (coherent_lookup _ _ _ k Hc) as Hl. rewrite He in Hl.
  destruct (map_ c !! k) as [it|] eqn:Hk.
  - destruct Hl as (x & Hn & Ha & Hw). eexists. split; [done|].
    pose proof (coherent_splice _ _ _ k it (coherent_set_value it v _ _ _ Hc) Hk) as Hs. unfold splice_front in *.
    rewrite (set_value_node _ _ _ _ _ _ _ Hc Hn), set_value_erase in *.
    assert (S (length (without k e)) <= length e)%nat as Hlen.
    { rewrite <- Hw, <- He. unfold entries_of. rewrite !length_fmap. pose proof (coherent_size _ _ _ Hs) as H1.
      pose proof (coherent_size _ _ _ Hc) as H2. simpl in H1. lia. }
    split; cbn [capacity list_ map_ next_node]; [done|done| |].
    + rewrite take_ge by (simpl; lia). rewrite <- Hw. done.
    + rewrite length_take. lia.
  - destruct Hl as [_ Hw]. rewrite Hw. assert (zlen (list_ c) = zlen e) as Hlen by (rewrite <- He; unfold entries_of, zlen; by rewrite length_fmap).
    rewrite Hlen, Hcap, Z.geb_leb. unfold zlen in *. destruct (Z.leb_spec cap (Z.of_nat (length e))) as [Hfull|Hroom].
    + pose proof (evict_last_spec (list_ c) (map_ c) _ Hc) as Hev. unfold evict_last in Hev.
      destruct (last (list_ c)) as [back|] eqn:El; [|apply last_None in El; rewrite El in Hlen; simpl in Hlen; lia].
      destruct Hev as [Hc' He']; [by intros Hn; rewrite Hn in El|]. cbn [mbind option_bind]. eexists. split; [done|].
      assert (delete back.2.1 (map_ c) !! k = None) as Hk' by (apply lookup_delete_None; by right).
      split; cbn [capacity list_ map_ next_node]; [done|by apply coherent_push| |rewrite length_take; simpl; lia].
      replace (Z.to_nat cap) with (S (length (list_ c) - 1)) by lia. cbn [take]. rewrite <- He, <- He'. done.
    + cbn [mbind option_bind]. eexists. split; [done|]. split; cbn [capacity list_ map_ next_node]; [done|by apply coherent_push| |rewrite length_take; simpl; lia].
      rewrite take_ge by (simpl; lia). by rewrite <- He.
Qed.

(** ** The two caches are interchangeable *)

Definition hl_step c (o : @op K V) : option (LRUCache K V * option V) :=
  match o with
  | Get k => Some (hl_get c k)
  | Put k v => c ← hl_put c k v; Some (c, None)
  | Erase k => None
  end.

Fixpoint hl_run c (os : list (@op K V)) : option (LRUCache K V * list (option V)) :=
  match os with
  | [] => Some (c, [])
  | o :: os => '(c, r) ← hl_step c o; '(c, rs) ← hl_run c os; Some (c, r :: rs)
  end.

Definition no_erase (os : list (@op K V)) : Prop := Forall (fun o => match o with Erase _ => False | _ => True end) os.

Lemma hl_run_spec cap os : 0 < cap -> no_erase os -> forall c e, rep cap c e ->
  exists c', hl_run c os = Some (c', (spec_run cap e os).2) /\ rep cap c' (spec_run cap e os).1.
Proof.
  intros Hpos. induction 1 as [|o os Ho Hos IH]; intros c e Hr; [by exists c|]. cbn [hl_run spec_run].
  destruct o as [k|k v|k]; [| |done]; cbn [hl_step spec_step].
  - destruct (get_refines _ _ _ k Hr) as [Hr' Hres]. change (get c k) with (hl_get c k) in *. destruct (hl_get c k) as [c1 r1], (spec_get e k) as [e1 r1'].
    cbn [fst snd] in *. subst r1'. cbn [mbind option_bind]. destruct (IH _ _ Hr') as (c' & -> & Hr2). exists c'. cbn [mbind option_bind].
    by destruct (spec_run cap e1 os).
  - destruct (hl_put_refines _ _ _ k v Hpos Hr) as (c1 & -> & Hr'). cbn [mbind option_bind]. destruct (IH _ _ Hr') as (c' & -> & Hr2).
    exists c'. cbn [mbind option_bind]. by destruct (spec_run cap (spec_put cap e k v) os).
Qed.

End HandLru.

(** Over any sequence of gets and puts, with room for at least one entry, the handwritten cache
    answers as the store's. *)
Theorem hand_lru_equivalent {K} `{Countable K} {V} (cap : Z) (os : list (@op K V)) : 0 < cap -> no_erase os ->
  exists c', hl_run (LRUCache_new cap) os = Some (c', (run (LRUCache_new cap) os).2).
Proof.
  intros Hpos Hos. destruct (hl_run_spec cap os Hpos Hos _ _ (rep_new cap ltac:(lia))) as (c' & E & _). exists c'. rewrite E.
  pose proof (lru_cache_refines cap os ltac:(lia)) as Hr. destruct (run (LRUCache_new cap) os), (spec_run cap [] os).
  destruct Hr as (-> & _). done.
Qed.

(** Without room the first insertion takes the last element of an empty list. *)
Theorem hand_lru_zero_capacity : hl_put (LRUCache_new 0 : LRUCache nat nat) 1%nat 1%nat = None.
Proof. reflexivity. Qed.
