(* ===== verification/HandPool.v ===== *)
(** * The handwritten thread pool of the course

    [practice/handwrite/test_thread_pool_handwrite.cpp].  The pool differs from
    [utils/thread_pool.h] (modelled in [Reactor], whose states and atomic actions are used
    here) in one place: a worker has no test at the head of its loop and leaves only when the
    pool is stopped and the queue is empty.  So queued tasks are drained; the destructor still
    stores [stop_] and notifies without the mutex, so the wakeup can be lost. *)

From Stdlib Require Import Lia.
From stdpp Require Import base numbers list.
From S2P Require Import Prelude Reactor.

Section HandPool.
Context {T : Type}.
Implicit Types (p : ThreadPool T).

(** One atomic action of a worker, of [submit] or of the destructor before it joins.  A worker
    at the head of its loop takes the mutex and evaluates the predicate. *)
Inductive hand_step : ThreadPool T -> tp_action T -> ThreadPool T -> Prop :=
| hd_submit p t : mutex_free p = true -> hand_step p (TSubmit t) (submit p t)
| hd_notify p i : 0 < tp_notify_one p -> tp_workers p !! i = Some WAsleep ->
    hand_step p TOther (notified (set_worker p i WReady))
| hd_notify_none p : 0 < tp_notify_one p -> Forall (fun w => w <> WAsleep) (tp_workers p) ->
    hand_step p TOther (notified p)
| hd_store_stop p : hand_step p TOther (tp_stop p)
| hd_broadcast p : tp_notify_all p = true -> hand_step p TOther (wake_all p)
| hd_enter p i : tp_workers p !! i = Some WHead -> hand_step p TOther (set_worker p i WReady)
| hd_park p i : tp_workers p !! i = Some WReady -> mutex_free p = true -> tp_tasks p = [] -> tp_running p = true ->
    hand_step p TOther (set_worker p i WParking)
| hd_sleep p i : tp_workers p !! i = Some WParking -> hand_step p TOther (set_worker p i WAsleep)
| hd_spurious p i : tp_workers p !! i = Some WAsleep -> hand_step p TOther (set_worker p i WReady)
| hd_leave p i : tp_workers p !! i = Some WReady -> mutex_free p = true -> tp_tasks p = [] -> tp_running p = false ->
    hand_step p TOther (set_worker p i WExited)
| hd_take p i t ts : tp_workers p !! i = Some WReady -> mutex_free p = true -> tp_tasks p = t :: ts ->
    hand_step p (TStart t) (pop_task p i t ts)
| hd_done p i t : tp_workers p !! i = Some (WBusy t) -> hand_step p (TFinish t) (set_worker p i WHead).

Inductive hand_run : ThreadPool T -> list (tp_action T) -> ThreadPool T -> Prop :=
| hand_nil p : hand_run p [] p
| hand_snoc p as_ p1 a p2 : hand_run p as_ p1 -> hand_step p1 a p2 -> hand_run p (as_ ++ [a]) p2.

(** Its actions are those of the other pool, but for the head of the loop. *)
Lemma hand_step_cases p a p' : hand_step p a p' ->
  tp_step p a p' \/ (a = TOther /\ exists i, tp_workers p !! i = Some WHead /\ p' = set_worker p i WReady).
Proof. destruct 1; try (left; by econstructor; eauto). right. eauto. Qed.

Lemma hand_step_inv as_ p a p' : tp_inv as_ p -> hand_step p a p' -> tp_inv (as_ ++ [a]) p'.
Proof.
  intros Hi [Hs|(-> & i & Hw & ->)]%hand_step_cases; [by eapply tp_step_inv|]. destruct Hi as [Hf Ho].
  destruct (trace_snoc as_ (@TOther T)) as (Es & Et & Ef). split; [rewrite Es, Et, Hf|rewrite Et, Ef, Ho]; cbn; rewrite !app_nil_r; [done|].
  symmetry. by eapply busy_idle.
Qed.

Lemma hand_run_inv n as_ p : hand_run (ThreadPool_new n) as_ p -> tp_inv as_ p.
Proof.
  intros H. remember (ThreadPool_new n) as p0 eqn:E0. induction H as [p|p as_ p1 a p2 H IH Hs].
  - subst. split; [done|]. simpl. by induction n.
  - eapply hand_step_inv; [|done]. by apply IH.
Qed.

(** Tasks start once and in the order of submission; when a worker leaves, every task submitted
    until then has been started, and when all have left they are finished too. *)
Theorem hand_pool_drains n as_ p : hand_run (ThreadPool_new n) as_ p ->
  started as_ `prefix_of` tasks_submitted as_ /\
  (forall a p', hand_step p a p' -> WExited ∉ tp_workers p -> WExited ∈ tp_workers p' -> started as_ = tasks_submitted as_) /\
  (Forall (fun w => w = WExited) (tp_workers p) -> started as_ ≡ₚ finished as_).
Proof.
  intros H. destruct (hand_run_inv _ _ _ H) as [Hf Ho]. split_and!.
  - exists (tp_tasks p). exact Hf.
  - intros a p' Hs Hn Hin. assert (tp_tasks p = []) as Ht; [|by rewrite Hf, Ht, app_nil_r].
    destruct Hs as [p t Hm|p i Hp Hi|p Hp Ha|p|p Ha|p i Hi|p i Hi Hm Ht Hr|p i Hi|p i Hi|p i Hi Hm Ht Hr|p i t ts Hi Hm Ht|p i t Hi];
      cbn in Hin; try done; try (apply elem_of_update in Hin as [?|?]; done).
    by apply wake_elem in Hin.
  - intros Hall. rewrite Ho. enough (busy (tp_workers p) = []) as -> by by rewrite app_nil_r.
    clear -Hall. induction Hall as [|w ws -> _ IH]; [done|]. exact IH.
Qed.

(** A worker between its test and its sleep misses the notification of the destructor, which
    then waits for it for ever: the queue is empty and no step but a spurious wakeup or a
    further [submit] can follow. *)
Theorem hand_pool_can_hang :
  exists as_ p, hand_run (ThreadPool_new 1) as_ p /\
    tp_running p = false /\ tp_workers p = [WAsleep] /\ tp_notify_all p = false /\ tp_notify_one p = 0 /\ tp_tasks p = [].
Proof.
  pose (p0 := ThreadPool_new 1 : ThreadPool T).
  pose (p1 := set_worker p0 0 WReady). pose (p2 := set_worker p1 0 WParking). pose (p3 := tp_stop p2).
  pose (p4 := wake_all p3). pose (p5 := set_worker p4 0 WAsleep).
  exists ((((([] ++ [TOther]) ++ [TOther]) ++ [TOther]) ++ [TOther]) ++ [TOther]), p5. split; [|done].
  apply hand_snoc with p4; [|by apply hd_sleep]. apply hand_snoc with p3; [|by apply hd_broadcast].
  apply hand_snoc with p2; [|by apply hd_store_stop]. apply hand_snoc with p1; [|by apply hd_park].
  apply hand_snoc with p0; [constructor|by apply hd_enter].
Qed.

End HandPool.
