(* ===== verification/CourseModern.v ===== *)
(** * Pools, channels and caches of the course: modules 3, 4 and 13

    [practice/module03_modern_cpp/main.cpp]: a thread pool whose destructor stops it under the
    mutex, a lock-free ring (its unique pointer is in [Ownership]).
    [practice/module04_go_ts_concepts/main.cpp]: a channel that can be closed.
    [practice/module13_interview/main.cpp]: a cache.

    The pool and the channel use the states and atomic actions of [Reactor]; in contrast to
    the pools of [utils/thread_pool.h] and of [handwrite/] their stop cannot be missed. *)

From Stdlib Require Import ZArith Lia.
From stdpp Require Import base numbers strings list gmap.
From S2P Require Import Prelude Slice Caches Reactor SpscQueue HandLru HandPool.

(** ** The pool of module 3 and the channel of module 4

    A worker that calls [Recv] in a loop is a worker of the pool: the queue is the channel's,
    [closed_] the negation of [running], a value received is a task started and the answer
    [nullopt] is the end of the loop. *)

Section LockedStop.
Context {T : Type}.
Implicit Types (p : ThreadPool T).

(** One atomic action of [workerLoop] (of [Recv]) or of a pending notification. *)
Inductive wk_step : ThreadPool T -> tp_action T -> ThreadPool T -> Prop :=
| wk_notify p i : 0 < tp_notify_one p -> tp_workers p !! i = Some WAsleep ->
    wk_step p TOther (notified (set_worker p i WReady))
| wk_notify_none p : 0 < tp_notify_one p -> Forall (fun w => w <> WAsleep) (tp_workers p) -> wk_step p TOther (notified p)
| wk_broadcast p : tp_notify_all p = true -> wk_step p TOther (wake_all p)
| wk_enter p i : tp_workers p !! i = Some WHead -> wk_step p TOther (set_worker p i WReady)
| wk_park p i : tp_workers p !! i = Some WReady -> mutex_free p = true -> tp_tasks p = [] -> tp_running p = true ->
    wk_step p TOther (set_worker p i WParking)
| wk_sleep p i : tp_workers p !! i = Some WParking -> wk_step p TOther (set_worker p i WAsleep)
| wk_spurious p i : tp_workers p !! i = Some WAsleep -> wk_step p TOther (set_worker p i WReady)
| wk_leave p i : tp_workers p !! i = Some WReady -> mutex_free p = true -> tp_tasks p = [] -> tp_running p = false ->
    wk_step p TOther (set_worker p i WExited)
| wk_take p i t ts : tp_workers p !! i = Some WReady -> mutex_free p = true -> tp_tasks p = t :: ts ->
    wk_step p (TStart t) (pop_task p i t ts)
| wk_done p i t : tp_workers p !! i = Some (WBusy t) -> wk_step p (TFinish t) (set_worker p i WHead).

(** [submit] asserts that the pool is not stopped; the destructor stops it under the mutex. *)
Inductive m03_step : ThreadPool T -> tp_action T -> ThreadPool T -> Prop :=
| m03_submit p t : mutex_free p = true -> tp_running p = true -> m03_step p (TSubmit t) (submit p t)
| m03_stop p : mutex_free p = true -> m03_step p TOther (tp_stop p)
| m03_worker p a p' : wk_step p a p' -> m03_step p a p'.

Definition m03_new (n : nat) : ThreadPool T := ThreadPool_new (if bool_decide (n = 0) then 1 else n).

Inductive m03_run : ThreadPool T -> list (tp_action T) -> ThreadPool T -> Prop :=
| m03_nil p : m03_run p [] p
| m03_snoc p as_ p1 a p2 : m03_run p as_ p1 -> m03_step p1 a p2 -> m03_run p (as_ ++ [a]) p2.

Lemma m03_step_hand p a p' : m03_step p a p' -> hand_step p a p'.
Proof. destruct 1 as [p t Hm Hr|p Hm|p a p' Hw]; [by constructor|by constructor|]. destruct Hw; by econstructor. Qed.

Lemma m03_run_inv n as_ p : m03_run (ThreadPool_new n) as_ p -> tp_inv as_ p.
Proof.
  intros H. apply (hand_run_inv n). remember (ThreadPool_new n) as p0. induction H as [|p as_ p1 a p2 H IH Hs]; [constructor|].
  eapply hand_snoc; [by apply IH|by apply m03_step_hand].
Qed.

(** After the stop nobody is between its test and its sleep, and after the broadcast nobody
    sleeps. *)
Record stop_seen (p : ThreadPool T) : Prop := {
  ss_parking : tp_running p = false -> WParking ∉ tp_workers p;
  ss_asleep : tp_running p = false -> tp_notify_all p = false -> WAsleep ∉ tp_workers p;
}.

Lemma m03_new_seen n : stop_seen (ThreadPool_new n).
Proof. by split. Qed.

Lemma seen_set p i (w : wstate T) : stop_seen p -> w <> WParking -> w <> WAsleep -> stop_seen (set_worker p i w).
Proof.
  intros [Hp Ha] H1 H2. split; cbn; intros Hr.
  - intros [Hin|Hin]%elem_of_update; [done|by apply Hp in Hin].
  - intros Hn [Hin|Hin]%elem_of_update; [done|by apply (Ha Hr Hn) in Hin].
Qed.

Lemma m03_step_seen p a p' : stop_seen p -> m03_step p a p' -> stop_seen p'.
Proof.
  intros Hs Hst. revert Hs. destruct Hst as [q t Hm Hr|q Hm|q b q' Hw]; intros Hs.
  - destruct Hs as [Hp Ha]. split; cbn; intros Hx; congruence.
  - split; cbn; [intros _; by apply mutex_free_spec|done].
  - revert Hs. destruct Hw as [q i Hn Hi|q Hn Hi|q Hn|q i Hi|q i Hi Hm Ht Hr|q i Hi|q i Hi|q i Hi Hm Ht Hr|q i t ts Hi Hm Ht|q i t Hi]; intros Hs.
    + destruct (seen_set q i WReady Hs) as [H1 H2]; [done..|]. by split.
    + destruct Hs as [H1 H2]. by split.
    + destruct Hs as [H1 H2]. split; cbn; intros Hr; [|intros _]; intros (w & Ew & Hw)%list_elem_of_fmap; destruct w; try done. by apply (H1 Hr).
    + by apply seen_set.
    + split; cbn; congruence.
    + destruct (tp_running q) eqn:Hr; [split; cbn; congruence|]. exfalso. apply (ss_parking _ Hs Hr). by eapply list_elem_of_lookup_2.
    + by apply seen_set.
    + by apply seen_set.
    + destruct (seen_set q i (WBusy t) Hs) as [H1 H2]; [done..|]. by split.
    + by apply seen_set.
Qed.

Lemma m03_run_seen n as_ p : m03_run (ThreadPool_new n) as_ p -> stop_seen p.
Proof.
  intros H. remember (ThreadPool_new n) as p0. induction H as [|p as_ p1 a p2 H IH Hs]; [subst; apply m03_new_seen|].
  eapply m03_step_seen; [by apply IH|done].
Qed.

(** A worker leaves only for good: the queue is empty and stays so. *)
Definition gone_ok (p : ThreadPool T) : Prop := WExited ∈ tp_workers p -> tp_running p = false /\ tp_tasks p = [].

Lemma m03_step_gone p a p' : gone_ok p -> m03_step p a p' -> gone_ok p'.
Proof.
  intros Hs Hst. revert Hs. destruct Hst as [q t Hm Hr|q Hm|q b q' Hw]; intros Hs Hin.
  - destruct (Hs Hin). congruence.
  - destruct (Hs Hin) as [_ Ht]. done.
  - revert Hs Hin. destruct Hw as [q i Hn Hi|q Hn Hi|q Hn|q i Hi|q i Hi Hm Ht Hr|q i Hi|q i Hi|q i Hi Hm Ht Hr|q i t ts Hi Hm Ht|q i t Hi]; intros Hs Hin;
      cbn in Hin; try (apply elem_of_update in Hin as [Hin|Hin]; [done|by apply Hs in Hin]); try by apply Hs in Hin.
    + apply list_elem_of_fmap in Hin as (w & Ew & Hw). destruct w; try done. by apply Hs in Hw.
    + apply elem_of_update in Hin as [Hin|Hin]; [done|]. destruct (Hs Hin). congruence.
Qed.

Lemma m03_step_length p a p' : m03_step p a p' -> length (tp_workers p') = length (tp_workers p).
Proof. destruct 1 as [| |p a p' Hw]; [done..|]. destruct Hw; cbn; by rewrite ?length_insert, ?length_map. Qed.

Lemma m03_run_gone n as_ p : m03_run (ThreadPool_new n) as_ p -> gone_ok p /\ length (tp_workers p) = n.
Proof.
  intros H. remember (ThreadPool_new n) as p0. induction H as [|p as_ p1 a p2 H IH Hs].
  - subst. split; [|apply length_replicate]. intros Hin. cbn in Hin. by apply elem_of_replicate in Hin as [? _].
  - destruct (IH Heqp0) as [IH1 IH2]. split; [by eapply m03_step_gone|]. by rewrite (m03_step_length _ _ _ Hs).
Qed.

(** The steps the workers still have to do. *)
Definition weight (w : wstate T) : nat := match w with WHead => 2 | WReady => 1 | WBusy _ => 3 | _ => 0 end.
Definition work (p : ThreadPool T) : nat := 3 * length (tp_tasks p) + sum_list_with weight (tp_workers p) + tp_notify_one p.

Lemma wk_step_decreases p a p' :
  stop_seen p -> tp_running p = false -> tp_notify_all p = false -> wk_step p a p' ->
  work p' < work p /\ tp_running p' = false /\ tp_notify_all p' = false.
Proof.
  intros Hs Hr Hn Hw. assert (WAsleep ∉ tp_workers p) as Ha by by apply (ss_asleep _ Hs).
  assert (WParking ∉ tp_workers p) as Hp by by apply (ss_parking _ Hs).
  revert Hr Hn Ha Hp. clear Hs. destruct Hw as [q i H1 Hi|q H1 Hi|q H1|q i Hi|q i Hi Hm Ht Hr1|q i Hi|q i Hi|q i Hi Hm Ht Hr1|q i t ts Hi Hm Ht|q i t Hi];
    intros Hr Hn Ha Hp; cbn [tp_running tp_notify_all notified set_worker wake_all pop_task];
    try (exfalso; by (apply Ha + apply Hp); eapply list_elem_of_lookup_2); try congruence; (split; [|done]); unfold work;
    cbn [tp_tasks tp_workers tp_notify_one notified set_worker pop_task]; try (pose proof (sum_list_update weight _ _ _ WReady Hi)); 
    try (pose proof (sum_list_update weight _ _ _ WExited Hi)); try (pose proof (sum_list_update weight _ _ _ WHead Hi)); try (pose proof (sum_list_update weight _ _ _ (WBusy t) Hi));
    cbn [weight] in *; try rewrite Ht; simpl length; lia.
Qed.

Lemma stopped_progress p :
  stop_seen p -> tp_running p = false -> tp_notify_all p = false -> (forall a q, ~ wk_step p a q) -> Forall (fun w => w = WExited) (tp_workers p).
Proof.
  intros Hs Hr Hn Hstuck. apply Forall_lookup. intros i w Hi. pose proof (ss_parking _ Hs Hr) as Hp. pose proof (ss_asleep _ Hs Hr Hn) as Ha.
  assert (mutex_free p = true) as Hm.
  { unfold mutex_free. apply negb_true_iff, not_true_iff_false. intros (x & Hx & Ex)%existsb_exists. apply list_elem_of_In in Hx. by destruct x. }
  destruct w; [exfalso..|done].
  - by eapply Hstuck, wk_enter.
  - destruct (tp_tasks p) as [|t ts] eqn:Et; [by eapply Hstuck, wk_leave|by eapply Hstuck, wk_take].
  - apply Hp. by eapply list_elem_of_lookup_2.
  - apply Ha. by eapply list_elem_of_lookup_2.
  - by eapply Hstuck, wk_done.
Qed.

(** The destructor of module 3's pool returns: once the stop is stored and announced, the
    workers take finitely many steps whatever the schedule, and where they can take no more all
    have left, every task that was submitted has been started, in order, and finished. *)
Theorem m03_pool_stops n as_ p :
  m03_run (m03_new n) as_ p -> tp_running p = false -> tp_notify_all p = false ->
  Acc (fun q p => exists a, wk_step p a q) p /\
  ((forall a q, ~ wk_step p a q) ->
   Forall (fun w => w = WExited) (tp_workers p) /\ started as_ = tasks_submitted as_ /\ started as_ ≡ₚ finished as_).
Proof.
  intros H Hr Hn. unfold m03_new in H. set (k := if bool_decide (n = 0) then 1 else n) in *. assert (0 < k) as Hk by (unfold k; case_bool_decide; lia).
  pose proof (m03_run_seen _ _ _ H) as Hs. split.
  - clear H. revert Hr Hn Hs. remember (work p) as m eqn:Em. revert p Em. induction m as [m IH] using lt_wf_ind. intros p -> Hr Hn Hs. constructor. intros q [a Hq].
    destruct (wk_step_decreases p a q Hs Hr Hn Hq) as (Hlt & Hr' & Hn'). eapply IH; [exact Hlt|done|done|done|].
    eapply m03_step_seen; [done|by apply m03_worker].
  - intros Hstuck. pose proof (stopped_progress p Hs Hr Hn Hstuck) as Hall. split; [done|].
    destruct (m03_run_inv _ _ _ H) as [Hf Ho]. destruct (m03_run_gone _ _ _ H) as [Hg Hl]. assert (tp_tasks p = []) as Ht.
    { apply Hg. destruct (tp_workers p) as [|w ws]; [simpl in Hl; lia|]. apply Forall_cons in Hall as [-> _]. left. }
    split; [by rewrite Hf, Ht, app_nil_r|]. rewrite Ho. enough (busy (tp_workers p) = []) as -> by by rewrite app_nil_r.
    clear -Hall. induction Hall as [|w ws -> _ IH]; [done|]. exact IH.
Qed.
End LockedStop.

Section Channel.
Context {T : Type}.
Implicit Types (c : ThreadPool T).

Definition Channel_new (receivers : nat) : ThreadPool T := ThreadPool_new receivers.

(** [Send] under the mutex: refused when the channel is closed. *)
Definition ch_Send c (v : T) : ThreadPool T * bool := if tp_running c then (submit c v, true) else (c, false).

Definition ch_Close c : ThreadPool T := tp_stop c.

(** The steps of [Recv] are those of a worker. *)
Inductive ch_step : ThreadPool T -> tp_action T -> ThreadPool T -> Prop :=
| ch_send c v : mutex_free c = true -> (ch_Send c v).2 = true -> ch_step c (TSubmit v) (ch_Send c v).1
| ch_refuse c v : mutex_free c = true -> (ch_Send c v).2 = false -> ch_step c TOther (ch_Send c v).1
| ch_close c : mutex_free c = true -> ch_step c TOther (ch_Close c)
| ch_recv c a c' : wk_step c a c' -> ch_step c a c'.

Inductive ch_run : ThreadPool T -> list (tp_action T) -> ThreadPool T -> Prop :=
| ch_nil c : ch_run c [] c
| ch_snoc c as_ c1 a c2 : ch_run c as_ c1 -> ch_step c1 a c2 -> ch_run c (as_ ++ [a]) c2.

Lemma ch_step_cases c a c' : ch_step c a c' -> m03_step c a c' \/ (a = TOther /\ c' = c).
Proof.
  destruct 1 as [c v Hm Hs|c v Hm Hs|c Hm|c a c' Hw]; [left|right|left|left]; [| |by constructor|by constructor].
  - unfold ch_Send in *. destruct (tp_running c) eqn:Hr; [by constructor|done].
  - unfold ch_Send in *. by destruct (tp_running c).
Qed.

Lemma m03_step_live (p : ThreadPool T) a p' : tp_live p -> m03_step p a p' -> tp_live p'.
Proof.
  intros Hl Hs. destruct (hand_step_cases _ _ _ (m03_step_hand _ _ _ Hs)) as [Ht|(-> & i & Hi & ->)]; [by eapply tp_step_live|].
  by eapply (live_raise p _ i WHead WReady).
Qed.

Lemma ThreadPool_new_live n : 0 < n -> tp_live (ThreadPool_new n : ThreadPool T).
Proof. intros Hn. apply (tp_run_live n []); [done|constructor]. Qed.

Lemma ch_run_inv n as_ c : 0 < n -> ch_run (Channel_new n) as_ c -> tp_inv as_ c /\ tp_live c /\ stop_seen c /\ gone_ok c.
Proof.
  intros Hn H. remember (Channel_new n) as c0 eqn:E0. induction H as [|c as_ c1 a c2 H IH Hs].
  - subst. split; [apply (m03_run_inv n); constructor|]. split; [by apply ThreadPool_new_live|]. split; [apply m03_new_seen|].
    apply (m03_run_gone n []). constructor.
  - destruct (IH E0) as (H1 & H2 & H3 & H4). destruct (ch_step_cases _ _ _ Hs) as [Hm|[-> ->]].
    + split_and!; [eapply hand_step_inv; [done|by apply m03_step_hand]|by eapply m03_step_live|by eapply m03_step_seen|by eapply m03_step_gone].
    + split_and!; [|done..]. destruct H1 as [Hf Ho]. destruct (trace_snoc as_ (@TOther T)) as (Es & Et & Ef).
      split; [rewrite Es, Et, Hf|rewrite Et, Ef, Ho]; cbn; by rewrite !app_nil_r.
Qed.

(** In every interleaving of senders, receivers and [Close]: values are received in the order
    they were sent, each once; a receiver is told that the channel is closed only after all
    have been received; while it is open a value that waits, with no notification on its way,
    has a receiver that is not asleep; and once [Close] has been announced no receiver sleeps. *)
Theorem channel_delivers n as_ (c : ThreadPool T) :
  0 < n -> ch_run (Channel_new n) as_ c ->
  started as_ `prefix_of` tasks_submitted as_ /\
  (WExited ∈ tp_workers c -> tp_running c = false /\ started as_ = tasks_submitted as_) /\
  (tp_running c = true -> tp_tasks c <> [] -> tp_notify_one c = 0 -> some_up (tp_workers c)) /\
  (tp_running c = false -> tp_notify_all c = false -> WAsleep ∉ tp_workers c).
Proof.
  intros Hn H. destruct (ch_run_inv n as_ c Hn H) as ([Hf Ho] & Hl & Hs & Hg). split_and!.
  - exists (tp_tasks c). exact Hf.
  - intros Hin. destruct (Hg Hin) as [Hr Ht]. split; [done|]. by rewrite Hf, Ht, app_nil_r.
  - intros Hr Ht Hz. destruct (tpl_up _ Hl Hr Ht) as [?|?]; [lia|done].
  - apply (ss_asleep _ Hs).
Qed.
End Channel.

(** ** The ring of module 3

    The handwritten queue of [SpscQueue] with another way to advance a position: a mask,
    for a capacity that is a power of two. *)

Section Ring.
Context {T : Type} (k : nat).

Definition kMask : nat := 2 ^ k - 1.
Definition ring_next (pos : nat) : nat := Nat.land (pos + 1) kMask.

Inductive ring_step : SPSCQueue -> option (event (T:=T)) -> SPSCQueue -> Prop :=
| ring_push_load s v : producer s = PIdle ->
    ring_step s None (mkQ (write_pos s) (read_pos s) (buffer s) (PLoaded v (write_pos s)) (consumer s))
| ring_push_full s v t : producer s = PLoaded v t -> ring_next t = read_pos s ->
    ring_step s (Some (EPush v false)) (mkQ (write_pos s) (read_pos s) (buffer s) PIdle (consumer s))
| ring_push_test s v t : producer s = PLoaded v t -> ring_next t <> read_pos s ->
    ring_step s None (mkQ (write_pos s) (read_pos s) (buffer s) (PTested v t (ring_next t)) (consumer s))
| ring_push_write s v t next : producer s = PTested v t next -> t < length (buffer s) ->
    ring_step s None (mkQ (write_pos s) (read_pos s) (<[t := v]> (buffer s)) (PWrote v t next) (consumer s))
| ring_push_store s v t next : producer s = PWrote v t next ->
    ring_step s (Some (EPush v true)) (mkQ next (read_pos s) (buffer s) PIdle (consumer s))
| ring_pop_load s : consumer s = CIdle ->
    ring_step s None (mkQ (write_pos s) (read_pos s) (buffer s) (producer s) (CLoaded (read_pos s)))
| ring_pop_empty s h : consumer s = CLoaded h -> h = write_pos s ->
    ring_step s (Some (EPop None)) (mkQ (write_pos s) (read_pos s) (buffer s) (producer s) CIdle)
| ring_pop_test s h : consumer s = CLoaded h -> h <> write_pos s ->
    ring_step s None (mkQ (write_pos s) (read_pos s) (buffer s) (producer s) (CTested h))
| ring_pop_read s h v : consumer s = CTested h -> buffer s !! h = Some v ->
    ring_step s None (mkQ (write_pos s) (read_pos s) (buffer s) (producer s) (CRead h v))
| ring_pop_store s h v : consumer s = CRead h v ->
    ring_step s (Some (EPop (Some v))) (mkQ (write_pos s) (ring_next h) (buffer s) (producer s) CIdle).

Definition Ring_new (zero : T) : SPSCQueue := mkQ 0 0 (replicate (2 ^ k) zero) PIdle CIdle.

Inductive ring_run : SPSCQueue -> list (event (T:=T)) -> SPSCQueue -> Prop :=
| ring_nil s : ring_run s [] s
| ring_snoc s es s1 e s2 : ring_run s es s1 -> ring_step s1 e s2 -> ring_run s (es ++ option_list e) s2.

(** The mask is the remainder. *)
Lemma ring_next_mod pos : ring_next pos = (pos + 1) mod 2 ^ k.
Proof. unfold ring_next, kMask. rewrite <- Nat.land_ones, Nat.ones_equiv. f_equal. lia. Qed.

Lemma ring_step_spsc s e s' : ring_step s e s' -> spsc_step (2 ^ k) s e s'.
Proof.
  destruct 1; rewrite ?ring_next_mod in *;
    first [apply step_push; econstructor; eassumption | apply step_pop; econstructor; eassumption
          | apply step_push; econstructor; done | apply step_pop; econstructor; done].
Qed.

Lemma ring_run_spsc s es s' : ring_run s es s' -> spsc_run (2 ^ k) s es s'.
Proof. induction 1 as [|s es s1 e s2 _ IH Hs]; [constructor|]. eapply run_snoc; [done|by apply ring_step_spsc]. Qed.

(** The ring is the same bounded queue, in every interleaving of its two threads. *)
Theorem ring_linearizable zero es s :
  ring_run (Ring_new zero) es s -> (exists q, fifo_run (2 ^ k) [] es q) /\ ~ races s /\ slots_valid s.
Proof.
  intros H%ring_run_spsc. assert (0 < 2 ^ k) as Hk by (pose proof (Nat.pow_nonzero 2 k); lia).
  destruct (spsc_run_sim (2 ^ k) Hk zero es s H) as (q & Hq & Hs).
  split_and!; [by exists q|by eapply sim_no_race|by eapply sim_slots_valid].
Qed.
End Ring.

(** ** The cache of module 13

    The handwritten cache of [HandLru] over [int]; a miss is answered with -1. *)

Local Open Scope Z_scope.
Import LRU.

Definition lru13_get (c : LRUCache Z Z) (key : Z) : LRUCache Z Z * Z := let '(c, r) := hl_get c key in (c, default (-1) r).
Definition lru13_put (c : LRUCache Z Z) (key value : Z) : option (LRUCache Z Z) := hl_put c key value.
Definition keys_mru_to_lru (c : LRUCache Z Z) : list Z := (fun n => n.2.1) <$> list_ c.

Fixpoint lru13_run (c : LRUCache Z Z) (os : list (Z + Z * Z)) : option (LRUCache Z Z * list Z) :=
  match os with
  | [] => Some (c, [])
  | inl key :: os => let '(c, v) := lru13_get c key in '(c, vs) ← lru13_run c os; Some (c, v :: vs)
  | inr (key, value) :: os => c ← lru13_put c key value; lru13_run c os
  end.

(** The recency list: the answers, and the keys from the newest use to the oldest. *)
Fixpoint lru13_spec (cap : Z) (e : list (Z * Z)) (os : list (Z + Z * Z)) : list (Z * Z) * list Z :=
  match os with
  | [] => (e, [])
  | inl key :: os => let '(e, v) := spec_get e key in let '(e, vs) := lru13_spec cap e os in (e, default (-1) v :: vs)
  | inr (key, value) :: os => lru13_spec cap (spec_put cap e key value) os
  end.

Lemma lru13_run_ok cap os : 0 < cap -> forall c e, rep cap c e ->
  exists c', lru13_run c os = Some (c', (lru13_spec cap e os).2) /\ rep cap c' (lru13_spec cap e os).1.
Proof.
  intros Hcap. induction os as [|[key|[key value]] os IH]; intros c e Hr; [by exists c| |]; cbn [lru13_run lru13_spec].
  - destruct (get_refines _ _ _ key Hr) as [Hr' Hres]. change (get c key) with (hl_get c key) in *. unfold lru13_get.
    destruct (hl_get c key) as [c1 r1], (spec_get e key) as [e1 r2]. cbn [fst snd] in *. subst r2.
    destruct (IH _ _ Hr') as (c' & -> & Hr2). exists c'. cbn [mbind option_bind]. by destruct (lru13_spec cap e1 os).
  - destruct (hl_put_refines _ _ _ key value Hcap Hr) as (c1 & E & Hr'). unfold lru13_put. rewrite E. cbn [mbind option_bind]. by apply IH.
Qed.

(** Over any sequence of gets and puts the cache answers as a recency list of [cap] entries,
    and lists its keys in that order. *)
Theorem lru13_refines (cap : Z) (os : list (Z + Z * Z)) :
  0 < cap -> exists c, lru13_run (LRUCache_new cap) os = Some (c, (lru13_spec cap [] os).2) /\
    keys_mru_to_lru c = (lru13_spec cap [] os).1.*1 /\ zlen (list_ c) <= cap.
Proof.
  intros Hcap. destruct (lru13_run_ok cap os Hcap _ _ (rep_new cap ltac:(lia))) as (c & E & [Hc _ He Hb]). exists c. split; [done|].
  rewrite <- He. unfold keys_mru_to_lru, entries_of. rewrite <- list_fmap_compose. split; [done|].
  rewrite <- He in Hb. unfold entries_of in Hb. rewrite length_fmap in Hb. unfold zlen. lia.
Qed.

Example lru13_main :
  snd <$> lru13_run (LRUCache_new 2) [inr (1, 1); inr (2, 2); inl 1; inr (3, 3); inl 2; inl 3; inr (4, 4); inl 1; inl 3; inl 4] =
  Some [1; -1; 3; -1; 3; 4].
Proof. vm_compute. reflexivity. Qed.
