(* ===== verification/CourseValues.v ===== *)
(** * Small values and coroutines of the course: modules 2, 4, 9 and 13

    [practice/module02_cpp_core/main.cpp] (the status), [module04_go_ts_concepts/main.cpp] (the
    result type and the integer parser), [module13_interview/main.cpp] (the counter),
    [module09_epoll_coro/main.cpp] (the coroutine whose [co_await] runs the child on the spot)
    and [handwrite/test_murmurhash.cpp] (a copy of the hash of [utils/hash.h]). *)

From Stdlib Require Import ZArith Lia.
From stdpp Require Import base numbers strings list.
From S2P Require Import Prelude CppString Slice Coding.
Local Open Scope Z_scope.

(** ** Module 2: [Status] *)

Inductive StatusCode2 := kOk2 | kNotFound2 | kCorruption2 | kInvalidArgument2 | kIOError2.
#[global] Instance StatusCode2_eq_dec : EqDecision StatusCode2.
Proof. solve_decision. Defined.

Record Status2 := mkStatus2 { st2_code : StatusCode2; st2_msg : bytes }.
Definition Status2_OK : Status2 := mkStatus2 kOk2 [].
Definition Status2_NotFound (msg : bytes) : Status2 := mkStatus2 kNotFound2 msg.
Definition Status2_Corruption (msg : bytes) : Status2 := mkStatus2 kCorruption2 msg.
Definition Status2_InvalidArgument (msg : bytes) : Status2 := mkStatus2 kInvalidArgument2 msg.
Definition Status2_IOError (msg : bytes) : Status2 := mkStatus2 kIOError2 msg.
Definition st2_ok (s : Status2) : bool := bool_decide (st2_code s = kOk2).

(** ** Module 4: [Result] and the integer parser *)

(** All three members exist in every result; the accessors assert which one is meant. *)
Record Result (T E : Type) := mkResult { rs_ok : bool; rs_value : T; rs_error : E }.
Arguments mkResult {T E}.
Arguments rs_ok {T E}.
Arguments rs_value {T E}.
Arguments rs_error {T E}.

Section Result.
Context {T E : Type} (value0 : T) (error0 : E).
Definition Result_Ok (value : T) : Result T E := mkResult true value error0.
Definition Result_Err (err : E) : Result T E := mkResult false value0 err.
Definition is_ok (r : Result T E) : bool := rs_ok r.
Definition is_err (r : Result T E) : bool := negb (rs_ok r).
(** [None]: the assertion fails. *)
Definition result_value (r : Result T E) : option T := if rs_ok r then Some (rs_value r) else None.
Definition result_error (r : Result T E) : option E := if rs_ok r then None else Some (rs_error r).
End Result.

Definition ParseIntLikeTS (s : bytes) : Result Z bytes :=
  match stoi_idx s with
  | Some (v, idx) => if negb (idx =? zlen s) then Result_Err 0 (bs "trailing junk") else Result_Ok [] v
  | None => Result_Err 0 (bs "parse failed")
  end.

(** The decimal number a list of digits denotes. *)
Definition decimal (ds : bytes) : Z := foldl (fun a c => a * 10 + (b2z c - 48)) 0 ds.

(** The texts the parser is for: blanks, at most one sign, digits. *)
Definition int_text (s : bytes) (v : Z) : Prop :=
  exists bl sg ds, s = bl ++ sg ++ ds /\ Forall (fun c => is_space c = true) bl /\
    ds <> [] /\ Forall (fun c => is_digit c = true) ds /\
    (sg = [] /\ v = decimal ds \/ sg = [z2b 43] /\ v = decimal ds \/ sg = [z2b 45] /\ v = - decimal ds).

Lemma stoi_digits_iff neg s v :
  skip_digits s = [] -> stoi_digits neg s = Some v <->
  s <> [] /\ v = (if neg then - decimal s else decimal s) /\ - 2 ^ 31 <= v < 2 ^ 31.
Proof.
  intros Hs. assert (Forall (fun c => is_digit c = true) s) as Hd.
  { destruct (skip_digits_split s) as (ds & E & Hd). by rewrite Hs, app_nil_r in E; subst. }
  unfold stoi_digits, decimal. destruct s as [|c s]; [by split; [|intros [? _]]|]. pose proof Hd as Hd'.
  apply Forall_cons in Hd as [-> _]. rewrite atoi_digits_run by done. set (d := foldl _ _ _).
  split.
  - destruct ((- 2 ^ 31 <=? (if neg then - d else d)) && ((if neg then - d else d) <? 2 ^ 31)) eqn:E; [|done].
    intros [= <-]. split_and!; try done; lia.
  - intros (_ & -> & Hr). replace ((- 2 ^ 31 <=? (if neg then - d else d)) && ((if neg then - d else d) <? 2 ^ 31)) with true; [done|]. symmetry. lia.
Qed.

Lemma skip_digits_nil_iff s : skip_digits s = [] <-> Forall (fun c => is_digit c = true) s.
Proof.
  split; [|apply skip_digits_all]. intros E. destruct (skip_digits_split s) as (ds & E' & Hd).
  by rewrite E, app_nil_r in E'; subst.
Qed.

(** A digit is neither a sign nor a blank. *)
Lemma digit_plain c : is_digit c = true -> b2z c <> 45 /\ b2z c <> 43 /\ is_space c = false.
Proof. unfold is_digit, is_space. intros H. split_and!; lia. Qed.

Lemma stoi_iff s v :
  skip_digits (skip_sign (skip_space s)) = [] ->
  stoi s = Some v <-> int_text s v /\ - 2 ^ 31 <= v < 2 ^ 31.
Proof.
  intros Hs. unfold stoi. split.
  - destruct (skip_space_split s) as (bl & E & Hb & _). destruct (skip_space s) as [|c r]; [done|]. cbn [skip_sign] in Hs.
    destruct (Z.eqb_spec (b2z c) 45) as [Hc|Hc]; [|destruct (Z.eqb_spec (b2z c) 43) as [Hc'|Hc']].
    + rewrite stoi_digits_iff by done. intros (Hr & -> & Hv). split; [|done]. exists bl, [c], r.
      apply skip_digits_nil_iff in Hs. split_and!; try done. right; right. split; [|done]. by rewrite <- (z2b_b2z c), Hc.
    + rewrite stoi_digits_iff by done. intros (Hr & -> & Hv). split; [|done]. exists bl, [c], r.
      apply skip_digits_nil_iff in Hs. split_and!; try done. right; left. split; [|done]. by rewrite <- (z2b_b2z c), Hc'.
    + cbn [orb] in Hs. rewrite stoi_digits_iff by done. intros (Hr & -> & Hv). split; [|done]. exists bl, [], (c :: r).
      apply skip_digits_nil_iff in Hs. split_and!; try done. by left.
  - intros [(bl & sg & ds & E & Hb & Hne & Hd & Hv) Hr]. destruct ds as [|d ds]; [done|].
    pose proof Hd as [Hd1 _]%Forall_cons. destruct (digit_plain d Hd1) as (H45 & H43 & Hsp).
    pose proof (skip_digits_all _ Hd) as Hall.
    assert (forall c r, sg ++ d :: ds = c :: r -> is_space c = false) as Hh
      by (destruct Hv as [[-> _]|[[-> _]|[-> _]]]; by intros c r [= <- _]).
    rewrite E, skip_space_app by done. destruct Hv as [[-> ->]|[[-> ->]|[-> ->]]].
    + cbn [app]. rewrite (proj2 (Z.eqb_neq _ _) H45), (proj2 (Z.eqb_neq _ _) H43). by apply stoi_digits_iff.
    + change (b2z (z2b 43) =? 45) with false. change (b2z (z2b 43) =? 43) with true. by apply stoi_digits_iff.
    + change (b2z (z2b 45) =? 45) with true. by apply stoi_digits_iff.
Qed.

Lemma int_text_rest s v : int_text s v -> skip_digits (skip_sign (skip_space s)) = [].
Proof.
  intros (bl & sg & ds & -> & Hb & Hne & Hd & Hv). destruct ds as [|d ds]; [done|].
  pose proof Hd as [Hd1 _]%Forall_cons. destruct (digit_plain d Hd1) as (H45 & H43 & Hsp). rewrite skip_space_app; [|done|].
  - destruct Hv as [[-> _]|[[-> _]|[-> _]]]; [|by apply skip_digits_all..]. cbn [app skip_sign].
    rewrite (proj2 (Z.eqb_neq _ _) H45), (proj2 (Z.eqb_neq _ _) H43). by apply skip_digits_all.
  - destruct Hv as [[-> _]|[[-> _]|[-> _]]]; by intros c r [= <- _].
Qed.

(** The parser accepts exactly the decimal texts whose value is an [int], and returns the
    value; with anything after the digits, or without digits, or out of range, it reports an
    error. *)
Theorem ParseIntLikeTS_iff s v :
  result_value (ParseIntLikeTS s) = Some v <-> int_text s v /\ - 2 ^ 31 <= v < 2 ^ 31.
Proof.
  unfold ParseIntLikeTS, stoi_idx. set (rest := skip_digits (skip_sign (skip_space s))).
  assert (zlen s - zlen rest = zlen s <-> rest = []) as Hz by (unfold zlen; destruct rest; simpl; split; intros; try done; lia).
  split.
  - destruct (stoi s) as [w|] eqn:E; [|done]. cbn. destruct (Z.eqb_spec (zlen s - zlen rest) (zlen s)) as [Ez|Ez]; [|done].
    cbn. intros [= <-]. apply (stoi_iff s w); [by apply Hz|done].
  - intros [Ht Hr]. assert (rest = []) as Er by by apply int_text_rest with v.
    assert (stoi s = Some v) as -> by (by apply stoi_iff). cbn. rewrite Er. unfold zlen at 2. cbn. by rewrite Z.sub_0_r, Z.eqb_refl.
Qed.

Lemma to_string_int_text n : 0 <= n < 2 ^ 31 -> int_text (to_string n) n.
Proof.
  intros Hn. exists [], [], (to_string n). pose proof (to_string_nonempty n). split_and!; try done.
  - by intros E; rewrite E in *; cbn in *; lia.
  - apply to_string_digits.
  - left. split; [done|]. unfold decimal. symmetry. apply to_string_fold; [|lia]. intros m Hm. rewrite digit_value by lia. lia.
Qed.

(** Printing a non-negative [int] and parsing it gives it back. *)
Theorem ParseIntLikeTS_print n : 0 <= n < 2 ^ 31 -> result_value (ParseIntLikeTS (to_string n)) = Some n.
Proof. intros Hn. apply ParseIntLikeTS_iff. split; [by apply to_string_int_text|lia]. Qed.

(** ** Module 13: [AtomicCounter]

    Each call is one critical section, so a run is a sequence of calls. *)

Definition counter_inc (n : Z) : option Z := if n + 1 <? 2 ^ 63 then Some (n + 1) else None.
Definition counter_get (n : Z) : Z := n.

Theorem counter_counts (k : nat) :
  Z.of_nat k < 2 ^ 63 -> (n ← Nat.iter k (mbind counter_inc) (Some 0); Some (counter_get n)) = Some (Z.of_nat k).
Proof.
  intros Hk. assert (Nat.iter k (mbind counter_inc) (Some 0) = Some (Z.of_nat k)) as ->; [|done].
  induction k as [|k IH]; [done|]. rewrite Nat.iter_succ, IH by lia. cbn. unfold counter_inc.
  destruct (Z.ltb_spec (Z.of_nat k + 1) (2 ^ 63)); [|lia]. f_equal. lia.
Qed.

(** ** Module 9: a task that starts at once

    A body returns, suspends on something of its own ([co_await std::suspend_always{}]) or
    awaits another task.  The frame of a task is finished or suspended with the rest of its
    body; [value] is [T{}] until [return_value]. *)

Inductive m09_body := MRet (v : Z) | MSuspend (k : m09_body) | MAwait (child : m09_body) (k : Z -> m09_body).
Inductive m09_frame := FDone (v : Z) | FSuspended (rest : m09_body).
Definition promise_value (f : m09_frame) : Z := match f with FDone v => v | FSuspended _ => 0 end.

(** Running a body from its start or from a suspension point.  An awaited task has run already;
    if it is not finished, [await_suspend] resumes it once and then resumes the awaiting body,
    whatever came of it. *)
Inductive m09_run : m09_body -> m09_frame -> Prop :=
| m9_ret v : m09_run (MRet v) (FDone v)
| m9_suspend k : m09_run (MSuspend k) (FSuspended k)
| m9_ready child k v f : m09_run child (FDone v) -> m09_run (k v) f -> m09_run (MAwait child k) f
| m9_resume child k rest f' f :
    m09_run child (FSuspended rest) -> m09_run rest f' -> m09_run (k (promise_value f')) f -> m09_run (MAwait child k) f.

(** [Task::get]: resume until done. *)
Inductive m09_get : m09_body -> Z -> Prop :=
| m9_get_done c v : m09_run c (FDone v) -> m09_get c v
| m9_get_again c rest v : m09_run c (FSuspended rest) -> m09_get rest v -> m09_get c v.

(** How often a body suspends and what it returns. *)
Fixpoint m09_outcome (c : m09_body) : nat * Z :=
  match c with
  | MRet v => (0%nat, v)
  | MSuspend k => let '(n, v) := m09_outcome k in (S n, v)
  | MAwait child k => let '(n, v) := m09_outcome child in m09_outcome (k (if (n <=? 1)%nat then v else 0))
  end.

Inductive m09_runs : m09_body -> nat -> Z -> Prop :=
| m9_runs_done c v : m09_run c (FDone v) -> m09_runs c 0 v
| m9_runs_again c rest n v : m09_run c (FSuspended rest) -> m09_runs rest n v -> m09_runs c (S n) v.

Lemma m09_runs_outcome c : m09_runs c (m09_outcome c).1 (m09_outcome c).2.
Proof.
  induction c as [v|k IH|child IHc k IHk]; cbn.
  - constructor. constructor.
  - destruct (m09_outcome k) as [n v]. by econstructor; [constructor|].
  - destruct (m09_outcome child) as [n v]. cbn in IHc. set (x := if (n <=? 1)%nat then v else 0).
    assert (forall f, m09_run (k x) f -> m09_run (MAwait child k) f) as Hf.
    { subst x. intros f Hf. destruct IHc as [c v Hd|c rest n v Hs Hr]; [by eapply m9_ready|]. destruct Hr as [c' v Hd|c' rest' n v Hs' _];
        (eapply m9_resume; [done..|]); done. }
    destruct (IHk x) as [c w Hd|c rest m w Hs Hr]; [by constructor; apply Hf|by econstructor; [apply Hf|]].
Qed.

Lemma m09_run_det c f : m09_run c f -> forall f', m09_run c f' -> f = f'.
Proof.
  induction 1 as [v|k|child k v f H1 IH1 H2 IH2|child k rest g f H1 IH1 H2 IH2 H3 IH3]; intros f' H; inversion H; subst; try done.
  - apply IH2. match goal with H : m09_run child (FDone ?w) |- _ => apply IH1 in H as [= ->] end. done.
  - match goal with H : m09_run child (FSuspended _) |- _ => by apply IH1 in H end.
  - match goal with H : m09_run child (FDone _) |- _ => by apply IH1 in H end.
  - match goal with H : m09_run child (FSuspended _) |- _ => apply IH1 in H as [= <-] end.
    match goal with H : m09_run rest _ |- _ => apply IH2 in H as <- end. by apply IH3.
Qed.

(** [get] always returns, and what it returns is [m09_outcome]. *)
Theorem m09_get_outcome c v : m09_get c v <-> v = (m09_outcome c).2.
Proof.
  pose proof (m09_runs_outcome c) as Hr. destruct (m09_outcome c) as [n w]. cbn in *. revert v.
  induction Hr as [c w Hd|c rest n w Hs _ IH]; intros v; (split; [intros H; inversion H as [? ? Hd'|? rest' ? Hs' Hg]; subst|intros ->]).
  - by injection (m09_run_det _ _ Hd _ Hd') as ->.
  - by pose proof (m09_run_det _ _ Hd _ Hs').
  - by constructor.
  - by pose proof (m09_run_det _ _ Hs _ Hd').
  - injection (m09_run_det _ _ Hs _ Hs') as ->. by apply IH.
  - econstructor; [done|by apply IH].
Qed.

(** The sequential reading. *)
Fixpoint m09_eval (c : m09_body) : Z :=
  match c with MRet v => v | MSuspend k => m09_eval k | MAwait child k => m09_eval (k (m09_eval child)) end.

(** Every task the body awaits suspends at most once. *)
Fixpoint m09_prompt (c : m09_body) : Prop :=
  match c with
  | MRet _ => True
  | MSuspend k => m09_prompt k
  | MAwait child k => m09_prompt child /\ ((m09_outcome child).1 <= 1)%nat /\ m09_prompt (k (m09_eval child))
  end.

(** When awaited tasks suspend at most once, the chain computes what it says. *)
Theorem m09_get_sequential c : m09_prompt c -> m09_get c (m09_eval c).
Proof.
  intros Hp. apply m09_get_outcome. induction c as [v|k IH|child IHc k IHk]; cbn in *; [done| |].
  - rewrite (IH Hp). by destruct (m09_outcome k).
  - destruct Hp as (H1 & H2 & H3). rewrite (IHc H1) in *. destruct (m09_outcome child) as [n v]. cbn in *.
    destruct (Nat.leb_spec n 1); [|lia]. by apply IHk.
Qed.

(** The coroutines of the program. *)
Definition add_one (x : Z) : m09_body := MRet (x + 1).
Definition add_chain (x : Z) : m09_body := MAwait (add_one x) (fun y => MAwait (add_one y) (fun z => MRet z)).

Theorem add_chain_adds_two x : m09_get (add_chain x) (x + 2).
Proof. assert (m09_eval (add_chain x) = x + 2) as <- by (cbn; lia). apply m09_get_sequential. by cbn; split_and!; auto with lia. Qed.

(** A task that suspends twice is awaited in vain: the awaiting body goes on with the default
    value instead of the result. *)
Theorem m09_await_returns_early v :
  let slow := MSuspend (MSuspend (MRet v)) in m09_get slow v /\ m09_get (MAwait slow MRet) 0.
Proof. split; by apply m09_get_outcome. Qed.

(** ** The hash of [handwrite/test_murmurhash.cpp]

    The text of [utils/hash.h] once more. *)

Definition hand_murmurHash2 (data : bytes) (seed : Z) : Z := murmurHash2 data seed.
