(* ===== verification/CourseMains.v ===== *)
(** * The self-checks of the course programs

    The [main] functions of [practice/module*/main.cpp] and the tests of [practice/handwrite/]
    as programs over the models: each is the list of the conditions it asserts, in order, or
    [None] where the model finds undefined behaviour or an exception.  The theorems say that
    every assertion holds.  They also test the models against what the authors expect. *)

From Stdlib Require Import ZArith Lia.
From stdpp Require Import base numbers strings list gmap.
From S2P Require Import Prelude CppString Slice Coding Caches CourseBasics CourseSkip Mvcc Sharding MiniLsm ProxyCourse HandLru.
From S2P Require Import Ownership CourseModern CourseValues.
Local Open Scope Z_scope.

(** All assertions are reached and hold. *)
Definition passes (checks : option (list bool)) : Prop := exists l, checks = Some l /\ forallb id l = true.

Definition eqb_bytes (x y : bytes) : bool := bool_decide (x = y).
Definition is_val (x : option bytes) (y : bytes) : bool := bool_decide (x = Some y).

(** ** Module 1: the values it prints *)

Definition main01 : option bytes * option bytes * option bytes :=
  let db := d1_Put MiniDB1_new (bs "apple") (bs "红苹果") in
  let db := d1_Put db (bs "banana") (bs "香蕉") in
  let db := d1_Put db (bs "cherry") (bs "樱桃") in
  let db := d1_Put db (bs "date") (bs "枣") in
  (d1_Get db (bs "banana"), d1_Get db (bs "date"), d1_Get db (bs "missing")).

(** ** Module 2 *)

Definition main02 : option (list bool) :=
  let backing := bs "hello-titankv" in
  let s1 := backing in
  let s2 := bs "hello" in
  let slices := [negb (zlen s1 =? 0); zlen s1 =? zlen backing; Slice2_starts_with s1 s2; Slice2_starts_with s1 (bs "hello-titankv");
                 negb (Slice2_eq s2 s1); Slice2_eq (take 5 backing) s2] in
  let nf := Status2_NotFound (bs "key missing") in
  let statuses := [st2_ok Status2_OK; negb (st2_ok nf); bool_decide (st2_code nf = kNotFound2); eqb_bytes (st2_msg nf) (bs "key missing")] in
  let varint v :=
    let buf := encodeVarint64 v in
    [(1 <=? zlen buf) && (zlen buf <=? 10); bool_decide (decodeVarint64 buf = Some (v, zlen buf))] in
  let buf := encodeVarint64 300 in
  Some (slices ++ statuses ++ ([0; 1; 127; 128; 300; 16384; 0xFFFFFFFFFFFFFFFF] ≫= varint) ++
        [1 <? zlen buf; bool_decide (decodeVarint64 (take 1 buf) = None)]).

(** ** Module 4: the checks of the parser *)

Definition main04_result : option (list bool) :=
  let r1 := ParseIntLikeTS (bs "42") in
  let r2 := ParseIntLikeTS (bs "x") in
  v ← result_value r1;
  _ ← result_error r2;
  Some [is_ok r1; v =? 42; is_err r2].

(** ** Module 5, for whatever levels the coins give *)

Definition ops05 (flips : Z -> list bool) : list (set_op Z) :=
  ((fun i => SInsert i (flips i)) <$> seqZ 1 20) ++ [SInsert 10 (flips 21)] ++
  (SSearch <$> seqZ 1 20) ++ [SSearch 0; SSearch 21] ++
  [SErase 1; SErase 10; SErase 20; SErase 10; SSearch 1; SSearch 10; SSearch 20; SSearch 2; SSearch 19].
Definition expected05 : list bool :=
  replicate 20 true ++ [false] ++ replicate 20 true ++ [false; false] ++
  [true; true; true; false; false; false; false; true; true].

(** ** Module 6: the hash and the ring

    The filter of this [main] is sized in floating point and is left out. *)

Definition main06 : option (list bool) :=
  let add node r := AddNode 50 node r in
  let ring := add (bs "nodeC") (add (bs "nodeB") (add (bs "nodeA") [])) in
  n1 ← GetNode ring (bs "user:42");
  let ring' := RemoveNode 50 (bs "nodeB") ring in
  n2 ← GetNode ring' (bs "user:42");
  Some [negb (HashKey (bs "a") kHashSeed =? HashKey (bs "b") kHashSeed); zlen ring =? 150;
        eqb_bytes n1 (bs "nodeA") || eqb_bytes n1 (bs "nodeB") || eqb_bytes n1 (bs "nodeC");
        is_val (GetNode ring (bs "user:42")) n1; zlen ring' =? 100;
        eqb_bytes n2 (bs "nodeA") || eqb_bytes n2 (bs "nodeC")].

(** ** Module 7: three sessions on one directory *)

Definition main07 : option (list bool) :=
  let db := MiniDB_open (mkDir None None) in
  let db := md_Put (md_Put (md_Put db (bs "a") (bs "1")) (bs "b") (bs "2")) (bs "c") (bs "3") in
  let c1 := [is_val (md_Get db (bs "a")) (bs "1"); is_val (md_Get db (bs "b")) (bs "2")] in
  let db := md_Flush db in
  let c2 := [zlen (md_mem db) =? 3] in
  let db2 := MiniDB_open (md_dir db) in
  let c3 := [is_val (md_Get db2 (bs "a")) (bs "1"); is_val (md_Get db2 (bs "c")) (bs "3")] in
  let db2 := md_Put db2 (bs "d") (bs "4") in
  let db3 := MiniDB_open (md_dir db2) in
  Some (c1 ++ c2 ++ c3 ++ [is_val (md_Get db3 (bs "d")) (bs "4"); is_val (md_Get db3 (bs "a")) (bs "1")]).

(** ** Module 8 *)

Definition main08_keys : option (list bool) :=
  let e1 := mv_Encode (mkMvKey (bs "apple") 10 mv_kValue) in
  let e2 := mv_Encode (mkMvKey (bs "apple") 5 mv_kValue) in
  let e3 := mv_Encode (mkMvKey (bs "banana") 1 mv_kDeletion) in
  c12 ← mv_Compare e1 e2;
  c13 ← mv_Compare e1 e3;
  d1 ← mv_Decode e1;
  Some [c12 <? 0; c13 <? 0; eqb_bytes (mk_user_key d1) (bs "apple"); mk_sequence d1 =? 10; mk_type d1 =? mv_kValue].

Definition main08_store : option (list bool) :=
  let x := bs "x" in
  let s := mv_Put (mv_Delete (mv_Put (mv_Put ∅ x 1 (bs "v1")) x 3 (bs "v3")) x 5) x 7 (bs "v7") in
  Some [is_val (mv_Get s x 2) (bs "v1"); is_val (mv_Get s x 4) (bs "v3"); bool_decide (mv_Get s x 6 = None); is_val (mv_Get s x 8) (bs "v7")].

Definition main08_merge : option (list bool) :=
  let compacted := CompactMerge run_a run_b 4 in
  let apples := filter (fun e => kv_user_key e = bs "apple") compacted in
  Some [negb (existsb (fun e => (kv_seq e =? 1) && (kv_type e =? mv_kDeletion)) apples); zlen apples =? 3;
        bool_decide (CompactMerge [mkKv (bs "gone") 1 mv_kDeletion []] [] 10 = [])].

(** ** Module 10 *)

Definition main10_parser : option (list bool) :=
  '(p, b1) ← p10_feed Parser10_new (bs "POST /api HTTP/1.1" ++ [z2b 13; z2b 10] ++ bs "Host: ex");
  '(p, b2) ← p10_feed p (bs "ample.com" ++ [z2b 13; z2b 10] ++ bs "Content-Length: 5" ++ [z2b 13; z2b 10; z2b 13; z2b 10] ++ bs "Hel");
  '(p, b3) ← p10_feed p (bs "lo");
  let r := p10_req p in
  Some [negb b1; negb b2; b3; bool_decide (p10_state p = kDone10); eqb_bytes (r10_method r) (bs "POST"); eqb_bytes (r10_path r) (bs "/api");
        is_val (r10_headers r !! bs "Host") (bs "example.com"); eqb_bytes (r10_body r) (bs "Hello")].

Fixpoint take_next (n : nat) (s : SmoothWRR) : option (list bytes) :=
  match n with
  | O => Some []
  | S n => '(x, s) ← swrr_next s; xs ← take_next n s; Some (x :: xs)
  end.
Definition main10_balance : option (list bool) :=
  seq ← take_next 7 (SmoothWRR_new [Upstream10_new (bs "a") 5; Upstream10_new (bs "b") 1; Upstream10_new (bs "c") 1]);
  Some [bool_decide (seq = [bs "a"; bs "a"; bs "b"; bs "a"; bs "c"; bs "a"; bs "a"])].

Definition main10_pool : option (list bool) :=
  let '(c1, p) := cp10_acquire (ConnPool10_new 2) in
  let '(c2, p) := cp10_acquire p in
  let '(c3, p) := cp10_acquire p in
  id1 ← c1;
  p ← cp10_release p id1;
  let idle := zlen (cp10_idle p) in
  let '(c4, p) := cp10_acquire p in
  Some [bool_decide (is_Some c2); bool_decide (c3 = None); idle =? 1; bool_decide (c4 = Some id1)].

(** ** Module 11 *)

Definition main11_raft : option (list bool) :=
  '(c, won) ← TryElect cluster3 1;
  n0 ← c !! 0%nat; n1 ← c !! 1%nat; n2 ← c !! 2%nat;
  Some [won; bool_decide (rn_role n1 = Leader); bool_decide (rn_role n0 = Follower); bool_decide (rn_role n2 = Follower); rn_leader_id n0 =? 1].

Definition main11_ring : option (list bool) :=
  let ch := ConsistentHash_new [bs "nodeA"; bs "nodeB"; bs "nodeC"] 32 in
  at_ ← mapM (fun i => ch_Locate ch (bs "key-" ++ to_string (Z.of_nat i))) (seq 0 300);
  let count node := zlen (filter (fun n => n = node) at_) in
  Some [(zlen (remove_dups at_) =? 3); 20 <? count (bs "nodeA"); 20 <? count (bs "nodeB"); 20 <? count (bs "nodeC")].

(** ** Module 12: tokens and the chain (the bucket is in floating point) *)

Definition main12_token : option (list bool) :=
  let secret := bs "gateway-secret" in
  tok ← IssueToken (bs "alice") secret;
  v1 ← VerifyToken tok secret;
  v2 ← VerifyToken (tok ++ bs "x") secret;
  Some [v1; negb v2].
(** The bucket holds five tokens, more than the two requests take. *)
Definition main12_app : option (list bool) :=
  let secret := bs "gateway-secret" in
  tok ← IssueToken (bs "alice") secret;
  let app := app12 (fun tokens : nat => match tokens with S n => (n, true) | O => (O, false) end) secret in
  '(gw, ok) ← app 5%nat (mkCtx (bs "/v1/kv") tok [] 200 false);
  '(_, bad) ← app gw (mkCtx [] (bs "bad") [] 200 false);
  Some [cx_status ok =? 200; eqb_bytes (cx_body ok) (bs "ok:/v1/kv"); cx_status bad =? 401].

(** ** Module 13 *)

Import LRU.
Definition lru13_puts (c : LRUCache Z Z) (ps : list (Z * Z)) : option (LRUCache Z Z) :=
  foldl (fun c p => c ← c; lru13_put c p.1 p.2) (Some c) ps.

Definition main13 : option (list bool) :=
  c ← lru13_puts (LRUCache_new 2) [(1, 1); (2, 2)];
  let '(c, a1) := lru13_get c 1 in
  c ← lru13_put c 3 3;
  let '(c, a2) := lru13_get c 2 in
  let '(c, a3) := lru13_get c 3 in
  c ← lru13_put c 4 4;
  let '(c, a4) := lru13_get c 1 in
  let '(c, a5) := lru13_get c 3 in
  let '(c, a6) := lru13_get c 4 in
  big ← lru13_puts (LRUCache_new 3) ((fun i => (i, i * 10)) <$> seqZ 0 10);
  let keys := keys_mru_to_lru big in
  let '(big, b1) := lru13_get big 7 in
  ctr ← counter_inc 0;
  ctr ← counter_inc ctr;
  Some [a1 =? 1; a2 =? -1; a3 =? 3; a4 =? -1; a5 =? 3; a6 =? 4; bool_decide (keys = [9; 8; 7]); b1 =? 70;
        bool_decide (head (keys_mru_to_lru big) = Some 7); counter_get ctr =? 2].

(** ** Module 14 *)

Definition RunSmokeTests : option (list bool) :=
  kv ← kv14_Put MiniKV14_new (bs "a") (bs "1");
  kv ← kv14_Put kv (bs "b") (bs "2");
  a ← kv14_Get kv (bs "a");
  b ← kv14_Get kv (bs "b");
  kv ← kv14_Put kv (bs "a") (bs "1b");
  a' ← kv14_Get kv (bs "a");
  kv ← kv14_Delete kv (bs "b");
  b' ← kv14_Get kv (bs "b");
  m ← kv14_Get kv (bs "missing");
  sl ← Put14 (S14_new 8) (bs "k") (bs "v");
  k ← Get14 sl (bs "k");
  bl ← Add14 (Bloom14_new 256 3) (bs "hello");
  hello ← MaybeContains14 bl (bs "hello");
  world ← MaybeContains14 bl (bs "world");
  Some [is_val a (bs "1"); is_val b (bs "2"); is_val a' (bs "1b"); bool_decide (b' = None); bool_decide (m = None);
        is_val k (bs "v"); hello; negb world].

(** ** The tests of [handwrite/] *)

(** A sequence of calls of the cache: [inl key] is [get], [inr] is [put]; the answers of [get]. *)
Fixpoint hl_calls {K V} `{Countable K} (c : LRUCache K V) (ops : list (K + K * V)) : option (LRUCache K V * list (option V)) :=
  match ops with
  | [] => Some (c, [])
  | inl k :: ops => let '(c, a) := hl_get c k in '(c, ans) ← hl_calls c ops; Some (c, a :: ans)
  | inr (k, v) :: ops => c ← hl_put c k v; hl_calls c ops
  end.
Definition lru_test (cap : Z) (ops : list (Z + Z * Z)) (expected : list (option Z)) : option (list bool) :=
  '(_, ans) ← hl_calls (LRUCache_new cap) ops; Some [bool_decide (ans = expected)].

Definition LeetCode146Example : option (list bool) :=
  lru_test 2 [inr (1, 1); inr (2, 2); inl 1; inr (3, 3); inl 2; inr (4, 4); inl 1; inl 3; inl 4] [Some 1; None; None; Some 3; Some 4].
Definition UpdateExistingKeyDoesNotGrowSize : option (list bool) :=
  '(c, _) ← hl_calls (LRUCache_new 2) [inr (1, 1); inr (2, 2); inr (1, 10)];
  '(_, ans) ← hl_calls c [inl 1; inr (3, 3); inl 2; inl 1; inl 3];
  Some [hl_size c =? 2; bool_decide (ans = [Some 10; None; Some 10; Some 3])].
Definition GetPromotesToMostRecent : option (list bool) :=
  lru_test 3 [inr (1, 1); inr (2, 2); inr (3, 3); inl 1; inr (4, 4); inl 2; inl 1; inl 3; inl 4] [Some 1; None; Some 1; Some 3; Some 4].
Definition CapacityOneEdgeCase : option (list bool) := lru_test 1 [inr (1, 1); inl 1; inr (2, 2); inl 1; inl 2] [Some 1; None; Some 2].
Definition MissingKeyReturnsNullopt : option (list bool) := lru_test 2 [inl 42; inr (1, 1); inl 99] [None; None].
Definition StringKeyValue : option (list bool) :=
  '(_, ans) ← hl_calls (LRUCache_new 2)
    [inr (bs "a", bs "alpha"); inr (bs "b", bs "beta"); inl (bs "a"); inr (bs "c", bs "gamma"); inl (bs "b"); inl (bs "a"); inl (bs "c")];
  Some [bool_decide (ans = [Some (bs "alpha"); None; Some (bs "alpha"); Some (bs "gamma")])].

(** The list of [test_skiplist_handwrite.cpp], with the coins of each insertion. *)
Definition InsertAndSearchSmall (f : Z -> list bool) : list map_op :=
  [MInsert 3 30 (f 0); MInsert 1 10 (f 1); MInsert 2 20 (f 2); MSearch 1; MSearch 2; MSearch 3; MSearch 4].
Definition UpdateExistingKey (f : Z -> list bool) : list map_op := [MInsert 7 70 (f 0); MInsert 7 77 (f 1); MSearch 7].
Definition insert_range (f : Z -> list bool) (lo n scale : Z) : list map_op := (fun i => MInsert i (i * scale) (f i)) <$> seqZ lo n.
Definition EraseTest (f : Z -> list bool) : list map_op :=
  insert_range f 0 100 10 ++ [MErase 50; MSearch 50; MErase 50; MErase 0; MErase 99; MSearch 0; MSearch 99; MSearch 49].
Definition InsertQueryHitMiss (f : Z -> list bool) (n key : Z) : list map_op := insert_range f 1 n 2 ++ [MSearch key].

(** The pointer of [test_unique_ptr_handwrite.cpp]: variables are numbers, objects are numbered
    in the order of [new], and [deleted] asks whether the object's destructor has run. *)
Definition ptr_calls {D} (w : World D) (os : list (ptr_op D)) : option (World D) := foldl (fun w o => w ← w; ptr_step w o) (Some w) os.
Definition deleted {D} (w : World D) (o : nat) : bool := bool_decide (o ∈ (w_gone w).*2).
Definition holds {D} (w : World D) (v : nat) : option (option nat) := up_ptr <$> w_vars w !! v.

Definition ConstructAndDereference : option (list bool) :=
  w ← ptr_calls World_new [PMake 1 tt];
  w' ← ptr_calls w [PDestroy 1];
  Some [bool_decide (holds w 1 = Some (Some 0%nat)); deleted w' 0].
Definition MoveConstructor : option (list bool) :=
  w ← ptr_calls World_new [PMake 1 tt; PMoveCtor 2 1];
  Some [bool_decide (holds w 1 = Some None); bool_decide (holds w 2 = Some (Some 0%nat)); negb (deleted w 0)].
Definition MoveAssignment : option (list bool) :=
  w ← ptr_calls World_new [PMake 1 tt; PMake 2 tt; PMoveAssign 2 1];
  Some [deleted w 1; bool_decide (holds w 1 = Some None); bool_decide (holds w 2 = Some (Some 0%nat))].
Definition ReleaseTransfersOwnership : option (list bool) :=
  w ← ptr_calls World_new [PMake 1 tt; PRelease 1];
  w' ← ptr_calls w [PDestroy 1];
  Some [bool_decide (holds w 1 = Some None); negb (deleted w 0); negb (deleted w' 0)].
Definition ResetDeletesAndReplaces : option (list bool) :=
  w ← ptr_calls World_new [PMake 1 tt; PReset 1 true];
  w' ← ptr_calls w [PReset 1 false];
  Some [deleted w 0; negb (deleted w 1); bool_decide (holds w 1 = Some (Some 1%nat)); deleted w' 1; bool_decide (holds w' 1 = Some None)].
Definition ResetWithNullptrIsSafeOnEmpty : option (list bool) :=
  w ← ptr_calls World_new [PNull 1 tt; PReset 1 false]; Some [bool_decide (holds w 1 = Some None)].
(** The deleter counts its calls at address 7. *)
Definition CustomDeleterInvoked : option (list bool) :=
  w ← ptr_calls World_new [PMake 1 7%nat; PDestroy 1];
  Some [zlen (filter (fun g => g.1 = 7%nat) (w_gone w)) =? 1; deleted w 0].

(** The tests of [test_murmurhash.cpp] that do not draw random numbers. *)
Definition KnownVectorValues : option (list bool) :=
  Some [hand_murmurHash2 [] 0 =? 0; negb (hand_murmurHash2 (bs "hello") 0 =? hand_murmurHash2 (bs "world") 0);
        hand_murmurHash2 (bs "TitanKV") 42 =? hand_murmurHash2 (bs "TitanKV") 42;
        negb (hand_murmurHash2 (bs "TitanKV") 1 =? hand_murmurHash2 (bs "TitanKV") 2)].
Definition AvalancheOnSingleBitFlip : option (list bool) :=
  let base := bs "abcdefghij" in
  Some ((fun i => negb (hand_murmurHash2 (alter (fun c => z2b (Z.lxor (b2z c) 1)) i base) 0 =? hand_murmurHash2 base 0)) <$> seq 0 (length base)).

(** ** They pass *)

Ltac by_running := eexists; split; [vm_compute; reflexivity|reflexivity].

Theorem main01_prints : main01 = (Some (bs "香蕉"), Some (bs "枣"), None).
Proof. vm_compute. reflexivity. Qed.

(** The programs without threads and without coins pass all their assertions. *)
Theorem course_mains_pass :
  Forall passes [main02; main04_result; main06; main07; main08_keys; main08_store; main08_merge; main10_parser; main10_balance;
                 main10_pool; main11_raft; main11_ring; main12_token; main12_app; main13; RunSmokeTests].
Proof. repeat constructor; by_running. Qed.

(** Whatever levels the coins choose, the set of module 5 answers as its [main] expects, and its
    destructor frees every node. *)
Theorem main05_passes (flips : Z -> list bool) :
  exists s, m05_run Z.compare (m05_new 0) (ops05 flips) = Some (s, expected05) /\ m05_destroy s = Some ∅.
Proof.
  destruct (m05_refines_set Z.compare 0 (ops05 flips)) as (s & E & Hd). exists s. split; [|done]. rewrite E. by do 2 f_equal.
Qed.

Theorem handwrite_tests_pass :
  Forall passes [LeetCode146Example; UpdateExistingKeyDoesNotGrowSize; GetPromotesToMostRecent; CapacityOneEdgeCase;
                 MissingKeyReturnsNullopt; StringKeyValue; ConstructAndDereference; MoveConstructor; MoveAssignment;
                 ReleaseTransfersOwnership; ResetDeletesAndReplaces; ResetWithNullptrIsSafeOnEmpty; CustomDeleterInvoked;
                 KnownVectorValues; AvalancheOnSingleBitFlip].
Proof. repeat constructor; by_running. Qed.

(** The list answers as its tests expect, whatever the coins. *)
Lemma hand_answers ops ans :
  (map_run ∅ ops).2 = ans -> exists s, hmap_run hand_new ops = Some (s, ans) /\ hand_destroy s = Some ∅.
Proof. intros <-. apply hand_skip_refines_map. Qed.

Theorem hand_skiplist_tests_pass (f : Z -> list bool) :
  (exists s, hmap_run hand_new (InsertAndSearchSmall f) =
     Some (s, [ADone; ADone; ADone; AFound (Some 10); AFound (Some 20); AFound (Some 30); AFound None]) /\ hand_destroy s = Some ∅) /\
  (exists s, hmap_run hand_new (UpdateExistingKey f) = Some (s, [ADone; ADone; AFound (Some 77)]) /\ hand_destroy s = Some ∅) /\
  (exists s, hmap_run hand_new (EraseTest f) =
     Some (s, replicate 100 ADone ++ [AErased true; AFound None; AErased false; AErased true; AErased true; AFound None; AFound None; AFound (Some 490)]) /\
     hand_destroy s = Some ∅).
Proof. split_and!; apply hand_answers; by vm_compute. Qed.

Lemma map_run_app m ops1 ops2 :
  (map_run m (ops1 ++ ops2)).2 = (map_run m ops1).2 ++ (map_run (map_run m ops1).1 ops2).2.
Proof.
  revert m. induction ops1 as [|o ops1 IH]; intros m; [done|]. cbn. destruct (map_step m o) as [m1 a]. specialize (IH m1).
  destruct (map_run m1 (ops1 ++ ops2)), (map_run m1 ops1). cbn in *. by f_equal.
Qed.

Lemma insert_range_map f lo n scale m key : 0 <= n ->
  (map_run m (insert_range f lo n scale)).1 !! key = (if (lo <=? key) && (key <? lo + n) then Some (key * scale) else m !! key) /\
  (map_run m (insert_range f lo n scale)).2 = replicate (Z.to_nat n) ADone.
Proof.
  intros Hn. revert m lo. unfold insert_range. pattern n. apply natlike_ind; [|clear n Hn; intros n Hn IH|done]; intros m lo.
  - cbn. destruct (Z.leb_spec lo key), (Z.ltb_spec key (lo + 0)); cbn; (split; [|done]); done || lia.
  - rewrite seqZ_cons by lia. rewrite Z.pred_succ, Z2Nat.inj_succ by lia. cbn [fmap list_fmap map_run map_step replicate].
    destruct (IH (<[lo := lo * scale]> m) (Z.succ lo)) as [I1 I2]. destruct (map_run _ _) as [m1 ans] eqn:E. cbn in I1, I2 |- *.
    rewrite I1, I2. split; [|done]. destruct (decide (key = lo)) as [->|Hne].
    + rewrite lookup_insert_eq. destruct (Z.leb_spec (Z.succ lo) lo); [lia|]. cbn.
      by destruct (Z.leb_spec lo lo), (Z.ltb_spec lo (lo + Z.succ n)); try lia.
    + rewrite lookup_insert_ne by done. destruct (Z.leb_spec (Z.succ lo) key), (Z.leb_spec lo key), (Z.ltb_spec key (Z.succ lo + n)), (Z.ltb_spec key (lo + Z.succ n)); cbn; try done; lia.
Qed.

(** The large test, for any number of keys: the keys inserted are found with their values, the
    others are not. *)
Theorem hand_skiplist_hits_and_misses (f : Z -> list bool) (n key : Z) : 0 <= n ->
  exists s, hmap_run hand_new (InsertQueryHitMiss f n key) =
    Some (s, replicate (Z.to_nat n) ADone ++ [AFound (if (1 <=? key) && (key <=? n) then Some (key * 2) else None)]) /\
    hand_destroy s = Some ∅.
Proof.
  intros Hn. apply hand_answers. unfold InsertQueryHitMiss. rewrite map_run_app.
  destruct (insert_range_map f 1 n 2 ∅ key Hn) as [H1 H2]. rewrite H2. cbn. rewrite H1, lookup_empty. do 3 f_equal.
  replace (key <? 1 + n) with (key <=? n); [done|]. apply eq_bool_prop_intro. rewrite !Is_true_true. lia.
Qed.
