(* ===== verification/Coroutines.v ===== *)
(** * Coroutines of the gateway

    [core/task.h], [core/detached_task.h] and [net/io_awaitable.h] of skynet.  A coroutine body
    is a tree of actions, suspensions on a descriptor and calls of other coroutines; the
    machine keeps the coroutine frames, who awaits whom, and how many calls of
    [coroutine_handle::resume] are nested on the native stack.  It is run against the
    sequential reading of the same bodies ([eval]), which is how the rest of the development
    models the coroutines of [gateway/main.cpp]. *)

From Stdlib Require Import Lia.
From stdpp Require Import base numbers list gmap sets.
From S2P Require Import Prelude.

Section Coroutines.
(** The state actions work on, the values coroutines return, and what the rest of the world
    does to the state while one is suspended. *)
Context {St V : Type} (env : St -> St).

Inductive coro :=
| CReturn (v : V)                              (* co_return *)
| CThrow                                       (* an exception leaves the body *)
| CAct (f : St -> St * V) (k : V -> coro)      (* anything that does not suspend *)
| CAwaitIo (k : coro)                          (* co_await IoAwaitable *)
| CAwait (child : coro) (k : V -> coro).       (* co_await of a coroutine that returns a Task *)

(** The sequential reading; [None] is an exception. *)
Fixpoint eval (c : coro) (s : St) : St * option V :=
  match c with
  | CReturn v => (s, Some v)
  | CThrow => (s, None)
  | CAct f k => let '(s, v) := f s in eval (k v) s
  | CAwaitIo k => eval k (env s)
  | CAwait child k =>
      match eval child s with
      | (s, Some v) => eval (k v) s
      | (s, None) => (s, None)
      end
  end.

(** ** The machine *)

(** Where a frame is suspended; [Final] holds [result_] or the exception. *)
Inductive point := Running | AtIo (k : coro) | AtTask (child : nat) (k : V -> coro) | Final (r : option V).

(** [fr_awaiter] is [promise().awaiter_]; a [DetachedTask] has none. *)
Record frame := mkFrame { fr_point : point; fr_awaiter : option nat }.

Record machine := mkM {
  m_frames : gmap nat frame;
  m_next : nat;                     (* the address of the next frame *)
  m_cur : option (nat * coro);      (* the body that runs *)
  m_depth : nat;                    (* nested calls of resume *)
  m_st : St;
  m_terminated : bool;
}.

Definition park (p : point) (f : frame) : frame := mkFrame p (fr_awaiter f).

(** [Task::await_resume] in the awaiter [p], resumed by [final_awaiter::await_suspend] of [j]:
    the result or the exception of the child, whose frame goes with its [Task]. *)
Definition resume_awaiter (m : machine) (p : nat) : option machine :=
  f ← m_frames m !! p;
  match fr_point f with
  | AtTask j k =>
      g ← m_frames m !! j;
      match fr_point g with
      | Final r =>
          let code := match r with Some v => k v | None => CThrow end in
          Some (mkM (<[p := park Running f]> (delete j (m_frames m))) (m_next m) (Some (p, code)) (S (m_depth m)) (m_st m) false)
      | _ => None
      end
  | _ => None
  end.

(** The end of a body: [return_value] or [unhandled_exception], then [final_suspend]. *)
Definition finish (m : machine) (i : nat) (r : option V) : option machine :=
  f ← m_frames m !! i;
  match fr_awaiter f with
  | Some p => resume_awaiter (mkM (<[i := park (Final r) f]> (m_frames m)) (m_next m) None (m_depth m) (m_st m) false) p
  | None =>
      match r with
      | Some _ => Some (mkM (delete i (m_frames m)) (m_next m) None 0 (m_st m) false)
      | None => Some (mkM (m_frames m) (m_next m) None (m_depth m) (m_st m) true)
      end
  end.

(** One step of the running body; [None] when none runs, and when a frame that is gone or not
    suspended there would be touched. *)
Definition step (m : machine) : option machine :=
  '(i, c) ← m_cur m;
  match c with
  | CReturn v => finish m i (Some v)
  | CThrow => finish m i None
  | CAct a k => let '(s, v) := a (m_st m) in
                Some (mkM (m_frames m) (m_next m) (Some (i, k v)) (m_depth m) s false)
  | CAwaitIo k =>
      f ← m_frames m !! i;
      Some (mkM (<[i := park (AtIo k) f]> (m_frames m)) (m_next m) None 0 (m_st m) false)
  | CAwait child k =>
      f ← m_frames m !! i;
      let j := m_next m in
      Some (mkM (<[j := mkFrame Running (Some i)]> (<[i := park (AtTask j k) f]> (m_frames m))) (S j)
                (Some (j, child)) (S (m_depth m)) (m_st m) false)
  end.

(** The poller calls back the frame that waits for a descriptor. *)
Definition io_event (m : machine) (i : nat) : option machine :=
  match m_cur m with
  | Some _ => None
  | None =>
      f ← m_frames m !! i;
      match fr_point f with
      | AtIo k => Some (mkM (<[i := park Running f]> (m_frames m)) (m_next m) (Some (i, k)) 1 (env (m_st m)) false)
      | _ => None
      end
  end.

(** A [DetachedTask] is called and starts at once. *)
Definition spawn (m : machine) (c : coro) : option machine :=
  match m_cur m with
  | Some _ => None
  | None => let j := m_next m in
            Some (mkM (<[j := mkFrame Running None]> (m_frames m)) (S j) (Some (j, c)) 1 (m_st m) false)
  end.

Inductive mstep (m m' : machine) : Prop :=
| ms_step : m_terminated m = false -> step m = Some m' -> mstep m m'
| ms_event i : m_terminated m = false -> io_event m i = Some m' -> mstep m m'
| ms_spawn c : m_terminated m = false -> spawn m c = Some m' -> mstep m m'.

Definition machine_new (s : St) : machine := mkM ∅ 0 None 0 s false.

(** ** No frame is touched after it is gone *)

Record m_inv (m : machine) : Prop := {
  mi_fresh : forall i f, m_frames m !! i = Some f -> i < m_next m;
  mi_cur : forall i c, m_cur m = Some (i, c) -> exists a, m_frames m !! i = Some (mkFrame Running a);
  mi_running : forall i a, m_frames m !! i = Some (mkFrame Running a) -> m_terminated m = false -> exists c, m_cur m = Some (i, c);
  mi_child : forall i j k a, m_frames m !! i = Some (mkFrame (AtTask j k) a) -> i < j /\ exists p, m_frames m !! j = Some (mkFrame p (Some i));
  mi_awaiter : forall j p i, m_frames m !! j = Some (mkFrame p (Some i)) -> exists k a, m_frames m !! i = Some (mkFrame (AtTask j k) a);
  mi_final : forall i r a, m_frames m !! i <> Some (mkFrame (Final r) a);
}.

Lemma machine_new_inv s : m_inv (machine_new s).
Proof. split; simpl; intros; try rewrite lookup_empty in *; try done. Qed.

(** Changing the suspension point of the running frame. *)
Ltac frames := repeat match goal with
  | H : <[?i := _]> _ !! ?j = Some _ |- _ => apply lookup_insert_Some in H as [[? ?]|[? H]]; simplify_eq
  | H : delete ?i _ !! ?j = Some _ |- _ => apply lookup_delete_Some in H as [? H]
  end.

Lemma spawn_inv m c m' : m_inv m -> m_terminated m = false -> spawn m c = Some m' -> m_inv m'.
Proof.
  intros [Hf Hc Hr Hch Ha Hfi] Ht. unfold spawn. destruct (m_cur m) eqn:Ec; [done|]. intros [= <-].
  assert (m_frames m !! m_next m = None) as Hn.
  { destruct (m_frames m !! m_next m) eqn:E; [|done]. apply Hf in E. lia. }
  split; cbn [m_frames m_next m_cur m_terminated].
  - intros i f H. frames; [lia|]. apply Hf in H. lia.
  - intros i c' [= <- <-]. exists None. by rewrite lookup_insert_eq.
  - intros i a H _. frames; [by eexists|]. by destruct (Hr _ _ H Ht) as [? ?].
  - intros i j k a H. frames. destruct (Hch _ _ _ _ H) as (? & p & Hp). split; [done|]. exists p. rewrite lookup_insert_ne; [done|].
    intros <-. congruence.
  - intros j p i H. frames. destruct (Ha _ _ _ H) as (k & a & Hk). exists k, a. rewrite lookup_insert_ne; [done|]. intros <-. congruence.
  - intros i r a H. frames. by eapply Hfi.
Qed.

(** A running frame is parked at a descriptor, or a parked one runs. *)
Lemma repoint_inv m i f p cur d s :
  m_inv m -> m_frames m !! i = Some f ->
  (forall j k, fr_point f <> AtTask j k) -> (forall j k, p <> AtTask j k) -> (forall r, p <> Final r) ->
  (forall j a, j <> i -> m_frames m !! j <> Some (mkFrame Running a)) ->
  (p = Running /\ (exists c, cur = Some (i, c)) \/ p <> Running /\ cur = None) ->
  m_inv (mkM (<[i := park p f]> (m_frames m)) (m_next m) cur d s false).
Proof.
  intros [Hf Hc Hr Hch Ha Hfi] Hi Hnt Hpt Hpf Hno Hcur. destruct f as [q aw]. cbn [fr_point] in Hnt. unfold park. cbn [fr_awaiter].
  split; cbn [m_frames m_next m_cur m_terminated].
  - intros j g H. frames; [by eapply Hf|]. by eapply Hf.
  - intros j c' E. destruct Hcur as [(-> & c & ->)|[_ ->]]; [|done]. injection E as <- <-. exists aw. by rewrite lookup_insert_eq.
  - intros j a H _. frames; [|by edestruct Hno]. destruct Hcur as [(_ & c & ->)|[? _]]; [by eexists|done].
  - intros j1 j2 k a H. frames; [by edestruct Hpt|]. destruct (Hch _ _ _ _ H) as (? & q' & Hq). split; [done|].
    destruct (decide (i = j2)) as [->|Hne]; [|exists q'; by rewrite lookup_insert_ne]. rewrite Hi in Hq. injection Hq as <- <-.
    exists p. by rewrite lookup_insert_eq.
  - intros j1 q' j2 H. assert (exists q0, m_frames m !! j1 = Some (mkFrame q0 (Some j2))) as [q0 H0] by (frames; eauto).
    destruct (Ha _ _ _ H0) as (k & a & Hk). exists k, a. rewrite lookup_insert_ne; [done|]. intros ->. rewrite Hi in Hk. injection Hk as -> _.
    by edestruct Hnt.
  - intros j r a H. frames; [by edestruct Hpf|]. by eapply Hfi.
Qed.

(** The frame that runs, and no other. *)
Lemma running_only m i c : m_inv m -> m_terminated m = false -> m_cur m = Some (i, c) ->
  (exists a, m_frames m !! i = Some (mkFrame Running a)) /\ forall j a, j <> i -> m_frames m !! j <> Some (mkFrame Running a).
Proof.
  intros H Ht Hc. split; [by eapply mi_cur|]. intros j a Hne Hj. destruct (mi_running _ H _ _ Hj Ht) as [c' Hc']. congruence.
Qed.

Lemma event_inv m i m' : m_inv m -> m_terminated m = false -> io_event m i = Some m' -> m_inv m'.
Proof.
  intros H Ht. unfold io_event. destruct (m_cur m) as [|] eqn:Ec; [done|]. destruct (m_frames m !! i) as [f|] eqn:Ef; [|done]. cbn [mbind option_bind].
  destruct (fr_point f) eqn:Ep; try done. intros [= <-]. eapply repoint_inv; try done; try (by rewrite Ep); [|by left; eauto].
  intros j a _ Hj. destruct (mi_running _ H _ _ Hj Ht). congruence.
Qed.

Lemma await_inv m i child k f : m_inv m -> m_terminated m = false -> m_cur m = Some (i, CAwait child k) -> m_frames m !! i = Some f ->
  m_inv (mkM (<[m_next m := mkFrame Running (Some i)]> (<[i := park (AtTask (m_next m) k) f]> (m_frames m))) (S (m_next m))
             (Some (m_next m, child)) (S (m_depth m)) (m_st m) false).
Proof.
  intros H Ht Hcur Hi. destruct (running_only _ _ _ H Ht Hcur) as [[aw Hi'] Hno]. rewrite Hi in Hi'. injection Hi' as ->.
  destruct H as [Hf Hc Hr Hch Ha Hfi]. pose proof (Hf _ _ Hi) as Hlt. unfold park. cbn [fr_awaiter].
  assert (m_frames m !! m_next m = None) as Hn.
  { destruct (m_frames m !! m_next m) eqn:E; [|done]. apply Hf in E. lia. }
  split; cbn [m_frames m_next m_cur m_terminated].
  - intros j g H. frames; [lia|lia|]. apply Hf in H. lia.
  - intros j c' [= <- <-]. exists (Some i). by rewrite lookup_insert_eq.
  - intros j a H _. frames; [by eexists|]. by edestruct Hno.
  - intros j1 j2 k' a H. frames.
    + split; [done|]. exists Running. by rewrite lookup_insert_eq.
    + destruct (Hch _ _ _ _ H) as (? & q & Hq). split; [done|]. destruct (decide (i = j2)) as [->|Hne].
      * rewrite Hi in Hq. injection Hq as _ ->. eexists. rewrite lookup_insert_ne by lia. by rewrite lookup_insert_eq.
      * exists q. rewrite !lookup_insert_ne; [done|done|]. intros <-. congruence.
  - intros j1 q j2 H. frames.
    + exists k, aw. rewrite lookup_insert_ne by lia. by rewrite lookup_insert_eq.
    + destruct (Ha _ _ _ Hi) as (k' & a & Hk). exists k', a. rewrite !lookup_insert_ne; [done| |]; intros <-; congruence.
    + destruct (Ha _ _ _ H) as (k' & a & Hk). exists k', a. rewrite !lookup_insert_ne; [done| |]; intros <-; congruence.
  - intros j r a H. frames. by eapply Hfi.
Qed.

(** The end of a child: it was the running frame and its awaiter waits for it. *)
Lemma finish_awaited m i p r : m_inv m -> m_terminated m = false -> (exists c, m_cur m = Some (i, c)) ->
  m_frames m !! i = Some (mkFrame Running (Some p)) ->
  exists k a, m_frames m !! p = Some (mkFrame (AtTask i k) a) /\
    finish m i r = Some (mkM (<[p := mkFrame Running a]> (delete i (m_frames m))) (m_next m)
                             (Some (p, match r with Some v => k v | None => CThrow end)) (S (m_depth m)) (m_st m) false).
Proof.
  intros H Ht [c Hcur] Hi. destruct (mi_awaiter _ H _ _ _ Hi) as (k & a & Hp). exists k, a. split; [done|].
  assert (i <> p) as Hne by (intros <-; congruence). unfold finish. rewrite Hi. cbn [mbind option_bind fr_awaiter].
  unfold resume_awaiter. cbn [m_frames m_next m_depth m_st]. rewrite lookup_insert_ne by done. rewrite Hp. cbn [mbind option_bind fr_point].
  rewrite lookup_insert_eq. cbn [mbind option_bind fr_point park fr_awaiter]. by rewrite delete_insert_eq.
Qed.

Lemma finish_awaited_inv m i p k a code d : m_inv m -> m_terminated m = false -> (exists c, m_cur m = Some (i, c)) ->
  m_frames m !! i = Some (mkFrame Running (Some p)) -> m_frames m !! p = Some (mkFrame (AtTask i k) a) ->
  m_inv (mkM (<[p := mkFrame Running a]> (delete i (m_frames m))) (m_next m) (Some (p, code)) d (m_st m) false).
Proof.
  intros H Ht [c Hcur] Hi Hp. destruct (running_only _ _ _ H Ht Hcur) as [_ Hno]. destruct H as [Hf Hc Hr Hch Ha Hfi].
  split; cbn [m_frames m_next m_cur m_terminated].
  - intros j g H. frames; by eapply Hf.
  - intros j c' [= <- <-]. exists a. by rewrite lookup_insert_eq.
  - intros j a' H _. frames; [by eexists|]. by edestruct (Hno j).
  - intros j1 j2 k' a' H. frames. destruct (Hch _ _ _ _ H) as (? & q & Hq). split; [done|].
    assert (i <> j2) as Hij by (intros <-; rewrite Hi in Hq; congruence). destruct (decide (p = j2)) as [->|Hne].
    + rewrite Hp in Hq. injection Hq as _ ->. eexists. by rewrite lookup_insert_eq.
    + exists q. rewrite lookup_insert_ne by done. by rewrite lookup_delete_ne.
  - intros j1 q j2 H. frames.
    + destruct (Ha _ _ _ Hp) as (k' & a' & Hk). exists k', a'. rewrite lookup_insert_ne by (intros <-; rewrite Hp in Hk; simplify_eq; apply Hch in Hp as [? _]; lia).
      rewrite lookup_delete_ne; [done|]. intros <-. congruence.
    + destruct (Ha _ _ _ H) as (k' & a' & Hk). exists k', a'. rewrite lookup_insert_ne by (intros <-; rewrite Hp in Hk; congruence).
      rewrite lookup_delete_ne; [done|]. intros <-. congruence.
  - intros j r a' H. frames. by eapply Hfi.
Qed.

Lemma finish_detached_inv m i : m_inv m -> m_terminated m = false -> (exists c, m_cur m = Some (i, c)) ->
  m_frames m !! i = Some (mkFrame Running None) -> m_inv (mkM (delete i (m_frames m)) (m_next m) None 0 (m_st m) false).
Proof.
  intros H Ht [c Hcur] Hi. destruct (running_only _ _ _ H Ht Hcur) as [_ Hno]. destruct H as [Hf Hc Hr Hch Ha Hfi].
  split; cbn [m_frames m_next m_cur m_terminated].
  - intros j g H. frames. by eapply Hf.
  - done.
  - intros j a H _. frames. by edestruct (Hno j).
  - intros j1 j2 k a H. frames. destruct (Hch _ _ _ _ H) as (? & q & Hq). split; [done|]. exists q. rewrite lookup_delete_ne; [done|]. intros <-. congruence.
  - intros j1 q j2 H. frames. destruct (Ha _ _ _ H) as (k & a & Hk). exists k, a. rewrite lookup_delete_ne; [done|]. intros <-. congruence.
  - intros j r a H. frames. by eapply Hfi.
Qed.

(** A body that runs can always take its next step, and the frames stay in order. *)
Lemma step_inv m : m_inv m -> m_terminated m = false -> m_cur m <> None ->
  exists m', step m = Some m' /\ (m_terminated m' = false -> m_inv m').
Proof.
  intros H Ht Hcur. destruct (m_cur m) as [[i c]|] eqn:Ec; [|done]. clear Hcur.
  destruct (running_only _ _ _ H Ht Ec) as [[aw Hi] Hno]. unfold step. rewrite Ec. cbn [mbind option_bind].
  assert (forall r, exists m', finish m i r = Some m' /\ (m_terminated m' = false -> m_inv m')) as Hfin.
  { intros r. destruct aw as [p|].
    - destruct (finish_awaited m i p r H Ht (ex_intro _ c Ec) Hi) as (k & a & Hp & ->). eexists. split; [done|]. intros _.
      by eapply finish_awaited_inv; eauto.
    - unfold finish. rewrite Hi. cbn [mbind option_bind fr_awaiter]. destruct r; eexists; (split; [done|]); [|done].
      intros _. by eapply finish_detached_inv; eauto. }
  destruct c as [v| |a k|k|child k]; [apply Hfin|apply Hfin| | |].
  - destruct (a (m_st m)) as [s v]. eexists. split; [done|]. intros _. destruct H as [Hf Hc Hr Hch Ha Hfi]. split; cbn; try done.
    + intros j c [= <- <-]. eauto.
    + intros j a' Hj _. destruct (Hr _ _ Hj Ht) as [c Hc']. rewrite Ec in Hc'. injection Hc' as <- <-. eauto.
  - rewrite Hi. cbn [mbind option_bind]. eexists. split; [done|]. intros _.
    eapply (repoint_inv m i (mkFrame Running aw)); try done. by right.
  - rewrite Hi. cbn [mbind option_bind]. eexists. split; [done|]. intros _. by apply await_inv.
Qed.

Inductive reachable (s : St) : machine -> Prop :=
| reach_new : reachable s (machine_new s)
| reach_step m m' : reachable s m -> mstep m m' -> reachable s m'.

Lemma reachable_inv s m : reachable s m -> m_terminated m = false -> m_inv m.
Proof.
  induction 1 as [|m m' Hr IH Hs]; intros Ht; [apply machine_new_inv|].
  destruct Hs as [Ht0 E|i Ht0 E|c Ht0 E]; specialize (IH Ht0).
  - assert (m_cur m <> None) as Hc by (unfold step in E; by destruct (m_cur m)).
    destruct (step_inv _ IH Ht0 Hc) as (m1 & E1 & H1). rewrite E in E1. injection E1 as <-. auto.
  - by eapply event_inv.
  - by eapply spawn_inv.
Qed.

(** A suspended frame waits for a descriptor, or for a younger frame: the youngest waits for a
    descriptor. *)
Lemma parked_exists m : m_inv m -> m_terminated m = false -> m_cur m = None -> m_frames m <> ∅ ->
  exists i k a, m_frames m !! i = Some (mkFrame (AtIo k) a).
Proof.
  intros H Ht Hcur Hne.
  assert (forall n i f, m_next m - i <= n -> m_frames m !! i = Some f -> exists i k a, m_frames m !! i = Some (mkFrame (AtIo k) a)) as Hall.
  { induction n as [|n IH]; intros i f Hle Hi; [pose proof (mi_fresh _ H _ _ Hi); lia|]. destruct f as [[|k|j k|r] a].
    - destruct (mi_running _ H _ _ Hi Ht). congruence.
    - eauto.
    - destruct (mi_child _ H _ _ _ _ Hi) as (Hlt & p & Hj). eapply IH; [|exact Hj]. pose proof (mi_fresh _ H _ _ Hj). lia.
    - by destruct (mi_final _ H _ _ _ Hi). }
  apply map_choose in Hne as (i & f & Hi). by eapply Hall.
Qed.

(** C35: in every interleaving of client coroutines and descriptor events the frames are well formed
    (every awaiter waits for its child, exactly the running body's frame is not suspended), a
    body that runs can always go on (no frame is resumed or read after it was destroyed), and
    when none runs every frame left waits, at the end of its chain, for a descriptor that can
    resume it: none is leaked. *)
Theorem coroutines_safe s m : reachable s m -> m_terminated m = false ->
  m_inv m /\ (m_cur m <> None -> is_Some (step m)) /\
  (m_cur m = None -> m_frames m <> ∅ -> exists i, is_Some (io_event m i)).
Proof.
  intros Hr Ht. pose proof (reachable_inv _ _ Hr Ht) as H. split_and!; [done| |].
  - intros Hc. destruct (step_inv _ H Ht Hc) as (m' & -> & _). by eexists.
  - intros Hc Hne. destruct (parked_exists _ H Ht Hc Hne) as (i & k & a & Hi). exists i. unfold io_event. rewrite Hc, Hi. by eexists.
Qed.

(** ** The sequential reading is right *)

(** The steps of one coroutine and its children: those of the running body, and events of the
    descriptors they wait for.  No other coroutine is called, and none of the frames in
    [others] is resumed. *)
Inductive own_steps (others : gmap nat frame) : machine -> machine -> Prop :=
| own_refl m : own_steps others m m
| own_step m m1 m2 : m_terminated m = false -> step m = Some m1 -> own_steps others m1 m2 -> own_steps others m m2
| own_event i m m1 m2 : m_terminated m = false -> others !! i = None -> io_event m i = Some m1 ->
    own_steps others m1 m2 -> own_steps others m m2.

Lemma own_trans others m1 m2 m3 : own_steps others m1 m2 -> own_steps others m2 m3 -> own_steps others m1 m3.
Proof. induction 1; [done|..]; intros; [eapply own_step|eapply own_event]; eauto. Qed.

Lemma own_one others m m' : m_terminated m = false -> step m = Some m' -> own_steps others m m'.
Proof. intros Ht E. eapply own_step; [done|done|constructor]. Qed.

Lemma own_reachable others s m m' : own_steps others m m' -> reachable s m -> reachable s m'.
Proof.
  induction 1 as [|m m1 m2 Ht E _ IH|i m m1 m2 Ht _ E _ IH]; intros Hr; [done|..]; apply IH; (eapply reach_step; [done|]);
    [by apply ms_step|by eapply ms_event].
Qed.

(** What remains of a body when its value is known. *)
Definition outcome (r : option V) : coro := match r with Some v => CReturn v | None => CThrow end.

(** A child that ends hands its outcome to the awaiter and leaves the frames as they were
    before the call. *)
Lemma child_returns fs i j k a r nx d s :
  fs !! i = Some (mkFrame Running a) -> fs !! j = None ->
  step (mkM (<[j := mkFrame Running (Some i)]> (<[i := mkFrame (AtTask j k) a]> fs)) nx (Some (j, outcome r)) d s false) =
  Some (mkM fs nx (Some (i, match r with Some v => k v | None => CThrow end)) (S d) s false).
Proof.
  intros Hi Hj. assert (i <> j) as Hij by (intros ->; congruence). unfold step. cbn [m_cur mbind option_bind].
  assert (forall m, m_cur m = Some (j, outcome r) -> (match outcome r with CReturn v => finish m j (Some v) | CThrow => finish m j None | _ => None end) = finish m j r) as Hr by (by destruct r).
  match goal with |- context [finish ?m j _] => specialize (Hr m eq_refl) end.
  etransitivity; [|etransitivity; [exact Hr|]]; [by destruct r|].
  unfold finish. cbn [m_frames]. rewrite lookup_insert_eq. cbn [mbind option_bind fr_awaiter park].
  unfold resume_awaiter. cbn [m_frames m_next m_depth m_st]. rewrite insert_insert_eq, lookup_insert_ne, lookup_insert_eq by done.
  cbn [mbind option_bind fr_point]. rewrite lookup_insert_eq. cbn [mbind option_bind fr_point park fr_awaiter].
  rewrite delete_insert_id by (by rewrite lookup_insert_ne). by rewrite insert_insert_eq, insert_id.
Qed.

Lemma eval_run others c : forall m i a, others !! i = None -> (forall j, m_next m <= j -> others !! j = None) -> m_terminated m = false -> m_cur m = Some (i, c) -> m_frames m !! i = Some (mkFrame Running a) ->
  (forall j, m_next m <= j -> m_frames m !! j = None) ->
  exists m', own_steps others m m' /\ m_terminated m' = false /\ m_cur m' = Some (i, outcome (eval c (m_st m)).2) /\
    m_st m' = (eval c (m_st m)).1 /\ m_frames m' = m_frames m /\ m_next m <= m_next m'.
Proof.
  induction c as [v| |f k IH|k IH|child IHc k IHk]; intros m i a Hoi Hon Ht Hcur Hi Hfresh.
  - exists m. split_and!; try done. constructor.
  - exists m. split_and!; try done. constructor.
  - cbn [eval]. destruct (f (m_st m)) as [s v] eqn:Ef.
    set (m1 := mkM (m_frames m) (m_next m) (Some (i, k v)) (m_depth m) s false).
    destruct (IH v m1 i a Hoi Hon eq_refl eq_refl Hi Hfresh) as (m' & Hs & H). exists m'. split; [|exact H].
    eapply own_trans; [|exact Hs]. apply own_one; [done|]. unfold step. rewrite Hcur. cbn [mbind option_bind]. by rewrite Ef.
  - cbn [eval]. set (m1 := mkM (<[i := mkFrame (AtIo k) a]> (m_frames m)) (m_next m) None 0 (m_st m) false).
    set (m2 := mkM (m_frames m) (m_next m) (Some (i, k)) 1 (env (m_st m)) false).
    destruct (IH m2 i a Hoi Hon eq_refl eq_refl Hi Hfresh) as (m' & Hs & H). exists m'. split; [|exact H].
    apply (own_step _ _ m1); [done| |apply (own_event _ i _ m2); [done|done| |exact Hs]].
    + unfold step. rewrite Hcur. cbn [mbind option_bind]. by rewrite Hi.
    + unfold io_event, m1. cbn [m_cur m_frames]. rewrite lookup_insert_eq. cbn [mbind option_bind fr_point park fr_awaiter m_next m_st].
      by rewrite insert_insert_eq, insert_id.
  - cbn [eval]. set (j := m_next m).
    set (m1 := mkM (<[j := mkFrame Running (Some i)]> (<[i := mkFrame (AtTask j k) a]> (m_frames m))) (S j) (Some (j, child)) (S (m_depth m)) (m_st m) false).
    assert (m_frames m !! j = None) as Hj by (by apply Hfresh). assert (i <> j) as Hij by (intros ->; congruence).
    destruct (IHc m1 j (Some i) (Hon j (le_n _)) ltac:(intros x Hx; apply Hon; cbn in Hx; unfold j in *; lia) eq_refl eq_refl) as (m2 & Hs2 & Ht2 & Hc2 & Hst2 & Hf2 & Hn2).
    { cbn. by rewrite lookup_insert_eq. }
    { intros x Hx. cbn in *. rewrite !lookup_insert_ne by (intros <-; unfold j in *; (lia || (pose proof (Hfresh i); congruence || (rewrite Hfresh in Hi by lia; done)))). apply Hfresh. unfold j in *. lia. }
    destruct (eval child (m_st m)) as [s r] eqn:Ev. cbn [m1 m_st] in Hc2, Hst2. rewrite Ev in Hc2, Hst2. cbn [fst snd] in Hc2, Hst2.
    set (m3 := mkM (m_frames m) (m_next m2) (Some (i, match r with Some v => k v | None => CThrow end)) (S (m_depth m2)) s false).
    assert (step m2 = Some m3) as E3.
    { destruct m2 as [fs2 nx2 cur2 d2 st2 t2]. cbn in *. subst. by apply child_returns. }
    assert (own_steps others m m3) as Hm3.
    { eapply own_trans; [apply (own_one _ _ m1 Ht)|eapply own_trans; [exact Hs2|by apply own_one]].
      unfold step. rewrite Hcur. cbn [mbind option_bind]. by rewrite Hi. }
    assert (forall x, m_next m3 <= x -> m_frames m3 !! x = None) as Hfresh3 by (intros x Hx; apply Hfresh; cbn in *; unfold j in *; lia).
    destruct r as [v|].
    + destruct (IHk v m3 i a Hoi ltac:(intros x Hx; apply Hon; cbn in *; unfold j in *; lia) eq_refl eq_refl Hi Hfresh3) as (m' & Hs & Ht' & Hc' & Hst' & Hf' & Hn'). exists m'. split_and!; try done; [by eapply own_trans|].
      cbn in Hn2, Hn'. lia.
    + exists m3. split_and!; try done. cbn in *. lia.
Qed.

(** A detached coroutine, once called, runs to its end as the sequential program says (given
    the events it waits for), whatever other coroutines are suspended: their frames are
    untouched and its own are all gone.  An exception that leaves it ends the process. *)
Lemma detached_run m c : m_inv m -> m_terminated m = false -> m_cur m = None ->
  exists m1 m', spawn m c = Some m1 /\ own_steps (m_frames m) m1 m' /\ m_st m' = (eval c (m_st m)).1 /\ m_cur m' = None /\
    match (eval c (m_st m)).2 with
    | Some _ => m_terminated m' = false /\ m_frames m' = m_frames m
    | None => m_terminated m' = true
    end.
Proof.
  intros H Ht Hcur. set (j := m_next m).
  assert (forall x, j <= x -> m_frames m !! x = None) as Hfresh.
  { intros x Hx. destruct (m_frames m !! x) eqn:E; [|done]. apply (mi_fresh _ H) in E. unfold j in *. lia. }
  set (m1 := mkM (<[j := mkFrame Running None]> (m_frames m)) (S j) (Some (j, c)) 1 (m_st m) false).
  destruct (eval_run (m_frames m) c m1 j None (Hfresh j (le_n _)) ltac:(intros x Hx; apply Hfresh; cbn in Hx; lia) eq_refl eq_refl) as (m2 & Hs & Ht2 & Hc2 & Hst2 & Hf2 & _).
  { cbn. by rewrite lookup_insert_eq. }
  { intros x Hx. cbn in *. rewrite lookup_insert_ne by lia. apply Hfresh. lia. }
  assert (exists m', step m2 = Some m' /\ m_st m' = m_st m2 /\ m_cur m' = None /\
    match (eval c (m_st m)).2 with Some _ => m_terminated m' = false /\ m_frames m' = m_frames m | None => m_terminated m' = true end) as (m' & E & H').
  { unfold step. rewrite Hc2. cbn [mbind option_bind]. cbn [m1 m_st].
    destruct (eval c (m_st m)).2; cbn [outcome]; unfold finish; rewrite Hf2; cbn [m1 m_frames]; rewrite lookup_insert_eq; cbn [mbind option_bind fr_awaiter];
      eexists; (do 3 (split; [done|])); [|done].
    split; [done|]. cbn. rewrite delete_insert_id; [done|]. by apply Hfresh. }
  exists m1, m'. destruct H' as (Est & H'). split; [unfold spawn; by rewrite Hcur|].
  split_and!; [|by rewrite Est|apply H'..]. eapply own_trans; [exact Hs|by apply own_one].
Qed.

(** C37: a detached coroutine that is called in any reachable state, whose descriptors become ready
    one after the other, comes to its end by steps of its own body and of the children it
    awaits, with the effect of its body read as a sequential program, and leaves the frames of
    the others as they were; if an exception leaves the body, the process is terminated. *)
Theorem coroutine_sequential s m c : reachable s m -> m_terminated m = false -> m_cur m = None ->
  exists m1 m', spawn m c = Some m1 /\ own_steps (m_frames m) m1 m' /\ m_st m' = (eval c (m_st m)).1 /\ m_cur m' = None /\
    match (eval c (m_st m)).2 with
    | Some _ => m_terminated m' = false /\ m_frames m' = m_frames m
    | None => m_terminated m' = true
    end.
Proof. intros Hr Ht. apply detached_run; [by eapply reachable_inv|done]. Qed.

(** ** The native stack

    [final_awaiter] and [Task::await_suspend] call [resume] instead of transferring control:
    a child that ends without suspending resumes its awaiter on top of its own activation. *)

Definition call_now (v : V) (n : nat) (c : coro) : coro := Nat.iter n (fun k => CAwait (CReturn v) (fun _ => k)) c.

Lemma call_now_depth v c n : forall m i a, m_terminated m = false -> m_cur m = Some (i, call_now v n c) ->
  m_frames m !! i = Some (mkFrame Running a) -> (forall j, m_next m <= j -> m_frames m !! j = None) ->
  exists m', own_steps ∅ m m' /\ m_terminated m' = false /\ m_cur m' = Some (i, c) /\ m_depth m' = m_depth m + 2 * n /\ m_st m' = m_st m.
Proof.
  induction n as [|n IH]; intros m i a Ht Hcur Hi Hfresh; [exists m; split_and!; [constructor|done|done|lia|done]|].
  destruct m as [fs nx cur d s t]. cbn in *. subst. assert (fs !! nx = None) as Hnx by (by apply Hfresh).
  set (m1 := mkM (<[nx := mkFrame Running (Some i)]> (<[i := mkFrame (AtTask nx (fun _ => call_now v n c)) a]> fs)) (S nx) (Some (nx, CReturn v)) (S d) s false).
  set (m2 := mkM fs (S nx) (Some (i, call_now v n c)) (S (S d)) s false).
  destruct (IH m2 i a eq_refl eq_refl Hi) as (m' & Hs & Ht' & Hc' & Hd & Hst); [intros x Hx; apply Hfresh; cbn in Hx; lia|].
  exists m'. split_and!; try done; [|cbn in Hd; lia].
  eapply own_trans; [apply (own_one _ _ m1); [done|]|eapply own_trans; [apply (own_one _ m1 m2); [done|]|exact Hs]].
  - unfold step. cbn [m_cur mbind option_bind]. cbn. rewrite Hi. done.
  - by apply (child_returns fs i nx (fun _ => call_now v n c) a (Some v)).
Qed.

(** However large a bound, a coroutine that awaits children which end at once (a socket with
    data at hand) nests more calls of [resume] than that, without ever returning to the
    poller. *)
Theorem native_stack_unbounded (s : St) (v : V) (bound : nat) :
  exists c m, reachable s m /\ m_depth m > bound /\ m_cur m = Some (0, c).
Proof.
  set (c0 := call_now v bound (CReturn v)).
  set (m1 := mkM (<[0 := mkFrame Running None]> ∅) 1 (Some (0, c0)) 1 s false).
  destruct (call_now_depth v (CReturn v) bound m1 0 None eq_refl eq_refl) as (m' & Hs & _ & Hc & Hd & _).
  { cbn [m1 m_frames]. by rewrite lookup_insert_eq. }
  { intros x Hx. cbn in *. by rewrite lookup_insert_ne by lia. }
  exists (CReturn v), m'. split_and!; [|cbn in Hd; lia|done].
  assert (reachable s m1) as Hr1 by (eapply reach_step; [apply reach_new|]; by eapply (ms_spawn _ _ c0)).
  by eapply own_reachable.
Qed.

End Coroutines.
Arguments coro : clear implicits.
Arguments machine : clear implicits.

(** A coroutine that awaits a child which waits for a descriptor. *)
Definition demo_coro : coro nat nat := CAwait (CAwaitIo (CAct (fun s => (s + 1, s)) (fun v => CReturn v))) (fun v => CAct (fun s => (s + v, 0)) (fun _ => CReturn 0)).

Lemma coroutines_safe_witness : exists m : machine nat nat, reachable id 5 m /\ m_terminated m = false /\ m_cur m <> None /\ is_Some (step m).
Proof.
  assert (exists m, spawn (machine_new 5 : machine nat nat) demo_coro = Some m) as [m E] by (by eexists).
  assert (reachable id 5 m) as Hr by (eapply reach_step; [apply reach_new|]; by eapply ms_spawn).
  assert (m_terminated m = false /\ m_cur m <> None) as [Ht Hc] by (by injection E as <-).
  exists m. destruct (coroutines_safe id 5 m Hr Ht) as (_ & H & _). exact (conj Hr (conj Ht (conj Hc (H Hc)))).
Defined.

Lemma coroutine_sequential_witness :
  exists m1 m : machine nat nat, spawn (machine_new 5) demo_coro = Some m1 /\ own_steps id ∅ m1 m /\ m_st m = 11 /\ m_frames m = ∅.
Proof.
  destruct (coroutine_sequential id 5 (machine_new 5) demo_coro (reach_new _ _) eq_refl eq_refl) as (m1 & m & Hsp & Hs & Hst & _ & _ & Hf).
  exists m1, m. split_and!; [exact Hsp|exact Hs|exact Hst|exact Hf].
Defined.

(** ** [asyncRead] *)

(** What [read] returns: a count of bytes, end of file, or a value of [errno]. *)
Inductive rdres := RdBytes (n : nat) | RdEof | RdIntr | RdAgain | RdErr.

(** The script of results of the descriptor, consumed by each call. *)
Definition read_call (script : list rdres) : list rdres * rdres :=
  match script with r :: script => (script, r) | [] => ([], RdAgain) end.

(** The loop, for the number of rounds it takes; the value is [n], 0 or -1. *)
Fixpoint asyncRead (rounds : nat) : coro (list rdres) rdres :=
  match rounds with
  | O => CThrow
  | S rounds =>
      CAct read_call (fun r =>
        match r with
        | RdBytes n => if (n =? 0)%nat then CReturn RdEof else CReturn (RdBytes n)
        | RdEof => CReturn RdEof
        | RdIntr => asyncRead rounds
        | RdAgain => CAwaitIo (asyncRead rounds)
        | RdErr => CReturn RdErr
        end)
  end.

Definition retried (r : rdres) : bool := match r with RdIntr | RdAgain => true | _ => false end.
Definition settled (r : rdres) : rdres := match r with RdBytes O => RdEof | r => r end.

(** Interrupted and empty-handed reads are repeated, and the first other result is returned. *)
Theorem asyncRead_first (env : list rdres -> list rdres) pre r rest :
  (forall s, env s = s) -> Forall (fun x => retried x = true) pre -> retried r = false ->
  eval env (asyncRead (S (length pre))) (pre ++ r :: rest) = (rest, Some (settled r)).
Proof.
  intros Henv Hpre Hr. induction Hpre as [|x pre Hx _ IH].
  - cbn. destruct r as [[|n]| | | |]; done.
  - cbn [length app asyncRead eval read_call]. destruct x; try done. cbn [eval]. rewrite Henv. exact IH.
Qed.

(** ** [asyncConnect] *)

(** What the system calls return: the descriptor, whether the address parses, the result of
    [connect] ([true] is 0, else whether [errno] is [EINPROGRESS]) and the final
    [getsockopt] (its success and [so_error = 0]). *)
Record connect_env := mkConn {
  ce_socket : option nat; ce_pton : bool; ce_connect : bool; ce_inprogress : bool; ce_sockopt : bool; ce_no_error : bool }.

(** The socket returned, the descriptors closed on the way, and whether it suspended. *)
Definition asyncConnect (e : connect_env) : option nat * list nat * bool :=
  match ce_socket e with
  | None => (None, [], false)
  | Some fd =>
      if negb (ce_pton e) then (None, [fd], false)
      else if ce_connect e then (Some fd, [], false)
      else if negb (ce_inprogress e) then (None, [fd], false)
      else if negb (ce_sockopt e) || negb (ce_no_error e) then (None, [fd], true)
      else (Some fd, [], true)
  end.

(** On every path the descriptor is either closed once or handed to the caller, and a socket is
    returned only when the connection is established. *)
Theorem asyncConnect_no_leak e fd : ce_socket e = Some fd ->
  let '(r, closed, _) := asyncConnect e in
  (r = Some fd /\ closed = [] /\ (ce_connect e = true \/ (ce_inprogress e = true /\ ce_no_error e = true))) \/ (r = None /\ closed = [fd]).
Proof.
  intros E. unfold asyncConnect. rewrite E.
  destruct (ce_pton e), (ce_connect e) eqn:Ec, (ce_inprogress e) eqn:Ei, (ce_sockopt e), (ce_no_error e) eqn:En; simpl; auto 10.
Qed.
