(* ===== verification/SkynetNet.v ===== *)
(** * Sockets, streams and acceptors of the gateway

    [net/socket.cpp], [net/tcp_stream.cpp] and [net/acceptor.cpp] of skynet.  Results of
    system calls are inputs: a script that says how much each [read] or [write] moves, or
    which error it reports. *)

From Stdlib Require Import ZArith Lia.
From stdpp Require Import base numbers strings list.
From S2P Require Import Prelude CppString.
Local Open Scope Z_scope.

(** ** [Socket] *)

(** The descriptor, -1 when there is none. *)
Record Socket := mkSocket { sk_fd : Z }.

(** The descriptors closed by [close] and by the destructor. *)
Definition sk_close (s : Socket) : Socket * list Z := if sk_fd s >=? 0 then (mkSocket (-1), [sk_fd s]) else (s, []).
Definition sk_destroy (s : Socket) : list Z := if sk_fd s >=? 0 then [sk_fd s] else [].

(** A descriptor is closed exactly once, however often [close] is called before the end. *)
Fixpoint sk_closes (n : nat) (s : Socket) : list Z :=
  match n with O => sk_destroy s | S n => let '(s, c) := sk_close s in c ++ sk_closes n s end.

Lemma socket_closed_once n fd : 0 <= fd -> sk_closes n (mkSocket fd) = [fd].
Proof.
  intros Hfd. assert (forall n, sk_closes n (mkSocket (-1)) = []) as H1 by (clear; induction n as [|n IH]; [done|exact IH]).
  assert (fd >=? 0 = true) as Hge by (apply Z.geb_le; lia).
  destruct n as [|n]; cbn [sk_closes]; unfold sk_destroy, sk_close; cbn [sk_fd]; rewrite Hge; [done|]. by rewrite H1.
Qed.

(** ** [TcpStream] *)

(** What a call reports: a count that may be less than what was asked for (never 0 for a
    transfer), the end of the stream, [EAGAIN], another error. *)
Inductive xfer := XMove (n : nat) | XEof | XAgain | XErr.

(** [read(buf, len)] of a socket with the given bytes still to come. *)
Definition sys_read (r : xfer) (len : nat) (stream : bytes) : option (bytes * bytes) :=
  match r with
  | XMove n => let n := Nat.min (S n) len in
               match take n stream with [] => None | got => Some (got, drop n stream) end
  | _ => None
  end.

(** The outcome of a call: the answer and the stream left; [None] while it spins on [EAGAIN]. *)
Fixpoint readExact (script : list xfer) (len : nat) (stream : bytes) (total : bytes) : option (bool * bytes * bytes) :=
  if (length total <? len)%nat then
    match script with
    | [] => None
    | r :: script =>
        match r with
        | XAgain => readExact script len stream total
        | XErr | XEof => Some (false, total, stream)
        | XMove _ =>
            match sys_read r (len - length total) stream with
            | None => Some (false, total, stream)
            | Some (got, stream) => readExact script len stream (total ++ got)
            end
        end
    end
  else Some (true, total, stream).

Record TcpStream := mkStream { ts_read_buf : bytes }.
Definition TcpStream_new : TcpStream := mkStream [].

Definition kTmp : nat := 4096.

(** The answer, the line, the stream object and the bytes still to come. *)
Fixpoint readUntil (script : list xfer) (t : TcpStream) (delim : bytes) (stream : bytes) : option (option bytes * TcpStream * bytes) :=
  match find_sub delim (ts_read_buf t) with
  | Some pos =>
      let n := (pos + length delim)%nat in
      Some (Some (take n (ts_read_buf t)), mkStream (drop n (ts_read_buf t)), stream)
  | None =>
      match script with
      | [] => None
      | r :: script =>
          match r with
          | XAgain => readUntil script t delim stream
          | XErr | XEof => Some (None, t, stream)
          | XMove _ =>
              match sys_read r kTmp stream with
              | None => Some (None, t, stream)
              | Some (got, stream) => readUntil script (mkStream (ts_read_buf t ++ got)) delim stream
              end
          end
      end
  end.

(** [errno] keeps its value when [write] returns 0; [XEof] is such a return. *)
Fixpoint writeAll (script : list xfer) (errno_again : bool) (data : bytes) : option (bool * bytes) :=
  match data with
  | [] => Some (true, [])
  | _ =>
      match script with
      | [] => None
      | XMove n :: script =>
          '(ok, rest) ← writeAll script errno_again (drop (S n) data); Some (ok, take (S n) data ++ rest)
      | XEof :: script => if errno_again then writeAll script errno_again data else Some (false, [])
      | XAgain :: script => writeAll script true data
      | XErr :: _ => Some (false, [])
      end
  end.

(** ** Streams are cut where they should be *)

Lemma sys_read_split r n s got s' : sys_read r n s = Some (got, s') -> got ++ s' = s /\ (length got <= n)%nat.
Proof.
  unfold sys_read. destruct r as [k| | |]; [|done..]. destruct (take (S k `min` n) s) as [|b l] eqn:E; [done|]. intros [= <- <-].
  rewrite <- E. split; [apply take_drop|]. rewrite length_take. lia.
Qed.

(** [readExact]: what is read is the next bytes of the stream, exactly [len] on success. *)
Theorem readExact_next script len : forall stream total ok got rest, (length total <= len)%nat ->
  readExact script len stream total = Some (ok, got, rest) ->
  got ++ rest = total ++ stream /\ (ok = true <-> length got = len).
Proof.
  induction script as [|r script IH]; intros stream total ok got rest Hl; cbn [readExact]; destruct (Nat.ltb_spec (length total) len) as [Hlt|Hge]; try done.
  - intros [= <- <- <-]. split; [done|]. split; [lia|done].
  - assert (Some (false, total, stream) = Some (ok, got, rest) -> got ++ rest = total ++ stream /\ (ok = true <-> length got = len)) as Hstop.
    { intros [= <- <- <-]. split; [done|]. split; [done|lia]. }
    destruct r as [n| | |]; [|exact Hstop|by apply IH|exact Hstop]. destruct (sys_read (XMove n) (len - length total) stream) as [[g s]|] eqn:Er; [|exact Hstop].
    apply sys_read_split in Er as [<- Hg]. intros H. apply IH in H as [H1 H2]; [|rewrite length_app; lia]. split; [|done]. by rewrite H1, app_assoc.
  - intros [= <- <- <-]. split; [done|]. split; [lia|done].
Qed.

(** [readUntil]: nothing of the stream is lost or reordered, and a line ends with the first
    delimiter. *)
Theorem readUntil_first script delim : forall t stream line t' rest,
  readUntil script t delim stream = Some (line, t', rest) ->
  default [] line ++ ts_read_buf t' ++ rest = ts_read_buf t ++ stream /\
  match line with
  | Some l => exists pos, find_sub delim (ts_read_buf t ++ stream) = Some pos /\ length l = (pos + length delim)%nat
  | None => find_sub delim (ts_read_buf t') = None
  end.
Proof.
  induction script as [|r script IH]; intros t stream line t' rest; cbn [readUntil]; destruct (find_sub delim (ts_read_buf t)) as [pos|] eqn:Ef; try done.
  1, 2: intros [= <- <- <-]; cbn [from_option ts_read_buf]; (split; [unfold id; by rewrite app_assoc, take_drop|]); exists pos; (split; [by apply find_sub_app|]);
    rewrite length_take; apply find_sub_bound in Ef; lia.
  assert (Some (None, t, stream) = Some (line, t', rest) -> default [] line ++ ts_read_buf t' ++ rest = ts_read_buf t ++ stream /\
    match line with Some l => exists pos, find_sub delim (ts_read_buf t ++ stream) = Some pos /\ length l = (pos + length delim)%nat
                  | None => find_sub delim (ts_read_buf t') = None end) as Hstop by (by intros [= <- <- <-]).
  destruct r as [n| | |]; [|exact Hstop|by apply IH|exact Hstop]. destruct (sys_read (XMove n) kTmp stream) as [[g s]|] eqn:Er; [|exact Hstop].
  apply sys_read_split in Er as [<- _]. intros H. apply IH in H. cbn [ts_read_buf] in H. by rewrite <- app_assoc in H.
Qed.

(** [writeAll]: the bytes sent are a prefix of the data, all of it on success. *)
Theorem writeAll_prefix script : forall e data ok sent, writeAll script e data = Some (ok, sent) ->
  sent `prefix_of` data /\ (ok = true -> sent = data).
Proof.
  induction script as [|r script IH]; intros e [|b data] ok sent; cbn [writeAll]; [intros [= <- <-]; split; done|done|intros [= <- <-]; split; done|].
  destruct r as [n| | |].
  - destruct (writeAll script e (drop (S n) (b :: data))) as [[ok' rest]|] eqn:E; [|done]. intros [= <- <-].
    destruct (IH _ _ _ _ E) as [[tl Htl] Hok]. split.
    + exists tl. transitivity (take (S n) (b :: data) ++ drop (S n) (b :: data)); [by rewrite take_drop|]. by rewrite Htl, app_assoc.
    + intros H. rewrite Hok by done. exact (take_drop (S n) (b :: data)).
  - destruct e; [apply IH|]. intros [= <- <-]. split; [apply prefix_nil|done].
  - apply IH.
  - intros [= <- <-]. split; [apply prefix_nil|done].
Qed.

(** The two readers do not go together: bytes [readUntil] has read ahead are skipped by a
    [readExact] that follows (a body after its headers). *)
Theorem readExact_skips_read_ahead :
  let stream := bs "head;body" ++ bs "next" in
  readUntil [XMove 8] TcpStream_new (bs ";") stream = Some (Some (bs "head;"), mkStream (bs "body"), bs "next") /\
  readExact [XMove 3] 4 (bs "next") [] = Some (true, bs "next", []).
Proof. vm_compute. done. Qed.

(** ** [Acceptor] *)

(** The results of [socket], [bind] and [listen]. *)
Record Acceptor := mkAcceptor { ac_listen_fd : Z }.
Definition Acceptor_new : Acceptor := mkAcceptor (-1).

Definition bindAndListen (socket_fd : Z) (bind_ok listen_ok : bool) (a : Acceptor) : bool * Acceptor :=
  let a := mkAcceptor socket_fd in
  if ac_listen_fd a <? 0 then (false, a)
  else if negb bind_ok then (false, a)
  else (true, a).

Definition ac_destroy (a : Acceptor) : list Z := if ac_listen_fd a >=? 0 then [ac_listen_fd a] else [].

(** [accept] awaited: [await_ready] accepts at once when it can; otherwise the call after the
    event decides.  The results are those of the two calls of [accept4]. *)
Definition accept_await (first second : Z) : bool * option Z :=
  if first >=? 0 then (false, Some first)
  else (true, if second <? 0 then None else Some second).

(** The answer does not depend on [listen]: a server that cannot listen reports success. *)
Theorem bindAndListen_ignores_listen fd a : 0 <= fd ->
  bindAndListen fd true false a = (true, mkAcceptor fd) /\ ac_destroy (mkAcceptor fd) = [fd].
Proof.
  intros Hfd. unfold bindAndListen, ac_destroy. cbn [ac_listen_fd]. rewrite Z.geb_leb.
  destruct (Z.ltb_spec fd 0); [lia|]. by destruct (Z.leb_spec 0 fd); [|lia].
Qed.
