(* ===== verification/GatewayRun.v ===== *)
(** * The running gateway

    [core/executor.cpp] ([run]) and the threads of [gateway/main.cpp]: the main reactor that
    accepts, the sub reactors that start clients, the signal, the drain and the joins.  A
    client is a name; what its coroutine does is the business of [Gateway] and
    [Coroutines]. *)

From Stdlib Require Import ZArith Lia.
From stdpp Require Import base numbers strings list gmap.
From S2P Require Import Prelude CppString Timers.
Local Open Scope Z_scope.

(** ** [Executor::run] *)

Section Executor.
(** What the coroutines do: [done] and [resume] of a handle. *)
Context (is_done : nat -> Executor -> bool) (resume : nat -> Executor -> Executor).

Definition ex_resume (x : Executor) (c : nat) : Executor := if is_done c x then x else resume c x.

(** The inner loop over [ready_queue_], with the handles it took; [None] when it goes on beyond
    the given number of rounds. *)
Fixpoint ex_drain (rounds : nat) (x : Executor) : option (list nat * Executor) :=
  match ex_ready x with
  | [] => Some ([], x)
  | c :: ready =>
      match rounds with
      | O => None
      | S rounds =>
          '(cs, x) ← ex_drain rounds (ex_resume (mkExec ready (ex_callbacks x) (ex_interest x) (ex_timers x)) c);
          Some (c :: cs, x)
      end
  end.

(** One round of [run]. *)
Definition ex_round (rounds : nat) (x : Executor) (elapsed_ms : Z) (fds : list Z) : option Executor :=
  '(_, x) ← ex_drain rounds x;
  let '(fired, x) := ex_timers_round x elapsed_ms in
  let x := foldl ex_resume x fired in
  Some (processIO x fds).

(** If resuming a coroutine does not put handles into the ready queue (it waits for I/O or for
    a timer, or ends), the inner loop ends after resuming each queued handle once, in order. *)
Theorem ex_drain_ends x :
  (forall c y, ex_ready (resume c y) = ex_ready y) ->
  exists y, ex_drain (length (ex_ready x)) x = Some (ex_ready x, y) /\ ex_ready y = [].
Proof.
  intros Hr. remember (ex_ready x) as l eqn:E. symmetry in E. revert x E.
  induction l as [|c l IH]; intros x E; cbn [length ex_drain]; rewrite E; [by exists x|].
  destruct (IH (ex_resume (mkExec l (ex_callbacks x) (ex_interest x) (ex_timers x)) c)) as (y & Hy & He).
  { unfold ex_resume. destruct (is_done _ _); [done|]. by rewrite Hr. }
  exists y. by rewrite Hy.
Qed.

(** A coroutine that schedules itself whenever it is resumed keeps [run] in the inner loop: no
    timer and no descriptor is served any more. *)
Theorem ex_drain_starves c x :
  (forall y, is_done c y = false) -> (forall y, resume c y = ex_schedule y c) -> ex_ready x = [c] ->
  forall rounds elapsed fds, ex_round rounds x elapsed fds = None.
Proof.
  intros Hd Hr Hx rounds elapsed fds. unfold ex_round.
  assert (forall y, ex_ready y = [c] -> ex_drain rounds y = None) as H; [|by rewrite H].
  clear x Hx. induction rounds as [|n IH]; intros y Hy; cbn [ex_drain]; rewrite Hy; [done|].
  unfold ex_resume. rewrite Hd, Hr. by rewrite IH.
Qed.
End Executor.

(** ** Threads of the gateway *)

(** A sub reactor: [running], whether its thread is in the loop, its queue, the sockets it has
    swapped out and whether the first of them has passed the limit. *)
Record SubReactor := mkSub {
  sr_running : bool; sr_alive : bool; sr_pending : list nat; sr_incoming : list nat; sr_checked : bool }.
Definition SubReactor_new : SubReactor := mkSub true true [] [] false.

(** [main]: about to bind, giving up after a failed bind (waiting for sub reactor [i]), polling
    for connections, waiting for the drain, joining sub reactor [i], past the joins. *)
Inductive mphase := MBinding | MFailing (i : nat) | MPolling | MDraining | MJoining (i : nat) | MStopped.

Record GwState := mkGw {
  gw_running : bool;               (* g_running *)
  gw_main : mphase;
  gw_idx : nat;
  gw_subs : list SubReactor;
  gw_active : list nat;            (* g_inflight is their number *)
  gw_finished : list nat;
  gw_refused : list nat;
}.

Definition GwState_new (n_threads : nat) : GwState := mkGw true MBinding 0 (replicate n_threads SubReactor_new) [] [] [].

Definition with_subs (g : GwState) (subs : list SubReactor) : GwState :=
  mkGw (gw_running g) (gw_main g) (gw_idx g) subs (gw_active g) (gw_finished g) (gw_refused g).
Definition with_main (g : GwState) (p : mphase) : GwState :=
  mkGw (gw_running g) p (gw_idx g) (gw_subs g) (gw_active g) (gw_finished g) (gw_refused g).

Definition push_pending (c : nat) (s : SubReactor) : SubReactor :=
  mkSub (sr_running s) (sr_alive s) (sr_pending s ++ [c]) (sr_incoming s) (sr_checked s).
Definition stop_sub (s : SubReactor) : SubReactor :=
  mkSub false (sr_alive s) (sr_pending s) (sr_incoming s) (sr_checked s).

Section Gateway.
Context (max_connections : Z).

(** [main], from the bind to the end. *)
Inductive main_step (g : GwState) : GwState -> Prop :=
| ms_bound : gw_main g = MBinding -> main_step g (with_main g MPolling)
| ms_bind_failed : gw_main g = MBinding ->
    main_step g (with_main (with_subs g (alter stop_sub 0%nat (gw_subs g))) (MFailing 0))
| ms_fail_join i s : gw_main g = MFailing i -> gw_subs g !! i = Some s -> sr_alive s = false ->
    main_step g (with_main (with_subs g (alter stop_sub (S i) (gw_subs g))) (MFailing (S i)))
| ms_failed i : gw_main g = MFailing i -> gw_subs g !! i = None -> main_step g (with_main g MStopped)
| ms_leave : gw_main g = MPolling -> gw_running g = false ->
    main_step g (with_main (with_subs g (stop_sub <$> gw_subs g)) MDraining)
| ms_drained : gw_main g = MDraining ->   (* no client left, or the deadline has passed *)
    main_step g (with_main g (MJoining 0))
| ms_join i s : gw_main g = MJoining i -> gw_subs g !! i = Some s -> sr_alive s = false ->
    main_step g (with_main g (MJoining (S i)))
| ms_stopped i : gw_main g = MJoining i -> gw_subs g !! i = None -> main_step g (with_main g MStopped).

(** [subReactorLoop] of a sub reactor whose thread is in the loop. *)
Inductive sub_step (g : GwState) (i : nat) (s : SubReactor) : GwState -> Prop :=
| ss_swap : sr_incoming s = [] ->
    sub_step g i s (with_subs g (<[i := mkSub (sr_running s) true [] (sr_pending s) false]> (gw_subs g)))
| ss_check c cs : sr_incoming s = c :: cs -> sr_checked s = false -> zlen (gw_active g) < max_connections ->
    sub_step g i s (with_subs g (<[i := mkSub (sr_running s) true (sr_pending s) (c :: cs) true]> (gw_subs g)))
| ss_refuse c cs : sr_incoming s = c :: cs -> sr_checked s = false -> max_connections <= zlen (gw_active g) ->
    sub_step g i s (mkGw (gw_running g) (gw_main g) (gw_idx g)
                         (<[i := mkSub (sr_running s) true (sr_pending s) cs false]> (gw_subs g))
                         (gw_active g) (gw_finished g) (gw_refused g ++ [c]))
| ss_start c cs : sr_incoming s = c :: cs -> sr_checked s = true ->
    sub_step g i s (mkGw (gw_running g) (gw_main g) (gw_idx g)
                         (<[i := mkSub (sr_running s) true (sr_pending s) cs false]> (gw_subs g))
                         (gw_active g ++ [c]) (gw_finished g) (gw_refused g))
| ss_exit : sr_incoming s = [] -> sr_running s = false -> gw_active g = [] ->
    sub_step g i s (with_subs g (<[i := mkSub false false (sr_pending s) [] false]> (gw_subs g))).

(** [acceptLoop] hands a client to the sub reactor whose turn it is. *)
Definition accept_client (g : GwState) (c : nat) : GwState :=
  mkGw (gw_running g) (gw_main g) (S (gw_idx g)) (alter (push_pending c) (gw_idx g mod length (gw_subs g))%nat (gw_subs g))
       (gw_active g) (gw_finished g) (gw_refused g).

Definition signalHandler (g : GwState) : GwState :=
  mkGw false (gw_main g) (gw_idx g) (gw_subs g) (gw_active g) (gw_finished g) (gw_refused g).

(** One atomic action of a thread, of the signal handler or of a client's coroutine. *)
Inductive gw_step (g : GwState) : option nat -> GwState -> Prop :=
| gs_signal : gw_step g None (signalHandler g)
| gs_accept c : gw_main g = MPolling -> gw_step g (Some c) (accept_client g c)
| gs_main g' : main_step g g' -> gw_step g None g'
| gs_sub i s g' : gw_subs g !! i = Some s -> sr_alive s = true -> sub_step g i s g' -> gw_step g None g'
| gs_finish c l1 l2 : gw_active g = l1 ++ c :: l2 ->
    gw_step g None (mkGw (gw_running g) (gw_main g) (gw_idx g) (gw_subs g) (l1 ++ l2) (gw_finished g ++ [c]) (gw_refused g)).

Inductive gw_run (n : nat) : list nat -> GwState -> Prop :=
| gw_run_new : gw_run n [] (GwState_new n)
| gw_run_step cs g e g' : gw_run n cs g -> gw_step g e g' -> gw_run n (cs ++ option_list e) g'.

(** ** Every accepted client is in one place *)

Definition held (s : SubReactor) : list nat := sr_incoming s ++ sr_pending s.
Definition queued (subs : list SubReactor) : list nat := subs ≫= held.
Definition checked (subs : list SubReactor) : Z := zlen (filter (fun s => sr_checked s = true) subs).

Lemma queued_update subs i s s' : subs !! i = Some s -> queued (<[i := s']> subs) ++ held s ≡ₚ queued subs ++ held s'.
Proof.
  intros Hi. rewrite (insert_take_drop subs i s' ltac:(by eapply lookup_lt_Some)). rewrite <- (take_drop_middle subs i s Hi) at 3.
  unfold queued. rewrite !bind_app, !bind_cons. solve_Permutation.
Qed.

Lemma checked_update subs i s s' : subs !! i = Some s ->
  checked (<[i := s']> subs) + (if sr_checked s then 1 else 0) = checked subs + (if sr_checked s' then 1 else 0).
Proof.
  intros Hi. rewrite (insert_take_drop subs i s' ltac:(by eapply lookup_lt_Some)). rewrite <- (take_drop_middle subs i s Hi) at 3.
  unfold checked. rewrite !filter_app, !filter_cons, !zlen_app. destruct (sr_checked s), (sr_checked s'); repeat case_decide; rewrite ?zlen_cons; try done; lia.
Qed.

(** Some sub reactors are told to stop. *)
Definition stopping : list SubReactor -> list SubReactor -> Prop := Forall2 (fun s s' => s' = s \/ s' = stop_sub s).

Lemma stopping_refl subs : stopping subs subs.
Proof. apply Forall_Forall2_diag, Forall_true. by left. Qed.

Lemma stopping_all subs : stopping subs (stop_sub <$> subs).
Proof. unfold stopping. rewrite Forall2_fmap_r. apply Forall_Forall2_diag, Forall_true. by right. Qed.

Lemma stopping_alter i subs : stopping subs (alter stop_sub i subs).
Proof.
  apply Forall2_lookup. intros j. destruct (decide (i = j)) as [<-|Hne].
  - rewrite list_lookup_alter_eq. destruct (subs !! i); constructor. by right.
  - rewrite list_lookup_alter_ne by done. destruct (subs !! j); constructor. by left.
Qed.

Lemma stopping_queued subs subs' : stopping subs subs' -> queued subs' = queued subs.
Proof. unfold queued. induction 1 as [|s s' l l' [->| ->] _ IH]; [done|by rewrite !bind_cons, IH..]. Qed.

Lemma stopping_checked subs subs' : stopping subs subs' -> checked subs' = checked subs.
Proof.
  unfold checked. induction 1 as [|s s' l l' Hs _ IH]; [done|]. rewrite !filter_cons.
  destruct Hs as [->| ->]; cbn [stop_sub sr_checked]; (destruct (decide _); rewrite ?zlen_cons, IH; done).
Qed.

Lemma checked_bound subs : checked subs <= zlen subs.
Proof. unfold checked, zlen. pose proof (length_filter (fun s => sr_checked s = true) subs). lia. Qed.

(** The state of a reachable gateway with [n] sub reactors that has accepted [cs]. *)
Record gw_inv (n : nat) (cs : list nat) (g : GwState) : Prop := {
  gi_len : length (gw_subs g) = n;
  gi_once : cs ≡ₚ queued (gw_subs g) ++ gw_active g ++ gw_finished g ++ gw_refused g;
  gi_limit : zlen (gw_active g) + checked (gw_subs g) <= Z.max 0 (max_connections - 1 + Z.of_nat n);
  gi_dead : forall i s, gw_subs g !! i = Some s -> sr_alive s = false -> sr_incoming s = [] /\ sr_checked s = false /\ sr_running s = false;
  gi_ended : (forall i s, gw_subs g !! i = Some s -> sr_alive s = false) -> gw_active g = [];
  gi_checked : forall i s, gw_subs g !! i = Some s -> sr_checked s = true -> sr_incoming s <> [];
  gi_joined : forall i s j, gw_main g = MJoining j \/ gw_main g = MFailing j -> (i < j)%nat -> gw_subs g !! i = Some s -> sr_alive s = false;
  gi_stopped : gw_main g = MStopped -> forall i s, gw_subs g !! i = Some s -> sr_alive s = false;
}.

Lemma gw_new_inv n : gw_inv n [] (GwState_new n).
Proof.
  assert (forall i s, replicate n SubReactor_new !! i = Some s -> s = SubReactor_new) as Hs by (intros i s [-> _]%lookup_replicate; done).
  split; cbn [GwState_new gw_subs gw_active gw_finished gw_refused gw_main].
  - apply length_replicate.
  - clear. induction n as [|n IH]; [done|]. exact IH.
  - assert (checked (replicate n SubReactor_new) = 0) as ->; [|unfold zlen; simpl; lia].
    clear. induction n as [|n IH]; [done|]. unfold checked in *. cbn [replicate]. by rewrite filter_cons, decide_False.
  - intros i s Hi. by rewrite (Hs i s Hi).
  - done.
  - intros i s Hi. by rewrite (Hs i s Hi).
  - by intros i s j [?|?].
  - done.
Qed.

(** A sub reactor that is alive changes its own state, with the client it moves. *)
Lemma sub_step_inv n cs g i s s' act fin ref :
  gw_inv n cs g -> gw_subs g !! i = Some s -> sr_alive s = true -> sr_running s' = sr_running s ->
  (sr_alive s' = true \/ (sr_incoming s' = [] /\ sr_checked s' = false /\ sr_running s = false /\ act = [])) ->
  (sr_checked s' = true -> sr_incoming s' <> []) ->
  held s' ++ act ++ fin ++ ref ≡ₚ held s ++ gw_active g ++ gw_finished g ++ gw_refused g ->
  (zlen act + (if sr_checked s' then 1 else 0) <= zlen (gw_active g) + (if sr_checked s then 1 else 0) \/
   act = gw_active g /\ zlen act < max_connections) ->
  gw_inv n cs (mkGw (gw_running g) (gw_main g) (gw_idx g) (<[i := s']> (gw_subs g)) act fin ref).
Proof.
  intros [Hn Ho Hl Hd He Hc Hj Hst] Hi Ha Hr Ha' Hc' Hp' Hl'.
  assert (forall j x, <[i := s']> (gw_subs g) !! j = Some x -> (j = i /\ x = s') \/ (j <> i /\ gw_subs g !! j = Some x)) as Hlk.
  { intros j x [(-> & -> & _)|[? ?]]%list_lookup_insert_Some; [by left|right]. done. }
  split; cbn [gw_subs gw_active gw_finished gw_refused gw_main].
  - by rewrite length_insert.
  - apply (Permutation_app_inv_l (held s)). rewrite Ho. rewrite (app_assoc (held s) (queued (<[i:=s']> _))), (Permutation_app_comm (held s) (queued (<[i := s']> _))).
    rewrite (queued_update _ _ _ s' Hi), <- app_assoc, Hp'. solve_Permutation.
  - pose proof (checked_update _ _ _ s' Hi) as Hu. pose proof (checked_bound (<[i := s']> (gw_subs g))) as Hb. unfold zlen in Hb. rewrite length_insert, Hn in Hb.
    destruct Hl' as [Hl'|[-> Hlt]]; lia.
  - intros j x [[-> ->]|[_ Hx]]%Hlk Hax; [|by eapply Hd]. destruct Ha' as [Ha'|(? & ? & ? & _)]; [congruence|]. rewrite Hr. done.
  - intros Hall. assert (sr_alive s' = false) as Hs' by (apply (Hall i), list_lookup_insert_eq; by eapply lookup_lt_Some).
    destruct Ha' as [Ha'|(_ & _ & _ & ->)]; [congruence|done].
  - intros j x [[-> ->]|[_ Hx]]%Hlk; [done|by eapply Hc].
  - intros j x k Hm Hjk [[-> ->]|[_ Hx]]%Hlk; [|by eapply Hj]. pose proof (Hj i s k Hm Hjk Hi). congruence.
  - intros Hm j x [[-> ->]|[_ Hx]]%Hlk; [|by eapply Hst]. pose proof (Hst Hm i s Hi). congruence.
Qed.

(** Pushing a client into a queue. *)
Lemma accept_inv n cs g c : (0 < n)%nat -> gw_inv n cs g -> gw_main g = MPolling -> gw_inv n (cs ++ [c]) (accept_client g c).
Proof.
  intros Hn0 [Hn Ho Hl Hd He Hc Hj Hst] Hm. set (i := (gw_idx g mod length (gw_subs g))%nat).
  assert (i < length (gw_subs g))%nat as Hi by (apply Nat.mod_upper_bound; lia). destruct (lookup_lt_is_Some_2 _ _ Hi) as [s Hs].
  unfold accept_client. fold i. assert (alter (push_pending c) i (gw_subs g) = <[i := push_pending c s]> (gw_subs g)) as ->.
  { apply list_eq. intros j. destruct (decide (i = j)) as [<-|Hne]; [by rewrite list_lookup_alter_eq, list_lookup_insert_eq, Hs|].
    by rewrite list_lookup_alter_ne, list_lookup_insert_ne. }
  assert (forall j x, <[i := push_pending c s]> (gw_subs g) !! j = Some x ->
    exists y, gw_subs g !! j = Some y /\ sr_alive x = sr_alive y /\ sr_incoming x = sr_incoming y /\ sr_checked x = sr_checked y /\ sr_running x = sr_running y) as Hlk.
  { intros j x [(<- & <- & _)|[? ?]]%list_lookup_insert_Some; [by exists s|by exists x]. }
  split; cbn [gw_subs gw_active gw_finished gw_refused gw_main].
  - by rewrite length_insert.
  - apply (Permutation_app_inv_l (held s)). rewrite (app_assoc (held s) (queued (<[i:=_]> _))), (Permutation_app_comm (held s) (queued (<[i := _]> _))).
    rewrite (queued_update _ _ _ _ Hs). rewrite Ho. unfold held. cbn [push_pending sr_incoming sr_pending]. solve_Permutation.
  - pose proof (checked_update _ _ _ (push_pending c s) Hs) as Hu. cbn in Hu. destruct (sr_checked s); lia.
  - intros j x (y & Hy & -> & -> & -> & ->)%Hlk. by eapply Hd.
  - intros Hall. apply He. intros j y Hy. destruct (decide (i = j)) as [<-|Hne].
    + assert (y = s) as -> by congruence. apply (Hall i (push_pending c s)). by rewrite list_lookup_insert_eq.
    + apply (Hall j y). by rewrite list_lookup_insert_ne.
  - intros j x (y & Hy & _ & -> & -> & _)%Hlk. by eapply Hc.
  - by rewrite Hm; intros ? ? ? [?|?].
  - by rewrite Hm.
Qed.

(** The phase of [main] changes, and sub reactors are told to stop. *)
Lemma main_inv n cs g subs p : gw_inv n cs g -> stopping (gw_subs g) subs ->
  (forall j, p = MJoining j \/ p = MFailing j -> forall i s, (i < j)%nat -> gw_subs g !! i = Some s -> sr_alive s = false) ->
  (p = MStopped -> forall i s, gw_subs g !! i = Some s -> sr_alive s = false) -> gw_inv n cs (with_main (with_subs g subs) p).
Proof.
  intros [Hn Ho Hl Hd He Hc Hj Hst] Hs Hjoin Hstop.
  assert (forall i x, subs !! i = Some x -> exists y, gw_subs g !! i = Some y /\ (x = y \/ x = stop_sub y)) as Hlk.
  { intros i x Hx. destruct (Forall2_lookup_r _ _ _ _ _ Hs Hx) as (y & Hy & Hxy). eauto. }
  assert (forall i y, gw_subs g !! i = Some y -> exists x, subs !! i = Some x /\ sr_alive x = sr_alive y) as Hlk'.
  { intros i y Hy. destruct (Forall2_lookup_l _ _ _ _ _ Hs Hy) as (x & Hx & Hxy). exists x. split; [done|]. by destruct Hxy as [->| ->]. }
  split; cbn [with_main with_subs gw_subs gw_active gw_finished gw_refused gw_main].
  - by rewrite <- (Forall2_length _ _ _ Hs).
  - by rewrite (stopping_queued _ _ Hs).
  - by rewrite (stopping_checked _ _ Hs).
  - intros i x (y & Hy & Hxy)%Hlk Ha. destruct Hxy as [->| ->]; [by eapply Hd|]. cbn. by destruct (Hd _ _ Hy Ha) as (? & ? & _).
  - intros Hall. apply He. intros i y Hy. destruct (Hlk' _ _ Hy) as (x & Hx & <-). by apply (Hall i).
  - intros i x (y & Hy & Hxy)%Hlk. destruct Hxy as [->| ->]; exact (Hc i y Hy).
  - intros i x j E Hij (y & Hy & Hxy)%Hlk. assert (sr_alive x = sr_alive y) as -> by (by destruct Hxy as [->| ->]). by eapply Hjoin.
  - intros E i x (y & Hy & Hxy)%Hlk. assert (sr_alive x = sr_alive y) as -> by (by destruct Hxy as [->| ->]). by eapply Hstop.
Qed.

(** After a join one more sub reactor is known to have ended; after the last all have. *)
Lemma joined_next n cs g i s : gw_inv n cs g -> gw_main g = MJoining i \/ gw_main g = MFailing i -> gw_subs g !! i = Some s -> sr_alive s = false ->
  forall i' s', (i' < S i)%nat -> gw_subs g !! i' = Some s' -> sr_alive s' = false.
Proof.
  intros H Hm Hi Ha i' s' Hlt Hi'. destruct (decide (i' = i)) as [->|]; [congruence|]. eapply (gi_joined _ _ _ H i' s' i); [done|lia|done].
Qed.

Lemma joined_all n cs g i : gw_inv n cs g -> gw_main g = MJoining i \/ gw_main g = MFailing i -> gw_subs g !! i = None ->
  forall i' s', gw_subs g !! i' = Some s' -> sr_alive s' = false.
Proof.
  intros H Hm Hi i' s' Hi'. eapply (gi_joined _ _ _ H i' s' i); [done| |done]. apply lookup_ge_None in Hi. apply lookup_lt_Some in Hi'. lia.
Qed.

Lemma main_step_inv n cs g g' : gw_inv n cs g -> main_step g g' -> gw_inv n cs g'.
Proof.
  intros H Hs. assert (forall p, with_main g p = with_main (with_subs g (gw_subs g)) p) as E by done.
  destruct Hs as [Hm|Hm|i s Hm Hi Ha|i Hm Hi|Hm Hr|Hm|i s Hm Hi Ha|i Hm Hi]; rewrite ?E;
    apply main_inv; try done; try apply stopping_refl; try apply stopping_all; try apply stopping_alter; try (by intros ? [?|?]).
  - intros j [|[= <-]] i s ?; [done|lia].
  - intros j [|[= <-]]; [done|]. eapply joined_next; eauto.
  - intros _. eapply joined_all; eauto.
  - intros j [[= <-]|] i s ?; [lia|done].
  - intros j [[= <-]|]; [|done]. eapply joined_next; eauto.
  - intros _. eapply joined_all; eauto.
Qed.

Lemma gw_step_inv n cs g e g' : (0 < n)%nat -> gw_inv n cs g -> gw_step g e g' -> gw_inv n (cs ++ option_list e) g'.
Proof.
  intros Hn0 H Hs. destruct Hs as [|c Hm|g' Hs|i s g' Hi Ha Hs|c l1 l2 Hact]; cbn [option_list]; rewrite ?app_nil_r.
  - by destruct H; split.
  - by apply accept_inv.
  - by eapply main_step_inv.
  - destruct Hs as [Hin|c cs' Hin Hc Hlt|c cs' Hin Hc Hle|c cs' Hin Hc|Hin Hr Hact]; eapply (sub_step_inv n cs g i s); try done; try (by left); try (by right).
    + by unfold held; cbn; rewrite Hin, app_nil_r.
    + left. cbn. destruct (sr_checked s); lia.
    + by unfold held; cbn; rewrite Hin.
    + unfold held; cbn; rewrite Hin; solve_Permutation.
    + left. cbn. rewrite Hc. lia.
    + unfold held; cbn; rewrite Hin; solve_Permutation.
    + left. cbn. rewrite Hc, zlen_app, zlen_cons, zlen_nil. lia.
    + by unfold held; cbn; rewrite Hin.
    + left. cbn. destruct (sr_checked s); lia.
  - destruct H as [Hn Ho Hl Hd He Hc Hj Hst]. split; cbn; try done.
    + rewrite Ho, Hact. solve_Permutation.
    + rewrite Hact in Hl. rewrite zlen_app, zlen_cons in Hl. rewrite zlen_app. lia.
    + intros Hall. apply He in Hall. rewrite Hact in Hall. by destruct l1.
Qed.

Lemma gw_run_inv n cs g : (0 < n)%nat -> gw_run n cs g -> gw_inv n cs g.
Proof. intros Hn. induction 1; [apply gw_new_inv|]. by eapply gw_step_inv. Qed.

(** C33: in every interleaving of accepts, sub reactors, clients and the signal: each accepted client
    is in exactly one place (a queue, in flight, finished, refused at the limit); at most one
    client per further sub reactor is in flight beyond the limit; and the process stops only
    when no client is in flight any more. *)
Theorem gateway_clients_accounted n cs g : (0 < n)%nat -> gw_run n cs g ->
  cs ≡ₚ queued (gw_subs g) ++ gw_active g ++ gw_finished g ++ gw_refused g /\
  zlen (gw_active g) <= Z.max 0 (max_connections - 1 + Z.of_nat n) /\
  (gw_main g = MStopped -> gw_active g = [] /\ forall s, s ∈ gw_subs g -> sr_alive s = false /\ sr_incoming s = []).
Proof.
  intros Hn Hr. pose proof (gw_run_inv _ _ _ Hn Hr) as H. split_and!; [apply (gi_once _ _ _ H)| |].
  - pose proof (gi_limit _ _ _ H). assert (0 <= checked (gw_subs g)) by (unfold checked; apply zlen_nonneg). lia.
  - intros Hm. pose proof (gi_stopped _ _ _ H Hm) as Hd. split; [by apply (gi_ended _ _ _ H)|].
    intros s [i Hi]%list_elem_of_lookup. split; [by eapply Hd|]. by apply (gi_dead _ _ _ H i s Hi), (Hd i).
Qed.
End Gateway.

(** The deadline of the drain does not bound the shutdown: past it, with a client still in
    flight, [main] waits in its first join. *)
Theorem shutdown_waits_past_deadline max_connections g s c :
  gw_main g = MJoining 0 -> gw_subs g !! 0%nat = Some s -> sr_alive s = true -> c ∈ gw_active g ->
  forall e g', gw_step max_connections g e g' -> c ∈ gw_active g' ->
  gw_main g' = MJoining 0 /\ exists s', gw_subs g' !! 0%nat = Some s' /\ sr_alive s' = true.
Proof.
  intros Hm Hs Ha Hc e g' Hst Hc'. destruct Hst as [|d Hp|g' Hst|i t g' Hi Hai Hst|d l1 l2 Hact]; [by eauto|congruence| | |by eauto].
  - destruct Hst; congruence.
  - assert (forall x, sr_alive x = true -> exists s', <[i := x]> (gw_subs g) !! 0%nat = Some s' /\ sr_alive s' = true) as Hx.
    { intros x Hx. destruct (decide (i = 0%nat)) as [->|Hne]; [|rewrite list_lookup_insert_ne by done; eauto].
      exists x. split; [|done]. apply list_lookup_insert_eq. by eapply lookup_lt_Some. }
    destruct Hst as [| | | |_ _ Hnil]; cbn in *; try (split; [done|by apply Hx]). rewrite Hnil in Hc'. by apply not_elem_of_nil in Hc'.
Qed.

(** A gateway with one sub reactor that serves client 7 when the signal comes. *)
Definition demo_gw : GwState := mkGw false (MJoining 0) 1 [mkSub false true [] [] false] [7%nat] [] [].

Lemma demo_gw_run : gw_run 1 1 [7%nat] demo_gw.
Proof.
  set (sub b p q k := mkSub b true p q k). set (at_ r m i s a := mkGw r m i [s] a [] []).
  assert (forall cs g g', gw_run 1 1 cs g -> gw_step 1 g None g' -> gw_run 1 1 cs g') as Hstep.
  { intros cs g g' Hr Hs. rewrite <- (app_nil_r cs). exact (gw_run_step 1 1 cs g None g' Hr Hs). }
  apply (Hstep _ (at_ false MDraining 1%nat (sub false [] [] false) [7%nat])); [|by apply gs_main, ms_drained].
  apply (Hstep _ (at_ false MPolling 1%nat (sub true [] [] false) [7%nat])); [|by apply gs_main, ms_leave].
  apply (Hstep _ (at_ true MPolling 1%nat (sub true [] [] false) [7%nat])); [|by apply gs_signal].
  assert (forall cs g s g', gw_run 1 1 cs g -> gw_subs g !! 0%nat = Some s -> sr_alive s = true -> sub_step 1 g 0 s g' -> gw_run 1 1 cs g') as Hsub.
  { intros cs g s g' Hr Hs Ha Hst. apply (Hstep cs g); [done|]. by apply (gs_sub 1 g 0 s). }
  set (s1 := sub true [7%nat] [] false). set (s2 := sub true [] [7%nat] false). set (s3 := sub true [] [7%nat] true).
  refine (Hsub _ (at_ true MPolling 1%nat s3 []) s3 _ _ eq_refl eq_refl (ss_start 1 (at_ true MPolling 1%nat s3 []) 0 s3 7%nat [] eq_refl eq_refl)).
  refine (Hsub _ (at_ true MPolling 1%nat s2 []) s2 _ _ eq_refl eq_refl (ss_check 1 (at_ true MPolling 1%nat s2 []) 0 s2 7%nat [] eq_refl eq_refl eq_refl)).
  refine (Hsub _ (at_ true MPolling 1%nat s1 []) s1 _ _ eq_refl eq_refl (ss_swap 1 (at_ true MPolling 1%nat s1 []) 0 s1 eq_refl)).
  apply (gw_run_step 1 1 [] (at_ true MPolling 0%nat (sub true [] [] false) []) (Some 7%nat)); [|by apply gs_accept].
  apply (Hstep _ (GwState_new 1)); [apply gw_run_new|by apply gs_main, ms_bound].
Qed.

Lemma gateway_clients_accounted_witness : [7%nat] ≡ₚ queued (gw_subs demo_gw) ++ gw_active demo_gw ++ gw_finished demo_gw ++ gw_refused demo_gw.
Proof. exact (proj1 (gateway_clients_accounted 1 1 [7%nat] demo_gw ltac:(lia) demo_gw_run)). Defined.
