(* ===== verification/GatewayMain.v ===== *)
(** * The rest of the gateway's program

    The thread of [proxy/health_check.cpp], opening a pooled connection with a time limit
    ([proxy/connection_pool.cpp]), the unused [core/thread_pool.cpp] and [net/resolver.cpp], the
    awaitable of [net/socket.cpp] and the command line of [gateway/main.cpp]. *)

From Stdlib Require Import ZArith Lia.
From stdpp Require Import base numbers strings list gmap.
From S2P Require Import Prelude CppString LoadBalance Http Timers Gateway GatewayConfig Reactor.
Local Open Scope Z_scope.

(** ** Time limits *)

(** [timeval{ms / 1000, (ms % 1000) * 1000}]; [/] and [%] truncate. *)
Definition timeval_of_ms (ms : Z) : Z * Z := (Z.quot ms 1000, Z.rem ms 1000 * 1000).

(** For a limit that is not negative the pair is a valid [timeval] of that length. *)
Theorem timeval_of_ms_ok ms : 0 <= ms ->
  let '(s, us) := timeval_of_ms ms in 0 <= s /\ 0 <= us < 1000000 /\ s * 1000000 + us = ms * 1000.
Proof.
  intros H. unfold timeval_of_ms. rewrite Z.quot_div_nonneg, Z.rem_mod_nonneg by lia.
  pose proof (Z.div_mod ms 1000). pose proof (Z.mod_pos_bound ms 1000). lia.
Qed.

(** ** Opening a connection with a limit *)

Definition kConnectTimeoutMs : Z := 2000.
Example connect_limit : timeval_of_ms kConnectTimeoutMs = (2, 0).
Proof. reflexivity. Qed.
Definition O_NONBLOCK : Z := 2048.
Definition FD_SETSIZE : Z := 1024.

(** What the system calls return: [fcntl(F_GETFL)], the two [fcntl(F_SETFL)], [connect] and
    whether [errno] is [EINPROGRESS], [select], [getsockopt] and the error it reports. *)
Record timed_env := mkTimed {
  te_getfl : Z; te_setfl : bool; te_restore : bool;
  te_connect : bool; te_inprogress : bool; te_select : Z; te_sockopt : bool; te_so_error : Z }.

(** The result and the flags of the descriptor; [None]: [FD_SET] writes outside the set. *)
Definition connectWithTimeout (e : timed_env) (fd : Z) : option (bool * Z) :=
  let flags := te_getfl e in
  let restored := if te_restore e then flags else Z.lor flags O_NONBLOCK in
  if flags <? 0 then Some (false, flags)
  else if negb (te_setfl e) then Some (false, flags)
  else if te_connect e then Some (true, restored)
  else if negb (te_inprogress e) then Some (false, Z.lor flags O_NONBLOCK)
  else if FD_SETSIZE <=? fd then None
  else if te_select e <=? 0 then Some (false, Z.lor flags O_NONBLOCK)
  else if negb (te_sockopt e) || negb (te_so_error e =? 0) then Some (false, Z.lor flags O_NONBLOCK)
  else Some (true, restored).

(** [socket], [inet_pton] and the connection: the socket handed out and the descriptors
    closed. *)
Definition open_connection (socket_fd : Z) (pton : bool) (e : timed_env) : option (option Z * list Z) :=
  if socket_fd <? 0 then Some (None, [])
  else if negb pton then Some (None, [socket_fd])
  else
    '(ok, _) ← connectWithTimeout e socket_fd;
    Some (if ok : bool then (Some socket_fd, []) else (None, [socket_fd])).

(** [ConnectionPool::acquire] as a whole: an idle socket, or a new connection. *)
Definition acquire_socket (p : ConnPool Z) (u : Upstream) (socket_fd : Z) (pton : bool) (e : timed_env) : option (option Z * list Z * ConnPool Z) :=
  match cp_pools p !! pool_key u with
  | Some (_ :: _) => let '(s, p) := cp_acquire p u None in Some (s, [], p)
  | _ => '(fresh, closed) ← open_connection socket_fd pton e;
         let '(s, p) := cp_acquire p u fresh in Some (s, closed, p)
  end.

(** For a descriptor below [FD_SETSIZE] the call returns, a connection is reported exactly when
    [connect] or the check after [select] says so, and then the descriptor has its old flags
    if the call that restores them succeeds. *)
Theorem connectWithTimeout_ok e fd : fd < FD_SETSIZE ->
  exists ok flags, connectWithTimeout e fd = Some (ok, flags) /\
    (ok = true <-> 0 <= te_getfl e /\ te_setfl e = true /\
       (te_connect e = true \/ te_inprogress e = true /\ 0 < te_select e /\ te_sockopt e = true /\ te_so_error e = 0)) /\
    (ok = true -> te_restore e = true -> flags = te_getfl e).
Proof.
  intros Hfd. unfold connectWithTimeout.
  destruct (Z.ltb_spec (te_getfl e) 0); [by eexists _, _; split_and!; [done|split; [done|lia]|done]|].
  destruct (te_setfl e); [|by eexists _, _; split_and!; [done|split; [done|]; by intros (_ & ? & _)|done]].
  destruct (te_connect e); [by eexists _, _; split_and!; [done|split; auto|]; intros _ ->|]. cbn.
  destruct (te_inprogress e); [|by eexists _, _; split_and!; [done|split; [done|]; by intros (_ & _ & [?|[? _]])|done]]. cbn.
  destruct (Z.leb_spec FD_SETSIZE fd); [lia|].
  destruct (Z.leb_spec (te_select e) 0); [by eexists _, _; split_and!; [done|split; [done|]; by intros (_ & _ & [?|(_ & ? & _)]); lia|done]|].
  destruct (te_sockopt e); [|by eexists _, _; split_and!; [done|split; [done|]; by intros (_ & _ & [?|(_ & _ & ? & _)])|done]]. cbn.
  destruct (Z.eqb_spec (te_so_error e) 0) as [E|E]; cbn.
  - eexists _, _. split_and!; [done|split; [|done]|by intros _ ->]. intros _. split_and!; [done..|]. by right.
  - eexists _, _. split_and!; [done|split; [done|]|done]. intros (_ & _ & [?|(_ & _ & _ & ?)]); done.
Qed.

(** A descriptor that is opened is handed out or closed, exactly one of both, and a socket from
    the pool opens none. *)
Theorem acquire_socket_no_leak p u fd pton e s closed p' :
  acquire_socket p u fd pton e = Some (s, closed, p') ->
  (exists i idle, cp_pools p !! pool_key u = Some (i :: idle) /\ s = Some i /\ closed = []) \/
  (s = Some fd /\ closed = [] /\ 0 <= fd) \/ (s = None /\ closed = if 0 <=? fd then [fd] else []).
Proof.
  unfold acquire_socket. destruct (cp_pools p !! pool_key u) as [[|i idle]|] eqn:E.
  2: { unfold cp_acquire. rewrite E. intros [= <- <- _]. left. by exists i, idle. }
  all: unfold open_connection, cp_acquire; rewrite E; intros H; right;
    destruct (Z.ltb_spec fd 0); [injection H as <- <- _; right; destruct (Z.leb_spec 0 fd); [lia|done]|];
    (destruct pton; [|injection H as <- <- _; right; destruct (Z.leb_spec 0 fd); [done|lia]]); cbn in H;
    destruct (connectWithTimeout e fd) as [[[] fl]|]; try done; cbn in H; injection H as <- <- _;
    [by left|right; destruct (Z.leb_spec 0 fd); [done|lia]].
Qed.

(** A new descriptor of 1024 or more, with the connection in progress, is written outside the
    [fd_set] on the stack. *)
Theorem connectWithTimeout_overflows e fd :
  FD_SETSIZE <= fd -> 0 <= te_getfl e -> te_setfl e = true -> te_connect e = false -> te_inprogress e = true ->
  connectWithTimeout e fd = None.
Proof.
  intros Hfd H1 H2 H3 H4. unfold connectWithTimeout. destruct (Z.ltb_spec (te_getfl e) 0); [lia|]. rewrite H2, H3, H4. cbn.
  by destruct (Z.leb_spec FD_SETSIZE fd); [|lia].
Qed.

(** ** The thread of the health check

    The thread is detached; it uses the [HealthCheck] and, through it, the manager, both local
    variables of [main]. *)

Inductive hcphase := HCHead | HCProbing (todo : list nat) | HCSleeping | HCExited.

Record HealthThread := mkHC {
  hc_running : bool;       (* running_ *)
  hc_phase : hcphase;
  hc_objects : bool;       (* main's variables exist *)
  hc_heap : heap;          (* the upstreams *)
}.

Section Health.
Context (m : UpstreamManager).

(** [start]: the flag is set before the thread is created. *)
Definition hc_start (h : heap) : HealthThread := mkHC true HCHead true h.

(** One probe: [success] is what [socket] and [connect] say. *)
Definition probe_one (h : heap) (p : nat) (success : bool) : heap :=
  match h !! p with
  | Some u => (if success then markUp else markDown) h m (up_host u) (up_port u)
  | None => h
  end.

(** One action of the thread, then those of [main]: [hc.stop()] and the end of the variables. *)
Inductive hc_step (c : HealthThread) : option (nat * bool) -> HealthThread -> Prop :=
| hc_round : hc_phase c = HCHead -> hc_running c = true ->
    hc_step c None (mkHC true (HCProbing (um_upstreams m)) (hc_objects c) (hc_heap c))
| hc_leave : hc_phase c = HCHead -> hc_running c = false -> hc_step c None (mkHC false HCExited (hc_objects c) (hc_heap c))
| hc_probe p ps success : hc_phase c = HCProbing (p :: ps) ->
    hc_step c (Some (p, success)) (mkHC (hc_running c) (HCProbing ps) (hc_objects c) (probe_one (hc_heap c) p success))
| hc_sleep : hc_phase c = HCProbing [] -> hc_step c None (mkHC (hc_running c) HCSleeping (hc_objects c) (hc_heap c))
| hc_wake : hc_phase c = HCSleeping -> hc_step c None (mkHC (hc_running c) HCHead (hc_objects c) (hc_heap c))
| hc_stop : hc_step c None (mkHC false (hc_phase c) (hc_objects c) (hc_heap c))
| hc_return : hc_step c None (mkHC (hc_running c) (hc_phase c) false (hc_heap c)).

Inductive hc_run : HealthThread -> list (nat * bool) -> HealthThread -> Prop :=
| hc_run_nil c : hc_run c [] c
| hc_run_snoc c ps c1 o c2 : hc_run c ps c1 -> hc_step c1 o c2 -> hc_run c (ps ++ option_list o) c2.

(** The probes of a round are those of [health_round], in order. *)
Lemma probes_round probe h l :
  foldl (fun h p => probe_one h p (probe p)) h l =
  foldl (fun h p => match h !! p with Some u => mark (probe p) h m (up_host u) (up_port u) | None => h end) h l.
Proof.
  revert h. induction l as [|p l IH]; intros h; [done|]. cbn. rewrite IH. f_equal. unfold probe_one.
  by destruct (h !! p); [destruct (probe p)|].
Qed.

(** The thread at work: undisturbed it goes from the head of its loop to the sleep, and what it
    does to the upstreams on the way is [health_round]. *)
Theorem health_thread_round (probe : nat -> bool) (c : HealthThread) :
  hc_phase c = HCHead -> hc_running c = true ->
  exists c', hc_run c ((fun p => (p, probe p)) <$> um_upstreams m) c' /\ hc_phase c' = HCSleeping /\ hc_running c' = true /\
    hc_heap c' = health_round probe (hc_heap c) m.
Proof.
  intros Hp Hr. unfold health_round. rewrite <- probes_round.
  assert (forall done todo, um_upstreams m = done ++ todo ->
    hc_run c ((fun p => (p, probe p)) <$> done) (mkHC true (HCProbing todo) (hc_objects c) (foldl (fun h p => probe_one h p (probe p)) (hc_heap c) done))) as Hgo.
  { intros done. induction done as [|p done IH] using rev_ind; intros todo E.
    - cbn in E. rewrite <- E. apply (hc_run_snoc c [] c None); [constructor|by apply hc_round].
    - rewrite fmap_app, foldl_app. rewrite <- app_assoc in E. eapply (hc_run_snoc c _ _ (Some (p, probe p))); [by apply (IH (p :: todo))|].
      cbn. by apply (hc_probe (mkHC true (HCProbing (p :: todo)) _ _)). }
  pose proof (Hgo (um_upstreams m) [] (eq_sym (app_nil_r _))) as Hr'.
  exists (mkHC true HCSleeping (hc_objects c) (foldl (fun h p => probe_one h p (probe p)) (hc_heap c) (um_upstreams m))).
  split; [|done]. rewrite <- (app_nil_r (_ <$> um_upstreams m)). eapply (hc_run_snoc c _ _ None); [exact Hr'|]. by apply (hc_sleep (mkHC true (HCProbing []) _ _)).
Qed.

(** What may still happen once [running_] is false: no round begins. *)
Definition probes_left (ph : hcphase) : nat := match ph with HCProbing todo => length todo | _ => 0 end.

Theorem health_thread_stops c ps c' :
  hc_run c ps c' -> hc_running c = false -> hc_running c' = false /\ (length ps + probes_left (hc_phase c') <= probes_left (hc_phase c))%nat.
Proof.
  intros Hrun Hr. induction Hrun as [c|c ps c1 o c2 _ IH Hs]; [by split; [|cbn; lia]|].
  destruct (IH Hr) as [I1 I2]. rewrite length_app. destruct Hs as [Hp Hr'|Hp Hr'|p ts s Hp|Hp|Hp| |]; cbn in *; rewrite ?Hp in *; cbn in *; (split; [done||congruence|]); try lia.
  congruence.
Qed.
End Health.

(** Nothing waits for the thread: [main] stops the check and returns, and the thread goes on
    probing with objects that are gone. *)
Theorem health_thread_outlives_main :
  let m := mkUM [0%nat; 1%nat] 0 in let h := [mkUp (bs "10.0.0.1") 80 1 0 true; mkUp (bs "10.0.0.2") 80 1 0 true] in
  exists ps c, hc_run m (hc_start h) ps c /\ hc_running c = false /\ hc_objects c = false /\ hc_phase c = HCProbing [1%nat].
Proof.
  intros m h. pose (h' := probe_one m h 0 true).
  pose (c1 := mkHC true (HCProbing [0%nat; 1%nat]) true h). pose (c2 := mkHC true (HCProbing [1%nat]) true h').
  pose (c3 := mkHC false (HCProbing [1%nat]) true h'). pose (c4 := mkHC false (HCProbing [1%nat]) false h').
  exists ([] ++ option_list None ++ option_list (Some (0%nat, true)) ++ option_list None ++ option_list None), c4. split; [|done].
  rewrite !app_assoc. apply hc_run_snoc with c3; [|by apply (hc_return m c3)].
  apply hc_run_snoc with c2; [|by apply (hc_stop m c2)].
  apply hc_run_snoc with c1; [|by apply (hc_probe m c1)].
  apply hc_run_snoc with (hc_start h); [constructor|by apply (hc_round m (hc_start h))].
Qed.

(** ** The command line and the set-up *)

Fixpoint config_path_args (argv : list bytes) (path : bytes) : bytes :=
  match argv with
  | [] => path
  | arg :: rest =>
      match rest with
      | v :: rest' => if bool_decide (arg = bs "--config") then config_path_args rest' v else config_path_args rest path
      | [] => path
      end
  end.
Definition config_path (argv : list bytes) : bytes := config_path_args argv (bs "gateway.yaml").

(** How far [main] gets: it gives up when the file cannot be opened (exit status 1), an
    exception of the reader ends the process, or it starts with its upstreams, balancer, number
    of sub reactors and port. *)
Inductive gw_setup := GwFails (status : Z) | GwThrows | GwStarts (h : heap) (m : UpstreamManager) (weights : list Z) (threads port : Z).

Definition gateway_setup (files : bytes -> option (list bytes)) (argv : list bytes) : gw_setup :=
  match files (config_path argv) with
  | None => GwFails 1
  | Some lines =>
      match config_load lines with
      | None => GwThrows
      | Some cfg =>
          let '(h, m) := reload [] UpstreamManager_new (config_upstreams cfg) in
          GwStarts h m (wrr_new m) (config_threads cfg) (cf_listen_port cfg)
      end
  end.

(** The last [--config] that has a value wins; a final [--config] without one is ignored. *)
Lemma config_path_last pre v : Forall (fun a => a <> bs "--config") pre ->
  config_path (pre ++ [bs "--config"; v; bs "--config"]) = v.
Proof.
  intros H. unfold config_path. generalize (bs "gateway.yaml") as d. induction H as [|a pre Ha _ IH]; intros d; [done|].
  cbn [app config_path_args]. destruct pre as [|a' pre]; cbn [app] in *; rewrite bool_decide_eq_false_2 by done; apply IH.
Qed.

(** Started with the file of a valid configuration, the gateway has exactly its upstreams, all
    healthy and idle, at least one sub reactor, and the port of the file. *)
Theorem gateway_starts_configured files argv c :
  config_ok c -> files (config_path argv) = Some (print_config c) ->
  exists h m w n, gateway_setup files argv = GwStarts h m w n (cf_listen_port c) /\ 0 < n /\
    um_upstreams m = seq 0 (length (cf_upstreams c)) /\ h = config_upstreams c /\
    w = replicate (length (cf_upstreams c)) 0.
Proof.
  intros Hc Hf. unfold gateway_setup. rewrite Hf, config_roundtrip by done.
  eexists _, _, _, _. split_and!; [done|unfold config_threads; destruct (Z.gtb_spec (cf_worker_threads c) 0); lia|..]; cbn;
    unfold config_upstreams, wrr_new, resize; cbn; rewrite ?length_map; try done.
  by rewrite length_seq, take_nil, Nat.sub_0_r.
Qed.

(** [sendSimple]: a fixed answer is written like any other bytes. *)
Definition sendSimple (results : list sys) (resp : bytes) : option (bool * bytes) := asyncWriteAll results resp.

(** ** [SocketAwaitable]

    The awaitables of [Socket::asyncRead] and [asyncWrite]: registration and resumption; the
    buffer and its length are not looked at, and the result is 0 once the descriptor is ready. *)

Record SocketAwaitable := mkSA { sa_fd : Z; sa_events : Z; sa_result : Z }.
Definition EPOLLIN_ : Z := 1.
Definition EPOLLOUT_ : Z := 4.
Definition SocketAwaitable_new (fd events : Z) : SocketAwaitable := mkSA fd events (-1).
Definition socket_asyncRead (fd : Z) (len : Z) : SocketAwaitable := SocketAwaitable_new fd EPOLLIN_.
Definition socket_asyncWrite (fd : Z) (len : Z) : SocketAwaitable := SocketAwaitable_new fd EPOLLOUT_.
Definition sa_suspend (c : IOContext) (a : SocketAwaitable) (h : nat) : IOContext := io_add c (sa_fd a) (sa_events a) h.
Definition sa_called (a : SocketAwaitable) : SocketAwaitable := mkSA (sa_fd a) (sa_events a) 0.
Definition sa_resume (a : SocketAwaitable) : Z := sa_result a.

(** Awaiting it resumes the coroutine once, on the first event of the descriptor, with 0; no
    byte has been read or written. *)
Theorem socket_awaitable_once (ops : list io_op) (fd len : Z) (h : nat) :
  let c := sa_suspend (foldl io_step IOContext_new ops) (socket_asyncRead fd len) h in
  (poll_one c fd).1 = Some h /\ (poll_one (poll_one c fd).2 fd).1 = None /\ sa_resume (sa_called (socket_asyncRead fd len)) = 0.
Proof. intros c. destruct (io_watch_once ops fd EPOLLIN_ h) as (_ & H1 & _ & H2). by split_and!. Qed.

(** ** [Resolver]

    [getaddrinfo] answers with the IPv4 addresses of the host, or not; [inet_ntop] prints one. *)

Definition ipv4 : Type := byte * byte * byte * byte.
Definition inet_ntop (a : ipv4) : bytes :=
  let '(a, b, c, d) := a in
  to_string (b2z a) ++ bs "." ++ to_string (b2z b) ++ bs "." ++ to_string (b2z c) ++ bs "." ++ to_string (b2z d).

Definition resolve (getaddrinfo : bytes -> option (list ipv4)) (hostname : bytes) : list bytes :=
  match getaddrinfo hostname with Some addrs => inet_ntop <$> addrs | None => [] end.

Lemma byte_digits c : (length (to_string (b2z c)) <= 3)%nat.
Proof. by destruct c; vm_compute; repeat constructor. Qed.

(** Every address fits the buffer of [INET_ADDRSTRLEN] bytes with its terminator. *)
Theorem resolve_fits getaddrinfo hostname : Forall (fun s => (length s < 16)%nat) (resolve getaddrinfo hostname).
Proof.
  unfold resolve. destruct (getaddrinfo hostname) as [addrs|]; [|done]. apply Forall_fmap, Forall_true. intros [[[a b] c] d]. cbv beta. unfold compose, inet_ntop.
  pose proof (byte_digits a). pose proof (byte_digits b). pose proof (byte_digits c). pose proof (byte_digits d).
  rewrite !length_app. change (length (bs ".")) with 1%nat. lia.
Qed.

(** ** The thread pool of skynet

    [core/thread_pool.cpp] is the code of [utils/thread_pool.h] with the bodies moved out of the
    class; the states and actions are those of [Reactor]. *)

Section SkyPool.
Context {T : Type}.
Definition sky_pool_new (num_threads : nat) : ThreadPool T := ThreadPool_new num_threads.
Definition sky_submit (p : ThreadPool T) (t : T) : ThreadPool T := submit p t.
Definition sky_stop (p : ThreadPool T) : ThreadPool T := tp_stop p.
Definition sky_workerLoop : ThreadPool T -> tp_action T -> ThreadPool T -> Prop := tp_step.
Inductive sky_run : ThreadPool T -> list (tp_action T) -> ThreadPool T -> Prop :=
| sky_nil p : sky_run p [] p
| sky_snoc p as_ p1 a p2 : sky_run p as_ p1 -> sky_workerLoop p1 a p2 -> sky_run p (as_ ++ [a]) p2.

(** So its tasks run once each, in the order of submission, and none is stranded while the pool
    runs. *)
Theorem sky_pool_exactly_once (n : nat) (as_ : list (tp_action T)) (p : ThreadPool T) :
  (0 < n)%nat -> sky_run (sky_pool_new n) as_ p ->
  tasks_submitted as_ = started as_ ++ tp_tasks p /\ started as_ ≡ₚ finished as_ ++ busy (tp_workers p) /\
  (tp_running p = true -> tp_tasks p <> [] -> tp_notify_one p = 0%nat -> some_up (tp_workers p)).
Proof.
  intros Hn Hr. apply (thread_pool_exactly_once n); [done|]. unfold sky_pool_new in Hr.
  induction Hr as [p|p as_ p1 a p2 _ IH Hs]; [constructor|by apply tp_run_snoc with p1; [apply IH|]].
Qed.
End SkyPool.
